(* ===== verification/_CoqProject ===== *)
-Q . S2P
Prelude.v
GoStrings.v
SemVer.v
Calendar.v
TimeSpec.v
TimeSpecParse.v
Encoding.v
Json.v
GoPath.v
Glob.v
Job.v
Heap.v
JobQueue.v
RunLog.v
MemRunLog.v
Durations.v
LogCodec.v
FileSys.v
FileRunLog.v
FileRunLogFacts.v
RunRecServer.v
ResultSink.v
Exec.v
Sections.v
Logging.v
JobFile.v
Constants.v
JobRunner.v
DefaultJobfile.v
JobManager.v
JobManagerFacts.v
CommandFacts.v
ManagerExamples.v
Scheduling.v
LoggerFacts.v
Settings.v
IpcServer.v
TestJob.v
TestClient.v
Runner.v
Master.v
Platform.v
RunnerMain.v
RunnerProcess.v
TabWriter.v
Client.v
Deployment.v
