(* ===== verification/Prelude.v ===== *)
(** * A verification development for Jobber

    Jobber runs the jobs that users describe in a jobfile, at the times they ask
    for, and tells them how the runs went.  It is three programs (under [src/]):

    - the master, [jobbermaster]: reads the preferences and the passwd file,
      makes a directory for each user who may have jobs, and keeps one runner
      process going for each;
    - the runner, [jobberrunner]: loads its user's jobfile, runs the jobs when
      they are due, records the runs, notifies the user, and answers commands;
    - the client, [jobber]: sends commands to one runner or to all of them, over
      their sockets, and prints the answers.

    The packages [common] (settings, users, subprocesses, logging), [ipc] (the
    types of commands and responses) and [jobfile] (jobs, schedules, jobfiles,
    run logs, result sinks) are shared.

    ** How the code is translated

    A function is a definition of the same name, in the same order of tests and
    effects.  Its result is an [outcome]: a value, an error ([common.Error] and
    the errors of the libraries are constructors of [error]), a panic, or
    [Running] when a loop has used up its fuel.  Code that changes state is in the
    monad [stM], which keeps the state also when the code fails or panics.  Objects
    shared by pointer (jobs, servers of run records, log files) live in a store
    under their name.  Integers of fixed width are [Z] with their wrap-around
    ([wrap64]) wherever the code does not bound them; bytes are [ascii].  A
    goroutine is not a thread of control here: its turns are functions, and a
    relation or a list of events interleaves them with the turns of the others.

    A loop of the source is structural recursion where there is a list to follow,
    and takes fuel where there is none.  For each of the latter a lemma says how
    much fuel is enough: the heap by the length of the queue ([Heap]), [sort.Search]
    by the length of its interval ([search_go] below), the lexer by the length of
    the text ([lex_fuel]), sets of values by 64, more than any field has values
    ([eval_fuel]; a step of 0 exhausts any fuel, [zero_step_diverges]), the sleeping
    [Pop] by a number computed from the queue and the wake-ups ([pop_fuel],
    [Pop_returns]), the patterns of file names by the lengths of pattern and name
    ([Match_answers]), the iterator of the log in files by the number of its files.

    ** The files

    The libraries of Go that the program's behaviour rests on:
    - this file: the monad and its laws, binary search, lemmas on lists, the
      tactics and the hint databases;
    - [GoStrings] ([strings], [strconv]), [Calendar] ([time.Time] and its fields,
      over a location given as a parameter), [Durations] ([time.Duration] as text),
      [Encoding] and [Json] ([unicode/utf8], [encoding/base64], [encoding/json]),
      [GoPath] and [Glob] ([path/filepath]), [Heap] ([container/heap]), [FileSys]
      ([os], with faults), [TabWriter] ([text/tabwriter], layouts of [time]).

    Package [jobfile]:
    - [SemVer] (semver.go);
    - [TimeSpec] (time_spec.go): schedules; [FullSatisfied_correct] says what a
      schedule means; [TimeSpecParse] (parse_time_spec.y): lexer, parser, evaluation;
      the parser accepts the sentences of the grammar ([parse_top_grammar]), the
      values of a field are those its expression denotes ([parseTimeSpec_correct]),
      printing and parsing are inverse ([String_parse_roundtrip]);
    - [Job] (job.go, error_handler.go): a job and what failures do to it
      ([Backoff_protocol] is the whole life of a failing job);
    - [RunLog] (run_log.go): the interface of logs, with its laws as a class;
      [MemRunLog] (mem_only_run_log.go) and [FileRunLog], [FileRunLogFacts],
      [LogCodec] (file_run_log.go) are its implementations: the log in memory holds
      the latest runs ([Puts_keep_latest]); the log in files agrees with its index,
      through rotation ([file_Put_correct]) and reopening ([reopened_log]);
    - [RunRecServer] (run_rec_server.go): the servers that hand records to whoever
      is connected, as a transition system ([server_traces_safe],
      [record_delivered], [stopped_server_ends]);
    - [ResultSink] (result_sink*.go): which configurations are accepted
      ([MakeResultSinkFromConfig_correct]) and what each sink does;
    - [Sections] and [JobFile] (job_file.go): loading, upgrading from the legacy
      formats ([v1v2ToV3_correct]) and activating ([Activate_correct]) jobfiles.

    Package [jobberrunner]:
    - [JobQueue] (queue.go): the search for the next time of a job
      ([nextRunTime_correct]) and the queue; [Pop] refines a relation that knows
      nothing of the heap ([Pop_refines]), and returns ([Pop_returns]);
    - [JobRunner] (job_runner_thread.go): one run of a job ([RunJob_correct],
      [RunJob_files]) and the goroutine that pops jobs ([thread_pop_correct]); [Exec]
      (common/exec.go) is the subprocess below it, with its temporary files and the
      goroutine that cancels it ([fate_sound]);
    - [JobManager] (job_manager.go, cmd_*.go): the main goroutine; each iteration of
      its loop is [main_step] on an event.  [JobManagerFacts] has its invariant
      [mgr_ok], [CommandFacts] the relation [reachable], that the invariant holds
      wherever it leads ([reachable_invariant]), and what handling a record and each
      command do; [ManagerExamples] evaluates a small runner, which serves as
      witness; [Scheduling] follows a run from the queue to the log
      ([due_job_is_run]); [DefaultJobfile] is the text that "jobber init" writes;
    - [LoggerFacts]: the log files of a runner ([runner_log_files]);
    - [IpcServer] (ipc_server.go): the ten methods that clients call, interleaved
      with the main loop; every call returns ([call_returns]);
    - [TestJob] (testjob/): the goroutines that try a job out, and what their client
      is sent ([serve_reports]); [TestClient] takes the body of one of them apart into
      the goroutines it starts, and shows that their interleavings amount to the one
      step it is in [TestJob] ([session_refines]);
    - [Runner] puts manager, calls and test jobs together, up to the end of the main loop: the
      invariant of the whole ([runner_invariant]), calls are linearizable
      ([runner_linearizable]), what a "test" call does ([test_call_correct]), that the
      runner ends ([runner_ends]), and what becomes of a call that comes too late
      ([late_call_panics]);
    - [RunnerMain] (main.go): starting and quitting ([main_correct],
      [quit_correct]); [RunnerProcess] is the process once [main] waits: up to three
      goroutines call [quit], beside the runner ([process_exit], [quit_ends],
      [quit_never_panics], [discon_status_race]).

    The rest:
    - [Settings] (common/settings.go): where each directory comes from
      ([InitSettings_correct]) and which users may have jobs
      ([JobberShouldRunForUser_correct]); [Logging] (common/logging.go);
    - [Master] (jobbermaster/): [doDefault_correct], [runnerThread_restarts],
      [BoundedBuffer_correct], on Linux; [Platform] has the functions that differ on
      Darwin and FreeBSD as an interface ([Darwin_users_correct]);
    - [Client] (jobber/): every command.  [client_shows_jobs] puts a runner of
      [JobManager] behind the client's socket;
    - [Deployment]: the runner listens where the client looks and is told to quit by
      the socket of the master ([deployment_agrees]);
    - [Constants]: constants, and code that nothing calls.

    The interfaces between them: [JobManager] uses the log through the class
    [RunLog] and the laws [RunLogLaws], which [MemRunLog] and [FileRunLogFacts]
    discharge; the queue, the jobs and the thread share the store of jobs of
    [QState]; [IpcServer], [Runner], [RunnerMain] and [Client] use [main_step],
    [reachable] and the invariant; [RunnerProcess] uses [runner_step] and its
    reachability; [Deployment] uses what [Master], [RunnerMain] and [Client] compute.

    ** What is a parameter

    Code that is not in the repository, and what the rest of the world answers:
    the YAML decoder ([Yaml], [YamlDoc], [PrefsYaml], with the documented behaviour
    of decoding a map into a struct as [YamlOk]), the texts of the errors that
    goyacc's driver produces ([YaccErrors]), the time-zone database ([Location]),
    random numbers ([Rand]), the one floating-point step of [time.ParseDuration]
    ([FloatFraction]), the names of temporary files ([TempNames]), which of several
    equal elements an unstable sort puts first ([GoSort]), the words of a shell's
    command line ([Shell]) and the arguments that [go-arg] reads ([GoArg]).  What the operating
    system answers to each call is a record or a list of answers ([Env], [Subproc],
    [Inputs], [Os], [World]), so that every error path of the code is taken by some
    answer.  A theorem with a hypothesis on a parameter has a witness that
    instantiates it.

    ** Not modelled

    - The transport of commands: the RPC library and its encoding; a request that
      arrives is an event.
    - The parsing of flags by the [flag] and [go-arg] packages, and the list of flags
      they print.
    - The table-driven parser that goyacc generates: the grammar of the .y file is
      modelled instead.
    - [usage] of jobberrunner/main.go and [debugInfo] of file_run_log.go, which the program
      does not call, and accessors that return a field.
    - The memory model of Go: a turn of a goroutine is atomic, and turns start and
      end where the code communicates. *)

From Stdlib Require Export Ascii ZArith Lia.
From stdpp Require Export base list gmap strings sorting.

(** ** Byte strings

    A Go [string] is a sequence of bytes, and so is a [[]byte]; both are
    modelled as [bytes].  The notation below lets literals be written between
    quotes in [bytes_scope]. *)

Abbreviation bytes := (list ascii).

Inductive bytes_lit :=
| BNil
| BCons (c : ascii) (l : bytes_lit).

Fixpoint bytes_lit_parse (l : list Byte.byte) : bytes_lit :=
  match l with
  | [] => BNil
  | b :: l => BCons (ascii_of_byte b) (bytes_lit_parse l)
  end.

Fixpoint bytes_lit_print (l : bytes_lit) : list Byte.byte :=
  match l with
  | BNil => []
  | BCons c l => byte_of_ascii c :: bytes_lit_print l
  end.

Definition bytes_alias := list ascii.
Declare Scope bytes_scope.
Delimit Scope bytes_scope with bytes.
#[warnings="-numbers"]
String Notation bytes_alias bytes_lit_parse bytes_lit_print
  (via bytes_lit mapping [[nil] => BNil, [cons] => BCons]) : bytes_scope.

(** ** Outcomes

    A Go function that returns [(A, error)] either returns a value, returns an
    error, or panics.  A panic is kept apart from an error: no caller of this
    program recovers from one, so it ends the process.  [Running] is the outcome
    of a loop that has not left after the fuel it was given; the theorems say
    for which inputs it does not occur. *)

Inductive errno := ENOENT | EEXIST | EIO.

(** [strconv.ErrSyntax] and [strconv.ErrRange] *)
Inductive num_err := ErrSyntax | ErrRange.

(** The [error] values the program passes around: its own [common.Error], the
    errors of the [os] package and the errors of other library functions. *)
Inductive error :=
| CommonError (What : bytes) (Cause : option error)
| OsError (e : errno)
| NumError (Func Num : bytes) (Err : num_err)
| LibError (What : bytes).

Inductive outcome (A : Type) :=
| Ret (a : A)
| Fail (e : error)
| Panic (msg : bytes)
| Running.
Arguments Ret {A} a.
Arguments Fail {A} e.
Arguments Panic {A} msg.
Arguments Running {A}.

#[export] Instance outcome_ret : MRet outcome := @Ret.
#[export] Instance outcome_bind : MBind outcome := λ A B k m,
  match m with
  | Ret a => k a
  | Fail e => Fail e
  | Panic msg => Panic msg
  | Running => Running
  end.
#[export] Instance outcome_fmap : FMap outcome := λ A B f m,
  match m with
  | Ret a => Ret (f a)
  | Fail e => Fail e
  | Panic msg => Panic msg
  | Running => Running
  end.

Definition panics {A} (m : outcome A) : Prop := ∃ msg, m = Panic msg.
Definition fails {A} (m : outcome A) : Prop := ∃ e, m = Fail e.
Definition returns {A} (m : outcome A) : Prop := ∃ a, m = Ret a.
(** Neither out of fuel nor in a panic. *)
Definition answers {A} (m : outcome A) : Prop :=
  match m with Ret _ | Fail _ => True | _ => False end.

(** A Go slice indexed out of range panics. *)
Definition index_out_of_range : bytes := "index out of range"%bytes.
Definition slice_out_of_range : bytes := "slice bounds out of range"%bytes.
Definition nil_dereference : bytes :=
  "invalid memory address or nil pointer dereference"%bytes.

Definition at_index {A} (l : list A) (i : nat) : outcome A :=
  match l !! i with
  | Some x => Ret x
  | None => Panic index_out_of_range
  end.

(** [l[lo:hi]] *)
Definition slice {A} (l : list A) (lo hi : nat) : outcome (list A) :=
  if bool_decide (lo ≤ hi ∧ hi ≤ length l) then Ret (take (hi - lo) (drop lo l))
  else Panic slice_out_of_range.

(** ** State with outcomes

    The state survives an error: what a method did before it returned the
    error stays done. *)

Definition stM (S A : Type) : Type := S → outcome A * S.

#[export] Instance stM_ret {S} : MRet (stM S) := λ A a s, (Ret a, s).
#[export] Instance stM_bind {S} : MBind (stM S) := λ A B k m s,
  match m s with
  | (Ret a, s') => k a s'
  | (Fail e, s') => (Fail e, s')
  | (Panic msg, s') => (Panic msg, s')
  | (Running, s') => (Running, s')
  end.

Definition getS {S} : stM S S := λ s, (Ret s, s).
Definition putS {S} (s : S) : stM S unit := λ _, (Ret tt, s).
Definition modifyS {S} (f : S → S) : stM S unit := λ s, (Ret tt, f s).
Definition failS {S A} (e : error) : stM S A := λ s, (Fail e, s).
Definition panicS {S A} (msg : bytes) : stM S A := λ s, (Panic msg, s).
Definition liftS {S A} (m : outcome A) : stM S A := λ s, (m, s).

(** [try_ m] runs [m] and hands its error to the caller as a value, which is
    how Go code sees it: [x, err := m]. *)
Definition try_ {S A} (m : stM S A) : stM S (A + error) := λ s,
  match m s with
  | (Ret a, s') => (Ret (inl a), s')
  | (Fail e, s') => (Ret (inr e), s')
  | (Panic msg, s') => (Panic msg, s')
  | (Running, s') => (Running, s')
  end.

(** ** Machine integers *)

Definition two63 : Z := 9223372036854775808.
Definition two64 : Z := 18446744073709551616.

(** The [int64] (and, on the 64-bit platforms Jobber ships for, [int]) with
    the same residue. *)
Definition wrap64 (z : Z) : Z := (z + two63) mod two64 - two63.
Definition is_int64 (z : Z) : Prop := (- two63 ≤ z < two63)%Z.

(** ** Loops

    [iter_until p step s] performs up to [p] steps of a loop whose body either
    continues with a new state or leaves the loop with a result.  The count is
    binary, so a loop of tens of millions of iterations is still a term the
    kernel can evaluate when it leaves early. *)
Fixpoint iter_until {X R} (p : positive) (step : X → X + R) (s : X) : X + R :=
  match p with
  | xH => step s
  | xO p =>
     match iter_until p step s with
     | inl s' => iter_until p step s'
     | inr r => inr r
     end
  | xI p =>
     match step s with
     | inl s1 =>
        match iter_until p step s1 with
        | inl s' => iter_until p step s'
        | inr r => inr r
        end
     | inr r => inr r
     end
  end.

(** The same loop with a unary count: the reference for [iter_until]. *)
Fixpoint iter_nat {X R} (n : nat) (step : X → X + R) (s : X) : X + R :=
  match n with
  | O => inl s
  | S n =>
     match step s with
     | inl s' => iter_nat n step s'
     | inr r => inr r
     end
  end.

(** Go's [sort.Search]: the loop [for i < j] of a binary search, run in the
    monad of its predicate. *)
Fixpoint search_go `{MRet M, MBind M} (fuel : nat) (f : nat → M bool)
    (i j : nat) : M nat :=
  match fuel with
  | O => mret i
  | S fuel =>
     if bool_decide (i < j) then
       let h := Nat.div2 (i + j) in
       b ← f h;
       if b : bool then search_go fuel f i h else search_go fuel f (S h) j
     else mret i
  end.

Definition Search `{MRet M, MBind M} (n : nat) (f : nat → M bool) : M nat :=
  search_go (S n) f 0 n.

(** ** Lemmas: outcomes *)

Lemma bind_Ret {A B} (m : outcome A) (k : A → outcome B) (y : B) :
  m ≫= k = Ret y ↔ ∃ x, m = Ret x ∧ k x = Ret y.
Proof. destruct m; simpl; naive_solver. Qed.

Lemma bind_Panic {A B} (m : outcome A) (k : A → outcome B) (msg : bytes) :
  m ≫= k = Panic msg ↔ m = Panic msg ∨ ∃ x, m = Ret x ∧ k x = Panic msg.
Proof. destruct m; simpl; naive_solver. Qed.

Lemma bind_Fail {A B} (m : outcome A) (k : A → outcome B) (e : error) :
  m ≫= k = Fail e ↔ m = Fail e ∨ ∃ x, m = Ret x ∧ k x = Fail e.
Proof. destruct m; simpl; naive_solver. Qed.

Lemma bind_returns {A B} (m : outcome A) (k : A → outcome B) :
  returns m → (∀ x, returns (k x)) → returns (m ≫= k).
Proof. intros [x ->] H. apply H. Qed.

Lemma Ret_returns {A} (a : A) : returns (Ret a).
Proof. by exists a. Qed.

Lemma returns_not_panic {A} (m : outcome A) : returns m → ¬ panics m.
Proof. intros [a ->] [msg H]. done. Qed.

Lemma at_index_Ret {A} (l : list A) i x : at_index l i = Ret x ↔ l !! i = Some x.
Proof. unfold at_index. destruct (l !! i); naive_solver. Qed.

Lemma slice_Ret {A} (l : list A) lo hi :
  lo ≤ hi → hi ≤ length l → slice l lo hi = Ret (take (hi - lo) (drop lo l)).
Proof. intros. unfold slice. by rewrite bool_decide_true by lia. Qed.

(** ** Lemmas: stateful outcomes *)

Lemma stM_bind_eq {S A B} (m : stM S A) (k : A → stM S B) s :
  (m ≫= k) s =
  match m s with
  | (Ret a, s') => k a s'
  | (Fail e, s') => (Fail e, s')
  | (Panic msg, s') => (Panic msg, s')
  | (Running, s') => (Running, s')
  end.
Proof. done. Qed.

Lemma stM_bind_Ret {S A B} (m : stM S A) (k : A → stM S B) s a s' :
  m s = (Ret a, s') → (m ≫= k) s = k a s'.
Proof. intros H. by rewrite stM_bind_eq, H. Qed.

Lemma stM_bind_Fail {S A B} (m : stM S A) (k : A → stM S B) s e s' :
  m s = (Fail e, s') → (m ≫= k) s = (Fail e, s').
Proof. intros H. by rewrite stM_bind_eq, H. Qed.

Lemma getS_bind {S A} (k : S → stM S A) s : (getS ≫= k) s = k s s.
Proof. done. Qed.

Lemma modifyS_bind {S A} f (k : unit → stM S A) s : (modifyS f ≫= k) s = k tt (f s).
Proof. done. Qed.

(** ** Triples

    [triple P m Q]: from a state with [P], [m] does not fail, and if it returns,
    [Q] holds of its result and state.  It may still panic or not return. *)
Definition triple {S A} (P : S → Prop) (m : stM S A) (Q : A → S → Prop) : Prop :=
  ∀ s, P s → match m s with
             | (Ret a, s') => Q a s'
             | (Fail _, _) => False
             | _ => True
             end.

(** [m] does not fail and keeps [P]. *)
Definition keeps {S A} (P : S → Prop) (m : stM S A) : Prop := triple P m (λ _, P).

Lemma triple_bind {S A B} (P : S → Prop) (m : stM S A) (k : A → stM S B) Q R :
  triple P m Q → (∀ a, triple (Q a) (k a) R) → triple P (m ≫= k) R.
Proof.
  intros Hm Hk s Hs. specialize (Hm s Hs). rewrite stM_bind_eq.
  destruct (m s) as [[a|e|msg|] s']; try done. by apply Hk.
Qed.

Lemma triple_weaken {S A} (P P' : S → Prop) (m : stM S A) (Q Q' : A → S → Prop) :
  triple P m Q → (∀ s, P' s → P s) → (∀ a s, Q a s → Q' a s) → triple P' m Q'.
Proof.
  intros Hm HP HQ s Hs. specialize (Hm s (HP s Hs)). destruct (m s) as [[] s']; auto.
Qed.

Lemma triple_Ret {S A} (P : S → Prop) (m : stM S A) Q s a s' :
  triple P m Q → P s → m s = (Ret a, s') → Q a s'.
Proof. intros Hm Hs E. specialize (Hm s Hs). by rewrite E in Hm. Qed.

Lemma keeps_ret {S A} (P : S → Prop) (a : A) : keeps P (mret a).
Proof. by intros s Hs. Qed.

Lemma keeps_panic {S A} (P : S → Prop) msg : keeps P (panicS (A:=A) msg).
Proof. by intros s Hs. Qed.

Lemma keeps_running {S A} (P : S → Prop) : keeps P (λ s, (Running (A:=A), s)).
Proof. by intros s Hs. Qed.

Lemma keeps_get {S} (P : S → Prop) : keeps P getS.
Proof. by intros s Hs. Qed.

Lemma keeps_modify {S} (P : S → Prop) f : (∀ s, P s → P (f s)) → keeps P (modifyS f).
Proof. intros Hf s Hs. by apply Hf. Qed.

Lemma keeps_bind {S A B} (P : S → Prop) (m : stM S A) (k : A → stM S B) :
  keeps P m → (∀ a, keeps P (k a)) → keeps P (m ≫= k).
Proof. intros Hm Hk. by eapply triple_bind. Qed.

(** An error is caught: what is left to show is that the state keeps [P]. *)
Lemma keeps_try {S A} (P : S → Prop) (m : stM S A) :
  (∀ s, P s → P (m s).2) → keeps P (try_ m).
Proof.
  intros Hm s Hs. specialize (Hm s Hs). unfold try_. by destruct (m s) as [[] s'].
Qed.

(** [m] leaves a state of [P], however it ends. *)
Definition stays {S A} (P : S → Prop) (m : stM S A) : Prop := ∀ s, P s → P (m s).2.

Lemma stays_ret {S A} (P : S → Prop) (a : A) : stays P (mret a).
Proof. by intros s Hs. Qed.

Lemma stays_outcome {S A} (P : S → Prop) (o : outcome A) : stays P (λ s, (o, s)).
Proof. by intros s Hs. Qed.

Lemma stays_lift {S A} (P : S → Prop) (o : outcome A) : stays P (liftS (S:=S) o).
Proof. by intros s Hs. Qed.

Lemma stays_fail {S A} (P : S → Prop) e : stays P (failS (S:=S) (A:=A) e).
Proof. by intros s Hs. Qed.

Lemma stays_panic {S A} (P : S → Prop) msg : stays P (panicS (S:=S) (A:=A) msg).
Proof. by intros s Hs. Qed.

Lemma stays_get {S} (P : S → Prop) : stays P getS.
Proof. by intros s Hs. Qed.

Lemma stays_modify {S} (P : S → Prop) f : (∀ s, P s → P (f s)) → stays P (modifyS f).
Proof. intros Hf s Hs. by apply Hf. Qed.

Lemma stays_bind {S A B} (P : S → Prop) (m : stM S A) (k : A → stM S B) :
  stays P m → (∀ a, stays P (k a)) → stays P (m ≫= k).
Proof.
  intros Hm Hk s Hs. specialize (Hm s Hs). rewrite stM_bind_eq.
  destruct (m s) as [[a|e|msg|] s']; try done. by apply Hk.
Qed.

Lemma stays_try {S A} (P : S → Prop) (m : stM S A) : stays P m → stays P (try_ m).
Proof. intros Hm s Hs. specialize (Hm s Hs). unfold try_. by destruct (m s) as [[] s']. Qed.

(** ** Lemmas: machine integers *)

Lemma wrap64_small z : is_int64 z → wrap64 z = z.
Proof. unfold is_int64, wrap64, two63, two64. intros. rewrite Z.mod_small; lia. Qed.

Lemma wrap64_range z : is_int64 (wrap64 z).
Proof.
  unfold is_int64, wrap64, two63, two64.
  pose proof (Z.mod_pos_bound (z + 9223372036854775808) 18446744073709551616). lia.
Qed.

(** ** Lemmas: loops *)

Lemma iter_nat_add {X R} n m (step : X → X + R) s :
  iter_nat (n + m) step s =
  match iter_nat n step s with
  | inl s' => iter_nat m step s'
  | inr r => inr r
  end.
Proof.
  revert s. induction n as [|n IH]; intros s; simpl; [done|].
  destruct (step s); [apply IH|done].
Qed.

Lemma iter_until_nat {X R} p (step : X → X + R) s :
  iter_until p step s = iter_nat (Pos.to_nat p) step s.
Proof.
  revert s. induction p as [p IH|p IH|]; intros s.
  - rewrite Pos2Nat.inj_xI. simpl. destruct (step s) as [s1|]; [|done].
    rewrite Nat.add_0_r, iter_nat_add, <- IH.
    destruct (iter_until p step s1); [apply IH|done].
  - rewrite Pos2Nat.inj_xO. simpl. rewrite Nat.add_0_r, iter_nat_add, <- IH.
    destruct (iter_until p step s); [apply IH|done].
  - simpl. by destruct (step s).
Qed.

(** A search loop [for x := a; k < n; x = next x] leaves at the first state
    whose body does not continue. *)
Lemma iter_nat_inr {X R} n (step : X → X + R) (next : X → X) s r :
  (∀ x y, step x = inl y → y = next x) →
  iter_nat n step s = inr r ↔
  ∃ k, k < n ∧ step (Nat.iter k next s) = inr r ∧
       ∀ i, i < k → ∃ y, step (Nat.iter i next s) = inl y.
Proof.
  intros Hnext. revert s. induction n as [|n IH]; intros s; simpl.
  { split; [done|]. intros (k & Hk & _). lia. }
  destruct (step s) as [s'|r'] eqn:Hs.
  - rewrite IH. apply Hnext in Hs as Hs'. subst s'.
    split; intros (k & Hk & Hr & Hi).
    + exists (S k). rewrite Nat.iter_succ_r. split; [lia|]. split; [done|].
      intros [|i] Hlt; [eauto|]. rewrite Nat.iter_succ_r. apply Hi. lia.
    + destruct k as [|k]; [simpl in Hr; congruence|].
      rewrite Nat.iter_succ_r in Hr. exists k. split; [lia|]. split; [done|].
      intros i Hlt. rewrite <- Nat.iter_succ_r. apply Hi. lia.
  - split.
    + intros [= ->]. exists 0. split; [lia|]. split; [done|]. lia.
    + intros (k & Hk & Hr & Hi). destruct k as [|k]; [simpl in Hr; congruence|].
      destruct (Hi 0) as [y Hy]; [lia|]. simpl in Hy. congruence.
Qed.

Lemma iter_nat_inl {X R} n (step : X → X + R) (next : X → X) s s' :
  (∀ x y, step x = inl y → y = next x) →
  iter_nat n step s = inl s' →
  s' = Nat.iter n next s ∧ ∀ i, i < n → ∃ y, step (Nat.iter i next s) = inl y.
Proof.
  intros Hnext. revert s. induction n as [|n IH]; intros s; simpl.
  { intros [= ->]. split; [done|lia]. }
  destruct (step s) as [s1|r'] eqn:Hs; [|done].
  apply Hnext in Hs as Hs'. subst s1. intros [-> Hi]%IH. split.
  - by rewrite <- Nat.iter_succ_r.
  - intros [|i] Hlt; [eauto|]. rewrite Nat.iter_succ_r. apply Hi. lia.
Qed.

(** ** Lemmas: binary search

    The specification of the answer of a search for a predicate that is false
    up to some index and true from it on. *)
Definition least_true (p : nat → bool) (n r : nat) : Prop :=
  r ≤ n ∧ (∀ k, k < r → p k = false) ∧ (∀ k, r ≤ k → k < n → p k = true).

Definition monotone_below (p : nat → bool) (n : nat) : Prop :=
  ∀ i j, i ≤ j → j < n → p i = true → p j = true.

Lemma least_true_unique p n r r' : least_true p n r → least_true p n r' → r = r'.
Proof.
  intros (H1 & H2 & H3) (H1' & H2' & H3').
  destruct (lt_eq_lt_dec r r') as [[Hlt|]|Hlt]; [|done|].
  - specialize (H2' r Hlt). rewrite H3 in H2' by lia. done.
  - specialize (H2 r' Hlt). rewrite H3' in H2 by lia. done.
Qed.

(** The pure search, from which the two monadic ones are obtained. *)
Fixpoint search_pure (fuel : nat) (p : nat → bool) (i j : nat) : nat :=
  match fuel with
  | O => i
  | S fuel =>
     if bool_decide (i < j) then
       let h := Nat.div2 (i + j) in
       if p h then search_pure fuel p i h else search_pure fuel p (S h) j
     else i
  end.

Lemma div2_between i j : i < j → i ≤ Nat.div2 (i + j) < j.
Proof.
  intros. rewrite Nat.div2_div.
  pose proof (Nat.div_mod_eq (i + j) 2). pose proof (Nat.mod_upper_bound (i + j) 2). lia.
Qed.

Lemma search_pure_correct fuel p n i j :
  j - i < fuel → i ≤ j → j ≤ n → monotone_below p n →
  (∀ k, k < i → p k = false) → (∀ k, j ≤ k → k < n → p k = true) →
  least_true p n (search_pure fuel p i j).
Proof.
  revert i j. induction fuel as [|fuel IH]; intros i j Hfuel Hij Hjn Hmono Hlo Hhi; [lia|].
  simpl. case_bool_decide as Hlt.
  - pose proof (div2_between i j Hlt) as Hh. set (h := Nat.div2 (i + j)) in *.
    destruct (p h) eqn:Hp.
    + apply IH; try lia; [done|done|].
      intros k Hk Hkn. destruct (decide (k = h)) as [->|]; [done|].
      apply (Hmono h k); [lia|lia|done].
    + apply IH; try lia; [done| |done].
      intros k Hk. destruct (p k) eqn:Hpk; [|done].
      rewrite (Hmono k h) in Hp; [done|lia|lia|done].
  - assert (i = j) as -> by lia. split; [lia|]. split; [done|]. intros k ??. apply Hhi; lia.
Qed.

Lemma search_go_outcome fuel (f : nat → outcome bool) p n i j :
  (∀ k, k < n → f k = Ret (p k)) → j ≤ n →
  search_go fuel f i j = Ret (search_pure fuel p i j).
Proof.
  intros Hf. revert i j. induction fuel as [|fuel IH]; intros i j Hjn; simpl; [done|].
  case_bool_decide as Hlt; [|done].
  pose proof (div2_between i j Hlt). rewrite Hf by lia. simpl.
  destruct (p _); apply IH; lia.
Qed.

Lemma search_go_stM {S} fuel (f : nat → stM S bool) p n i j s :
  (∀ k, k < n → f k s = (Ret (p k), s)) → j ≤ n →
  search_go fuel f i j s = (Ret (search_pure fuel p i j), s).
Proof.
  intros Hf. revert i j. induction fuel as [|fuel IH]; intros i j Hjn; simpl; [done|].
  case_bool_decide as Hlt; [|done].
  pose proof (div2_between i j Hlt). unfold mbind, stM_bind. rewrite Hf by lia.
  destruct (p _); apply IH; lia.
Qed.

Lemma Search_outcome n (f : nat → outcome bool) p :
  (∀ k, k < n → f k = Ret (p k)) → monotone_below p n →
  ∃ r, Search n f = Ret r ∧ least_true p n r.
Proof.
  intros Hf Hmono. exists (search_pure (S n) p 0 n). split.
  - by apply search_go_outcome with n.
  - apply search_pure_correct; try lia; done || lia.
Qed.

Lemma Search_stM {S} n (f : nat → stM S bool) p s :
  (∀ k, k < n → f k s = (Ret (p k), s)) → monotone_below p n →
  ∃ r, Search n f s = (Ret r, s) ∧ least_true p n r.
Proof.
  intros Hf Hmono. exists (search_pure (Datatypes.S n) p 0 n). split.
  - by apply search_go_stM with n.
  - apply search_pure_correct; try lia; done || lia.
Qed.

(** ** Lemmas: lists *)

Lemma filter_ext_elem {A} (P Q : A → Prop) `{∀ x, Decision (P x), ∀ x, Decision (Q x)}
    (l : list A) :
  (∀ x, x ∈ l → P x ↔ Q x) → filter P l = filter Q l.
Proof.
  induction l as [|x l IH]; intros HPQ; [done|].
  assert (P x ↔ Q x) as Hx by (apply HPQ; left).
  rewrite !filter_cons, IH by (intros y Hy; apply HPQ; by right).
  by destruct (decide (P x)), (decide (Q x)); try tauto.
Qed.

Lemma filter_none {A} (P : A → Prop) `{∀ x, Decision (P x)} (l : list A) :
  Forall (λ x, ¬ P x) l → filter P l = [].
Proof. induction 1 as [|x l Hx _ IH]; [done|]. by rewrite filter_cons_False. Qed.

Lemma StronglySorted_weaken {A} (R1 R2 : A → A → Prop) (l : list A) :
  (∀ x y, R1 x y → R2 x y) → StronglySorted R1 l → StronglySorted R2 l.
Proof. induction 2; constructor; eauto using Forall_impl. Qed.

(** A slice of a list, seen from its end. *)
Lemma reverse_slice {A} (l : list A) i j :
  i ≤ j → j ≤ length l →
  reverse (take (j - i) (drop (length l - j) l)) = take (j - i) (drop i (reverse l)).
Proof.
  intros Hij Hj. apply list_eq. intros k.
  destruct (decide (k < j - i)) as [Hk|Hk].
  - rewrite reverse_lookup by (rewrite length_take, length_drop; lia).
    rewrite length_take, length_drop, !lookup_take_lt, !lookup_drop by lia.
    rewrite reverse_lookup by lia. f_equal. lia.
  - rewrite !lookup_ge_None_2; [done|..];
      rewrite ?length_reverse, ?length_take, ?length_drop, ?length_reverse; lia.
Qed.

(** ** Automation

    [inv_outcome] splits every hypothesis that says a sequence of outcomes
    returned, panicked or failed into one hypothesis per step. *)
Ltac inv_outcome :=
  repeat match goal with
  | H : mbind _ _ = Ret _ |- _ => apply bind_Ret in H as (? & ? & ?)
  | H : Ret _ = Ret _ |- _ => injection H as H
  | H : Ret _ = Fail _ |- _ => discriminate H
  | H : Ret _ = Panic _ |- _ => discriminate H
  | H : Fail _ = Ret _ |- _ => discriminate H
  | H : Panic _ = Ret _ |- _ => discriminate H
  | H : at_index _ _ = Ret _ |- _ => apply at_index_Ret in H
  end; simplify_eq/=.

(** [divlia] is [lia] with division and remainder by constants. *)
Ltac divlia := Z.to_euclidean_division_equations; lia.

(** [case_step] destructs the scrutinee of the topmost [match] or [if] of the
    goal and keeps the equation. *)
Ltac case_step :=
  match goal with
  | |- context [match ?x with _ => _ end] => destruct x eqn:?
  end; simplify_eq/=.

(** [step_bind H] runs the first step of a stateful computation whose result
    is given by [H]. *)
Ltac step_bind H := erewrite stM_bind_Ret; [|apply H].

Create HintDb jobber.
#[export] Hint Resolve Ret_returns bind_returns returns_not_panic : jobber.
#[export] Hint Resolve wrap64_range : jobber.
#[export] Hint Resolve stays_ret stays_outcome stays_lift stays_fail stays_panic stays_get : jobber.
#[export] Hint Resolve keeps_ret keeps_panic keeps_running keeps_get keeps_modify : jobber.
#[export] Hint Rewrite @at_index_Ret : jobber.

(** [stays_step] splits a computation along its binds and case distinctions; what is left
    are the steps that no hint is about. *)
Ltac stays_step :=
  repeat match goal with
  | |- ∀ _, _ => intros ?
  | |- stays _ (_ ≫= _) => apply stays_bind
  | |- stays _ (try_ _) => apply stays_try
  | |- stays _ (match ?x with _ => _ end) => destruct x
  | |- stays _ _ => solve [eauto with jobber]
  end.

(** [keeps_step] splits a computation along its binds and case distinctions. *)
Ltac keeps_step :=
  repeat match goal with
  | |- ∀ _, _ => intros ?
  | |- keeps _ (_ ≫= _) => apply keeps_bind
  | |- keeps _ (match ?x with _ => _ end) => destruct x
  | |- keeps _ _ => solve [eauto with jobber]
  end.
