(* ===== verification/GoStrings.v ===== *)
(** * Byte strings as Go's [strings], [strconv] and [fmt] packages treat them

    Only the functions the program calls are here, in the form in which it
    calls them.  The lemmas are the ones every codec of the development needs:
    printing a number and reading it back, splitting a joined string, replacing
    a byte by an escape sequence and back. *)

From S2P Require Import Prelude.

Open Scope bytes_scope.
Open Scope list_scope.

(** ** Characters *)

Definition code (c : ascii) : Z := Z.of_nat (nat_of_ascii c).

Definition newline : ascii := ascii_of_nat 10.
Definition tab : ascii := ascii_of_nat 9.
Definition crlf : bytes := [ascii_of_nat 13; newline].

(** [s] between double quotes *)
Definition dquote (s : bytes) : bytes := [ascii_of_nat 34] ++ s ++ [ascii_of_nat 34].

Definition is_digit (c : ascii) : bool := (48 <=? code c)%Z && (code c <=? 57)%Z.
Definition digit_val (c : ascii) : Z := (code c - 48)%Z.
Definition digit (d : Z) : ascii := ascii_of_nat (Z.to_nat (d + 48)).

(** ** [strconv] and [%v] on integers *)

(** The decimal digits of a non-negative number, most significant first. *)
Fixpoint digits_go (fuel : nat) (n : Z) (acc : bytes) : bytes :=
  match fuel with
  | O => acc
  | S fuel =>
     if (n <? 10)%Z then digit n :: acc
     else digits_go fuel (n / 10) (digit (n mod 10) :: acc)
  end.

Definition digits (n : Z) : bytes := digits_go (S (Z.to_nat (Z.log2 n))) n [].

(** [fmt.Sprintf("%v", n)] *)
Definition itoa (n : Z) : bytes :=
  if (n <? 0)%Z then "-"%char :: digits (- n) else digits n.

Definition digits_val (s : bytes) : Z :=
  foldl (λ acc c, 10 * acc + digit_val c)%Z 0%Z s.

#[global] Arguments digits_val : simpl never.

(** [strconv.ParseUint(s, 10, bits)] *)
Definition ParseUint (s : bytes) (bits : Z) : outcome Z :=
  if bool_decide (s = []) || negb (forallb is_digit s)
  then Fail (NumError "ParseUint" s ErrSyntax)
  else if (2 ^ bits <=? digits_val s)%Z
  then Fail (NumError "ParseUint" s ErrRange)
  else Ret (digits_val s).

(** [strconv.ParseInt(s, 10, 64)]; [fn] is the name the error carries. *)
Definition parse_int (fn s : bytes) : outcome Z :=
  let '(neg, ds) :=
    match s with
    | c :: s' =>
       if ascii_dec c "-" then (true, s')
       else if ascii_dec c "+" then (false, s') else (false, s)
    | [] => (false, [])
    end in
  if bool_decide (ds = []) || negb (forallb is_digit ds)
  then Fail (NumError fn s ErrSyntax)
  else
    let v := digits_val ds in
    if neg then (if (two63 <? v)%Z then Fail (NumError fn s ErrRange) else Ret (- v)%Z)
    else (if (two63 <=? v)%Z then Fail (NumError fn s ErrRange) else Ret v).

Definition ParseInt (s : bytes) : outcome Z := parse_int "ParseInt" s.
Definition Atoi (s : bytes) : outcome Z := parse_int "Atoi" s.

(** ** [strings] *)

Fixpoint strip_prefix (p s : bytes) : option bytes :=
  match p, s with
  | [], _ => Some s
  | _ :: _, [] => None
  | a :: p, b :: s => if ascii_dec a b then strip_prefix p s else None
  end.

Definition HasPrefix (s p : bytes) : bool := bool_decide (is_Some (strip_prefix p s)).

(** The text before and after the first occurrence of [sep]. *)
Fixpoint cut (sep s : bytes) : option (bytes * bytes) :=
  match strip_prefix sep s with
  | Some rest => Some ([], rest)
  | None =>
     match s with
     | [] => None
     | c :: s' =>
        match cut sep s' with
        | Some (before, after) => Some (c :: before, after)
        | None => None
        end
     end
  end.

Definition Contains (s sub : bytes) : bool := bool_decide (is_Some (cut sub s)).

Fixpoint split_go (fuel : nat) (sep s : bytes) : list bytes :=
  match fuel with
  | O => [s]
  | S fuel =>
     match cut sep s with
     | Some (before, after) => before :: split_go fuel sep after
     | None => [s]
     end
  end.

(** [strings.Split(s, sep)] for a non-empty [sep] *)
Definition Split (s sep : bytes) : list bytes := split_go (S (length s)) sep s.

(** [strings.Join(parts, sep)] *)
Fixpoint Join (parts : list bytes) (sep : bytes) : bytes :=
  match parts with
  | [] => []
  | [s] => s
  | s :: parts => s ++ sep ++ Join parts sep
  end.

(** [strings.Repeat(s, n)]: panics on a negative count. *)
Definition Repeat (s : bytes) (n : Z) : outcome bytes :=
  if (n <? 0)%Z then Panic "strings: negative Repeat count"
  else Ret (concat (replicate (Z.to_nat n) s)).

(** [strings.TrimRight(s, " ")] *)
Fixpoint TrimRightSpaces (s : bytes) : bytes :=
  match s with
  | [] => []
  | c :: s' =>
     match TrimRightSpaces s' with
     | [] => if ascii_dec c " " then [] else [c]
     | t => c :: t
     end
  end.

(** The length of the white-space character [s] starts with, 0 if it does not
    start with one.  These are the characters of [unicode.IsSpace] in UTF-8;
    none of their first bytes is a continuation byte, so they can be looked
    for at any offset. *)
Definition space_len (s : bytes) : nat :=
  match map code s with
  | (9 | 10 | 11 | 12 | 13 | 32)%Z :: _ => 1
  | 194%Z :: (133 | 160)%Z :: _ => 2
  | 225%Z :: 154%Z :: 128%Z :: _ => 3
  | 226%Z :: 128%Z :: c :: _ =>
     if (128 <=? c)%Z && (c <=? 138)%Z || (c =? 168)%Z || (c =? 169)%Z || (c =? 175)%Z
     then 3 else 0
  | 226%Z :: 129%Z :: 159%Z :: _ => 3
  | 227%Z :: 128%Z :: 128%Z :: _ => 3
  | _ => 0
  end.

(** [strings.Fields]: [cur] is the field being read, reversed; [skip] counts
    the bytes of a white-space character still to be dropped. *)
Fixpoint fields_go (s : bytes) (skip : nat) (cur : bytes) : list bytes :=
  let flush := if bool_decide (cur = []) then [] else [rev cur] in
  match s with
  | [] => flush
  | c :: s' =>
     match skip with
     | S k => fields_go s' k cur
     | O =>
        match space_len s with
        | O => fields_go s' 0 (c :: cur)
        | S k => flush ++ fields_go s' k []
        end
     end
  end.

Definition Fields (s : bytes) : list bytes := fields_go s 0 [].

Fixpoint trim_left_go (s : bytes) (skip : nat) : bytes :=
  match s with
  | [] => []
  | _ :: s' =>
     match skip with
     | S k => trim_left_go s' k
     | O => match space_len s with O => s | S k => trim_left_go s' k end
     end
  end.

Fixpoint trim_right_go (s : bytes) : bytes :=
  if bool_decide (trim_left_go s 0 = []) then []
  else match s with [] => [] | c :: s' => c :: trim_right_go s' end.

(** [strings.TrimSpace] *)
Definition TrimSpace (s : bytes) : bytes := trim_right_go (trim_left_go s 0).

(** [strings.ToLower] on the ASCII letters *)
Definition lower (c : ascii) : ascii :=
  if (65 <=? code c)%Z && (code c <=? 90)%Z
  then ascii_of_nat (Z.to_nat (code c + 32)) else c.
Definition ToLower (s : bytes) : bytes := map lower s.

(** [strings.Join(strings.Split(s, old), new)], the idiom for replacing every
    occurrence of [old]. *)
Definition replace_all (s old new : bytes) : bytes := Join (Split s old) new.

(** ** Lemmas: characters and decimal numerals *)

Lemma code_range c : (0 ≤ code c < 256)%Z.
Proof. unfold code. pose proof (nat_ascii_bounded c). lia. Qed.

Lemma code_digit d : (0 ≤ d < 10)%Z → code (digit d) = (d + 48)%Z.
Proof. intros. unfold code, digit. rewrite nat_ascii_embedding; lia. Qed.

Lemma digit_is_digit d : (0 ≤ d < 10)%Z → is_digit (digit d) = true.
Proof. intros. unfold is_digit. rewrite code_digit by done. lia. Qed.

Lemma digit_val_digit d : (0 ≤ d < 10)%Z → digit_val (digit d) = d.
Proof. intros. unfold digit_val. rewrite code_digit by done. lia. Qed.

Lemma digits_val_snoc s c : digits_val (s ++ [c]) = (10 * digits_val s + digit_val c)%Z.
Proof. unfold digits_val. by rewrite foldl_app. Qed.

Lemma foldl_digits_app s t a :
  foldl (λ acc c, 10 * acc + digit_val c)%Z a (s ++ t) =
  foldl (λ acc c, 10 * acc + digit_val c)%Z
    (foldl (λ acc c, 10 * acc + digit_val c)%Z a s) t.
Proof. apply foldl_app. Qed.

Lemma digits_go_app fuel n acc : digits_go fuel n acc = digits_go fuel n [] ++ acc.
Proof.
  revert n acc. induction fuel as [|fuel IH]; intros n acc; simpl; [done|].
  destruct (n <? 10)%Z; [done|].
  rewrite (IH _ (digit (n mod 10) :: acc)), (IH _ [digit (n mod 10)]).
  by rewrite <- app_assoc.
Qed.

Lemma digits_go_spec fuel n :
  (0 ≤ n)%Z → (n < 10 ^ Z.of_nat fuel)%Z →
  digits_val (digits_go fuel n []) = n ∧
  forallb is_digit (digits_go fuel n []) = true.
Proof.
  revert n. induction fuel as [|fuel IH]; intros n Hn Hlt.
  { simpl in *. split; [unfold digits_val; simpl; lia|done]. }
  simpl. destruct (Z.ltb_spec n 10) as [Hs|Hs].
  - simpl. rewrite digit_is_digit by lia. split; [|done].
    unfold digits_val. simpl. rewrite digit_val_digit; lia.
  - rewrite digits_go_app, digits_val_snoc, forallb_app.
    pose proof (Z.mod_pos_bound n 10) as Hm.
    destruct (IH (n / 10)%Z) as [-> ->].
    { apply Z.div_pos; lia. }
    { apply Z.div_lt_upper_bound; [lia|].
      rewrite Nat2Z.inj_succ, Z.pow_succ_r in Hlt; lia. }
    simpl. rewrite digit_is_digit by lia. split; [|done].
    rewrite digit_val_digit by lia. rewrite (Z.div_mod n 10) at 3; lia.
Qed.

Lemma digits_fuel n : (0 ≤ n)%Z → (n < 10 ^ Z.of_nat (S (Z.to_nat (Z.log2 n))))%Z.
Proof.
  intros. destruct (decide (n = 0)%Z) as [->|]; [simpl; lia|].
  rewrite Nat2Z.inj_succ, Z2Nat.id by apply Z.log2_nonneg.
  pose proof (Z.log2_spec n) as [_ Hlog]; [lia|].
  eapply Z.lt_le_trans; [exact Hlog|]. apply Z.pow_le_mono_l. lia.
Qed.

Lemma digits_spec n :
  (0 ≤ n)%Z → digits_val (digits n) = n ∧ forallb is_digit (digits n) = true.
Proof. intros. apply digits_go_spec; [done|]. by apply digits_fuel. Qed.

(** What a numeral is made of. *)
Lemma itoa_chars n c : c ∈ itoa n → c = "-"%char ∨ is_digit c = true.
Proof.
  assert (Hd : ∀ k, (0 ≤ k)%Z → c ∈ digits k → is_digit c = true).
  { intros k Hk Hin. destruct (digits_spec k Hk) as [_ Hd].
    rewrite forallb_forall in Hd. by apply Hd, list_elem_of_In. }
  unfold itoa. destruct (Z.ltb_spec n 0); intros Hin.
  - apply elem_of_cons in Hin as [->|Hin]; [by left|]. right. eapply Hd; [|done]. lia.
  - right. by eapply Hd.
Qed.

Lemma digits_nonempty n : digits n ≠ [].
Proof.
  unfold digits. simpl. destruct (n <? 10)%Z; [done|].
  rewrite digits_go_app. by destruct (digits_go _ _ _).
Qed.

Lemma digits_length_go fuel n k :
  (0 ≤ n < 10 ^ Z.of_nat k)%Z → 0 < k → length (digits_go fuel n []) ≤ k.
Proof.
  revert n k. induction fuel as [|fuel IH]; intros n k Hn Hk; simpl; [lia|].
  destruct (Z.ltb_spec n 10) as [Hs|Hs]; [simpl; lia|].
  rewrite digits_go_app, length_app. simpl.
  destruct k as [|[|k]]; [lia|simpl in Hn; lia|].
  enough (length (digits_go fuel (n / 10) []) ≤ S k) by lia.
  apply IH; [|lia]. split; [apply Z.div_pos; lia|].
  apply Z.div_lt_upper_bound; [lia|].
  rewrite (Nat2Z.inj_succ (S k)), Z.pow_succ_r in Hn; lia.
Qed.

(** A number below [10^k] has at most [k] digits. *)
Lemma digits_length n k :
  (0 ≤ n < 10 ^ Z.of_nat k)%Z → 0 < k → length (digits n) ≤ k.
Proof. apply digits_length_go. Qed.

Lemma digits_val_nonneg_acc s a :
  forallb is_digit s = true → (0 ≤ a)%Z →
  (0 ≤ foldl (λ acc c, 10 * acc + digit_val c) a s)%Z.
Proof.
  revert a. induction s as [|c s IH]; intros a Hs Ha; simpl in *; [done|].
  apply andb_prop in Hs as [Hc Hs]. apply IH; [done|].
  unfold is_digit in Hc. unfold digit_val. lia.
Qed.

Lemma digits_val_nonneg s : forallb is_digit s = true → (0 ≤ digits_val s)%Z.
Proof. intros. by apply digits_val_nonneg_acc. Qed.

Lemma digit_not_sign s c :
  forallb is_digit s = true → c ∈ ["-"; "+"]%char → head s ≠ Some c.
Proof.
  destruct s as [|d s]; simpl; [done|]. intros [Hd _]%andb_prop Hc [= ->].
  apply elem_of_cons in Hc as [->|Hc%list_elem_of_singleton]; [done|by subst].
Qed.

(** Reading back a printed [int64]. *)
Lemma parse_int_itoa fn n : is_int64 n → parse_int fn (itoa n) = Ret n.
Proof.
  intros [Hlo Hhi]. unfold itoa, parse_int. destruct (Z.ltb_spec n 0) as [Hn|Hn].
  - simpl. destruct (digits_spec (- n)) as [-> ->]; [lia|].
    rewrite bool_decide_false by apply digits_nonempty. simpl.
    destruct (Z.ltb_spec two63 (- n)); [lia|]. f_equal. lia.
  - destruct (digits_spec n) as [Hv Hd]; [lia|].
    pose proof (digits_nonempty n) as Hne.
    destruct (digits n) as [|c s] eqn:E; [done|].
    destruct (ascii_dec c "-") as [->|];
      [by apply (digit_not_sign _ "-") in Hd; [|set_solver]|].
    destruct (ascii_dec c "+") as [->|];
      [by apply (digit_not_sign _ "+") in Hd; [|set_solver]|].
    rewrite Hd, Hv, bool_decide_false by done. simpl.
    destruct (Z.leb_spec two63 n); [lia|done].
Qed.

(** Reading back a printed unsigned number of [bits] bits. *)
Lemma ParseUint_itoa n bits : (0 ≤ n < 2 ^ bits)%Z → ParseUint (itoa n) bits = Ret n.
Proof.
  intros [Hlo Hhi]. unfold itoa, ParseUint. destruct (Z.ltb_spec n 0) as [Hn|Hn]; [lia|].
  destruct (digits_spec n) as [-> ->]; [lia|].
  rewrite bool_decide_false by apply digits_nonempty. simpl.
  destruct (Z.leb_spec (2 ^ bits) n); [lia|done].
Qed.

Lemma ParseUint_range s bits n : ParseUint s bits = Ret n → (0 ≤ n < 2 ^ bits)%Z.
Proof.
  unfold ParseUint. case_bool_decide as Hs; [done|]. simpl.
  destruct (forallb is_digit s) eqn:Hd; [|done]. simpl.
  destruct (Z.leb_spec (2 ^ bits) (digits_val s)); intros [= <-].
  pose proof (digits_val_nonneg s Hd). lia.
Qed.

(** ** Lemmas: cutting, splitting and joining *)

Lemma strip_prefix_Some p s r : strip_prefix p s = Some r ↔ s = p ++ r.
Proof.
  revert s. induction p as [|a p IH]; intros s; simpl; [naive_solver|].
  destruct s as [|b s]; [naive_solver|].
  destruct (ascii_dec a b) as [->|Hne]; [rewrite IH|]; naive_solver.
Qed.

Lemma HasPrefix_spec s p : HasPrefix s p = true ↔ ∃ r, s = p ++ r.
Proof.
  unfold HasPrefix. rewrite bool_decide_eq_true. unfold is_Some.
  by setoid_rewrite strip_prefix_Some.
Qed.

Lemma cut_Some sep s b a : cut sep s = Some (b, a) → s = b ++ sep ++ a.
Proof.
  revert b a. induction s as [|c s IH]; intros b a; simpl.
  - destruct (strip_prefix sep []) eqn:E; [|done]. intros [= <- <-].
    by apply strip_prefix_Some in E.
  - destruct (strip_prefix sep (c :: s)) eqn:E.
    + intros [= <- <-]. by apply strip_prefix_Some in E.
    + destruct (cut sep s) as [[b' a']|] eqn:Ec; [|done].
      intros [= <- <-]. simpl. f_equal. by apply IH.
Qed.

Lemma cut_single_notin c s : c ∉ s → cut [c] s = None.
Proof.
  induction s as [|d s IH]; [done|]. intros Hn. simpl.
  destruct (ascii_dec c d) as [->|]; [set_solver|]. rewrite IH; [done|set_solver].
Qed.

Lemma cut_single c s t : c ∉ s → cut [c] (s ++ c :: t) = Some (s, t).
Proof.
  induction s as [|d s IH]; intros Hn; simpl.
  - by destruct (ascii_dec c c).
  - destruct (ascii_dec c d) as [->|]; [set_solver|]. rewrite IH; [done|set_solver].
Qed.

Lemma split_go_fuel fuel fuel' sep s :
  sep ≠ [] → length s < fuel → length s < fuel' → split_go fuel sep s = split_go fuel' sep s.
Proof.
  intros Hsep. revert fuel' s. induction fuel as [|fuel IH]; intros fuel' s H1 H2; [lia|].
  destruct fuel' as [|fuel']; [lia|]. simpl.
  destruct (cut sep s) as [[b a]|] eqn:Hc; [|done]. apply cut_Some in Hc. subst s.
  destruct sep as [|x sep]; [done|]. rewrite !length_app in *. simpl in *.
  f_equal. apply IH; lia.
Qed.

Lemma Split_unfold s sep :
  sep ≠ [] →
  Split s sep = match cut sep s with Some (b, a) => b :: Split a sep | None => [s] end.
Proof.
  intros Hsep. unfold Split at 1. simpl.
  destruct (cut sep s) as [[b a]|] eqn:Hc; [|done]. apply cut_Some in Hc. subst s.
  unfold Split. f_equal. destruct sep as [|x sep]; [done|].
  apply split_go_fuel; [done| |lia]. rewrite !length_app. simpl. lia.
Qed.

Lemma Split_nonempty s sep : Split s sep ≠ [].
Proof. unfold Split. simpl. by destruct (cut sep s) as [[]|]. Qed.

Lemma Split_app c s t : c ∉ s → Split (s ++ c :: t) [c] = s :: Split t [c].
Proof. intros. rewrite Split_unfold by done. by rewrite cut_single. Qed.

Lemma Split_notin c s : c ∉ s → Split s [c] = [s].
Proof. intros. rewrite Split_unfold by done. by rewrite cut_single_notin. Qed.

Lemma Join_cons s parts sep :
  parts ≠ [] → Join (s :: parts) sep = s ++ sep ++ Join parts sep.
Proof. by destruct parts. Qed.

(** Splitting undoes joining when no part contains the separator. *)
Lemma Split_Join c parts :
  parts ≠ [] → Forall (λ s, c ∉ s) parts → Split (Join parts [c]) [c] = parts.
Proof.
  intros Hne Hall. induction Hall as [|s parts Hs Hall IH]; [done|].
  destruct parts as [|s' parts].
  - by apply Split_notin.
  - rewrite Join_cons by done. etrans; [by apply Split_app|]. f_equal. by apply IH.
Qed.

(** Splitting a text of whole lines. *)
Lemma Split_lines (c : ascii) ls s :
  Forall (λ l, c ∉ l) ls → c ∉ s →
  Split (concat (map (λ l, l ++ [c]) ls) ++ s) [c] = ls ++ [s].
Proof.
  intros Hls Hs. induction Hls as [|l ls Hl _ IH]; simpl; [by apply Split_notin|].
  rewrite <- !app_assoc. simpl. by rewrite Split_app, IH.
Qed.

(** ** Lemmas: replacing

    [replace_all] with a one-byte pattern maps every byte on its own. *)
Lemma replace_single s c new :
  replace_all s [c] new = flat_map (λ x, if ascii_dec x c then new else [x]) s.
Proof.
  unfold replace_all.
  assert (Hgen : ∀ n s, length s ≤ n →
    Join (Split s [c]) new = flat_map (λ x, if ascii_dec x c then new else [x]) s);
    [|by apply (Hgen (length s))].
  clear s. intros n. induction n as [|n IH]; intros s Hlen.
  { destruct s; [done|simpl in Hlen; lia]. }
  rewrite Split_unfold by done. destruct (cut [c] s) as [[b a]|] eqn:Hc.
  - assert (Hb : flat_map (λ x, if ascii_dec x c then new else [x]) b = b ∧ s = b ++ c :: a).
    { clear Hlen IH. revert b a Hc. induction s as [|d s IHs]; intros b a; simpl; [done|].
      destruct (ascii_dec c d) as [->|Hne]; [by intros [= <- <-]|].
      destruct (cut [c] s) as [[b' a']|] eqn:E; [|done]. intros [= <- <-].
      destruct (IHs b' a') as [Hb ->]; [done|]. simpl.
      destruct (ascii_dec d c); [congruence|]. by rewrite Hb. }
    destruct Hb as [Hb ->]. rewrite Join_cons by apply Split_nonempty.
    rewrite flat_map_app, Hb. simpl. destruct (ascii_dec c c); [|done].
    rewrite IH; [done|]. rewrite length_app in Hlen. simpl in Hlen. lia.
  - simpl. clear Hlen IH. revert Hc. induction s as [|d s IHs]; simpl; [done|].
    destruct (ascii_dec c d) as [->|Hne]; [done|].
    destruct (cut [c] s) as [[b' a']|] eqn:E; [done|]. intros _.
    destruct (ascii_dec d c); [congruence|]. simpl. by rewrite <- IHs.
Qed.

(** With a two-byte pattern of different bytes it is a left-to-right scan. *)
Fixpoint scan2 (a b : ascii) (new s : bytes) : bytes :=
  match s with
  | [] => []
  | x :: s' =>
     match s' with
     | y :: s'' =>
        if ascii_dec x a then
          if ascii_dec y b then new ++ scan2 a b new s'' else x :: scan2 a b new s'
        else x :: scan2 a b new s'
     | [] => [x]
     end
  end.

Lemma cut_cons sep x s :
  cut sep (x :: s) =
  match strip_prefix sep (x :: s) with
  | Some r => Some ([], r)
  | None => prod_map (x ::.) id <$> cut sep s
  end.
Proof.
  simpl. destruct (strip_prefix sep (x :: s)); [done|].
  by destruct (cut sep s) as [[]|].
Qed.

Lemma cut2_cons a b x s :
  cut [a; b] (x :: s) =
  match s with
  | y :: s' =>
     if ascii_dec x a then
       if ascii_dec y b then Some ([], s')
       else prod_map (x ::.) id <$> cut [a; b] s
     else prod_map (x ::.) id <$> cut [a; b] s
  | [] => None
  end.
Proof.
  rewrite cut_cons. destruct s as [|y s]; cbn [strip_prefix].
  - by destruct (ascii_dec a x).
  - destruct (ascii_dec a x), (ascii_dec x a), (ascii_dec b y), (ascii_dec y b);
      congruence || done.
Qed.

Lemma replace_double s a b new : replace_all s [a; b] new = scan2 a b new s.
Proof.
  unfold replace_all.
  assert (Hgen : ∀ n s, length s ≤ n → Join (Split s [a; b]) new = scan2 a b new s);
    [|by apply (Hgen (length s))].
  clear s. intros n. induction n as [|n IH]; intros s Hlen.
  { destruct s; [done|simpl in Hlen; lia]. }
  destruct s as [|x s]; [done|]. rewrite Split_unfold by done. rewrite cut2_cons.
  destruct s as [|y s]; [done|].
  assert (Hskip :
    Join match prod_map (x ::.) id <$> cut [a; b] (y :: s) with
         | Some (b0, a0) => b0 :: Split a0 [a; b]
         | None => [x :: y :: s]
         end new = x :: scan2 a b new (y :: s)).
  { rewrite <- IH by (simpl in *; lia). rewrite (Split_unfold (y :: s)) by done.
    destruct (cut [a; b] (y :: s)) as [[b0 a0]|]; simpl; [|done].
    destruct (Split a0 [a; b]) eqn:E; [by apply Split_nonempty in E|done]. }
  simpl scan2 at 1. destruct (ascii_dec x a) as [->|]; [|exact Hskip].
  destruct (ascii_dec y b) as [->|]; [|exact Hskip].
  rewrite Join_cons by apply Split_nonempty. simpl. rewrite IH; [done|simpl in Hlen; lia].
Qed.
