(* ===== verification/SemVer.v ===== *)
(** * Semantic versions of jobfiles and run records ([jobfile/semver.go])

    [SemVer] selects the jobfile parser and the run-record format.  The two
    facts the rest of the program leans on are that a version written out is
    read back unchanged and that [Compare] is a total order. *)

From S2P Require Import Prelude GoStrings.

Open Scope Z_scope.
Open Scope bytes_scope.
Open Scope list_scope.

Record SemVer := mkSemVer { Major : Z; Minor : Z; Patch : Z }.

#[export] Instance SemVer_eq_dec : EqDecision SemVer.
Proof. solve_decision. Defined.

(** The zero value of the struct *)
Definition SemVer_zero : SemVer := mkSemVer 0 0 0.

Definition IsZero (self : SemVer) : bool :=
  (Major self =? 0) && (Minor self =? 0) && (Patch self =? 0).

Definition SemVer_String (self : SemVer) : bytes :=
  if 0 <? Patch self
  then itoa (Major self) ++ "." ++ itoa (Minor self) ++ "." ++ itoa (Patch self)
  else if 0 <? Minor self
  then itoa (Major self) ++ "." ++ itoa (Minor self)
  else itoa (Major self).

Definition MarshalJSON (self : SemVer) : bytes :=
  [ascii_of_nat 34] ++ SemVer_String self ++ [ascii_of_nat 34].

Definition MarshalYAML (self : SemVer) : bytes := SemVer_String self.

Definition invalid_semver (s : bytes) : error :=
  CommonError ("Invalid Semantic Version: " ++ [ascii_of_nat 34] ++ s ++ [ascii_of_nat 34]) None.

(** [(self *SemVer) fromString(s)]: the fields the text does not mention keep
    the values they had. *)
Definition fromString (self : SemVer) (s : bytes) : outcome SemVer :=
  let parts := Split s "." in
  if bool_decide (3 < length parts)%nat || bool_decide (length parts = 0)%nat
  then Fail (invalid_semver s)
  else
    major ← match parts !! 0%nat with
            | Some p => ParseUint p 32
            | None => Ret (Major self)
            end;
    minor ← match parts !! 1%nat with
            | Some p => ParseUint p 32
            | None => Ret (Minor self)
            end;
    patch ← match parts !! 2%nat with
            | Some p => ParseUint p 32
            | None => Ret (Patch self)
            end;
    Ret (mkSemVer major minor patch).

(** [UnmarshalYAML]: [scalar] is what the YAML library makes of the node read
    as a string. *)
Definition UnmarshalYAML (self : SemVer) (scalar : outcome bytes) : outcome SemVer :=
  match scalar with
  | Ret s => fromString self s
  | Fail e => Fail (CommonError "Cannot unmarshal SemVer" (Some e))
  | Panic msg => Panic msg
  | Running => Running
  end.

Definition compareInts (a b : Z) : Z :=
  if a <? b then -1 else if b <? a then 1 else 0.

Definition Compare (self other : SemVer) : Z :=
  let c := compareInts (Major self) (Major other) in
  if negb (c =? 0) then c
  else
    let c := compareInts (Minor self) (Minor other) in
    if negb (c =? 0) then c
    else compareInts (Patch self) (Patch other).

(** A version whose fields fit the 32 bits the parser accepts. *)
Definition is_uint32 (z : Z) : Prop := 0 ≤ z < 2 ^ 32.
Definition wf (v : SemVer) : Prop :=
  is_uint32 (Major v) ∧ is_uint32 (Minor v) ∧ is_uint32 (Patch v).

(** ** Lemmas *)

Lemma itoa_no_dot n : 0 ≤ n → "."%char ∉ itoa n.
Proof.
  intros _ [H|H]%itoa_chars; [done|]. by vm_compute in H.
Qed.

Lemma compareInts_values a b : compareInts a b = -1 ∨ compareInts a b = 0 ∨ compareInts a b = 1.
Proof. unfold compareInts. destruct (a <? b), (b <? a); auto. Qed.

Lemma compareInts_zero a b : compareInts a b = 0 ↔ a = b.
Proof. unfold compareInts. destruct (Z.ltb_spec a b), (Z.ltb_spec b a); lia. Qed.

Lemma compareInts_neg a b : compareInts a b < 0 ↔ a < b.
Proof. unfold compareInts. destruct (Z.ltb_spec a b), (Z.ltb_spec b a); lia. Qed.

Lemma compareInts_antisym a b : compareInts b a = - compareInts a b.
Proof. unfold compareInts. destruct (Z.ltb_spec a b), (Z.ltb_spec b a); lia. Qed.

#[export] Hint Resolve itoa_no_dot : jobber.

(** [Compare] decides the lexicographic order of the three fields. *)
Lemma Compare_neg v w :
  Compare v w < 0 ↔
  Major v < Major w ∨
  (Major v = Major w ∧
    (Minor v < Minor w ∨ (Minor v = Minor w ∧ Patch v < Patch w))).
Proof.
  destruct v as [a b c], w as [a' b' c']. unfold Compare, compareInts. simpl.
  destruct (Z.ltb_spec a a'), (Z.ltb_spec a' a); simpl; try lia.
  destruct (Z.ltb_spec b b'), (Z.ltb_spec b' b); simpl; try lia.
  destruct (Z.ltb_spec c c'), (Z.ltb_spec c' c); lia.
Qed.

Lemma Compare_zero v w : Compare v w = 0 ↔ v = w.
Proof.
  destruct v as [a b c], w as [a' b' c']. unfold Compare. simpl.
  destruct (Z.eqb_spec (compareInts a a') 0) as [Ha|Ha]; simpl.
  - apply compareInts_zero in Ha as ->.
    destruct (Z.eqb_spec (compareInts b b') 0) as [Hb|Hb]; simpl.
    + apply compareInts_zero in Hb as ->. rewrite compareInts_zero. naive_solver.
    + split; [done|]. intros [= -> ->]. by rewrite compareInts_zero in Hb.
  - split; [done|]. intros [= -> -> ->]. by rewrite compareInts_zero in Ha.
Qed.

Lemma Compare_antisym v w : Compare w v = - Compare v w.
Proof.
  destruct v as [a b c], w as [a' b' c']. unfold Compare. simpl.
  rewrite (compareInts_antisym a a'), (compareInts_antisym b b'), (compareInts_antisym c c').
  destruct (compareInts_values a a') as [->|[->| ->]]; simpl; try done.
  destruct (compareInts_values b b') as [->|[->| ->]]; simpl; done.
Qed.

(** [Compare] is a total order: it orders any two versions, consistently in
    both directions, says 0 exactly for equal versions, and is transitive. *)
Theorem Compare_total_order :
  (∀ v w, Compare w v = - Compare v w) ∧
  (∀ v w, Compare v w = 0 ↔ v = w) ∧
  (∀ u v w, Compare u v < 0 → Compare v w < 0 → Compare u w < 0).
Proof.
  split; [apply Compare_antisym|]. split; [apply Compare_zero|].
  intros u v w. rewrite !Compare_neg. lia.
Qed.

Lemma fromString_printed v : wf v → fromString SemVer_zero (SemVer_String v) = Ret v.
Proof.
  destruct v as [a b c]. intros (Ha & Hb & Hc). unfold SemVer_String. simpl in *.
  assert (a_ok := Ha). unfold is_uint32 in *.
  destruct (Z.ltb_spec 0 c) as [Hc0|Hc0]; [|destruct (Z.ltb_spec 0 b) as [Hb0|Hb0]].
  - unfold fromString.
    replace (Split _ _) with [itoa a; itoa b; itoa c].
    2:{ symmetry. apply (Split_Join "."%char [itoa a; itoa b; itoa c]); [done|].
        repeat constructor; apply itoa_no_dot; lia. }
    simpl. by rewrite !ParseUint_itoa.
  - unfold fromString.
    replace (Split _ _) with [itoa a; itoa b].
    2:{ symmetry. apply (Split_Join "."%char [itoa a; itoa b]); [done|].
        repeat constructor; apply itoa_no_dot; lia. }
    simpl. rewrite !ParseUint_itoa by done. simpl. repeat f_equal; lia.
  - unfold fromString. rewrite Split_notin by (apply itoa_no_dot; lia).
    simpl. rewrite ParseUint_itoa by done. simpl. repeat f_equal; lia.
Qed.

(** A version that is written out ([String], which is also its JSON and
    YAML form) and read back into a fresh [SemVer], directly or from YAML, is the
    same version. *)
Theorem fromString_String v :
  wf v →
  fromString SemVer_zero (SemVer_String v) = Ret v ∧
  UnmarshalYAML SemVer_zero (Ret (MarshalYAML v)) = Ret v.
Proof. intros Hv. split; by apply fromString_printed. Qed.

Lemma fromString_String_witness :
  wf (mkSemVer 1 4 0) ∧ fromString SemVer_zero (SemVer_String (mkSemVer 1 4 0)) = Ret (mkSemVer 1 4 0).
Proof.
  assert (H : wf (mkSemVer 1 4 0)) by (unfold wf, is_uint32; simpl; lia).
  split; [exact H|]. exact (proj1 (fromString_String _ H)).
Defined.
