(* ===== verification/Calendar.v ===== *)
(** * Instants and their calendar fields (Go's [time] package)

    An instant ([time.Time]) is the number of nanoseconds since the Unix epoch.
    Its calendar fields depend on the location; the time-zone database is not
    part of the program, so a location is a parameter: the offset from UTC, in
    seconds, that is in force at a given second. *)

From S2P Require Import Prelude.

Open Scope Z_scope.

Notation Time := Z (only parsing).
Notation Duration := Z (only parsing).

Definition Nanosecond : Duration := 1.
Definition Microsecond : Duration := 1000.
Definition Millisecond : Duration := 1000000.
Definition Second_ : Duration := 1000000000.
Definition Minute_ : Duration := 60 * Second_.
Definition Hour_ : Duration := 60 * Minute_.

(** The instants [t] for which [t.UnixNano()] is meaningful. *)
Definition UnixNano (t : Time) : Z := wrap64 t.
Definition Unix (t : Time) : Z := t / Second_.

Definition Before (t u : Time) : bool := t <? u.
Definition After (t u : Time) : bool := u <? t.
Definition Add (t : Time) (d : Duration) : Time := t + d.

Inductive Month :=
| January | February | March | April | May | June
| July | August | September | October | November | December.

Inductive Weekday :=
| Sunday | Monday | Tuesday | Wednesday | Thursday | Friday | Saturday.

#[export] Instance Month_eq_dec : EqDecision Month.
Proof. solve_decision. Defined.
#[export] Instance Weekday_eq_dec : EqDecision Weekday.
Proof. solve_decision. Defined.

Definition month_number (n : Z) : Month :=
  match n with
  | 1 => January | 2 => February | 3 => March | 4 => April
  | 5 => May | 6 => June | 7 => July | 8 => August
  | 9 => September | 10 => October | 11 => November | _ => December
  end.

Definition weekday_number (n : Z) : Weekday :=
  match n with
  | 0 => Sunday | 1 => Monday | 2 => Tuesday | 3 => Wednesday
  | 4 => Thursday | 5 => Friday | _ => Saturday
  end.

(** The proleptic Gregorian date of a day counted from 1 January 1970: year,
    month (1 to 12) and day of the month.  Years are counted from March inside
    an era of 400 years. *)
Definition day_of_era (day : Z) : Z := (day + 719468) mod 146097.
Definition year_of_era (doe : Z) : Z :=
  (doe - doe / 1460 + doe / 36524 - doe / 146096) / 365.
Definition day_of_year (doe : Z) : Z :=
  let yoe := year_of_era doe in doe - (365 * yoe + yoe / 4 - yoe / 100).

Definition civil_month (day : Z) : Z :=
  let mp := (5 * day_of_year (day_of_era day) + 2) / 153 in
  if mp <? 10 then mp + 3 else mp - 9.

Definition civil_mday (day : Z) : Z :=
  let doy := day_of_year (day_of_era day) in
  let mp := (5 * doy + 2) / 153 in
  doy - (153 * mp + 2) / 5 + 1.

Definition civil_year (day : Z) : Z :=
  year_of_era (day_of_era day) + 400 * ((day + 719468) / 146097) +
  (if civil_month day <=? 2 then 1 else 0).

(** ** The fields of an instant at a location *)

Class Location := utc_offset : Z → Z.

(** Coordinated universal time *)
Definition UTC : Location := λ _, 0.

Section Fields.
Context `{Location}.

Definition local_seconds (t : Time) : Z := Unix t + utc_offset (Unix t).

Definition Second (t : Time) : Z := local_seconds t mod 60.
Definition Minute (t : Time) : Z := (local_seconds t / 60) mod 60.
Definition Hour (t : Time) : Z := (local_seconds t / 3600) mod 24.
Definition local_day (t : Time) : Z := local_seconds t / 86400.
Definition Day (t : Time) : Z := civil_mday (local_day t).
Definition month_of (t : Time) : Month := month_number (civil_month (local_day t)).
Definition Year (t : Time) : Z := civil_year (local_day t).
Definition weekday_of (t : Time) : Weekday := weekday_number ((local_day t + 4) mod 7).

End Fields.

(** ** Lemmas *)

Lemma day_of_year_range doe : 0 ≤ doe < 146097 → 0 ≤ day_of_year doe ≤ 365.
Proof.
  intros Hdoe. unfold day_of_year, year_of_era.
  assert (doe / 146096 = 0 ∨ doe = 146096) as [H0| ->] by divlia; [|done].
  assert (doe / 36524 = 0 ∨ doe / 36524 = 1 ∨ doe / 36524 = 2 ∨
          doe / 36524 = 3 ∨ doe / 36524 = 4) as Hc by divlia.
  destruct Hc as [Hc|[Hc|[Hc|[Hc|Hc]]]]; rewrite H0, Hc; clear H0; split; divlia.
Qed.

Lemma civil_month_range day : 1 ≤ civil_month day ≤ 12.
Proof.
  unfold civil_month, day_of_era.
  pose proof (Z.mod_pos_bound (day + 719468) 146097).
  pose proof (day_of_year_range ((day + 719468) mod 146097)).
  destruct (Z.ltb_spec ((5 * day_of_year ((day + 719468) mod 146097) + 2) / 153) 10); divlia.
Qed.

Lemma civil_mday_range day : 1 ≤ civil_mday day ≤ 31.
Proof.
  unfold civil_mday, day_of_era.
  pose proof (Z.mod_pos_bound (day + 719468) 146097).
  pose proof (day_of_year_range ((day + 719468) mod 146097)). divlia.
Qed.

(** The epoch was a Thursday, 1 January 1970; 29 February 2024 was a Thursday. *)
Example epoch_fields :
  (Second (H:=UTC) 0, Minute (H:=UTC) 0, Hour (H:=UTC) 0, Day (H:=UTC) 0,
   month_of (H:=UTC) 0, Year (H:=UTC) 0, weekday_of (H:=UTC) 0) =
  (0, 0, 0, 1, January, 1970, Thursday).
Proof. reflexivity. Qed.

Example leap_day_fields :
  let t := 1709210096 * Second_ in
  (Second (H:=UTC) t, Minute (H:=UTC) t, Hour (H:=UTC) t, Day (H:=UTC) t,
   month_of (H:=UTC) t, Year (H:=UTC) t, weekday_of (H:=UTC) t) =
  (56, 34, 12, 29, February, 2024, Thursday).
Proof. reflexivity. Qed.
