(* ===== verification/TimeSpec.v ===== *)
(** * Time specifications ([jobfile/time_spec.go])

    A [TimeSpec] says which values of one calendar field a job runs at; a
    [FullTimeSpec] has one for each of the six fields.  A random specification
    picks its value once, in [Derandomize]; until then asking whether it is
    satisfied panics.  The theorems say what a schedule means once it has been
    derandomized and that it can no longer panic. *)

From S2P Require Import Prelude GoStrings Calendar.

Open Scope Z_scope.
Open Scope bytes_scope.
Open Scope list_scope.

(** ** Data *)

Inductive TimeSpec :=
| WildcardTimeSpec
| OneValTimeSpec (val : Z)
| SetTimeSpec (desc : bytes) (vals : list Z)
| RandomTimeSpec (desc : bytes) (vals : list Z) (pickedVal : option Z).

#[export] Instance TimeSpec_eq_dec : EqDecision TimeSpec.
Proof. solve_decision. Defined.

Record FullTimeSpec := mkFullTimeSpec {
  Sec : TimeSpec;
  Min : TimeSpec;
  Hour : TimeSpec;
  Mday : TimeSpec;
  Mon : TimeSpec;
  Wday : TimeSpec
}.

#[export] Instance FullTimeSpec_eq_dec : EqDecision FullTimeSpec.
Proof. solve_decision. Defined.

(** ** The pseudo-random generator ([math/rand])

    [Intn n] is documented to return a number in [[0, n)] and to panic when
    [n <= 0]. *)
Class Rand := { rng : Type; draw : rng → Z → Z * rng }.
Class RandOk (R : Rand) : Prop :=
  draw_range : ∀ r n, 0 < n → 0 ≤ fst (draw r n) < n.

Definition Intn `{Rand} (n : Z) : stM rng Z := λ r,
  if n <=? 0 then (Panic "invalid argument to Intn", r)
  else let '(v, r') := draw r n in (Ret v, r').

(** ** Operations *)

Definition monthToInt (m : Month) : Z :=
  match m with
  | January => 1
  | February => 2
  | March => 3
  | April => 4
  | May => 5
  | June => 6
  | July => 7
  | August => 8
  | September => 9
  | October => 10
  | November => 11
  | December => 12
  end.

Definition weekdayToInt (d : Weekday) : Z :=
  match d with
  | Sunday => 0
  | Monday => 1
  | Tuesday => 2
  | Wednesday => 3
  | Thursday => 4
  | Friday => 5
  | Saturday => 6
  end.

Definition IsWildcard (ts : TimeSpec) : bool :=
  match ts with
  | WildcardTimeSpec => true
  | OneValTimeSpec _ => false
  | SetTimeSpec _ _ => false
  | RandomTimeSpec _ _ _ => false
  end.

Definition TimeSpec_String (ts : TimeSpec) : bytes :=
  match ts with
  | WildcardTimeSpec => "*"
  | OneValTimeSpec val => itoa val
  | SetTimeSpec desc _ => desc
  | RandomTimeSpec desc _ None => desc
  | RandomTimeSpec desc _ (Some v) => desc ++ "->" ++ itoa v
  end.

Fixpoint set_contains (vals : list Z) (v : Z) : bool :=
  match vals with
  | [] => false
  | v2 :: vals => if v =? v2 then true else set_contains vals v
  end.

Definition Satisfied (ts : TimeSpec) (v : Z) : outcome bool :=
  match ts with
  | WildcardTimeSpec => Ret true
  | OneValTimeSpec val => Ret (val =? v)
  | SetTimeSpec _ vals => Ret (set_contains vals v)
  | RandomTimeSpec _ _ None => Panic "RandomTimeSpec has never been derandomized"
  | RandomTimeSpec _ _ (Some p) => Ret (p =? v)
  end.

Definition PickedValue (ts : TimeSpec) : option Z :=
  match ts with RandomTimeSpec _ _ p => p | _ => None end.

Definition Derandomize `{Rand} (ts : TimeSpec) : stM rng TimeSpec :=
  match ts with
  | RandomTimeSpec desc vals None =>
     i ← Intn (Z.of_nat (length vals));
     tmp ← liftS (at_index vals (Z.to_nat i));
     mret (RandomTimeSpec desc vals (Some tmp))
  | _ => mret ts
  end.

Definition FullTimeSpec_String (self : FullTimeSpec) : bytes :=
  TimeSpec_String (Sec self) ++ " " ++ TimeSpec_String (Min self) ++ " " ++
  TimeSpec_String (Hour self) ++ " " ++ TimeSpec_String (Mday self) ++ " " ++
  TimeSpec_String (Mon self) ++ " " ++ TimeSpec_String (Wday self).

Definition FullDerandomize `{Rand} (self : FullTimeSpec) : stM rng FullTimeSpec :=
  sec ← Derandomize (Sec self);
  min ← Derandomize (Min self);
  hour ← Derandomize (Hour self);
  mday ← Derandomize (Mday self);
  mon ← Derandomize (Mon self);
  wday ← Derandomize (Wday self);
  mret (mkFullTimeSpec sec min hour mday mon wday).

(** Go's [&&] and [||]: the right operand is evaluated only when needed, so a
    panic in it may not happen. *)
Definition and_then (a b : outcome bool) : outcome bool :=
  x ← a; if x : bool then b else Ret false.
Definition or_else (a b : outcome bool) : outcome bool :=
  x ← a; if x : bool then Ret true else b.

Definition FullSatisfied `{Location} (self : FullTimeSpec) (t : Time) : outcome bool :=
  nondayMatch ←
    and_then (Satisfied (Sec self) (Second t))
    (and_then (Satisfied (Min self) (Minute t))
    (and_then (Satisfied (Hour self) (Calendar.Hour t))
              (Satisfied (Mon self) (monthToInt (month_of t)))));
  dayMatch ←
    (if negb (IsWildcard (Mday self)) && negb (IsWildcard (Wday self))
     then or_else (Satisfied (Wday self) (weekdayToInt (weekday_of t)))
                  (Satisfied (Mday self) (Day t))
     else and_then (Satisfied (Wday self) (weekdayToInt (weekday_of t)))
                   (Satisfied (Mday self) (Day t)));
  Ret (nondayMatch && dayMatch).

(** ** Specification *)

(** The values a specification stands for; a random one that has not picked
    its value stands for none. *)
Definition allows (ts : TimeSpec) (v : Z) : Prop :=
  match ts with
  | WildcardTimeSpec => True
  | OneValTimeSpec val => v = val
  | SetTimeSpec _ vals => v ∈ vals
  | RandomTimeSpec _ _ p => p = Some v
  end.

Definition derandomized (ts : TimeSpec) : Prop :=
  match ts with RandomTimeSpec _ _ None => False | _ => True end.

Definition fully_derandomized (s : FullTimeSpec) : Prop :=
  derandomized (Sec s) ∧ derandomized (Min s) ∧ derandomized (Hour s) ∧
  derandomized (Mday s) ∧ derandomized (Mon s) ∧ derandomized (Wday s).

(** A random specification has something to pick from. *)
Definition pickable (ts : TimeSpec) : Prop :=
  match ts with RandomTimeSpec _ vals _ => vals ≠ [] | _ => True end.

Definition fully_pickable (s : FullTimeSpec) : Prop :=
  pickable (Sec s) ∧ pickable (Min s) ∧ pickable (Hour s) ∧
  pickable (Mday s) ∧ pickable (Mon s) ∧ pickable (Wday s).

(** The schedule a [FullTimeSpec] denotes: second, minute, hour and month must
    all be allowed; the day must be allowed by both day fields, except that
    when neither of them is a wildcard one of the two is enough. *)
Definition scheduled `{Location} (s : FullTimeSpec) (t : Time) : Prop :=
  allows (Sec s) (Second t) ∧ allows (Min s) (Minute t) ∧
  allows (Hour s) (Calendar.Hour t) ∧ allows (Mon s) (monthToInt (month_of t)) ∧
  (if decide (Mday s ≠ WildcardTimeSpec ∧ Wday s ≠ WildcardTimeSpec)
   then allows (Wday s) (weekdayToInt (weekday_of t)) ∨ allows (Mday s) (Day t)
   else allows (Wday s) (weekdayToInt (weekday_of t)) ∧ allows (Mday s) (Day t)).

(** [ts'] is [ts] with its value picked, if it had one to pick. *)
Definition picks (ts ts' : TimeSpec) : Prop :=
  match ts with
  | RandomTimeSpec desc vals None =>
     ∃ v, v ∈ vals ∧ ts' = RandomTimeSpec desc vals (Some v)
  | _ => ts' = ts
  end.

(** ** Lemmas *)

Lemma set_contains_spec vals v : set_contains vals v = true ↔ v ∈ vals.
Proof.
  induction vals as [|w vals IH]; simpl; [set_solver|].
  destruct (Z.eqb_spec v w); set_solver.
Qed.

Lemma Satisfied_spec ts v :
  derandomized ts → ∃ b, Satisfied ts v = Ret b ∧ (b = true ↔ allows ts v).
Proof.
  destruct ts as [|val|desc vals|desc vals [p|]]; simpl; [..|done]; intros _.
  - by exists true.
  - exists (val =? v). rewrite Z.eqb_eq. naive_solver.
  - exists (set_contains vals v). by rewrite set_contains_spec.
  - exists (p =? v). rewrite Z.eqb_eq. naive_solver.
Qed.

(** Deciding [Satisfied] under the short-circuit operators. *)
Lemma and_then_spec a b (P Q : Prop) :
  (∃ x, a = Ret x ∧ (x = true ↔ P)) → (∃ y, b = Ret y ∧ (y = true ↔ Q)) →
  ∃ z, and_then a b = Ret z ∧ (z = true ↔ P ∧ Q).
Proof. intros ([] & -> & ?) ([] & -> & ?); simpl; eexists; split; done || naive_solver. Qed.

Lemma or_else_spec a b (P Q : Prop) :
  (∃ x, a = Ret x ∧ (x = true ↔ P)) → (∃ y, b = Ret y ∧ (y = true ↔ Q)) →
  ∃ z, or_else a b = Ret z ∧ (z = true ↔ P ∨ Q).
Proof. intros ([] & -> & ?) ([] & -> & ?); simpl; eexists; split; done || naive_solver. Qed.

Lemma IsWildcard_spec ts : IsWildcard ts = true ↔ ts = WildcardTimeSpec.
Proof. by destruct ts. Qed.

Lemma FullSatisfied_spec `{Location} s t :
  fully_derandomized s →
  ∃ b, FullSatisfied s t = Ret b ∧ (b = true ↔ scheduled s t).
Proof.
  intros (? & ? & ? & ? & ? & ?). unfold FullSatisfied, scheduled.
  match goal with
  | |- context [mbind _ ?m] =>
     assert (∃ b, m = Ret b ∧ (b = true ↔
       (allows (Sec s) (Second t) ∧ allows (Min s) (Minute t) ∧
        allows (Hour s) (Calendar.Hour t) ∧ allows (Mon s) (monthToInt (month_of t)))))
       as (nb & -> & Hnb)
  end.
  { repeat first [apply and_then_spec; [by apply Satisfied_spec|]|by apply Satisfied_spec]. }
  simpl.
  destruct (IsWildcard (Mday s)) eqn:Em, (IsWildcard (Wday s)) eqn:Ew; simpl;
    repeat match goal with
    | H : IsWildcard ?ts = true |- _ => apply IsWildcard_spec in H
    | H : IsWildcard ?ts = false |- _ =>
       apply not_true_iff_false in H; rewrite IsWildcard_spec in H
    end.
  4: rewrite decide_True by done; edestruct or_else_spec as (db & -> & Hdb);
     [by apply Satisfied_spec|by apply Satisfied_spec|].
  1-3: rewrite decide_False by tauto; edestruct and_then_spec as (db & -> & Hdb);
     [by apply Satisfied_spec|by apply Satisfied_spec|].
  all: simpl; exists (nb && db); split; [done|];
     rewrite andb_true_iff, Hnb, Hdb; tauto.
Qed.

Lemma Derandomize_spec `{R : Rand, !RandOk R} ts r :
  pickable ts →
  ∃ ts' r', Derandomize ts r = (Ret ts', r') ∧ picks ts ts' ∧ derandomized ts' ∧ pickable ts'.
Proof.
  destruct ts as [|val|desc vals|desc vals [p|]]; simpl; intros Hp;
    try by (do 2 eexists; repeat split).
  assert (Hlen : (0 < length vals)%nat) by (destruct vals; [done|simpl; lia]).
  unfold Intn. cbv [mbind stM_bind].
  destruct (Z.leb_spec (Z.of_nat (length vals)) 0); [lia|].
  pose proof (draw_range r (Z.of_nat (length vals))) as Hd.
  destruct (draw r (Z.of_nat (length vals))) as [v r']. simpl in Hd.
  destruct (lookup_lt_is_Some_2 vals (Z.to_nat v)) as [x Hx]; [lia|].
  unfold liftS, at_index. rewrite Hx. simpl.
  do 2 eexists. split; [done|]. repeat split; try done.
  exists x. split; [|done]. by eapply list_elem_of_lookup_2.
Qed.

(** [Derandomize] applied to a specification that has its value changes nothing. *)
Lemma Derandomize_id `{Rand} ts r :
  derandomized ts → Derandomize ts r = (Ret ts, r).
Proof. by destruct ts as [|val|desc vals|desc vals [p|]]. Qed.

Lemma FullDerandomize_spec `{R : Rand, !RandOk R} s r :
  fully_pickable s →
  ∃ s' r', FullDerandomize s r = (Ret s', r') ∧ fully_derandomized s' ∧
    picks (Sec s) (Sec s') ∧ picks (Min s) (Min s') ∧ picks (Hour s) (Hour s') ∧
    picks (Mday s) (Mday s') ∧ picks (Mon s) (Mon s') ∧ picks (Wday s) (Wday s') ∧
    ∀ r2, FullDerandomize s' r2 = (Ret s', r2).
Proof.
  intros (H1 & H2 & H3 & H4 & H5 & H6). unfold FullDerandomize.
  destruct (Derandomize_spec (Sec s) r) as (t1 & r1 & E1 & P1 & D1 & _); [done|].
  destruct (Derandomize_spec (Min s) r1) as (t2 & r2 & E2 & P2 & D2 & _); [done|].
  destruct (Derandomize_spec (Hour s) r2) as (t3 & r3 & E3 & P3 & D3 & _); [done|].
  destruct (Derandomize_spec (Mday s) r3) as (t4 & r4 & E4 & P4 & D4 & _); [done|].
  destruct (Derandomize_spec (Mon s) r4) as (t5 & r5 & E5 & P5 & D5 & _); [done|].
  destruct (Derandomize_spec (Wday s) r5) as (t6 & r6 & E6 & P6 & D6 & _); [done|].
  exists (mkFullTimeSpec t1 t2 t3 t4 t5 t6), r6.
  cbv [mbind stM_bind] in *. rewrite E1, E2, E3, E4, E5, E6.
  repeat split; try done.
  intros r7. simpl. by rewrite !Derandomize_id.
Qed.

(** ** Theorems *)

(** C6: On a schedule whose random fields have been derandomized, [Satisfied]
    never panics and answers exactly whether the instant is scheduled: second,
    minute, hour and month all match, and the day matches both day fields, or
    either of them when neither is a wildcard. *)
Theorem FullSatisfied_correct `{Location} s t :
  fully_derandomized s →
  ∃ b, FullSatisfied s t = Ret b ∧ (b = true ↔ scheduled s t).
Proof. apply FullSatisfied_spec. Qed.

(** [Derandomize] on a schedule whose random fields have at least one value
    does not panic; each random field gets a value of its own set, every other
    field is unchanged, and derandomizing again changes nothing. *)
Theorem FullDerandomize_correct `{R : Rand, !RandOk R} s r :
  fully_pickable s →
  ∃ s' r', FullDerandomize s r = (Ret s', r') ∧ fully_derandomized s' ∧
    picks (Sec s) (Sec s') ∧ picks (Min s) (Min s') ∧ picks (Hour s) (Hour s') ∧
    picks (Mday s) (Mday s') ∧ picks (Mon s) (Mon s') ∧ picks (Wday s) (Wday s') ∧
    ∀ r2, FullDerandomize s' r2 = (Ret s', r2).
Proof. apply FullDerandomize_spec. Qed.

(** Every second of every day, and the fifteenth of the month or any Monday. *)
Definition every_second : FullTimeSpec :=
  mkFullTimeSpec WildcardTimeSpec WildcardTimeSpec WildcardTimeSpec
    WildcardTimeSpec WildcardTimeSpec WildcardTimeSpec.
Definition monday_or_fifteenth : FullTimeSpec :=
  mkFullTimeSpec (OneValTimeSpec 0) (OneValTimeSpec 0) (OneValTimeSpec 12)
    (OneValTimeSpec 15) WildcardTimeSpec (OneValTimeSpec 1).

Lemma FullSatisfied_correct_witness :
  fully_derandomized monday_or_fifteenth ∧
  ∃ b, FullSatisfied (H:=UTC) monday_or_fifteenth 0 = Ret b ∧
       (b = true ↔ scheduled (H:=UTC) monday_or_fifteenth 0).
Proof.
  assert (D : fully_derandomized monday_or_fifteenth) by (repeat split).
  split; [exact D|]. exact (FullSatisfied_correct (H:=UTC) _ 0 D).
Defined.

(** A generator that always draws the first value. *)
#[local] Instance first_rand : Rand := {| rng := unit; draw := λ r _, (0, r) |}.
#[local] Instance first_rand_ok : RandOk first_rand.
Proof. intros r n Hn. simpl. lia. Qed.

Definition hourly_at_random : FullTimeSpec :=
  mkFullTimeSpec (OneValTimeSpec 0) (RandomTimeSpec "R" [3; 7] None) WildcardTimeSpec
    WildcardTimeSpec WildcardTimeSpec WildcardTimeSpec.

Lemma FullDerandomize_correct_witness :
  fully_pickable hourly_at_random ∧
  ∃ s' r', FullDerandomize (H:=first_rand) hourly_at_random tt = (Ret s', r') ∧ fully_derandomized s' ∧
    picks (Min hourly_at_random) (Min s').
Proof.
  assert (P : fully_pickable hourly_at_random) by (repeat split; done).
  split; [exact P|].
  destruct (FullDerandomize_correct (R:=first_rand) _ tt P) as (s' & r' & E & D & _ & M & _).
  exists s', r'. exact (conj E (conj D M)).
Defined.
