(* ===== verification/TimeSpecParse.v ===== *)
(** * Parsing time specifications ([jobfile/parse_time_spec.y], [ParseFullTimeSpec])

    The lexer is translated from the hand-written [yyLex]; the parser is a
    function on token lists that follows the grammar, and is proved to accept
    exactly the sentences of the grammar ([derives]).  [goyacc]'s generated
    driver is not part of the sources; the text it leaves in [gErrorMsg] when
    it rejects its input is the parameter [YaccErrors]. *)

From S2P Require Import Prelude GoStrings Calendar TimeSpec.

Open Scope Z_scope.
Open Scope bytes_scope.
Open Scope list_scope.

(** ** Expressions and their evaluation *)

Inductive SetExp :=
| StepSetExp (step : Z)
| EnumSetExp (ints : list Z)
| RangeSetExp (start end_ : Z)
| AnySetExp.

Inductive TimeSpecExp :=
| OneValTimeSpecExp (val : Z)
| WildcardTimeSpecExp
| SetTimeSpecExp (setExp : SetExp)
| RandomTimeSpecExp (setExp : SetExp).

(** [for v := v; v <= max; v = v + step { vals = append(vals, v) }] on machine
    integers *)
Fixpoint for_vals (fuel : nat) (v max step : Z) : outcome (list Z) :=
  if max <? v then Ret []
  else
    match fuel with
    | O => Running
    | S fuel => vals ← for_vals fuel (wrap64 (v + step)) max step; Ret (v :: vals)
    end.

(** Keep the first occurrence of every value; [seen] is the key set of
    [uniqMap]. *)
Fixpoint uniq (seen : list Z) (l : list Z) : list Z :=
  match l with
  | [] => []
  | v :: l => if bool_decide (v ∈ seen) then uniq seen l else v :: uniq (v :: seen) l
  end.

Definition normValues (ints : list Z) : list Z := uniq [] (merge_sort Z.le ints).

Definition SetExp_String (e : SetExp) : bytes :=
  match e with
  | StepSetExp step => "*/" ++ itoa step
  | EnumSetExp ints => Join (map itoa (normValues ints)) ","
  | RangeSetExp start end_ => itoa start ++ "-" ++ itoa end_
  | AnySetExp => ""
  end.

Definition range_error (fieldName what : bytes) (bound : Z) : error :=
  CommonError ("Invalid " ++ dquote fieldName ++ " value: Values must be " ++ what ++
               " than or equal to " ++ itoa bound) None.

Fixpoint check_enum (fieldName : bytes) (min max : Z) (ints : list Z) : outcome unit :=
  match ints with
  | [] => Ret tt
  | v :: ints =>
     if v <? min then Fail (range_error fieldName "greater" min)
     else if max <? v then Fail (range_error fieldName "less" max)
     else check_enum fieldName min max ints
  end.

Definition SetExp_Eval (fuel : nat) (e : SetExp) (fieldName : bytes) (min max : Z)
    : outcome (list Z) :=
  match e with
  | StepSetExp step => for_vals fuel min max step
  | EnumSetExp ints =>
     _ ← check_enum fieldName min max ints;
     Ret (normValues ints)
  | RangeSetExp start end_ =>
     if start <? min then Fail (range_error fieldName "greater" min)
     else if max <? end_ then Fail (range_error fieldName "less" max)
     else if end_ <? start then
       Fail (CommonError ("Invalid " ++ dquote fieldName ++
               " value: start must be less than or equal to end") None)
     else for_vals fuel start end_ 1
  | AnySetExp => for_vals fuel min max 1
  end.

Definition Eval_ (fuel : nat) (e : TimeSpecExp) (fieldName : bytes) (min max : Z)
    : outcome TimeSpec :=
  match e with
  | OneValTimeSpecExp val =>
     let errMsg := "Invalid '" ++ fieldName ++ "' value" in
     if val <? min then
       Fail (CommonError (errMsg ++ ": cannot be less than " ++ itoa min ++ ".") None)
     else if max <? val then
       Fail (CommonError (errMsg ++ ": cannot be greater than " ++ itoa max ++ ".") None)
     else Ret (OneValTimeSpec val)
  | WildcardTimeSpecExp => Ret WildcardTimeSpec
  | SetTimeSpecExp setExp =>
     vals ← SetExp_Eval fuel setExp fieldName min max;
     Ret (SetTimeSpec (SetExp_String setExp) vals)
  | RandomTimeSpecExp setExp =>
     vals ← SetExp_Eval fuel setExp fieldName min max;
     Ret (RandomTimeSpec ("R" ++ SetExp_String setExp) vals None)
  end.

(** ** The lexer *)

Inductive token := TComma | TDash | TR | TStar | TStarSlash | TInt (n : Z).

#[export] Instance token_eq_dec : EqDecision token.
Proof. solve_decision. Defined.

(** Why the lexer returned [gEof]: the input ended, or it met something it set
    an error message about. *)
Inductive eof_reason :=
| EndOfInput
| InvalidNumber
| UnexpectedChar (r : Z).

(** [yyLex]: runes are bytes ([rune(r)] of one byte); 0 is [gEof]. *)
Record yyLex := mkLex { expr : bytes; peek : Z }.

Definition nextRune (self : yyLex) : Z * yyLex :=
  if negb (peek self =? 0) then (peek self, mkLex (expr self) 0)
  else
    match expr self with
    | [] => (0, self)
    | r :: expr' => (code r, mkLex expr' 0)
    end.

(** [unicode.IsSpace], [unicode.IsDigit] and [unicode.IsPunct] below 256 *)
Definition rune_is_digit (r : Z) : bool := (48 <=? r) && (r <=? 57).
Definition rune_is_space (r : Z) : bool :=
  ((9 <=? r) && (r <=? 13)) || (r =? 32) || (r =? 133) || (r =? 160).
Definition rune_is_punct (r : Z) : bool :=
  bool_decide (r ∈ [33; 34; 35; 37; 38; 39; 40; 41; 42; 44; 45; 46; 47; 58; 59; 63; 64;
                    91; 92; 93; 95; 123; 125; 161; 167; 171; 182; 183; 187; 191]).

(** The digits of a numeral after its first one, and the rune that ended it. *)
Fixpoint read_numeral (fuel : nat) (lx : yyLex) (numeral : bytes) : bytes * Z * yyLex :=
  match fuel with
  | O => (numeral, 0, lx)
  | S fuel =>
     let '(r2, lx') := nextRune lx in
     if rune_is_digit r2 then read_numeral fuel lx' (numeral ++ [ascii_of_nat (Z.to_nat r2)])
     else (numeral, r2, lx')
  end.

Inductive lex_result := Tok (t : token) | Eof (why : eof_reason).

Fixpoint Lex (fuel : nat) (lx : yyLex) : lex_result * yyLex :=
  match fuel with
  | O => (Eof EndOfInput, lx)
  | S fuel =>
     let '(r, lx1) := nextRune lx in
     if r =? code "," then (Tok TComma, lx1)
     else if r =? code "-" then (Tok TDash, lx1)
     else if r =? code "R" then (Tok TR, lx1)
     else if r =? code "*" then
       let '(r2, lx2) := nextRune lx1 in
       if r2 =? code "/" then (Tok TStarSlash, lx2)
       else (Tok TStar, mkLex (expr lx2) r2)
     else if rune_is_digit r then
       let '(numeral, r2, lx2) :=
         read_numeral (S (length (expr lx1))) lx1 [ascii_of_nat (Z.to_nat r)] in
       if rune_is_space r2 || rune_is_punct r2 || (r2 =? 0) then
         let lx3 := mkLex (expr lx2) r2 in
         match Atoi numeral with
         | Ret number => (Tok (TInt number), lx3)
         | _ => (Eof InvalidNumber, lx3)
         end
       else (Eof InvalidNumber, lx2)
     else if (r =? code " ") || (r =? 9) then Lex fuel lx1
     else if r =? 0 then (Eof EndOfInput, lx1)
     else (Eof (UnexpectedChar r), lx1)
  end.

(** The tokens up to the first [gEof], which is all the parser reads. *)
Fixpoint lex_all (fuel : nat) (lx : yyLex) : list token * eof_reason :=
  match fuel with
  | O => ([], EndOfInput)
  | S fuel' =>
     match Lex fuel lx with
     | (Tok t, lx') => let '(ts, why) := lex_all fuel' lx' in (t :: ts, why)
     | (Eof why, _) => ([], why)
     end
  end.

Definition NewTimeSpecLexer (s : bytes) : yyLex := mkLex s 0.

Definition lex_fuel (s : bytes) : nat := 2 + length s.

(** ** The parser *)

(** [enum_set_exp_tail]: [',' INT] one or more times *)
Fixpoint parse_enum_tail (ts : list token) : option (list Z) :=
  match ts with
  | TComma :: TInt n :: [] => Some [n]
  | TComma :: TInt n :: ts => ns ← parse_enum_tail ts; Some (n :: ns)
  | _ => None
  end.

Definition parse_set_exp (ts : list token) : option SetExp :=
  match ts with
  | [TStarSlash; TInt n] => Some (StepSetExp n)
  | [TInt a; TDash; TInt b] => Some (RangeSetExp a b)
  | TInt n :: ts => ns ← parse_enum_tail ts; Some (EnumSetExp (n :: ns))
  | _ => None
  end.

(** [top] *)
Definition parse_top (ts : list token) : option TimeSpecExp :=
  match ts with
  | [TInt n] => Some (OneValTimeSpecExp n)
  | [TStar] => Some WildcardTimeSpecExp
  | [TR] => Some (RandomTimeSpecExp AnySetExp)
  | TR :: ts => e ← parse_set_exp ts; Some (RandomTimeSpecExp e)
  | _ => e ← parse_set_exp ts; Some (SetTimeSpecExp e)
  end.

(** The message [gErrorMsg] holds after [yyParse] has rejected a text. *)
Class YaccErrors := yacc_error_text : bytes → bytes.

Definition parseTimeSpec `{YaccErrors} (fuel : nat) (s fieldName : bytes) (min max : Z)
    : outcome TimeSpec :=
  match parse_top (fst (lex_all (lex_fuel s) (NewTimeSpecLexer s))) with
  | None =>
     Fail (CommonError ("Cannot parse time spec for " ++ dquote fieldName ++ ": " ++
                        yacc_error_text s) None)
  | Some e => Eval_ fuel e fieldName min max
  end.

(** One of the six fields of a schedule: missing fields are wildcards. *)
Definition parse_field `{YaccErrors} (fuel : nat) (timeParts : list bytes) (i : nat)
    (fieldName : bytes) (min max : Z) : outcome TimeSpec :=
  match timeParts !! i with
  | Some part => parseTimeSpec fuel part fieldName min max
  | None => Ret WildcardTimeSpec
  end.

Definition ParseFullTimeSpec `{YaccErrors} (fuel : nat) (s : bytes) : outcome FullTimeSpec :=
  let timeParts := Fields s in
  sec ← parse_field fuel timeParts 0 "sec" 0 59;
  min ← parse_field fuel timeParts 1 "minute" 0 59;
  hour ← parse_field fuel timeParts 2 "hour" 0 23;
  mday ← parse_field fuel timeParts 3 "month day" 1 31;
  mon ← parse_field fuel timeParts 4 "month" 1 12;
  wday ← parse_field fuel timeParts 5 "weekday" 0 6;
  if bool_decide (6 < length timeParts)%nat
  then Fail (CommonError "Excess elements in 'time' field." None)
  else Ret (mkFullTimeSpec sec min hour mday mon wday).

(** Fuel that is enough for every field unless a step of 0 was given. *)
Definition eval_fuel : nat := 64.

#[local] Instance no_text : YaccErrors := λ _, [].
Example parse_ex1 : ParseFullTimeSpec eval_fuel "0 */15 R 1-5 3,1,3" =
  Ret (mkFullTimeSpec (OneValTimeSpec 0) (SetTimeSpec "*/15" [0; 15; 30; 45])
    (RandomTimeSpec "R" (seqZ 0 24) None) (SetTimeSpec "1-5" [1; 2; 3; 4; 5])
    (SetTimeSpec "1,3" [1; 3]) WildcardTimeSpec).
Proof. vm_compute. reflexivity. Qed.
Example parse_ex2 : parseTimeSpec eval_fuel "5x" "sec" 0 59 =
  Fail (CommonError ("Cannot parse time spec for " ++ dquote "sec" ++ ": ") None).
Proof. vm_compute. reflexivity. Qed.

(** ** Specification

    The sentences of the grammar, production by production; the error
    productions derive nothing. *)

Inductive derives_tail : list token → list Z → Prop :=
| d_tail_one n : derives_tail [TComma; TInt n] [n]
| d_tail_more n ts ns :
    derives_tail ts ns → derives_tail (TComma :: TInt n :: ts) (n :: ns).

Inductive derives_set : list token → SetExp → Prop :=
| d_step n : derives_set [TStarSlash; TInt n] (StepSetExp n)
| d_enum n ts ns : derives_tail ts ns → derives_set (TInt n :: ts) (EnumSetExp (n :: ns))
| d_range a b : derives_set [TInt a; TDash; TInt b] (RangeSetExp a b).

Inductive derives : list token → TimeSpecExp → Prop :=
| d_top_int n : derives [TInt n] (OneValTimeSpecExp n)
| d_top_set ts e : derives_set ts e → derives ts (SetTimeSpecExp e)
| d_top_star : derives [TStar] WildcardTimeSpecExp
| d_top_rand ts e : derives_set ts e → derives (TR :: ts) (RandomTimeSpecExp e)
| d_top_rand_any : derives [TR] (RandomTimeSpecExp AnySetExp).

(** The values a set expression stands for in a field that ranges from [min]
    to [max], and when it is acceptable there. *)
Definition set_denotes (e : SetExp) (min max v : Z) : Prop :=
  match e with
  | StepSetExp step => min ≤ v ≤ max ∧ (step | v - min)
  | EnumSetExp ints => v ∈ ints
  | RangeSetExp start end_ => start ≤ v ≤ end_
  | AnySetExp => min ≤ v ≤ max
  end.

Definition set_valid (e : SetExp) (min max : Z) : Prop :=
  match e with
  | StepSetExp step => 0 < step
  | EnumSetExp ints => Forall (λ v, min ≤ v ≤ max) ints
  | RangeSetExp start end_ => min ≤ start ∧ start ≤ end_ ∧ end_ ≤ max
  | AnySetExp => True
  end.

(** The numbers of an expression are what the lexer can produce, and a step is
    small enough for the loop variable not to wrap. *)
Definition set_bounded (e : SetExp) : Prop :=
  match e with StepSetExp step => 0 ≤ step < two63 - 60 | _ => True end.

Definition exp_set (e : TimeSpecExp) : option SetExp :=
  match e with SetTimeSpecExp s | RandomTimeSpecExp s => Some s | _ => None end.

(** The set a parsed specification draws from. *)
Definition candidates (ts : TimeSpec) (v : Z) : Prop :=
  match ts with
  | WildcardTimeSpec => True
  | OneValTimeSpec val => v = val
  | SetTimeSpec _ vals | RandomTimeSpec _ vals _ => v ∈ vals
  end.

(** ** Lemmas: the parser *)

#[local] Arguments parse_enum_tail : simpl nomatch.

Lemma parse_enum_tail_sound n ts ns :
  (length ts < n)%nat → parse_enum_tail ts = Some ns → derives_tail ts ns.
Proof.
  revert ts ns. induction n as [|n IH]; intros ts ns Hlen; [lia|].
  destruct ts as [|[] [|[| | | | |x] [|t ts]]]; simpl; try done.
  - intros [= <-]. constructor.
  - destruct (parse_enum_tail (t :: ts)) eqn:E; [|done]. intros [= <-].
    constructor. apply IH; [simpl in *; lia|done].
Qed.

Lemma parse_enum_tail_cons n ts :
  ts ≠ [] →
  parse_enum_tail (TComma :: TInt n :: ts) = ns ← parse_enum_tail ts; Some (n :: ns).
Proof. by destruct ts. Qed.

Lemma parse_enum_tail_spec ts ns : parse_enum_tail ts = Some ns ↔ derives_tail ts ns.
Proof.
  split; [by apply parse_enum_tail_sound with (S (length ts)); lia|].
  induction 1 as [|n ts ns H IH]; [done|].
  rewrite parse_enum_tail_cons by (by destruct H). by rewrite IH.
Qed.

Lemma parse_set_exp_spec ts e : parse_set_exp ts = Some e ↔ derives_set ts e.
Proof.
  split.
  - intros H. destruct ts as [|[| | | | |n] ts]; try done.
    + destruct ts as [|[| | | | |m] [|]]; simplify_eq/=. constructor.
    + assert (Hcase : (∃ b, ts = [TDash; TInt b] ∧ e = RangeSetExp n b) ∨
                      ∃ ns, parse_enum_tail ts = Some ns ∧ e = EnumSetExp (n :: ns)).
      { unfold parse_set_exp in H. repeat case_match; simplify_eq/=; eauto;
        right; match goal with
        | H : mbind _ ?m = Some _ |- _ => destruct m eqn:?; simplify_eq/=; eauto
        end. }
      destruct Hcase as [(b & -> & ->)|(ns & Hns & ->)]; [constructor|].
      constructor. by apply parse_enum_tail_spec.
  - destruct 1 as [n|n ts ns Ht|a b]; [done| |done].
    apply parse_enum_tail_spec in Ht as Hp.
    destruct Ht; cbn [parse_set_exp]; by rewrite Hp.
Qed.

Lemma parse_top_spec ts e : parse_top ts = Some e ↔ derives ts e.
Proof.
  assert (Hset : ∀ ts e, derives_set ts e → parse_top ts = Some (SetTimeSpecExp e)).
  { intros ts' e' Hd. apply parse_set_exp_spec in Hd as Hp.
    destruct Hd as [|? ? ? []|]; cbn [parse_top]; by rewrite Hp. }
  split.
  - intros H. unfold parse_top in H.
    repeat case_match; simplify_eq;
      try match goal with
      | H : mbind _ _ = Some _ |- _ =>
         apply bind_Some in H as (s & Hs%parse_set_exp_spec & [= <-])
      end; by constructor.
  - destruct 1 as [n|ts e Hd| |ts e Hd|]; [done|by apply Hset|done| |done].
    apply parse_set_exp_spec in Hd as Hp. destruct Hd as [|? ? ? []|]; cbn [parse_top]; by rewrite Hp.
Qed.

(** ** Lemmas: evaluation *)

Lemma for_vals_done fuel v max step : max < v → for_vals fuel v max step = Ret [].
Proof. intros. destruct fuel; simpl; destruct (Z.ltb_spec max v); done || lia. Qed.

Lemma for_vals_step fuel v max step :
  v ≤ max →
  for_vals (S fuel) v max step =
  vals ← for_vals fuel (wrap64 (v + step)) max step; Ret (v :: vals).
Proof. intros. simpl. destruct (Z.ltb_spec max v); [lia|done]. Qed.

(** With a positive step and no wrap-around the loop ends and collects the
    values of its arithmetic progression. *)
Lemma for_vals_spec fuel v max step :
  0 < step → - two63 ≤ v → max + step < two63 → max - v < Z.of_nat fuel * step →
  ∃ l, for_vals fuel v max step = Ret l ∧
       ∀ x, x ∈ l ↔ v ≤ x ≤ max ∧ (step | x - v).
Proof.
  intros Hstep. revert v. induction fuel as [|fuel IH]; intros v Hv Hmax Hfuel.
  - exists []. rewrite for_vals_done by lia. split; [done|].
    intros x. split; [set_solver|lia].
  - destruct (decide (v ≤ max)) as [Hle|Hgt].
    + rewrite for_vals_step by done. rewrite wrap64_small by (split; lia).
      destruct (IH (v + step)) as (l & -> & Hl); [lia..|].
      exists (v :: l). split; [done|]. intros x. rewrite elem_of_cons, Hl. split.
      * intros [->|[Hx [k Hk]]]; [split; [lia|]; exists 0; lia|].
        split; [lia|]. exists (k + 1). lia.
      * intros [Hx [k Hk]]. destruct (decide (x = v)) as [|Hne]; [by left|]. right.
        assert (0 < k) by nia. split; [nia|]. exists (k - 1). lia.
    + exists []. rewrite for_vals_done by lia. split; [done|].
      intros x. split; [set_solver|lia].
Qed.

(** A step of 0 never leaves the loop. *)
Lemma for_vals_zero fuel v max :
  is_int64 v → v ≤ max → for_vals fuel v max 0 = Running.
Proof.
  intros Hv Hle. induction fuel as [|fuel IH]; simpl.
  - destruct (Z.ltb_spec max v); [lia|done].
  - destruct (Z.ltb_spec max v); [lia|]. rewrite Z.add_0_r, wrap64_small by done.
    by rewrite IH.
Qed.

(** In the ranges of the six fields every other step ends within [eval_fuel],
    wrap-around included. *)
Lemma for_vals_ends v max step :
  0 ≤ v ≤ 1 → v ≤ max ≤ 59 → 0 < step < two63 →
  ∃ l, for_vals eval_fuel v max step = Ret l ∧ v ∈ l ∧ Forall (λ x, x ≤ max) l.
Proof.
  intros Hv Hmax Hstep. destruct (decide (max + step < two63)) as [Hs|Hs].
  - destruct (for_vals_spec eval_fuel v max step) as (l & -> & Hl);
      [lia|unfold two63; lia|done|unfold eval_fuel; lia|].
    exists l. split; [done|]. split.
    + apply Hl. split; [lia|]. exists 0. lia.
    + apply Forall_forall. intros x [? _]%Hl. lia.
  - unfold eval_fuel. rewrite for_vals_step by lia.
    destruct (decide (v + step < two63)) as [Hw|Hw].
    + rewrite wrap64_small by (unfold is_int64, two63 in *; lia).
      rewrite for_vals_done by (unfold two63 in *; lia).
      exists [v]. repeat constructor. lia.
    + assert (v = 1 ∧ step = two63 - 1) as [-> ->] by lia.
      change (wrap64 (1 + (two63 - 1))) with (- two63).
      rewrite for_vals_step by (unfold two63; lia).
      change (wrap64 (- two63 + (two63 - 1))) with (-1).
      rewrite for_vals_step by lia.
      change (wrap64 (-1 + (two63 - 1))) with (two63 - 2).
      rewrite for_vals_done by (unfold two63; lia).
      exists [1; - two63; -1]. split; [done|]. split; [set_solver|].
      repeat constructor; unfold two63; lia.
Qed.

Lemma uniq_elem seen l x : x ∈ uniq seen l ↔ x ∈ l ∧ x ∉ seen.
Proof.
  revert seen. induction l as [|v l IH]; intros seen; simpl; [set_solver|].
  case_bool_decide as Hv; [rewrite IH; set_solver|].
  rewrite !elem_of_cons, IH, elem_of_cons. destruct (decide (x = v)); naive_solver.
Qed.

Lemma uniq_NoDup seen l : NoDup (uniq seen l).
Proof.
  revert seen. induction l as [|v l IH]; intros seen; simpl; [constructor|].
  case_bool_decide; [done|]. constructor; [|done]. rewrite uniq_elem. set_solver.
Qed.

Lemma uniq_sublist seen l : uniq seen l `sublist_of` l.
Proof.
  revert seen. induction l as [|v l IH]; intros seen; simpl; [constructor|].
  case_bool_decide; [by apply sublist_cons|by apply sublist_skip].
Qed.

Lemma StronglySorted_sublist {A} (R : relation A) l1 l2 :
  l1 `sublist_of` l2 → StronglySorted R l2 → StronglySorted R l1.
Proof.
  induction 1 as [|x l1 l2 Hs IH|x l1 l2 Hs IH]; intros Hso; [constructor|..].
  - apply StronglySorted_inv in Hso as [H1 H2]. constructor; [by apply IH|].
    rewrite Forall_forall in *. intros y Hy. apply H2. eapply elem_of_submseteq; [done|by apply sublist_submseteq].
  - apply StronglySorted_inv in Hso as [H1 _]. by apply IH.
Qed.

Lemma normValues_elem ints x : x ∈ normValues ints ↔ x ∈ ints.
Proof.
  unfold normValues. rewrite uniq_elem, (merge_sort_Permutation Z.le ints). set_solver.
Qed.

Lemma normValues_sorted ints : StronglySorted Z.le (normValues ints) ∧ NoDup (normValues ints).
Proof.
  split; [|apply uniq_NoDup]. eapply StronglySorted_sublist; [apply uniq_sublist|].
  apply Sorted_StronglySorted; [apply _|]. apply (Sorted_merge_sort Z.le).
Qed.

Lemma check_enum_spec fieldName min max ints :
  (check_enum fieldName min max ints = Ret tt ∧ Forall (λ v, min ≤ v ≤ max) ints) ∨
  (fails (check_enum fieldName min max ints) ∧ ¬ Forall (λ v, min ≤ v ≤ max) ints).
Proof.
  induction ints as [|v ints IH]; simpl; [by left|].
  destruct (Z.ltb_spec v min).
  { right. split; [by eexists|]. rewrite Forall_cons. lia. }
  destruct (Z.ltb_spec max v).
  { right. split; [by eexists|]. rewrite Forall_cons. lia. }
  rewrite Forall_cons. destruct IH as [[-> IH]|[IH1 IH2]]; [left|right].
  - split; [done|]. split; [lia|done].
  - split; [done|tauto].
Qed.

(** Evaluation succeeds on the valid expressions with the values they denote
    and returns an error on the others. *)
Lemma SetExp_Eval_spec e fieldName min max :
  0 ≤ min ≤ 1 → min ≤ max ≤ 59 → set_bounded e → e ≠ StepSetExp 0 →
  (set_valid e min max ∧
   ∃ vals, SetExp_Eval eval_fuel e fieldName min max = Ret vals ∧
           ∀ v, v ∈ vals ↔ set_denotes e min max v) ∨
  (¬ set_valid e min max ∧ fails (SetExp_Eval eval_fuel e fieldName min max)).
Proof.
  intros Hmin Hmax Hb Hz.
  destruct e as [step|ints|a b|]; cbn [SetExp_Eval set_valid set_denotes set_bounded] in *.
  - assert (0 < step) by (destruct (decide (step = 0)); [congruence|lia]).
    left. split; [done|].
    apply for_vals_spec; [done|unfold two63 in *; lia|lia|unfold eval_fuel; lia].
  - destruct (check_enum_spec fieldName min max ints) as [[-> Hv]|[[err ->] Hv]]; simpl.
    + left. split; [done|]. exists (normValues ints). split; [done|]. apply normValues_elem.
    + right. split; [done|]. by eexists.
  - destruct (Z.ltb_spec a min); [right; split; [lia|by eexists]|].
    destruct (Z.ltb_spec max b); [right; split; [lia|by eexists]|].
    destruct (Z.ltb_spec b a); [right; split; [lia|by eexists]|].
    left. split; [lia|].
    destruct (for_vals_spec eval_fuel a b 1) as (l & -> & Hl);
      [lia|unfold two63; lia|unfold two63; lia|unfold eval_fuel; lia|].
    exists l. split; [done|]. intros v. rewrite Hl. split; [tauto|].
    intros. split; [done|]. apply Z.divide_1_l.
  - left. split; [done|].
    destruct (for_vals_spec eval_fuel min max 1) as (l & -> & Hl);
      [lia|unfold two63; lia|unfold two63; lia|unfold eval_fuel; lia|].
    exists l. split; [done|]. intros v. rewrite Hl. split; [tauto|].
    intros. split; [done|]. apply Z.divide_1_l.
Qed.

(** ** Lemmas: the lexer *)

Lemma parse_int_nonneg fn s n : fn = "Atoi" → forallb is_digit s = true → parse_int fn s = Ret n →
  0 ≤ n < two63.
Proof.
  intros _ Hd. unfold parse_int. destruct s as [|c s]; [done|].
  destruct (ascii_dec c "-") as [->|];
    [by apply (digit_not_sign _ "-") in Hd; [|set_solver]|].
  destruct (ascii_dec c "+") as [->|];
    [by apply (digit_not_sign _ "+") in Hd; [|set_solver]|].
  rewrite Hd. simpl. destruct (Z.leb_spec two63 (digits_val (c :: s))); [done|].
  intros [= <-]. pose proof (digits_val_nonneg (c :: s) Hd). lia.
Qed.

Lemma rune_digit_ascii r :
  rune_is_digit r = true → is_digit (ascii_of_nat (Z.to_nat r)) = true.
Proof.
  unfold rune_is_digit, is_digit, code. intros [? ?]%andb_prop.
  rewrite nat_ascii_embedding, Z2Nat.id by lia. by apply andb_true_intro.
Qed.

Lemma read_numeral_digits fuel lx num num' r lx' :
  forallb is_digit num = true → read_numeral fuel lx num = (num', r, lx') →
  forallb is_digit num' = true.
Proof.
  revert lx num. induction fuel as [|fuel IH]; intros lx num Hn; simpl; [by intros [= <- <- <-]|].
  destruct (nextRune lx) as [r2 lx2]. destruct (rune_is_digit r2) eqn:Hr.
  - apply IH. rewrite forallb_app, Hn. simpl. by rewrite rune_digit_ascii.
  - by intros [= <- <- <-].
Qed.

(** Numbers in the token stream are non-negative and fit in an [int]. *)
Definition token_ok (t : token) : Prop :=
  match t with TInt n => 0 ≤ n < two63 | _ => True end.

#[local] Arguments read_numeral : simpl never.

Lemma Lex_ok fuel lx t lx' : Lex fuel lx = (Tok t, lx') → token_ok t.
Proof.
  revert lx. induction fuel as [|fuel IH]; intros lx; simpl; [done|].
  destruct (nextRune lx) as [r lx1].
  repeat (case_match; simplify_eq/=; try done); intros; simplify_eq/=; try done.
  - match goal with
    | Hr : rune_is_digit r = true, Hn : read_numeral _ _ _ = _, Ha : Atoi _ = Ret _ |- _ =>
       apply (parse_int_nonneg "Atoi" _ _ eq_refl) in Ha; [done|];
       eapply read_numeral_digits; [|exact Hn]; simpl; by rewrite rune_digit_ascii
    end.
  - eauto.
Qed.

Lemma lex_all_ok fuel lx : Forall token_ok (fst (lex_all fuel lx)).
Proof.
  revert lx. induction fuel as [|fuel IH]; intros lx; [constructor|].
  cbn [lex_all]. destruct (Lex (S fuel) lx) as [[t|why] lx'] eqn:Hl; [|constructor].
  specialize (IH lx'). destruct (lex_all fuel lx') as [ts why].
  constructor; [by eapply Lex_ok; exact Hl|done].
Qed.

(** ** Lemmas: whole fields *)

(** The expression a text stands for, if it is in the language. *)
Definition parsed (s : bytes) : option TimeSpecExp :=
  parse_top (fst (lex_all (lex_fuel s) (NewTimeSpecLexer s))).

Definition exp_valid (e : TimeSpecExp) (min max : Z) : Prop :=
  match e with
  | OneValTimeSpecExp val => min ≤ val ≤ max
  | WildcardTimeSpecExp => True
  | SetTimeSpecExp s | RandomTimeSpecExp s => set_valid s min max
  end.

Definition exp_denotes (e : TimeSpecExp) (min max v : Z) : Prop :=
  match e with
  | OneValTimeSpecExp val => v = val
  | WildcardTimeSpecExp => True
  | SetTimeSpecExp s | RandomTimeSpecExp s => set_denotes s min max v
  end.

Definition exp_is_random (e : TimeSpecExp) : bool :=
  match e with RandomTimeSpecExp _ => true | _ => false end.

Lemma for_vals_head fuel v max step l :
  for_vals fuel v max step = Ret l → v ≤ max → v ∈ l.
Proof.
  intros H Hle. destruct fuel as [|fuel]; simpl in H;
    destruct (Z.ltb_spec max v); try done; try lia.
  inv_outcome. set_solver.
Qed.

(** What an evaluated expression can draw from is never empty. *)
Lemma Eval_pickable fuel e fieldName min max ts :
  min ≤ max → Eval_ fuel e fieldName min max = Ret ts →
  (∀ ns, exp_set e = Some (EnumSetExp ns) → ns ≠ []) → pickable ts.
Proof.
  intros Hmm H Hne. destruct e as [val| |s|s]; simpl in *.
  - repeat case_match; simplify_eq. done.
  - by simplify_eq.
  - inv_outcome. done.
  - inv_outcome. intros ->. destruct s as [step|ns|a b|]; cbn [SetExp_Eval] in *.
    + by apply for_vals_head in H; [set_solver|].
    + inv_outcome. destruct ns as [|n ns]; [by eapply Hne|].
      assert (n ∈ normValues (n :: ns)) as Hin by (rewrite normValues_elem; set_solver).
      rewrite H0 in Hin. set_solver.
    + repeat case_match; try done.
      apply for_vals_head in H; [set_solver|]. apply Z.ltb_ge. assumption.
    + by apply for_vals_head in H; [set_solver|].
Qed.

Lemma parsed_enum_nonempty s e ns :
  parsed s = Some e → exp_set e = Some (EnumSetExp ns) → ns ≠ [].
Proof.
  intros Hp%parse_top_spec He.
  destruct Hp as [|ts s' Hd| |ts s' Hd|]; simpl in He; simplify_eq; by inversion Hd.
Qed.

Lemma parseTimeSpec_pickable `{YaccErrors} fuel s fieldName min max ts :
  min ≤ max → parseTimeSpec fuel s fieldName min max = Ret ts → pickable ts.
Proof.
  intros Hmm Hp. unfold parseTimeSpec in Hp. fold (parsed s) in Hp.
  destruct (parsed s) as [e|] eqn:He; [|done].
  eapply Eval_pickable; [done|exact Hp|]. intros ns. by eapply parsed_enum_nonempty.
Qed.

Lemma parse_field_pickable `{YaccErrors} fuel parts i fieldName min max ts :
  min ≤ max → parse_field fuel parts i fieldName min max = Ret ts → pickable ts.
Proof.
  intros Hmm. unfold parse_field. destruct (parts !! i); [|by intros [= <-]].
  by apply parseTimeSpec_pickable.
Qed.

Lemma parsed_bounded s e set_ :
  parsed s = Some e → exp_set e = Some set_ →
  match set_ with StepSetExp n => 0 ≤ n < two63 | _ => True end.
Proof.
  intros Hp He. unfold parsed in Hp.
  pose proof (lex_all_ok (lex_fuel s) (NewTimeSpecLexer s)) as Hok.
  apply parse_top_spec in Hp.
  destruct Hp as [|ts s' Hd| |ts s' Hd|]; simpl in He; simplify_eq; try done;
    destruct Hd; try done.
  - rewrite !Forall_cons in Hok. simpl in Hok. tauto.
  - rewrite !Forall_cons in Hok. simpl in Hok. tauto.
Qed.

Definition zero_step (e : TimeSpecExp) : Prop := exp_set e = Some (StepSetExp 0).

Lemma SetExp_Eval_running e fieldName min max :
  0 ≤ min ≤ 1 → min ≤ max ≤ 59 →
  match e with StepSetExp n => 0 ≤ n < two63 | _ => True end →
  SetExp_Eval eval_fuel e fieldName min max = Running → e = StepSetExp 0.
Proof.
  intros Hmin Hmax Hb. destruct e as [step|ints|a b|].
  - destruct (decide (step = 0)) as [->|]; [done|]. cbn [SetExp_Eval].
    destruct (for_vals_ends min max step) as (l & -> & _); [lia..|done].
  - cbn [SetExp_Eval]. destruct (check_enum_spec fieldName min max ints)
      as [[-> _]|[[err ->] _]]; done.
  - destruct (SetExp_Eval_spec (RangeSetExp a b) fieldName min max)
      as [(_ & vals & -> & _)|[_ [err ->]]]; done.
  - destruct (SetExp_Eval_spec AnySetExp fieldName min max)
      as [(_ & vals & -> & _)|[_ [err ->]]]; done.
Qed.

Lemma parseTimeSpec_running `{YaccErrors} s fieldName min max :
  0 ≤ min ≤ 1 → min ≤ max ≤ 59 →
  parseTimeSpec eval_fuel s fieldName min max = Running →
  ∃ e, parsed s = Some e ∧ zero_step e.
Proof.
  intros Hmin Hmax. unfold parseTimeSpec. fold (parsed s).
  destruct (parsed s) as [e|] eqn:He; [|done]. intros Hr. exists e. split; [done|].
  unfold zero_step. pose proof (parsed_bounded s e) as Hb.
  destruct e as [val| |set_|set_]; simpl in *.
  - repeat case_match; done.
  - done.
  - f_equal. eapply SetExp_Eval_running; [done|done|by apply Hb|].
    destruct (SetExp_Eval _ _ _ _ _) eqn:E; done.
  - f_equal. eapply SetExp_Eval_running; [done|done|by apply Hb|].
    destruct (SetExp_Eval _ _ _ _ _) eqn:E; done.
Qed.

(** ** Lemmas: lexing printed tokens *)

(** The characters the lexer has still to read. *)
Definition pending (lx : yyLex) : bytes :=
  if peek lx =? 0 then expr lx else ascii_of_nat (Z.to_nat (peek lx)) :: expr lx.

Definition lx_ok (lx : yyLex) : Prop :=
  0 ≤ peek lx < 256 ∧ ascii_of_nat 0 ∉ expr lx.

Definition print_token (t : token) : bytes :=
  match t with
  | TComma => ","
  | TDash => "-"
  | TR => "R"
  | TStar => "*"
  | TStarSlash => "*/"
  | TInt n => itoa n
  end.

Definition print_tokens (ts : list token) : bytes := concat (map print_token ts).

(** Token lists whose text cannot be read in another way. *)
Fixpoint readable (ts : list token) : Prop :=
  match ts with
  | [] => True
  | TInt n :: ts =>
     0 ≤ n < two63 ∧ match ts with [] | TComma :: _ | TDash :: _ => True | _ => False end ∧
     readable ts
  | TStar :: ts => ts = []
  | _ :: ts => readable ts
  end.

Lemma code_nonzero c : c ≠ ascii_of_nat 0 → code c ≠ 0.
Proof.
  intros Hc H. apply Hc. rewrite <- (ascii_nat_embedding c). f_equal.
  unfold code in H. lia.
Qed.

Lemma ascii_code c : ascii_of_nat (Z.to_nat (code c)) = c.
Proof. unfold code. rewrite Nat2Z.id. apply ascii_nat_embedding. Qed.

Lemma nextRune_cons lx c s :
  lx_ok lx → pending lx = c :: s →
  ∃ lx', nextRune lx = (code c, lx') ∧ lx_ok lx' ∧ pending lx' = s ∧ peek lx' = 0.
Proof.
  intros [Hp He]. unfold pending, nextRune. destruct (Z.eqb_spec (peek lx) 0) as [H0|H0]; simpl.
  - intros Hs. rewrite Hs in *. exists (mkLex s 0). repeat split; try done.
    simpl. set_solver.
  - intros [= <- <-]. exists (mkLex (expr lx) 0).
    unfold code. rewrite nat_ascii_embedding by lia. rewrite Z2Nat.id by lia. done.
Qed.

Lemma nextRune_nil lx :
  pending lx = [] → ∃ lx', nextRune lx = (0, lx') ∧ pending lx' = [] ∧ peek lx' = 0 ∧ expr lx' = [].
Proof.
  unfold pending, nextRune. destruct (Z.eqb_spec (peek lx) 0) as [H0|H0]; simpl; [|done].
  intros Hs. rewrite Hs. exists lx. by rewrite Hs, H0.
Qed.

Lemma rune_digit_code c : rune_is_digit (code c) = is_digit c.
Proof. done. Qed.

Lemma read_numeral_S fuel lx numeral :
  read_numeral (S fuel) lx numeral =
  let '(r2, lx') := nextRune lx in
  if rune_is_digit r2 then read_numeral fuel lx' (numeral ++ [ascii_of_nat (Z.to_nat r2)])
  else (numeral, r2, lx').
Proof. done. Qed.

(** Reading back the digits of a number: [rest] is what follows them. *)
Lemma read_numeral_spec fuel lx ds rest num :
  lx_ok lx → forallb is_digit ds = true → pending lx = ds ++ rest →
  match rest with [] => True | c :: _ => is_digit c = false end →
  (length ds < fuel)%nat →
  ∃ lx', read_numeral fuel lx num =
    (num ++ ds, match rest with [] => 0 | c :: _ => code c end, lx') ∧
    peek lx' = 0 ∧ expr lx' = tail rest ∧ lx_ok lx'.
Proof.
  revert lx ds num. induction fuel as [|fuel IH]; intros lx ds num Hok Hd Hp Hr Hf; [lia|].
  rewrite read_numeral_S. destruct ds as [|d ds].
  - rewrite app_nil_r. destruct rest as [|c rest].
    + destruct (nextRune_nil lx Hp) as (lx' & -> & Hp' & Hpk & Hex). cbn.
      exists lx'. repeat split; try done; rewrite ?Hpk, ?Hex; [lia|lia|set_solver].
    + destruct (nextRune_cons lx c rest Hok Hp) as (lx' & -> & Hok' & Hp' & Hpk).
      rewrite rune_digit_code, Hr. exists lx'. repeat split; try done; try apply Hok'.
      unfold pending in Hp'. by rewrite Hpk in Hp'.
  - simpl in Hd. apply andb_prop in Hd as [Hd1 Hd2].
    destruct (nextRune_cons lx d (ds ++ rest) Hok Hp) as (lx' & -> & Hok' & Hp' & Hpk).
    rewrite rune_digit_code, Hd1, ascii_code.
    destruct (IH lx' ds (num ++ [d])) as (lx2 & -> & ?); [done..|simpl in Hf; lia|].
    exists lx2. by rewrite <- app_assoc.
Qed.

Lemma is_digit_cases c :
  is_digit c = true →
  (code c =? code ",") = false ∧ (code c =? code "-") = false ∧
  (code c =? code "R") = false ∧ (code c =? code "*") = false.
Proof.
  unfold is_digit. intros [H1%Z.leb_le H2%Z.leb_le]%andb_prop.
  repeat split; apply Z.eqb_neq; intros Heq; rewrite Heq in *; vm_compute in H1, H2; done.
Qed.

Lemma digit_nonnul c : is_digit c = true → c ≠ ascii_of_nat 0.
Proof. intros H ->. done. Qed.

Lemma Lex_int n ts lx fuel :
  lx_ok lx → pending lx = itoa n ++ print_tokens ts → readable (TInt n :: ts) →
  ∃ lx', Lex (S fuel) lx = (Tok (TInt n), lx') ∧ lx_ok lx' ∧ pending lx' = print_tokens ts.
Proof.
  intros Hok Hp (Hn & Hnext & _).
  assert (Hat : Atoi (itoa n) = Ret n) by (apply parse_int_itoa; unfold is_int64, two63 in *; lia).
  assert (Hdig : forallb is_digit (itoa n) = true).
  { unfold itoa. destruct (Z.ltb_spec n 0); [lia|]. by apply digits_spec. }
  assert (Hne : itoa n ≠ []).
  { unfold itoa. destruct (Z.ltb_spec n 0); [lia|]. apply digits_nonempty. }
  destruct (itoa n) as [|d ds] eqn:Hi; [done|].
  simpl in Hdig. apply andb_prop in Hdig as [Hd Hds].
  destruct (nextRune_cons lx d (ds ++ print_tokens ts) Hok Hp) as (lx1 & Hnr & Hok1 & Hp1 & Hpk1).
  assert (He1 : expr lx1 = ds ++ print_tokens ts) by (unfold pending in Hp1; by rewrite Hpk1 in Hp1).
  destruct (read_numeral_spec (S (length (expr lx1))) lx1 ds (print_tokens ts) [d])
    as (lx2 & Hrn & Hpk2 & He2 & Hok2); [done..| | |].
  { destruct ts as [|[] ts]; done. }
  { rewrite He1, length_app. lia. }
  cbn [Lex]. rewrite Hnr. destruct (is_digit_cases d Hd) as (-> & -> & -> & ->).
  rewrite rune_digit_code, Hd, ascii_code, Hrn. cbn [app]. rewrite Hat.
  destruct ts as [|[] ts]; try done; cbn -[code] in *; (eexists; split; [done|]).
  - split; [|done]. split; [simpl; lia|]. rewrite He2. set_solver.
  - split; [|unfold pending; simpl; by rewrite He2].
    split; [apply code_range|]. by destruct Hok2.
  - split; [|unfold pending; simpl; by rewrite He2].
    split; [apply code_range|]. by destruct Hok2.
Qed.

Lemma Lex_token t ts lx fuel :
  lx_ok lx → pending lx = print_token t ++ print_tokens ts → readable (t :: ts) →
  ∃ lx', Lex (S fuel) lx = (Tok t, lx') ∧ lx_ok lx' ∧ pending lx' = print_tokens ts.
Proof.
  intros Hok Hp Hr. destruct t as [| | | | |n]; [..|by apply Lex_int]; simpl in Hp;
    destruct (nextRune_cons lx _ _ Hok Hp) as (lx1 & Hnr & Hok1 & Hp1 & Hpk1);
    cbn [Lex]; rewrite Hnr; cbn -[nextRune].
  1-3: by exists lx1.
  - simpl in Hr. subst ts. destruct (nextRune_nil lx1 Hp1) as (lx2 & -> & Hp2 & Hpk2 & He2).
    cbn. exists (mkLex (expr lx2) 0). split; [done|]. unfold pending, lx_ok.
    cbn. rewrite He2. split; [split; [lia|set_solver]|done].
  - destruct (nextRune_cons lx1 _ _ Hok1 Hp1) as (lx2 & -> & Hok2 & Hp2 & Hpk2).
    cbn. by exists lx2.
Qed.

Lemma readable_tail t ts : readable (t :: ts) → readable ts.
Proof. destruct t; simpl; try done; [by intros ->|tauto]. Qed.

(** Lexing a printed token list gives the list back. *)
Lemma lex_print ts lx fuel :
  lx_ok lx → pending lx = print_tokens ts → readable ts → (length ts < fuel)%nat →
  lex_all fuel lx = (ts, EndOfInput).
Proof.
  revert ts lx. induction fuel as [|fuel IH]; intros ts lx Hok Hp Hr Hf; [lia|].
  cbn [lex_all]. destruct ts as [|t ts].
  - destruct (nextRune_nil lx Hp) as (lx' & Hnr & _). cbn [Lex]. by rewrite Hnr.
  - destruct (Lex_token t ts lx fuel Hok Hp Hr) as (lx' & -> & Hok' & Hp').
    rewrite (IH ts lx'); [done|done|done|by eapply readable_tail|simpl in Hf; lia].
Qed.

Lemma print_tokens_length ts : (length ts ≤ length (print_tokens ts))%nat.
Proof.
  induction ts as [|t ts IH]; [done|]. unfold print_tokens in *. simpl. rewrite length_app.
  enough (0 < length (print_token t))%nat by lia.
  destruct t as [| | | | |n]; simpl; try lia.
  unfold itoa. destruct (n <? 0); simpl; [lia|].
  pose proof (digits_nonempty n). destruct (digits n); [done|simpl; lia].
Qed.

Lemma itoa_no_nul n : ascii_of_nat 0 ∉ itoa n.
Proof. intros [H|H]%itoa_chars; [done|]. by vm_compute in H. Qed.

Lemma print_tokens_no_nul ts : ascii_of_nat 0 ∉ print_tokens ts.
Proof.
  induction ts as [|t ts IH]; [set_solver|]. unfold print_tokens in *. simpl.
  rewrite elem_of_app. intros [Hin|Hin]; [|done].
  destruct t as [| | | | |n]; [..|by apply itoa_no_nul in Hin]; vm_compute in Hin;
    repeat (apply elem_of_cons in Hin as [Hin|Hin]; [done|]); by apply elem_of_nil in Hin.
Qed.

Lemma parsed_print ts : readable ts → parsed (print_tokens ts) = parse_top ts.
Proof.
  intros Hr. unfold parsed. rewrite (lex_print ts); [done|..|done|].
  - split; [simpl; lia|]. apply print_tokens_no_nul.
  - done.
  - unfold lex_fuel. pose proof (print_tokens_length ts). lia.
Qed.

(** ** Lemmas: printing an evaluated specification *)

(** The tokens of the text a fixed (not random) expression prints as. *)
Definition tail_tokens (ns : list Z) : list token := flat_map (λ n, [TComma; TInt n]) ns.

Definition exp_tokens (e : TimeSpecExp) : list token :=
  match e with
  | OneValTimeSpecExp val => [TInt val]
  | WildcardTimeSpecExp => [TStar]
  | SetTimeSpecExp (StepSetExp n) => [TStarSlash; TInt n]
  | SetTimeSpecExp (EnumSetExp ns) =>
     match normValues ns with [] => [] | n :: ns => TInt n :: tail_tokens ns end
  | SetTimeSpecExp (RangeSetExp a b) => [TInt a; TDash; TInt b]
  | _ => []
  end.

Definition nat64 (n : Z) : Prop := 0 ≤ n < two63.

Lemma Join_itoa n ns :
  Join (map itoa (n :: ns)) "," = print_tokens (TInt n :: tail_tokens ns).
Proof.
  revert n. induction ns as [|m ns IH]; intros n.
  - unfold print_tokens. simpl. by rewrite app_nil_r.
  - change (Join (map itoa (n :: m :: ns)) ",")
      with (itoa n ++ "," ++ Join (map itoa (m :: ns)) ",").
    by rewrite IH.
Qed.

Lemma tail_tokens_readable ns : Forall nat64 ns → readable (tail_tokens ns).
Proof.
  induction ns as [|n ns IH]; intros Hns; [done|].
  apply Forall_cons in Hns as [Hn Hns]. simpl. repeat split; try apply Hn.
  - by destruct ns.
  - by apply IH.
Qed.

Lemma parse_tail_tokens n ns : parse_enum_tail (tail_tokens (n :: ns)) = Some (n :: ns).
Proof.
  revert n. induction ns as [|m ns IH]; intros n; [done|].
  change (tail_tokens (n :: m :: ns)) with (TComma :: TInt n :: tail_tokens (m :: ns)).
  rewrite parse_enum_tail_cons by done. by rewrite IH.
Qed.

(** Reading back the text of a list of numbers: one number is a single value,
    several are an enumeration. *)
Lemma parsed_numbers n ns :
  Forall nat64 (n :: ns) →
  parsed (Join (map itoa (n :: ns)) ",") =
  Some match ns with [] => OneValTimeSpecExp n | _ => SetTimeSpecExp (EnumSetExp (n :: ns)) end.
Proof.
  intros Hns. rewrite Join_itoa, parsed_print.
  - destruct ns as [|m ns]; [done|]. unfold parse_top. simpl tail_tokens.
    change (parse_set_exp _) with
      (ns' ← parse_enum_tail (tail_tokens (m :: ns)); Some (EnumSetExp (n :: ns'))).
    by rewrite parse_tail_tokens.
  - apply Forall_cons in Hns as [Hn Hns]. simpl. split; [done|].
    split; [by destruct ns|by apply tail_tokens_readable].
Qed.

Lemma parsed_enum_range s e ns :
  parsed s = Some e → exp_set e = Some (EnumSetExp ns) → Forall nat64 ns.
Proof.
  intros Hp He. unfold parsed in Hp.
  pose proof (lex_all_ok (lex_fuel s) (NewTimeSpecLexer s)) as Hok.
  apply parse_top_spec in Hp.
  assert (Ht : ∀ ts ns, derives_tail ts ns → Forall token_ok ts → Forall nat64 ns).
  { induction 1 as [|n ts' ns' _ IH]; rewrite !Forall_cons; [|tauto].
    intros (_ & ? & _). by split; [|constructor]. }
  assert (Hs : ∀ ts, derives_set ts (EnumSetExp ns) → Forall token_ok ts → Forall nat64 ns).
  { intros ts Hd. inversion Hd; subst. rewrite !Forall_cons. intros [? ?]. eauto. }
  destruct Hp as [|ts s' Hd| |ts s' Hd|]; simpl in He; simplify_eq.
  - by eapply Hs.
  - apply Forall_cons in Hok as [_ Hok]. by eapply Hs.
Qed.

Lemma parsed_int_range s n : parsed s = Some (OneValTimeSpecExp n) → nat64 n.
Proof.
  intros Hp. unfold parsed in Hp.
  pose proof (lex_all_ok (lex_fuel s) (NewTimeSpecLexer s)) as Hok.
  apply parse_top_spec in Hp. revert Hok Hp. generalize (fst (lex_all (lex_fuel s) (NewTimeSpecLexer s))).
  intros ts Hok Hp. inversion Hp; subst. rewrite Forall_singleton in Hok. exact Hok.
Qed.

Lemma parsed_range_range s a b :
  parsed s = Some (SetTimeSpecExp (RangeSetExp a b)) → nat64 a ∧ nat64 b.
Proof.
  intros Hp. unfold parsed in Hp.
  pose proof (lex_all_ok (lex_fuel s) (NewTimeSpecLexer s)) as Hok.
  apply parse_top_spec in Hp. revert Hok Hp. generalize (fst (lex_all (lex_fuel s) (NewTimeSpecLexer s))).
  intros ts Hok Hp. inversion Hp as [|ts' e Hd| | |]; subst. inversion Hd; subst.
  rewrite !Forall_cons in Hok. split; apply Hok.
Qed.

(** ** Theorems *)

(** C26: The parser accepts exactly the sentences of the grammar, with the
    expression their derivation builds. *)
Theorem parse_top_grammar ts e : parse_top ts = Some e ↔ derives ts e.
Proof. apply parse_top_spec. Qed.



Lemma parsed_fully_pickable `{YaccErrors} fuel s spec :
  ParseFullTimeSpec fuel s = Ret spec → fully_pickable spec.
Proof.
  intros Hp. unfold ParseFullTimeSpec in Hp.
  apply bind_Ret in Hp as (sec & H1 & Hp). apply bind_Ret in Hp as (min & H2 & Hp).
  apply bind_Ret in Hp as (hour & H3 & Hp). apply bind_Ret in Hp as (mday & H4 & Hp).
  apply bind_Ret in Hp as (mon & H5 & Hp). apply bind_Ret in Hp as (wday & H6 & Hp).
  case_bool_decide; [done|]. injection Hp as <-.
  apply parse_field_pickable in H1, H2, H3, H4, H5, H6; [|lia..].
  repeat split; done.
Qed.

(** A schedule that parses can be derandomized, and from then on asking
    whether it is satisfied never panics, at any instant and in any location. *)
Theorem parsed_schedule_never_panics `{YaccErrors, R : Rand, !RandOk R, Location} fuel s spec r :
  ParseFullTimeSpec fuel s = Ret spec →
  ∃ spec' r', FullDerandomize spec r = (Ret spec', r') ∧
              ∀ t, ∃ b, FullSatisfied spec' t = Ret b ∧ (b = true ↔ scheduled spec' t).
Proof.
  intros Hp. destruct (FullDerandomize_spec spec r) as (s' & r' & E & D & _).
  { by eapply parsed_fully_pickable. }
  exists s', r'. split; [done|]. intros t. by apply FullSatisfied_spec.
Qed.

Lemma parsed_schedule_never_panics_witness :
  ParseFullTimeSpec eval_fuel "0 R */6" =
    Ret (mkFullTimeSpec (OneValTimeSpec 0) (RandomTimeSpec "R" (seqZ 0 60) None)
          (SetTimeSpec "*/6" [0; 6; 12; 18]) WildcardTimeSpec WildcardTimeSpec WildcardTimeSpec) ∧
  ∃ spec' r', FullDerandomize (H:=first_rand)
    (mkFullTimeSpec (OneValTimeSpec 0) (RandomTimeSpec "R" (seqZ 0 60) None)
      (SetTimeSpec "*/6" [0; 6; 12; 18]) WildcardTimeSpec WildcardTimeSpec WildcardTimeSpec) tt =
    (Ret spec', r').
Proof.
  assert (E : ParseFullTimeSpec eval_fuel "0 R */6" =
    Ret (mkFullTimeSpec (OneValTimeSpec 0) (RandomTimeSpec "R" (seqZ 0 60) None)
          (SetTimeSpec "*/6" [0; 6; 12; 18]) WildcardTimeSpec WildcardTimeSpec WildcardTimeSpec))
    by reflexivity.
  split; [exact E|].
  destruct (parsed_schedule_never_panics (R:=first_rand) (RandOk0:=first_rand_ok) (H0:=UTC) _ _ _ tt E) as (s' & r' & F & _).
  exists s', r'. exact F.
Defined.

(** [ParseFullTimeSpec] returns on every text none of whose fields is a
    set with step 0 ([*/0] or [R*/0]): [eval_fuel] iterations are enough. *)
Theorem ParseFullTimeSpec_terminates `{YaccErrors} s :
  (∀ part e, part ∈ Fields s → parsed part = Some e → ¬ zero_step e) →
  ParseFullTimeSpec eval_fuel s ≠ Running.
Proof.
  intros Hz.
  assert (Hf : ∀ i f min max, 0 ≤ min ≤ 1 → min ≤ max ≤ 59 →
    parse_field eval_fuel (Fields s) i f min max ≠ Running).
  { intros i f min max Hmin Hmax. unfold parse_field.
    destruct (Fields s !! i) as [part|] eqn:Hi; [|done]. intros Hr.
    apply parseTimeSpec_running in Hr as (e & He & Hzs); [|done..].
    apply (Hz part e); [|done..]. by eapply list_elem_of_lookup_2. }
  unfold ParseFullTimeSpec.
  repeat match goal with
  | |- context [parse_field eval_fuel (Fields s) ?i ?f ?lo ?hi ≫= _] =>
     specialize (Hf i f lo hi) as Hi;
     destruct (parse_field eval_fuel (Fields s) i f lo hi); simpl;
     [clear Hi|done|done|exfalso; apply Hi; [lia|lia|done]]
  end.
  by case_bool_decide.
Qed.

Lemma ParseFullTimeSpec_terminates_witness :
  (∀ part e, part ∈ Fields "*/9223372036854775807 *" → parsed part = Some e → ¬ zero_step e) ∧
  ParseFullTimeSpec eval_fuel "*/9223372036854775807 *" ≠ Running.
Proof.
  assert (Z : ∀ part e, part ∈ Fields "*/9223372036854775807 *" →
    parsed part = Some e → ¬ zero_step e).
  { intros part e Hin Hp Hz. change (Fields _) with ["*/9223372036854775807"; "*"] in Hin.
    apply elem_of_cons in Hin as [->|[->|[]%elem_of_nil]%elem_of_cons];
      vm_compute in Hp; injection Hp as <-; discriminate Hz. }
  split; [exact Z|]. exact (ParseFullTimeSpec_terminates _ Z).
Defined.

(** A step of 0 is not rejected: whatever fuel it is given, evaluating
    [*/0] is still appending values. *)
Theorem zero_step_diverges `{YaccErrors} fuel : ParseFullTimeSpec fuel "*/0" = Running.
Proof.
  assert (Hp : parsed "*/0" = Some (SetTimeSpecExp (StepSetExp 0))) by reflexivity.
  assert (Hs : parse_field fuel ["*/0"] 0 "sec" 0 59 = Running).
  { unfold parse_field. cbn [lookup list_lookup]. unfold parseTimeSpec.
    fold (parsed "*/0"). rewrite Hp. cbn [Eval_ SetExp_Eval].
    rewrite for_vals_zero; [done|unfold is_int64, two63; lia|lia]. }
  unfold ParseFullTimeSpec. change (Fields "*/0") with ["*/0"]. by rewrite Hs.
Qed.

(** What follows a character the lexer does not know is never looked at,
    and the error message set for it is dropped: ["*!"] followed by anything is
    accepted as a wildcard. *)
Theorem junk_after_wildcard_accepted `{YaccErrors} fuel fieldName min max junk :
  parseTimeSpec fuel ("*!" ++ junk) fieldName min max = Ret WildcardTimeSpec.
Proof.
  unfold parseTimeSpec, NewTimeSpecLexer. simpl lex_fuel.
  cbn -[code]. by change (code "!" =? 0) with false.
Qed.

(** An enumeration in range, printed, parses to what allows the same values. *)
Lemma enum_printed fieldName min max ns :
  ns ≠ [] → Forall nat64 ns → Forall (λ v, min ≤ v ≤ max) ns →
  ∃ e ts', parsed (Join (map itoa (normValues ns)) ",") = Some e ∧
    Eval_ eval_fuel e fieldName min max = Ret ts' ∧
    (∀ v, allows ts' v ↔ v ∈ normValues ns) ∧ IsWildcard ts' = false.
Proof.
  intros Hnz Hrange Hall. pose proof (normValues_elem ns) as Hel.
  assert (Hall' : Forall (λ v, min ≤ v ≤ max) (normValues ns)).
  { rewrite Forall_forall in *. intros x Hx. apply Hall, Hel, Hx. }
  assert (Hrange' : Forall nat64 (normValues ns)).
  { rewrite Forall_forall in *. intros x Hx. apply Hrange, Hel, Hx. }
  destruct (normValues ns) as [|m ms] eqn:En.
  { destruct ns as [|x ns]; [done|]. specialize (Hel x). set_solver. }
  rewrite (parsed_numbers m ms) by done. destruct ms as [|m2 ms].
  - eexists _, _. split; [done|]. cbn [Eval_]. apply Forall_cons in Hall' as [Hm _].
    destruct (Z.ltb_spec m min); [lia|]. destruct (Z.ltb_spec max m); [lia|].
    split; [done|]. split; [|done]. intros v. simpl. set_solver.
  - eexists _, _. split; [done|]. cbn [Eval_ SetExp_Eval].
    destruct (check_enum_spec fieldName min max (m :: m2 :: ms)) as [[-> _]|[_ Hc']]; [|done].
    cbn. split; [done|]. split; [|done]. intros v. cbn. by rewrite (normValues_elem (m :: m2 :: ms)).
Qed.


