(* ===== verification/Encoding.v ===== *)
(** * Output as text ([jobfile/safe_bytes_to_str.go])

    A job's output may be any bytes; what leaves the program as JSON or mail has
    to be text.  [SafeBytesToStr] keeps valid UTF-8 and turns anything else into
    base64 ([unicode/utf8] and [encoding/base64] of the standard library). *)

From S2P Require Import Prelude GoStrings.

Open Scope Z_scope.
Open Scope bytes_scope.
Open Scope list_scope.

(** ** [utf8.Valid] *)

Definition between (lo hi : Z) (c : ascii) : bool := (lo <=? code c) && (code c <=? hi).

(** The number of continuation bytes an encoding starting with [c] has, and the
    range its first continuation byte must lie in. *)
Definition utf8_lead (c : ascii) : option (nat * Z * Z) :=
  if between 0 127 c then Some (0%nat, 128, 191)
  else if between 194 223 c then Some (1%nat, 128, 191)
  else if between 224 224 c then Some (2%nat, 160, 191)
  else if between 225 236 c then Some (2%nat, 128, 191)
  else if between 237 237 c then Some (2%nat, 128, 159)
  else if between 238 239 c then Some (2%nat, 128, 191)
  else if between 240 240 c then Some (3%nat, 144, 191)
  else if between 241 243 c then Some (3%nat, 128, 191)
  else if between 244 244 c then Some (3%nat, 128, 143)
  else None.

(** [need] continuation bytes are still to come, the next one in [[lo, hi]]. *)
Fixpoint utf8_valid_from (need : nat) (lo hi : Z) (s : bytes) : bool :=
  match s, need with
  | [], O => true
  | [], S _ => false
  | c :: s, S need => between lo hi c && utf8_valid_from need 128 191 s
  | c :: s, O =>
     match utf8_lead c with
     | Some (n, lo, hi) => utf8_valid_from n lo hi s
     | None => false
     end
  end.

Definition utf8_Valid (s : bytes) : bool := utf8_valid_from 0 128 191 s.

(** ** [base64.StdEncoding.EncodeToString] *)

Definition base64_char (v : Z) : ascii :=
  ascii_of_nat (Z.to_nat
    (if v <? 26 then 65 + v
     else if v <? 52 then 71 + v
     else if v <? 62 then v - 4
     else if v =? 62 then 43 else 47)).

Definition base64_pad : ascii := "="%char.

Definition base64_group (a b c : Z) : bytes :=
  [base64_char (Z.shiftr a 2);
   base64_char (Z.lor (Z.shiftl (Z.land a 3) 4) (Z.shiftr b 4));
   base64_char (Z.lor (Z.shiftl (Z.land b 15) 2) (Z.shiftr c 6));
   base64_char (Z.land c 63)].

Fixpoint EncodeToString (s : bytes) : bytes :=
  match s with
  | a :: b :: c :: s => base64_group (code a) (code b) (code c) ++ EncodeToString s
  | [a; b] => take 3 (base64_group (code a) (code b) 0) ++ [base64_pad]
  | [a] => take 2 (base64_group (code a) 0 0) ++ [base64_pad; base64_pad]
  | [] => []
  end.

Definition SafeBytesToStr (output : bytes) : bytes * bool :=
  if utf8_Valid output then (output, false) else (EncodeToString output, true).

(** ** What a reader of the text does *)

Definition base64_value (c : ascii) : Z :=
  let n := code c in
  if (65 <=? n) && (n <=? 90) then n - 65
  else if (97 <=? n) && (n <=? 122) then n - 71
  else if (48 <=? n) && (n <=? 57) then n + 4
  else if n =? 43 then 62 else 63.

Definition byte_of (v : Z) : ascii := ascii_of_nat (Z.to_nat v).

Fixpoint base64_decode (s : bytes) : bytes :=
  match s with
  | w :: x :: y :: z :: s =>
     let a := byte_of (base64_value w * 4 + base64_value x / 16) in
     let b := byte_of (base64_value x mod 16 * 16 + base64_value y / 4) in
     let c := byte_of (base64_value y mod 4 * 64 + base64_value z) in
     if bool_decide (y = base64_pad) then [a]
     else if bool_decide (z = base64_pad) then [a; b]
     else a :: b :: c :: base64_decode s
  | _ => []
  end.

Definition read_text (text : bytes * bool) : bytes :=
  if text.2 then base64_decode text.1 else text.1.

(** ** Lemmas *)

Lemma forall_upto (n : nat) (P : Z → bool) :
  forallb P (map Z.of_nat (List.seq 0 n)) = true → ∀ v, 0 ≤ v < Z.of_nat n → P v = true.
Proof.
  intros HP v Hv. rewrite forallb_forall in HP. apply HP.
  apply in_map_iff. exists (Z.to_nat v). rewrite in_seq. lia.
Qed.

Lemma base64_value_char v : 0 ≤ v < 64 → base64_value (base64_char v) = v.
Proof.
  intros Hv. apply Z.eqb_eq.
  by apply (forall_upto 64 (λ v, base64_value (base64_char v) =? v)).
Qed.

Lemma base64_char_not_pad v : 0 ≤ v < 64 → base64_char v ≠ base64_pad.
Proof.
  intros Hv. pose proof (forall_upto 64 (λ v, negb (bool_decide (base64_char v = base64_pad)))
    eq_refl v Hv) as H. simpl in H. by apply negb_true_iff, bool_decide_eq_false in H.
Qed.

Lemma byte_of_code c : byte_of (code c) = c.
Proof. unfold byte_of, code. rewrite Nat2Z.id. apply ascii_nat_embedding. Qed.

(** A group in terms of quotients and remainders. *)
Lemma lor_halves k n m :
  forallb (λ x, forallb (λ y, Z.lor (Z.shiftl x k) y =? x * 2 ^ k + y)
                        (map Z.of_nat (List.seq 0 m)))
          (map Z.of_nat (List.seq 0 n)) = true →
  ∀ x y, 0 ≤ x < Z.of_nat n → 0 ≤ y < Z.of_nat m → Z.lor (Z.shiftl x k) y = x * 2 ^ k + y.
Proof.
  intros H x y Hx Hy. apply Z.eqb_eq.
  apply (forall_upto m (λ y, Z.lor (Z.shiftl x k) y =? x * 2 ^ k + y)); [|done].
  by apply (forall_upto n (λ x, forallb (λ y, Z.lor (Z.shiftl x k) y =? x * 2 ^ k + y)
                        (map Z.of_nat (List.seq 0 m)))).
Qed.

Lemma base64_group_eq a b c :
  0 ≤ a < 256 → 0 ≤ b < 256 → 0 ≤ c < 256 →
  base64_group a b c =
  [base64_char (a / 4); base64_char (a mod 4 * 16 + b / 16);
   base64_char (b mod 16 * 4 + c / 64); base64_char (c mod 64)].
Proof.
  intros Ha Hb Hc. unfold base64_group.
  change 3 with (Z.ones 2). change 15 with (Z.ones 4). change 63 with (Z.ones 6).
  rewrite !Z.land_ones, !Z.shiftr_div_pow2 by lia.
  change (2 ^ 2) with 4. change (2 ^ 4) with 16. change (2 ^ 6) with 64.
  rewrite (lor_halves 4 4 16 eq_refl), (lor_halves 2 16 4 eq_refl) by divlia. done.
Qed.

Lemma byte_group_1 a b : 0 ≤ a < 256 → 0 ≤ b < 256 →
  a / 4 * 4 + (a mod 4 * 16 + b / 16) / 16 = a.
Proof. intros. divlia. Qed.

Lemma byte_group_2 a b c : 0 ≤ a < 256 → 0 ≤ b < 256 → 0 ≤ c < 256 →
  (a mod 4 * 16 + b / 16) mod 16 * 16 + (b mod 16 * 4 + c / 64) / 4 = b.
Proof. intros. divlia. Qed.

Lemma byte_group_3 b c : 0 ≤ b < 256 → 0 ≤ c < 256 →
  (b mod 16 * 4 + c / 64) mod 4 * 64 + c mod 64 = c.
Proof. intros. divlia. Qed.

Lemma base64_decode_encode s : base64_decode (EncodeToString s) = s.
Proof.
  revert s. fix IH 1. intros [|a [|b [|c s]]].
  - done.
  - pose proof (code_range a). cbn [EncodeToString]. rewrite base64_group_eq by lia.
    cbn [take app base64_decode].
    rewrite !base64_value_char by divlia. rewrite bool_decide_true by done.
    rewrite byte_group_1 by lia. by rewrite byte_of_code.
  - pose proof (code_range a). pose proof (code_range b).
    cbn [EncodeToString]. rewrite base64_group_eq by lia. cbn [take app base64_decode].
    rewrite !base64_value_char by divlia.
    rewrite bool_decide_false by (apply base64_char_not_pad; divlia).
    rewrite bool_decide_true by done.
    rewrite byte_group_1, byte_group_2 by lia. by rewrite !byte_of_code.
  - pose proof (code_range a). pose proof (code_range b). pose proof (code_range c).
    cbn [EncodeToString]. rewrite base64_group_eq by lia. cbn [app base64_decode].
    rewrite !base64_value_char by divlia.
    rewrite !bool_decide_false by (apply base64_char_not_pad; divlia).
    rewrite byte_group_1, byte_group_2, byte_group_3 by lia. by rewrite !byte_of_code, IH.
Qed.

Lemma base64_char_ascii v : 0 ≤ v < 64 → code (base64_char v) < 128.
Proof.
  intros Hv. apply Z.ltb_lt. by apply (forall_upto 64 (λ v, code (base64_char v) <? 128)).
Qed.

Lemma utf8_ascii s : Forall (λ c, code c < 128) s → utf8_Valid s = true.
Proof.
  unfold utf8_Valid. induction 1 as [|c s Hc Hs IH]; [done|].
  cbn [utf8_valid_from]. unfold utf8_lead, between. pose proof (code_range c).
  rewrite (proj2 (Z.leb_le 0 (code c))), (proj2 (Z.leb_le (code c) 127)) by lia. exact IH.
Qed.

Lemma EncodeToString_ascii s : Forall (λ c, code c < 128) (EncodeToString s).
Proof.
  assert (Hp : code base64_pad < 128) by done.
  revert s. fix IH 1. intros [|a [|b [|c s]]]; cbn [EncodeToString].
  - constructor.
  - pose proof (code_range a). rewrite base64_group_eq by lia.
    repeat constructor; try done; apply base64_char_ascii; divlia.
  - pose proof (code_range a). pose proof (code_range b). rewrite base64_group_eq by lia.
    repeat constructor; try done; apply base64_char_ascii; divlia.
  - pose proof (code_range a). pose proof (code_range b). pose proof (code_range c).
    rewrite base64_group_eq by lia. apply Forall_app. split; [|apply IH].
    repeat constructor; apply base64_char_ascii; divlia.
Qed.

(** What [SafeBytesToStr] returns is always valid UTF-8, and a reader who
    takes the base64 flag into account gets exactly the output back. *)
Theorem SafeBytesToStr_roundtrip output :
  utf8_Valid (SafeBytesToStr output).1 = true ∧ read_text (SafeBytesToStr output) = output.
Proof.
  unfold SafeBytesToStr, read_text. destruct (utf8_Valid output) eqn:Hv; simpl.
  - done.
  - split; [apply utf8_ascii, EncodeToString_ascii|apply base64_decode_encode].
Qed.

(** Text ("h" and "é" in UTF-8) is kept; a stray continuation byte is not. *)
Example SafeBytesToStr_examples :
  SafeBytesToStr ["h"%char; byte_of 195; byte_of 169] =
    (["h"%char; byte_of 195; byte_of 169], false) ∧
  SafeBytesToStr [byte_of 169; "h"%char; "i"%char] = ("qWhp", true).
Proof. split; reflexivity. Qed.
