(* ===== verification/Json.v ===== *)
(** * JSON as [encoding/json] writes it, for the values the program marshals

    A [map[string]interface{}] is written with its keys in byte order, strings
    are quoted with Go's escapes: control characters, quotes and backslashes, the
    separators U+2028 and U+2029, a replacement for every byte that is not part of
    valid UTF-8, and, with HTML escaping on, the characters [<], [>] and [&].
    The library lemma: a marshalled value holds no newline. *)

From S2P Require Import Prelude GoStrings Encoding.

Open Scope Z_scope.
Open Scope bytes_scope.
Open Scope list_scope.

Inductive json :=
| JNull
| JBool (b : bool)
| JInt (n : Z)
| JString (s : bytes)
| JObject (fields : list (bytes * json)).

(** The number of bytes of the UTF-8 character [s] starts with, 0 if it starts
    with none. *)
Definition rune_len (s : bytes) : nat :=
  match s with
  | [] => 0
  | c :: _ =>
     if code c <? 128 then 1
     else
       match utf8_lead c with
       | Some (need, lo, hi) =>
          if utf8_Valid (take (S need) s) && bool_decide (S need ≤ length s)%nat
          then S need else 0
       | None => 0
       end
  end.

Definition hex_digit (d : Z) : ascii :=
  ascii_of_nat (Z.to_nat (if d <? 10 then 48 + d else 87 + d)).

(** [\u00xx] *)
Definition unicode_escape (c : Z) : bytes :=
  "\u00" ++ [hex_digit (c / 16); hex_digit (c mod 16)].

Definition html_special (c : ascii) : bool :=
  bool_decide (c = "<"%char ∨ c = ">"%char ∨ c = "&"%char).

Definition quote_ascii (escapeHTML : bool) (c : ascii) : bytes :=
  if bool_decide (c = ascii_of_nat 34 ∨ c = "\"%char) then ["\"%char; c]
  else if bool_decide (c = newline) then "\n"
  else if bool_decide (c = ascii_of_nat 13) then "\r"
  else if bool_decide (c = tab) then "\t"
  else if (code c <? 32) || (escapeHTML && html_special c) then unicode_escape (code c)
  else [c].

(** U+2028 and U+2029: their UTF-8 is [E2 80 A8] and [E2 80 A9]. *)
Definition line_separator (s : bytes) : option bytes :=
  match map code (take 3 s) with
  | [226; 128; 168] => Some "\u2028"
  | [226; 128; 169] => Some "\u2029"
  | _ => None
  end.

(** [skip] bytes of the current character are left: [keep] says whether they are
    copied. *)
Fixpoint quote_go (escapeHTML : bool) (skip : nat) (keep : bool) (s : bytes) : bytes :=
  match s with
  | [] => []
  | c :: rest =>
     match skip with
     | S skip => (if keep then [c] else []) ++ quote_go escapeHTML skip keep rest
     | O =>
        if code c <? 128 then quote_ascii escapeHTML c ++ quote_go escapeHTML 0 true rest
        else
          match rune_len s, line_separator s with
          | O, _ => "\ufffd" ++ quote_go escapeHTML 0 true rest
          | S n, Some sep => sep ++ quote_go escapeHTML n false rest
          | S n, None => [c] ++ quote_go escapeHTML n true rest
          end
     end
  end.

Definition quote (escapeHTML : bool) (s : bytes) : bytes :=
  dquote (quote_go escapeHTML 0 true s).

(** Go's order on strings. *)
Fixpoint bytes_leb (a b : bytes) : bool :=
  match a, b with
  | [], _ => true
  | _ :: _, [] => false
  | x :: a, y :: b => (code x <? code y) || ((code x =? code y) && bytes_leb a b)
  end.

Definition key_le (a b : bytes * bytes) : Prop := bytes_leb a.1 b.1 = true.
#[export] Instance key_le_dec : RelDecision key_le.
Proof. intros a b. unfold key_le. apply _. Defined.

Fixpoint Marshal (escapeHTML : bool) (j : json) : bytes :=
  match j with
  | JNull => "null"
  | JBool b => if b then "true" else "false"
  | JInt n => itoa n
  | JString s => quote escapeHTML s
  | JObject fields =>
     let members :=
       merge_sort key_le
         ((fix go (l : list (bytes * json)) : list (bytes * bytes) :=
             match l with
             | [] => []
             | (k, v) :: l => (k, quote escapeHTML k ++ ":" ++ Marshal escapeHTML v) :: go l
             end) fields) in
     "{" ++ Join (map snd members) "," ++ "}"
  end.

(** [json.NewEncoder(&buf)] with [SetEscapeHTML(false)], then [Encode]. *)
Definition Encode (j : json) : bytes := Marshal false j ++ [newline].

Example Marshal_ex :
  Marshal false (JObject [("b", JInt 3); ("a", JObject [("x<", JString ("q" ++ [newline]))])]%bytes) =
  "{" ++ dquote "a" ++ ":{" ++ dquote "x<" ++ ":" ++ dquote "q\n" ++ "}," ++
  dquote "b" ++ ":3}".
Proof. vm_compute. reflexivity. Qed.

(** ** No newline in a marshalled value *)

Definition no_newline (s : bytes) : Prop := newline ∉ s.

Lemma no_newline_app s t : no_newline s → no_newline t → no_newline (s ++ t).
Proof. unfold no_newline. rewrite elem_of_app. tauto. Qed.

Lemma no_newline_nil : no_newline [].
Proof. apply not_elem_of_nil. Qed.

Lemma no_newline_forallb s :
  forallb (λ c, bool_decide (c ≠ newline)) s = true → no_newline s.
Proof.
  intros H Hin. apply list_elem_of_In in Hin. rewrite forallb_forall in H.
  specialize (H _ Hin). by apply bool_decide_eq_true in H.
Qed.

Lemma no_newline_one c : c ≠ newline → no_newline [c].
Proof. intros H E%list_elem_of_singleton. congruence. Qed.

(** Closes [no_newline] of texts built from literals and parts known to have none. *)
Ltac no_newlines :=
  repeat (apply no_newline_app || apply no_newline_nil);
  try solve [assumption | apply no_newline_forallb; vm_compute; reflexivity].

Lemma high_not_newline c : (code c <? 128) = false → c ≠ newline.
Proof. intros H E. by subst c. Qed.

Lemma hex_not_newline d : 0 ≤ d < 16 → hex_digit d ≠ newline.
Proof.
  intros H E. unfold hex_digit, newline in E. apply (f_equal nat_of_ascii) in E.
  destruct (d <? 10); rewrite !nat_ascii_embedding in E; lia.
Qed.

Lemma quote_ascii_no_newline h c : no_newline (quote_ascii h c).
Proof.
  pose proof (code_range c) as Hr. unfold quote_ascii.
  case_bool_decide as H1.
  { apply (no_newline_app ["\"%char] [c]); [no_newlines|].
    apply no_newline_one. destruct H1 as [->| ->]; done. }
  case_bool_decide as Hn; [no_newlines|]. do 2 (case_bool_decide; [no_newlines|]).
  case_match; [|by apply no_newline_one].
  apply (no_newline_app "\u00"); [no_newlines|].
  apply (no_newline_app [_] [_]); apply no_newline_one, hex_not_newline; divlia.
Qed.

(** The continuation bytes of a character are not ASCII. *)
Lemma utf8_tail_high n lo hi t :
  128 ≤ lo → (length t ≤ n)%nat → utf8_valid_from n lo hi t = true →
  Forall (λ c, c ≠ newline) t.
Proof.
  revert lo hi n. induction t as [|c t IH]; intros lo hi n Hlo Hlen Hv; [constructor|].
  destruct n as [|n]; simpl in *; [lia|]. apply andb_true_iff in Hv as [Hc Hv].
  constructor; [|by apply (IH 128 191 n); [lia|lia|]].
  apply high_not_newline. unfold between in Hc. apply andb_true_iff in Hc as [Hc _].
  apply Z.leb_le in Hc. apply Z.ltb_ge. lia.
Qed.

Lemma utf8_lead_low c need lo hi : utf8_lead c = Some (need, lo, hi) → 128 ≤ lo.
Proof. unfold utf8_lead. repeat case_match; intros; simplify_eq; lia. Qed.

Lemma rune_len_high c rest n :
  (code c <? 128) = false → rune_len (c :: rest) = S n → Forall (λ c, c ≠ newline) (take n rest).
Proof.
  intros Hc. unfold rune_len. rewrite Hc.
  destruct (utf8_lead c) as [[[need lo] hi]|] eqn:Hl; [|done].
  destruct (utf8_Valid (take (S need) (c :: rest))) eqn:Hv; [|done].
  case_bool_decide; simpl; [|done]. intros [= <-].
  unfold utf8_Valid in Hv. simpl in Hv. rewrite Hl in Hv.
  eapply utf8_tail_high; [by eapply utf8_lead_low| |exact Hv]. rewrite length_take. lia.
Qed.

Lemma line_separator_no_newline s sep : line_separator s = Some sep → no_newline sep.
Proof. unfold line_separator. repeat case_match; intros; simplify_eq; no_newlines. Qed.

Lemma quote_go_no_newline h skip keep s :
  Forall (λ c, c ≠ newline) (take skip s) → no_newline (quote_go h skip keep s).
Proof.
  revert skip keep. induction s as [|c rest IH]; intros skip keep Hs; [no_newlines|].
  cbn [quote_go]. destruct skip as [|skip].
  - destruct (code c <? 128) eqn:Hc.
    { apply no_newline_app; [apply quote_ascii_no_newline|]. apply IH. constructor. }
    destruct (rune_len (c :: rest)) as [|n] eqn:Hn.
    { apply no_newline_app; [no_newlines|]. apply IH. constructor. }
    apply rune_len_high in Hn; [|done].
    destruct (line_separator (c :: rest)) as [sep|] eqn:Hsep;
      apply no_newline_app; try (by apply IH).
    + by eapply line_separator_no_newline.
    + by apply no_newline_one, high_not_newline.
  - simpl in Hs. apply Forall_cons in Hs as [Hc Hs].
    apply no_newline_app; [|by apply IH]. destruct keep; [by apply no_newline_one|no_newlines].
Qed.

Lemma quote_no_newline h s : no_newline (quote h s).
Proof.
  unfold quote, dquote. apply no_newline_app; [no_newlines|].
  apply no_newline_app; [|no_newlines]. apply quote_go_no_newline. constructor.
Qed.

Lemma itoa_no_newline n : no_newline (itoa n).
Proof. intros [H|H]%itoa_chars; [done|]. by vm_compute in H. Qed.

Lemma Join_no_newline l sep :
  Forall no_newline l → no_newline sep → no_newline (Join l sep).
Proof.
  intros Hl Hsep. induction l as [|x l IH]; [no_newlines|].
  apply Forall_cons in Hl as [Hx Hl]. destruct l as [|y l]; [done|].
  rewrite Join_cons by done. apply no_newline_app; [done|].
  apply no_newline_app; [done|]. by apply IH.
Qed.

(** What the newlines of a marshalled value can come from: nothing. *)
Lemma Marshal_no_newline h : ∀ j, no_newline (Marshal h j).
Proof.
  fix IH 1. intros [|b|n|s|fields]; cbn [Marshal].
  - no_newlines.
  - destruct b; no_newlines.
  - apply itoa_no_newline.
  - apply quote_no_newline.
  - set (go := (fix go (l : list (bytes * json)) := _ : list (bytes * bytes))).
    assert (Hgo : Forall (λ p, no_newline p.2) (go fields)).
    { induction fields as [|[k v] fields IHf]; [constructor|].
      apply Forall_cons. split; [|exact IHf].
      change (no_newline (quote h k ++ ":" ++ Marshal h v)). apply no_newline_app; [apply quote_no_newline|].
      apply no_newline_app; [no_newlines|apply IH]. }
    apply no_newline_app; [no_newlines|]. apply no_newline_app; [|no_newlines].
    apply Join_no_newline; [|no_newlines].
    apply Forall_map. by rewrite (merge_sort_Permutation key_le (go fields)).
Qed.

(** An encoded record is one line. *)
Lemma Encode_line j : ∃ line, Encode j = line ++ [newline] ∧ newline ∉ line.
Proof. exists (Marshal false j). split; [done|]. apply Marshal_no_newline. Qed.
