(* ===== verification/GoPath.v ===== *)
(** * The parts of [path/filepath] the program uses *)

From S2P Require Import Prelude GoStrings.

Open Scope bytes_scope.
Open Scope list_scope.

Definition IsAbs (path : bytes) : bool := HasPrefix path "/".

(** The elements of a cleaned path: empty elements and dots are dropped, [".."]
    removes the element before it.  [acc] holds the elements so far, last first. *)
Fixpoint clean_go (rooted : bool) (parts acc : list bytes) : list bytes :=
  match parts with
  | [] => reverse acc
  | p :: parts =>
     if bool_decide (p = [] ∨ p = ("." : bytes)) then clean_go rooted parts acc
     else if bool_decide (p = (".." : bytes)) then
       match acc with
       | q :: acc' =>
          if bool_decide (q = (".." : bytes)) then clean_go rooted parts (p :: acc)
          else clean_go rooted parts acc'
       | [] => clean_go rooted parts (if rooted then [] else [p])
       end
     else clean_go rooted parts (p :: acc)
  end.

Definition Clean (path : bytes) : bytes :=
  let rooted := IsAbs path in
  let elems := clean_go rooted (Split path "/") [] in
  match (if rooted then "/" else []) ++ Join elems "/" with
  | [] => "."
  | p => p
  end.

(** [filepath.Join(a, b)] *)
Definition path_Join (a b : bytes) : bytes :=
  match base.filter (λ p, p ≠ []) [a; b] with
  | [] => []
  | parts => Clean (Join parts "/")
  end.

Example path_Join_ex :
  path_Join "/home/bob" "logs//a/../b" = "/home/bob/logs/b" ∧
  path_Join "" "x" = "x" ∧ path_Join "/a" "../../b" = "/b" ∧ path_Join "a" ".." = ".".
Proof. vm_compute. done. Qed.
