(* ===== verification/Glob.v ===== *)
(** * Patterns of file names ([path/filepath] of the standard library)

    [filepath.Match], on a Unix system, as it is in the versions of Go the
    repository is built with (go 1.14 in go.mod): the rest of a pattern is not
    looked at once a part of it has failed to match.  [Match_answers]: it always
    returns a result or [ErrBadPattern].  [Match_glob]: on a pattern of literal
    bytes and stars it decides the relation [glob]. *)

From S2P Require Import Prelude GoStrings Encoding.

Open Scope Z_scope.
Open Scope bytes_scope.
Open Scope list_scope.

(** ** [utf8.DecodeRuneInString] *)

Definition RuneError : Z := 65533.

(** The continuation bytes of an encoding: their bits, if they are in range. *)
Fixpoint continuation (need : nat) (lo hi : Z) (acc : Z) (s : bytes) : option Z :=
  match need with
  | O => Some acc
  | S need =>
     match s with
     | c :: s =>
        if between lo hi c then continuation need 128 191 (acc * 64 + Z.land (code c) 63) s
        else None
     | [] => None
     end
  end.

(** The bits of the first byte of an encoding with [n] continuation bytes. *)
Definition lead_bits (n : nat) (c : ascii) : Z :=
  match n with
  | O => code c
  | 1%nat => Z.land (code c) 31
  | 2%nat => Z.land (code c) 15
  | _ => Z.land (code c) 7
  end.

(** The rune and its width. *)
Definition DecodeRune (s : bytes) : Z * nat :=
  match s with
  | [] => (RuneError, 0%nat)
  | c :: rest =>
     match utf8_lead c with
     | None => (RuneError, 1%nat)
     | Some (n, lo, hi) =>
        match continuation n lo hi (lead_bits n c) rest with
        | Some r => (r, S n)
        | None => (RuneError, 1%nat)
        end
     end
  end.

(** ** [filepath.Match] *)

Definition ErrBadPattern : error := LibError "syntax error in pattern".

Definition star : ascii := "*"%char.
Definition separator : ascii := "/"%char.
Definition backslash : ascii := "\"%char.
Definition opening : ascii := "["%char.
Definition closing : ascii := "]"%char.
Definition dash : ascii := "-"%char.

(** [getEsc] *)
Definition getEsc (chunk : bytes) : outcome (Z * bytes) :=
  match chunk with
  | [] => Fail ErrBadPattern
  | c :: rest =>
     if bool_decide (c = dash ∨ c = closing) then Fail ErrBadPattern
     else
       let chunk := if bool_decide (c = backslash) then rest else chunk in
       let '(r, n) := DecodeRune chunk in
       let nchunk := drop n chunk in
       if bool_decide (n = 0%nat) || (r =? RuneError) && bool_decide (n = 1%nat)
          || bool_decide (nchunk = [])
       then Fail ErrBadPattern else Ret (r, nchunk)
  end.

(** The loop over the ranges of a character class: whether one has [r], and what
    follows the class. *)
Fixpoint match_ranges (fuel : nat) (r : Z) (found : bool) (nrange : nat) (chunk : bytes)
    : outcome (bool * bytes) :=
  match fuel with
  | O => Running
  | S fuel =>
     match chunk with
     | c :: rest =>
        if bool_decide (c = closing ∧ nrange ≠ 0%nat) then Ret (found, rest)
        else
          '(lo, chunk) ← getEsc chunk;
          '(hi, chunk) ← (match chunk with
                          | c :: rest => if bool_decide (c = dash) then getEsc rest else Ret (lo, chunk)
                          | [] => Ret (lo, chunk)
                          end);
          match_ranges fuel r (found || (lo <=? r) && (r <=? hi)) (S nrange) chunk
     | [] => Fail ErrBadPattern
     end
  end.

(** [matchChunk]: what is left of [s] if the chunk matches a beginning of it. *)
Fixpoint matchChunk (fuel : nat) (chunk s : bytes) : outcome (option bytes) :=
  match fuel with
  | O => Running
  | S fuel =>
     match chunk, s with
     | [], _ => Ret (Some s)
     | _, [] => Ret None
     | c :: chunk, x :: s' =>
        if bool_decide (c = opening) then
          let '(r, n) := DecodeRune s in
          match chunk with
          | [] => Fail ErrBadPattern
          | c :: rest =>
             let negated := bool_decide (c = "^"%char) in
             '(found, chunk) ← match_ranges (S (length chunk)) r false 0
                                 (if negated then rest else chunk);
             if eqb found negated then Ret None else matchChunk fuel chunk (drop n s)
          end
        else if bool_decide (c = "?"%char) then
          if bool_decide (x = separator) then Ret None
          else matchChunk fuel chunk (drop (snd (DecodeRune s)) s)
        else if bool_decide (c = backslash) then
          match chunk with
          | [] => Fail ErrBadPattern
          | c :: chunk =>
             if bool_decide (c = x) then matchChunk fuel chunk s' else Ret None
          end
        else if bool_decide (c = x) then matchChunk fuel chunk s' else Ret None
     end
  end.

Definition match_chunk (chunk s : bytes) : outcome (option bytes) :=
  matchChunk (S (length chunk)) chunk s.

(** The end of the chunk at the beginning of a pattern. *)
Fixpoint scan (inrange : bool) (pattern : bytes) : bytes * bytes :=
  match pattern with
  | [] => ([], [])
  | c :: rest =>
     if bool_decide (c = star) && negb inrange then ([], pattern)
     else if bool_decide (c = backslash) then
       match rest with
       | [] => ([c], [])
       | d :: rest => let '(chunk, rest) := scan inrange rest in (c :: d :: chunk, rest)
       end
     else
       let inrange := if bool_decide (c = opening) then true
                      else if bool_decide (c = closing) then false else inrange in
       let '(chunk, rest) := scan inrange rest in (c :: chunk, rest)
  end.

Fixpoint skip_stars (pattern : bytes) : bool * bytes :=
  match pattern with
  | c :: rest => if bool_decide (c = star) then (true, snd (skip_stars rest)) else (false, pattern)
  | [] => (false, [])
  end.

(** [scanChunk] *)
Definition scanChunk (pattern : bytes) : bool * bytes * bytes :=
  let '(is_star, pattern) := skip_stars pattern in
  let '(chunk, rest) := scan false pattern in (is_star, chunk, rest).

(** Look for a match of the chunk, skipping at least one byte; [last]: it is the last
    chunk, which has to use up the name. *)
Fixpoint match_later (chunk : bytes) (last : bool) (name : bytes) : outcome (option bytes) :=
  match name with
  | [] => Ret None
  | c :: rest =>
     if bool_decide (c = separator) then Ret None
     else
       r ← match_chunk chunk rest;
       match r with
       | Some t =>
          if last && negb (bool_decide (t = [])) then match_later chunk last rest
          else Ret (Some t)
       | None => match_later chunk last rest
       end
  end.

Fixpoint Match_ (fuel : nat) (pattern name : bytes) : outcome bool :=
  match fuel with
  | O => Running
  | S fuel =>
     match pattern with
     | [] => Ret (bool_decide (name = []))
     | _ =>
        let '(is_star, chunk, pattern) := scanChunk pattern in
        let last := bool_decide (pattern = []) in
        if is_star && bool_decide (chunk = []) then Ret (negb (bool_decide (separator ∈ name)))
        else
          match match_chunk chunk name with
          | Ret (Some t) =>
             if bool_decide (t = []) || negb last then Match_ fuel pattern t
             else if is_star then
               r ← match_later chunk last name;
               match r with Some t => Match_ fuel pattern t | None => Ret false end
             else Ret false
          | Ret None =>
             if is_star then
               r ← match_later chunk last name;
               match r with Some t => Match_ fuel pattern t | None => Ret false end
             else Ret false
          | Fail e => Fail e
          | Panic msg => Panic msg
          | Running => Running
          end
     end
  end.

Definition Match (pattern name : bytes) : outcome bool := Match_ (S (length pattern)) pattern name.

Example Match_examples :
  map (λ '(p, n), Match p n)
    [("root" : bytes, "root" : bytes); ("/home/svcusers/*" : bytes, "/home/svcusers/bob" : bytes);
     ("/home/svcusers/*" : bytes, "/home/svcusers/bob/x" : bytes);
     ("*nobody" : bytes, "mynobody" : bytes); ("a*b*c" : bytes, "aXbYbZc" : bytes);
     ("[a-c]?" : bytes, "bz" : bytes); ("[^a-c]?" : bytes, "bz" : bytes); ("a\*" : bytes, "a*" : bytes);
     ("s[" : bytes, "something" : bytes); ("a[" : bytes, "something" : bytes); ("a[" : bytes, "ab" : bytes)] =
  [Ret true; Ret true; Ret false; Ret true; Ret true; Ret true; Ret false; Ret true;
   Fail ErrBadPattern; Ret false; Fail ErrBadPattern].
Proof. vm_compute. reflexivity. Qed.

(** ** [Match] always answers *)

Open Scope nat_scope.
Open Scope bytes_scope.
Open Scope list_scope.


Lemma answers_bind {A B} (m : outcome A) (k : A → outcome B) :
  answers m → (∀ a, m = Ret a → answers (k a)) → answers (m ≫= k).
Proof. destruct m; naive_solver. Qed.

Lemma DecodeRune_width s : s ≠ [] → (0 < snd (DecodeRune s))%nat.
Proof.
  destruct s as [|c s]; [done|]. intros _. simpl.
  destruct (utf8_lead c) as [[[n lo] hi]|]; [|simpl; lia].
  destruct (continuation n lo hi (lead_bits n c) s); simpl; lia.
Qed.

Lemma getEsc_spec chunk :
  answers (getEsc chunk) ∧
  ∀ r rest, getEsc chunk = Ret (r, rest) → (length rest < length chunk)%nat ∧ rest ≠ [].
Proof.
  unfold getEsc. destruct chunk as [|c chunk]; [done|]. case_bool_decide; [done|].
  set (l := if bool_decide (c = backslash) then chunk else c :: chunk).
  assert (Hl : (length l ≤ S (length chunk))%nat) by (subst l; case_bool_decide; simpl; lia).
  pose proof (DecodeRune_width l) as Hw. destruct (DecodeRune l) as [r n] eqn:E. simpl in Hw.
  destruct (_ || _ || _) eqn:Hbad; [done|]. split; [done|].
  rewrite !orb_false_iff, !bool_decide_eq_false in Hbad. destruct Hbad as [[H1 _] H2].
  intros r' rest [= <- <-]. split; [|done]. rewrite length_drop. simpl.
  assert (l ≠ []) as Hne by (intros ->; by rewrite drop_nil in H2).
  specialize (Hw Hne). destruct l; [done|]. simpl in *. lia.
Qed.

Lemma match_ranges_spec fuel r found nrange chunk :
  (length chunk < fuel)%nat →
  answers (match_ranges fuel r found nrange chunk) ∧
  ∀ b rest, match_ranges fuel r found nrange chunk = Ret (b, rest) →
            (length rest < length chunk)%nat.
Proof.
  revert found nrange chunk. induction fuel as [|fuel IH]; intros found nrange chunk Hf; [lia|].
  cbn [match_ranges]. destruct chunk as [|c chunk]; [done|]. simpl in Hf.
  case_bool_decide; [split; [done|intros ?? [= _ <-]; simpl; lia]|].
  pose proof (getEsc_spec (c :: chunk)) as [Ha Hr].
  destruct (getEsc (c :: chunk)) as [[lo chunk1]|e|msg|]; try done.
  cbn [mbind outcome_bind]. destruct (Hr _ _ eq_refl) as [Hlen1 _]. simpl in Hlen1.
  assert (Hhi : ∀ m : outcome (Z * bytes),
    answers m → (∀ hi rest, m = Ret (hi, rest) → (length rest ≤ length chunk1)%nat) →
    answers (m ≫= λ '(hi, chunk0), match_ranges fuel r (found || (lo <=? r)%Z && (r <=? hi)%Z) (S nrange) chunk0) ∧
    (∀ b rest, (m ≫= λ '(hi, chunk0), match_ranges fuel r (found || (lo <=? r)%Z && (r <=? hi)%Z) (S nrange) chunk0)
       = Ret (b, rest) → (length rest < S (length chunk))%nat)).
  { intros m Hm Hle. destruct m as [[hi chunk2]|e|msg|]; try done. cbn [mbind outcome_bind].
    specialize (Hle _ _ eq_refl).
    destruct (IH (found || (lo <=? r)%Z && (r <=? hi)%Z) (S nrange) chunk2) as [IH1 IH2]; [lia|].
    split; [done|]. intros b rest Hb. apply IH2 in Hb. lia. }
  apply Hhi.
  - destruct chunk1 as [|d rest]; [done|]. case_bool_decide; [apply getEsc_spec|done].
  - intros hi rest. destruct chunk1 as [|d rest1]; [by intros [= _ <-]|].
    case_bool_decide; [|by intros [= _ <-]]. intros [? _]%getEsc_spec. simpl. lia.
Qed.

Lemma matchChunk_answers fuel chunk s :
  (length chunk < fuel)%nat → answers (matchChunk fuel chunk s).
Proof.
  revert chunk s. induction fuel as [|fuel IH]; intros chunk s Hf; [lia|]. cbn [matchChunk].
  destruct chunk as [|c chunk]; [done|]. destruct s as [|x s]; [done|]. simpl in Hf.
  case_bool_decide as Hop; [|repeat case_bool_decide; try done; try (apply IH; simpl; lia)].
  - destruct (DecodeRune (x :: s)) as [r n]. destruct chunk as [|d rest]; [done|].
    set (inner := if bool_decide (d = "^"%char) then rest else d :: rest).
    assert (Hin : (length inner ≤ length (d :: rest))%nat)
      by (subst inner; case_bool_decide; simpl; lia).
    destruct (match_ranges_spec (S (length (d :: rest))) r false 0 inner) as [Ha Hr]; [lia|].
    apply answers_bind; [done|]. intros [found chunk'] E. specialize (Hr _ _ E).
    destruct (eqb found _); [done|]. apply IH. simpl in *. lia.
  - destruct chunk as [|d chunk]; [done|]. case_bool_decide; [|done]. apply IH. simpl in Hf. lia.
Qed.

Lemma match_chunk_answers chunk s : answers (match_chunk chunk s).
Proof. apply matchChunk_answers. lia. Qed.

Lemma match_later_answers chunk last name : answers (match_later chunk last name).
Proof.
  induction name as [|c name IH]; [done|]. cbn [match_later]. case_bool_decide; [done|].
  apply answers_bind; [apply match_chunk_answers|]. intros [t|] _; [|done].
  by destruct (last && _).
Qed.

(** Scanning splits a pattern. *)
Lemma scan_app inrange pattern : let '(chunk, rest) := scan inrange pattern in pattern = chunk ++ rest.
Proof.
  remember (length pattern) as n eqn:Hn. assert (length pattern ≤ n)%nat as Hle by lia. clear Hn.
  revert inrange pattern Hle. induction n as [|n IH]; intros inrange pattern Hle;
    (destruct pattern as [|c rest]; [done|]); simpl in Hle; [lia|].
  cbn [scan]. destruct (bool_decide (c = star) && negb inrange); [done|]. case_bool_decide.
  - destruct rest as [|d rest]; [done|]. simpl in Hle.
    specialize (IH inrange rest ltac:(lia)). destruct (scan inrange rest). by subst.
  - set (ir := if bool_decide _ then _ else _). specialize (IH ir rest ltac:(lia)).
    destruct (scan ir rest). by subst.
Qed.

Lemma skip_stars_spec pattern :
  let '(is_star, q) := skip_stars pattern in
  ∃ k, pattern = replicate k star ++ q ∧ (is_star = true ↔ (0 < k)%nat) ∧ head q ≠ Some star.
Proof.
  induction pattern as [|c pattern IH]; simpl; [exists 0%nat; split; [done|]; split; [split; [done|lia]|done]|].
  destruct (skip_stars pattern) as [b q]. case_bool_decide as Hc; simpl.
  - destruct IH as (k & -> & _ & Hq). exists (S k). subst c. split; [done|]. split; [|done]. by split; [lia|].
  - exists 0%nat. split; [done|]. split; [by split; [|lia]|]. simpl. congruence.
Qed.

Lemma scanChunk_shorter pattern :
  pattern ≠ [] → (length (snd (scanChunk pattern)) < length pattern)%nat.
Proof.
  unfold scanChunk. pose proof (skip_stars_spec pattern) as Hs.
  destruct (skip_stars pattern) as [b q]. destruct Hs as (k & -> & Hb & Hq).
  pose proof (scan_app false q) as Ha. intros Hne.
  destruct (scan false q) as [chunk rest] eqn:E. simpl. subst q.
  rewrite !length_app, length_replicate.
  destruct k as [|k]; [|lia]. destruct chunk as [|c chunk]; [|simpl; lia].
  destruct rest as [|c rest]; [done|]. cbn [app scan] in E. exfalso.
  destruct (bool_decide (c = star) && negb false) eqn:Hc.
  - apply andb_true_iff in Hc as [Hc%bool_decide_eq_true _]. subst c. by apply Hq.
  - case_bool_decide.
    + destruct rest as [|d rest]; [done|]. by destruct (scan false rest).
    + by destruct (scan _ rest).
Qed.

Lemma Match_answers_fuel fuel pattern name :
  (length pattern < fuel)%nat → answers (Match_ fuel pattern name).
Proof.
  revert pattern name. induction fuel as [|fuel IH]; intros pattern name Hf; [lia|].
  cbn [Match_]. destruct pattern as [|c pattern]; [done|].
  pose proof (scanChunk_shorter (c :: pattern) ltac:(done)) as Hs.
  destruct (scanChunk (c :: pattern)) as [[is_star chunk] rest]. simpl in Hs, Hf.
  assert (Hrec : ∀ t, answers (Match_ fuel rest t)) by (intros t; apply IH; lia).
  assert (Hlater : answers (r ← match_later chunk (bool_decide (rest = [])) name;
                            match r with Some t => Match_ fuel rest t | None => Ret false end)).
  { apply answers_bind; [apply match_later_answers|]. by intros [t|] _. }
  destruct (is_star && bool_decide (chunk = [])); [done|].
  pose proof (match_chunk_answers chunk name) as Hc.
  destruct (match_chunk chunk name) as [[t|]|e|msg|]; try done.
  - destruct (bool_decide (t = []) || _); [done|]. by destruct is_star.
  - by destruct is_star.
Qed.

Lemma Match_answers pattern name : answers (Match pattern name).
Proof. apply Match_answers_fuel. lia. Qed.

(** ** What a pattern of literals and stars means

    A star stands for any bytes but the separator; the other bytes stand for
    themselves.  The loop never takes back the place where it first matched a
    part of the pattern that is not the last, which is enough. *)

Inductive glob : bytes → bytes → Prop :=
| glob_nil : glob [] []
| glob_char c p s : c ≠ star → glob p s → glob (c :: p) (c :: s)
| glob_star w p s : separator ∉ w → glob p s → glob (star :: p) (w ++ s).

(** No bracket opens a class, and neither a question mark nor a backslash occurs. *)
Definition plain (c : ascii) : bool :=
  negb (bool_decide (c ∈ [opening; "?"%char; backslash])).
Definition simple (pattern : bytes) : bool := forallb plain pattern.

Definition literal (chunk : bytes) : Prop := simple chunk = true ∧ star ∉ chunk.

Lemma simple_app p q : simple (p ++ q) = true ↔ simple p = true ∧ simple q = true.
Proof. unfold simple. by rewrite forallb_app, andb_true_iff. Qed.

Lemma literal_cons c chunk : literal (c :: chunk) → plain c = true ∧ c ≠ star ∧ literal chunk.
Proof.
  intros [H1 H2]. apply (simple_app [c]) in H1 as [H1 H1']. simpl in H1.
  rewrite andb_true_r in H1. split; [done|]. split; [set_solver|]. split; [done|set_solver].
Qed.

Lemma plain_ne c : plain c = true → c ≠ opening ∧ c ≠ "?"%char ∧ c ≠ backslash.
Proof. unfold plain. rewrite negb_true_iff, bool_decide_eq_false. set_solver. Qed.

Lemma glob_literal chunk p s :
  star ∉ chunk → glob (chunk ++ p) s ↔ ∃ t, s = chunk ++ t ∧ glob p t.
Proof.
  revert s. induction chunk as [|c chunk IH]; intros s Hn; simpl; [naive_solver|].
  split.
  - intros Hg. inversion Hg; subst; [|set_solver]. apply IH in H3 as (t & -> & Ht); [|set_solver].
    by exists t.
  - intros (t & -> & Ht). constructor; [set_solver|]. apply IH; [set_solver|]. by exists t.
Qed.

Lemma glob_star_iff p s : glob (star :: p) s ↔ ∃ w t, s = w ++ t ∧ separator ∉ w ∧ glob p t.
Proof.
  split.
  - intros Hg. inversion Hg; subst; [done|]. by exists w, s0.
  - intros (w & t & -> & Hw & Ht). by constructor.
Qed.

Lemma glob_stars k p s : 0 < k → glob (replicate k star ++ p) s ↔ glob (star :: p) s.
Proof.
  intros Hk. destruct k as [|k]; [lia|]. clear Hk. induction k as [|k IH] in s |- *; [done|].
  change (replicate (S (S k)) star ++ p) with (star :: (replicate (S k) star ++ p)).
  rewrite glob_star_iff. setoid_rewrite IH. setoid_rewrite glob_star_iff. split.
  - intros (w & t & -> & Hw & w' & t' & -> & Hw' & Ht). exists (w ++ w'), t'.
    rewrite <- app_assoc. set_solver.
  - intros (w & t & -> & Hw & Ht). exists [], (w ++ t). split; [done|]. split; [set_solver|].
    by exists w, t.
Qed.

Lemma match_chunk_literal chunk s : literal chunk → match_chunk chunk s = Ret (strip_prefix chunk s).
Proof.
  unfold match_chunk. assert (length chunk < S (length chunk)) as Hf by lia. revert Hf.
  generalize (S (length chunk)) as fuel. intros fuel. revert chunk s.
  induction fuel as [|fuel IH]; intros chunk s Hf Hl; [lia|]. cbn [matchChunk strip_prefix].
  destruct chunk as [|c chunk]; [done|]. destruct s as [|x s]; [done|]. cbn [strip_prefix].
  apply literal_cons in Hl as (Hc & _ & Hl). apply plain_ne in Hc as (H1 & H2 & H3).
  rewrite !bool_decide_false by done. simpl in Hf.
  destruct (ascii_dec c x) as [->|Hne].
  - rewrite bool_decide_true by done. by apply IH; [lia|].
  - by rewrite bool_decide_false.
Qed.

Lemma scan_simple pattern :
  simple pattern = true →
  ∃ chunk rest, scan false pattern = (chunk, rest) ∧ pattern = chunk ++ rest ∧ literal chunk ∧
    simple rest = true ∧ (rest = [] ∨ ∃ r, rest = star :: r).
Proof.
  induction pattern as [|c pattern IH]; intros Hs.
  { exists [], []. repeat split; [set_solver|by left]. }
  apply (simple_app [c]) in Hs as [Hc Hs]. simpl in Hc. rewrite andb_true_r in Hc.
  pose proof (plain_ne _ Hc) as (H1 & H2 & H3). cbn [scan].
  destruct (decide (c = star)) as [->|Hne].
  - rewrite bool_decide_true by done. exists [], (star :: pattern). split; [done|]. split; [done|].
    split; [split; [done|set_solver]|]. split; [by apply (simple_app [star])|eauto].
  - rewrite (bool_decide_false (c = star)), (bool_decide_false (c = backslash)),
      (bool_decide_false (c = opening)) by done. simpl.
    assert ((if bool_decide (c = closing) then false else false) = false) as -> by by case_bool_decide.
    destruct (IH Hs) as (chunk & rest & -> & -> & [Hl1 Hl2] & Hr & Hst).
    exists (c :: chunk), rest. split; [done|]. split; [done|].
    split; [split; [by apply (simple_app [c]); simpl; rewrite Hc|set_solver]|done].
Qed.

(** One occurrence of the chunk after at least one byte *)
Definition occurs (chunk : bytes) (last : bool) (name w t : bytes) : Prop :=
  name = w ++ chunk ++ t ∧ separator ∉ w ∧ (last = true → t = []).

Lemma match_later_spec chunk last name :
  literal chunk →
  ∃ r, match_later chunk last name = Ret r ∧
    match r with
    | Some t => ∃ w, w ≠ [] ∧ occurs chunk last name w t ∧
                ∀ w' t', w' ≠ [] → occurs chunk last name w' t' → length w ≤ length w'
    | None => ∀ w t, w ≠ [] → ¬ occurs chunk last name w t
    end.
Proof.
  intros Hl. induction name as [|c name IH].
  { exists None. split; [done|]. intros [|c w] t Hw (Hn & _); [done|]. discriminate. }
  cbn [match_later]. case_bool_decide as Hc.
  { exists None. split; [done|]. intros [|c' w] t Hw (Hn & Hs & _); [done|]. set_solver. }
  rewrite match_chunk_literal by done. cbn [mbind outcome_bind].
  assert (Hhere : ∀ w t, w ≠ [] → occurs chunk last (c :: name) w t →
     (w = [c] ∧ strip_prefix chunk name = Some t ∧ (last = true → t = [])) ∨
     ∃ w', w = c :: w' ∧ w' ≠ [] ∧ occurs chunk last name w' t).
  { intros [|c' w] t Hw (Hn & Hs & Ht); [done|]. injection Hn as <- Hn.
    destruct w as [|d w].
    - left. split; [done|]. split; [by apply strip_prefix_Some|done].
    - right. exists (d :: w). split; [done|]. split; [done|]. split; [done|]. set_solver. }
  assert (Hnext : (∀ t, strip_prefix chunk name = Some t → last = true ∧ t ≠ []) →
    ∃ r, match_later chunk last name = Ret r ∧
    match r with
    | Some t => ∃ w, w ≠ [] ∧ occurs chunk last (c :: name) w t ∧
                ∀ w' t', w' ≠ [] → occurs chunk last (c :: name) w' t' → length w ≤ length w'
    | None => ∀ w t, w ≠ [] → ¬ occurs chunk last (c :: name) w t
    end).
  { intros Hnot. destruct IH as ([t|] & -> & IH); eexists; (split; [done|]).
    - destruct IH as (w & Hw & (-> & Hs & Ht) & Hmin). exists (c :: w). split; [done|].
      split; [split; [done|set_solver]|]. intros w' t' Hw' Ho.
      destruct (Hhere _ _ Hw' Ho) as [(-> & Hp & Hlast)|(w2 & -> & Hw2 & Ho2)].
      + apply Hnot in Hp. naive_solver.
      + specialize (Hmin _ _ Hw2 Ho2). simpl. lia.
    - intros w t Hw Ho.
      destruct (Hhere _ _ Hw Ho) as [(-> & Hp & Hlast)|(w2 & -> & Hw2 & Ho2)].
      + apply Hnot in Hp. naive_solver.
      + by apply (IH _ _ Hw2) in Ho2. }
  destruct (strip_prefix chunk name) as [t|] eqn:Hp; [|by apply Hnext].
  destruct (last && negb (bool_decide (t = []))) eqn:Hlast.
  - apply Hnext. intros ? [= <-]. apply andb_true_iff in Hlast as [? Hlast].
    by rewrite negb_true_iff, bool_decide_eq_false in Hlast.
  - exists (Some t). split; [done|]. exists [c]. split; [done|].
    apply strip_prefix_Some in Hp as ->. split.
    + split; [done|]. split; [set_solver|]. intros ->. simpl in Hlast.
      by rewrite negb_false_iff, bool_decide_eq_true in Hlast.
    + intros [|? w'] t' ? _; [done|]. simpl. lia.
Qed.

(** Of two occurrences of a chunk after bytes that are not separators, the later
    one is only moved by such bytes. *)
Lemma shift_no_separator (v chunk u : bytes) :
  chunk ++ u = v ++ chunk → v ≠ [] → separator ∉ v → separator ∉ chunk ++ u.
Proof.
  intros E Hv Hs Hin. rewrite E in Hin. apply list_elem_of_lookup in Hin as [i Hi].
  revert Hi. induction (lt_wf i) as [i _ IH]. intros Hi.
  destruct (decide (i < length v)) as [Hlt|Hge].
  - rewrite lookup_app_l in Hi by done. by apply Hs, list_elem_of_lookup_2 with i.
  - rewrite lookup_app_r in Hi by lia.
    assert (length v ≠ 0) by (by intros ?%nil_length_inv).
    apply (IH (i - length v)); [lia|]. rewrite <- E. by apply lookup_app_l_Some.
Qed.

Lemma greedy (chunk w t w' t' : bytes) r :
  w ++ chunk ++ t = w' ++ chunk ++ t' → length w ≤ length w' → separator ∉ w' →
  glob (star :: r) t' → glob (star :: r) t.
Proof.
  intros E Hle Hs Hg.
  apply app_eq_inv in E as [(v & Hw & E)|(v & -> & E)].
  - assert (v = []) as ->.
    { apply (f_equal length) in Hw. rewrite length_app in Hw. apply nil_length_inv. lia. }
    simpl in E. apply app_inv_head in E. by subst.
  - assert (Hlen : length t = length v + length t').
    { apply (f_equal length) in E. rewrite !length_app in E. lia. }
    destruct v as [|b v]; [simpl in E; apply app_inv_head in E; by subst|].
    set (v' := b :: v) in *. rewrite (app_assoc v') in E.
    assert (t = take (length v') t ++ t') as Ht.
    { rewrite <- (take_drop (length v') t) at 1. f_equal.
      apply (f_equal (drop (length chunk + length v'))) in E.
      rewrite drop_app_add, drop_app_length' in E; [done|]. rewrite length_app. lia. }
    rewrite Ht in E |- *. rewrite app_assoc in E. apply app_inv_tail in E.
    apply glob_star_iff in Hg as (x & y & -> & Hx & Hy). apply glob_star_iff.
    exists (take (length v') t ++ x), y. rewrite <- app_assoc. split; [done|]. split; [|done].
    apply not_elem_of_app. split; [|done].
    assert (separator ∉ chunk ++ take (length v') t) as Hn by (eapply shift_no_separator; [done|done|set_solver]).
    set_solver.
Qed.

(** A pattern that starts with a star and then a chunk: its occurrences. *)
Lemma glob_star_chunk chunk rest name :
  literal chunk →
  glob (star :: chunk ++ rest) name ↔
  ∃ w t, name = w ++ chunk ++ t ∧ separator ∉ w ∧ glob rest t.
Proof.
  intros [_ Hl]. rewrite glob_star_iff. split.
  - intros (w & s & -> & Hw & (t & -> & Ht)%glob_literal); [|done]. by exists w, t.
  - intros (w & t & -> & Hw & Ht). exists w, (chunk ++ t). split; [done|]. split; [done|].
    apply glob_literal; eauto.
Qed.

Lemma glob_nil_l s : glob [] s ↔ s = [].
Proof. split; [by inversion 1|intros ->; constructor]. Qed.

(** The first occurrence decides. *)
Lemma first_occurrence chunk rest name w t :
  literal chunk → rest = [] ∨ (∃ r, rest = star :: r) →
  occurs chunk (bool_decide (rest = [])) name w t →
  (∀ w' t', occurs chunk (bool_decide (rest = [])) name w' t' → length w ≤ length w') →
  glob (star :: chunk ++ rest) name ↔ glob rest t.
Proof.
  intros Hl Hrest (Hn & Hs & Ht) Hmin. rewrite glob_star_chunk by done. split; [|by eauto].
  intros (w' & t' & Hn' & Hs' & Hg).
  destruct Hrest as [->|[r ->]].
  - rewrite Ht by done. constructor.
  - apply greedy with (chunk := chunk) (w := w) (w' := w') (t' := t'); [congruence| |done..].
    by apply (Hmin w' t').
Qed.

(** The answer after the first chunk, when nothing follows a star or none matches. *)
Lemma later_glob fuel chunk rest name :
  literal chunk → rest = [] ∨ (∃ r, rest = star :: r) →
  (∀ t, ∃ b, Match_ fuel rest t = Ret b ∧ (b = true ↔ glob rest t)) →
  (∀ t, ¬ occurs chunk (bool_decide (rest = [])) name [] t) →
  ∃ b, (r ← match_later chunk (bool_decide (rest = [])) name;
        match r with Some t => Match_ fuel rest t | None => Ret false end) = Ret b ∧
       (b = true ↔ glob (star :: chunk ++ rest) name).
Proof.
  intros Hl Hshape Hrec Hfirst.
  destruct (match_later_spec chunk (bool_decide (rest = [])) name Hl) as (r & -> & Hr).
  cbn [mbind outcome_bind]. destruct r as [t|].
  - destruct Hr as (w & _ & Ho & Hmin). destruct (Hrec t) as (b & -> & Hb). exists b.
    split; [done|]. rewrite (first_occurrence chunk rest name w t); [done..|].
    intros [|c w'] t' Ho'; [by apply Hfirst in Ho'|]. by apply (Hmin (c :: w') t').
  - exists false. split; [done|]. split; [done|]. rewrite glob_star_chunk by done.
    intros (w & t & Hn & Hw & Ht). exfalso.
    assert (occurs chunk (bool_decide (rest = [])) name w t) as Ho.
    { split; [done|]. split; [done|]. rewrite bool_decide_eq_true. intros ->. by apply glob_nil_l. }
    destruct w as [|c w]; [by apply Hfirst in Ho|]. by apply (Hr (c :: w) t).
Qed.

(** The two ways [Match_] goes on from a non-empty chunk. *)
Lemma star_glob fuel chunk rest name :
  literal chunk → rest = [] ∨ (∃ r, rest = star :: r) →
  (∀ t, ∃ b, Match_ fuel rest t = Ret b ∧ (b = true ↔ glob rest t)) →
  ∃ b, match strip_prefix chunk name with
       | Some t =>
          if bool_decide (t = []) || negb (bool_decide (rest = [])) then Match_ fuel rest t
          else
            (r ← match_later chunk (bool_decide (rest = [])) name;
             match r with Some t => Match_ fuel rest t | None => Ret false end)
       | None =>
          (r ← match_later chunk (bool_decide (rest = [])) name;
           match r with Some t => Match_ fuel rest t | None => Ret false end)
       end = Ret b ∧ (b = true ↔ glob (star :: chunk ++ rest) name).
Proof.
  intros Hl Hshape Hrec. destruct (strip_prefix chunk name) as [t|] eqn:Hp.
  2:{ apply later_glob; [done..|]. intros t' (Hn & _). apply (strip_prefix_Some chunk) in Hn.
      by rewrite Hp in Hn. }
  destruct (bool_decide (t = []) || negb (bool_decide (rest = []))) eqn:Hgo.
  - destruct (Hrec t) as (b & -> & Hb). exists b. split; [done|].
    apply strip_prefix_Some in Hp.
    rewrite (first_occurrence chunk rest name [] t); [done|done|done| |simpl; lia].
    split; [done|]. split; [set_solver|]. intros Hlast. rewrite Hlast, orb_false_r in Hgo.
    by apply bool_decide_eq_true in Hgo.
  - apply orb_false_iff in Hgo as [Hgo1 Hgo2%negb_false_iff].
    apply later_glob; [done..|]. intros t' (Hn & _ & Ht').
    apply (strip_prefix_Some chunk) in Hn. rewrite Hp in Hn. injection Hn as ->. apply bool_decide_eq_false in Hgo1. auto.
Qed.

Lemma no_star_glob fuel chunk rest name :
  literal chunk →
  (∀ t, ∃ b, Match_ fuel rest t = Ret b ∧ (b = true ↔ glob rest t)) →
  ∃ b, match strip_prefix chunk name with
       | Some t =>
          if bool_decide (t = []) || negb (bool_decide (rest = [])) then Match_ fuel rest t
          else Ret false
       | None => Ret false
       end = Ret b ∧ (b = true ↔ glob (chunk ++ rest) name).
Proof.
  intros [_ Hl] Hrec. setoid_rewrite glob_literal; [|done].
  destruct (strip_prefix chunk name) as [t|] eqn:Hp.
  - apply strip_prefix_Some in Hp as ->.
    assert (Hg : (∃ t', chunk ++ t = chunk ++ t' ∧ glob rest t') ↔ glob rest t).
    { split; [|eauto]. by intros (t' & ->%app_inv_head & Ht). }
    setoid_rewrite Hg. destruct (bool_decide (t = []) || _) eqn:Hgo; [apply Hrec|].
    exists false. split; [done|]. split; [done|].
    apply orb_false_iff in Hgo as [Hgo1%bool_decide_eq_false Hgo2%negb_false_iff].
    apply bool_decide_eq_true in Hgo2 as ->. by rewrite glob_nil_l.
  - exists false. split; [done|]. split; [done|].
    intros (t & Ht%strip_prefix_Some & _). by rewrite Hp in Ht.
Qed.

Lemma Match_glob_fuel fuel pattern name :
  length pattern < fuel → simple pattern = true →
  ∃ b, Match_ fuel pattern name = Ret b ∧ (b = true ↔ glob pattern name).
Proof.
  revert pattern name. induction fuel as [|fuel IH]; intros pattern name Hf Hs; [lia|].
  cbn [Match_]. destruct pattern as [|c0 p0].
  { exists (bool_decide (name = [])). split; [done|]. by rewrite bool_decide_eq_true, glob_nil_l. }
  assert (Hshort := scanChunk_shorter (c0 :: p0) ltac:(done)). revert Hf Hs Hshort.
  generalize (c0 :: p0) as pattern. intros pattern Hf Hs. unfold scanChunk.
  pose proof (skip_stars_spec pattern) as Hskip.
  destruct (skip_stars pattern) as [is_star q]. destruct Hskip as (k & Hpat & Hk & Hq).
  rewrite Hpat in Hs. apply simple_app in Hs as [_ Hs].
  destruct (scan_simple q Hs) as (chunk & rest & E & -> & Hl & Hrest & Hshape). rewrite E.
  cbn [snd]. intros Hshort. clear E.
  assert (Hrec : ∀ t, ∃ b, Match_ fuel rest t = Ret b ∧ (b = true ↔ glob rest t))
    by (intros t; apply IH; [lia|done]).
  assert (Hglob : glob pattern name ↔
                  glob (if is_star then star :: chunk ++ rest else chunk ++ rest) name).
  { rewrite Hpat. destruct is_star; [apply glob_stars, Hk; done|].
    destruct k as [|k]; [done|]. assert (false = true) by (apply Hk; lia). done. }
  setoid_rewrite Hglob. clear Hglob Hpat. rewrite match_chunk_literal by done.
  destruct is_star; cbn [andb]; [|by apply no_star_glob].
  case_bool_decide as Hempty; [|by apply star_glob].
  subst chunk. assert (rest = []) as -> by (destruct Hshape as [|[r ->]]; [done|]; by simpl in Hq).
  exists (negb (bool_decide (separator ∈ name))). split; [done|].
  rewrite negb_true_iff, bool_decide_eq_false. simpl. rewrite glob_star_iff. split.
  - intros Hn. exists name, []. rewrite app_nil_r. split; [done|]. split; [done|constructor].
  - intros (w & t & -> & Hw & ->%glob_nil_l). by rewrite app_nil_r.
Qed.

Lemma Match_glob pattern name :
  simple pattern = true → ∃ b, Match pattern name = Ret b ∧ (b = true ↔ glob pattern name).
Proof. intros. apply Match_glob_fuel; [lia|done]. Qed.
