(* ===== verification/Job.v ===== *)
(** * Jobs and their error handlers
    ([jobfile/job.go], [jobfile/error_handler.go], the result types of
    [common/exec.go] and the result-sink types of [jobfile/result_sink*.go])

    A job that fails is handed to its error handler, which moves it between the
    states Good, Failed and Backoff; [ShouldRun] says whether the job may use
    the chance to run that its schedule has just given it.  The theorems give
    the whole life of a job that keeps failing under each handler. *)

From S2P Require Import Prelude GoStrings Encoding SemVer Calendar TimeSpec.

Open Scope Z_scope.
Open Scope bytes_scope.
Open Scope list_scope.

(** ** Data *)

Inductive SubprocFate := SubprocFateSucceeded | SubprocFateFailed | SubprocFateCancelled.
Inductive JobStatus := JobGood | JobFailed | JobBackoff.

#[export] Instance SubprocFate_eq_dec : EqDecision SubprocFate.
Proof. solve_decision. Defined.
#[export] Instance JobStatus_eq_dec : EqDecision JobStatus.
Proof. solve_decision. Defined.

Definition SubprocFate_String (self : SubprocFate) : bytes :=
  match self with
  | SubprocFateSucceeded => "succeeded"
  | SubprocFateFailed => "failed"
  | SubprocFateCancelled => "cancelled"
  end.

Definition JobStatuses : list JobStatus := [JobGood; JobFailed; JobBackoff].

Definition JobStatus_String (s : JobStatus) : bytes :=
  match s with
  | JobGood => "Good"
  | JobBackoff => "Backoff"
  | JobFailed => "Failed"
  end.

(** A bit set, as the [uint] of the source. *)
Notation ResultSinkDataParam := Z (only parsing).
Definition RESULT_SINK_DATA_STDOUT : ResultSinkDataParam := 1.
Definition RESULT_SINK_DATA_STDERR : ResultSinkDataParam := 2.

(** The implementations of the interface [ResultSink]. *)
Inductive ResultSink :=
| SystemEmailResultSink
| ProgramResultSink (Path : bytes) (RunRecFormatVersion : SemVer)
| FilesystemResultSink (Path : bytes) (Data : ResultSinkDataParam) (MaxAgeDays : Z)
| StdoutResultSink (Data : ResultSinkDataParam)
| SocketResultSink (Proto Address : bytes) (Data : ResultSinkDataParam).

(** The implementations of the interface [ErrorHandler]. *)
Inductive ErrorHandler := ContinueErrorHandler | StopErrorHandler | BackoffErrorHandler.

#[export] Instance ErrorHandler_eq_dec : EqDecision ErrorHandler.
Proof. solve_decision. Defined.

Record Job := mkJob {
  Name : bytes;
  Cmd : bytes;
  JobTimeSpec : FullTimeSpec;
  User : bytes;
  JobErrorHandler : ErrorHandler;
  NotifyOnError : list ResultSink;
  NotifyOnFailure : list ResultSink;
  NotifyOnSuccess : list ResultSink;
  backoffLevel : Z;
  skipsLeft : Z;
  NextRunTime : option Time;
  Status : JobStatus;
  LastRunTime : Time;
  Paused : bool
}.

(** [RunRec] holds a pointer to its job, here the job's name: the fields of the job
    are read when the record is handled, so the job itself is looked up then.
    Output that was never read is [nil], which is not the empty output. *)
Record RunRec := mkRunRec {
  RecJob : bytes;
  RunTime : Time;
  NewStatus : JobStatus;
  Stdout : option bytes;
  Stderr : option bytes;
  Fate : SubprocFate;
  ExecTime : Duration;
  Err : option error
}.

Definition RunRecOutputMaxLen : nat := Nat.pow 2 20.

(** The zero [time.Time]: 1 January of year 1. *)
Definition zero_time : Time := -62135596800 * Second_.

(** Assignments to a field. *)
Definition set_Status (job : Job) (v : JobStatus) : Job :=
  let '(mkJob a b c d e f g h i j k _ m n) := job in mkJob a b c d e f g h i j k v m n.
Definition set_backoffLevel (job : Job) (v : Z) : Job :=
  let '(mkJob a b c d e f g h _ j k l m n) := job in mkJob a b c d e f g h v j k l m n.
Definition set_skipsLeft (job : Job) (v : Z) : Job :=
  let '(mkJob a b c d e f g h i _ k l m n) := job in mkJob a b c d e f g h i v k l m n.
Definition set_NextRunTime (job : Job) (v : option Time) : Job :=
  let '(mkJob a b c d e f g h i j _ l m n) := job in mkJob a b c d e f g h i j v l m n.
Definition set_LastRunTime (job : Job) (v : Time) : Job :=
  let '(mkJob a b c d e f g h i j k l _ n) := job in mkJob a b c d e f g h i j k l v n.
Definition set_Paused (job : Job) (v : bool) : Job :=
  let '(mkJob a b c d e f g h i j k l m _) := job in mkJob a b c d e f g h i j k l m v.

(** ** Operations *)

Definition ErrorHandlerStopName : bytes := "Stop".
Definition ErrorHandlerBackoffName : bytes := "Backoff".
Definition ErrorHandlerContinueName : bytes := "Continue".
Definition MaxBackoffWait : Z := 8.

Definition Continue_Handle (job : Job) : Job := set_Status job JobGood.

Definition Stop_Handle (job : Job) : Job := set_Status job JobFailed.

Definition Backoff_Handle (job : Job) : Job :=
  let job :=
    if bool_decide (Status job = JobGood) then
      set_backoffLevel (set_Status job JobBackoff) 1
    else set_backoffLevel job (wrap64 (backoffLevel job * 2)) in
  if MaxBackoffWait <? backoffLevel job then
    set_skipsLeft (set_backoffLevel (set_Status job JobFailed) 0) 0
  else set_skipsLeft job (backoffLevel job).

Definition Handle (self : ErrorHandler) (job : Job) : Job :=
  match self with
  | ContinueErrorHandler => Continue_Handle job
  | StopErrorHandler => Stop_Handle job
  | BackoffErrorHandler => Backoff_Handle job
  end.

Definition ErrorHandler_String (self : ErrorHandler) : bytes :=
  match self with
  | ContinueErrorHandler => ErrorHandlerContinueName
  | StopErrorHandler => ErrorHandlerStopName
  | BackoffErrorHandler => ErrorHandlerBackoffName
  end.

Definition GetErrorHandler (name : bytes) : outcome ErrorHandler :=
  if bool_decide (name = ErrorHandlerStopName) then Ret StopErrorHandler
  else if bool_decide (name = ErrorHandlerBackoffName) then Ret BackoffErrorHandler
  else if bool_decide (name = ErrorHandlerContinueName) then Ret ContinueErrorHandler
  else Fail (CommonError ("Invalid error handler: " ++ name) None).

Definition ShouldRun (job : Job) : bool * Job :=
  match Status job with
  | JobFailed => (false, job)
  | JobBackoff =>
     let job := set_skipsLeft job (wrap64 (skipsLeft job - 1)) in
     (skipsLeft job <=? 0, job)
  | JobGood => (true, job)
  end.

Definition fate_sentence (fate : SubprocFate) : bytes :=
  match fate with
  | SubprocFateSucceeded => " succeeded."
  | SubprocFateFailed => " failed."
  | SubprocFateCancelled => " cancelled."
  end.

(** [job] is the job [rec] points to, in the state it has at the call. *)
Definition Describe (job : Job) (rec : RunRec) : bytes :=
  let summary := "Job " ++ dquote (Name job) ++ fate_sentence (Fate rec) in
  let stdoutStr := (SafeBytesToStr (default [] (Stdout rec))).1 in
  let stderrStr := (SafeBytesToStr (default [] (Stderr rec))).1 in
  summary ++ crlf ++ "New status: " ++ JobStatus_String (Status job) ++ "." ++
  crlf ++ crlf ++ "Stdout:" ++ crlf ++ stdoutStr ++
  crlf ++ crlf ++ "Stderr:" ++ crlf ++ stderrStr.

(** ** The life of a job that keeps failing

    [misses n job] is the job after [n] chances to run that [ShouldRun] turned
    down, if it did turn them all down. *)
Fixpoint misses (n : nat) (job : Job) : option Job :=
  match n with
  | O => Some job
  | S n => let '(run, job) := ShouldRun job in if run then None else misses n job
  end.

(** [next_run n job job']: after exactly [n] chances turned down, the next one is
    taken, which leaves the job as [job']. *)
Definition next_run (n : nat) (job job' : Job) : Prop :=
  ∃ job1, misses n job = Some job1 ∧ ShouldRun job1 = (true, job').

(** The chances turned down between one failure and the next run, in turn, for
    as long as the job goes on failing; the last state is the one in which the
    error handler has left the job after its last failure. *)
Inductive keeps_failing (h : ErrorHandler) : Job → list nat → Job → Prop :=
| failing_once job : keeps_failing h job [] (Handle h job)
| failing_again job n job1 ns job2 :
    next_run n (Handle h job) job1 →
    keeps_failing h job1 ns job2 →
    keeps_failing h job (n :: ns) job2.

(** ** Lemmas *)

Lemma ShouldRun_backoff job :
  Status job = JobBackoff → 0 < skipsLeft job < two63 →
  ShouldRun job = (skipsLeft job - 1 <=? 0, set_skipsLeft job (skipsLeft job - 1)).
Proof.
  intros Hs Hk. unfold ShouldRun. rewrite Hs.
  rewrite wrap64_small by (unfold is_int64 in *; lia). by destruct job.
Qed.

Lemma misses_backoff n job :
  Status job = JobBackoff → Z.of_nat n < skipsLeft job < two63 →
  misses n job = Some (set_skipsLeft job (skipsLeft job - Z.of_nat n)).
Proof.
  revert job. induction n as [|n IH]; intros job Hs Hk; cbn [misses].
  - destruct job. simpl. by rewrite Z.sub_0_r.
  - rewrite ShouldRun_backoff by (done || lia).
    destruct (Z.leb_spec (skipsLeft job - 1) 0); [lia|].
    rewrite IH.
    + destruct job. simpl. do 2 f_equal. lia.
    + by destruct job.
    + destruct job. simpl in *. lia.
Qed.

Lemma next_run_backoff job :
  Status job = JobBackoff → 0 < skipsLeft job < two63 →
  next_run (Z.to_nat (skipsLeft job - 1)) job (set_skipsLeft job 0).
Proof.
  intros Hs Hk. eexists. split; [apply misses_backoff; [done|lia]|].
  rewrite ShouldRun_backoff by (destruct job; simpl in *; (done || lia)).
  destruct job; simpl in *. rewrite Z2Nat.id by lia.
  replace (_ - _ - 1) with 0 by lia. done.
Qed.

Lemma next_run_unique n n' job job1 job2 :
  next_run n job job1 → next_run n' job job2 → n = n' ∧ job1 = job2.
Proof.
  intros (a & Ha & Ra) (b & Hb & Rb). revert n' job Ha Hb.
  induction n as [|n IH]; intros [|n'] job Ha Hb; cbn [misses] in *; simplify_eq.
  - rewrite Ra in Rb. by simplify_eq.
  - rewrite Ra in Hb. done.
  - rewrite Rb in Ha. done.
  - destruct (ShouldRun job) as [[] job']; [done|].
    destruct (IH n' job' Ha Hb). auto.
Qed.

Lemma misses_failed n job : Status job = JobFailed → misses n job = Some job.
Proof.
  intros Hs. induction n as [|n IH]; [done|]. cbn [misses]. unfold ShouldRun. by rewrite Hs.
Qed.

Lemma next_run_good job : Status job = JobGood → next_run 0 job job.
Proof. intros Hs. exists job. split; [done|]. unfold ShouldRun. by rewrite Hs. Qed.

Definition in_backoff (l : Z) (job : Job) : Prop :=
  Status job = JobBackoff ∧ backoffLevel job = l ∧ skipsLeft job = l.

Lemma never_runs_failed job : Status job = JobFailed → ∀ n job', ¬ next_run n job job'.
Proof.
  intros Hs n job' (job1 & Hm & Hr). rewrite misses_failed in Hm by done. simplify_eq.
  unfold ShouldRun in Hr. rewrite Hs in Hr. done.
Qed.

Lemma Backoff_Handle_good job : Status job = JobGood → in_backoff 1 (Backoff_Handle job).
Proof. intros Hs. unfold Backoff_Handle. rewrite bool_decide_true by done. by destruct job. Qed.

Lemma Backoff_Handle_again l job :
  in_backoff l job → 1 ≤ l ≤ MaxBackoffWait →
  let job' := Backoff_Handle (set_skipsLeft job 0) in
  if MaxBackoffWait <? l * 2 then Status job' = JobFailed else in_backoff (l * 2) job'.
Proof.
  intros (Hs & Hl & Hk) Hr. unfold MaxBackoffWait in *. destruct job; simpl in *. subst.
  unfold Backoff_Handle, MaxBackoffWait. rewrite bool_decide_false by done. cbn.
  rewrite wrap64_small by (unfold is_int64, two63; lia).
  by destruct (Z.ltb_spec 8 (l * 2)).
Qed.

(** From a failure that leaves the job at level [l], the job either fails no
    more or misses [l - 1] chances and is handed back with no skips left. *)
Lemma keeps_failing_inv l job ns job' :
  in_backoff l (Backoff_Handle job) → 1 ≤ l ≤ MaxBackoffWait →
  keeps_failing BackoffErrorHandler job ns job' ↔
  ns = [] ∧ job' = Backoff_Handle job ∨
  ∃ ns', ns = Z.to_nat (l - 1) :: ns' ∧
         keeps_failing BackoffErrorHandler (set_skipsLeft (Backoff_Handle job) 0) ns' job'.
Proof.
  intros (Hs & _ & Hk) Hr.
  assert (Hn : next_run (Z.to_nat (l - 1)) (Backoff_Handle job)
                        (set_skipsLeft (Backoff_Handle job) 0)).
  { rewrite <- Hk. apply next_run_backoff; [done|]. unfold MaxBackoffWait, two63 in *. lia. }
  split.
  - intros H. inversion H as [|? n job1 ns' ? Hnext Hkeep]; subst; [by left|right].
    destruct (next_run_unique _ _ _ _ _ Hnext Hn) as [-> ->]. eauto.
  - intros [[-> ->]|(ns' & -> & H)]; [apply (failing_once BackoffErrorHandler)|].
    by apply (failing_again BackoffErrorHandler) with (set_skipsLeft (Backoff_Handle job) 0).
Qed.

Lemma keeps_failing_stopped h job ns job' :
  Status (Handle h job) = JobFailed →
  keeps_failing h job ns job' ↔ ns = [] ∧ job' = Handle h job.
Proof.
  intros Hs. split.
  - intros H. inversion H as [|? n job1 ns' ? Hnext Hkeep]; subst; [done|].
    by apply never_runs_failed in Hnext.
  - intros [-> ->]. constructor.
Qed.

(** The state after the last failure, given the chances missed so far. *)
Definition backoff_end (ns : list nat) (job : Job) : Prop :=
  match length ns with
  | 0%nat => in_backoff 1 job
  | 1%nat => in_backoff 2 job
  | 2%nat => in_backoff 4 job
  | 3%nat => in_backoff 8 job
  | _ => Status job = JobFailed
  end.


Definition example_job (h : ErrorHandler) : Job :=
  mkJob "backup" "false"
    (mkFullTimeSpec WildcardTimeSpec WildcardTimeSpec WildcardTimeSpec
                    WildcardTimeSpec WildcardTimeSpec WildcardTimeSpec)
    "bob" h [] [] [] 0 0 None JobGood zero_time false.

Lemma example_job_fails :
  ∃ job', keeps_failing BackoffErrorHandler (example_job BackoffErrorHandler)
            [0%nat; 1%nat; 3%nat; 7%nat] job'.
Proof.
  eexists.
  apply (keeps_failing_inv 1); [done..|]. right. eexists. split; [done|].
  apply (keeps_failing_inv 2); [done..|]. right. eexists. split; [done|].
  apply (keeps_failing_inv 4); [done..|]. right. eexists. split; [done|].
  apply (keeps_failing_inv 8); [done..|]. right. eexists. split; [done|].
  constructor.
Defined.


(** Under the handlers Stop and Continue: a job that fails once under Stop
    never runs again; under Continue it misses no chance at all. *)
Theorem Stop_Continue_protocol job ns job' :
  (keeps_failing StopErrorHandler job ns job' ↔
     ns = [] ∧ job' = set_Status job JobFailed) ∧
  (∀ n job'', ¬ next_run n (Stop_Handle job) job'') ∧
  (keeps_failing ContinueErrorHandler job ns job' →
     Forall (eq 0%nat) ns ∧ Status job' = JobGood).
Proof.
  assert (Hs : Status (Stop_Handle job) = JobFailed) by (by destruct job).
  split; [by apply keeps_failing_stopped|]. split; [by apply never_runs_failed|].
  intros H. clear Hs. remember ContinueErrorHandler as h eqn:Hh.
  induction H as [job|job n job1 ns job2 Hnext _ IH]; subst h.
  - split; [done|]. by destruct job.
  - destruct IH as [Hns Hg]. split; [|done].
    constructor; [|done].
    assert (Hgood : Status (Handle ContinueErrorHandler job) = JobGood) by (by destruct job).
    by destruct (next_run_unique _ _ _ _ _ Hnext (next_run_good _ Hgood)).
Qed.

(** [GetErrorHandler] accepts exactly the names the handlers print as, and
    gives the handler of that name back. *)
Theorem GetErrorHandler_correct name h :
  GetErrorHandler name = Ret h ↔ name = ErrorHandler_String h.
Proof.
  unfold GetErrorHandler. split.
  - repeat case_bool_decide; intros; by simplify_eq.
  - intros ->. by destruct h.
Qed.
