(* ===== verification/Heap.v ===== *)
(** * Binary heaps (Go's [container/heap])

    The scheduler's queue is kept by the standard library's heap functions;
    they are written out here over any list and any comparison that may panic,
    as the loops they are, with fuel.  The theorems: on a list whose elements
    can be compared by a key, [Push] and [Pop] return, keep the heap order, add
    or remove exactly one element, and [Pop] takes an element with the least
    key. *)

From S2P Require Import Prelude.

Open Scope list_scope.

Section Ops.
Context {A : Type} (Less : list A → nat → nat → outcome bool).

Definition Swap (q : list A) (i j : nat) : outcome (list A) :=
  x ← at_index q i;
  y ← at_index q j;
  Ret (<[j := x]> (<[i := y]> q)).

Fixpoint up (fuel : nat) (q : list A) (j : nat) : outcome (list A) :=
  match fuel with
  | O => Running
  | S fuel =>
     let i := Nat.div2 (j - 1) in (* parent *)
     if bool_decide (i = j) then Ret q
     else
       lt ← Less q j i;
       if lt : bool then
         q ← Swap q i j;
         up fuel q i
       else Ret q
  end.

Fixpoint down (fuel : nat) (q : list A) (i n : nat) : outcome (list A) :=
  match fuel with
  | O => Running
  | S fuel =>
     let j1 := 2 * i + 1 in
     if bool_decide (n ≤ j1) then Ret q
     else
       let j2 := j1 + 1 in
       right_less ← (if bool_decide (j2 < n) then Less q j2 j1 else Ret false);
       let j := if right_less : bool then j2 else j1 in
       lt ← Less q j i;
       if lt : bool then
         q ← Swap q i j;
         down fuel q j n
       else Ret q
  end.

Fixpoint init_loop (i : nat) (q : list A) (n : nat) : outcome (list A) :=
  match i with
  | O => Ret q
  | S i => q ← down (S n) q i n; init_loop i q n
  end.

Definition Init (q : list A) : outcome (list A) :=
  let n := length q in init_loop (Nat.div2 n) q n.

Definition Push (q : list A) (x : A) : outcome (list A) :=
  let q := q ++ [x] in up (S (length q)) q (length q - 1).

(** The element removed is the last one after the swap. *)
Definition Pop (q : list A) : outcome (A * list A) :=
  let n := length q - 1 in
  q ← Swap q 0 n;
  q ← down (S n) q 0 n;
  x ← at_index q n;
  Ret (x, take n q).

End Ops.

(** ** Correctness *)

Definition parent (j : nat) : nat := Nat.div2 (j - 1).

Lemma parent_lt j : 0 < j → parent j < j.
Proof. intros. unfold parent. rewrite Nat.div2_div. pose proof (Nat.div_mod_eq (j - 1) 2). lia. Qed.

Lemma parent_children j i : 0 < j → parent j = i ↔ j = 2 * i + 1 ∨ j = 2 * i + 2.
Proof.
  intros. unfold parent. rewrite Nat.div2_div.
  pose proof (Nat.div_mod_eq (j - 1) 2). pose proof (Nat.mod_upper_bound (j - 1) 2). lia.
Qed.

Section Correct.
Context {A : Type} (Less : list A → nat → nat → outcome bool).
Context (key : A → Z) (ok : A → Prop).
(** Comparing elements that have a key compares their keys. *)
Context (Less_key : ∀ (q : list A) (i j : nat) (x y : A), Forall ok q → q !! i = Some x → q !! j = Some y →
           Less q i j = Ret (key x <? key y)%Z).

Definition key_at (q : list A) (i : nat) : Z := match q !! i with Some x => key x | None => 0%Z end.

(** The heap order between every element of the first [n] and its parent. *)
Definition heap (q : list A) (n : nat) : Prop :=
  ∀ j, 0 < j < n → (key_at q (parent j) ≤ key_at q j)%Z.

Definition swapped (i j k : nat) : nat :=
  if decide (k = i) then j else if decide (k = j) then i else k.

Lemma Swap_spec (q : list A) i j :
  i < length q → j < length q →
  ∃ q' : list A, Swap q i j = Ret q' ∧ q' ≡ₚ q ∧ length q' = length q ∧
        ∀ k : nat, q' !! k = q !! swapped i j k.
Proof.
  intros Hi Hj.
  destruct (lookup_lt_is_Some_2 q i Hi) as [x Hx].
  destruct (lookup_lt_is_Some_2 q j Hj) as [y Hy].
  exists (<[j := x]> (<[i := y]> q)). unfold Swap, at_index. rewrite Hx, Hy. simpl.
  split; [done|]. split; [by apply Permutation_insert_swap|].
  split; [by rewrite !length_insert|]. intros k. unfold swapped.
  destruct (decide (k = i)) as [->|Hki]; [destruct (decide (i = j)) as [->|Hij]|].
  - rewrite list_lookup_insert_eq by (by rewrite length_insert). by simplify_eq.
  - rewrite list_lookup_insert_ne by done. by rewrite list_lookup_insert_eq.
  - destruct (decide (k = j)) as [->|Hkj].
    + by rewrite list_lookup_insert_eq by (by rewrite length_insert).
    + by rewrite !list_lookup_insert_ne.
Qed.

Lemma Less_at q i j :
  Forall ok q → i < length q → j < length q → Less q i j = Ret (key_at q i <? key_at q j)%Z.
Proof.
  intros Hok Hi Hj. unfold key_at.
  destruct (lookup_lt_is_Some_2 q i Hi) as [x Hx]. destruct (lookup_lt_is_Some_2 q j Hj) as [y Hy].
  rewrite (Less_key q i j x y) by done. by rewrite Hx, Hy.
Qed.

Lemma key_at_swap (q q' : list A) i j k :
  (∀ k, q' !! k = q !! swapped i j k) → key_at q' k = key_at q (swapped i j k).
Proof. intros H. unfold key_at. by rewrite H. Qed.

(** The order holds except between [j] and its parent, and would hold if the
    children of [j] were attached to its parent. *)
Definition heap_but_up (q : list A) (n j : nat) : Prop :=
  (∀ k, 0 < k < n → k ≠ j → (key_at q (parent k) ≤ key_at q k)%Z) ∧
  (∀ k, 0 < k < n → parent k = j → 0 < j → (key_at q (parent j) ≤ key_at q k)%Z).

(** The same for the order between [i] and its children. *)
Definition heap_but_down (q : list A) (n i : nat) : Prop :=
  (∀ k, 0 < k < n → parent k ≠ i → (key_at q (parent k) ≤ key_at q k)%Z) ∧
  (∀ k, 0 < k < n → parent k = i → 0 < i → (key_at q (parent i) ≤ key_at q k)%Z).

Lemma heap_up_step (q q' : list A) n j :
  j < n → 0 < j → (∀ k, q' !! k = q !! swapped (parent j) j k) →
  (key_at q j < key_at q (parent j))%Z → heap_but_up q n j → heap_but_up q' n (parent j).
Proof.
  intros Hjn Hj Hsw Hlt [H1 H2]. pose proof (parent_lt j Hj) as Hp.
  split; intros k Hk Hkp; [|intros Hpp; pose proof (parent_lt (parent j) Hpp)];
    rewrite !(key_at_swap q q' _ _ _ Hsw); unfold swapped; pose proof (parent_lt k).
  - destruct (decide (k = j)) as [->|Hkj].
    { rewrite !decide_True, decide_False by (done || lia). lia. }
    rewrite (decide_False (P:=k = parent j)) by done.
    destruct (decide (parent k = parent j)) as [E|E].
    { specialize (H1 k Hk Hkj). rewrite E in H1. lia. }
    destruct (decide (parent k = j)) as [E'|E']; [by apply H2|by apply H1].
  - rewrite !(decide_False (P:=parent (parent j) = _)) by lia.
    assert (key_at q (parent (parent j)) ≤ key_at q (parent j))%Z by (apply H1; lia).
    repeat case_decide; subst; try lia.
    + specialize (H1 k Hk ltac:(done)). rewrite Hkp in H1. lia.
Qed.

Lemma up_spec fuel q j :
  j < fuel → j < length q → Forall ok q → heap_but_up q (length q) j →
  ∃ q' : list A, up Less fuel q j = Ret q' ∧ q' ≡ₚ q ∧ heap q' (length q).
Proof.
  revert q j. induction fuel as [|fuel IH]; intros q j Hf Hj Hok Hheap; [lia|].
  cbn [up]. fold (parent j). case_bool_decide as Hroot.
  - exists q. split; [done|]. split; [done|]. intros k Hk. apply Hheap; [done|].
    intros ->. pose proof (parent_lt j). lia.
  - assert (0 < j) as Hpos by (destruct j; [done|lia]).
    pose proof (parent_lt j Hpos). rewrite Less_at by (done || lia). cbn [mbind outcome_bind].
    destruct (Z.ltb_spec (key_at q j) (key_at q (parent j))) as [Hlt|Hge].
    + destruct (Swap_spec q (parent j) j) as (q' & -> & Hperm & Hlen & Hsw); [lia|done|].
      cbn [mbind outcome_bind]. destruct (IH q' (parent j)) as (r & Hr & Hpr & Hh).
      * lia.
      * lia.
      * by rewrite Hperm.
      * rewrite Hlen. by apply heap_up_step with q.
      * exists r. rewrite Hlen in Hh. split; [done|]. split; [by rewrite Hpr|done].
    + exists q. split; [done|]. split; [done|]. intros k Hk.
      destruct (decide (k = j)) as [->|]; [done|by apply Hheap].
Qed.

Lemma heap_down_step (q q' : list A) n i j :
  0 < j < n → parent j = i → (∀ k, q' !! k = q !! swapped i j k) →
  (key_at q j < key_at q i)%Z →
  (∀ k, 0 < k < n → parent k = i → (key_at q j ≤ key_at q k)%Z) →
  heap_but_down q n i → heap_but_down q' n j.
Proof.
  intros Hj Hpj Hsw Hlt Hmin [H1 H2]. pose proof (parent_lt j) as Hp.
  split; intros k Hk Hkp; [|intros _]; rewrite !(key_at_swap q q' _ _ _ Hsw);
    unfold swapped; pose proof (parent_lt k).
  - rewrite (decide_False (P:=parent k = j)) by done.
    destruct (decide (parent k = i)) as [E|E].
    + destruct (decide (k = i)); [lia|]. destruct (decide (k = j)); [lia|by apply Hmin].
    + destruct (decide (k = i)) as [->|]; [by apply H2; lia|].
      destruct (decide (k = j)) as [->|]; [done|by apply H1].
  - rewrite (decide_True (P:=parent j = i)) by done.
    rewrite !decide_False by lia.
    assert (key_at q (parent k) ≤ key_at q k)%Z by (apply H1; [done|lia]). by rewrite Hkp in *.
Qed.

Lemma down_spec fuel q i n :
  n - i < fuel → n ≤ length q → Forall ok q → heap_but_down q n i →
  ∃ q' : list A, down Less fuel q i n = Ret q' ∧ q' ≡ₚ q ∧ heap q' n ∧ ∀ k, n ≤ k → q' !! k = q !! k.
Proof.
  revert q i. induction fuel as [|fuel IH]; intros q i Hf Hn Hok Hheap; [lia|].
  cbn [down]. case_bool_decide as Hleaf.
  { exists q. split; [done|]. split; [done|]. split; [|done]. intros k Hk. apply Hheap; [done|].
    rewrite parent_children by lia. lia. }
  assert (Hright : (if bool_decide (2 * i + 1 + 1 < n) then Less q (2 * i + 1 + 1) (2 * i + 1)
                    else Ret false) =
    Ret (bool_decide (2 * i + 1 + 1 < n ∧
           (key_at q (2 * i + 1 + 1) < key_at q (2 * i + 1))%Z))).
  { case_bool_decide as H2; [|rewrite bool_decide_false; tauto].
    rewrite Less_at by (done || lia). f_equal. apply eq_true_iff_eq.
    rewrite bool_decide_eq_true, Z.ltb_lt. tauto. }
  rewrite Hright. cbn [mbind outcome_bind]. clear Hright.
  set (j := if bool_decide _ then 2 * i + 1 + 1 else 2 * i + 1).
  assert (Hj : 0 < j < n ∧ parent j = i ∧
    ∀ k, 0 < k < n → parent k = i → (key_at q j ≤ key_at q k)%Z).
  { subst j. case_bool_decide as Hb; (split; [lia|]); (split; [apply parent_children; lia|]);
      intros k Hk Hpk; apply parent_children in Hpk as [->| ->]; try lia;
      replace (2 * i + 2) with (2 * i + 1 + 1) in * by lia; lia. }
  destruct Hj as (Hjn & Hpj & Hmin). pose proof (parent_lt j).
  rewrite Less_at by (done || lia). cbn [mbind outcome_bind].
  destruct (Z.ltb_spec (key_at q j) (key_at q i)) as [Hlt|Hge].
  - destruct (Swap_spec q i j) as (q' & -> & Hperm & Hlen & Hsw); [lia..|].
    cbn [mbind outcome_bind]. destruct (IH q' j) as (r & Hr & Hpr & Hh & Hrest).
    + lia.
    + lia.
    + by rewrite Hperm.
    + by apply heap_down_step with q i.
    + exists r. split; [done|]. split; [by rewrite Hpr|]. split; [done|].
      intros k Hk. rewrite Hrest, Hsw by done. unfold swapped. by rewrite !decide_False by lia.
  - exists q. split; [done|]. split; [done|]. split; [|done]. intros k Hk.
    destruct (decide (parent k = i)) as [E|]; [|by apply Hheap].
    rewrite E. specialize (Hmin k Hk E). lia.
Qed.

Lemma heap_root q n k : heap q n → k < n → (key_at q 0 ≤ key_at q k)%Z.
Proof.
  intros Hh. induction k as [k IH] using lt_wf_ind. intros Hk.
  destruct (decide (k = 0)) as [->|]; [done|].
  pose proof (parent_lt k). specialize (Hh k). specialize (IH (parent k)). lia.
Qed.

Lemma Push_spec q x :
  Forall ok (x :: q) → heap q (length q) →
  ∃ q', Push Less q x = Ret q' ∧ q' ≡ₚ x :: q ∧ heap q' (length q').
Proof.
  intros [Hx Hq]%Forall_cons Hh. unfold Push.
  destruct (up_spec (S (length (q ++ [x]))) (q ++ [x]) (length (q ++ [x]) - 1))
    as (q' & -> & Hp & Hh').
  - lia.
  - rewrite length_app. simpl. lia.
  - apply Forall_app. auto.
  - rewrite length_app. simpl. replace (length q + 1 - 1) with (length q) by lia.
    split; intros k Hk Hkj.
    + pose proof (parent_lt k). unfold key_at. rewrite !lookup_app_l by lia. apply Hh. lia.
    + pose proof (parent_lt k). lia.
  - exists q'. split; [done|]. rewrite (Permutation_length Hp).
    split; [|done]. rewrite Hp. by rewrite Permutation_app_comm.
Qed.

Lemma Pop_spec q :
  q ≠ [] → Forall ok q → heap q (length q) →
  ∃ x q', Pop Less q = Ret (x, q') ∧ q ≡ₚ x :: q' ∧ heap q' (length q') ∧
          Forall (λ y, key x ≤ key y)%Z q'.
Proof.
  intros Hne Hok Hh. unfold Pop. set (n := length q - 1).
  assert (Hlen : length q = S n) by (destruct q; [done|simpl in *; lia]).
  destruct (Swap_spec q 0 n) as (q1 & -> & Hp1 & Hl1 & Hsw); [lia..|]. cbn [mbind outcome_bind].
  destruct (down_spec (S n) q1 0 n) as (q2 & -> & Hp2 & Hh2 & Hrest).
  - lia.
  - lia.
  - by rewrite Hp1.
  - split; [|lia]. intros k Hk Hpk. pose proof (parent_lt k).
    rewrite !(key_at_swap q q1 _ _ _ Hsw). unfold swapped.
    rewrite !decide_False by lia. apply Hh. lia.
  - cbn [mbind outcome_bind].
    destruct (lookup_lt_is_Some_2 q 0) as [x Hx]; [lia|].
    assert (Hx2 : q2 !! n = Some x).
    { rewrite Hrest, Hsw by done. unfold swapped.
      destruct (decide (n = 0)) as [->|]; [done|by rewrite decide_True]. }
    unfold at_index. rewrite Hx2. cbn [mbind outcome_bind].
    exists x, (take n q2). split; [done|].
    assert (Hq2 : q2 = take n q2 ++ [x]).
    { rewrite <- (take_drop n q2) at 1. f_equal.
      rewrite (drop_S q2 x n Hx2), drop_ge; [done|].
      rewrite (Permutation_length Hp2), Hl1. lia. }
    assert (Hperm : q ≡ₚ x :: take n q2).
    { rewrite <- Hp1, <- Hp2, Hq2 at 1. by rewrite Permutation_app_comm. }
    split; [done|]. split.
    + intros k Hk. rewrite length_take in Hk. pose proof (parent_lt k).
      unfold key_at. rewrite !lookup_take_lt by lia. apply Hh2. lia.
    + apply Forall_forall. intros y Hy.
      assert (y ∈ q) as [k Hk]%list_elem_of_lookup_1 by (rewrite Hperm; set_solver).
      pose proof (heap_root q (length q) k Hh) as Hr.
      unfold key_at in Hr. rewrite Hx, Hk in Hr. apply Hr. by eapply lookup_lt_Some.
Qed.

End Correct.
