(* ===== verification/JobQueue.v ===== *)
(** * The scheduler's queue ([jobberrunner/queue.go])

    [nextRunTime] looks for the next second that satisfies a job's schedule;
    [JobQueue] keeps the jobs that have one in a heap and hands them out when
    their time has come.  Jobs are shared by pointer with the rest of the
    runner, so the queue holds the names of jobs that live in a store.

    The specification is a relation [serves] on the store alone: it always
    serves a job with the earliest next run time, never early, schedules it
    anew and applies [ShouldRun].  [Pop] refines it. *)

From S2P Require Import Prelude GoStrings SemVer Calendar TimeSpec Job Heap.

Open Scope Z_scope.
Open Scope bytes_scope.
Open Scope list_scope.

(** ** The next run time *)

Definition year : Duration := Hour_ * 24 * 365.
Definition horizon : Duration := 2 * year.

Definition next_step `{Location} (spec : FullTimeSpec) (max next : Time)
    : Time + outcome (option Time) :=
  if Before next max then
    match FullSatisfied spec next with
    | Ret true => inr (Ret (Some next))
    | Ret false => inl (Add next Second_)
    | Fail e => inr (Fail e)
    | Panic msg => inr (Panic msg)
    | Running => inr Running
    end
  else inr (Ret None).

(** One iteration per second of the horizon, and one to see that it is over. *)
Definition horizon_seconds : positive := 63072001.

Definition nextRunTime `{Location} (job : Job) (now : Time) : outcome (option Time) :=
  let max := Add now (2 * year) in
  match iter_until horizon_seconds (next_step (JobTimeSpec job) max) now with
  | inr r => r
  | inl _ => Running
  end.

(** ** The queue *)

(** What a sleeping [Pop] sees next: its timer has fired, with the time it
    delivers, or the context has been cancelled. *)
Inductive wakeup := Fired (now : Time) | Cancelled.

Record QState := mkQState {
  q : list bytes;
  jobs : gmap bytes Job;
  wakeups : list wakeup
}.

Definition next_time (jobs : gmap bytes Job) (name : bytes) : outcome Time :=
  match jobs !! name with
  | Some job => match NextRunTime job with Some t => Ret t | None => Panic nil_dereference end
  | None => Panic nil_dereference
  end.

(** [jobQueueImpl.Less] *)
Definition Less (jobs : gmap bytes Job) (q : list bytes) (i j : nat) : outcome bool :=
  x ← at_index q i;
  t ← next_time jobs x;
  y ← at_index q j;
  u ← next_time jobs y;
  Ret (Before t u).

Definition set_q (st : QState) (q : list bytes) : QState := mkQState q (jobs st) (wakeups st).
Definition set_job (st : QState) (name : bytes) (job : Job) : QState :=
  mkQState (q st) (<[name := job]> (jobs st)) (wakeups st).

Definition heap_Push (name : bytes) : stM QState unit := λ st,
  match Push (Less (jobs st)) (q st) name with
  | Ret q' => (Ret tt, set_q st q')
  | Fail e => (Fail e, st)
  | Panic msg => (Panic msg, st)
  | Running => (Running, st)
  end.

Definition heap_Pop : stM QState bytes := λ st,
  match Pop (Less (jobs st)) (q st) with
  | Ret (x, q') => (Ret x, set_q st q')
  | Fail e => (Fail e, st)
  | Panic msg => (Panic msg, st)
  | Running => (Running, st)
  end.

(** [*name], a job of the store. *)
Definition deref (name : bytes) : stM QState Job := λ st,
  match jobs st !! name with
  | Some job => (Ret job, st)
  | None => (Panic nil_dereference, st)
  end.

Definition update (name : bytes) (job : Job) : stM QState unit :=
  modifyS (λ st, set_job st name job).

(** [job.NextRunTime = nextRunTime(job, from)], then push the job if it has one. *)
Definition reschedule `{Location} (name : bytes) (from : Time) : stM QState unit :=
  job ← deref name;
  next ← liftS (nextRunTime job from);
  update name (set_NextRunTime job next);;
  match next with
  | Some _ => heap_Push name
  | None => mret tt
  end.

(** [order] is the order in which [range jobs] yields the keys of the map. *)
Definition SetJobs `{Location} (now : Time) (order : list bytes) : stM QState unit :=
  modifyS (λ st, set_q st []);;
  q ← (λ st, (Init (Less (jobs st)) (q st), st));
  modifyS (λ st, set_q st q);;
  foldr (λ name rest, reschedule name now;; rest) (mret tt) order.

Definition Empty (st : QState) : bool := bool_decide (q st = []).

(** [<-ctx.Done()] *)
Fixpoint wait_cancelled (ws : list wakeup) : option (list wakeup) :=
  match ws with
  | [] => None
  | Cancelled :: ws => Some ws
  | Fired _ :: ws => wait_cancelled ws
  end.

(** The loop that sleeps till [t]: the time at which it ends, [None] when it was
    aborted, and what is still to come.  No more wake-ups means still asleep. *)
Fixpoint sleep_till (t now : Time) (ws : list wakeup) : outcome (option Time * list wakeup) :=
  if UnixNano now <? UnixNano t then
    match ws with
    | [] => Running
    | Fired now :: ws => sleep_till t now ws
    | Cancelled :: ws => Ret (None, ws)
    end
  else Ret (Some now, ws).

Definition sleep (t now : Time) : stM QState (option Time) := λ st,
  match sleep_till t now (wakeups st) with
  | Ret (r, ws) => (Ret r, mkQState (q st) (jobs st) ws)
  | Fail e => (Fail e, st)
  | Panic msg => (Panic msg, st)
  | Running => (Running, st)
  end.

(** [JobQueue.Pop]; its tail call for a skipped job is the recursion. *)
Fixpoint JobQueue_Pop `{Location} (fuel : nat) (now : Time) : stM QState (option bytes) :=
  match fuel with
  | O => λ st, (Running, st)
  | S fuel =>
     st ← getS;
     if Empty st then
       match wait_cancelled (wakeups st) with
       | Some ws => putS (mkQState (q st) (jobs st) ws);; mret None
       | None => λ st, (Running, st)
       end
     else
       name ← heap_Pop;
       job ← deref name;
       t ← liftS (match NextRunTime job with Some t => Ret t | None => Panic nil_dereference end);
       woken ← sleep t now;
       match woken with
       | None => heap_Push name;; mret None
       | Some now =>
          reschedule name (Add now Second_);;
          job ← deref name;
          let '(run, job) := ShouldRun job in
          update name job;;
          if run : bool then mret (Some name) else JobQueue_Pop fuel now
       end
  end.

(** ** Specification *)

(** The next run time of a job of the store, if it has one. *)
Definition pending (jobs : gmap bytes Job) (name : bytes) : option Time :=
  job ← jobs !! name; NextRunTime job.

Definition earliest (jobs : gmap bytes Job) (name : bytes) (t : Time) : Prop :=
  pending jobs name = Some t ∧ ∀ other u, pending jobs other = Some u → t ≤ u.

(** [serves jobs now ws r jobs' ws']: asked at [now] for the next job, with the
    wake-ups [ws] to come, the scheduler answers [r]. *)
Inductive serves `{Location} : gmap bytes Job → Time → list wakeup →
    option bytes → gmap bytes Job → list wakeup → Prop :=
| serves_idle jobs now ws ws' :
    (∀ name, pending jobs name = None) → wait_cancelled ws = Some ws' →
    serves jobs now ws None jobs ws'
| serves_aborted jobs now ws name t ws' :
    earliest jobs name t → sleep_till t now ws = Ret (None, ws') →
    serves jobs now ws None jobs ws'
| serves_run jobs now ws name t job now' ws' next job' :
    earliest jobs name t → jobs !! name = Some job →
    sleep_till t now ws = Ret (Some now', ws') →
    nextRunTime job (Add now' Second_) = Ret next →
    ShouldRun (set_NextRunTime job next) = (true, job') →
    serves jobs now ws (Some name) (<[name := job']> jobs) ws'
| serves_skip jobs now ws name t job now' ws' next job' r jobs' ws'' :
    earliest jobs name t → jobs !! name = Some job →
    sleep_till t now ws = Ret (Some now', ws') →
    nextRunTime job (Add now' Second_) = Ret next →
    ShouldRun (set_NextRunTime job next) = (false, job') →
    serves (<[name := job']> jobs) now' ws' r jobs' ws'' →
    serves jobs now ws r jobs' ws''.

(** *** Invariants *)

Definition key (jobs : gmap bytes Job) (name : bytes) : Z := default 0 (pending jobs name).

(** The heap is in order and all its jobs have a next run time. *)
Definition heap_ok (st : QState) : Prop :=
  NoDup (q st) ∧ Forall (λ name, is_Some (pending (jobs st) name)) (q st) ∧
  heap (key (jobs st)) (q st) (length (q st)).

Definition schedules_ok (jobs : gmap bytes Job) : Prop :=
  map_Forall (λ _ job, fully_derandomized (JobTimeSpec job)) jobs.

(** Moreover, every job with a next run time is in the heap. *)
Definition queue_ok (st : QState) : Prop :=
  heap_ok st ∧ (∀ name, is_Some (pending (jobs st) name) → name ∈ q st) ∧
  schedules_ok (jobs st).

(** ** Lemmas: the next run time *)

Lemma next_step_next `{Location} spec max x y :
  next_step spec max x = inl y → y = x + Second_.
Proof.
  unfold next_step. destruct (Before x max); [|done].
  destruct (FullSatisfied spec x) as [[]| | |]; by intros [= <-].
Qed.

Lemma iter_seconds now i :
  Nat.iter i (λ x, x + Second_) now = now + Z.of_nat i * Second_.
Proof. induction i as [|i IH]; [simpl; lia|]. rewrite Nat.iter_succ, IH. lia. Qed.

Lemma next_step_spec `{Location} spec max x :
  fully_derandomized spec →
  match next_step spec max x with
  | inl y => y = x + Second_ ∧ x < max ∧ ¬ scheduled spec x
  | inr (Ret (Some t)) => t = x ∧ x < max ∧ scheduled spec x
  | inr (Ret None) => max ≤ x
  | _ => False
  end.
Proof.
  intros Hd. unfold next_step, Before, Add.
  destruct (Z.ltb_spec x max); [|done].
  destruct (FullSatisfied_spec spec x Hd) as ([] & -> & Hb); naive_solver.
Qed.

Lemma nextRunTime_spec `{Location} job now :
  fully_derandomized (JobTimeSpec job) →
  ∃ r, nextRunTime job now = Ret r ∧
  match r with
  | Some t => ∃ i : nat, t = now + Z.of_nat i * Second_ ∧ t < now + horizon ∧
      scheduled (JobTimeSpec job) t ∧
      ∀ j : nat, (j < i)%nat → ¬ scheduled (JobTimeSpec job) (now + Z.of_nat j * Second_)
  | None => ∀ j : nat, now + Z.of_nat j * Second_ < now + horizon →
      ¬ scheduled (JobTimeSpec job) (now + Z.of_nat j * Second_)
  end.
Proof.
  intros Hd. unfold nextRunTime. rewrite iter_until_nat. fold horizon.
  set (max := Add now horizon). set (n := Pos.to_nat horizon_seconds).
  assert (Hn : Z.of_nat n = 63072001) by (subst n; by rewrite positive_nat_Z).
  assert (Hmax : max = now + 63072000 * Second_) by (unfold max, Add; f_equal).
  clearbody n max. pose proof (next_step_next (JobTimeSpec job) max) as Hnext.
  assert (Hspec : ∀ i, _) by (intros i; apply (next_step_spec (JobTimeSpec job) max
    (now + Z.of_nat i * Second_) Hd)).
  assert (Hno : ∀ i, (∃ y, next_step (JobTimeSpec job) max (now + Z.of_nat i * Second_) = inl y) →
    now + Z.of_nat i * Second_ < max ∧ ¬ scheduled (JobTimeSpec job) (now + Z.of_nat i * Second_)).
  { intros i [y Hy]. specialize (Hspec i). rewrite Hy in Hspec. tauto. }
  replace (now + horizon) with max by (rewrite Hmax; f_equal).
  destruct (iter_nat n _ now) as [x|r] eqn:E.
  - apply (iter_nat_inl _ _ (λ x, x + Second_)) in E as [_ E]; [|done].
    specialize (E (Z.to_nat 63072000)). rewrite iter_seconds in E.
    destruct (Hno (Z.to_nat 63072000)) as [Hlt _]; [apply E; lia|].
    rewrite Z2Nat.id in Hlt by lia. lia.
  - apply (iter_nat_inr _ _ (λ x, x + Second_)) in E as (k & Hk & Hr & Hbefore); [|done].
    rewrite iter_seconds in Hr. specialize (Hspec k). rewrite Hr in Hspec.
    assert (Hj : ∀ j : nat, (j < k)%nat → ¬ scheduled (JobTimeSpec job) (now + Z.of_nat j * Second_)).
    { intros j Hjk. apply Hno. rewrite <- iter_seconds. by apply Hbefore. }
    destruct r as [[t|]| | |]; try done.
    + exists (Some t). split; [done|]. exists k. destruct Hspec as (-> & Hlt & Hs). done.
    + exists None. split; [done|]. intros j Hjm. apply Hj. unfold Second_ in *. lia.
Qed.

(** ** Lemmas: the heap of jobs *)

Lemma Less_key jobs q i j x y :
  Forall (λ name, is_Some (pending jobs name)) q → q !! i = Some x → q !! j = Some y →
  Less jobs q i j = Ret (key jobs x <? key jobs y).
Proof.
  intros Hall Hx Hy. unfold Less, at_index, next_time, key, pending. rewrite Hx, Hy. simpl.
  rewrite Forall_forall in Hall.
  destruct (Hall x) as [t Ht]; [by eapply list_elem_of_lookup_2|].
  destruct (Hall y) as [u Hu]; [by eapply list_elem_of_lookup_2|].
  unfold pending in *.
  destruct (jobs !! x) as [jx|], (jobs !! y) as [jy|]; simplify_eq/=.
  by rewrite Ht, Hu.
Qed.

(** Only the keys of the elements of the heap matter. *)
Lemma heap_ext jobs jobs' q n :
  Forall (λ name, pending jobs' name = pending jobs name) q →
  heap (key jobs) q n → heap (key jobs') q n.
Proof.
  intros Hall Hh j Hj. specialize (Hh j Hj). unfold key_at in *.
  assert (He : ∀ i, match q !! i with Some x => key jobs' x | None => 0 end =
                    match q !! i with Some x => key jobs x | None => 0 end).
  { intros i. destruct (q !! i) as [x|] eqn:Hx; [|done]. unfold key.
    rewrite Forall_forall in Hall. rewrite Hall; [done|]. by eapply list_elem_of_lookup_2. }
  by rewrite !He.
Qed.

Lemma heap_ok_ext st jobs' ws :
  Forall (λ name, pending jobs' name = pending (jobs st) name) (q st) →
  heap_ok st → heap_ok (mkQState (q st) jobs' ws).
Proof.
  intros Hall (Hnd & Hp & Hh). split; [done|]. split; simpl.
  - rewrite Forall_forall in *. intros x Hx. rewrite Hall; auto.
  - by apply heap_ext with (jobs st).
Qed.

Lemma pending_insert jobs name job other :
  pending (<[name := job]> jobs) other =
  if decide (other = name) then NextRunTime job else pending jobs other.
Proof.
  unfold pending. destruct (decide (other = name)) as [->|].
  - by rewrite lookup_insert_eq.
  - by rewrite lookup_insert_ne.
Qed.

Lemma heap_ok_insert st name job :
  name ∉ q st → heap_ok st → heap_ok (set_job st name job).
Proof.
  intros Hnin Hok. apply heap_ok_ext; [|done].
  apply Forall_forall. intros x Hx. rewrite pending_insert, decide_False; [done|].
  by intros ->.
Qed.

Lemma heap_Push_spec st name :
  name ∉ q st → is_Some (pending (jobs st) name) → heap_ok st →
  ∃ q', heap_Push name st = (Ret tt, set_q st q') ∧ q' ≡ₚ name :: q st ∧ heap_ok (set_q st q').
Proof.
  intros Hnin Hp (Hnd & Hall & Hh). unfold heap_Push.
  destruct (Push_spec (Less (jobs st)) (key (jobs st)) _ (Less_key (jobs st)) (q st) name)
    as (q' & -> & Hperm & Hh'); [by constructor|done|].
  exists q'. split; [done|]. split; [done|]. split; simpl.
  - rewrite Hperm. by constructor.
  - split; [rewrite Hperm; by constructor|done].
Qed.

Lemma heap_Pop_spec st :
  q st ≠ [] → heap_ok st →
  ∃ name q', heap_Pop st = (Ret name, set_q st q') ∧ q st ≡ₚ name :: q' ∧
    name ∉ q' ∧ heap_ok (set_q st q') ∧
    Forall (λ other, key (jobs st) name ≤ key (jobs st) other) q'.
Proof.
  intros Hne (Hnd & Hall & Hh). unfold heap_Pop.
  destruct (Pop_spec (Less (jobs st)) (key (jobs st)) _ (Less_key (jobs st)) (q st))
    as (name & q' & -> & Hperm & Hh' & Hmin); [done..|].
  exists name, q'. rewrite Hperm in Hnd. apply NoDup_cons in Hnd as [Hnin Hnd].
  rewrite Hperm in Hall. apply Forall_cons in Hall as [_ Hall]. by repeat split.
Qed.

Lemma reschedule_spec `{Location} st name job from :
  jobs st !! name = Some job → fully_derandomized (JobTimeSpec job) → name ∉ q st → heap_ok st →
  ∃ next q', nextRunTime job from = Ret next ∧
    let st' := mkQState q' (<[name := set_NextRunTime job next]> (jobs st)) (wakeups st) in
    reschedule name from st = (Ret tt, st') ∧ heap_ok st' ∧
    q' ≡ₚ match next with Some _ => name :: q st | None => q st end.
Proof.
  intros Hjob Hd Hnin Hok. destruct (nextRunTime_spec job from Hd) as (next & Hnext & _).
  exists next. unfold reschedule. rewrite (stM_bind_Ret _ _ st job st) by (unfold deref; by rewrite Hjob).
  rewrite (stM_bind_Ret _ _ st next st) by (unfold liftS; by rewrite Hnext).
  set (job' := set_NextRunTime job next).
  assert (Hok' : heap_ok (set_job st name job')) by (by apply heap_ok_insert).
  rewrite (stM_bind_Ret _ _ st tt (set_job st name job')) by done.
  destruct next as [t|].
  - destruct (heap_Push_spec (set_job st name job') name) as (q' & -> & Hperm & Hok'').
    + done.
    + simpl. rewrite pending_insert, decide_True by done. subst job'. destruct job. by eexists.
    + done.
    + by exists q'.
  - by exists (q st).
Qed.

(** ** Lemmas: sleeping *)

Lemma sleep_till_spec t now ws :
  match sleep_till t now ws with
  | Ret (Some now', ws') =>
     UnixNano t ≤ UnixNano now' ∧ ∃ fired, ws = map Fired fired ++ ws' ∧
       now' = foldl (λ _ u, u) now fired
  | Ret (None, ws') => ∃ fired, ws = map Fired fired ++ Cancelled :: ws'
  | Running => ∃ fired, ws = map Fired fired
  | _ => False
  end.
Proof.
  revert now. induction ws as [|[now'|] ws IH]; intros now; simpl;
    destruct (Z.ltb_spec (UnixNano now) (UnixNano t)).
  - by exists [].
  - split; [done|]. by exists [].
  - specialize (IH now'). destruct (sleep_till t now' ws) as [[[woken|] ws']| | |]; try done.
    + destruct IH as (Hle & fired & -> & ->). split; [done|]. exists (now' :: fired).
      done.
    + destruct IH as (fired & ->). by exists (now' :: fired).
    + destruct IH as (fired & ->). by exists (now' :: fired).
  - split; [done|]. by exists [].
  - by exists [].
  - split; [done|]. by exists [].
Qed.

(** A single unfolding of [Pop] on a queue that is not empty, once the heap has
    been read. *)
Lemma queue_ok_empty st : queue_ok st → q st = [] → ∀ name, pending (jobs st) name = None.
Proof.
  intros (_ & Hin & _) Hq name. destruct (pending (jobs st) name) eqn:Hp; [|done].
  specialize (Hin name). rewrite Hp, Hq in Hin. set_solver.
Qed.

Lemma key_pending jobs name t : pending jobs name = Some t → key jobs name = t.
Proof. unfold key. by intros ->. Qed.

Lemma heap_Pop_earliest st :
  queue_ok st → q st ≠ [] →
  ∃ name job t q', heap_Pop st = (Ret name, set_q st q') ∧ q st ≡ₚ name :: q' ∧
    jobs st !! name = Some job ∧ NextRunTime job = Some t ∧ earliest (jobs st) name t ∧
    name ∉ q' ∧ heap_ok (set_q st q').
Proof.
  intros (Hok & Hin & _) Hne.
  destruct (heap_Pop_spec st Hne Hok) as (name & q' & Hpop & Hperm & Hnin & Hok' & Hmin).
  assert (Hp : is_Some (pending (jobs st) name)).
  { destruct Hok as (_ & Hall & _). rewrite Forall_forall in Hall. apply Hall.
    rewrite Hperm. set_solver. }
  destruct Hp as [t Ht]. assert (Hj := Ht). unfold pending in Hj.
  destruct (jobs st !! name) as [job|] eqn:Hjob; [|done]. simpl in Hj.
  exists name, job, t, q'. repeat split; try done; [|by apply Hok'..].
  intros other u Hu. assert (Ho : other ∈ q st) by (apply Hin; by rewrite Hu).
  rewrite Hperm in Ho. apply elem_of_cons in Ho as [->|Ho].
  - rewrite Hu in Ht. simplify_eq. lia.
  - rewrite Forall_forall in Hmin. specialize (Hmin other Ho).
    rewrite (key_pending _ _ _ Ht), (key_pending _ _ _ Hu) in Hmin. done.
Qed.

Lemma ShouldRun_NextRunTime job : NextRunTime (ShouldRun job).2 = NextRunTime job.
Proof. unfold ShouldRun. by destruct job as [? ? ? ? ? ? ? ? ? ? ? []]. Qed.

Lemma ShouldRun_TimeSpec job : JobTimeSpec (ShouldRun job).2 = JobTimeSpec job.
Proof. unfold ShouldRun. by destruct job as [? ? ? ? ? ? ? ? ? ? ? []]. Qed.

Lemma ShouldRun_changes job next run job' :
  ShouldRun (set_NextRunTime job next) = (run, job') →
  ∃ skips, job' = set_skipsLeft (set_NextRunTime job next) skips.
Proof.
  unfold ShouldRun. destruct job as [? ? ? ? ? ? ? ? ? k ? [] ? ?]; simpl; intros [= <- <-];
    by eexists.
Qed.

(** The state after a job has been taken from the heap, rescheduled and asked
    whether it should run. *)
Lemma served_queue_ok st name job next q1 q2 :
  queue_ok st → jobs st !! name = Some job → q st ≡ₚ name :: q1 → name ∉ q1 →
  heap_ok (mkQState q2 (<[name := set_NextRunTime job next]> (jobs st)) (wakeups st)) →
  q2 ≡ₚ match next with Some _ => name :: q1 | None => q1 end →
  ∀ ws, queue_ok (mkQState q2
    (<[name := (ShouldRun (set_NextRunTime job next)).2]> (jobs st)) ws).
Proof.
  intros (Hok & Hin & Hsch) Hjob Hperm Hnin Hok2 Hq2 ws.
  set (job' := set_NextRunTime job next) in *.
  assert (Hnext : NextRunTime (ShouldRun job').2 = next)
    by (rewrite ShouldRun_NextRunTime; by destruct job).
  assert (Hsame : ∀ x, pending (<[name := (ShouldRun job').2]> (jobs st)) x =
                       pending (<[name := job']> (jobs st)) x).
  { intros x. rewrite !pending_insert. destruct (decide (x = name)); [|done].
    by rewrite ShouldRun_NextRunTime. }
  split; [|split; simpl].
  - apply (heap_ok_ext (mkQState q2 (<[name := job']> (jobs st)) (wakeups st))); [|done].
    apply Forall_forall. intros x _. by rewrite Hsame.
  - intros x. rewrite pending_insert, Hnext, Hq2. destruct (decide (x = name)) as [->|Hx].
    + intros [t ->]. set_solver.
    + intros Hp. assert (x ∈ q1) by (specialize (Hin x Hp); rewrite Hperm in Hin; set_solver).
      destruct next; set_solver.
  - apply map_Forall_insert_2; [|done]. rewrite ShouldRun_TimeSpec.
    specialize (Hsch name job Hjob). by destruct job.
Qed.

(** One round of [Pop] on a queue that is not empty. *)
Lemma JobQueue_Pop_step `{Location} fuel now st :
  queue_ok st → q st ≠ [] →
  ∃ name t job, earliest (jobs st) name t ∧ jobs st !! name = Some job ∧ name ∈ q st ∧
  match sleep_till t now (wakeups st) with
  | Ret (None, ws') =>
     ∃ q', JobQueue_Pop (S fuel) now st = (Ret None, mkQState q' (jobs st) ws') ∧ 
           q' ≡ₚ q st ∧ queue_ok (mkQState q' (jobs st) ws')
  | Ret (Some now', ws') =>
     ∃ next q', nextRunTime job (Add now' Second_) = Ret next ∧
       let '(run, job') := ShouldRun (set_NextRunTime job next) in
       let st' := mkQState q' (<[name := job']> (jobs st)) ws' in
       (∃ q1, q st ≡ₚ name :: q1 ∧ name ∉ q1 ∧
              q' ≡ₚ match next with Some _ => name :: q1 | None => q1 end) ∧
       queue_ok st' ∧
       JobQueue_Pop (S fuel) now st =
         if run : bool then (Ret (Some name), st') else JobQueue_Pop fuel now' st'
  | _ => (JobQueue_Pop (S fuel) now st).1 = Running
  end.
Proof.
  intros Hok Hne.
  destruct (heap_Pop_earliest st Hok Hne)
    as (name & job & t & q1 & Hpop & Hperm & Hjob & Ht & Hearly & Hnin & Hok1).
  exists name, t, job. split; [done|]. split; [done|]. split; [rewrite Hperm; set_solver|].
  cbn [JobQueue_Pop]. rewrite (stM_bind_Ret getS _ st st st) by done.
  unfold Empty. rewrite bool_decide_false by done.
  rewrite (stM_bind_Ret heap_Pop _ st name (set_q st q1)) by done.
  assert (Hderef : deref name (set_q st q1) = (Ret job, set_q st q1))
    by (unfold deref; simpl; by rewrite Hjob).
  rewrite (stM_bind_Ret _ _ _ _ _ Hderef).
  rewrite (stM_bind_Ret _ _ _ t (set_q st q1)) by (rewrite Ht; done).
  pose proof (sleep_till_spec t now (wakeups st)) as Hsl.
  destruct (sleep_till t now (wakeups st)) as [[[now'|] ws']| | |] eqn:Hsleep; try done.
  - rewrite (stM_bind_Ret _ _ _ (Some now') (mkQState q1 (jobs st) ws'))
      by (unfold sleep; simpl; by rewrite Hsleep).
    destruct (reschedule_spec (mkQState q1 (jobs st) ws') name job (Add now' Second_))
      as (next & q2 & Hnext & Hre & Hok2 & Hq2); [done|by apply (proj2 (proj2 Hok)) in Hjob|done|done|].
    simpl in Hre, Hok2, Hq2. exists next, q2. split; [done|].
    pose proof (served_queue_ok st name job next q1 q2 Hok Hjob Hperm Hnin Hok2 Hq2 ws') as Hok3.
    rewrite (stM_bind_Ret _ _ _ _ _ Hre).
    rewrite (stM_bind_Ret (deref name) _ _ (set_NextRunTime job next)
      (mkQState q2 (<[name := set_NextRunTime job next]> (jobs st)) ws'))
      by (unfold deref; simpl; by rewrite lookup_insert_eq).
    destruct (ShouldRun (set_NextRunTime job next)) as [run job'] eqn:Hrun. simpl in Hok3.
    split; [by exists q1|].
    split; [done|].
    rewrite (stM_bind_Ret (update name job') _ _ tt
      (mkQState q2 (<[name := job']> (jobs st)) ws'))
      by (unfold update, modifyS, set_job; simpl; by rewrite insert_insert_eq).
    by destruct run.
  - rewrite (stM_bind_Ret _ _ _ None (mkQState q1 (jobs st) ws'))
      by (unfold sleep; simpl; by rewrite Hsleep).
    destruct (heap_Push_spec (mkQState q1 (jobs st) ws') name) as (q2 & Hpush & Hp2 & Hok2).
    { done. } { simpl. unfold pending. rewrite Hjob. simpl. by rewrite Ht. } { done. }
    exists q2. rewrite (stM_bind_Ret _ _ _ _ _ Hpush). split; [done|].
    rewrite Hperm. split; [done|]. destruct Hok as (_ & Hin & Hsch).
    split; [done|]. split; [|done]. simpl. intros x Hx%Hin. rewrite Hp2. by rewrite Hperm in Hx.
  - rewrite stM_bind_eq. unfold sleep. simpl. by rewrite Hsleep.
Qed.

Lemma JobQueue_Pop_empty `{Location} fuel now st :
  q st = [] →
  JobQueue_Pop (S fuel) now st =
  match wait_cancelled (wakeups st) with
  | Some ws => (Ret None, mkQState (q st) (jobs st) ws)
  | None => (Running, st)
  end.
Proof.
  intros Hq. cbn [JobQueue_Pop]. rewrite (stM_bind_Ret getS _ st st st) by done.
  unfold Empty. rewrite bool_decide_true by done. by destruct (wait_cancelled (wakeups st)).
Qed.

Lemma JobQueue_Pop_serves `{Location} fuel now st :
  queue_ok st →
  match JobQueue_Pop fuel now st with
  | (Ret r, st') =>
     serves (jobs st) now (wakeups st) r (jobs st') (wakeups st') ∧ queue_ok st'
  | (Running, _) => True
  | _ => False
  end.
Proof.
  revert now st. induction fuel as [|fuel IH]; intros now st Hok; [done|].
  destruct (decide (q st = [])) as [Hq|Hne].
  - rewrite JobQueue_Pop_empty by done.
    destruct (wait_cancelled (wakeups st)) as [ws|] eqn:Hw; [|done]. simpl. split.
    + by apply serves_idle; [apply queue_ok_empty|].
    + destruct Hok as (Hok & Hrest). split; [|done]. apply (heap_ok_ext st); [|done].
      by apply Forall_forall.
  - destruct (JobQueue_Pop_step fuel now st Hok Hne)
      as (name & t & job & Hearly & Hjob & _ & Hstep).
    destruct (sleep_till t now (wakeups st)) as [[[now'|] ws']| | |] eqn:Hsleep.
    + destruct Hstep as (next & q' & Hnext & Hrun).
      destruct (ShouldRun (set_NextRunTime job next)) as [[] job'] eqn:Hs;
        destruct Hrun as (_ & Hok' & ->).
      * split; [by eapply serves_run|done].
      * specialize (IH now' _ Hok').
        destruct (JobQueue_Pop fuel now' _) as [[r| | |] st2]; try done.
        destruct IH as [IH Hok2]. split; [by eapply serves_skip|done].
    + destruct Hstep as (q' & -> & _ & Hok'). split; [by eapply serves_aborted|done].
    + destruct (JobQueue_Pop (S fuel) now st) as [[]?]; simpl in Hstep; done.
    + destruct (JobQueue_Pop (S fuel) now st) as [[]?]; simpl in Hstep; done.
    + destruct (JobQueue_Pop (S fuel) now st) as [[]?]; simpl in Hstep; done.
Qed.

(** *** Termination *)

(** The jobs of the heap whose time has come. *)
Definition due (st : QState) (now : Time) : nat :=
  length (filter (λ name, key (jobs st) name ≤ now) (q st)).

(** Instants for which [UnixNano] is exact, even two years later. *)
Definition sane (t : Time) : Prop := - two63 ≤ t ∧ t + horizon + Second_ < two63.

Definition sane_wakeup (w : wakeup) : Prop :=
  match w with Fired t => sane t | Cancelled => True end.

Definition sane_queue (st : QState) : Prop :=
  Forall sane_wakeup (wakeups st) ∧
  ∀ name t, pending (jobs st) name = Some t → is_int64 t.

Definition pop_fuel (st : QState) (now : Time) : nat :=
  S (length (wakeups st) * S (length (q st)) + due st now).

Lemma UnixNano_id t : is_int64 t → UnixNano t = t.
Proof. apply wrap64_small. Qed.

Lemma sane_int64 t : sane t → is_int64 t.
Proof. unfold sane, is_int64, horizon, year, Hour_, Minute_, Second_. lia. Qed.

Lemma due_le st now : (due st now ≤ length (q st))%nat.
Proof. apply length_filter. Qed.

(** Nobody but the job just served has become due, and it has not. *)
Lemma due_served st st' now name q1 t :
  q st ≡ₚ name :: q1 → name ∉ q1 → (q st' ≡ₚ name :: q1 ∨ q st' ≡ₚ q1) →
  pending (jobs st) name = Some t → t ≤ now → (name ∈ q st' → now < key (jobs st') name) →
  (∀ x, x ≠ name → pending (jobs st') x = pending (jobs st) x) →
  (due st' now < due st now)%nat.
Proof.
  intros Hq Hnin Hq' Hp Ht Hlater Hsame. unfold due.
  assert (E1 : filter (λ x, key (jobs st') x ≤ now) q1 = filter (λ x, key (jobs st) x ≤ now) q1).
  { apply filter_ext_elem. intros x Hx. unfold key. rewrite Hsame; [done|]. by intros ->. }
  rewrite (Permutation_length (filter_Permutation _ _ _ Hq)).
  rewrite filter_cons_True by (by rewrite (key_pending _ _ _ Hp)).
  destruct Hq' as [Hq'|Hq']; rewrite (Permutation_length (filter_Permutation _ _ _ Hq')).
  - rewrite filter_cons_False.
    + rewrite E1. simpl. lia.
    + assert (name ∈ q st') as Hin by (rewrite Hq'; set_solver). specialize (Hlater Hin). lia.
  - rewrite E1. simpl. lia.
Qed.

Lemma nextRunTime_bounds `{Location} job from t :
  fully_derandomized (JobTimeSpec job) → nextRunTime job from = Ret (Some t) →
  from ≤ t < from + horizon.
Proof.
  intros Hd Hn. destruct (nextRunTime_spec job from Hd) as (r & Hr & Hspec).
  rewrite Hn in Hr. simplify_eq. destruct Hspec as (i & -> & ? & _). unfold Second_ in *. lia.
Qed.

(** What a round of sleeping leaves of the wake-ups. *)
Lemma sleep_till_woken t now ws now' ws' :
  sleep_till t now ws = Ret (Some now', ws') → Cancelled ∈ ws → Forall sane_wakeup ws → sane now →
  Cancelled ∈ ws' ∧ Forall sane_wakeup ws' ∧ sane now' ∧ UnixNano t ≤ UnixNano now' ∧
  (ws' = ws ∧ now' = now ∨ (length ws' < length ws)%nat).
Proof.
  intros Hs Hc Hw Hnow. pose proof (sleep_till_spec t now ws) as Hspec. rewrite Hs in Hspec.
  destruct Hspec as (Hle & fired & -> & ->).
  apply Forall_app in Hw as [Hf Hw]. apply elem_of_app in Hc as [Hc|Hc].
  { apply list_elem_of_fmap in Hc as (? & ? & _). done. }
  split; [done|]. split; [done|]. split; [|split; [done|]].
  - clear Hs Hle. revert now Hnow. induction fired as [|u fired IH]; intros now Hnow; [done|].
    simpl. apply Forall_cons in Hf as [Hu Hf]. by apply IH.
  - destruct fired; [by left|right]. rewrite length_app. simpl. lia.
Qed.

Lemma wait_cancelled_Some ws : Cancelled ∈ ws → is_Some (wait_cancelled ws).
Proof.
  induction ws as [|[u|] ws IH]; simpl; [by intros ?%elem_of_nil| |by eexists].
  intros [?|?]%elem_of_cons; [done|auto].
Qed.

Lemma JobQueue_Pop_finishes `{Location} fuel now st :
  queue_ok st → sane_queue st → sane now → Cancelled ∈ wakeups st →
  (pop_fuel st now ≤ fuel)%nat → (JobQueue_Pop fuel now st).1 ≠ Running.
Proof.
  revert now st. induction fuel as [|fuel IH]; intros now st Hok Hst Hnow Hc Hfuel;
    [unfold pop_fuel in Hfuel; lia|].
  destruct (decide (q st = [])) as [Hq|Hne].
  { rewrite JobQueue_Pop_empty by done. by destruct (wait_cancelled_Some _ Hc) as [ws ->]. }
  destruct (JobQueue_Pop_step fuel now st Hok Hne)
    as (name & t & job & Hearly & Hjob & _ & Hstep).
  destruct Hst as [Hws Hpend].
  destruct (sleep_till t now (wakeups st)) as [[[now'|] ws']| | |] eqn:Hsleep.
  - destruct Hstep as (next & q' & Hnext & Hrun).
    destruct (sleep_till_woken _ _ _ _ _ Hsleep Hc Hws Hnow) as (Hc' & Hws' & Hnow' & Hle & Hless).
    pose proof (ShouldRun_NextRunTime (set_NextRunTime job next)) as Hsn.
    destruct (ShouldRun (set_NextRunTime job next)) as [[] job'] eqn:Hs;
      destruct Hrun as ((q1 & Hq1 & Hnin & Hq') & Hok' & ->); [done|].
    assert (Hd : fully_derandomized (JobTimeSpec job)) by (by apply (proj2 (proj2 Hok)) in Hjob).
    simpl in Hsn. replace (NextRunTime (set_NextRunTime job next)) with next in Hsn by (by destruct job).
    assert (Hlater : ∀ u, next = Some u → now' + Second_ ≤ u < now' + Second_ + horizon).
    { intros u ->. by apply (nextRunTime_bounds job). }
    rewrite (UnixNano_id now') in Hle by (by apply sane_int64).
    rewrite (UnixNano_id t) in Hle by (eapply Hpend, Hearly).
    set (st' := mkQState q' (<[name := job']> (jobs st)) ws') in *.
    assert (Hpend' : ∀ x u, pending (jobs st') x = Some u → is_int64 u).
    { intros x u. simpl. rewrite pending_insert, Hsn. destruct (decide (x = name)); [|apply Hpend].
      intros Hu. specialize (Hlater u Hu). assert (0 ≤ Second_) by done. unfold sane, is_int64 in *. lia. }
    apply IH; try done.
    assert (Hlen : (length q' ≤ length (q st))%nat).
    { rewrite (Permutation_length Hq'), (Permutation_length Hq1). destruct next; simpl; lia. }
    assert (Hdue : ws' = wakeups st ∧ now' = now → (due st' now' < due st now)%nat).
    { intros [_ ->]. apply (due_served st st' now name q1 t); try done.
      - simpl. rewrite Hq'. destruct next; auto.
      - apply Hearly.
      - unfold key. simpl. rewrite Hq', pending_insert, Hsn, decide_True by done.
        destruct next as [u|]; [|done]. simpl. intros _. specialize (Hlater u eq_refl).
        unfold Second_ in *. lia.
      - intros x Hx. simpl. by rewrite pending_insert, decide_False. }
    pose proof (due_le st' now') as Hd'. unfold pop_fuel in *. simpl in *.
    destruct Hless as [Heq|Hlt]; [specialize (Hdue Heq); destruct Heq as [-> ->]; nia|nia].
  - destruct Hstep as (q' & -> & _). done.
  - pose proof (sleep_till_spec t now (wakeups st)) as Hf. by rewrite Hsleep in Hf.
  - pose proof (sleep_till_spec t now (wakeups st)) as Hf. by rewrite Hsleep in Hf.
  - pose proof (sleep_till_spec t now (wakeups st)) as Hf. rewrite Hsleep in Hf.
    destruct Hf as [fired Hf]. rewrite Hf in Hc. by apply list_elem_of_fmap in Hc as (? & ? & _).
Qed.

(** *** Filling the queue *)

Definition set_all `{Location} (now : Time) (order : list bytes) : stM QState unit :=
  foldr (λ name rest, reschedule name now;; rest) (mret tt) order.

Lemma set_all_spec `{Location} now order st :
  NoDup order → heap_ok st → (∀ x, x ∈ order → x ∉ q st) →
  (∀ x, x ∈ order → ∃ job, jobs st !! x = Some job ∧ fully_derandomized (JobTimeSpec job)) →
  ∃ st', set_all now order st = (Ret tt, st') ∧ heap_ok st' ∧ wakeups st' = wakeups st ∧
    (∀ x, x ∈ q st' ↔ x ∈ q st ∨ x ∈ order ∧ is_Some (pending (jobs st') x)) ∧
    (∀ x, x ∉ order → jobs st' !! x = jobs st !! x) ∧
    (∀ x job, x ∈ order → jobs st !! x = Some job → ∃ next, nextRunTime job now = Ret next ∧
       jobs st' !! x = Some (set_NextRunTime job next)).
Proof.
  revert st. induction order as [|name order IH]; intros st Hnd Hok Hout Hjobs.
  { exists st. do 3 (split; [done|]). split; [set_solver|]. split; [done|set_solver]. }
  apply NoDup_cons in Hnd as [Hnin Hnd].
  destruct (Hjobs name) as (job & Hjob & Hd); [by left|].
  destruct (reschedule_spec st name job now) as (next & q' & Hnext & Hre & Hok' & Hq');
    [done|done|apply Hout; by left|done|].
  set (st1 := mkQState q' (<[name := set_NextRunTime job next]> (jobs st)) (wakeups st)) in *.
  destruct (IH st1) as (st' & Hrun & Hok2 & Hw & Hin & Hsame & Hnew); [done|done|..].
  { intros x Hx. simpl. rewrite Hq'. assert (x ≠ name) by (by intros ->).
    assert (x ∉ q st) by (apply Hout; by right). destruct next; set_solver. }
  { intros x Hx. simpl. rewrite lookup_insert_ne by (by intros ->). apply Hjobs. by right. }
  exists st'. split; [|split; [done|]; split; [done|]; split; [|split]].
  - simpl. by rewrite (stM_bind_Ret _ _ _ _ _ Hre).
  - assert (Hn : pending (jobs st') name = next).
    { unfold pending. rewrite Hsame by done. simpl. rewrite lookup_insert_eq. by destruct job. }
    intros x. rewrite Hin. simpl. rewrite Hq', elem_of_cons.
    destruct next as [u|].
    + rewrite elem_of_cons. destruct (decide (x = name)) as [->|]; [|naive_solver].
      rewrite Hn. split; [|by eauto]. intros [[_|?]|?]; [right; split; [by left|by eexists]|by left|naive_solver].
    + destruct (decide (x = name)) as [->|]; [|naive_solver].
      rewrite Hn. naive_solver.
  - intros x Hx. rewrite Hsame by set_solver. simpl. rewrite lookup_insert_ne; [done|set_solver].
  - intros x jobx Hx Hjx. destruct (decide (x = name)) as [->|Hne].
    + simplify_eq. exists next. split; [done|]. rewrite Hsame by done. simpl. by rewrite lookup_insert_eq.
    + apply Hnew; [set_solver|]. simpl. by rewrite lookup_insert_ne.
Qed.

Lemma SetJobs_spec `{Location} now order st :
  order ≡ₚ (map_to_list (jobs st)).*1 → schedules_ok (jobs st) →
  ∃ st', SetJobs now order st = (Ret tt, st') ∧ queue_ok st' ∧
    (∀ name, name ∈ q st' ↔ is_Some (pending (jobs st') name)) ∧
    ∀ name, match jobs st !! name with
            | Some job => ∃ next, nextRunTime job now = Ret next ∧
                jobs st' !! name = Some (set_NextRunTime job next)
            | None => jobs st' !! name = None
            end.
Proof.
  intros Hperm Hsch.
  assert (Hkeys : ∀ name, name ∈ order ↔ is_Some (jobs st !! name)).
  { intros name. rewrite Hperm, list_elem_of_fmap. split.
    - intros ([n job] & -> & Hin%elem_of_map_to_list). by exists job.
    - intros [job Hj]. exists (name, job). by rewrite elem_of_map_to_list. }
  destruct (set_all_spec now order (set_q st [])) as (st' & Hrun & Hok & _ & Hin & Hsame & Hnew).
  - rewrite Hperm. apply NoDup_fst_map_to_list.
  - split; [constructor|]. split; [constructor|]. intros j Hj. simpl in Hj. lia.
  - simpl. set_solver.
  - intros x [job Hj]%Hkeys. exists job. split; [done|]. by apply Hsch in Hj.
  - assert (Hjobs : ∀ name, match jobs st !! name with
            | Some job => ∃ next, nextRunTime job now = Ret next ∧
                jobs st' !! name = Some (set_NextRunTime job next)
            | None => jobs st' !! name = None
            end).
    { intros name. destruct (jobs st !! name) as [job|] eqn:Hj.
      - apply Hnew; [apply Hkeys; by eexists|done].
      - rewrite Hsame; [done|]. rewrite Hkeys, Hj. by intros []. }
    assert (Hq : ∀ name, name ∈ q st' ↔ is_Some (pending (jobs st') name)).
    { intros name. rewrite Hin. simpl. split; [set_solver|]. intros Hp. right. split; [|done].
      apply Hkeys. specialize (Hjobs name). unfold pending in Hp.
      destruct (jobs st !! name); [by eexists|]. rewrite Hjobs in Hp. by destruct Hp. }
    exists st'. split; [exact Hrun|]. split; [|done]. split; [done|]. split; [apply Hq|].
    intros name job Hj. specialize (Hjobs name).
    destruct (jobs st !! name) as [job0|] eqn:Hj0; [|congruence].
    destruct Hjobs as (next & _ & Hj'). apply Hsch in Hj0. rewrite Hj in Hj'. simplify_eq.
    by destruct job0.
Qed.

(** ** Theorems *)

(** C11: [nextRunTime] returns the first second from now on, in steps of one
    second, at which the schedule is satisfied, and none only when there is no
    such second in the two years searched: the loop always ends and the
    schedule never panics once it has been derandomized. *)
Theorem nextRunTime_correct `{Location} job now :
  fully_derandomized (JobTimeSpec job) →
  ∃ r, nextRunTime job now = Ret r ∧
  match r with
  | Some t => ∃ i : nat, t = now + Z.of_nat i * Second_ ∧ t < now + horizon ∧
      scheduled (JobTimeSpec job) t ∧
      ∀ j : nat, (j < i)%nat → ¬ scheduled (JobTimeSpec job) (now + Z.of_nat j * Second_)
  | None => ∀ j : nat, now + Z.of_nat j * Second_ < now + horizon →
      ¬ scheduled (JobTimeSpec job) (now + Z.of_nat j * Second_)
  end.
Proof. apply nextRunTime_spec. Qed.

Definition example_at (spec : FullTimeSpec) : Job :=
  mkJob "backup" "true" spec "bob" ContinueErrorHandler [] [] [] 0 0 None JobGood zero_time false.

(** Every minute, at second 30. *)
Definition half_past : FullTimeSpec :=
  mkFullTimeSpec (OneValTimeSpec 30) WildcardTimeSpec WildcardTimeSpec
    WildcardTimeSpec WildcardTimeSpec WildcardTimeSpec.

Lemma nextRunTime_correct_witness :
  fully_derandomized half_past ∧
  nextRunTime (H:=UTC) (example_at half_past) 0 = Ret (Some (30 * Second_)) ∧
  ∃ r, nextRunTime (H:=UTC) (example_at half_past) 0 = Ret r.
Proof.
  assert (D : fully_derandomized half_past) by (repeat split).
  split; [exact D|]. split; [vm_compute; reflexivity|].
  destruct (nextRunTime_correct (H:=UTC) (example_at half_past) 0 D) as (r & E & _).
  exists r. exact E.
Defined.

(** [SetJobs], whatever the order in which the map of jobs is iterated,
    gives every job its next run time and leaves in the queue exactly the jobs
    that have one, in heap order. *)
Theorem SetJobs_correct `{Location} now order st :
  order ≡ₚ (map_to_list (jobs st)).*1 → schedules_ok (jobs st) →
  ∃ st', SetJobs now order st = (Ret tt, st') ∧ queue_ok st' ∧
    (∀ name, name ∈ q st' ↔ is_Some (pending (jobs st') name)) ∧
    ∀ name, match jobs st !! name with
            | Some job => ∃ next, nextRunTime job now = Ret next ∧
                jobs st' !! name = Some (set_NextRunTime job next)
            | None => jobs st' !! name = None
            end.
Proof. apply SetJobs_spec. Qed.

Definition example_queue : QState :=
  mkQState [] (<["a" : bytes := example_at half_past]> (<["b" : bytes := example_at every_second]> ∅))
    [Fired (31 * Second_); Cancelled].

Lemma example_schedules_ok : schedules_ok (jobs example_queue).
Proof. repeat apply map_Forall_insert_2; try apply map_Forall_empty; repeat split. Qed.

Lemma SetJobs_correct_witness :
  ["b" : bytes; "a" : bytes] ≡ₚ (map_to_list (jobs example_queue)).*1 ∧
  ∃ st', SetJobs (H:=UTC) 0 ["b" : bytes; "a" : bytes] example_queue = (Ret tt, st') ∧ queue_ok st'.
Proof.
  assert (P : ["b" : bytes; "a" : bytes] ≡ₚ (map_to_list (jobs example_queue)).*1).
  { unfold example_queue. simpl. rewrite !map_to_list_insert by done.
    rewrite map_to_list_empty. simpl. constructor 3. }
  split; [exact P|].
  destruct (SetJobs_correct (H:=UTC) 0 _ _ P example_schedules_ok) as (st' & E & Q & _).
  exists st'. exact (conj E Q).
Defined.

(** C2: [Pop] refines the specification: what it answers, and the store it
    leaves, is what [serves] allows; the queue is again in order; and it never
    panics. *)
Theorem Pop_refines `{Location} fuel now st r st' :
  queue_ok st → JobQueue_Pop fuel now st = (Ret r, st') →
  serves (jobs st) now (wakeups st) r (jobs st') (wakeups st') ∧ queue_ok st'.
Proof. intros Hok Hp. pose proof (JobQueue_Pop_serves fuel now st Hok) as Hs. by rewrite Hp in Hs. Qed.

(** A queue filled at second 0: its first job is due at once, at second 31 the
    other one is, too. *)
Definition example_filled : QState := (SetJobs (H:=UTC) 0 ["b" : bytes; "a" : bytes] example_queue).2.

Lemma example_order : ["b" : bytes; "a" : bytes] ≡ₚ (map_to_list (jobs example_queue)).*1.
Proof.
  unfold example_queue. simpl. rewrite !map_to_list_insert by done.
  rewrite map_to_list_empty. simpl. constructor 3.
Qed.

Lemma example_filled_ok : queue_ok example_filled.
Proof.
  destruct (SetJobs_spec (H:=UTC) 0 _ _ example_order example_schedules_ok) as (st' & E & Q & _).
  unfold example_filled. by rewrite E.
Qed.

Lemma Pop_refines_witness :
  queue_ok example_filled ∧
  ∃ st', JobQueue_Pop (H:=UTC) 5 0 example_filled = (Ret (Some ("b" : bytes)), st') ∧ queue_ok st'.
Proof.
  split; [exact example_filled_ok|].
  assert (E : ∃ st', JobQueue_Pop (H:=UTC) 5 0 example_filled = (Ret (Some ("b" : bytes)), st')).
  { eexists. vm_compute. reflexivity. }
  destruct E as [st' E]. exists st'. split; [exact E|].
  exact (proj2 (Pop_refines (H:=UTC) _ _ _ _ _ example_filled_ok E)).
Defined.

(** C25: [Pop] comes back: with times whose nanosecond count fits in 64 bits, and
    provided the context is cancelled sometime, a number of rounds bounded by
    the jobs and the wake-ups is enough, however the jobs in backoff make it
    call itself again. *)
Theorem Pop_returns `{Location} fuel now st :
  queue_ok st → sane_queue st → sane now → Cancelled ∈ wakeups st →
  (pop_fuel st now ≤ fuel)%nat → returns (JobQueue_Pop fuel now st).1.
Proof.
  intros Hok Hs Hn Hc Hf. pose proof (JobQueue_Pop_finishes fuel now st Hok Hs Hn Hc Hf) as Hr.
  pose proof (JobQueue_Pop_serves fuel now st Hok) as Hp.
  destruct (JobQueue_Pop fuel now st) as [[r| | |] st']; try done. by exists r.
Qed.

Lemma Pop_returns_witness :
  (sane_queue example_filled ∧ Cancelled ∈ wakeups example_filled) ∧
  returns (JobQueue_Pop (H:=UTC) 10 0 example_filled).1.
Proof.
  assert (S : sane_queue example_filled).
  { assert (W : wakeups example_filled = [Fired (31 * Second_); Cancelled])
      by (vm_compute; reflexivity).
    split; [rewrite W; constructor; [|constructor; [exact I|constructor]];
            unfold sane_wakeup, sane, two63, horizon, year, Hour_, Minute_, Second_; lia|].
    assert (J : jobs example_filled = <["a" : bytes := set_NextRunTime (example_at half_past) (Some (30 * Second_))]>
      (<["b" : bytes := set_NextRunTime (example_at every_second) (Some 0)]> ∅)) by (vm_compute; reflexivity).
    rewrite J. intros name t. rewrite !pending_insert.
    repeat case_decide; simpl; [by intros [= <-]|by intros [= <-]|].
    unfold pending. by rewrite lookup_empty. }
  assert (C : Cancelled ∈ wakeups example_filled) by (vm_compute; repeat constructor).
  split; [exact (conj S C)|].
  assert (N : sane 0)
    by (unfold sane, two63, horizon, year, Hour_, Minute_, Second_; lia).
  assert (F : (pop_fuel example_filled 0 <= 10)%nat) by (vm_compute; repeat constructor).
  exact (Pop_returns (H:=UTC) 10 0 _ example_filled_ok S N C F).
Defined.

Lemma served_spec `{Location} jobs now ws r jobs' ws' :
  serves jobs now ws r jobs' ws' →
  (∀ name, r = Some name → ∃ job, jobs !! name = Some job ∧ Status job ≠ JobFailed) ∧
  ∀ name, match jobs !! name, jobs' !! name with
          | Some job, Some job' => ∃ next skips,
              job' = set_skipsLeft (set_NextRunTime job next) skips
          | None, None => True
          | _, _ => False
          end.
Proof.
  intros Hs. split.
  - intros name ->. remember (Some name) as r eqn:Hr.
    induction Hs as [| |jobs now ws n t job now' ws' next job' _ Hjob _ _ Hrun
                    |jobs now ws n t job now' ws' next job' r jobs' ws'' _ Hjob _ _ Hrun _ IH];
      simplify_eq.
    + exists job. split; [done|]. intros Hf. unfold ShouldRun in Hrun.
      by destruct job; simpl in *; rewrite Hf in Hrun.
    + destruct (IH eq_refl) as (j & Hj & Hst). apply lookup_insert_Some in Hj as [[<- <-]|[_ Hj]].
      * exists job. split; [done|]. intros Hf. apply Hst. unfold ShouldRun in Hrun.
        destruct job; simpl in *; rewrite Hf in Hrun. by simplify_eq.
      * by exists j.
  - intros name.
    induction Hs as [jbs|jbs|jbs now ws n t job now' ws' next job' _ Hjob _ _ Hrun
                    |jbs now ws n t job now' ws' next job' r jbs' ws'' _ Hjob _ _ Hrun _ IH].
    + destruct (jbs !! name) as [job|]; [|done]. exists (NextRunTime job), (skipsLeft job).
      by destruct job.
    + destruct (jbs !! name) as [job|]; [|done]. exists (NextRunTime job), (skipsLeft job).
      by destruct job.
    + destruct (decide (name = n)) as [->|Hne].
      * rewrite Hjob, lookup_insert_eq. exists next. by apply ShouldRun_changes in Hrun.
      * rewrite lookup_insert_ne by done. destruct (jbs !! name) as [j|]; [|done].
        exists (NextRunTime j), (skipsLeft j). by destruct j.
    + destruct (decide (name = n)) as [->|Hne].
      * rewrite Hjob. rewrite lookup_insert_eq in IH.
        destruct (jbs' !! n) as [j'|]; [|done]. destruct IH as (next2 & skips2 & ->).
        apply ShouldRun_changes in Hrun as [skips ->]. exists next2, skips2. by destruct job.
      * by rewrite lookup_insert_ne in IH.
Qed.

(** What the scheduler hands out may run: the job is not one that has
    failed, and what [Pop] changes in the store is limited to the next run
    times and backoff counters of the jobs: names, commands, schedules, error
    handlers and statuses stay as they are. *)
Theorem served_job_safe `{Location} jobs now ws r jobs' ws' :
  serves jobs now ws r jobs' ws' →
  (∀ name, r = Some name → ∃ job, jobs !! name = Some job ∧ Status job ≠ JobFailed) ∧
  ∀ name, match jobs !! name, jobs' !! name with
          | Some job, Some job' => ∃ next skips,
              job' = set_skipsLeft (set_NextRunTime job next) skips
          | None, None => True
          | _, _ => False
          end.
Proof. apply served_spec. Qed.

Lemma served_job_safe_witness :
  serves (H:=UTC) (jobs example_filled) 0 (wakeups example_filled) (Some ("b" : bytes))
    (jobs (JobQueue_Pop (H:=UTC) 5 0 example_filled).2)
    (wakeups (JobQueue_Pop (H:=UTC) 5 0 example_filled).2) ∧
  ∃ job, jobs example_filled !! ("b" : bytes) = Some job ∧ Status job ≠ JobFailed.
Proof.
  pose proof (JobQueue_Pop_serves (H:=UTC) 5 0 example_filled example_filled_ok) as P.
  assert (E : (JobQueue_Pop (H:=UTC) 5 0 example_filled).1 = Ret (Some ("b" : bytes)))
    by (vm_compute; reflexivity).
  destruct (JobQueue_Pop (H:=UTC) 5 0 example_filled) as [o st']. simpl in E. subst o.
  destruct P as [S _]. split; [exact S|].
  exact (proj1 (served_job_safe (H:=UTC) _ _ _ _ _ _ S) _ eq_refl).
Defined.
