(* ===== verification/RunLog.v ===== *)
(** * Logs of job runs: the interface ([jobfile/run_log.go])

    The runner records every run in a log, which the user's preferences put in
    memory or in files.  [RunLog] is the interface of the source; [RunLogLaws]
    is what an implementation promises to the code that uses it, in terms of
    the list of entries it holds, oldest first: reading it changes nothing and
    gives the entries newest first, and recording a run that is not older than
    the ones recorded adds it as the newest, at the price of the oldest ones. *)

From S2P Require Import Prelude Calendar Job.

Open Scope Z_scope.
Open Scope bytes_scope.
Open Scope list_scope.

Record RunLogEntry := mkRunLogEntry {
  JobName : bytes;
  EntryTime : Time;
  EntryFate : SubprocFate;
  EntryResult : JobStatus;
  EntryExecTime : Duration
}.

#[export] Instance RunLogEntry_eq_dec : EqDecision RunLogEntry.
Proof. solve_decision. Defined.

(** The optional arguments of [GetFromTime] and [GetFromIndex] are lists, as
    variadic arguments are in Go. *)
Class RunLog (L : Type) := {
  GetFromTime : Time → list Time → stM L (list RunLogEntry);
  GetFromIndex : nat → list nat → stM L (list RunLogEntry);
  GetAll : stM L (list RunLogEntry);
  Len : stM L nat;
  Put : RunLogEntry → stM L unit
}.

(** Oldest first *)
Definition older_first : relation RunLogEntry := λ a b, EntryTime a ≤ EntryTime b.

Class RunLogLaws (L : Type) `{RunLog L} := {
  log_ok : L → Prop;
  log_entries : L → list RunLogEntry;
  storable : RunLogEntry → Prop;
  GetAll_law l :
    log_ok l → GetAll l = (Ret (reverse (log_entries l)), l);
  Len_law l :
    log_ok l → Len l = (Ret (length (log_entries l)), l);
  GetFromIndex_law l i j :
    log_ok l → (i ≤ j ≤ length (log_entries l))%nat → (i < length (log_entries l))%nat →
    GetFromIndex i [j] l = (Ret (take (j - i) (drop i (reverse (log_entries l)))), l);
  Put_law l entry :
    log_ok l → storable entry →
    Forall (λ e, EntryTime e ≤ EntryTime entry) (log_entries l) →
    ∃ l' k, Put entry l = (Ret tt, l') ∧ log_ok l' ∧
            log_entries l' = drop k (log_entries l) ++ [entry]
}.
