(* ===== verification/MemRunLog.v ===== *)
(** * The log in memory ([jobfile/mem_only_run_log.go])

    A bounded list of entries, oldest first.  The theorems: whatever the order
    in which runs are recorded, the log holds the latest [maxLen] of them in
    order of time; what each way of reading returns; and the laws of the
    interface. *)

From S2P Require Import Prelude GoStrings Calendar Job RunLog.

Open Scope Z_scope.
Open Scope bytes_scope.
Open Scope list_scope.

(** [cap_entries] is the capacity of the slice, the maximal length of the log. *)
Record memOnlyRunLog := mkMemLog {
  entries : list RunLogEntry;
  cap_entries : nat
}.

Definition mem_String (self : memOnlyRunLog) : bytes :=
  "MemRunLog{maxLen: " ++ itoa (Z.of_nat (cap_entries self)) ++ "}".

Definition NewMemOnlyRunLog (maxLen : Z) : outcome memOnlyRunLog :=
  if maxLen <=? 0 then Panic "maxLen must be > 0"
  else Ret (mkMemLog [] (Z.to_nat maxLen)).

Definition MaxLen (self : memOnlyRunLog) : nat := cap_entries self.

(** The loop that moves the new entry, at index [i], to its place. *)
Fixpoint sift (newEntry : RunLogEntry) (l : list RunLogEntry) (i : nat)
    : outcome (list RunLogEntry) :=
  match i with
  | O => Ret l
  | S i' =>
     prev ← at_index l i';
     if Before (EntryTime newEntry) (EntryTime prev) then
       curr ← at_index l i;
       sift newEntry (<[i := prev]> (<[i' := curr]> l)) i'
     else Ret l
  end.

(** Append the entry to [kept] and sort. *)
Definition add_entry (newEntry : RunLogEntry) (kept : list RunLogEntry)
    : stM memOnlyRunLog unit :=
  sorted ← liftS (sift newEntry (kept ++ [newEntry]) (length kept));
  modifyS (λ self, mkMemLog sorted (cap_entries self)).

Definition mem_Put (newEntry : RunLogEntry) : stM memOnlyRunLog unit :=
  self ← getS;
  if bool_decide (cap_entries self = 0%nat) then panicS "Capacity is 0"
  else if bool_decide (cap_entries self < length (entries self) + 1)%nat then
    oldest ← liftS (at_index (entries self) 0);
    if Before (EntryTime newEntry) (EntryTime oldest) then mret tt
    else add_entry newEntry (drop 1 (entries self))
  else add_entry newEntry (entries self).

Definition reverseEntryArray (array : list RunLogEntry) : list RunLogEntry := rev array.

Definition mem_GetFromTime (maxTime : Time) (timeArr : list Time)
    : stM memOnlyRunLog (list RunLogEntry) :=
  self ← getS;
  liftS (
    if bool_decide (1 < length timeArr)%nat then Panic "Too many args."
    else
      match entries self with
      | [] => Ret []
      | first :: _ =>
         let minTime :=
           match timeArr with
           | t :: _ => t
           | [] => Add (EntryTime first) (- Second_)
           end in
         if Before maxTime minTime then Panic "maxTime is before minTime"
         else
           startIdx ← Search (length (entries self)) (λ i,
             e ← at_index (entries self) i;
             Ret (negb (Before (EntryTime e) maxTime)));
           if bool_decide (startIdx = length (entries self)) then Ret []
           else
             endIdx ← Search (length (entries self)) (λ i,
               e ← at_index (entries self) i;
               Ret (After (EntryTime e) minTime));
             found ← slice (entries self) endIdx (startIdx + 1);
             Ret (reverseEntryArray found)
      end).

Definition mem_Len : stM memOnlyRunLog nat :=
  self ← getS; mret (length (entries self)).

Definition mem_GetFromIndex (minIdx : nat) (idxArr : list nat)
    : stM memOnlyRunLog (list RunLogEntry) :=
  self ← getS;
  liftS (
    let len := length (entries self) in
    if bool_decide (1 < length idxArr)%nat then Panic "Too many args."
    else
      let maxIdx := match idxArr with i :: _ => i | [] => len end in
      if bool_decide (maxIdx < minIdx)%nat then Panic "minIdx > maxIdx"
      else if bool_decide (len ≤ minIdx)%nat then
        Panic ("Invalid 'minIdx' index: " ++ itoa (Z.of_nat minIdx))
      else if bool_decide (len < maxIdx)%nat then
        Panic ("Invalid 'maxIdx' index: " ++ itoa (Z.of_nat maxIdx))
      else
        let actualTo := (len - minIdx)%nat in
        let actualFrom := (len - maxIdx)%nat in
        found ← slice (entries self) actualFrom actualTo;
        Ret (reverseEntryArray found)).

Definition mem_GetAll : stM memOnlyRunLog (list RunLogEntry) :=
  self ← getS; mret (reverseEntryArray (entries self)).

#[export] Instance mem_RunLog : RunLog memOnlyRunLog := {|
  GetFromTime := mem_GetFromTime;
  GetFromIndex := mem_GetFromIndex;
  GetAll := mem_GetAll;
  Len := mem_Len;
  Put := mem_Put
|}.

(** ** Specification *)

(** An entry put behind all those that are not newer than it. *)
Fixpoint insert_by_time (entry : RunLogEntry) (l : list RunLogEntry) : list RunLogEntry :=
  match l with
  | [] => [entry]
  | e :: l =>
     if EntryTime entry <? EntryTime e then entry :: e :: l
     else e :: insert_by_time entry l
  end.

(** The runs of a history, recorded in the order of the list, by time; runs of
    the same instant stay in the order in which they were recorded. *)
Definition by_time (history : list RunLogEntry) : list RunLogEntry :=
  foldl (λ l e, insert_by_time e l) [] history.

Definition latest (n : nat) (l : list RunLogEntry) : list RunLogEntry :=
  drop (length l - n) l.

(** Recording a whole history. *)
Fixpoint Puts (history : list RunLogEntry) : stM memOnlyRunLog unit :=
  match history with
  | [] => mret tt
  | e :: history => mem_Put e;; Puts history
  end.

Definition mem_ok (self : memOnlyRunLog) : Prop :=
  Sorted older_first (entries self) ∧ (length (entries self) ≤ cap_entries self)%nat ∧
  (0 < cap_entries self)%nat.

(** ** Lemmas: sorting *)

#[export] Instance older_first_trans : Transitive older_first.
Proof. intros a b c. unfold older_first. lia. Qed.

Lemma sorted_snoc l x :
  Sorted older_first (l ++ [x]) ↔ Sorted older_first l ∧ Forall (λ e, EntryTime e ≤ EntryTime x) l.
Proof.
  split.
  - intros Hs. apply Sorted_StronglySorted in Hs; [|apply older_first_trans].
    split; [apply StronglySorted_Sorted; by eapply StronglySorted_app_1_l|].
    apply Forall_forall. intros e He.
    apply (StronglySorted_app_1_elem_of _ l [x] e x Hs He). by left.
  - intros [Hs Hall]. apply StronglySorted_Sorted.
    apply Sorted_StronglySorted in Hs; [|apply older_first_trans].
    apply StronglySorted_app_2; [|done|repeat constructor].
    intros a b Ha Hb%list_elem_of_singleton. subst b. rewrite Forall_forall in Hall. by apply Hall.
Qed.

Lemma insert_by_time_snoc_lt e l x :
  EntryTime e < EntryTime x → insert_by_time e (l ++ [x]) = insert_by_time e l ++ [x].
Proof.
  intros Hlt. induction l as [|y l IH]; simpl.
  - destruct (Z.ltb_spec (EntryTime e) (EntryTime x)); [done|lia].
  - destruct (EntryTime e <? EntryTime y); [done|]. by rewrite IH.
Qed.

Lemma insert_by_time_last e l :
  Forall (λ y, EntryTime y ≤ EntryTime e) l → insert_by_time e l = l ++ [e].
Proof.
  induction 1 as [|y l Hy _ IH]; simpl; [done|].
  destruct (Z.ltb_spec (EntryTime e) (EntryTime y)); [lia|]. by rewrite IH.
Qed.

Lemma insert_by_time_length e l : length (insert_by_time e l) = S (length l).
Proof. induction l as [|y l IH]; simpl; [done|]. destruct (_ <? _); simpl; by rewrite ?IH. Qed.

Lemma insert_by_time_perm e l : insert_by_time e l ≡ₚ e :: l.
Proof.
  induction l as [|y l IH]; simpl; [done|]. destruct (_ <? _); [done|].
  rewrite IH. by constructor.
Qed.

Lemma insert_by_time_sorted e l : Sorted older_first l → Sorted older_first (insert_by_time e l).
Proof.
  induction l as [|x l IH] using rev_ind; intros Hs; [repeat constructor|].
  apply sorted_snoc in Hs as [Hs Hall].
  destruct (Z.lt_ge_cases (EntryTime e) (EntryTime x)) as [Hlt|Hge].
  - rewrite insert_by_time_snoc_lt by done. apply sorted_snoc. split; [auto|].
    rewrite insert_by_time_perm. constructor; [lia|done].
  - assert (Forall (λ y, EntryTime y ≤ EntryTime e) (l ++ [x])).
    { apply Forall_app. split; [|by constructor].
      eapply Forall_impl; [done|]. simpl. lia. }
    rewrite insert_by_time_last by done. apply sorted_snoc. by rewrite sorted_snoc.
Qed.

Lemma sift_spec e l1 l2 :
  Sorted older_first l1 →
  sift e (l1 ++ e :: l2) (length l1) = Ret (insert_by_time e l1 ++ l2).
Proof.
  revert l2. induction l1 as [|x l IH] using rev_ind; intros l2 Hs; [done|].
  apply sorted_snoc in Hs as [Hs Hall].
  rewrite length_app, Nat.add_1_r. cbn [sift].
  assert (Hx : ((l ++ [x]) ++ e :: l2) !! length l = Some x)
    by (rewrite <- app_assoc; by apply list_lookup_middle).
  assert (He : ((l ++ [x]) ++ e :: l2) !! S (length l) = Some e).
  { rewrite list_lookup_middle; [done|]. rewrite length_app. simpl. lia. }
  unfold at_index. rewrite Hx, He. cbn [mbind outcome_bind]. unfold Before.
  destruct (Z.ltb_spec (EntryTime e) (EntryTime x)) as [Hlt|Hge].
  - rewrite insert_by_time_snoc_lt, <- !app_assoc by done. simpl.
    rewrite <- IH by done. f_equal.
    rewrite insert_app_r_alt by lia. rewrite Nat.sub_diag. simpl.
    rewrite insert_app_r_alt by lia. by replace (S (length l) - length l)%nat with 1%nat by lia.
  - rewrite insert_by_time_last; [by rewrite <- !app_assoc|].
    apply Forall_app. split; [|by constructor].
    eapply Forall_impl; [done|]. simpl. lia.
Qed.

Lemma add_entry_spec e kept self :
  Sorted older_first kept →
  add_entry e kept self = (Ret tt, mkMemLog (insert_by_time e kept) (cap_entries self)).
Proof.
  intros Hs. unfold add_entry.
  rewrite (stM_bind_Ret _ _ _ (insert_by_time e kept) self); [done|].
  unfold liftS. by rewrite sift_spec, app_nil_r by done.
Qed.

Lemma sorted_drop k l : Sorted older_first l → Sorted older_first (drop k l).
Proof.
  intros Hs. apply StronglySorted_Sorted. apply Sorted_StronglySorted in Hs; [|apply older_first_trans].
  rewrite <- (take_drop k l) in Hs. by eapply StronglySorted_app_1_r.
Qed.

(** [Put] is an insertion, after dropping the oldest entry of a full log, unless
    the new entry is older than all of them. *)
Lemma mem_Put_spec e self :
  mem_ok self →
  mem_Put e self =
  (Ret tt,
   if decide (length (entries self) < cap_entries self)%nat then
     mkMemLog (insert_by_time e (entries self)) (cap_entries self)
   else
     match entries self with
     | oldest :: rest =>
        if EntryTime e <? EntryTime oldest then self
        else mkMemLog (insert_by_time e rest) (cap_entries self)
     | [] => self
     end).
Proof.
  intros (Hs & Hle & Hpos). unfold mem_Put. rewrite (stM_bind_Ret getS _ _ self self) by done.
  rewrite bool_decide_false by lia. case_decide as Hfull.
  - rewrite bool_decide_false by lia. by apply add_entry_spec.
  - rewrite bool_decide_true by lia. destruct (entries self) as [|oldest rest] eqn:He; [simpl in *; lia|].
    rewrite (stM_bind_Ret _ _ _ oldest self) by done. unfold Before.
    destruct (EntryTime e <? EntryTime oldest); [done|].
    apply add_entry_spec. by apply (sorted_drop 1) in Hs.
Qed.

Lemma latest_length n l : length (latest n l) = (length l `min` n)%nat.
Proof. unfold latest. rewrite length_drop. lia. Qed.

(** Keeping only the latest entries commutes with insertion. *)
Lemma latest_insert n e l :
  Sorted older_first l → (0 < n)%nat →
  latest n (insert_by_time e l) =
  if decide (length (latest n l) < n)%nat then insert_by_time e (latest n l)
  else
    match latest n l with
    | oldest :: rest =>
       if EntryTime e <? EntryTime oldest then latest n l else insert_by_time e rest
    | [] => latest n l
    end.
Proof.
  intros Hs Hn. rewrite latest_length. case_decide as Hlen.
  - unfold latest. rewrite insert_by_time_length.
    by replace (S (length l) - n)%nat with 0%nat by lia; replace (length l - n)%nat with 0%nat by lia.
  - unfold latest. rewrite insert_by_time_length.
    set (k := (length l - n)%nat). replace (S (length l) - n)%nat with (S k) by lia.
    assert (Hk : (k < length l)%nat) by lia. clearbody k. clear Hlen Hn n.
    revert l Hs Hk. induction k as [|k IH]; intros [|x l] Hs Hk; simpl in Hk; try lia.
    + rewrite !drop_0. simpl. by destruct (EntryTime e <? EntryTime x).
    + apply Sorted_StronglySorted in Hs as Hss; [|apply older_first_trans].
      apply StronglySorted_inv in Hss as [_ Hall]. simpl (insert_by_time e (x :: l)).
      destruct (Sorted_inv Hs) as [Hs' _].
      destruct (Z.ltb_spec (EntryTime e) (EntryTime x)) as [Hlt|Hge].
      * change (drop (S (S k)) (e :: x :: l)) with (drop k l).
        change (drop (S k) (x :: l)) with (drop k l).
        destruct (drop k l) as [|o rest] eqn:Ho; [done|].
        assert (Hin : o ∈ l).
        { rewrite <- (take_drop k l), Ho. set_solver. }
        rewrite Forall_forall in Hall. specialize (Hall o Hin). unfold older_first in Hall.
        destruct (Z.ltb_spec (EntryTime e) (EntryTime o)); [done|lia].
      * change (drop (S k) (x :: l)) with (drop k l). rewrite <- (IH l) by (done || lia). done.
Qed.

Lemma by_time_snoc history e : by_time (history ++ [e]) = insert_by_time e (by_time history).
Proof. unfold by_time. by rewrite foldl_app. Qed.

Lemma by_time_sorted history : Sorted older_first (by_time history).
Proof.
  induction history as [|e h IH] using rev_ind; [constructor|].
  rewrite by_time_snoc. by apply insert_by_time_sorted.
Qed.

Lemma by_time_perm history : by_time history ≡ₚ history.
Proof.
  induction history as [|e h IH] using rev_ind; [done|].
  rewrite by_time_snoc, insert_by_time_perm, IH. by rewrite Permutation_app_comm.
Qed.

Lemma Puts_app h1 h2 self :
  Puts (h1 ++ h2) self = (Puts h1;; Puts h2) self.
Proof.
  revert self. induction h1 as [|e h1 IH]; intros self; [done|].
  simpl. rewrite !stM_bind_eq. destruct (mem_Put e self) as [[[]| | |] self']; auto.
Qed.

Lemma mem_ok_latest n history :
  (0 < n)%nat → mem_ok (mkMemLog (latest n (by_time history)) n).
Proof.
  intros Hn. split; [|split; [|done]]; simpl.
  - apply sorted_drop, by_time_sorted.
  - rewrite latest_length. lia.
Qed.

Lemma Puts_spec n history :
  (0 < n)%nat → Puts history (mkMemLog [] n) = (Ret tt, mkMemLog (latest n (by_time history)) n).
Proof.
  intros Hn. induction history as [|e h IH] using rev_ind; [done|].
  rewrite Puts_app, (stM_bind_Ret _ _ _ _ _ IH). simpl.
  rewrite (stM_bind_Ret _ _ _ _ _ (mem_Put_spec e _ (mem_ok_latest n h Hn))).
  rewrite by_time_snoc, latest_insert by (done || apply by_time_sorted). simpl.
  case_decide; [done|]. destruct (latest n (by_time h)); [done|]. by destruct (_ <? _).
Qed.

Lemma reverseEntryArray_eq l : reverseEntryArray l = reverse l.
Proof. apply rev_alt. Qed.

Lemma mem_GetAll_spec self : mem_GetAll self = (Ret (reverse (entries self)), self).
Proof.
  unfold mem_GetAll. rewrite (stM_bind_Ret getS _ _ self self) by done.
  by rewrite reverseEntryArray_eq.
Qed.

Lemma mem_GetFromIndex_spec i j self :
  (i ≤ j ≤ length (entries self))%nat → (i < length (entries self))%nat →
  mem_GetFromIndex i [j] self =
  (Ret (take (j - i) (drop i (reverse (entries self)))), self).
Proof.
  intros Hij Hi. unfold mem_GetFromIndex. rewrite (stM_bind_Ret getS _ _ self self) by done.
  unfold liftS. rewrite bool_decide_false by (simpl; lia). rewrite !bool_decide_false by lia.
  rewrite slice_Ret by lia. cbn [mbind outcome_bind]. do 2 f_equal.
  rewrite reverseEntryArray_eq.
  replace (length (entries self) - i - (length (entries self) - j))%nat with (j - i)%nat by lia.
  apply reverse_slice; lia.
Qed.

(** The predicates of the two searches are monotone on a sorted log. *)
Lemma sorted_lookup l i j a b :
  Sorted older_first l → (i ≤ j)%nat → l !! i = Some a → l !! j = Some b → EntryTime a ≤ EntryTime b.
Proof.
  intros Hs Hij Ha Hb. apply Sorted_StronglySorted in Hs; [|apply older_first_trans].
  destruct (decide (i = j)) as [->|Hne]; [simplify_eq; lia|].
  rewrite <- (take_drop (S i) l) in Hs.
  apply (StronglySorted_app_1_elem_of _ _ _ a b Hs).
  - apply list_elem_of_lookup. exists i. by rewrite lookup_take_lt by lia.
  - apply list_elem_of_lookup. exists (j - S i)%nat. rewrite lookup_drop. by rewrite <- Hb; f_equal; lia.
Qed.

Definition pred_at (P : Time → bool) (l : list RunLogEntry) (i : nat) : bool :=
  match l !! i with Some e => P (EntryTime e) | None => false end.

Lemma Search_entries (P : Time → bool) l :
  Sorted older_first l → (∀ t u, t ≤ u → P t = true → P u = true) →
  ∃ r, Search (length l) (λ i, e ← at_index l i; Ret (P (EntryTime e))) = Ret r ∧
       (r ≤ length l)%nat ∧ Forall (λ e, P (EntryTime e) = false) (take r l) ∧
       Forall (λ e, P (EntryTime e) = true) (drop r l).
Proof.
  intros Hs HP.
  destruct (Search_outcome (length l) (λ i, e ← at_index l i; Ret (P (EntryTime e))) (pred_at P l))
    as (r & Hr & Hle & Hlo & Hhi).
  - intros k Hk. unfold at_index, pred_at. by destruct (lookup_lt_is_Some_2 l k Hk) as [e ->].
  - intros i j Hij Hj. unfold pred_at. destruct (l !! i) as [a|] eqn:Ha; [|done].
    destruct (lookup_lt_is_Some_2 l j Hj) as [b Hb]. rewrite Hb. intros Hp.
    apply (HP (EntryTime a)); [|done]. by apply (sorted_lookup l i j).
  - exists r. split; [done|]. split; [done|]. split; apply Forall_forall; intros e He;
      apply list_elem_of_lookup in He as [k Hk].
    + apply lookup_take_Some in Hk as [Hk Hkr]. specialize (Hlo k Hkr). unfold pred_at in Hlo.
      by rewrite Hk in Hlo.
    + rewrite lookup_drop in Hk. apply lookup_lt_Some in Hk as Hkl.
      specialize (Hhi (r + k)%nat). unfold pred_at in Hhi. rewrite Hk in Hhi. apply Hhi; lia.
Qed.

(** ** Theorems *)

(** C19: However many runs are recorded and in whatever order, the log in memory
    holds the latest [maxLen] of them, sorted by time, with runs of the same
    instant in the order in which they were recorded; nothing panics. *)
Theorem Puts_keep_latest maxLen history :
  0 < maxLen →
  ∃ log, NewMemOnlyRunLog maxLen = Ret log ∧
    Puts history log =
      (Ret tt, mkMemLog (latest (Z.to_nat maxLen) (by_time history)) (Z.to_nat maxLen)) ∧
    Sorted older_first (by_time history) ∧ by_time history ≡ₚ history.
Proof.
  intros Hpos. exists (mkMemLog [] (Z.to_nat maxLen)). unfold NewMemOnlyRunLog.
  destruct (Z.leb_spec maxLen 0); [lia|]. split; [done|]. split; [apply Puts_spec; lia|].
  split; [apply by_time_sorted|apply by_time_perm].
Qed.

Definition entry_at (t : Time) : RunLogEntry :=
  mkRunLogEntry "backup" t SubprocFateSucceeded JobGood 0.

Lemma Puts_keep_latest_witness :
  ∃ log, NewMemOnlyRunLog 2 = Ret log ∧
    Puts [entry_at 5; entry_at 9; entry_at 7] log =
      (Ret tt, mkMemLog [entry_at 7; entry_at 9] 2).
Proof.
  destruct (Puts_keep_latest 2 [entry_at 5; entry_at 9; entry_at 7] ltac:(reflexivity))
    as (log & E & P & _).
  exists log. split; [exact E|exact P].
Defined.

(** A list seen as what comes before, in and after the window from [m] to [s]. *)
Lemma window_split {A} (l : list A) m s x :
  (m ≤ s)%nat → l !! s = Some x →
  l = take m l ++ take (s - m) (drop m l) ++ x :: drop (S s) l.
Proof.
  intros Hms Hx. rewrite <- (take_drop m l) at 1. f_equal.
  rewrite <- (take_drop (s - m) (drop m l)) at 1. f_equal.
  rewrite drop_drop. replace (m + (s - m))%nat with s by lia. by apply drop_S.
Qed.

Lemma window_between {A} (P Q : A → Prop) (l : list A) m s :
  (m ≤ s)%nat → Forall P (drop m l) → Forall Q (take s l) →
  Forall (λ y, P y ∧ Q y) (take (s - m) (drop m l)).
Proof.
  intros Hms HP HQ. apply Forall_forall. intros y Hy. apply list_elem_of_lookup in Hy as [k Hk].
  apply lookup_take_Some in Hk as [Hk Hks]. rewrite Forall_forall in HP, HQ. split.
  - apply HP, list_elem_of_lookup. by exists k.
  - apply HQ, list_elem_of_lookup. rewrite lookup_drop in Hk. exists (m + k)%nat.
    by rewrite lookup_take_lt by lia.
Qed.

(** [GetFromTime] with two instants, the later one first, answers with the
    entries strictly between them, newest first, preceded by the oldest entry
    that is not before the later instant; if there is no such entry, it answers
    with nothing at all. *)
Theorem mem_GetFromTime_correct self maxTime minTime :
  mem_ok self → minTime < maxTime →
  ∃ found, mem_GetFromTime maxTime [minTime] self = (Ret found, self) ∧
  ((Forall (λ e, EntryTime e < maxTime) (entries self) ∧ found = []) ∨
   ∃ older between first newer,
     entries self = older ++ between ++ first :: newer ∧
     Forall (λ e, EntryTime e ≤ minTime) older ∧
     Forall (λ e, minTime < EntryTime e < maxTime) between ∧
     maxTime ≤ EntryTime first ∧ found = first :: reverse between).
Proof.
  intros (Hs & _ & _) Hlt. unfold mem_GetFromTime.
  rewrite (stM_bind_Ret getS _ _ self self) by done. unfold liftS.
  rewrite bool_decide_false by (simpl; lia).
  destruct (entries self) as [|e0 l0] eqn:He.
  { exists []. split; [done|]. left. by split. }
  rewrite <- He in *. clear He e0 l0. unfold Before at 1.
  destruct (Z.ltb_spec maxTime minTime); [lia|].
  destruct (Search_entries (λ t, negb (Before t maxTime)) (entries self))
    as (s & Hsr & Hsl & Hs1 & Hs2); [done| |].
  { unfold Before. intros t u Htu. rewrite !negb_true_iff, !Z.ltb_ge. lia. }
  rewrite Hsr. cbn [mbind outcome_bind].
  destruct (Search_entries (λ t, After t minTime) (entries self))
    as (m & Hmr & Hml & Hm1 & Hm2); [done| |].
  { unfold After. intros t u Htu. rewrite !Z.ltb_lt. lia. }
  case_bool_decide as Hnone.
  { exists []. split; [done|]. left. split; [|done]. subst s. rewrite firstn_all in Hs1.
    eapply Forall_impl; [exact Hs1|]. unfold Before. intros x. simpl. rewrite negb_false_iff, Z.ltb_lt. done. }
  rewrite Hmr. cbn [mbind outcome_bind].
  destruct (lookup_lt_is_Some_2 (entries self) s) as [x Hx]; [lia|].
  rewrite (drop_S _ x _ Hx) in Hs2. apply Forall_cons in Hs2 as [Hx2 Hs2].
  unfold Before in Hx2. rewrite negb_true_iff, Z.ltb_ge in Hx2.
  assert (Hms : (m ≤ s)%nat).
  { destruct (le_lt_dec m s) as [|Hgt]; [done|]. rewrite Forall_forall in Hm1.
    assert (x ∈ take m (entries self)) as Hin.
    { apply list_elem_of_lookup. exists s. by rewrite lookup_take_lt. }
    specialize (Hm1 x Hin). unfold After in Hm1. rewrite Z.ltb_ge in Hm1. lia. }
  assert (Hlen : (s < length (entries self))%nat) by lia.
  rewrite slice_Ret by lia. cbn [mbind outcome_bind]. rewrite reverseEntryArray_eq.
  eexists. split; [done|]. right.
  exists (take m (entries self)), (take (s - m) (drop m (entries self))), x, (drop (S s) (entries self)).
  split; [by apply window_split|]. split; [|split; [|split; [done|]]].
  - eapply Forall_impl; [exact Hm1|]. unfold After. intros y. simpl. rewrite Z.ltb_ge. lia.
  - eapply Forall_impl; [exact (window_between _ _ _ _ _ Hms Hm2 Hs1)|].
    unfold After, Before. intros y. simpl. rewrite negb_false_iff, !Z.ltb_lt. done.
  - replace (s + 1 - m)%nat with (S (s - m)) by lia.
    rewrite (take_S_r _ _ x) by (rewrite lookup_drop; rewrite <- Hx; f_equal; lia).
    by rewrite reverse_app.
Qed.

Lemma mem_GetFromTime_correct_witness :
  mem_ok (mkMemLog [entry_at 5; entry_at 7; entry_at 9] 3) ∧
  ∃ found, mem_GetFromTime 8 [5] (mkMemLog [entry_at 5; entry_at 7; entry_at 9] 3) =
    (Ret found, mkMemLog [entry_at 5; entry_at 7; entry_at 9] 3).
Proof.
  assert (O : mem_ok (mkMemLog [entry_at 5; entry_at 7; entry_at 9] 3)).
  { split; [|simpl; lia]. simpl. repeat constructor; unfold older_first; simpl; lia. }
  split; [exact O|].
  destruct (mem_GetFromTime_correct _ 8 5 O ltac:(reflexivity)) as (found & E & _).
  exists found. exact E.
Defined.

(** What [GetFromTime] is documented to return, the entries no later than
    its first argument and later than its second, is not what it returns: an
    entry later than the first argument is included, entries are left out when
    none is later, and with both arguments equal to the time of three runs it
    panics. *)
Theorem mem_GetFromTime_divergence :
  let log := mkMemLog [entry_at 5; entry_at 7; entry_at 9] 3 in
  (mem_GetFromTime 8 [5] log).1 = Ret [entry_at 9; entry_at 7] ∧
  (mem_GetFromTime 10 [5] log).1 = Ret [] ∧
  panics (mem_GetFromTime 5 [5] (mkMemLog [entry_at 5; entry_at 5; entry_at 5] 3)).1.
Proof. split; [reflexivity|]. split; [reflexivity|]. by eexists. Qed.

(** ** The interface *)

Lemma mem_Put_ok e self : mem_ok self → mem_ok (mem_Put e self).2.
Proof.
  intros Hok. rewrite mem_Put_spec by done. destruct Hok as (Hs & Hle & Hpos). simpl.
  case_decide as Hfull.
  - split; [by apply insert_by_time_sorted|]. simpl. rewrite insert_by_time_length. lia.
  - destruct (entries self) as [|o rest] eqn:He; [by split; rewrite ?He|].
    destruct (_ <? _); [by split; rewrite ?He|]. split; simpl.
    + apply insert_by_time_sorted. by apply (sorted_drop 1) in Hs.
    + rewrite insert_by_time_length. simpl in Hle. lia.
Qed.

Lemma mem_Put_law e self :
  mem_ok self → Forall (λ y, EntryTime y ≤ EntryTime e) (entries self) →
  ∃ self' k, mem_Put e self = (Ret tt, self') ∧ mem_ok self' ∧
             entries self' = drop k (entries self) ++ [e].
Proof.
  intros Hok Hnew. pose proof (mem_Put_ok e self Hok) as Hok'.
  rewrite mem_Put_spec in * by done. destruct Hok as (Hs & Hle & Hpos). simpl in Hok'.
  case_decide as Hfull.
  - eexists _, 0%nat. split; [done|]. split; [done|]. simpl. by apply insert_by_time_last.
  - destruct (entries self) as [|o rest] eqn:He; [simpl in *; lia|].
    apply Forall_cons in Hnew as [Ho Hrest].
    destruct (Z.ltb_spec (EntryTime e) (EntryTime o)); [lia|].
    eexists _, 1%nat. split; [done|]. split; [done|]. simpl. by apply insert_by_time_last.
Qed.

#[export] Instance mem_RunLogLaws : RunLogLaws memOnlyRunLog := {|
  log_ok := mem_ok;
  log_entries := entries;
  storable := λ _, True;
  GetAll_law := λ l _, mem_GetAll_spec l;
  Len_law := λ l _, eq_refl;
  GetFromIndex_law := λ l i j _, mem_GetFromIndex_spec i j l;
  Put_law := λ l e Hok _, mem_Put_law e l Hok
|}.
