(* ===== verification/Durations.v ===== *)
(** * Durations as text (Go's [time.Duration.String] and [time.ParseDuration])

    A run log entry holds the duration of the run in the notation of Go, such
    as [1h2m3.5s] or [12ms].  Both functions are the loops of the standard
    library on 64-bit integers; the one step done there in floating point, the
    value of a fraction, is a parameter with the exactness it has on the
    fractions [String] prints.  The theorem: what [String] prints,
    [ParseDuration] reads back. *)

From S2P Require Import Prelude GoStrings Calendar.

Open Scope Z_scope.
Open Scope bytes_scope.
Open Scope list_scope.

(** ** [Duration.String] *)

(** The digits of a fraction of [prec] digits, without trailing zeros and with
    the decimal point, in front of [acc]; and what is left of [v]. *)
Fixpoint fmtFrac (prec : nat) (v : Z) (print : bool) (acc : bytes) : bytes * Z :=
  match prec with
  | O => (if print then "."%char :: acc else acc, v)
  | S prec =>
     let d := v mod 10 in
     let print := print || negb (d =? 0) in
     fmtFrac prec (v / 10) print (if print then digit d :: acc else acc)
  end.

(** The two bytes of the micro sign *)
Definition micro : bytes := [ascii_of_nat 194; ascii_of_nat 181].

Definition Duration_String (d : Duration) : bytes :=
  let neg := d <? 0 in
  let u := Z.abs d in
  if u =? 0 then "0s"
  else
    let text :=
      if u <? Second_ then
        let '(prec, unit) :=
          if u <? Microsecond then (0%nat, "ns")
          else if u <? Millisecond then (3%nat, micro ++ "s")
          else (6%nat, "ms") in
        let '(frac, u) := fmtFrac prec u false unit in
        itoa u ++ frac
      else
        let '(frac, u) := fmtFrac 9 u false "s" in
        let secs := itoa (u mod 60) ++ frac in
        let u := u / 60 in
        if 0 <? u then
          let mins := itoa (u mod 60) ++ "m" ++ secs in
          let u := u / 60 in
          if 0 <? u then itoa u ++ "h" ++ mins else mins
        else secs in
    if neg then "-"%char :: text else text.

(** ** [time.ParseDuration] *)

Definition max_int64 : Z := two63 - 1.

(** The number a text starts with, [None] on overflow, and the rest. *)
Fixpoint leadingInt (x : Z) (s : bytes) : option (Z * bytes) :=
  match s with
  | c :: s' =>
     if is_digit c then
       if max_int64 / 10 <? x then None
       else
         let x := x * 10 + digit_val c in
         if max_int64 <? x then None else leadingInt x s'
     else Some (x, s)
  | [] => Some (x, s)
  end.

(** The digits of a fraction as a number and its scale; digits that do not fit
    any more are skipped. *)
Fixpoint leadingFraction (x scale : Z) (overflow : bool) (s : bytes) : Z * Z * bytes :=
  match s with
  | c :: s' =>
     if is_digit c then
       if overflow || (max_int64 / 10 <? x) then leadingFraction x scale true s'
       else
         let y := x * 10 + digit_val c in
         if max_int64 <? y then leadingFraction x scale true s'
         else leadingFraction y (scale * 10) false s'
     else (x, scale, s)
  | [] => (x, scale, s)
  end.

Definition unit_stop (c : ascii) : bool := is_digit c || bool_decide (c = "."%char).

Fixpoint span_unit (s : bytes) : bytes * bytes :=
  match s with
  | c :: s' =>
     if unit_stop c then ([], s) else let '(u, rest) := span_unit s' in (c :: u, rest)
  | [] => ([], [])
  end.

Definition unitMap (u : bytes) : option Z :=
  if bool_decide (u = "ns") then Some Nanosecond
  else if bool_decide (u = "us") then Some Microsecond
  else if bool_decide (u = micro ++ "s") then Some Microsecond
  else if bool_decide (u = [ascii_of_nat 206; ascii_of_nat 188] ++ "s") then Some Microsecond
  else if bool_decide (u = "ms") then Some Millisecond
  else if bool_decide (u = "s") then Some Second_
  else if bool_decide (u = "m") then Some Minute_
  else if bool_decide (u = "h") then Some Hour_
  else None.

(** [int64(float64(f) * (float64(unit) / scale))] *)
Class FloatFraction := float_fraction : Z → Z → Z → Z.

(** It is exact when the quotient is a whole number and all values are below
    2^53. *)
Class FloatFractionOk `{FloatFraction} : Prop :=
  float_fraction_exact : ∀ f unit k, 0 ≤ f < 10 ^ Z.of_nat k →
    unit mod 10 ^ Z.of_nat k = 0 → 0 < unit ≤ Second_ →
    float_fraction f unit (10 ^ Z.of_nat k) = f * (unit / 10 ^ Z.of_nat k).

(** The errors differ in their text only, which no caller uses. *)
Definition invalid_duration : error := LibError "time: invalid duration".

Section Parse.
Context `{FloatFraction}.

(** One round of the loop: a number, a fraction and a unit. *)
Definition parse_chunk (d : Z) (s : bytes) : outcome (Z * bytes) :=
  match leadingInt 0 s with
  | None => Fail invalid_duration
  | Some (v, s1) =>
     let pre := bool_decide (length s ≠ length s1) in
     let '(f, scale, s2, post) :=
       match s1 with
       | c :: s1' =>
          if bool_decide (c = "."%char) then
            let '(f, scale, s2) := leadingFraction 0 1 false s1' in
            (f, scale, s2, bool_decide (length s1' ≠ length s2))
          else (0, 1, s1, false)
       | [] => (0, 1, s1, false)
       end in
     if negb pre && negb post then Fail invalid_duration
     else
       let '(u, rest) := span_unit s2 in
       match unitMap u with
       | None => Fail invalid_duration
       | Some unit =>
          if max_int64 / unit <? v then Fail invalid_duration
          else
            let v := v * unit in
            let v := if 0 <? f then wrap64 (v + float_fraction f unit scale) else v in
            if v <? 0 then Fail invalid_duration
            else
              let d := wrap64 (d + v) in
              if d <? 0 then Fail invalid_duration else Ret (d, rest)
       end
  end.

Fixpoint parse_chunks (fuel : nat) (d : Z) (s : bytes) : outcome Z :=
  match s, fuel with
  | [], _ => Ret d
  | _, O => Running
  | c :: _, S fuel =>
     if unit_stop c then
       r ← parse_chunk d s;
       parse_chunks fuel (fst r) (snd r)
     else Fail invalid_duration
  end.

Definition ParseDuration (s : bytes) : outcome Duration :=
  let '(neg, s) :=
    match s with
    | c :: s' =>
       if ascii_dec c "-" then (true, s')
       else if ascii_dec c "+" then (false, s') else (false, s)
    | [] => (false, s)
    end in
  if bool_decide (s = "0") then Ret 0
  else if bool_decide (s = []) then Fail invalid_duration
  else
    d ← parse_chunks (length s) 0 s;
    Ret (if neg : bool then - d else d).

End Parse.

(** The exact value of the fraction, rounded down. *)
Definition exact_fraction : FloatFraction := λ f unit scale, f * unit / scale.

#[local] Instance exact_fraction_ok : FloatFractionOk (H:=exact_fraction).
Proof.
  intros f unit k Hf Hu Hr. unfold float_fraction, exact_fraction.
  assert (0 < 10 ^ Z.of_nat k) by (apply Z.pow_pos_nonneg; lia).
  rewrite (Z.div_mod unit (10 ^ Z.of_nat k)) at 1 by lia. rewrite Hu, Z.add_0_r.
  rewrite (Z.mul_comm _ (unit / _)), Z.mul_assoc, Z.div_mul by lia. done.
Qed.

Example Duration_examples :
  let _ := exact_fraction in
  map Duration_String [0; 1; 1500; 12000000; 1500000000; 3723500000000; -60000000000] =
    ["0s"; "1ns"; "1.5" ++ micro ++ "s"; "12ms"; "1.5s"; "1h2m3.5s"; "-1m0s"] ∧
  map (ParseDuration (H:=exact_fraction)) ["1h2m3.5s"; "1.5h"; "1.5" ++ micro ++ "s"; "3"; "-2ms"] =
    [Ret 3723500000000; Ret 5400000000000; Ret 1500; Fail invalid_duration; Ret (-2000000)].
Proof. split; reflexivity. Qed.

(** ** Lemmas: digits *)

#[local] Notation fold_digits := (foldl (λ acc c, 10 * acc + digit_val c)%Z).

Lemma digit_val_range c : is_digit c = true → 0 ≤ digit_val c ≤ 9.
Proof. unfold is_digit, digit_val. intros [H1 H2]%andb_prop. lia. Qed.

Lemma fold_digits_ge s x : forallb is_digit s = true → 0 ≤ x → x ≤ fold_digits x s.
Proof.
  revert x. induction s as [|c s IH]; intros x Hs Hx; simpl in *; [lia|].
  apply andb_prop in Hs as [Hc Hs]. pose proof (digit_val_range c Hc).
  specialize (IH (10 * x + digit_val c) Hs). lia.
Qed.

Definition stops (rest : bytes) : Prop :=
  match rest with [] => True | c :: _ => is_digit c = false end.

Lemma leadingInt_spec ds rest x :
  forallb is_digit ds = true → 0 ≤ x → fold_digits x ds ≤ max_int64 → stops rest →
  leadingInt x (ds ++ rest) = Some (fold_digits x ds, rest).
Proof.
  intros Hds. revert x. induction ds as [|c ds IH]; intros x Hx Hmax Hrest; cbn [app leadingInt foldl].
  - destruct rest as [|c rest]; [done|]. simpl in Hrest |- *. by rewrite Hrest.
  - apply andb_prop in Hds as [Hc Hds]. rewrite Hc. pose proof (digit_val_range c Hc).
    cbn [foldl] in Hmax. pose proof (fold_digits_ge ds (10 * x + digit_val c) Hds ltac:(lia)).
    unfold max_int64, two63 in *.
    destruct (Z.ltb_spec ((9223372036854775808 - 1) / 10) x); [divlia|].
    destruct (Z.ltb_spec (9223372036854775808 - 1) (x * 10 + digit_val c)); [lia|].
    rewrite (Z.mul_comm x). apply IH; (done || lia).
Qed.

Lemma leadingFraction_spec ds rest x scale :
  forallb is_digit ds = true → 0 ≤ x → fold_digits x ds ≤ max_int64 → stops rest →
  leadingFraction x scale false (ds ++ rest) =
  (fold_digits x ds, scale * 10 ^ Z.of_nat (length ds), rest).
Proof.
  intros Hds. revert x scale. induction ds as [|c ds IH]; intros x scale Hx Hmax Hrest;
    cbn [app leadingFraction foldl length].
  - rewrite Z.mul_1_r. destruct rest as [|c rest]; [done|]. simpl in Hrest |- *. by rewrite Hrest.
  - apply andb_prop in Hds as [Hc Hds]. rewrite Hc. pose proof (digit_val_range c Hc).
    cbn [foldl] in Hmax. pose proof (fold_digits_ge ds (10 * x + digit_val c) Hds ltac:(lia)).
    unfold max_int64, two63 in *. cbn [orb].
    destruct (Z.ltb_spec ((9223372036854775808 - 1) / 10) x); [divlia|].
    destruct (Z.ltb_spec (9223372036854775808 - 1) (x * 10 + digit_val c)); [lia|].
    rewrite (Z.mul_comm x), IH by (done || lia).
    rewrite Nat2Z.inj_succ, Z.pow_succ_r by lia. do 2 f_equal. lia.
Qed.

(** ** Lemmas: fractions *)

(** [fr] is the text of the fraction [n / 10 ^ prec]. *)
Definition fraction_text (prec : nat) (n : Z) (fr : bytes) : Prop :=
  (fr = [] ∧ n = 0) ∨
  ∃ ds, fr = "."%char :: ds ∧ ds ≠ [] ∧ forallb is_digit ds = true ∧ (length ds ≤ prec)%nat ∧
        digits_val ds * 10 ^ Z.of_nat (prec - length ds) = n.

Lemma digits_val_bound ds :
  forallb is_digit ds = true → digits_val ds < 10 ^ Z.of_nat (length ds).
Proof.
  induction ds as [|c ds IH] using rev_ind; intros Hd; [done|].
  rewrite forallb_app in Hd. simpl in Hd. apply andb_prop in Hd as [Hd [Hc _]%andb_prop].
  rewrite digits_val_snoc, length_app, Nat.add_1_r, Nat2Z.inj_succ, Z.pow_succ_r by lia.
  pose proof (digit_val_range c Hc). specialize (IH Hd). lia.
Qed.

Lemma mod_pow_succ v (p : nat) :
  v mod 10 ^ Z.of_nat (S p) = 10 * ((v / 10) mod 10 ^ Z.of_nat p) + v mod 10.
Proof.
  rewrite Nat2Z.inj_succ, Z.pow_succ_r by lia.
  assert (0 < 10 ^ Z.of_nat p) by (apply Z.pow_pos_nonneg; lia).
  rewrite Z.rem_mul_r by lia. lia.
Qed.

Lemma div_pow_succ v (p : nat) : v / 10 ^ Z.of_nat (S p) = v / 10 / 10 ^ Z.of_nat p.
Proof.
  rewrite Nat2Z.inj_succ, Z.pow_succ_r by lia.
  assert (0 < 10 ^ Z.of_nat p) by (apply Z.pow_pos_nonneg; lia).
  by rewrite Z.div_div by lia.
Qed.

Lemma fmtFrac_true prec v acc :
  ∃ ds, fmtFrac prec v true acc = ("."%char :: ds ++ acc, v / 10 ^ Z.of_nat prec) ∧
    length ds = prec ∧ forallb is_digit ds = true ∧ digits_val ds = v mod 10 ^ Z.of_nat prec.
Proof.
  revert v acc. induction prec as [|prec IH]; intros v acc.
  - exists []. simpl. by rewrite Z.div_1_r, Z.mod_1_r.
  - cbn [fmtFrac orb]. destruct (IH (v / 10) (digit (v mod 10) :: acc)) as (ds & -> & Hl & Hd & Hv).
    exists (ds ++ [digit (v mod 10)]). rewrite <- app_assoc.
    assert (Hr : 0 ≤ v mod 10 < 10) by (apply Z.mod_pos_bound; lia).
    split; [by rewrite div_pow_succ|]. rewrite length_app, forallb_app, digits_val_snoc, Hd, Hv.
    simpl. rewrite digit_is_digit, digit_val_digit by lia.
    split; [lia|]. split; [done|]. by rewrite mod_pow_succ.
Qed.

Lemma fmtFrac_spec prec v acc :
  ∃ fr, fmtFrac prec v false acc = (fr ++ acc, v / 10 ^ Z.of_nat prec) ∧
        fraction_text prec (v mod 10 ^ Z.of_nat prec) fr.
Proof.
  revert v. induction prec as [|prec IH]; intros v.
  - exists []. simpl. rewrite Z.div_1_r, Z.mod_1_r. split; [done|by left].
  - cbn [fmtFrac orb]. assert (Hr : 0 ≤ v mod 10 < 10) by (apply Z.mod_pos_bound; lia).
    destruct (Z.eqb_spec (v mod 10) 0) as [H0|H0]; cbn [negb].
    + destruct (IH (v / 10)) as (fr & -> & Hfr). exists fr. split; [by rewrite div_pow_succ|].
      rewrite mod_pow_succ, H0, Z.add_0_r.
      destruct Hfr as [[-> ->]|(ds & -> & Hne & Hd & Hl & Hv)]; [by left|right].
      exists ds. repeat split; try done; [lia|].
      rewrite <- Hv. replace (S prec - length ds)%nat with (S (prec - length ds)) by lia.
      rewrite Nat2Z.inj_succ, Z.pow_succ_r by lia. lia.
    + destruct (fmtFrac_true prec (v / 10) (digit (v mod 10) :: acc)) as (ds & -> & Hl & Hd & Hv).
      exists ("."%char :: ds ++ [digit (v mod 10)]). split.
      { rewrite div_pow_succ. simpl. by rewrite <- app_assoc. }
      right. exists (ds ++ [digit (v mod 10)]).
      rewrite length_app, forallb_app, digits_val_snoc, Hd, Hv. simpl.
      rewrite digit_is_digit, digit_val_digit by lia.
      split; [done|]. split; [by destruct ds|]. split; [done|]. split; [lia|].
      rewrite mod_pow_succ. replace (S prec - _)%nat with 0%nat by lia.
      change (10 ^ Z.of_nat 0) with 1. lia.
Qed.

(** ** Lemmas: parsing a chunk *)

Lemma span_unit_spec u rest :
  Forall (λ c, unit_stop c = false) u → match rest with [] => True | c :: _ => unit_stop c = true end →
  span_unit (u ++ rest) = (u, rest).
Proof.
  intros Hu Hrest. induction Hu as [|c u Hc _ IH]; simpl.
  - destruct rest as [|c rest]; [done|]. simpl. by rewrite Hrest.
  - by rewrite Hc, IH.
Qed.

Lemma stop_not_digit c : unit_stop c = false → is_digit c = false ∧ c ≠ "."%char.
Proof. unfold unit_stop. intros [? ?%bool_decide_eq_false]%orb_false_iff. done. Qed.

Section Chunk.
Context `{FloatFractionOk}.

(** The pieces a printed duration is made of: a unit of [10 ^ prec]
    nanoseconds with a fraction, or minutes and hours without one. *)
Definition chunk_unit (prec : nat) (u : bytes) (unit : Z) : Prop :=
  unitMap u = Some unit ∧ u ≠ [] ∧ Forall (λ c, unit_stop c = false) u ∧ 0 < unit ∧
  (prec = 0%nat ∨ unit = 10 ^ Z.of_nat prec ∧ unit ≤ Second_).

(** The value of the text of a fraction *)
Lemma fraction_value prec u unit v n ds :
  chunk_unit prec u unit → ds ≠ [] → forallb is_digit ds = true → (length ds ≤ prec)%nat →
  digits_val ds * 10 ^ Z.of_nat (prec - length ds) = n →
  is_int64 (v * unit + n) →
  (if 0 <? digits_val ds
   then wrap64 (v * unit + float_fraction (digits_val ds) unit (10 ^ Z.of_nat (length ds)))
   else v * unit) = v * unit + n.
Proof.
  intros (_ & _ & _ & Hunit & Hprec) Hne Hds Hl Hval Hn64.
  destruct Hprec as [->|[Hprec Hsec]]; [destruct ds; [done|simpl in Hl; lia]|].
  assert (Hpow : 0 < 10 ^ Z.of_nat (prec - length ds)) by (apply Z.pow_pos_nonneg; lia).
  assert (Hpl : 0 < 10 ^ Z.of_nat (length ds)) by (apply Z.pow_pos_nonneg; lia).
  pose proof (digits_val_nonneg ds Hds).
  assert (Hsplit : unit = 10 ^ Z.of_nat (prec - length ds) * 10 ^ Z.of_nat (length ds)).
  { rewrite Hprec, <- Z.pow_add_r by lia. f_equal. lia. }
  assert (Hfrac : 0 < digits_val ds → float_fraction (digits_val ds) unit (10 ^ Z.of_nat (length ds)) = n).
  { intros _. rewrite float_fraction_exact.
    - rewrite Hsplit at 1. rewrite Z.div_mul by lia. done.
    - split; [done|]. apply digits_val_bound. done.
    - rewrite Hsplit. apply Z.mod_mul. lia.
    - done. }
  destruct (Z.ltb_spec 0 (digits_val ds)) as [Hpos|Hz].
  - rewrite Hfrac by done. by apply wrap64_small.
  - assert (digits_val ds = 0) as E by lia. rewrite E in Hval. lia.
Qed.

Lemma parse_chunk_spec prec u unit d v n fr rest :
  chunk_unit prec u unit → fraction_text prec n fr → 0 ≤ v → 0 ≤ d → 0 ≤ n →
  d + v * unit + n ≤ max_int64 →
  match rest with [] => True | c :: _ => unit_stop c = true end →
  parse_chunk d (itoa v ++ fr ++ u ++ rest) = Ret (d + v * unit + n, rest).
Proof.
  intros Hcu Hfr Hv Hd Hn Hmax Hrest. pose proof Hcu as (Hmap & Hune & Hu & Hunit & _).
  assert (v * 1 ≤ v * unit) by (apply Z.mul_le_mono_nonneg_l; lia).
  assert (Hvu : 0 ≤ v ≤ v * unit) by lia. assert (Hvmax : v ≤ max_int64) by lia.
  destruct (digits_spec v Hv) as [Hdv Hdd].
  assert (Hitoa : itoa v = digits v) by (unfold itoa; destruct (Z.ltb_spec v 0); [lia|done]).
  assert (Hstop : stops (fr ++ u ++ rest)).
  { destruct Hfr as [[-> _]|(ds & -> & _)]; [|done]. simpl.
    destruct u as [|c u]; [done|]. apply Forall_cons in Hu as [Hc _]. simpl. by apply stop_not_digit. }
  unfold parse_chunk. rewrite Hitoa, leadingInt_spec by (done || (change (fold_digits 0 (digits v)) with (digits_val (digits v)); lia)).
  change (fold_digits 0 (digits v)) with (digits_val (digits v)). rewrite Hdv.
  rewrite bool_decide_true.
  2:{ rewrite length_app. pose proof (digits_nonempty v). destruct (digits v); [done|simpl; lia]. }
  assert (Hn64 : is_int64 (v * unit + n) ∧ is_int64 (d + (v * unit + n)))
    by (unfold is_int64, max_int64, two63 in *; lia).
  assert (Hquot : v ≤ max_int64 / unit) by (apply Z.div_le_lower_bound; lia).
  destruct Hfr as [[-> ->]|(ds & -> & Hne & Hds & Hl & Hval)].
  - cbn [app]. destruct u as [|c u]; [done|]. cbn [app].
    apply Forall_cons in Hu as Huc. destruct Huc as [Hc _].
    apply stop_not_digit in Hc as [_ Hdot]. rewrite bool_decide_false by done.
    cbn [negb andb]. change (c :: u ++ rest) with ((c :: u) ++ rest).
    rewrite span_unit_spec, Hmap by done.
    destruct (Z.ltb_spec (max_int64 / unit) v); [lia|]. cbn [Z.ltb Z.compare].
    destruct (Z.ltb_spec (v * unit) 0); [nia|].
    rewrite Z.add_0_r in Hn64 |- *. rewrite wrap64_small by tauto.
    destruct (Z.ltb_spec (d + v * unit) 0); [nia|]. done.
  - cbn [app]. rewrite bool_decide_true by done.
    assert (Hpow : 0 < 10 ^ Z.of_nat (prec - length ds)) by (apply Z.pow_pos_nonneg; lia).
    pose proof (digits_val_nonneg ds Hds).
    assert (Hf : digits_val ds ≤ n) by nia.
    assert (Hustop : stops (u ++ rest)).
    { destruct u as [|c u]; [done|]. apply Forall_cons in Hu as [Hc _]. simpl. by apply stop_not_digit. }
    rewrite leadingFraction_spec by (done || (change (fold_digits 0 ds) with (digits_val ds); nia)).
    change (fold_digits 0 ds) with (digits_val ds).
    rewrite andb_false_l, span_unit_spec, Hmap by done.
    destruct (Z.ltb_spec (max_int64 / unit) v); [lia|].
    rewrite Z.mul_1_l, (fraction_value prec u unit v n ds) by (tauto || done).
    destruct (Z.ltb_spec (v * unit + n) 0); [nia|].
    rewrite wrap64_small by tauto. destruct (Z.ltb_spec (d + (v * unit + n)) 0); [nia|].
    by rewrite Z.add_assoc.
Qed.

End Chunk.

(** ** Lemmas: the whole text *)

Lemma itoa_head v : 0 ≤ v → ∃ c s, itoa v = c :: s ∧ is_digit c = true.
Proof.
  intros Hv. destruct (digits_spec v Hv) as [_ Hd]. pose proof (digits_nonempty v) as Hne.
  unfold itoa. destruct (Z.ltb_spec v 0); [lia|].
  destruct (digits v) as [|c s]; [done|]. simpl in Hd. apply andb_prop in Hd as [Hc _]. eauto.
Qed.

Definition starts_chunk (rest : bytes) : Prop :=
  match rest with [] => True | c :: _ => unit_stop c = true end.

Lemma itoa_starts v t : 0 ≤ v → starts_chunk (itoa v ++ t).
Proof.
  intros Hv. destruct (itoa_head v Hv) as (c & s & -> & Hc). simpl. unfold unit_stop. by rewrite Hc.
Qed.

Section Text.
Context `{FloatFractionOk}.

Lemma parse_chunks_step fuel prec u unit d v n fr rest :
  chunk_unit prec u unit → fraction_text prec n fr → 0 ≤ v → 0 ≤ d → 0 ≤ n →
  d + v * unit + n ≤ max_int64 → starts_chunk rest →
  (length (itoa v ++ fr ++ u ++ rest) ≤ fuel)%nat →
  ∃ fuel', parse_chunks fuel d (itoa v ++ fr ++ u ++ rest) =
           parse_chunks fuel' (d + v * unit + n) rest ∧ (length rest ≤ fuel')%nat.
Proof.
  intros Hu Hfr Hv Hd Hn Hmax Hrest Hfuel.
  pose proof (parse_chunk_spec prec u unit d v n fr rest Hu Hfr Hv Hd Hn Hmax Hrest) as Hp.
  pose proof (itoa_starts v (fr ++ u ++ rest) Hv) as Hst.
  destruct (itoa_head v Hv) as (c & s & E & Hc). rewrite E in *.
  destruct fuel as [|fuel]; [simpl in Hfuel; lia|]. exists fuel. split.
  - cbn [app parse_chunks]. cbn [app starts_chunk] in Hst. rewrite Hst. cbn [app] in Hp. by rewrite Hp.
  - simpl in Hfuel. rewrite !length_app in Hfuel. lia.
Qed.

Lemma no_fraction : fraction_text 0 0 [].
Proof. by left. Qed.

Lemma parse_chunks_nil fuel d : parse_chunks fuel d [] = Ret d.
Proof. by destruct fuel. Qed.

Lemma hour_unit : chunk_unit 0 "h" Hour_.
Proof. repeat split; try done; [by repeat constructor|by left]. Qed.
Lemma minute_unit : chunk_unit 0 "m" Minute_.
Proof. repeat split; try done; [by repeat constructor|by left]. Qed.
Lemma second_unit : chunk_unit 9 "s" Second_.
Proof. repeat split; try done; [by repeat constructor|by right]. Qed.
Lemma milli_unit : chunk_unit 6 "ms" Millisecond.
Proof. repeat split; try done; [by repeat constructor|by right]. Qed.
Lemma micro_unit : chunk_unit 3 (micro ++ "s") Microsecond.
Proof. repeat split; try done; [by repeat constructor|by right]. Qed.
Lemma nano_unit : chunk_unit 0 "ns" Nanosecond.
Proof. repeat split; try done; [by repeat constructor|by right]. Qed.

(** A chunk that ends the text. *)
Lemma parse_last_chunk fuel prec u unit d v n fr :
  chunk_unit prec u unit → fraction_text prec n fr → 0 ≤ v → 0 ≤ d → 0 ≤ n →
  d + v * unit + n ≤ max_int64 → (length (itoa v ++ fr ++ u) ≤ fuel)%nat →
  parse_chunks fuel d (itoa v ++ fr ++ u) = Ret (d + v * unit + n).
Proof.
  intros Hu Hfr Hv Hd Hn Hmax Hfuel.
  destruct (parse_chunks_step fuel prec u unit d v n fr []) as (f & Hp & _); try done.
  { by rewrite app_nil_r. }
  rewrite app_nil_r in Hp. by rewrite Hp, parse_chunks_nil.
Qed.

(** The text of a positive duration. *)
Definition positive_text (u : Z) : bytes :=
  if u <? Second_ then
    let '(prec, unit) :=
      if u <? Microsecond then (0%nat, "ns")
      else if u <? Millisecond then (3%nat, micro ++ "s")
      else (6%nat, "ms") in
    let '(frac, u) := fmtFrac prec u false unit in
    itoa u ++ frac
  else
    let '(frac, u) := fmtFrac 9 u false "s" in
    let secs := itoa (u mod 60) ++ frac in
    let u := u / 60 in
    if 0 <? u then
      let mins := itoa (u mod 60) ++ "m" ++ secs in
      let u := u / 60 in
      if 0 <? u then itoa u ++ "h" ++ mins else mins
    else secs.

Lemma Duration_String_eq d :
  Duration_String d =
  if Z.abs d =? 0 then "0s"
  else if d <? 0 then "-"%char :: positive_text (Z.abs d) else positive_text (Z.abs d).
Proof. reflexivity. Qed.

Lemma parse_small_text prec unit_text unit u :
  chunk_unit prec unit_text unit → unit = 10 ^ Z.of_nat prec → 0 < u ≤ max_int64 →
  let '(frac, v) := fmtFrac prec u false unit_text in
  parse_chunks (length (itoa v ++ frac)) 0 (itoa v ++ frac) = Ret u.
Proof.
  intros Hunit Hpow Hu. destruct (fmtFrac_spec prec u unit_text) as (fr & -> & Hfr).
  assert (Hpos : 0 < 10 ^ Z.of_nat prec) by (apply Z.pow_pos_nonneg; lia).
  pose proof (Z.div_mod u (10 ^ Z.of_nat prec)) as Hdm.
  pose proof (Z.mod_pos_bound u (10 ^ Z.of_nat prec) Hpos).
  assert (0 ≤ u / 10 ^ Z.of_nat prec) by (apply Z.div_pos; lia).
  rewrite (parse_last_chunk _ prec unit_text unit 0 _ (u mod 10 ^ Z.of_nat prec) fr); try done.
  - f_equal. rewrite Hpow. lia.
  - lia.
  - rewrite Hpow. lia.
Qed.

Lemma positive_text_parse u :
  0 < u ≤ max_int64 → parse_chunks (length (positive_text u)) 0 (positive_text u) = Ret u.
Proof.
  intros Hu. unfold positive_text. destruct (Z.ltb_spec u Second_) as [Hlt|Hge].
  { destruct (u <? Microsecond); [|destruct (u <? Millisecond)].
    - apply (parse_small_text 0 "ns" Nanosecond); [apply nano_unit|done..].
    - apply (parse_small_text 3 (micro ++ "s") Microsecond); [apply micro_unit|done..].
    - apply (parse_small_text 6 "ms" Millisecond); [apply milli_unit|done..]. }
  destruct (fmtFrac_spec 9 u "s") as (fr & -> & Hfr).
  change (10 ^ Z.of_nat 9) with Second_ in *.
  set (n := u mod Second_) in *. set (secs := u / Second_).
  assert (Hdm : u = secs * Second_ + n) by (unfold secs, n, Second_; divlia).
  assert (Hn : 0 ≤ n) by (unfold n, Second_; divlia).
  assert (Hs : 0 ≤ secs) by (unfold secs, Second_ in *; divlia).
  clearbody n secs.
  assert (Hsm : 0 ≤ secs mod 60 ∧ secs = 60 * (secs / 60) + secs mod 60) by divlia.
  assert (Hmm : 0 ≤ (secs / 60) mod 60 ∧ secs / 60 = 60 * (secs / 60 / 60) + (secs / 60) mod 60) by divlia.
  assert (Hh : 0 ≤ secs / 60 ∧ 0 ≤ secs / 60 / 60) by divlia.
  set (s60 := secs mod 60) in *. set (m := secs / 60) in *. set (m60 := m mod 60) in *.
  set (h := m / 60) in *. clearbody h m60 m s60.
  pose proof second_unit as Us. pose proof minute_unit as Um. pose proof hour_unit as Uh.
  pose proof no_fraction as Nf.
  destruct (Z.ltb_spec 0 m); [destruct (Z.ltb_spec 0 h)|].
  - destruct (parse_chunks_step (length (itoa h ++ "h" ++ itoa m60 ++ "m" ++ itoa s60 ++ fr ++ "s"))
      0 "h" Hour_ 0 h 0 [] (itoa m60 ++ "m" ++ itoa s60 ++ fr ++ "s")) as (f1 & E1 & F1);
      [done|done|lia|lia|lia|unfold Hour_, Minute_, Second_ in *; lia|by (apply itoa_starts; lia)|done|].
    cbn [app] in E1. etransitivity; [exact E1|].
    destruct (parse_chunks_step f1 0 "m" Minute_ (0 + h * Hour_ + 0) m60 0 [] (itoa s60 ++ fr ++ "s"))
      as (f2 & E2 & F2);
      [done|done|lia|unfold Hour_, Minute_, Second_ in *; lia|lia
      |unfold Hour_, Minute_, Second_ in *; lia|by (apply itoa_starts; lia)|done|].
    cbn [app] in E2. etransitivity; [exact E2|].
    rewrite (parse_last_chunk f2 9 "s" Second_ _ s60 n fr); try done;
      unfold Hour_, Minute_, Second_ in *; [f_equal; lia|lia..].
  - destruct (parse_chunks_step (length (itoa m60 ++ "m" ++ itoa s60 ++ fr ++ "s"))
      0 "m" Minute_ 0 m60 0 [] (itoa s60 ++ fr ++ "s")) as (f2 & E2 & F2);
      [done|done|lia|lia|lia|unfold Minute_, Second_ in *; lia|by (apply itoa_starts; lia)|done|].
    cbn [app] in E2. etransitivity; [exact E2|].
    rewrite (parse_last_chunk f2 9 "s" Second_ _ s60 n fr); try done;
      unfold Hour_, Minute_, Second_ in *; [f_equal; lia|lia..].
  - rewrite (parse_last_chunk _ 9 "s" Second_ 0 s60 n fr); try done;
      unfold Second_ in *; [f_equal; lia|lia..].
Qed.

Lemma positive_text_head u : 0 < u →
  ∃ c d s, positive_text u = c :: d :: s ∧ is_digit c = true.
Proof.
  intros Hu.
  assert (Hcons : ∀ v t, 0 ≤ v → t ≠ [] → ∃ c d s, itoa v ++ t = c :: d :: s ∧ is_digit c = true).
  { intros v t Hv Ht. destruct (itoa_head v Hv) as (c & s & -> & Hc).
    destruct s as [|d s]; [destruct t as [|d t]; [done|]|]; simpl; eauto 10. }
  assert (Hfrac : ∀ prec v acc, acc ≠ [] → (fmtFrac prec v false acc).1 ≠ []).
  { intros prec v acc Hne. destruct (fmtFrac_spec prec v acc) as (fr & -> & _). simpl.
    by intros [_ ?]%app_nil. }
  unfold positive_text. destruct (u <? Second_).
  - destruct (if u <? Microsecond then (0%nat, "ns") else _) as [prec unit] eqn:E.
    assert (unit ≠ []) as Hne by (repeat case_match; by simplify_eq).
    specialize (Hfrac prec u unit Hne).
    destruct (fmtFrac_spec prec u unit) as (fr & Ef & _). rewrite Ef in *. simpl in Hfrac.
    apply Hcons; [|done]. apply Z.div_pos; [lia|]. apply Z.pow_pos_nonneg; lia.
  - clear Hfrac. destruct (fmtFrac_spec 9 u "s") as (fr & -> & _).
    assert (Hne : fr ++ "s" ≠ []) by (by intros [_ ?]%app_nil).
    assert (0 ≤ u / 10 ^ Z.of_nat 9) by (change (10 ^ Z.of_nat 9) with Second_; unfold Second_; divlia).
    set (v := u / 10 ^ Z.of_nat 9) in *. clearbody v.
    destruct (0 <? v / 60); [destruct (0 <? v / 60 / 60)|]; apply Hcons; try done; divlia.
Qed.

Lemma ParseDuration_String d : Z.abs d ≤ max_int64 → ParseDuration (Duration_String d) = Ret d.
Proof.
  intros Hd. rewrite Duration_String_eq. destruct (Z.eqb_spec (Z.abs d) 0) as [Hz|Hz].
  { replace d with 0 by lia. reflexivity. }
  pose proof (positive_text_parse (Z.abs d) ltac:(lia)) as Hp.
  destruct (positive_text_head (Z.abs d) ltac:(lia)) as (c & e & s & Et & Hc).
  assert (Hsign : (if ascii_dec c "-" then (true, e :: s)
                   else if ascii_dec c "+" then (false, e :: s) else (false, c :: e :: s)) =
                  (false, c :: e :: s)).
  { destruct (ascii_dec c "-") as [->|]; [done|]. destruct (ascii_dec c "+") as [->|]; done. }
  unfold ParseDuration. rewrite Et in *. destruct (Z.ltb_spec d 0).
  - destruct (ascii_dec "-" "-"); [|done].
    rewrite !bool_decide_false by done. rewrite Hp. cbn [mbind outcome_bind]. f_equal. lia.
  - rewrite Hsign, !bool_decide_false by done. rewrite Hp. cbn [mbind outcome_bind]. f_equal. lia.
Qed.

(** What [Duration.String] prints, [ParseDuration] reads back, for every
    64-bit duration but the most negative one. *)
Theorem Duration_roundtrip d :
  Z.abs d ≤ max_int64 → ParseDuration (Duration_String d) = Ret d.
Proof. apply ParseDuration_String. Qed.

End Text.

Lemma Duration_roundtrip_witness :
  Z.abs (-3723500000001) ≤ max_int64 ∧
  ParseDuration (H:=exact_fraction) (Duration_String (-3723500000001)) = Ret (-3723500000001).
Proof.
  assert (R : Z.abs (-3723500000001) ≤ max_int64) by (unfold max_int64, two63; simpl; lia).
  split; [exact R|].
  exact (Duration_roundtrip (H:=exact_fraction) (H0:=exact_fraction_ok) _ R).
Defined.
