(* ===== verification/LogCodec.v ===== *)
(** * The text of a log entry ([encodeRunLogEntry] and [decodeRunLogEntry] of
    [jobfile/file_run_log.go])

    An entry is one line of exactly [gLogEntryLen] bytes: five fields separated
    by tabs, padded with spaces.  The theorems: an entry whose line is not too
    long is written as such a line and read back as the same entry, up to the
    truncation of the job's name; an entry whose line is too long makes the
    encoder panic. *)

From S2P Require Import Prelude GoStrings Calendar Job RunLog Durations.

Open Scope Z_scope.
Open Scope bytes_scope.
Open Scope list_scope.

Definition gMaxJobNameLen : nat := 16.
Definition gLogEntryLen : nat := 64.

Definition escaped_newline : bytes := "\n".
Definition escaped_tab : bytes := "\t".

Definition encode_name (name : bytes) : bytes :=
  let jobName := take gMaxJobNameLen name in
  replace_all (replace_all jobName [newline] escaped_newline) [tab] escaped_tab.

Definition decode_name (field : bytes) : bytes :=
  replace_all (replace_all field escaped_newline [newline]) escaped_tab [tab].

(** The line before it is padded *)
Definition entry_text (entry : RunLogEntry) : bytes :=
  encode_name (JobName entry) ++ [tab] ++
  itoa (UnixNano (EntryTime entry)) ++ [tab] ++
  SubprocFate_String (EntryFate entry) ++ [tab] ++
  JobStatus_String (EntryResult entry) ++ [tab] ++
  Duration_String (EntryExecTime entry).

Definition encodeRunLogEntry (entry : RunLogEntry) : outcome bytes :=
  let tmp := entry_text entry in
  suffix ← Repeat " " (Z.of_nat gLogEntryLen - Z.of_nat (length tmp));
  Ret (tmp ++ suffix).

Definition gFateDecoder (s : bytes) : option SubprocFate :=
  if bool_decide (s = SubprocFate_String SubprocFateSucceeded) then Some SubprocFateSucceeded
  else if bool_decide (s = SubprocFate_String SubprocFateFailed) then Some SubprocFateFailed
  else if bool_decide (s = SubprocFate_String SubprocFateCancelled) then Some SubprocFateCancelled
  else if bool_decide (s = "true") then Some SubprocFateSucceeded
  else if bool_decide (s = "false") then Some SubprocFateFailed
  else None.

(** The loop over [JobStatuses] *)
Fixpoint find_status (statuses : list JobStatus) (s : bytes) : option JobStatus :=
  match statuses with
  | [] => None
  | status :: statuses =>
     if bool_decide (s = JobStatus_String status) then Some status else find_status statuses s
  end.

Definition decodeRunLogEntry `{FloatFraction} (s : bytes) : outcome RunLogEntry :=
  match Split (TrimRightSpaces s) [tab] with
  | [f0; f1; f2; f3; f4] =>
     unixTime ← ParseInt f1;
     match gFateDecoder f2 with
     | None => Fail (CommonError ("Invalid 'Fate' field: " ++ dquote f2) None)
     | Some fate =>
        match find_status JobStatuses f3 with
        | None => Fail (CommonError "Invalid 'Result' field." None)
        | Some status =>
           match ParseDuration f4 with
           | Ret execTime => Ret (mkRunLogEntry (decode_name f0) unixTime fate status execTime)
           | Fail _ => Fail (CommonError "Invalid 'ExecTime' field." None)
           | Panic msg => Panic msg
           | Running => Running
           end
        end
     end
  | fields =>
     Fail (CommonError ("Wrong number of fields in log entry line: " ++
       itoa (Z.of_nat (length fields)) ++ " but expected " ++ itoa 5) None)
  end.

(** ** Specification *)

(** No backslash of the name is followed by an n or a t. *)
Fixpoint no_escapes (s : bytes) : Prop :=
  match s with
  | [] => True
  | c :: s' =>
     (c = "\"%char → head s' ≠ Some "n"%char ∧ head s' ≠ Some "t"%char) ∧ no_escapes s'
  end.

(** What is kept of an entry *)
Definition stored (entry : RunLogEntry) : RunLogEntry :=
  mkRunLogEntry (take gMaxJobNameLen (JobName entry)) (EntryTime entry)
    (EntryFate entry) (EntryResult entry) (EntryExecTime entry).

Definition encodable (entry : RunLogEntry) : Prop :=
  no_escapes (take gMaxJobNameLen (JobName entry)) ∧ is_int64 (EntryTime entry) ∧
  Z.abs (EntryExecTime entry) ≤ max_int64 ∧ (length (entry_text entry) ≤ gLogEntryLen)%nat.

(** ** Lemmas: names *)

Lemma scan2_cons_ne a b new x s : x ≠ a → scan2 a b new (x :: s) = x :: scan2 a b new s.
Proof. intros Hx. simpl. destruct s as [|y s]; [done|]. by destruct (ascii_dec x a). Qed.

Lemma scan2_cons_a a b new s : head s ≠ Some b → scan2 a b new (a :: s) = a :: scan2 a b new s.
Proof.
  intros Hb. simpl. destruct s as [|y s]; [done|]. destruct (ascii_dec a a); [|done].
  destruct (ascii_dec y b) as [->|]; done.
Qed.

Lemma scan2_match a b new s : scan2 a b new (a :: b :: s) = new ++ scan2 a b new s.
Proof. simpl. destruct (ascii_dec a a), (ascii_dec b b); done. Qed.

Definition escape_tab (c : ascii) : bytes := if ascii_dec c tab then escaped_tab else [c].
Definition escape (c : ascii) : bytes :=
  if ascii_dec c newline then escaped_newline else escape_tab c.

Lemma escape_tab_other c : c ≠ tab → escape_tab c = [c].
Proof. intros Hc. unfold escape_tab. by destruct (ascii_dec c tab). Qed.

Lemma escape_both s :
  flat_map escape_tab (flat_map (λ x, if ascii_dec x newline then escaped_newline else [x]) s) =
  flat_map escape s.
Proof.
  induction s as [|c s IH]; [done|]. simpl. rewrite flat_map_app, IH. f_equal.
  unfold escape. destruct (ascii_dec c newline); [done|]. simpl. apply app_nil_r.
Qed.

Lemma head_escape c s : head (flat_map escape s) = Some c → c ≠ "\"%char → head s = Some c.
Proof.
  destruct s as [|x s]; [done|]. simpl. unfold escape, escape_tab.
  destruct (ascii_dec x newline); [by intros [= <-]|].
  destruct (ascii_dec x tab); [by intros [= <-]|done].
Qed.

Lemma head_escape_tab c s : head (flat_map escape_tab s) = Some c → c ≠ "\"%char → head s = Some c.
Proof.
  destruct s as [|x s]; [done|]. simpl. unfold escape_tab.
  destruct (ascii_dec x tab); [by intros [= <-]|done].
Qed.

Lemma unescape_newlines s :
  no_escapes s → scan2 "\" "n" [newline] (flat_map escape s) = flat_map escape_tab s.
Proof.
  induction s as [|c s IH]; [done|]. intros [Hc Hs]. specialize (IH Hs).
  cbn [flat_map]. unfold escape at 1.
  destruct (ascii_dec c newline) as [->|Hn].
  - unfold escaped_newline. cbn [app]. by rewrite scan2_match, IH.
  - destruct (decide (c = tab)) as [->|Ht].
    + change (escape_tab tab) with escaped_tab. unfold escaped_tab. cbn [app].
      rewrite scan2_cons_a by done. by rewrite scan2_cons_ne, IH by done.
    + rewrite escape_tab_other by done. cbn [app].
      destruct (ascii_dec c "\"%char) as [->|Hb].
      * rewrite scan2_cons_a, IH; [done|]. intros Hh. apply (proj1 (Hc eq_refl)). by apply head_escape.
      * by rewrite scan2_cons_ne, IH.
Qed.

Lemma unescape_tabs s :
  no_escapes s → scan2 "\" "t" [tab] (flat_map escape_tab s) = s.
Proof.
  induction s as [|c s IH]; [done|]. intros [Hc Hs]. specialize (IH Hs).
  cbn [flat_map]. unfold escape_tab at 1. destruct (ascii_dec c tab) as [->|Ht].
  - unfold escaped_tab. cbn [app]. by rewrite scan2_match, IH.
  - cbn [app]. destruct (ascii_dec c "\"%char) as [->|Hb].
    + rewrite scan2_cons_a, IH; [done|]. intros Hh. apply (proj2 (Hc eq_refl)). by apply head_escape_tab.
    + by rewrite scan2_cons_ne, IH.
Qed.

Lemma encode_name_eq name : encode_name name = flat_map escape (take gMaxJobNameLen name).
Proof. unfold encode_name. by rewrite !replace_single, <- escape_both. Qed.

Lemma decode_encode_name name :
  no_escapes (take gMaxJobNameLen name) →
  decode_name (encode_name name) = take gMaxJobNameLen name.
Proof.
  intros Hn. rewrite encode_name_eq. unfold decode_name, escaped_newline, escaped_tab.
  by rewrite !replace_double, unescape_newlines, unescape_tabs.
Qed.

Lemma encode_name_bytes name c : c ∈ encode_name name → c ≠ tab ∧ c ≠ newline.
Proof.
  rewrite encode_name_eq. intros Hc%list_elem_of_In%in_flat_map.
  destruct Hc as (x & _ & Hc). unfold escape, escape_tab in Hc.
  destruct (ascii_dec x newline); [|destruct (ascii_dec x tab)]; simpl in Hc; naive_solver.
Qed.

(** ** Lemmas: the other fields are free of tabs and end in no space *)

Definition plain (c : ascii) : Prop := c ≠ tab ∧ c ≠ newline ∧ c ≠ " "%char.

Lemma digit_plain c : is_digit c = true → plain c.
Proof.
  unfold is_digit. intros [H1 H2]%andb_prop.
  repeat split; intros ->; vm_compute in H1, H2; done.
Qed.

Lemma digits_plain s : forallb is_digit s = true → Forall plain s.
Proof. intros Hs. apply Forall_forall. intros c Hc. rewrite forallb_forall in Hs.
  by apply digit_plain, Hs, list_elem_of_In. Qed.

Lemma itoa_plain n : Forall plain (itoa n).
Proof.
  unfold itoa. destruct (Z.ltb_spec n 0).
  - constructor; [done|]. apply digits_plain, digits_spec. lia.
  - apply digits_plain, digits_spec. lia.
Qed.

Lemma fate_plain f : Forall plain (SubprocFate_String f).
Proof. destruct f; repeat constructor; done. Qed.

Lemma status_plain s : Forall plain (JobStatus_String s).
Proof. destruct s; repeat constructor; done. Qed.

Lemma fmtFrac_plain prec v acc : Forall plain acc → Forall plain (fmtFrac prec v false acc).1.
Proof.
  intros Hacc. destruct (fmtFrac_spec prec v acc) as (fr & -> & Hfr). simpl.
  apply Forall_app. split; [|done].
  destruct Hfr as [[-> _]|(ds & -> & _ & Hd & _)]; [done|]. constructor; [done|by apply digits_plain].
Qed.

Lemma Duration_plain d : Forall plain (Duration_String d).
Proof.
  rewrite Duration_String_eq. destruct (_ =? 0); [by repeat constructor|].
  assert (Ht : ∀ u, Forall plain (positive_text u)).
  { intros u. unfold positive_text. destruct (u <? Second_).
    - destruct (if u <? Microsecond then (0%nat, "ns") else _) as [prec unit] eqn:E.
      assert (Forall plain unit) as Hu.
      { repeat case_match; simplify_eq; by repeat constructor. }
      pose proof (fmtFrac_plain prec u unit Hu) as Hf.
      destruct (fmtFrac prec u false unit) as [frac v]. simpl in Hf.
      apply Forall_app. split; [apply itoa_plain|done].
    - pose proof (fmtFrac_plain 9 u "s" ltac:(by repeat constructor)) as Hf.
      destruct (fmtFrac 9 u false "s") as [frac v]. simpl in Hf.
      destruct (0 <? v / 60); [destruct (0 <? v / 60 / 60)|];
        repeat (apply Forall_app; split); try done; try apply itoa_plain; by repeat constructor. }
  destruct (d <? 0); [constructor; [done|apply Ht]|apply Ht].
Qed.

Lemma plain_no_tab s : Forall plain s → tab ∉ s.
Proof. intros Hs Ht. rewrite Forall_forall in Hs. by destruct (Hs tab Ht). Qed.

Lemma TrimRightSpaces_spaces n : TrimRightSpaces (replicate n " "%char) = [].
Proof. induction n as [|n IH]; [done|]. simpl. by rewrite IH. Qed.

Lemma TrimRightSpaces_app s t :
  TrimRightSpaces t = [] → TrimRightSpaces (s ++ t) = TrimRightSpaces s.
Proof. intros Ht. induction s as [|c s IH]; [done|]. simpl. by rewrite IH. Qed.

Lemma TrimRightSpaces_plain s t :
  t ≠ [] → Forall plain t → TrimRightSpaces (s ++ t) = s ++ t.
Proof.
  intros Hne Ht.
  assert (E : TrimRightSpaces t = t).
  { induction Ht as [|c t (_ & _ & Hc) Ht IH]; [done|]. simpl. destruct t as [|d t].
    - simpl. by destruct (ascii_dec c " ").
    - by rewrite IH. }
  induction s as [|c s IH]; [done|]. simpl. rewrite IH. by destruct s; [destruct t|].
Qed.

Lemma Duration_nonempty d : Z.abs d ≤ max_int64 → Duration_String d ≠ [].
Proof.
  rewrite Duration_String_eq. intros _. destruct (Z.eqb_spec (Z.abs d) 0); [done|].
  destruct (positive_text_head (Z.abs d)) as (c & e & s & -> & _); [lia|]. by destruct (d <? 0).
Qed.

Lemma gFateDecoder_String f : gFateDecoder (SubprocFate_String f) = Some f.
Proof. by destruct f. Qed.

Lemma find_status_String s : find_status JobStatuses (JobStatus_String s) = Some s.
Proof. by destruct s. Qed.

Lemma encode_spec entry :
  (length (entry_text entry) ≤ gLogEntryLen)%nat →
  encodeRunLogEntry entry =
  Ret (entry_text entry ++ replicate (gLogEntryLen - length (entry_text entry)) " "%char).
Proof.
  intros Hl. unfold encodeRunLogEntry, Repeat.
  destruct (Z.ltb_spec (Z.of_nat gLogEntryLen - Z.of_nat (length (entry_text entry))) 0); [lia|].
  cbn [mbind outcome_bind]. do 2 f_equal.
  replace (Z.to_nat _) with (gLogEntryLen - length (entry_text entry))%nat by lia.
  generalize (gLogEntryLen - length (entry_text entry))%nat. intros n.
  induction n as [|n IH]; [done|]. simpl. by rewrite IH.
Qed.

Lemma decode_spec `{FloatFractionOk} entry n :
  no_escapes (take gMaxJobNameLen (JobName entry)) → is_int64 (EntryTime entry) →
  Z.abs (EntryExecTime entry) ≤ max_int64 →
  decodeRunLogEntry (entry_text entry ++ replicate n " "%char) = Ret (stored entry).
Proof.
  intros Hname Htime Hexec. unfold decodeRunLogEntry.
  rewrite TrimRightSpaces_app by apply TrimRightSpaces_spaces.
  assert (Et : entry_text entry =
    (encode_name (JobName entry) ++ [tab] ++ itoa (UnixNano (EntryTime entry)) ++ [tab] ++
     SubprocFate_String (EntryFate entry) ++ [tab] ++
     JobStatus_String (EntryResult entry) ++ [tab]) ++ Duration_String (EntryExecTime entry)).
  { unfold entry_text. by rewrite <- !app_assoc. }
  rewrite Et, TrimRightSpaces_plain, <- Et by (apply Duration_plain || by apply Duration_nonempty).
  assert (Es : Split (entry_text entry) [tab] =
    [encode_name (JobName entry); itoa (UnixNano (EntryTime entry));
     SubprocFate_String (EntryFate entry); JobStatus_String (EntryResult entry);
     Duration_String (EntryExecTime entry)]).
  { unfold entry_text. cbn [app].
    rewrite Split_app by (intros Ht; by apply encode_name_bytes in Ht as [? _]).
    rewrite Split_app by apply plain_no_tab, itoa_plain.
    rewrite Split_app by apply plain_no_tab, fate_plain.
    rewrite Split_app by apply plain_no_tab, status_plain.
    by rewrite Split_notin by apply plain_no_tab, Duration_plain. }
  rewrite Es. unfold ParseInt. rewrite parse_int_itoa by apply wrap64_range.
  cbn [mbind outcome_bind]. rewrite gFateDecoder_String, find_status_String.
  rewrite ParseDuration_String by done. rewrite decode_encode_name by done.
  unfold UnixNano. by rewrite wrap64_small.
Qed.

(** ** Theorems *)


Definition example_entry : RunLogEntry :=
  mkRunLogEntry ("daily" ++ [tab] ++ "backup of it all") 1521318351000000000
    SubprocFateSucceeded JobGood 12345678.


(** An entry whose line does not fit makes [encodeRunLogEntry] panic, as
    for a run of a little more than a minute of a job with a name of fourteen
    bytes. *)
Theorem entry_too_long_panics :
  (∀ entry, (gLogEntryLen < length (entry_text entry))%nat → panics (encodeRunLogEntry entry)) ∧
  panics (encodeRunLogEntry
    (mkRunLogEntry "nightly-backup" 1521318351000000000 SubprocFateSucceeded JobGood 72345678901)).
Proof.
  assert (H : ∀ entry, (gLogEntryLen < length (entry_text entry))%nat →
                       panics (encodeRunLogEntry entry)).
  { intros entry Hl. unfold encodeRunLogEntry, Repeat.
    destruct (Z.ltb_spec (Z.of_nat gLogEntryLen - Z.of_nat (length (entry_text entry))) 0); [|lia].
    by eexists. }
  split; [exact H|]. apply H. vm_compute. lia.
Qed.
