(* ===== verification/FileSys.v ===== *)
(** * The part of the file system the file log uses (Go's [os] and [io/ioutil])

    Files are byte strings at paths.  Any operation may fail with an error of
    the operating system: the state carries the list of the faults to come,
    [None] standing for an operation that is let through.  A file that is open
    is addressed by its path, since the log never renames or removes a file it
    has open.  The name of a temporary file is chosen by a parameter that only
    has to avoid the existing paths. *)

From S2P Require Import Prelude GoStrings.

Open Scope bytes_scope.
Open Scope list_scope.

Record fsys := mkFsys {
  files : gmap bytes bytes;
  faults : list (option errno)
}.

(** The next operation, unless it fails. *)
Definition faulty {A} (op : stM fsys A) : stM fsys A := λ s,
  match faults s with
  | Some e :: fl => (Fail (OsError e), mkFsys (files s) fl)
  | None :: fl => op (mkFsys (files s) fl)
  | [] => op s
  end.

Definition set_files (f : gmap bytes bytes → gmap bytes bytes) : stM fsys unit :=
  modifyS (λ s, mkFsys (f (files s)) (faults s)).

Definition contents (path : bytes) : stM fsys bytes := λ s,
  match files s !! path with
  | Some c => (Ret c, s)
  | None => (Fail (OsError ENOENT), s)
  end.

(** [os.Open], or [os.OpenFile] without [O_CREATE] *)
Definition os_Open (path : bytes) : stM fsys unit := faulty (contents path;; mret tt).

(** [f.Stat().Size()] *)
Definition file_Size (path : bytes) : stM fsys nat :=
  faulty (c ← contents path; mret (length c)).

Definition io_EOF : error := LibError "EOF".

(** [f.ReadAt(buf, offset)] with a buffer of [n] bytes *)
Definition file_ReadAt (path : bytes) (n offset : nat) : stM fsys bytes :=
  faulty (c ← contents path;
          if bool_decide (offset + n ≤ length c) then mret (take n (drop offset c))
          else failS io_EOF).

(** [f.WriteString] at the end of the file *)
Definition file_Write (path data : bytes) : stM fsys unit :=
  faulty (c ← contents path; set_files (λ fs, <[path := c ++ data]> fs)).

(** [f.Truncate]: the length may be negative, which is an error. *)
Definition file_Truncate (path : bytes) (len : Z) : stM fsys unit :=
  faulty (c ← contents path;
          if (len <? 0)%Z then failS (LibError "invalid argument")
          else set_files (λ fs, <[path := take (Z.to_nat len) c]> fs)).

(** [ioutil.WriteFile], or opening with [O_CREATE|O_TRUNC] when [data] is empty *)
Definition WriteFile (path data : bytes) : stM fsys unit :=
  faulty (set_files (λ fs, <[path := data]> fs)).

Definition os_Remove (path : bytes) : stM fsys unit :=
  faulty (contents path;; set_files (λ fs, delete path fs)).

Definition os_Rename (oldpath newpath : bytes) : stM fsys unit :=
  faulty (c ← contents oldpath; set_files (λ fs, <[newpath := c]> (delete oldpath fs))).

(** A path for a temporary file *)
Class TempNames := temp_name : gset bytes → bytes.
Class TempNamesOk `{TempNames} : Prop :=
  temp_name_fresh : ∀ used, temp_name used ∉ used.

Definition TempFile `{TempNames} : stM fsys bytes :=
  faulty (λ s,
    let path := temp_name (dom (files s)) in
    (Ret path, mkFsys (<[path := []]> (files s)) (faults s))).

(** [err != nil && os.IsNotExist(err)] *)
Definition IsNotExist (e : error) : bool :=
  match e with OsError ENOENT => true | _ => false end.

(** An error that is ignored. *)
Definition ignore {S A} (m : stM S A) : stM S unit := try_ m;; mret tt.

(** ** Copying, where renaming does not work ([renameRobust]) *)

(** The loop copies 1024 bytes per round; [opened] says whether the new file
    could be opened, which the code does not check before it writes. *)
Fixpoint copy_loop (fuel : nat) (oldpath newpath : bytes) (opened : bool) (pos : nat)
    : stM fsys unit :=
  match fuel with
  | O => λ s, (Running, s)
  | S fuel =>
     chunk ← faulty (c ← contents oldpath; mret (take 1024 (drop pos c)));
     if bool_decide (chunk = []) then mret tt
     else
       (if opened then file_Write newpath chunk else failS (LibError "invalid argument"));;
       copy_loop fuel oldpath newpath opened (pos + length chunk)
  end.

Definition renameRobust (oldpath newpath : bytes) : stM fsys unit :=
  renamed ← try_ (os_Rename oldpath newpath);
  match renamed with
  | inl _ => mret tt
  | inr _ =>
     os_Open oldpath;;
     size ← file_Size oldpath;
     opened ← try_ (WriteFile newpath []);
     copy_loop (S size) oldpath newpath (match opened with inl _ => true | inr _ => false end) 0;;
     ignore (os_Remove oldpath)
  end.

(** ** Lemmas: operations that meet no fault *)

Definition no_faults (s : fsys) : Prop := faults s = [].

Lemma faulty_none {A} (op : stM fsys A) s : no_faults s → faulty op s = op s.
Proof. unfold no_faults, faulty. by intros ->. Qed.

Lemma contents_Some path c s : files s !! path = Some c → contents path s = (Ret c, s).
Proof. unfold contents. by intros ->. Qed.

Lemma os_Open_Some path c s :
  no_faults s → files s !! path = Some c → os_Open path s = (Ret tt, s).
Proof.
  intros Hf Hc. unfold os_Open. rewrite faulty_none by done.
  by rewrite (stM_bind_Ret _ _ _ _ _ (contents_Some path c s Hc)).
Qed.

Lemma os_Open_None path s :
  no_faults s → files s !! path = None → os_Open path s = (Fail (OsError ENOENT), s).
Proof.
  intros Hf Hc. unfold os_Open. rewrite faulty_none by done.
  rewrite stM_bind_eq. unfold contents. by rewrite Hc.
Qed.

Lemma file_Size_Some path c s :
  no_faults s → files s !! path = Some c → file_Size path s = (Ret (length c), s).
Proof.
  intros Hf Hc. unfold file_Size. rewrite faulty_none by done.
  by rewrite (stM_bind_Ret _ _ _ _ _ (contents_Some path c s Hc)).
Qed.

Lemma file_ReadAt_Some path c n offset s :
  no_faults s → files s !! path = Some c → offset + n ≤ length c →
  file_ReadAt path n offset s = (Ret (take n (drop offset c)), s).
Proof.
  intros Hf Hc Hl. unfold file_ReadAt. rewrite faulty_none by done.
  rewrite (stM_bind_Ret _ _ _ _ _ (contents_Some path c s Hc)).
  by rewrite bool_decide_true.
Qed.

Lemma file_Write_Some path c data s :
  no_faults s → files s !! path = Some c →
  file_Write path data s = (Ret tt, mkFsys (<[path := c ++ data]> (files s)) (faults s)).
Proof.
  intros Hf Hc. unfold file_Write. rewrite faulty_none by done.
  by rewrite (stM_bind_Ret _ _ _ _ _ (contents_Some path c s Hc)).
Qed.

Lemma WriteFile_ok path data s :
  no_faults s → WriteFile path data s = (Ret tt, mkFsys (<[path := data]> (files s)) (faults s)).
Proof. intros Hf. unfold WriteFile. by rewrite faulty_none. Qed.

Lemma os_Remove_Some path c s :
  no_faults s → files s !! path = Some c →
  os_Remove path s = (Ret tt, mkFsys (delete path (files s)) (faults s)).
Proof.
  intros Hf Hc. unfold os_Remove. rewrite faulty_none by done.
  by rewrite (stM_bind_Ret _ _ _ _ _ (contents_Some path c s Hc)).
Qed.

Lemma renameRobust_Some oldpath newpath c s :
  no_faults s → files s !! oldpath = Some c →
  renameRobust oldpath newpath s =
  (Ret tt, mkFsys (<[newpath := c]> (delete oldpath (files s))) (faults s)).
Proof.
  intros Hf Hc. unfold renameRobust, os_Rename, try_. rewrite stM_bind_eq.
  rewrite faulty_none by done. by rewrite (stM_bind_Ret _ _ _ _ _ (contents_Some oldpath c s Hc)).
Qed.

(** ** The copying fallback *)

Lemma copy_loop_spec fuel oldpath newpath pos c s :
  oldpath ≠ newpath → no_faults s → files s !! oldpath = Some c →
  files s !! newpath = Some (take pos c) → pos ≤ length c → length c - pos < fuel →
  copy_loop fuel oldpath newpath true pos s =
  (Ret tt, mkFsys (<[newpath := c]> (files s)) (faults s)).
Proof.
  intros Hne. revert pos s. induction fuel as [|fuel IH]; intros pos s Hf Hold Hnew Hpos Hfuel; [lia|].
  cbn [copy_loop].
  rewrite (stM_bind_Ret _ _ s (take 1024 (drop pos c)) s).
  2:{ rewrite faulty_none by done. by rewrite (stM_bind_Ret _ _ _ _ _ (contents_Some oldpath c s Hold)). }
  case_bool_decide as Hend.
  - assert (pos = length c) as ->.
    { destruct (decide (pos = length c)); [done|]. apply (f_equal length) in Hend.
      rewrite length_take, length_drop in Hend. simpl length in Hend. lia. }
    rewrite take_ge in Hnew by done. rewrite insert_id by done. by destruct s.
  - assert (Hlen : length (take 1024 (drop pos c)) = 1024 `min` (length c - pos))
      by (by rewrite length_take, length_drop).
    assert (Hpos' : 0 < length (take 1024 (drop pos c))).
    { destruct (take 1024 (drop pos c)); [done|simpl; lia]. }
    rewrite (stM_bind_Ret _ _ s tt _) by (by apply file_Write_Some).
    set (s' := mkFsys _ _). rewrite IH; try done; subst s'; simpl.
    + by rewrite insert_insert_eq.
    + by rewrite lookup_insert_ne.
    + rewrite lookup_insert_eq. f_equal. rewrite Hlen.
      rewrite <- (take_take_drop c pos). f_equal.
      destruct (le_lt_dec 1024 (length c - pos)).
      * by rewrite Nat.min_l.
      * rewrite Nat.min_r by lia. rewrite !take_ge; [done|rewrite length_drop; lia..].
    + lia.
    + lia.
Qed.

(** When renaming fails once, as it does across file systems, and nothing
    else fails, [renameRobust] still moves the file: the copy, made in blocks of
    1024 bytes, holds all its bytes and the old file is gone. *)
Theorem renameRobust_copies oldpath newpath c e s :
  oldpath ≠ newpath → faults s = [Some e] → files s !! oldpath = Some c →
  renameRobust oldpath newpath s =
  (Ret tt, mkFsys (<[newpath := c]> (delete oldpath (files s))) []).
Proof.
  intros Hne Hf Hc. unfold renameRobust. set (s1 := mkFsys (files s) []).
  assert (Hr : try_ (os_Rename oldpath newpath) s = (Ret (inr (OsError e)), s1)).
  { unfold try_, os_Rename, faulty. by rewrite Hf. }
  rewrite (stM_bind_Ret _ _ _ _ _ Hr).
  rewrite (stM_bind_Ret _ _ _ _ _ (os_Open_Some oldpath c s1 eq_refl Hc)).
  rewrite (stM_bind_Ret _ _ _ _ _ (file_Size_Some oldpath c s1 eq_refl Hc)).
  set (s2 := mkFsys (<[newpath := []]> (files s)) []).
  rewrite (stM_bind_Ret _ _ _ (inl tt) s2) by done.
  assert (Hold : files s2 !! oldpath = Some c) by (simpl; by rewrite lookup_insert_ne).
  rewrite (stM_bind_Ret _ _ _ _ _ (copy_loop_spec (S (length c)) oldpath newpath 0 c s2 Hne eq_refl
    Hold (lookup_insert_eq _ _ _) ltac:(lia) ltac:(lia))).
  set (s3 := mkFsys _ _).
  assert (Hold3 : files s3 !! oldpath = Some c) by (simpl; by rewrite !lookup_insert_ne).
  unfold ignore, try_. rewrite stM_bind_eq, (os_Remove_Some oldpath c s3 eq_refl Hold3).
  simpl. rewrite insert_insert_eq, delete_insert_ne by done. done.
Qed.

Lemma renameRobust_copies_witness :
  let s := mkFsys (<["tmp" : bytes := "data" : bytes]> ∅) [Some EIO] in
  ("tmp" : bytes) ≠ "log" ∧
  renameRobust "tmp" "log" s = (Ret tt, mkFsys (<["log" : bytes := "data" : bytes]> (delete ("tmp" : bytes) (files s))) []).
Proof.
  intros s. split; [done|].
  exact (renameRobust_copies "tmp" "log" "data" EIO s ltac:(done) eq_refl eq_refl).
Defined.
