(* ===== verification/FileRunLog.v ===== *)
(** * The log in files ([jobfile/file_run_log.go])

    The log is a current file and up to [maxHistories] historical ones, each a
    sequence of lines of the same length.  An index in memory holds a
    descriptor per file, with the number of its entries, the times of its first
    and last one and the index of its last entry in the whole log.  This file
    holds the operations; [FileRunLogFacts] proves them correct. *)

From S2P Require Import Prelude GoStrings Calendar Job RunLog Durations LogCodec FileSys.

Open Scope Z_scope.
Open Scope bytes_scope.
Open Scope list_scope.

Record backingFileDtor := mkDtor {
  path : bytes;
  nbrEntries : nat;
  earliestTime : Time;
  latestTime : Time;
  startIdx : nat
}.

Record fileRunLog := mkFileRunLog {
  filePath : bytes;
  maxFileLen : Z;
  maxHistories : Z;
  index : list backingFileDtor
}.

(** The log together with the file system it lives on. *)
Record FileLog := mkFileLog { log : fileRunLog; fs : fsys }.

(** A descriptor being changed, together with the file system. *)
Record DtorState := mkDtorState { dtor : backingFileDtor; dtor_fs : fsys }.

Definition on_fs {A} (m : stM fsys A) : stM FileLog A := λ s,
  let '(r, fs') := m (fs s) in (r, mkFileLog (log s) fs').

Definition dtor_on_fs {A} (m : stM fsys A) : stM DtorState A := λ s,
  let '(r, fs') := m (dtor_fs s) in (r, mkDtorState (dtor s) fs').

Definition set_index (idx : list backingFileDtor) : stM FileLog unit :=
  modifyS (λ s, mkFileLog
    (mkFileRunLog (filePath (log s)) (maxFileLen (log s)) (maxHistories (log s)) idx) (fs s)).

(** [self.index[i]] *)
Definition index_at (i : nat) : stM FileLog backingFileDtor :=
  s ← getS; liftS (at_index (index (log s)) i).

(** A method called on [self.index[i]]: what it changes stays changed. *)
Definition on_dtor {A} (i : nat) (m : stM DtorState A) : stM FileLog A := λ s,
  match index (log s) !! i with
  | None => (Panic index_out_of_range, s)
  | Some d =>
     let '(r, s') := m (mkDtorState d (fs s)) in
     (r, mkFileLog
       (mkFileRunLog (filePath (log s)) (maxFileLen (log s)) (maxHistories (log s))
          (<[i := dtor s']> (index (log s)))) (dtor_fs s'))
  end.

Definition fileRunLog_String (self : fileRunLog) : bytes :=
  "FileRunLog{filePath: " ++ filePath self ++ ", maxFileLen: " ++ itoa (maxFileLen self) ++
  ", maxHistories: " ++ itoa (maxHistories self) ++ "}".

Section Log.
Context `{FloatFraction} `{TempNames}.

(** The text of an error that is not the program's own. *)
Context (lib_error_text : error → bytes).

Fixpoint Error_text (e : error) : bytes :=
  match e with
  | CommonError What None => What
  | CommonError What (Some Cause) => What ++ ": " ++ Error_text Cause
  | e => lib_error_text e
  end.

(** ** Methods of [backingFileDtor] *)

Definition lineLen : nat := gLogEntryLen + 1.

Definition offsetOfEntry (self : backingFileDtor) (idx : nat) : outcome nat :=
  if bool_decide (nbrEntries self ≤ idx)%nat then Panic "Invalid entry index"
  else Ret ((nbrEntries self - idx - 1) * lineLen)%nat.

(** Hand an error on with a message in front of it. *)
Definition wrap_error {S A} (What : bytes) (m : stM S A) : stM S A :=
  r ← try_ m;
  match r with
  | inl a => mret a
  | inr err => failS (CommonError What (Some err))
  end.

Definition readEntryBytes (self : backingFileDtor) (idx : nat) : stM fsys bytes :=
  offset ← liftS (offsetOfEntry self idx);
  wrap_error ("Failed to read backing file " ++ path self)
    (file_ReadAt (path self) gLogEntryLen offset).

Definition readEntry (self : backingFileDtor) (idx : nat) : stM fsys RunLogEntry :=
  buf ← wrap_error ("Failed to read " ++ path self) (readEntryBytes self idx);
  match decodeRunLogEntry buf with
  | Ret entry => mret entry
  | Fail err =>
     failS (CommonError ("Entry " ++ itoa (Z.of_nat idx) ++ " in " ++ path self ++ " is bad: " ++
                         Error_text err) (Some err))
  | Panic msg => panicS msg
  | Running => λ s, (Running, s)
  end.

(** The predicate of the search declares a variable of its own for the error of
    [readEntry], so the one that is looked at after the search stays nil. *)
Definition firstEntryNotAfter (self : backingFileDtor) (t : Time) : stM fsys nat :=
  Search (nbrEntries self) (λ i,
    r ← try_ (readEntry self i);
    match r with
    | inr _ => mret false
    | inl entry => mret (negb (After (EntryTime entry) t))
    end).

Definition pushEntryF (entry : RunLogEntry) : stM DtorState unit :=
  modifyS (λ s,
    let self := dtor s in
    let earliest :=
      if bool_decide (nbrEntries self = 0%nat) then EntryTime entry else earliestTime self in
    mkDtorState (mkDtor (path self) (S (nbrEntries self)) earliest (EntryTime entry)
                        (startIdx self)) (dtor_fs s));;
  entryStr ← liftS (encodeRunLogEntry entry);
  s ← getS;
  let entryStr :=
    if bool_decide (1 < nbrEntries (dtor s))%nat then newline :: entryStr else entryStr in
  dtor_on_fs (file_Write (path (dtor s)) entryStr).

Definition pushEntry (entry : RunLogEntry) : stM DtorState unit :=
  s ← getS;
  dtor_on_fs (os_Open (path (dtor s)));;
  pushEntryF entry.

Definition popEntryF : stM DtorState RunLogEntry :=
  s ← getS;
  if bool_decide (nbrEntries (dtor s) = 0%nat) then panicS "This backing file is empty!"
  else
    entry ← dtor_on_fs (readEntry (dtor s) 0);
    let n := (nbrEntries (dtor s) - 1)%nat in
    modifyS (λ s, let self := dtor s in
      mkDtorState (mkDtor (path self) n (earliestTime self) (latestTime self) (startIdx self))
                  (dtor_fs s));;
    dtor_on_fs (file_Truncate (path (dtor s))
      ((Z.of_nat n - 1) * Z.of_nat lineLen + Z.of_nat gLogEntryLen));;
    mret entry.

Definition isFull (self : backingFileDtor) (maxFileLen : Z) : bool :=
  let newEntryLen :=
    Z.of_nat gLogEntryLen + (if bool_decide (0 < nbrEntries self)%nat then 1 else 0) in
  let fileLen :=
    if bool_decide (nbrEntries self = 1%nat) then Z.of_nat gLogEntryLen
    else if bool_decide (1 < nbrEntries self)%nat then
      (Z.of_nat (nbrEntries self) - 1) * Z.of_nat lineLen + Z.of_nat gLogEntryLen
    else 0 in
  maxFileLen <? fileLen + newEntryLen.

(** The number of entries of a file of [size] bytes. *)
Definition count_entries (path : bytes) (size : nat) : outcome nat :=
  if bool_decide (size = 0%nat) then Ret 0%nat
  else if bool_decide (size < gLogEntryLen)%nat then
    Fail (CommonError ("Invalid log file: " ++ path ++ ": size is less than entry size") None)
  else
    let remainder := (size - gLogEntryLen)%nat in
    if bool_decide (remainder mod lineLen ≠ 0)%nat then
      Fail (CommonError ("Invalid log file: " ++ path ++
                         ": size is not multiple of entry size") None)
    else Ret (remainder / lineLen + 1)%nat.

(** [None] if there is no such file *)
Definition makeBackingFileDtor (path : bytes) (startIdx : nat)
    : stM fsys (option backingFileDtor) :=
  opened ← try_ (os_Open path);
  match opened with
  | inr err => if IsNotExist err then mret None else failS err
  | inl _ =>
     size ← file_Size path;
     n ← liftS (count_entries path size);
     let self := mkDtor path n zero_time zero_time startIdx in
     if bool_decide (0 < n)%nat then
       first ← readEntry self (n - 1);
       last ← readEntry self 0;
       mret (Some (mkDtor path n (EntryTime first) (EntryTime last) startIdx))
     else mret (Some self)
  end.

(** ** Methods of [fileRunLog] *)

Definition history_path (filePath : bytes) (i : nat) : bytes :=
  filePath ++ "." ++ itoa (Z.of_nat i).

(** The loop over the historical files, from number [i] on. *)
Fixpoint index_histories (todo i : nat) : stM FileLog unit :=
  match todo with
  | O => mret tt
  | S todo =>
     prev ← index_at (i - 1);
     s ← getS;
     made ← on_fs (makeBackingFileDtor (history_path (filePath (log s)) i)
                     (startIdx prev + nbrEntries prev));
     match made with
     | None => mret tt
     | Some d => set_index (index (log s) ++ [d]);; index_histories todo (S i)
     end
  end.

Definition makeIndex : stM FileLog unit :=
  set_index [];;
  s ← getS;
  made ← on_fs (makeBackingFileDtor (filePath (log s)) 0);
  match made with
  | Some d => set_index [d]
  | None =>
     on_fs (WriteFile (filePath (log s)) []);;
     set_index [mkDtor (filePath (log s)) 0 zero_time zero_time 0]
  end;;
  index_histories (Z.to_nat (maxHistories (log s))) 1.

(** The loop over the index, from its last element; [n] elements are left. *)
Fixpoint rotate_loop (n : nat) : stM FileLog unit :=
  match n with
  | O => mret tt
  | S oldIdx =>
     let newIdx := S oldIdx in
     d ← index_at oldIdx;
     s ← getS;
     (if maxHistories (log s) <? Z.of_nat newIdx then on_fs (os_Remove (path d))
      else on_fs (renameRobust (path d) (history_path (filePath (log s)) newIdx)));;
     rotate_loop oldIdx
  end.

Definition rotateFiles : stM FileLog unit :=
  s ← getS;
  rotate_loop (length (index (log s)));;
  makeIndex.

(** ** Iteration over the entries, newest first *)

Record entryIterator := mkIter {
  entryRelIdx : nat;
  dtorIdx : nat;
  f : option bytes (* the file that is open *)
}.

Definition iter_done (it : entryIterator) : stM FileLog bool :=
  d ← index_at (dtorIdx it);
  s ← getS;
  mret (bool_decide (nbrEntries d ≤ entryRelIdx it)%nat &&
        bool_decide (length (index (log s)) ≤ dtorIdx it + 1)%nat).

(** [next], whose recursive call, after moving on to the next file, happens at
    most once per file. *)
Fixpoint iter_next (fuel : nat) (it : entryIterator) : stM FileLog (RunLogEntry * entryIterator) :=
  match fuel with
  | O => λ s, (Running, s)
  | S fuel =>
     finished ← iter_done it;
     if finished : bool then panicS "Iterator is done"
     else
       d ← index_at (dtorIdx it);
       if bool_decide (nbrEntries d ≤ entryRelIdx it)%nat then
         iter_next fuel (mkIter 0 (S (dtorIdx it)) None)
       else
         (match f it with
          | Some _ => mret tt
          | None => on_fs (os_Open (path d))
          end);;
         entry ← on_fs (readEntry d (entryRelIdx it));
         mret (entry, mkIter (S (entryRelIdx it)) (dtorIdx it) (Some (path d)))
  end.

Definition next (it : entryIterator) : stM FileLog (RunLogEntry * entryIterator) :=
  s ← getS; iter_next (S (length (index (log s)))) it.

Definition file_Len : stM FileLog nat :=
  s ← getS; mret (foldl (λ n d, n + nbrEntries d)%nat 0%nat (index (log s))).

(** The loop of [iterAt]: the first descriptor whose range holds [idx]. *)
Fixpoint find_dtor (idx i : nat) (ds : list backingFileDtor) : option (nat * nat) :=
  match ds with
  | [] => None
  | d :: ds =>
     if bool_decide (startIdx d ≤ idx)%nat && bool_decide (idx < startIdx d + nbrEntries d)%nat
     then Some (i, (idx - startIdx d)%nat) else find_dtor idx (S i) ds
  end.

Definition iterAt (idx : nat) : stM FileLog entryIterator :=
  len ← file_Len;
  if bool_decide (len ≤ idx)%nat then panicS ("Invalid index: " ++ itoa (Z.of_nat idx))
  else
    s ← getS;
    match find_dtor idx 0 (index (log s)) with
    | Some (i, rel) => mret (mkIter rel i None)
    | None => panicS "Bug!"
    end.

(** Read entries, at most [n], for as long as [more] holds of them. *)
Fixpoint collect (n : nat) (more : RunLogEntry → bool) (it : entryIterator)
    : stM FileLog (list RunLogEntry) :=
  match n with
  | O => λ s, (Running, s)
  | S n =>
     finished ← iter_done it;
     if finished : bool then mret []
     else
       r ← next it;
       if more (fst r) then rest ← collect n more (snd r); mret (fst r :: rest)
       else mret []
  end.

Definition collect_all (more : RunLogEntry → bool) (it : entryIterator)
    : stM FileLog (list RunLogEntry) :=
  len ← file_Len; collect (S len) more it.

(** ** Reading *)

(** The loop over the index of [GetFromTime]: the index of the entry to start
    with, if a file's time range holds [maxTime]. *)
Fixpoint find_start (maxTime : Time) (ds : list backingFileDtor) : stM FileLog (option nat) :=
  match ds with
  | [] => mret None
  | d :: ds =>
     if negb (After (earliestTime d) maxTime) && negb (Before (latestTime d) maxTime) then
       on_fs (os_Open (path d));;
       relStartIdx ← on_fs (firstEntryNotAfter d maxTime);
       mret (Some (relStartIdx + startIdx d)%nat)
     else find_start maxTime ds
  end.

Definition file_GetFromTime (maxTime : Time) (timeArr : list Time)
    : stM FileLog (list RunLogEntry) :=
  if bool_decide (1 < length timeArr)%nat then panicS "Too many args."
  else
    len ← file_Len;
    if bool_decide (len = 0%nat) then mret []
    else
      s ← getS;
      minTime ←
        (match timeArr with
         | t :: _ => mret t
         | [] =>
            lastDtor ← index_at (length (index (log s)) - 1);
            mret (Add (earliestTime lastDtor) (- Second_))
         end);
      if Before maxTime minTime then panicS "maxTime is before minTime"
      else
        start ← find_start maxTime (index (log s));
        match start with
        | None => mret []
        | Some startIdx =>
           iter ← iterAt startIdx;
           collect_all (λ entry, After (EntryTime entry) minTime) iter
        end.

(** [n] entries, one after the other. *)
Fixpoint take_entries (n : nat) (it : entryIterator) : stM FileLog (list RunLogEntry) :=
  match n with
  | O => mret []
  | S n =>
     r ← next it;
     rest ← take_entries n (snd r);
     mret (fst r :: rest)
  end.

Definition file_GetFromIndex (minIdx : nat) (idxArr : list nat)
    : stM FileLog (list RunLogEntry) :=
  if bool_decide (1 < length idxArr)%nat then panicS "Too many args."
  else
    len ← file_Len;
    let maxIdx := match idxArr with i :: _ => i | [] => len end in
    if bool_decide (maxIdx < minIdx)%nat then panicS "from > to"
    else if bool_decide (len ≤ minIdx)%nat then
      panicS ("Invalid 'minIdx' index: " ++ itoa (Z.of_nat minIdx))
    else if bool_decide (len < maxIdx)%nat then
      panicS ("Invalid 'maxIdx' index: " ++ itoa (Z.of_nat maxIdx))
    else
      iter ← iterAt minIdx;
      take_entries (maxIdx - minIdx) iter.

Definition file_GetAll : stM FileLog (list RunLogEntry) :=
  len ← file_Len;
  if bool_decide (len = 0%nat) then mret []
  else
    iter ← iterAt 0;
    collect_all (λ _, true) iter.

(** ** Writing *)

(** A local descriptor and the file system of the log *)
Definition with_dtor {A} (d : backingFileDtor) (m : stM DtorState A) : stM FileLog (A * backingFileDtor) :=
  λ s, match m (mkDtorState d (fs s)) with
       | (Ret a, s') => (Ret (a, dtor s'), mkFileLog (log s) (dtor_fs s'))
       | (Fail e, s') => (Fail e, mkFileLog (log s) (dtor_fs s'))
       | (Panic msg, s') => (Panic msg, mkFileLog (log s) (dtor_fs s'))
       | (Running, s') => (Running, mkFileLog (log s) (dtor_fs s'))
       end.

(** On an error of [m], remove the temporary file and hand the error on. *)
Definition or_remove {A} (tmp : bytes) (m : stM FileLog A) : stM FileLog A :=
  r ← try_ m;
  match r with
  | inl a => mret a
  | inr err => ignore (on_fs (os_Remove tmp));; failS err
  end.

(** The loop that copies the current file's entries [i - 1], [i - 2], ..., down
    to [lastIdx] and puts the new entry in front of number [insertIdx]; the
    index of the new entry may be -1. *)
Fixpoint copy_entries (cur : backingFileDtor) (entry : RunLogEntry) (insertIdx : Z)
    (lastIdx i : nat) (tmpDtor : backingFileDtor) : stM FileLog backingFileDtor :=
  match i with
  | O => mret tmpDtor
  | S i' =>
     if bool_decide (i' < lastIdx)%nat then mret tmpDtor
     else
       currEntry ← or_remove (path tmpDtor) (on_fs (readEntry cur i'));
       tmpDtor ← (if Z.of_nat i' =? insertIdx then
                    r ← or_remove (path tmpDtor) (with_dtor tmpDtor (pushEntryF entry));
                    mret (snd r)
                  else mret tmpDtor);
       r ← or_remove (path tmpDtor) (with_dtor tmpDtor (pushEntryF currEntry));
       copy_entries cur entry insertIdx lastIdx i' (snd r)
  end.

Definition putOutOfOrder (entry : RunLogEntry) : stM FileLog unit :=
  cur ← index_at 0;
  if After (earliestTime cur) (EntryTime entry) then
    failS (CommonError "Entry is too out-of-order" None)
  else
    wrap_error "Failed to open backing file" (on_fs (os_Open (path cur)));;
    found ← on_fs (firstEntryNotAfter cur (EntryTime entry));
    let insertIdx := Z.of_nat found - 1 in
    tmp ← wrap_error "Failed to make temp file" (on_fs TempFile);
    made ← or_remove tmp (on_fs (makeBackingFileDtor tmp 0));
    match made with
    | None => panicS nil_dereference
    | Some tmpDtor =>
       s ← getS;
       let mustRotate := isFull cur (maxFileLen (log s)) in
       let lastIdx := if mustRotate then 1%nat else 0%nat in
       tmpDtor ← copy_entries cur entry insertIdx lastIdx (nbrEntries cur) tmpDtor;
       entry0 ← (if mustRotate then
                   e ← or_remove (path tmpDtor) (on_fs (readEntry cur 0)); mret (Some e)
                 else mret None);
       wrap_error "Failed to replace old backing file with new"
         (or_remove (path tmpDtor) (on_fs (renameRobust (path tmpDtor) (path cur))));;
       s ← getS;
       set_index (<[0%nat := mkDtor (path cur) (nbrEntries tmpDtor) (earliestTime tmpDtor)
                               (latestTime tmpDtor) (startIdx tmpDtor)]> (index (log s)));;
       match entry0 with
       | Some e => rotateFiles;; on_dtor 0 (pushEntry e)
       | None => mret tt
       end
    end.

(** [self.index[i].startIdx++] for every historical file *)
Definition shift_histories : stM FileLog unit :=
  s ← getS;
  set_index (match index (log s) with
             | [] => []
             | d :: ds =>
                d :: map (λ h, mkDtor (path h) (nbrEntries h) (earliestTime h) (latestTime h)
                                      (S (startIdx h))) ds
             end).

Definition file_Put (entry : RunLogEntry) : stM FileLog unit :=
  s ← getS;
  match index (log s) with
  | [] => panicS "Index is not made"
  | cur :: _ =>
     let nonempty := bool_decide (0 < nbrEntries cur)%nat in
     if nonempty && After (earliestTime cur) (EntryTime entry) then
       failS (CommonError "Entry's timestamp is too early" None)
     else if nonempty && After (latestTime cur) (EntryTime entry) then putOutOfOrder entry
     else
       (if isFull cur (maxFileLen (log s)) then rotateFiles else mret tt);;
       on_dtor 0 (pushEntry entry);;
       shift_histories
  end.

(** Every file of the index is removed, errors or not. *)
Definition deleteAll : stM FileLog unit :=
  s ← getS;
  foldr (λ d rest, ignore (on_fs (os_Remove (path d)));; rest) (mret tt) (index (log s));;
  ignore makeIndex.

Definition NewFileRunLog (filePath : bytes) (maxFileLen maxHistories : Z)
    : stM fsys fileRunLog := λ fs0,
  let '(r, s) := makeIndex (mkFileLog (mkFileRunLog filePath maxFileLen maxHistories []) fs0) in
  (r ≫= λ _, Ret (log s), fs s).

#[export] Instance file_RunLog : RunLog FileLog := {|
  GetFromTime := file_GetFromTime;
  GetFromIndex := file_GetFromIndex;
  GetAll := file_GetAll;
  Len := file_Len;
  Put := file_Put
|}.

End Log.
