(* ===== verification/FileRunLogFacts.v ===== *)
(** * Correctness of the log in files

    The abstract state is the list of the entries of every file, the current
    file first; [file_ok] relates it to the files on disk and to the index in
    memory.  Under it, when the file system does not fail, reading returns the
    entries, recording a run in order keeps it, rotating the files when the
    current one is full, and reopening the log finds the same index.  At the end
    are the cases in which the log does not keep its promises. *)

From S2P Require Import Prelude GoStrings Calendar Job RunLog Durations LogCodec.
From S2P Require Import FileSys FileRunLog.

Open Scope Z_scope.
Open Scope bytes_scope.
Open Scope list_scope.

(** ** The contents of a file *)

(** The line of an entry *)
Definition line (e : RunLogEntry) : bytes :=
  entry_text e ++ replicate (gLogEntryLen - length (entry_text e)) " "%char.

Definition render (es : list RunLogEntry) : bytes := Join (map line es) [newline].

(** The entries the log stores without loss *)
Definition file_storable (e : RunLogEntry) : Prop :=
  encodable e ∧ (length (JobName e) ≤ gMaxJobNameLen)%nat.

Lemma line_length e : file_storable e → length (line e) = gLogEntryLen.
Proof. intros ((_ & _ & _ & Hl) & _). unfold line. rewrite length_app, length_replicate. lia. Qed.

Lemma stored_id e : file_storable e → stored e = e.
Proof. intros [_ Hn]. destruct e. unfold stored. simpl in *. by rewrite take_ge. Qed.

Lemma encode_line e : file_storable e → encodeRunLogEntry e = Ret (line e).
Proof. intros ((_ & _ & _ & Hl) & _). by apply encode_spec. Qed.

Lemma render_cons e es : es ≠ [] → render (e :: es) = line e ++ newline :: render es.
Proof. intros Hne. unfold render. simpl map. rewrite Join_cons; [done|by destruct es]. Qed.

Lemma render_snoc es e : es ≠ [] → render (es ++ [e]) = render es ++ newline :: line e.
Proof.
  induction es as [|a es IH]; [done|]. intros _. simpl app.
  rewrite render_cons by (by destruct es). destruct (decide (es = [])) as [->|Hne]; [done|].
  rewrite IH, (render_cons a es) by done. by rewrite <- app_assoc.
Qed.

Lemma render_length es :
  Forall file_storable es → length (render es) = (length es * lineLen - 1)%nat.
Proof.
  induction 1 as [|e es He Hes IH]; [done|]. destruct (decide (es = [])) as [->|Hne].
  - unfold render. simpl. by rewrite line_length.
  - rewrite render_cons, length_app by done. simpl length at 2. rewrite line_length, IH by done.
    assert (0 < length es)%nat by (destruct es; [done|simpl; lia]).
    unfold lineLen, gLogEntryLen. simpl length. lia.
Qed.

(** Entry number [k] of a file, counted from its first, is at offset
    [k * lineLen]. *)
Lemma render_line es k e :
  Forall file_storable es → es !! k = Some e →
  take gLogEntryLen (drop (k * lineLen) (render es)) = line e ∧
  (k * lineLen + gLogEntryLen ≤ length (render es))%nat.
Proof.
  intros Hes. revert k. induction Hes as [|a es Ha Hes IH]; intros k Hk; [done|].
  destruct (decide (es = [])) as [->|Hne].
  { destruct k as [|k]; [|done]. simpl in Hk. simplify_eq. unfold render. simpl map. cbn [Join].
    rewrite line_length by done. split; [|done]. simpl drop. rewrite drop_0.
    apply take_ge. rewrite line_length by done. done. }
  rewrite render_cons by done. destruct k as [|k].
  - simpl in Hk. simplify_eq. rewrite drop_0. split.
    + rewrite take_app_le by (rewrite line_length by done; done).
      apply take_ge. rewrite line_length by done. done.
    + rewrite length_app, line_length by done. lia.
  - specialize (IH k Hk) as [IH1 IH2]. split.
    + replace (S k * lineLen)%nat with (length (line a ++ [newline]) + k * lineLen)%nat.
      2:{ rewrite length_app, line_length by done. simpl. unfold lineLen. lia. }
      replace (line a ++ newline :: render es) with ((line a ++ [newline]) ++ render es)
        by (by rewrite <- app_assoc).
      by rewrite drop_app_add.
    + rewrite length_app, line_length by done. simpl length. unfold lineLen in *. lia.
Qed.

(** ** The index of a log *)

Definition file_path (fp : bytes) (i : nat) : bytes :=
  match i with O => fp | S _ => history_path fp i end.

Definition first_time (es : list RunLogEntry) : Time :=
  match es with [] => zero_time | e :: _ => EntryTime e end.

Definition last_time (es : list RunLogEntry) : Time :=
  match reverse es with [] => zero_time | e :: _ => EntryTime e end.

Definition dtor_of (p : bytes) (es : list RunLogEntry) (start : nat) : backingFileDtor :=
  mkDtor p (length es) (first_time es) (last_time es) start.

Fixpoint index_of (fp : bytes) (i start : nat) (ess : list (list RunLogEntry))
    : list backingFileDtor :=
  match ess with
  | [] => []
  | es :: ess => dtor_of (file_path fp i) es start :: index_of fp (S i) (start + length es) ess
  end.

(** The entries of the whole log, oldest first *)
Definition all_entries (ess : list (list RunLogEntry)) : list RunLogEntry := concat (reverse ess).

(** The files of the log are on disk. *)
Definition on_disk (fp : bytes) (max : nat) (fs : fsys) (ess : list (list RunLogEntry)) : Prop :=
  no_faults fs ∧ (∀ i es, ess !! i = Some es → files fs !! file_path fp i = Some (render es)) ∧
  (length ess ≤ S max)%nat ∧
  (∀ j, (length ess ≤ j ≤ max)%nat → files fs !! file_path fp j = None) ∧
  Forall (Forall file_storable) ess.

(** A file has room for at least one entry, and no historical file is empty. *)
Definition file_ok (s : FileLog) (ess : list (list RunLogEntry)) : Prop :=
  ess ≠ [] ∧ Z.of_nat gLogEntryLen ≤ maxFileLen (log s) ∧ Forall (.≠ []) (tail ess) ∧ on_disk (filePath (log s)) (Z.to_nat (maxHistories (log s))) (fs s) ess ∧
  index (log s) = index_of (filePath (log s)) 0 0 ess.

Lemma history_path_inj fp i j : history_path fp i = history_path fp j → i = j.
Proof.
  unfold history_path. intros [_ E]%app_inj_1; [|done]. injection E as E.
  assert (Hi : parse_int "" (itoa (Z.of_nat i)) = parse_int "" (itoa (Z.of_nat j))) by (by rewrite E).
  unfold itoa in Hi. destruct (Z.ltb_spec (Z.of_nat i) 0), (Z.ltb_spec (Z.of_nat j) 0); try lia.
  unfold itoa in E. destruct (Z.ltb_spec (Z.of_nat i) 0), (Z.ltb_spec (Z.of_nat j) 0); try lia.
  apply (f_equal digits_val) in E.
  rewrite (proj1 (digits_spec (Z.of_nat i) ltac:(lia))), (proj1 (digits_spec (Z.of_nat j) ltac:(lia))) in E.
  lia.
Qed.

Lemma file_path_inj fp i j : file_path fp i = file_path fp j → i = j.
Proof.
  assert (Hne : ∀ k, history_path fp k ≠ fp).
  { intros k E. apply (f_equal length) in E. unfold history_path in E.
    rewrite !length_app in E. simpl in E. lia. }
  destruct i as [|i], j as [|j]; simpl; [done|by intros ?%eq_sym%Hne|by intros ?%Hne|].
  apply history_path_inj.
Qed.

Lemma index_of_length fp i start ess : length (index_of fp i start ess) = length ess.
Proof. revert i start. induction ess as [|es ess IH]; intros i start; simpl; [done|]. by rewrite IH. Qed.

Fixpoint sum_lengths (ess : list (list RunLogEntry)) : nat :=
  match ess with [] => 0%nat | es :: ess => (length es + sum_lengths ess)%nat end.

Lemma index_of_lookup fp i start ess k es :
  ess !! k = Some es →
  index_of fp i start ess !! k =
  Some (dtor_of (file_path fp (i + k)) es (start + sum_lengths (take k ess))).
Proof.
  revert i start k. induction ess as [|a ess IH]; intros i start [|k] Hk; simpl in *; simplify_eq.
  - by rewrite !Nat.add_0_r.
  - rewrite IH by done. do 2 f_equal; [f_equal; lia|lia].
Qed.

Lemma index_of_snoc fp i start ess es :
  index_of fp i start (ess ++ [es]) =
  index_of fp i start ess ++ [dtor_of (file_path fp (i + length ess)) es (start + sum_lengths ess)].
Proof.
  revert i start. induction ess as [|a ess IH]; intros i start; simpl.
  - by rewrite !Nat.add_0_r.
  - rewrite IH, Nat.add_succ_comm. simpl. by rewrite Nat.add_assoc.
Qed.

Lemma sum_lengths_take_S ess k es :
  ess !! k = Some es → sum_lengths (take (S k) ess) = (sum_lengths (take k ess) + length es)%nat.
Proof.
  revert k. induction ess as [|a ess IH]; intros [|k] Hk; simpl in *; simplify_eq; [lia|].
  rewrite (IH k Hk). lia.
Qed.

Lemma all_entries_length ess : length (all_entries ess) = sum_lengths ess.
Proof.
  unfold all_entries. induction ess as [|es ess IH]; [done|].
  rewrite reverse_cons, concat_app, length_app, IH. simpl. rewrite app_nil_r. lia.
Qed.

Lemma last_time_snoc es e : last_time (es ++ [e]) = EntryTime e.
Proof. unfold last_time. by rewrite reverse_snoc. Qed.

Lemma first_time_snoc es e :
  first_time (es ++ [e]) = if decide (length es = 0%nat) then EntryTime e else first_time es.
Proof. destruct es as [|a es]; [done|]. by rewrite decide_False. Qed.

Lemma last_time_lookup es e : es !! (length es - 1)%nat = Some e → last_time es = EntryTime e.
Proof.
  destruct es as [|a es] using rev_ind; [done|]. intros Hl.
  rewrite length_app in Hl. simpl in Hl. rewrite list_lookup_middle in Hl by lia.
  simplify_eq. apply last_time_snoc.
Qed.

Section Facts.
Context `{FloatFractionOk} `{TempNames} (lib_error_text : error → bytes).

#[local] Notation readEntry := (readEntry lib_error_text).
#[local] Notation makeBackingFileDtor := (makeBackingFileDtor lib_error_text).
#[local] Notation makeIndex := (makeIndex lib_error_text).
#[local] Notation index_histories := (index_histories lib_error_text).
#[local] Notation iter_next := (iter_next lib_error_text).
#[local] Notation next := (next lib_error_text).
#[local] Notation collect := (collect lib_error_text).
#[local] Notation take_entries := (take_entries lib_error_text).

(** ** Reading a file *)

Lemma wrap_error_Ret {S A} What (m : stM S A) s a s' :
  m s = (Ret a, s') → wrap_error What m s = (Ret a, s').
Proof. intros Hm. unfold wrap_error, try_. rewrite stM_bind_eq. by rewrite Hm. Qed.

Lemma readEntry_spec p es a b st idx e s :
  no_faults s → files s !! p = Some (render es) → Forall file_storable es →
  (idx < length es)%nat → es !! (length es - idx - 1)%nat = Some e →
  readEntry (mkDtor p (length es) a b st) idx s = (Ret e, s).
Proof.
  intros Hf Hp Hes Hidx He.
  destruct (render_line es _ e Hes He) as [Hline Hlen].
  assert (Hst : file_storable e).
  { rewrite Forall_forall in Hes. apply Hes. by eapply list_elem_of_lookup_2. }
  assert (Hb : readEntryBytes (mkDtor p (length es) a b st) idx s = (Ret (line e), s)).
  { unfold readEntryBytes. rewrite (stM_bind_Ret _ _ s ((length es - idx - 1) * lineLen)%nat s).
    - apply wrap_error_Ret. simpl path. by rewrite (file_ReadAt_Some _ _ _ _ _ Hf Hp Hlen), Hline.
    - unfold liftS, offsetOfEntry. simpl. by rewrite bool_decide_false by lia. }
  unfold FileRunLog.readEntry. rewrite (stM_bind_Ret _ _ _ _ _ (wrap_error_Ret _ _ _ _ _ Hb)).
  pose proof Hst as [(Hn & Ht & Hd & _) Hl]. unfold line.
  rewrite decode_spec by done. by rewrite (stored_id e Hst).
Qed.

Lemma count_entries_spec p es :
  Forall file_storable es → count_entries p (length (render es)) = Ret (length es).
Proof.
  intros Hes. rewrite render_length by done. unfold count_entries.
  destruct es as [|e es]; [done|]. simpl length.
  unfold lineLen, gLogEntryLen. simpl (64 + 1)%nat.
  rewrite !bool_decide_false by lia.
  replace (S (length es) * 65 - 1 - 64)%nat with (length es * 65)%nat by lia.
  rewrite Nat.Div0.mod_mul, Nat.div_mul by done. rewrite bool_decide_false by tauto. f_equal. lia.
Qed.

Lemma makeBackingFileDtor_Some p es st s :
  no_faults s → files s !! p = Some (render es) → Forall file_storable es →
  makeBackingFileDtor p st s = (Ret (Some (dtor_of p es st)), s).
Proof.
  intros Hf Hp Hes. unfold FileRunLog.makeBackingFileDtor.
  rewrite (stM_bind_Ret _ _ s (inl tt) s) by (unfold try_; by rewrite (os_Open_Some _ _ _ Hf Hp)).
  rewrite (stM_bind_Ret _ _ _ _ _ (file_Size_Some _ _ _ Hf Hp)).
  rewrite (stM_bind_Ret _ _ s (length es) s) by (unfold liftS; by rewrite count_entries_spec).
  destruct (decide (es = [])) as [->|Hne]; [done|].
  assert (Hpos : (0 < length es)%nat) by (destruct es; [done|simpl; lia]).
  rewrite bool_decide_true by done.
  destruct (lookup_lt_is_Some_2 es 0) as [e0 He0]; [lia|].
  destruct (lookup_lt_is_Some_2 es (length es - 1)) as [el Hel]; [lia|].
  rewrite (stM_bind_Ret _ _ s e0 s).
  2:{ apply readEntry_spec; try done; [lia|].
      by replace (length es - (length es - 1) - 1)%nat with 0%nat by lia. }
  rewrite (stM_bind_Ret _ _ s el s).
  2:{ apply readEntry_spec; try done. by rewrite Nat.sub_0_r. }
  unfold dtor_of. rewrite (last_time_lookup _ el Hel). by destruct es; simplify_eq/=.
Qed.

Lemma makeBackingFileDtor_None p st s :
  no_faults s → files s !! p = None → makeBackingFileDtor p st s = (Ret None, s).
Proof.
  intros Hf Hp. unfold FileRunLog.makeBackingFileDtor.
  rewrite (stM_bind_Ret _ _ s (inr (OsError ENOENT)) s) by (unfold try_; by rewrite os_Open_None).
  done.
Qed.

(** ** Appending to a file *)

Lemma pushEntry_spec p es st e s :
  no_faults s → files s !! p = Some (render es) → file_storable e →
  pushEntry e (mkDtorState (dtor_of p es st) s) =
  (Ret tt, mkDtorState (dtor_of p (es ++ [e]) st)
             (mkFsys (<[p := render (es ++ [e])]> (files s)) (faults s))).
Proof.
  intros Hf Hp He. unfold pushEntry. set (ds := mkDtorState (dtor_of p es st) s).
  rewrite (stM_bind_Ret getS _ _ ds ds) by done.
  rewrite (stM_bind_Ret _ _ _ tt ds)
    by (unfold dtor_on_fs; simpl; by rewrite (os_Open_Some _ _ _ Hf Hp)).
  unfold pushEntryF.
  set (ds' := mkDtorState (dtor_of p (es ++ [e]) st) s).
  rewrite (stM_bind_Ret _ _ _ tt ds').
  2:{ unfold modifyS, ds, ds', dtor_of. simpl.
      rewrite length_app, first_time_snoc, last_time_snoc, Nat.add_1_r. by destruct (length es). }
  rewrite (stM_bind_Ret _ _ _ (line e) ds') by (unfold liftS; by rewrite encode_line).
  rewrite (stM_bind_Ret getS _ _ ds' ds') by done. simpl.
  unfold dtor_on_fs. simpl. rewrite length_app. simpl.
  destruct (decide (es = [])) as [->|Hne].
  - rewrite bool_decide_false by (simpl; lia).
    rewrite (file_Write_Some _ _ _ _ Hf Hp). simpl. unfold ds', render. done.
  - rewrite bool_decide_true by (destruct es; [done|simpl; lia]).
    rewrite (file_Write_Some _ _ _ _ Hf Hp). simpl. by rewrite render_snoc.
Qed.

(** ** Making the index *)

Lemma on_fs_Ret {A} (m : stM fsys A) s a fs' :
  m (fs s) = (Ret a, fs') → on_fs m s = (Ret a, mkFileLog (log s) fs').
Proof. intros Hm. unfold on_fs. by rewrite Hm. Qed.

Lemma FileLog_eta s : mkFileLog (log s) (fs s) = s.
Proof. by destruct s. Qed.

Definition with_index (s : FileLog) (idx : list backingFileDtor) : FileLog :=
  mkFileLog (mkFileRunLog (filePath (log s)) (maxFileLen (log s)) (maxHistories (log s)) idx) (fs s).

Lemma index_at_Some i s d : index (log s) !! i = Some d → index_at i s = (Ret d, s).
Proof.
  intros Hd. unfold index_at. rewrite (stM_bind_Ret getS _ _ s s) by done.
  unfold liftS, at_index. by rewrite Hd.
Qed.

Lemma index_histories_spec todo s pre rest :
  pre ≠ [] → on_disk (filePath (log s)) (length pre + todo - 1) (fs s) (pre ++ rest) →
  index (log s) = index_of (filePath (log s)) 0 0 pre →
  index_histories todo (length pre) s =
  (Ret tt, with_index s (index_of (filePath (log s)) 0 0 (pre ++ rest))).
Proof.
  revert s pre rest. induction todo as [|todo IH]; intros s pre rest Hne Hdisk Hidx.
  - destruct Hdisk as (_ & _ & Hlen & _). rewrite length_app in Hlen.
    assert (rest = []) as -> by (destruct rest; [done|destruct pre; simpl in *; [done|lia]]).
    rewrite app_nil_r, <- Hidx. unfold with_index. by destruct s as [[] ?].
  - cbn [FileRunLog.index_histories].
    assert (Hpre : (0 < length pre)%nat) by (destruct pre; [done|simpl; lia]).
    destruct (lookup_lt_is_Some_2 pre (length pre - 1)) as [es Hes]; [lia|].
    assert (Hprev : index (log s) !! (length pre - 1)%nat =
      Some (dtor_of (file_path (filePath (log s)) (length pre - 1)) es
                    (sum_lengths (take (length pre - 1) pre)))).
    { rewrite Hidx. by rewrite (index_of_lookup _ _ _ _ _ _ Hes). }
    rewrite (stM_bind_Ret _ _ _ _ _ (index_at_Some _ _ _ Hprev)).
    rewrite (stM_bind_Ret getS _ _ s s) by done. cbn [startIdx nbrEntries dtor_of].
    assert (Hsum : (sum_lengths (take (length pre - 1) pre) + length es = sum_lengths pre)%nat).
    { rewrite <- (sum_lengths_take_S pre _ es Hes). f_equal. apply take_ge. lia. }
    rewrite Hsum. pose proof Hdisk as (Hf & Hfiles & Hlen & Hnone & Hst).
    assert (Hpath : history_path (filePath (log s)) (length pre) = file_path (filePath (log s)) (length pre))
      by (destruct (length pre); [lia|done]).
    rewrite Hpath. destruct rest as [|es' rest].
    + rewrite app_nil_r in *. rewrite (stM_bind_Ret _ _ _ None s).
      * unfold with_index. rewrite <- Hidx. by destruct s as [[] ?].
      * rewrite (on_fs_Ret _ _ None (fs s)); [by rewrite FileLog_eta|].
        apply makeBackingFileDtor_None; [done|]. apply Hnone. lia.
    + assert (Hes' : (pre ++ es' :: rest) !! length pre = Some es') by (by apply list_lookup_middle).
      rewrite (stM_bind_Ret _ _ _ (Some (dtor_of (file_path (filePath (log s)) (length pre)) es' (sum_lengths pre))) s).
      2:{ rewrite (on_fs_Ret _ _ (Some (dtor_of (file_path (filePath (log s)) (length pre)) es' (sum_lengths pre))) (fs s));
            [by rewrite FileLog_eta|].
          apply makeBackingFileDtor_Some; [done|by apply Hfiles|].
          rewrite Forall_forall in Hst. apply Hst. by eapply list_elem_of_lookup_2. }
      set (s1 := with_index s (index (log s) ++ [dtor_of (file_path (filePath (log s)) (length pre)) es' (sum_lengths pre)])).
      rewrite (stM_bind_Ret _ _ _ tt s1) by done.
      replace (S (length pre)) with (length (pre ++ [es'])) by (rewrite length_app; simpl; lia).
      rewrite (IH s1 (pre ++ [es']) rest).
      * by rewrite <- app_assoc.
      * by destruct pre.
      * rewrite <- app_assoc. rewrite length_app. simpl length at 2.
        by replace (length pre + 1 + todo - 1)%nat with (length pre + S todo - 1)%nat by lia.
      * subst s1. simpl. rewrite Hidx. by rewrite index_of_snoc.
Qed.

(** Reading the files of a log gives its index. *)
Lemma makeIndex_spec s ess :
  ess ≠ [] → on_disk (filePath (log s)) (Z.to_nat (maxHistories (log s))) (fs s) ess →
  makeIndex s = (Ret tt, with_index s (index_of (filePath (log s)) 0 0 ess)).
Proof.
  intros Hne Hdisk. destruct ess as [|es rest]; [done|]. unfold FileRunLog.makeIndex.
  rewrite (stM_bind_Ret _ _ _ tt (with_index s [])) by done.
  rewrite (stM_bind_Ret getS _ _ (with_index s []) (with_index s [])) by done.
  pose proof Hdisk as (Hf & Hfiles & Hlen & _ & Hst).
  rewrite (stM_bind_Ret _ _ _ (Some (dtor_of (filePath (log s)) es 0)) (with_index s [])).
  2:{ rewrite (on_fs_Ret _ _ (Some (dtor_of (filePath (log s)) es 0)) (fs s)); [done|].
      apply makeBackingFileDtor_Some; [done|by apply (Hfiles 0%nat)|by apply Forall_inv in Hst]. }
  rewrite (stM_bind_Ret _ _ _ tt (with_index s [dtor_of (filePath (log s)) es 0])) by done.
  apply (index_histories_spec _ (with_index s [dtor_of (filePath (log s)) es 0]) [es] rest); [done| |done].
  simpl. by rewrite Nat.sub_0_r.
Qed.

(** The same when there is no current file yet: it is made, empty. *)
Lemma makeIndex_new s rest :
  no_faults (fs s) → files (fs s) !! filePath (log s) = None →
  let fs' := mkFsys (<[filePath (log s) := []]> (files (fs s))) (faults (fs s)) in
  on_disk (filePath (log s)) (Z.to_nat (maxHistories (log s))) fs' ([] :: rest) →
  makeIndex s =
  (Ret tt, with_index (mkFileLog (log s) fs') (index_of (filePath (log s)) 0 0 ([] :: rest))).
Proof.
  intros Hf Hnone fs' Hdisk. unfold FileRunLog.makeIndex.
  rewrite (stM_bind_Ret _ _ _ tt (with_index s [])) by done.
  rewrite (stM_bind_Ret getS _ _ (with_index s []) (with_index s [])) by done.
  rewrite (stM_bind_Ret _ _ _ None (with_index s [])).
  2:{ rewrite (on_fs_Ret _ _ None (fs s)); [done|]. by apply makeBackingFileDtor_None. }
  set (s1 := with_index (mkFileLog (log s) fs') [dtor_of (filePath (log s)) [] 0]).
  rewrite (stM_bind_Ret _ _ _ tt s1).
  2:{ rewrite (stM_bind_Ret _ _ _ tt (mkFileLog (log (with_index s [])) fs')); [done|].
      apply on_fs_Ret. by rewrite WriteFile_ok. }
  apply (index_histories_spec _ s1 [[]] rest); [done| |done]. simpl. by rewrite Nat.sub_0_r.
Qed.

(** ** Rotating the files *)

Lemma rotate_loop_spec cs s :
  no_faults (fs s) →
  (∀ i c, cs !! i = Some c → files (fs s) !! file_path (filePath (log s)) i = Some c ∧
     ∃ d, index (log s) !! i = Some d ∧ path d = file_path (filePath (log s)) i) →
  ∃ files', rotate_loop (length cs) s = (Ret tt, mkFileLog (log s) (mkFsys files' (faults (fs s)))) ∧
    (∀ i c, cs !! i = Some c → (i < Z.to_nat (maxHistories (log s)))%nat →
       files' !! file_path (filePath (log s)) (S i) = Some c) ∧
    (∀ j, (length cs < j)%nat →
       files' !! file_path (filePath (log s)) j = files (fs s) !! file_path (filePath (log s)) j) ∧
    (if decide (cs = []) then files' = files (fs s) else files' !! filePath (log s) = None).
Proof.
  revert s. induction cs as [|c cs IH] using rev_ind; intros s Hf Hcs.
  { exists (files (fs s)). split; [by destruct s as [? []]|]. by rewrite decide_True. }
  rewrite length_app, Nat.add_1_r. cbn [rotate_loop].
  destruct (Hcs (length cs) c) as (Hc & d & Hd & Hpath); [by rewrite list_lookup_middle|].
  rewrite (stM_bind_Ret _ _ _ _ _ (index_at_Some _ _ _ Hd)).
  rewrite (stM_bind_Ret getS _ _ s s) by done. rewrite Hpath.
  set (fp := filePath (log s)) in *. set (mh := maxHistories (log s)).
  set (files1 := if mh <? Z.of_nat (S (length cs)) then delete (file_path fp (length cs)) (files (fs s))
    else <[file_path fp (S (length cs)) := c]> (delete (file_path fp (length cs)) (files (fs s)))).
  set (s1 := mkFileLog (log s) (mkFsys files1 (faults (fs s)))).
  rewrite (stM_bind_Ret _ _ _ tt s1).
  2:{ unfold s1, files1, mh. destruct (_ <? _); apply on_fs_Ret;
        [by rewrite (os_Remove_Some _ c) by done|by rewrite (renameRobust_Some _ _ c) by done]. }
  destruct (IH s1) as (files' & -> & Hmoved & Hrest & Hgone); [done| |].
  { intros i ci Hi. apply lookup_lt_Some in Hi as Hlt.
    destruct (Hcs i ci) as (Hfi & Hdi); [by rewrite lookup_app_l|]. split; [|done].
    subst s1 files1. simpl. fold fp.
    assert (Hn1 : file_path fp (length cs) ≠ file_path fp i) by (intros E%file_path_inj; lia).
    assert (Hn2 : file_path fp (S (length cs)) ≠ file_path fp i) by (intros E%file_path_inj; lia).
    destruct (_ <? _); [by rewrite lookup_delete_ne|by rewrite lookup_insert_ne, lookup_delete_ne]. }
  exists files'. split; [done|]. simpl in Hmoved, Hrest, Hgone. fold fp mh in Hmoved, Hrest, Hgone.
  split; [|split].
  - intros i ci Hi Hlt. fold mh in Hlt. destruct (decide (i = length cs)) as [->|Hne].
    + rewrite list_lookup_middle in Hi by done. simplify_eq. rewrite Hrest by lia.
      subst files1. destruct (Z.ltb_spec mh (Z.of_nat (S (length cs)))); [lia|].
      by rewrite lookup_insert_eq.
    + apply Hmoved; [|done]. apply lookup_lt_Some in Hi as Hi'. rewrite length_app in Hi'. simpl in Hi'.
      rewrite lookup_app_l in Hi by lia. done.
  - intros j Hj. rewrite Hrest by lia. subst files1.
    assert (Hn1 : file_path fp (length cs) ≠ file_path fp j) by (intros E%file_path_inj; lia).
    assert (Hn2 : file_path fp (S (length cs)) ≠ file_path fp j) by (intros E%file_path_inj; lia).
    destruct (_ <? _); [by rewrite lookup_delete_ne|by rewrite lookup_insert_ne, lookup_delete_ne].
  - rewrite decide_False by (by destruct cs).
    destruct (decide (cs = [])) as [->|Hne]; [|done]. rewrite Hgone. subst files1. simpl.
    destruct (_ <? _); [by rewrite lookup_delete_eq|].
    rewrite lookup_insert_ne by (intros E; by apply (file_path_inj fp 1 0) in E).
    by rewrite lookup_delete_eq.
Qed.

Lemma rotateFiles_spec s ess :
  file_ok s ess → head ess ≠ Some [] →
  ∃ s', rotateFiles lib_error_text s = (Ret tt, s') ∧
    file_ok s' ([] :: take (Z.to_nat (maxHistories (log s))) ess) ∧
    filePath (log s') = filePath (log s) ∧ maxFileLen (log s') = maxFileLen (log s) ∧
    maxHistories (log s') = maxHistories (log s).
Proof.
  intros (Hne & Hmax & Hhist & (Hf & Hfiles & Hlen & Hnone & Hst) & Hidx) Hcur.
  unfold rotateFiles. rewrite (stM_bind_Ret getS _ _ s s) by done.
  assert (Hl : length (index (log s)) = length (map render ess))
    by (by rewrite Hidx, index_of_length, length_map).
  rewrite Hl. set (fp := filePath (log s)) in *. set (mh := Z.to_nat (maxHistories (log s))) in *.
  destruct (rotate_loop_spec (map render ess) s) as (files' & Hrot & Hmoved & Hrest & Hgone); [done| |].
  { intros i c Hc. rewrite list_lookup_fmap in Hc. destruct (ess !! i) as [es|] eqn:Hes; [|done].
    simpl in Hc. simplify_eq. split; [by apply Hfiles|].
    eexists. split; [rewrite Hidx; by apply index_of_lookup|done]. }
  fold fp mh in Hrot, Hmoved, Hrest, Hgone. rewrite length_map in Hrest.
  rewrite decide_False in Hgone by (by destruct ess).
  rewrite (stM_bind_Ret _ _ _ _ _ Hrot).
  assert (Hall : Forall (.≠ []) ess).
  { destruct ess as [|es rest]; [done|]. constructor; [|done]. intros ->. by apply Hcur. }
  assert (Hdisk : on_disk fp mh (mkFsys (<[fp := []]> files') (faults (fs s))) ([] :: take mh ess)).
  { split; [done|]. split; [|split; [|split]].
    - intros [|i] es Hi; simpl in Hi |- *; simplify_eq; [by rewrite lookup_insert_eq|].
      apply lookup_take_Some in Hi as [Hi Hlt].
      rewrite lookup_insert_ne by (intros E; by apply (file_path_inj fp 0 (S i)) in E).
      apply Hmoved; [|done]. by rewrite list_lookup_fmap, Hi.
    - simpl. rewrite length_take. lia.
    - intros j Hj. simpl length in Hj. rewrite length_take in Hj. simpl files.
      rewrite lookup_insert_ne by (intros E; apply (file_path_inj fp 0 j) in E; lia).
      rewrite Hrest by lia. apply Hnone. lia.
    - constructor; [done|]. by apply Forall_take. }
  eexists. split; [by apply (makeIndex_new (mkFileLog (log s) (mkFsys files' (faults (fs s)))))|].
  split; [|done]. split; [done|]. split; [done|]. split; [by apply Forall_take|]. split; [exact Hdisk|done].
Qed.

(** ** Iterating *)

(** The entries of the log, newest first, and those an iterator has still to
    deliver. *)
Definition newest (ess : list (list RunLogEntry)) : list RunLogEntry := concat (map reverse ess).

Definition rest_of (ess : list (list RunLogEntry)) (it : entryIterator) : list RunLogEntry :=
  drop (entryRelIdx it) (newest (take 1 (drop (dtorIdx it) ess))) ++ newest (drop (S (dtorIdx it)) ess).

Definition iter_ok (ess : list (list RunLogEntry)) (it : entryIterator) : Prop :=
  ∃ es, ess !! dtorIdx it = Some es ∧ (entryRelIdx it ≤ length es)%nat.

Lemma newest_reverse ess : newest ess = reverse (all_entries ess).
Proof.
  unfold newest, all_entries. induction ess as [|es ess IH]; [done|].
  rewrite reverse_cons, concat_app, reverse_app. simpl. by rewrite app_nil_r, IH.
Qed.

Lemma newest_cons es ess : newest (es :: ess) = reverse es ++ newest ess.
Proof. done. Qed.

Lemma newest_nil ess : Forall (.≠ []) ess → newest ess = [] → ess = [].
Proof.
  destruct ess as [|es ess]; [done|]. rewrite newest_cons. intros [Hes _]%Forall_cons [E _]%app_nil.
  apply (f_equal reverse) in E. rewrite reverse_involutive in E. done.
Qed.

Lemma rest_of_at ess it es :
  ess !! dtorIdx it = Some es →
  rest_of ess it = drop (entryRelIdx it) (reverse es) ++ newest (drop (S (dtorIdx it)) ess).
Proof.
  intros Hes. unfold rest_of. rewrite (drop_S _ es _ Hes). simpl take. rewrite newest_cons.
  unfold newest at 1. simpl. by rewrite app_nil_r.
Qed.

Lemma drop_newest m ess es rel :
  ess !! m = Some es → (rel ≤ length es)%nat →
  drop (sum_lengths (take m ess) + rel) (newest ess) =
  drop rel (reverse es) ++ newest (drop (S m) ess).
Proof.
  revert m. induction ess as [|a ess IH]; intros [|m] Hm Hrel; simpl in Hm; simplify_eq.
  - simpl. rewrite newest_cons, drop_app_le by (by rewrite length_reverse). by rewrite drop_0.
  - simpl. rewrite newest_cons. rewrite <- Nat.add_assoc.
    rewrite <- (length_reverse a) at 1. rewrite drop_app_add. by apply IH.
Qed.

Section Iter.
Context (s : FileLog) (ess : list (list RunLogEntry)) (Hok : file_ok s ess).

#[local] Lemma index_lookup k es :
  ess !! k = Some es →
  index (log s) !! k =
  Some (dtor_of (file_path (filePath (log s)) k) es (sum_lengths (take k ess))).
Proof.
  intros Hk. destruct Hok as (_ & _ & _ & _ & Hidx). rewrite Hidx.
  by rewrite (index_of_lookup _ _ _ _ _ _ Hk).
Qed.

Lemma file_Len_spec : file_Len s = (Ret (length (all_entries ess)), s).
Proof.
  unfold file_Len. rewrite (stM_bind_Ret getS _ _ s s) by done.
  destruct Hok as (_ & _ & _ & _ & ->). rewrite all_entries_length.
  assert (Hsum : ∀ ess i start n,
    foldl (λ n d, n + nbrEntries d)%nat n (index_of (filePath (log s)) i start ess) =
    (n + sum_lengths ess)%nat).
  { clear. induction ess as [|es ess IH]; intros i start n; simpl; [lia|]. rewrite IH. lia. }
  by rewrite Hsum.
Qed.

Lemma iter_done_spec it :
  iter_ok ess it → iter_done it s = (Ret (bool_decide (rest_of ess it = [])), s).
Proof.
  intros (es & Hes & Hrel). unfold iter_done.
  rewrite (stM_bind_Ret _ _ _ _ _ (index_at_Some _ _ _ (index_lookup _ _ Hes))).
  rewrite (stM_bind_Ret getS _ _ s s) by done. cbn [nbrEntries dtor_of].
  pose proof Hok as (_ & _ & Hhist & _ & Hidx). rewrite Hidx, index_of_length.
  rewrite (rest_of_at _ _ _ Hes). unfold mret, stM_ret. do 2 f_equal.
  apply lookup_lt_Some in Hes as Hlt. apply eq_true_iff_eq.
  rewrite andb_true_iff, !bool_decide_eq_true, app_nil. split.
  - intros [H3 H4]. rewrite drop_ge by (rewrite length_reverse; lia).
    by rewrite drop_ge by lia.
  - intros [H3 H4]. apply (f_equal length) in H3. rewrite length_drop, length_reverse in H3.
    simpl in H3. split; [lia|]. apply newest_nil in H4.
    + apply (f_equal length) in H4. rewrite length_drop in H4. simpl in H4. lia.
    + destruct ess as [|a ess']; [done|]. simpl in Hhist |- *. by apply Forall_drop.
Qed.

(** The next entry is in the file the iterator is at. *)
Lemma iter_next_here fuel it e rest es :
  ess !! dtorIdx it = Some es → (entryRelIdx it < length es)%nat → (0 < fuel)%nat →
  rest_of ess it = e :: rest →
  ∃ it', iter_next fuel it s = (Ret (e, it'), s) ∧ iter_ok ess it' ∧ rest_of ess it' = rest.
Proof.
  destruct fuel as [|fuel]; intros Hes Hrel Hfuel Hrest; [lia|].
  cbn [FileRunLog.iter_next].
  rewrite (stM_bind_Ret _ _ _ _ _ (iter_done_spec it ltac:(by exists es; split; [|lia]))).
  rewrite Hrest, bool_decide_false by done.
  rewrite (stM_bind_Ret _ _ _ _ _ (index_at_Some _ _ _ (index_lookup _ _ Hes))).
  cbn [nbrEntries dtor_of]. rewrite bool_decide_false by lia.
  pose proof Hok as (_ & _ & _ & (Hf & Hfiles & _ & _ & Hst) & _).
  specialize (Hfiles _ _ Hes). rewrite Forall_forall in Hst.
  rewrite (stM_bind_Ret _ _ s tt s).
  2:{ destruct (f it); [done|]. rewrite (on_fs_Ret _ _ tt (fs s)); [by rewrite FileLog_eta|].
      by apply os_Open_Some with (render es). }
  rewrite (rest_of_at _ _ _ Hes) in Hrest.
  assert (Hlen : (entryRelIdx it < length (reverse es))%nat) by (by rewrite length_reverse).
  destruct (lookup_lt_is_Some_2 (reverse es) (entryRelIdx it)) as [e' He']; [done|].
  rewrite (drop_S _ e' _ He') in Hrest. cbn [app] in Hrest. injection Hrest as -> Hrest.
  rewrite reverse_lookup in He' by lia.
  rewrite (stM_bind_Ret _ _ s e s).
  - eexists. split; [done|]. split; [exists es; simpl; split; [done|lia]|].
    rewrite (rest_of_at _ _ es) by done. exact Hrest.
  - rewrite (on_fs_Ret _ _ e (fs s)); [by rewrite FileLog_eta|].
    apply readEntry_spec; try done; [apply Hst; by eapply list_elem_of_lookup_2|].
    rewrite <- He'. f_equal. lia.
Qed.

Lemma iter_next_spec fuel it e rest :
  iter_ok ess it → (1 < fuel)%nat → rest_of ess it = e :: rest →
  ∃ it', iter_next fuel it s = (Ret (e, it'), s) ∧ iter_ok ess it' ∧ rest_of ess it' = rest.
Proof.
  intros (es & Hes & Hrel) Hfuel Hrest.
  destruct (decide (entryRelIdx it < length es)%nat) as [Hlt|Hge];
    [eapply iter_next_here; eauto; lia|].
  destruct fuel as [|fuel]; [lia|]. cbn [FileRunLog.iter_next].
  rewrite (stM_bind_Ret _ _ _ _ _ (iter_done_spec it ltac:(by exists es))).
  rewrite Hrest, bool_decide_false by done.
  rewrite (stM_bind_Ret _ _ _ _ _ (index_at_Some _ _ _ (index_lookup _ _ Hes))).
  cbn [nbrEntries dtor_of]. rewrite bool_decide_true by lia.
  rewrite (rest_of_at _ _ _ Hes), drop_ge in Hrest by (rewrite length_reverse; lia). cbn [app] in Hrest.
  destruct (ess !! S (dtorIdx it)) as [es'|] eqn:Hes'.
  - assert (Hne : es' ≠ []).
    { destruct Hok as (_ & _ & Hhist & _). rewrite Forall_forall in Hhist. apply Hhist.
      destruct ess as [|a ess']; [done|]. simpl in Hes' |- *. by eapply list_elem_of_lookup_2. }
    apply (iter_next_here _ _ _ _ es'); [done| |lia|].
    + simpl. destruct es'; [done|simpl; lia].
    + rewrite (rest_of_at _ _ es') by done. simpl. rewrite drop_0.
      by rewrite (drop_S _ es' _ Hes'), newest_cons in Hrest.
  - apply lookup_ge_None in Hes'. rewrite drop_ge in Hrest by done. done.
Qed.

Lemma next_spec it e rest :
  iter_ok ess it → rest_of ess it = e :: rest →
  ∃ it', next it s = (Ret (e, it'), s) ∧ iter_ok ess it' ∧ rest_of ess it' = rest.
Proof.
  intros Hit Hrest. unfold FileRunLog.next. rewrite (stM_bind_Ret getS _ _ s s) by done.
  apply iter_next_spec; [done| |done].
  pose proof Hok as (Hne & _ & _ & _ & ->). rewrite index_of_length. destruct ess; [done|simpl; lia].
Qed.

(** The longest prefix whose elements satisfy [more] *)
Fixpoint take_while (more : RunLogEntry → bool) (l : list RunLogEntry) : list RunLogEntry :=
  match l with
  | [] => []
  | e :: l => if more e then e :: take_while more l else []
  end.

Lemma collect_spec n more it :
  iter_ok ess it → (length (rest_of ess it) < n)%nat →
  collect n more it s = (Ret (take_while more (rest_of ess it)), s).
Proof.
  revert it. induction n as [|n IH]; intros it Hit Hn; [lia|]. cbn [FileRunLog.collect].
  rewrite (stM_bind_Ret _ _ _ _ _ (iter_done_spec it Hit)).
  destruct (rest_of ess it) as [|e rest] eqn:Hrest; [by rewrite bool_decide_true|].
  rewrite bool_decide_false by done.
  destruct (next_spec it e rest Hit Hrest) as (it' & Hnext & Hit' & Hrest').
  rewrite (stM_bind_Ret _ _ _ _ _ Hnext). simpl. destruct (more e); [|done].
  rewrite (stM_bind_Ret _ _ _ _ _ (IH it' Hit' ltac:(rewrite Hrest'; simpl in Hn; lia))).
  by rewrite Hrest'.
Qed.

Lemma take_entries_spec n it :
  iter_ok ess it → (n ≤ length (rest_of ess it))%nat →
  take_entries n it s = (Ret (take n (rest_of ess it)), s).
Proof.
  revert it. induction n as [|n IH]; intros it Hit Hn; [by rewrite take_0|]. cbn [FileRunLog.take_entries].
  destruct (rest_of ess it) as [|e rest] eqn:Hrest; [simpl in Hn; lia|].
  destruct (next_spec it e rest Hit Hrest) as (it' & Hnext & Hit' & Hrest').
  rewrite (stM_bind_Ret _ _ _ _ _ Hnext). simpl.
  rewrite (stM_bind_Ret _ _ _ _ _ (IH it' Hit' ltac:(rewrite Hrest'; simpl in Hn; lia))).
  by rewrite Hrest'.
Qed.

Lemma find_dtor_spec idx k fp i start ess' :
  (start ≤ idx < start + sum_lengths ess')%nat →
  ∃ m es rel, find_dtor idx k (index_of fp i start ess') = Some ((k + m)%nat, rel) ∧
    ess' !! m = Some es ∧ (rel < length es)%nat ∧ idx = (start + sum_lengths (take m ess') + rel)%nat.
Proof.
  revert k i start. induction ess' as [|es ess' IH]; intros k i start Hidx; simpl in Hidx; [lia|].
  cbn [index_of find_dtor startIdx nbrEntries dtor_of].
  rewrite bool_decide_true by lia. case_bool_decide as Hlt; cbn [andb].
  - exists 0%nat, es, (idx - start)%nat. simpl. split; [by rewrite Nat.add_0_r|]. split; [done|]. lia.
  - destruct (IH (S k) (S i) (start + length es)%nat) as (m & es' & rel & Hf & Hm & Hrel & He); [lia|].
    exists (S m), es', rel. rewrite Hf. split; [do 2 f_equal; lia|]. split; [done|]. simpl. lia.
Qed.

Lemma iterAt_spec idx :
  (idx < length (all_entries ess))%nat →
  ∃ it, iterAt idx s = (Ret it, s) ∧ iter_ok ess it ∧
        rest_of ess it = drop idx (reverse (all_entries ess)).
Proof.
  intros Hlt. unfold iterAt. rewrite (stM_bind_Ret _ _ _ _ _ file_Len_spec).
  rewrite bool_decide_false by lia. rewrite (stM_bind_Ret getS _ _ s s) by done.
  pose proof Hok as (_ & _ & _ & _ & Hidx). rewrite Hidx. rewrite all_entries_length in Hlt.
  destruct (find_dtor_spec idx 0 (filePath (log s)) 0 0 ess) as (m & es & rel & -> & Hm & Hrel & He); [lia|].
  exists (mkIter rel m None). split; [done|]. split; [exists es; simpl; split; [done|lia]|].
  rewrite (rest_of_at _ _ es) by done. rewrite <- newest_reverse, He. simpl.
  symmetry. apply drop_newest; [done|lia].
Qed.

(** ** Reading the log *)

Lemma take_while_true l : take_while (λ _, true) l = l.
Proof. induction l as [|e l IH]; simpl; by rewrite ?IH. Qed.

Lemma file_GetAll_spec : file_GetAll lib_error_text s = (Ret (reverse (all_entries ess)), s).
Proof.
  unfold file_GetAll. rewrite (stM_bind_Ret _ _ _ _ _ file_Len_spec).
  case_bool_decide as Hlen; [by apply nil_length_inv in Hlen as ->|].
  destruct (iterAt_spec 0) as (it & Hit & Hiok & Hrest); [lia|].
  rewrite (stM_bind_Ret _ _ _ _ _ Hit). unfold collect_all.
  rewrite (stM_bind_Ret _ _ _ _ _ file_Len_spec).
  rewrite collect_spec; [by rewrite take_while_true, Hrest, drop_0|done|].
  rewrite Hrest, drop_0, length_reverse. lia.
Qed.

Lemma file_GetFromIndex_spec i j :
  (i ≤ j ≤ length (all_entries ess))%nat → (i < length (all_entries ess))%nat →
  file_GetFromIndex lib_error_text i [j] s =
  (Ret (take (j - i) (drop i (reverse (all_entries ess)))), s).
Proof.
  intros Hij Hi. unfold file_GetFromIndex. rewrite bool_decide_false by (simpl; lia).
  rewrite (stM_bind_Ret _ _ _ _ _ file_Len_spec). rewrite !bool_decide_false by lia.
  destruct (iterAt_spec i) as (it & Hit & Hiok & Hrest); [lia|].
  rewrite (stM_bind_Ret _ _ _ _ _ Hit). rewrite take_entries_spec; [by rewrite Hrest|done|].
  rewrite Hrest, length_drop, length_reverse. lia.
Qed.

End Iter.

(** ** Recording a run *)

Lemma isFull_spec p es st max :
  isFull (dtor_of p es st) max = (max <? (Z.of_nat (length es) + 1) * Z.of_nat lineLen - 1).
Proof.
  unfold isFull. cbn [nbrEntries dtor_of]. unfold lineLen, gLogEntryLen.
  repeat case_bool_decide; apply eq_true_iff_eq; rewrite !Z.ltb_lt; lia.
Qed.

Lemma shift_index fp i start ess :
  map (λ h, mkDtor (path h) (nbrEntries h) (earliestTime h) (latestTime h) (S (startIdx h)))
      (index_of fp i start ess) = index_of fp i (S start) ess.
Proof. revert i start. induction ess as [|es ess IH]; intros i start; simpl; [done|]. by rewrite IH. Qed.

Lemma append_spec s es rest e :
  file_ok s (es :: rest) → file_storable e →
  ∃ s', (on_dtor 0 (pushEntry e);; shift_histories) s = (Ret tt, s') ∧
    file_ok s' ((es ++ [e]) :: rest) ∧
    filePath (log s') = filePath (log s) ∧ maxFileLen (log s') = maxFileLen (log s) ∧
    maxHistories (log s') = maxHistories (log s).
Proof.
  intros (_ & Hmax & Hhist & (Hf & Hfiles & Hlen & Hnone & Hst) & Hidx) He.
  set (fp := filePath (log s)) in *.
  apply Forall_cons in Hst as [Hes Hrest].
  set (fs' := mkFsys (<[fp := render (es ++ [e])]> (files (fs s))) (faults (fs s))).
  set (s1 := with_index (mkFileLog (log s) fs')
               (dtor_of fp (es ++ [e]) 0 :: index_of fp 1 (length es) rest)).
  assert (Hpush : on_dtor 0 (pushEntry e) s = (Ret tt, s1)).
  { unfold on_dtor. rewrite Hidx. cbn [index_of lookup list_lookup file_path].
    rewrite (pushEntry_spec fp es 0 e (fs s) Hf (Hfiles 0%nat es eq_refl) He). done. }
  rewrite (stM_bind_Ret _ _ _ _ _ Hpush).
  set (s2 := with_index s1 (index_of fp 0 0 ((es ++ [e]) :: rest))).
  exists s2. split.
  { unfold shift_histories. rewrite (stM_bind_Ret getS _ _ s1 s1) by done.
    unfold set_index, modifyS, s2, with_index. simpl. rewrite shift_index, length_app, Nat.add_1_r. done. }
  split; [|done]. split; [done|]. split; [done|]. split; [done|].
  split; [|done]. split; [done|]. split; [|split; [done|split]].
  - intros [|i] es' Hi; simpl in Hi |- *; simplify_eq; [by rewrite lookup_insert_eq|].
    rewrite lookup_insert_ne by (intros E; by apply (file_path_inj fp 0 (S i)) in E).
    by apply (Hfiles (S i)).
  - intros j Hj. simpl in *.
    rewrite lookup_insert_ne by (intros E; apply (file_path_inj fp 0 j) in E; lia).
    by apply Hnone.
  - constructor; [|done]. apply Forall_app. by split; [|constructor].
Qed.

(** The files after a run has been recorded *)
Definition put_files (max : Z) (mh : nat) (e : RunLogEntry) (ess : list (list RunLogEntry))
    : list (list RunLogEntry) :=
  match ess with
  | [] => [[e]]
  | es :: rest =>
     if max <? (Z.of_nat (length es) + 1) * Z.of_nat lineLen - 1 then [e] :: take mh ess
     else (es ++ [e]) :: rest
  end.

Lemma not_after_last t es e st p :
  Forall (λ x, EntryTime x ≤ t) (es : list RunLogEntry) → (0 < length es)%nat → e = dtor_of p es st →
  After (earliestTime e) t = false ∧ After (latestTime e) t = false.
Proof.
  intros Hall Hpos ->. unfold After. simpl. rewrite !Z.ltb_ge. split.
  - destruct Hall; [simpl in Hpos; lia|done].
  - destruct es as [|x es _] using rev_ind; [simpl in Hpos; lia|].
    rewrite last_time_snoc. by apply Forall_app in Hall as [_ ?%Forall_inv].
Qed.

Lemma file_Put_spec s ess e :
  file_ok s ess → file_storable e →
  Forall (λ x, EntryTime x ≤ EntryTime e) (all_entries ess) →
  ∃ s', file_Put lib_error_text e s = (Ret tt, s') ∧
    file_ok s' (put_files (maxFileLen (log s)) (Z.to_nat (maxHistories (log s))) e ess).
Proof.
  intros Hok He Hall. pose proof Hok as (Hne & Hmax & _ & _ & Hidx).
  destruct ess as [|es rest]; [done|]. unfold file_Put.
  rewrite (stM_bind_Ret getS _ _ s s) by done. rewrite Hidx. cbn [index_of file_path].
  set (cur := dtor_of (filePath (log s)) es 0).
  assert (Hes : Forall (λ x, EntryTime x ≤ EntryTime e) es).
  { unfold all_entries in Hall. rewrite reverse_cons, concat_app in Hall.
    apply Forall_app in Hall as [_ Hall]. simpl in Hall. by rewrite app_nil_r in Hall. }
  assert (Hlate : ∀ t, t = earliestTime cur ∨ t = latestTime cur →
    bool_decide (0 < nbrEntries cur)%nat && After t (EntryTime e) = false).
  { intros t Ht. case_bool_decide as Hpos; [|done]. cbn [andb].
    destruct (not_after_last (EntryTime e) es cur 0 (filePath (log s)) Hes Hpos eq_refl) as [H3 H4].
    by destruct Ht as [-> | ->]. }
  rewrite !Hlate by auto. unfold cur at 1. rewrite isFull_spec. cbn [put_files].
  destruct (Z.ltb_spec (maxFileLen (log s)) ((Z.of_nat (length es) + 1) * Z.of_nat lineLen - 1)) as [Hfull|Hroom].
  - destruct (rotateFiles_spec s (es :: rest) Hok) as (s1 & Hrot & Hok1 & Hc1 & Hc2 & Hc3).
    { simpl. intros [= ->]. unfold lineLen, gLogEntryLen in *. simpl in *. lia. }
    rewrite (stM_bind_Ret _ _ _ _ _ Hrot).
    destruct (append_spec s1 [] _ e Hok1 He) as (s2 & Happ & Hok2 & _).
    exists s2. by split.
  - rewrite (stM_bind_Ret _ _ _ tt s) by done.
    destruct (append_spec s es rest e Hok He) as (s2 & Happ & Hok2 & _).
    exists s2. by split.
Qed.

Lemma all_entries_split n ess :
  all_entries ess = all_entries (drop n ess) ++ all_entries (take n ess).
Proof.
  unfold all_entries. rewrite <- (take_drop n ess) at 1. by rewrite reverse_app, concat_app.
Qed.

Lemma all_entries_put max mh e ess :
  ∃ k, all_entries (put_files max mh e ess) = drop k (all_entries ess) ++ [e].
Proof.
  destruct ess as [|es rest]; [by exists 0%nat|]. cbn [put_files].
  destruct (max <? _).
  - exists (length (all_entries (drop mh (es :: rest)))).
    rewrite (all_entries_split mh (es :: rest)), drop_app_length.
    unfold all_entries. by rewrite (reverse_cons _ [e]), concat_app.
  - exists 0%nat. unfold all_entries. rewrite !reverse_cons, !concat_app. simpl.
    by rewrite !app_nil_r, app_assoc.
Qed.

(** Every file stays within the limit. *)
Lemma put_files_bounded max mh e ess :
  Z.of_nat gLogEntryLen ≤ max →
  Forall (λ es : list RunLogEntry, Z.of_nat (length es) * Z.of_nat lineLen - 1 ≤ max) ess →
  Forall (λ es : list RunLogEntry, Z.of_nat (length es) * Z.of_nat lineLen - 1 ≤ max)
         (put_files max mh e ess).
Proof.
  intros Hmax Hall. unfold lineLen, gLogEntryLen in *. destruct ess as [|es rest]; cbn [put_files].
  - constructor; [simpl; lia|done].
  - unfold lineLen, gLogEntryLen.
    destruct (Z.ltb_spec max ((Z.of_nat (length es) + 1) * Z.of_nat (64 + 1) - 1)).
    + constructor; [simpl; lia|]. by apply Forall_take.
    + apply Forall_cons in Hall as [_ Hall]. constructor; [|done]. rewrite length_app. simpl. lia.
Qed.

End Facts.

(** ** The interface *)

Section Laws.
Context `{FloatFractionOk} `{TempNames} (lib_error_text : error → bytes).

Definition file_log_ok (s : FileLog) : Prop := ∃ ess, file_ok s ess.

Definition file_log_entries (s : FileLog) : list RunLogEntry :=
  match (file_GetAll lib_error_text s).1 with Ret l => reverse l | _ => [] end.

Lemma file_log_entries_eq s ess : file_ok s ess → file_log_entries s = all_entries ess.
Proof.
  intros Hok. unfold file_log_entries. rewrite (file_GetAll_spec _ _ _ Hok). apply reverse_involutive.
Qed.

Lemma file_Put_law s e :
  file_log_ok s → file_storable e →
  Forall (λ x, EntryTime x ≤ EntryTime e) (file_log_entries s) →
  ∃ s' k, file_Put lib_error_text e s = (Ret tt, s') ∧ file_log_ok s' ∧
    file_log_entries s' = drop k (file_log_entries s) ++ [e].
Proof.
  intros [ess Hok] He. rewrite (file_log_entries_eq s ess Hok). intros Hall.
  destruct (file_Put_spec lib_error_text s ess e Hok He Hall) as (s' & Hput & Hok').
  destruct (all_entries_put (maxFileLen (log s)) (Z.to_nat (maxHistories (log s))) e ess) as [k Hk].
  exists s', k. split; [done|]. split; [by eexists|]. by rewrite (file_log_entries_eq s' _ Hok').
Qed.

Lemma file_GetAll_law s :
  file_log_ok s → file_GetAll lib_error_text s = (Ret (reverse (file_log_entries s)), s).
Proof.
  intros [ess Hok]. rewrite (file_log_entries_eq s ess Hok). by apply file_GetAll_spec.
Qed.

Lemma file_Len_law s : file_log_ok s → file_Len s = (Ret (length (file_log_entries s)), s).
Proof. intros [ess Hok]. rewrite (file_log_entries_eq s ess Hok). by apply file_Len_spec. Qed.

Lemma file_GetFromIndex_law s i j :
  file_log_ok s → (i ≤ j ≤ length (file_log_entries s))%nat → (i < length (file_log_entries s))%nat →
  file_GetFromIndex lib_error_text i [j] s =
  (Ret (take (j - i) (drop i (reverse (file_log_entries s)))), s).
Proof.
  intros [ess Hok]. rewrite (file_log_entries_eq s ess Hok). by apply file_GetFromIndex_spec.
Qed.

#[local] Instance file_RunLog' : RunLog FileLog := file_RunLog lib_error_text.

#[export] Instance file_RunLogLaws : RunLogLaws FileLog := {|
  log_ok := file_log_ok;
  log_entries := file_log_entries;
  storable := file_storable;
  GetAll_law := file_GetAll_law;
  Len_law := file_Len_law;
  GetFromIndex_law := file_GetFromIndex_law;
  Put_law := file_Put_law
|}.

End Laws.

(** ** Lemmas: searching by time *)

Definition newer_first : relation RunLogEntry := λ a b, EntryTime b ≤ EntryTime a.

Lemma sorted_reverse l : StronglySorted older_first l → StronglySorted newer_first (reverse l).
Proof.
  induction 1 as [|e l Hl IH Hall]; [constructor|].
  rewrite reverse_cons. apply StronglySorted_app_2; [|done|by repeat constructor].
  intros a b Ha ->%list_elem_of_singleton. rewrite elem_of_reverse in Ha.
  rewrite Forall_forall in Hall. exact (Hall a Ha).
Qed.

(** The times of a file lie between those of its first and last entries. *)
Lemma file_times es e :
  StronglySorted newer_first (reverse es) → e ∈ es →
  first_time es ≤ EntryTime e ≤ last_time es.
Proof.
  intros Hs He. split.
  - destruct es as [|x es]; [by apply elem_of_nil in He|]. simpl.
    apply elem_of_cons in He as [->|He]; [lia|]. rewrite reverse_cons in Hs.
    apply (StronglySorted_app_1_elem_of _ _ _ e x Hs); [by apply elem_of_reverse|by left].
  - destruct es as [|x es _] using rev_ind; [by apply elem_of_nil in He|].
    rewrite last_time_snoc. rewrite reverse_snoc in Hs. apply StronglySorted_inv in Hs as [_ Hall].
    apply elem_of_app in He as [He|He%list_elem_of_singleton]; [|subst; lia].
    rewrite Forall_forall in Hall. apply Hall. by apply elem_of_reverse.
Qed.

Section Time.
Context `{FloatFractionOk} `{TempNames} (lib_error_text : error → bytes).
Context (s : FileLog) (ess : list (list RunLogEntry)) (Hok : file_ok s ess).
Context (Hsorted : StronglySorted older_first (all_entries ess)).

Lemma newest_sorted : StronglySorted newer_first (newest ess).
Proof. rewrite newest_reverse. by apply sorted_reverse. Qed.

Lemma newest_split k es :
  ess !! k = Some es →
  newest ess = newest (take k ess) ++ reverse es ++ newest (drop (S k) ess).
Proof.
  intros Hk. rewrite <- newest_cons, <- (drop_S _ _ _ Hk). unfold newest.
  by rewrite <- concat_app, <- map_app, take_drop.
Qed.

Lemma file_sorted k es : ess !! k = Some es → StronglySorted newer_first (reverse es).
Proof.
  intros Hk. pose proof newest_sorted as Hn. rewrite (newest_split k es Hk) in Hn.
  apply StronglySorted_app_1_r in Hn. by apply StronglySorted_app_1_l in Hn.
Qed.

(** In a list of entries, newest first, the entries no later than [t] are the
    end of the list; the search finds where it begins. *)
Lemma firstEntryNotAfter_spec k es t :
  ess !! k = Some es →
  ∃ r, firstEntryNotAfter lib_error_text (dtor_of (file_path (filePath (log s)) k) es
         (sum_lengths (take k ess))) t (fs s) = (Ret r, fs s) ∧ (r ≤ length es)%nat ∧
       Forall (λ e, t < EntryTime e) (take r (reverse es)) ∧
       Forall (λ e, EntryTime e ≤ t) (drop r (reverse es)).
Proof.
  intros Hk. pose proof Hok as (_ & _ & _ & (Hf & Hfiles & _ & _ & Hst) & _).
  rewrite Forall_forall in Hst.
  set (p := λ i, match reverse es !! i with Some e => negb (After (EntryTime e) t) | None => false end).
  destruct (Search_stM (length es) (λ i,
    r ← try_ (readEntry lib_error_text (dtor_of (file_path (filePath (log s)) k) es
                (sum_lengths (take k ess))) i);
    match r with
    | inr _ => mret false
    | inl entry => mret (negb (After (EntryTime entry) t))
    end) p (fs s)) as (r & Hr & Hrl & Hlo & Hhi).
  - intros i Hi. destruct (lookup_lt_is_Some_2 (reverse es) i) as [e He]; [by rewrite length_reverse|].
    unfold p. rewrite He. rewrite (stM_bind_Ret _ _ _ (inl e) (fs s)); [done|].
    unfold try_, dtor_of. rewrite (readEntry_spec lib_error_text _ es _ _ _ i e); try done.
    + by apply Hfiles.
    + apply Hst. by eapply list_elem_of_lookup_2.
    + rewrite reverse_lookup in He by done. rewrite <- He. f_equal. lia.
  - intros i j Hij Hj. unfold p, After.
    destruct (reverse es !! i) as [a|] eqn:Ha; [|done].
    destruct (lookup_lt_is_Some_2 (reverse es) j) as [b Hb]; [by rewrite length_reverse|]. rewrite Hb.
    rewrite !negb_true_iff, !Z.ltb_ge. intros Hat.
    pose proof (file_sorted k es Hk) as Hs. destruct (decide (i = j)) as [->|Hne]; [by simplify_eq|].
    rewrite <- (take_drop (S i) (reverse es)) in Hs.
    assert (newer_first a b) as Hab; [|unfold newer_first in Hab; lia].
    apply (StronglySorted_app_1_elem_of _ _ _ a b Hs); apply list_elem_of_lookup.
    + exists i. by rewrite lookup_take_lt by lia.
    + exists (j - S i)%nat. rewrite lookup_drop, <- Hb. f_equal. lia.
  - exists r. split; [exact Hr|]. split; [done|]. split; apply Forall_forall; intros e He;
      apply list_elem_of_lookup in He as [i Hi].
    + apply lookup_take_Some in Hi as [Hi Hlt]. specialize (Hlo i Hlt). unfold p, After in Hlo.
      rewrite Hi in Hlo. by rewrite negb_false_iff, Z.ltb_lt in Hlo.
    + rewrite lookup_drop in Hi. apply lookup_lt_Some in Hi as Hl. rewrite length_reverse in Hl.
      specialize (Hhi (r + i)%nat ltac:(lia) Hl). unfold p, After in Hhi.
      rewrite Hi in Hhi. by rewrite negb_true_iff, Z.ltb_ge in Hhi.
Qed.

Lemma take_while_sorted t l :
  StronglySorted newer_first l →
  take_while (λ e, After (EntryTime e) t) l = filter (λ e, t < EntryTime e) l.
Proof.
  induction 1 as [|e l Hl IH Hall]; [done|]. simpl. unfold After at 1.
  destruct (Z.ltb_spec t (EntryTime e)) as [Hlt|Hge].
  - by rewrite filter_cons_True, IH.
  - rewrite filter_cons_False by lia. symmetry. apply filter_none.
    eapply Forall_impl; [exact Hall|]. intros x. unfold newer_first. simpl. lia.
Qed.

(** The file [find_start] stops at is the first one whose times hold [t]. *)
Definition holds (t : Time) (es : list RunLogEntry) : Prop :=
  first_time es ≤ t ≤ last_time es.

Lemma find_start_spec t k :
  match find_start lib_error_text t (drop k (index (log s))) s with
  | (Ret None, s') => s' = s ∧ ∀ i es, (k ≤ i)%nat → ess !! i = Some es → ¬ holds t es
  | (Ret (Some idx), s') => s' = s ∧ ∃ i es r, ess !! i = Some es ∧ holds t es ∧
      (∀ j es', (k ≤ j < i)%nat → ess !! j = Some es' → ¬ holds t es') ∧
      idx = (sum_lengths (take i ess) + r)%nat ∧ (r ≤ length es)%nat ∧
      Forall (λ e, t < EntryTime e) (take r (reverse es)) ∧
      Forall (λ e, EntryTime e ≤ t) (drop r (reverse es))
  | _ => False
  end.
Proof.
  pose proof Hok as (_ & _ & _ & (Hf & Hfiles & _) & Hidx).
  remember (length ess - k)%nat as n eqn:Hn. revert k Hn. induction n as [|n IH]; intros k Hn.
  - rewrite drop_ge by (rewrite Hidx, index_of_length; lia). split; [done|].
    intros i es Hki Hi. apply lookup_lt_Some in Hi. lia.
  - destruct (lookup_lt_is_Some_2 ess k) as [es Hk]; [lia|].
    rewrite (drop_S _ _ _ (index_lookup s ess Hok k es Hk)). cbn [find_start].
    cbn [earliestTime latestTime dtor_of startIdx path].
    destruct (negb (After (first_time es) t) && negb (Before (last_time es) t)) eqn:Hin.
    + assert (Hh : holds t es).
      { unfold After, Before in Hin. apply andb_prop in Hin as [H3 H4].
        rewrite negb_true_iff, Z.ltb_ge in H3, H4. by split. }
      destruct (firstEntryNotAfter_spec k es t Hk) as (r & Hr & Hrl & Hlo & Hhi).
      rewrite (stM_bind_Ret _ _ _ tt s).
      2:{ rewrite (on_fs_Ret _ _ tt (fs s)); [by rewrite FileLog_eta|].
          apply os_Open_Some with (render es); [done|by apply Hfiles]. }
      rewrite (stM_bind_Ret _ _ _ r s).
      2:{ rewrite (on_fs_Ret _ _ r (fs s)); [by rewrite FileLog_eta|]. exact Hr. }
      split; [done|]. exists k, es, r. split; [done|]. split; [done|]. split; [lia|]. split; [lia|done].
    + assert (Hnot : ¬ holds t es).
      { unfold holds. intros [H3 H4]. unfold After, Before in Hin.
        apply andb_false_iff in Hin as [Hin|Hin]; rewrite negb_false_iff, Z.ltb_lt in Hin; lia. }
      specialize (IH (S k) ltac:(lia)).
      destruct (find_start _ t (drop (S k) _) s) as [[[idx|]| | |] s']; try done;
        destruct IH as [-> IH]; (split; [done|]).
      * destruct IH as (i & es' & r & Hi & Hh & Hbefore & Hrest).
        exists i, es', r. split; [done|]. split; [done|]. split; [|done].
        intros j es2 Hj Hj2. destruct (decide (j = k)) as [->|]; [by simplify_eq|].
        apply (Hbefore j); [lia|done].
      * intros i es' Hki Hi. destruct (decide (i = k)) as [->|]; [by simplify_eq|].
        apply (IH i); [lia|done].
Qed.

(** When none of the files before file [i] holds [t], all their entries are
    later. *)
Lemma newer_file_later i es t e :
  ess !! i = Some es → holds t es →
  (∀ j es', (j < i)%nat → ess !! j = Some es' → ¬ holds t es') →
  es ≠ [] → e ∈ newest (take i ess) → t < EntryTime e.
Proof.
  intros Hi [Hfirst Hlast] Hbefore Hne He.
  assert (Hlater : last_time es ≤ EntryTime e).
  { pose proof newest_sorted as Hs. rewrite (newest_split i es Hi) in Hs.
    destruct es as [|x es _] using rev_ind; [done|]. rewrite last_time_snoc.
    apply (StronglySorted_app_1_elem_of _ _ _ e x Hs); [done|]. rewrite reverse_snoc. set_solver. }
  unfold newest in He. apply list_elem_of_In, in_concat in He as (l & Hl & Hel).
  apply in_map_iff in Hl as (es' & <- & Hin%list_elem_of_In).
  apply list_elem_of_lookup in Hin as [j Hj]. apply lookup_take_Some in Hj as [Hj Hji].
  rewrite <- list_elem_of_In, elem_of_reverse in Hel.
  destruct (file_times es' e (file_sorted j es' Hj) Hel) as [H3 H4].
  specialize (Hbefore j es' Hji Hj). unfold holds in Hbefore. lia.
Qed.

Lemma sum_lengths_take (l : list (list RunLogEntry)) n : (sum_lengths (take n l) ≤ sum_lengths l)%nat.
Proof.
  revert n. induction l as [|x l IH]; intros [|n]; simpl; try lia. specialize (IH n). lia.
Qed.

(** The place in a file from which on the entries are no later than [maxTime] is before its
    end when the file holds that time. *)
Lemma start_inside (es : list RunLogEntry) maxTime r :
  holds maxTime es → maxTime ≠ zero_time → (r ≤ length es)%nat →
  Forall (λ e, maxTime < EntryTime e) (take r (reverse es)) → (r < length es)%nat.
Proof.
  intros Hh Hnz Hr Hlo. destruct (decide (r = length es)) as [->|]; [|lia]. exfalso.
  rewrite take_ge in Hlo by (by rewrite length_reverse).
  destruct es as [|e0 es'].
  { destruct Hh as [H3 H4]. change (zero_time ≤ maxTime) in H3. change (maxTime ≤ zero_time) in H4. lia. }
  rewrite reverse_cons, Forall_app in Hlo. destruct Hlo as [_ Hlo%Forall_inv].
  unfold holds in Hh. simpl in Hh. lia.
Qed.

(** Entry [r] of file [i], both counted from the newest, among all entries *)
Lemma take_newest i es r :
  ess !! i = Some es → (r < length es)%nat →
  take (sum_lengths (take i ess) + r) (newest ess) = newest (take i ess) ++ take r (reverse es).
Proof.
  intros Hi Hrl.
  assert (Hl : length (newest (take i ess)) = sum_lengths (take i ess))
    by (by rewrite newest_reverse, length_reverse, all_entries_length).
  rewrite (newest_split i es Hi). rewrite <- Hl, take_app_add.
  by rewrite take_app_le by (rewrite length_reverse; lia).
Qed.

(** In what is sorted from the newest on, nothing is later than the first entries. *)
Lemma sorted_from_first (l l' : list RunLogEntry) maxTime :
  l ≠ [] → Forall (λ e, EntryTime e ≤ maxTime) l → StronglySorted newer_first (l ++ l') →
  Forall (λ e, EntryTime e ≤ maxTime) (l ++ l').
Proof.
  intros Hne Hl Hs. destruct l as [|x l]; [done|].
  apply Forall_cons in Hl as [Hx _]. cbn [app] in Hs |- *.
  apply StronglySorted_inv in Hs as [_ Hall]. constructor; [done|].
  eapply Forall_impl; [exact Hall|]. unfold newer_first. simpl. lia.
Qed.

(** The entries from that place on, while they are later than [minTime] *)
Lemma from_place maxTime minTime i es r :
  ess !! i = Some es → holds maxTime es → (r < length es)%nat →
  (∀ j es', (j < i)%nat → ess !! j = Some es' → ¬ holds maxTime es') →
  Forall (λ e, maxTime < EntryTime e) (take r (reverse es)) →
  Forall (λ e, EntryTime e ≤ maxTime) (drop r (reverse es)) →
  take_while (λ e, After (EntryTime e) minTime) (drop (sum_lengths (take i ess) + r) (newest ess)) =
  filter (λ e, minTime < EntryTime e ≤ maxTime) (newest ess).
Proof.
  intros Hi Hh Hrl Hbefore Hlo Hhi. pose proof newest_sorted as Hs.
  set (idx := (sum_lengths (take i ess) + r)%nat).
  rewrite <- (take_drop idx (newest ess)) at 2. rewrite filter_app.
  rewrite <- (take_drop idx (newest ess)) in Hs.
  apply StronglySorted_app in Hs as (_ & _ & Hsd).
  assert (Hdall : Forall (λ e, EntryTime e ≤ maxTime) (drop idx (newest ess))).
  { assert (Hd : drop idx (newest ess) = drop r (reverse es) ++ newest (drop (S i) ess))
      by (apply drop_newest; [done|lia]).
    rewrite Hd in *. apply sorted_from_first; try done.
    intros E0. apply (f_equal length) in E0. rewrite length_drop, length_reverse in E0. simpl in E0. lia. }
  rewrite (filter_none (λ e, minTime < EntryTime e ≤ maxTime) (take idx (newest ess))).
  2:{ apply Forall_forall. intros e He. unfold idx in He. rewrite (take_newest i es r) in He by done.
      apply elem_of_app in He as [He|He].
      - assert (Hgt : maxTime < EntryTime e); [|lia].
        apply (newer_file_later i es maxTime e); try done. intros ->. simpl in Hrl. lia.
      - rewrite Forall_forall in Hlo. specialize (Hlo e He). lia. }
  cbn [app]. rewrite take_while_sorted by done. apply filter_ext_elem. intros e He.
  rewrite Forall_forall in Hdall. specialize (Hdall e He). lia.
Qed.

Lemma file_GetFromTime_spec maxTime minTime :
  minTime ≤ maxTime → maxTime ≠ zero_time →
  file_GetFromTime lib_error_text maxTime [minTime] s =
  (Ret (if decide (Exists (holds maxTime) ess)
        then filter (λ e, minTime < EntryTime e ≤ maxTime) (newest ess) else []), s).
Proof.
  intros Hle Hnz. unfold file_GetFromTime. rewrite bool_decide_false by (simpl; lia).
  rewrite (stM_bind_Ret _ _ _ _ _ (file_Len_spec s ess Hok)).
  case_bool_decide as Hlen.
  { rewrite newest_reverse. apply nil_length_inv in Hlen as ->. by destruct (decide _). }
  rewrite (stM_bind_Ret getS _ _ s s) by done.
  rewrite (stM_bind_Ret _ _ _ minTime s) by done. unfold Before at 1.
  destruct (Z.ltb_spec maxTime minTime); [lia|].
  pose proof (find_start_spec maxTime 0) as Hstart. rewrite drop_0 in Hstart.
  destruct (find_start lib_error_text maxTime (index (log s)) s) as [[[idx|]| | |] s'] eqn:E; try done;
    destruct Hstart as [-> Hstart]; rewrite (stM_bind_Ret _ _ _ _ _ E).
  2:{ rewrite decide_False; [done|]. intros (es & [i Hi]%list_elem_of_lookup & Hh)%Exists_exists.
      by apply (Hstart i es ltac:(lia) Hi). }
  destruct Hstart as (i & es & r & Hi & Hh & Hbefore & -> & Hr & Hlo & Hhi).
  rewrite decide_True by (apply Exists_exists; exists es; split; [by eapply list_elem_of_lookup_2|done]).
  pose proof (start_inside es maxTime r Hh Hnz Hr Hlo) as Hrl.
  assert (Htot : (sum_lengths (take i ess) + r < length (all_entries ess))%nat).
  { rewrite all_entries_length. pose proof (sum_lengths_take_S ess i es Hi).
    pose proof (sum_lengths_take ess (S i)). lia. }
  destruct (iterAt_spec s ess Hok _ Htot) as (it & Hit & Hiok & Hrest).
  rewrite (stM_bind_Ret _ _ _ _ _ Hit). unfold collect_all.
  rewrite (stM_bind_Ret _ _ _ _ _ (file_Len_spec s ess Hok)).
  rewrite (collect_spec lib_error_text s ess Hok); [|done|rewrite Hrest, length_drop, length_reverse; lia].
  rewrite Hrest, <- newest_reverse. do 2 f_equal. apply (from_place maxTime minTime i es r); try done.
  intros j es' Hj. apply Hbefore. lia.
Qed.

End Time.

(** ** Theorems *)

Section Theorems.
Context `{FloatFractionOk} `{TempNames} (lib_error_text : error → bytes).


(** Reading the log returns the entries of all files, newest first; by
    index it returns the slice asked for; and neither changes anything. *)
Theorem file_reads_correct s ess i j :
  file_ok s ess → (i ≤ j ≤ length (all_entries ess))%nat → (i < length (all_entries ess))%nat →
  file_GetAll lib_error_text s = (Ret (reverse (all_entries ess)), s) ∧
  file_Len s = (Ret (length (all_entries ess)), s) ∧
  file_GetFromIndex lib_error_text i [j] s =
    (Ret (take (j - i) (drop i (reverse (all_entries ess)))), s).
Proof.
  intros Hok Hij Hi. split; [by apply file_GetAll_spec|]. split; [by apply file_Len_spec|].
  by apply file_GetFromIndex_spec.
Qed.

(** [GetFromTime] returns the entries later than its second argument and no
    later than its first, newest first, provided the first argument lies between
    the first and last run of one of the files; otherwise it returns nothing,
    even if there are such entries. *)
Theorem file_GetFromTime_correct s ess maxTime minTime :
  file_ok s ess → Sorted older_first (all_entries ess) →
  minTime ≤ maxTime → maxTime ≠ zero_time →
  file_GetFromTime lib_error_text maxTime [minTime] s =
  (Ret (if decide (Exists (holds maxTime) ess)
        then filter (λ e, minTime < EntryTime e ≤ maxTime) (reverse (all_entries ess)) else []), s).
Proof.
  intros Hok Hs Hle Hnz. rewrite <- newest_reverse. apply file_GetFromTime_spec; try done.
  apply Sorted_StronglySorted; [|done]. intros a b c. unfold older_first. lia.
Qed.

(** C24: The log survives a restart of the runner: opening its files again gives
    the same log, in the same state. *)
Theorem reopened_log s ess :
  file_ok s ess →
  NewFileRunLog lib_error_text (filePath (log s)) (maxFileLen (log s)) (maxHistories (log s)) (fs s) =
  (Ret (log s), fs s).
Proof.
  intros (Hne & _ & _ & Hdisk & Hidx). unfold NewFileRunLog.
  set (s0 := mkFileLog (mkFileRunLog (filePath (log s)) (maxFileLen (log s)) (maxHistories (log s)) []) (fs s)).
  rewrite (makeIndex_spec lib_error_text s0 ess Hne Hdisk). unfold with_index. simpl.
  rewrite <- Hidx. by destruct (log s).
Qed.

End Theorems.

(** ** A log to try things on: two entries per file, two historical files *)

#[local] Instance example_float : FloatFraction := exact_fraction.
#[local] Instance example_temp : TempNames := λ _, "/tmp/newBackingFile".
#[local] Instance example_float_ok : FloatFractionOk := exact_fraction_ok.

Definition no_text : error → bytes := λ _, [].
Definition example_time (t : Z) : RunLogEntry := mkRunLogEntry "j" t SubprocFateSucceeded JobGood 0.

Fixpoint file_Puts (l : list RunLogEntry) : stM FileLog unit :=
  match l with
  | [] => mret tt
  | e :: l => file_Put no_text e;; file_Puts l
  end.

Definition open_log (max histories : Z) (fs : fsys) : FileLog :=
  match NewFileRunLog no_text "log" max histories fs with
  | (Ret l, fs') => mkFileLog l fs'
  | (_, fs') => mkFileLog (mkFileRunLog "log" max histories []) fs'
  end.

Definition example_log (l : list RunLogEntry) : FileLog :=
  (file_Puts l (open_log 129 2 (mkFsys ∅ []))).2.

Lemma example_storable t : is_int64 t → (length (itoa (UnixNano t)) <= 19)%nat →
  file_storable (example_time t).
Proof.
  intros Ht Hl. split; [|simpl; unfold gMaxJobNameLen; lia].
  split; [vm_compute; intuition discriminate|]. split; [done|].
  split; [unfold max_int64, two63; simpl; lia|].
  unfold entry_text. cbn [EntryTime EntryFate EntryResult EntryExecTime JobName example_time].
  assert (E1 : length (encode_name "j") = 1%nat) by (vm_compute; reflexivity).
  assert (E2 : length (SubprocFate_String SubprocFateSucceeded) = 9%nat) by reflexivity.
  assert (E3 : length (JobStatus_String JobGood) = 4%nat) by reflexivity.
  assert (E4 : length (Duration_String 0) = 2%nat) by reflexivity.
  rewrite !length_app, E1, E2, E3, E4. unfold gLogEntryLen. cbn [length]. lia.
Qed.

Lemma small_storable t : 0 <= t < 1000 → file_storable (example_time t).
Proof.
  intros Ht. assert (is_int64 t) by (unfold is_int64, two63; lia). apply example_storable; [done|].
  unfold UnixNano. rewrite wrap64_small by done. unfold itoa. destruct (Z.ltb_spec t 0); [lia|].
  apply digits_length; [|lia]. split; [lia|]. simpl Z.of_nat. lia.
Qed.

(** The log just opened, with an empty current file *)
Lemma example_empty_ok : file_ok (open_log 129 2 (mkFsys ∅ [])) [[]].
Proof.
  assert (E : open_log 129 2 (mkFsys ∅ []) =
    mkFileLog (mkFileRunLog "log" 129 2 (index_of "log" 0 0 [[]])) (mkFsys (<["log" : bytes := []]> ∅) []))
    by (vm_compute; reflexivity).
  rewrite E. split; [done|]. split; [simpl; unfold gLogEntryLen; lia|]. split; [done|]. split; [|done].
  split; [done|]. split; [|split; [simpl; lia|split]].
  - intros [|i] es Hi; simpl in Hi; [|done]. by simplify_eq.
  - intros j Hj. simpl in Hj |- *. rewrite lookup_insert_ne; [done|].
    intros E'. apply (file_path_inj "log" 0 j) in E'. lia.
  - by repeat constructor.
Qed.


Lemma example_one_ok :
  ∃ s, example_log [example_time 10] = s ∧ file_ok s [[example_time 10]].
Proof.
  destruct (file_Put_spec no_text _ _ (example_time 10) example_empty_ok) as (s' & P & O).
  - apply small_storable. lia.
  - constructor.
  - exists s'. split; [|exact O]. unfold example_log. cbn [file_Puts].
    by rewrite (stM_bind_Ret _ _ _ _ _ P).
Qed.

Lemma file_reads_correct_witness :
  ∃ s, file_ok s [[example_time 10]] ∧ (0 <= 1 <= length (all_entries [[example_time 10]]))%nat ∧
  file_GetAll no_text s = (Ret [example_time 10], s).
Proof.
  destruct example_one_ok as (s & _ & O). exists s. split; [exact O|]. split; [simpl; lia|].
  exact (proj1 (file_reads_correct no_text s _ 0 1 O ltac:(simpl; lia) ltac:(simpl; lia))).
Defined.

Lemma file_GetFromTime_correct_witness :
  ∃ s, file_ok s [[example_time 10]] ∧
  file_GetFromTime no_text 10 [5] s = (Ret [example_time 10], s).
Proof.
  destruct example_one_ok as (s & _ & O). exists s. split; [exact O|].
  pose proof (file_GetFromTime_correct no_text s _ 10 5 O
    ltac:(repeat constructor) ltac:(lia) ltac:(discriminate)) as G.
  rewrite decide_True in G by (repeat constructor; unfold holds; simpl; unfold last_time; simpl; lia).
  exact G.
Defined.

Lemma reopened_log_witness :
  ∃ s, file_ok s [[example_time 10]] ∧
  NewFileRunLog no_text (filePath (log s)) (maxFileLen (log s)) (maxHistories (log s)) (fs s) = (Ret (log s), fs s).
Proof.
  destruct example_one_ok as (s & _ & O). exists s. split; [exact O|].
  exact (reopened_log no_text s _ O).
Defined.

(** A run recorded out of order when the current file is full and the run
    belongs just before its newest entry is lost: [Put] reports success, and
    the entry is in none of the files. *)
Theorem out_of_order_entry_lost :
  let s := example_log [example_time 10; example_time 30] in
  (file_Put no_text (example_time 20) s).1 = Ret tt ∧
  (file_GetAll no_text (file_Put no_text (example_time 20) s).2).1 =
    Ret [example_time 30; example_time 10].
Proof. split; vm_compute; reflexivity. Qed.

(** After a run has been recorded out of order while there are historical
    files, the indices of their entries are off by one: the entry with index 3
    is not the fourth newest one, and asking for the oldest entry panics. *)
Theorem out_of_order_index_broken :
  let s := (file_Puts (map example_time [10; 20; 30; 40; 60; 50])
              (open_log 194 2 (mkFsys ∅ []))).2 in
  (file_GetAll no_text s).1 = Ret (map example_time [60; 50; 40; 30; 20; 10]) ∧
  (file_GetFromIndex no_text 3 [4%nat] s).1 = Ret [example_time 20] ∧
  (file_GetFromIndex no_text 5 [6%nat] s).1 = Panic "Bug!".
Proof. split; [|split]; vm_compute; reflexivity. Qed.

(** An error met while searching for the place of an entry is swallowed:
    when no entry of the file can be read, [firstEntryNotAfter] still returns an
    index and no error. *)
Theorem search_error_swallowed self t s :
  (∀ i, (i < nbrEntries self)%nat → ∃ e, readEntry no_text self i s = (Fail e, s)) →
  firstEntryNotAfter no_text self t s = (Ret (nbrEntries self), s).
Proof.
  intros Hfail.
  destruct (Search_stM (nbrEntries self) (λ i,
    r ← try_ (readEntry no_text self i);
    match r with
    | inr _ => mret false
    | inl entry => mret (negb (After (EntryTime entry) t))
    end) (λ _, false) s) as (r & Hr & Hrl & _ & Hhi).
  - intros k Hk. destruct (Hfail k Hk) as [e He].
    rewrite (stM_bind_Ret _ _ _ (inr e) s); [done|]. unfold try_. by rewrite He.
  - done.
  - unfold firstEntryNotAfter. rewrite Hr. do 2 f_equal.
    destruct (decide (r = nbrEntries self)) as [|Hne]; [done|].
    by specialize (Hhi r ltac:(lia) ltac:(lia)).
Qed.

(** A file of the right length that holds no entry *)
Definition garbage : fsys := mkFsys (<["log" : bytes := replicate 64 "x"%char]> ∅) [].

Lemma search_error_swallowed_witness :
  let self := mkDtor "log" 1 0 0 0 in
  (∃ e, readEntry no_text self 0 garbage = (Fail e, garbage)) ∧
  firstEntryNotAfter no_text self 5 garbage = (Ret 1%nat, garbage).
Proof.
  intros self.
  assert (F : ∃ e, readEntry no_text self 0 garbage = (Fail e, garbage))
    by (eexists; vm_compute; reflexivity).
  split; [exact F|]. apply (search_error_swallowed self 5 garbage).
  intros i Hi. simpl in Hi. assert (i = 0%nat) as -> by lia. exact F.
Defined.

(** With a limit smaller than a line, which the preferences accept ("0m"),
    the file made by the first rotation stays empty and reading the log back
    panics after the first run. *)
Theorem tiny_limit_panics :
  let s := (file_Put no_text (example_time 10) (open_log 0 2 (mkFsys ∅ []))) in
  s.1 = Ret tt ∧ (file_GetAll no_text s.2).1 = Panic "Iterator is done".
Proof. split; vm_compute; reflexivity. Qed.
