(* ===== verification/RunRecServer.v ===== *)
(** * Servers of run records ([jobfile/run_rec_server.go])

    A socket result sink sends run records to whoever is connected to its
    address.  [runRecServerRegistry] keeps one server per address; a server is a
    goroutine that is handed connections by a second one, which accepts them, and
    hands every record to the goroutine of each connection; both take records from a
    channel of capacity 10 and drop what does not fit.

    The goroutines are interleaved: a server and its connections form one state,
    [runRecServer], and each event of a trace is one turn of one goroutine or one
    call from outside.  The theorems: along every trace nothing panics (no send on
    a closed channel, no channel closed twice), what a connection has received is
    a subsequence of the records pushed, in their order, no buffer outgrows its
    capacity; a server that is stopped ends, with the goroutines of its connections,
    but for a connection that was accepted and not yet handed to it; [SetServers]
    leaves exactly the requested servers in the registry. *)

From S2P Require Import Prelude GoStrings.

Open Scope Z_scope.
Open Scope bytes_scope.
Open Scope list_scope.

(** ** Data *)

(** A buffered Go channel of records. *)
Record chan := mkChan { buffer : list bytes; chan_closed : bool }.

Definition new_chan : chan := mkChan [] false.
Definition chan_cap : nat := 10.

Definition send_on_closed : bytes := "send on closed channel".
Definition close_of_closed : bytes := "close of closed channel".

Definition close (c : chan) : outcome chan :=
  if chan_closed c then Panic close_of_closed else Ret (mkChan (buffer c) true).

(** [select { case c <- rec: default: }]: the channel, and whether the record was
    accepted. *)
Definition try_send (c : chan) (rec : bytes) : outcome (chan * bool) :=
  if chan_closed c then Panic send_on_closed
  else if bool_decide (length (buffer c) < chan_cap)%nat
       then Ret (mkChan (buffer c ++ [rec]) false, true)
       else Ret (c, false).

(** A handler with the connection its goroutine writes to: what the peer has been
    sent, and whether the connection is open. *)
Record connHandler := mkHandler {
  handler_running : bool;
  handler_chan : chan;
  handler_dropped : nat;
  conn_sent : list bytes;
  conn_open : bool
}.

Record serverId := mkServerId { Proto : bytes; Address : bytes }.

#[export] Instance serverId_eq_dec : EqDecision serverId.
Proof. solve_decision. Defined.
#[export] Instance serverId_countable : Countable serverId.
Proof.
  apply (inj_countable' (λ s, (Proto s, Address s)) (λ p, mkServerId p.1 p.2)). by intros [].
Defined.

(** The goroutine of [acceptConns]: in [Accept]; at its send on [connChan], with a
    connection; or past it, the channel being closed. *)
Inductive acceptor_state := Accepting | Holding | AcceptEnded.

(** The listener and its goroutine; whether there is a socket file, and the errors
    logged when it was to be removed. *)
Record listener := mkListener {
  listening : bool;
  acceptor : acceptor_state;
  socket_file : bool;
  remove_errors : list error
}.

(** A server, its goroutine ([thread_done]: it has returned) and the connections
    it was handed so far; [handlers] are the indexes in [conns] of those the server
    still serves. *)
Record runRecServer := mkServer {
  sid : serverId;
  running : bool;
  runRecChan : chan;
  listener_of : listener;
  dropped : nat;
  handlers : list nat;
  conns : list connHandler;
  thread_done : bool
}.

(** ** Handlers *)

Definition launchConnHandler : connHandler := mkHandler true new_chan 0 [] true.

Definition handler_Push (runRec : bytes) (self : connHandler) : outcome connHandler :=
  if negb (handler_running self) then Ret self
  else
    '(c, accepted) ← try_send (handler_chan self) runRec;
    Ret (mkHandler (handler_running self) c
           (if accepted : bool then handler_dropped self else S (handler_dropped self))
           (conn_sent self) (conn_open self)).

Definition handler_Stop (self : connHandler) : outcome connHandler :=
  if negb (handler_running self) then Ret self
  else
    c ← close (handler_chan self);
    Ret (mkHandler (handler_running self) c (handler_dropped self) (conn_sent self)
           (conn_open self)).

(** One turn of the handler's goroutine; [write_ok] says whether the write to the
    connection succeeds.  A goroutine that has returned, or that waits on an empty
    channel, does nothing. *)
Definition handler_thread (write_ok : bool) (self : connHandler) : connHandler :=
  if negb (handler_running self) then self
  else
    match buffer (handler_chan self) with
    | rec :: rest =>
       let c := mkChan rest (chan_closed (handler_chan self)) in
       if write_ok then
         mkHandler true c (handler_dropped self) (conn_sent self ++ [rec]) (conn_open self)
       else mkHandler false c (handler_dropped self) (conn_sent self) false
    | [] =>
       if chan_closed (handler_chan self)
       then mkHandler false (handler_chan self) (handler_dropped self) (conn_sent self) false
       else self
    end.

(** ** Servers *)

(** [net.Listen] makes a file for a Unix socket whose name is not abstract. *)
Definition has_file (sid : serverId) : bool :=
  bool_decide (Proto sid ∈ ["unix" : bytes; "unixpacket" : bytes]) &&
  match Address sid with "@"%char :: _ => false | _ => true end.

Definition new_listener (sid : serverId) : listener := mkListener true Accepting (has_file sid) [].

(** One turn of the goroutine of [acceptConns]; [accepted] says whether [Accept] returns a
    connection, which it cannot once the listener is closed.  While it holds a
    connection it waits for the server to take it. *)
Definition acceptConns (accepted : bool) (self : listener) : listener :=
  match acceptor self with
  | Accepting =>
     mkListener (listening self) (if listening self && accepted then Holding else AcceptEnded)
       (socket_file self) (remove_errors self)
  | _ => self
  end.

(** [listener.Close]: the socket file goes with the listener. *)
Definition listener_Close (self : listener) : listener :=
  mkListener false (acceptor self) false (remove_errors self).

(** [os.Remove], whose error is logged *)
Definition remove_socket (self : listener) : listener :=
  mkListener (listening self) (acceptor self) false
    (if socket_file self then remove_errors self else remove_errors self ++ [OsError ENOENT]).

(** The server takes the connection: the goroutine accepts the next one. *)
Definition conn_taken (self : listener) : listener :=
  mkListener (listening self) Accepting (socket_file self) (remove_errors self).

Definition new_server (sid : serverId) : runRecServer :=
  mkServer sid true new_chan (new_listener sid) 0 [] [] false.

(** [Listen] says whether [net.Listen] succeeds. *)
Definition launchRunRecServer (Listen : serverId → outcome unit) (sid : serverId)
    : outcome runRecServer :=
  Listen sid ;; Ret (new_server sid).

Definition set_conns (self : runRecServer) (cs : list connHandler) : runRecServer :=
  mkServer (sid self) (running self) (runRecChan self) (listener_of self) (dropped self)
    (handlers self) cs (thread_done self).

(** Apply [f] to the connections the server serves. *)
Fixpoint for_handlers (f : connHandler → outcome connHandler) (hs : list nat)
    (cs : list connHandler) : outcome (list connHandler) :=
  match hs with
  | [] => Ret cs
  | i :: hs => h ← at_index cs i; h' ← f h; for_handlers f hs (<[i := h']> cs)
  end.

Definition handler_alive (cs : list connHandler) (i : nat) : bool :=
  match cs !! i with Some h => handler_running h | None => false end.

(** The start of a round: dead handlers are reaped. *)
Definition reap (self : runRecServer) : runRecServer :=
  mkServer (sid self) (running self) (runRecChan self) (listener_of self) (dropped self)
    (base.filter (λ i, handler_alive (conns self) i = true) (handlers self))
    (conns self) (thread_done self).

(** The deferred function: stop every handler, and forget them. *)
Definition thread_exit (self : runRecServer) : outcome runRecServer :=
  cs ← for_handlers handler_Stop (handlers self) (conns self);
  Ret (mkServer (sid self) false (runRecChan self) (listener_of self) (dropped self) [] cs true).

(** Which of the cases of its [select] the server's goroutine takes. *)
Inductive server_event := NewConn | ListenerDied | TakeRecord.

(** One round of the server's goroutine. *)
Definition server_thread (ev : server_event) (self0 : runRecServer) : outcome runRecServer :=
  if thread_done self0 then Ret self0
  else
    let self := reap self0 in
    match ev with
    | NewConn =>
       match acceptor (listener_of self) with
       | Holding =>
         Ret (mkServer (sid self) (running self) (runRecChan self) (conn_taken (listener_of self))
                (dropped self) (handlers self ++ [length (conns self)])
                (conns self ++ [launchConnHandler]) false)
       | _ => Ret self
       end
    | ListenerDied =>
       match acceptor (listener_of self) with
       | AcceptEnded => thread_exit self
       | _ => Ret self
       end
    | TakeRecord =>
       match buffer (runRecChan self) with
       | rec :: rest =>
          cs ← for_handlers (handler_Push rec) (handlers self) (conns self);
          Ret (mkServer (sid self) (running self)
                 (mkChan rest (chan_closed (runRecChan self))) (listener_of self)
                 (dropped self) (handlers self) cs false)
       | [] => if chan_closed (runRecChan self) then thread_exit self else Ret self
       end
    end.

Definition server_Stop (self : runRecServer) : outcome runRecServer :=
  if negb (running self) then Ret self
  else
    c ← close (runRecChan self);
    let l := listener_Close (listener_of self) in
    let l := if bool_decide (Proto (sid self) = "unix") then remove_socket l else l in
    Ret (mkServer (sid self) false c l (dropped self) (handlers self) (conns self)
           (thread_done self)).

Definition server_Push (runRec : bytes) (self : runRecServer) : outcome runRecServer :=
  if negb (running self) then Ret self
  else
    '(c, accepted) ← try_send (runRecChan self) runRec;
    Ret (mkServer (sid self) (running self) c (listener_of self)
           (if accepted : bool then dropped self else S (dropped self)) (handlers self)
           (conns self) (thread_done self)).

(** ** The registry *)

(** [stopped] are the servers that were removed: their goroutines still run. *)
Record runRecServerRegistry := mkRegistry {
  servers : gmap serverId runRecServer;
  stopped : list runRecServer
}.

(** [sidMap] of the source: the requested addresses. *)
Definition requested (protos addresses : list bytes) : gset serverId :=
  list_to_set (zip_with mkServerId protos addresses).

(** The loop over [serversToMake]; an error is logged and the address skipped. *)
Fixpoint make_servers (Listen : serverId → outcome unit) (serversToMake : list serverId)
    (m : gmap serverId runRecServer) : gmap serverId runRecServer :=
  match serversToMake with
  | [] => m
  | sid :: rest =>
     match launchRunRecServer Listen sid with
     | Ret server => make_servers Listen rest (<[sid := server]> m)
     | _ => make_servers Listen rest m
     end
  end.

(** The loop over [serversToDelete]. *)
Fixpoint delete_servers (serversToDelete : list serverId) (self : runRecServerRegistry)
    : outcome runRecServerRegistry :=
  match serversToDelete with
  | [] => Ret self
  | sid :: rest =>
     match servers self !! sid with
     | None => Panic nil_dereference
     | Some server =>
        server' ← server_Stop server;
        delete_servers rest (mkRegistry (delete sid (servers self)) (stopped self ++ [server']))
     end
  end.

Definition SetServers (Listen : serverId → outcome unit) (protos addresses : list bytes)
    (self : runRecServerRegistry) : outcome runRecServerRegistry :=
  if bool_decide (length protos ≠ length addresses) then
    Panic "len(protos) != len(addresses)"
  else
    let sidMap := requested protos addresses in
    let serversToMake := base.filter (λ sid, servers self !! sid = None) (elements sidMap) in
    let serversToDelete :=
      base.filter (λ sid, sid ∉ sidMap) (map_to_list (servers self)).*1 in
    delete_servers serversToDelete
      (mkRegistry (make_servers Listen serversToMake (servers self)) (stopped self)).

Definition registry_Push (proto address : bytes) (runRec : bytes)
    (self : runRecServerRegistry) : outcome runRecServerRegistry :=
  let sid := mkServerId proto address in
  match servers self !! sid with
  | None => Ret self
  | Some server =>
     if negb (running server) then Ret self
     else
       server' ← server_Push runRec server;
       Ret (mkRegistry (<[sid := server']> (servers self)) (stopped self))
  end.

(** ** Traces of a server *)

Inductive event :=
| Pushed (rec : bytes)
| Stopped
| AcceptTurn (accepted : bool)
| ServerTurn (ev : server_event)
| ConnTurn (i : nat) (write_ok : bool).

Definition step (ev : event) (self : runRecServer) : outcome runRecServer :=
  match ev with
  | Pushed rec => server_Push rec self
  | Stopped => server_Stop self
  | AcceptTurn accepted =>
     Ret (mkServer (sid self) (running self) (runRecChan self) (acceptConns accepted (listener_of self))
            (dropped self) (handlers self) (conns self) (thread_done self))
  | ServerTurn e => server_thread e self
  | ConnTurn i ok =>
     match conns self !! i with
     | Some h => Ret (set_conns self (<[i := handler_thread ok h]> (conns self)))
     | None => Ret self
     end
  end.

Fixpoint run (trace : list event) (self : runRecServer) : outcome runRecServer :=
  match trace with
  | [] => Ret self
  | ev :: trace => self' ← step ev self; run trace self'
  end.

(** The records pushed along a trace. *)
Fixpoint pushes (trace : list event) : list bytes :=
  match trace with
  | [] => []
  | Pushed rec :: trace => rec :: pushes trace
  | _ :: trace => pushes trace
  end.

(** ** The invariant *)

(** A connection that has been handed the records [taken], or some of them. *)
Definition handler_ok (taken : list bytes) (h : connHandler) : Prop :=
  (length (buffer (handler_chan h)) ≤ chan_cap)%nat ∧
  conn_sent h ++ buffer (handler_chan h) `sublist_of` taken.

Definition served (cs : list connHandler) (i : nat) : Prop :=
  ∃ h, cs !! i = Some h ∧ chan_closed (handler_chan h) = false.

Definition server_ok (pushed : list bytes) (self : runRecServer) : Prop :=
  ∃ taken,
    taken ++ buffer (runRecChan self) `sublist_of` pushed ∧
    (length (buffer (runRecChan self)) ≤ chan_cap)%nat ∧
    (running self = true → chan_closed (runRecChan self) = false) ∧
    NoDup (handlers self) ∧
    Forall (served (conns self)) (handlers self) ∧
    Forall (handler_ok taken) (conns self).

Lemma try_send_spec c rec :
  chan_closed c = false →
  ∃ c' b, try_send c rec = Ret (c', b) ∧ chan_closed c' = false ∧
    ((length (buffer c) ≤ chan_cap)%nat → (length (buffer c') ≤ chan_cap)%nat) ∧
    buffer c' `sublist_of` buffer c ++ [rec].
Proof.
  intros Hc. unfold try_send. rewrite Hc. case_bool_decide.
  - eexists _, _. split; [done|]. split; [done|]. split; simpl; [|done].
    intros _. rewrite length_app. simpl. lia.
  - exists c, false. split; [done|]. split; [done|]. split; [done|].
    by apply sublist_inserts_r.
Qed.

Lemma handler_ok_more taken taken' h :
  taken `sublist_of` taken' → handler_ok taken h → handler_ok taken' h.
Proof. intros Hs [Hb Hl]. split; [done|]. by etrans. Qed.

Lemma handler_Push_spec taken rec h :
  chan_closed (handler_chan h) = false → handler_ok taken h →
  ∃ h', handler_Push rec h = Ret h' ∧ handler_ok (taken ++ [rec]) h' ∧
        chan_closed (handler_chan h') = false.
Proof.
  intros Hc [Hb Hl]. unfold handler_Push. destruct (handler_running h); simpl.
  - destruct (try_send_spec (handler_chan h) rec Hc) as (c & b & -> & Hc' & Hb' & Hs).
    simpl. eexists. split; [done|]. split; [|done]. split; simpl; [by apply Hb'|].
    etrans; [apply sublist_app; [reflexivity|exact Hs]|].
    rewrite app_assoc. by apply sublist_app.
  - exists h. split; [done|]. split; [|done]. split; [done|].
    etrans; [done|]. by apply sublist_inserts_r.
Qed.

Lemma handler_Stop_spec taken h :
  chan_closed (handler_chan h) = false → handler_ok taken h →
  ∃ h', handler_Stop h = Ret h' ∧ handler_ok taken h'.
Proof.
  intros Hc Hok. unfold handler_Stop, close. rewrite Hc. destruct (handler_running h); simpl.
  - eexists. split; [done|]. exact Hok.
  - by exists h.
Qed.

Lemma handler_thread_spec taken ok h :
  handler_ok taken h →
  handler_ok taken (handler_thread ok h) ∧
  chan_closed (handler_chan (handler_thread ok h)) = chan_closed (handler_chan h).
Proof.
  intros [Hb Hl]. unfold handler_thread. destruct (handler_running h) eqn:Hr; simpl; [|done].
  destruct (buffer (handler_chan h)) as [|rec rest] eqn:E; simpl in *.
  - destruct (chan_closed (handler_chan h)) eqn:Hc; simpl.
    + split; [|done]. split; simpl; rewrite E; [simpl; lia|done].
    + split; [|done]. split; rewrite E; [simpl; lia|done].
  - destruct ok; simpl; (split; [|done]); (split; simpl; [lia|]).
    + by rewrite <- app_assoc.
    + etrans; [|exact Hl]. apply sublist_app; [done|]. by constructor.
Qed.

(** A loop over the served connections, which satisfy [P] before their turn and
    [Q] after it; [R] relates each to what its turn makes of it. *)
Lemma for_handlers_spec (f : connHandler → outcome connHandler) (P Q : connHandler → Prop)
    (R : connHandler → connHandler → Prop) hs cs :
  (∀ h, P h → ∃ h', f h = Ret h' ∧ Q h' ∧ R h h') →
  NoDup hs →
  (∀ i, i ∈ hs → ∃ h, cs !! i = Some h ∧ P h) →
  (∀ i h, cs !! i = Some h → i ∉ hs → Q h) →
  ∃ cs', for_handlers f hs cs = Ret cs' ∧ Forall Q cs' ∧
    ∀ i, i ∈ hs → ∃ h h', cs !! i = Some h ∧ cs' !! i = Some h' ∧ R h h'.
Proof.
  intros Hf.
  assert (∀ cs1 done', NoDup hs → (∀ i, i ∈ hs → ∃ h, cs1 !! i = Some h ∧ P h) →
    (∀ i h, cs1 !! i = Some h → i ∉ hs → Q h) →
    (∀ i, i ∈ hs → cs1 !! i = cs !! i) →
    (∀ i, i ∈ done' → i ∉ hs ∧ ∃ h h', cs !! i = Some h ∧ cs1 !! i = Some h' ∧ R h h') →
    ∃ cs', for_handlers f hs cs1 = Ret cs' ∧ Forall Q cs' ∧
      ∀ i, i ∈ done' ++ hs → ∃ h h', cs !! i = Some h ∧ cs' !! i = Some h' ∧ R h h') as H.
  { induction hs as [|i hs IH]; intros cs1 done' Hnd HP HQ Hcs HR; simpl.
    { exists cs1. split; [done|]. split.
      - apply Forall_lookup_2. intros i h Hi. eapply HQ; [done|]. apply not_elem_of_nil.
      - rewrite app_nil_r. intros i Hi. by apply HR. }
    apply NoDup_cons in Hnd as [Hni Hnd].
    destruct (HP i) as (h & Hh & HPh); [constructor|].
    destruct (Hf h HPh) as (h' & Hfh & HQh & HRh).
    unfold at_index. rewrite Hh. simpl. rewrite Hfh. simpl.
    destruct (IH (<[i := h']> cs1) (done' ++ [i])) as (cs' & E & HF & HR').
    - done.
    - intros j Hj. rewrite list_lookup_insert_ne by (intros ->; done).
      apply HP. by constructor.
    - intros j hj Hj Hnj. destruct (decide (i = j)) as [->|Hij].
      + rewrite list_lookup_insert_eq in Hj by (by eapply lookup_lt_Some). by simplify_eq.
      + rewrite list_lookup_insert_ne in Hj by done. apply (HQ j); [done|].
        rewrite elem_of_cons. naive_solver.
    - intros j Hj. rewrite list_lookup_insert_ne by (intros ->; done).
      apply Hcs. by constructor.
    - intros j [Hj| ->%list_elem_of_singleton]%elem_of_app.
      + destruct (HR j Hj) as [Hnj Hex]. rewrite elem_of_cons in Hnj.
        split; [naive_solver|]. rewrite list_lookup_insert_ne by naive_solver. done.
      + split; [done|]. exists h, h'. split; [by rewrite <- Hcs by constructor|]. split; [|done].
        apply list_lookup_insert_eq. by eapply lookup_lt_Some.
    - exists cs'. rewrite <- app_assoc in HR'. done. }
  intros Hnd HP HQ. destruct (H cs []) as (cs' & ?); [done..| |by exists cs'].
  intros i Hi. by apply not_elem_of_nil in Hi.
Qed.

Lemma at_server hs cs taken :
  Forall (served cs) hs → Forall (handler_ok taken) cs →
  (∀ i, i ∈ hs → ∃ h, cs !! i = Some h ∧
                 (chan_closed (handler_chan h) = false ∧ handler_ok taken h)).
Proof.
  intros Hs Hok i Hi. rewrite Forall_forall in Hs. destruct (Hs i Hi) as (h & Hh & Hc).
  exists h. split; [done|]. split; [done|]. by eapply Forall_lookup_1.
Qed.

Lemma handlers_push taken rec hs cs :
  NoDup hs → Forall (served cs) hs → Forall (handler_ok taken) cs →
  ∃ cs', for_handlers (handler_Push rec) hs cs = Ret cs' ∧
         Forall (handler_ok (taken ++ [rec])) cs' ∧ Forall (served cs') hs ∧
         ∀ i, i ∈ hs → ∃ h h', cs !! i = Some h ∧ cs' !! i = Some h' ∧
                               handler_Push rec h = Ret h'.
Proof.
  intros Hnd Hs Hok.
  destruct (for_handlers_spec (handler_Push rec)
              (λ h, chan_closed (handler_chan h) = false ∧ handler_ok taken h)
              (handler_ok (taken ++ [rec]))
              (λ h h', chan_closed (handler_chan h') = false ∧ handler_Push rec h = Ret h')
              hs cs) as (cs' & E & HF & HR).
  - intros h [Hc Hh]. destruct (handler_Push_spec taken rec h Hc Hh) as (h' & ? & ? & ?).
    by exists h'.
  - done.
  - by apply at_server.
  - intros i h Hi _. apply (handler_ok_more taken); [by apply sublist_inserts_r|].
    by eapply Forall_lookup_1.
  - exists cs'. split; [done|]. split; [done|]. split.
    + apply Forall_forall. intros i Hi. destruct (HR i Hi) as (h & h' & _ & Hh' & Hc & _).
      by exists h'.
    + intros i Hi. destruct (HR i Hi) as (h & h' & Hh & Hh' & _ & E').
      by exists h, h'.
Qed.

Lemma handlers_stop taken hs cs :
  NoDup hs → Forall (served cs) hs → Forall (handler_ok taken) cs →
  ∃ cs', for_handlers handler_Stop hs cs = Ret cs' ∧ Forall (handler_ok taken) cs'.
Proof.
  intros Hnd Hs Hok.
  destruct (for_handlers_spec handler_Stop
              (λ h, chan_closed (handler_chan h) = false ∧ handler_ok taken h)
              (handler_ok taken) (λ _ _, True) hs cs) as (cs' & E & HF & _).
  - intros h [Hc Hh]. destruct (handler_Stop_spec taken h Hc Hh) as (h' & ? & ?). eauto.
  - done.
  - by apply at_server.
  - intros i h Hi _. by eapply Forall_lookup_1.
  - by exists cs'.
Qed.

Lemma reap_ok pushed self : server_ok pushed self → server_ok pushed (reap self).
Proof.
  intros (taken & Hs & Hb & Hc & Hnd & Hsv & Hh). exists taken. unfold reap. simpl.
  split_and!; [done..| | |done].
  - by apply NoDup_filter.
  - rewrite Forall_forall in Hsv |- *. intros i [_ Hi]%list_elem_of_filter. by apply Hsv.
Qed.

Lemma thread_exit_ok pushed self :
  server_ok pushed self → ∃ self', thread_exit self = Ret self' ∧ server_ok pushed self'.
Proof.
  intros (taken & Hs & Hb & Hc & Hnd & Hsv & Hh). unfold thread_exit.
  destruct (handlers_stop taken _ _ Hnd Hsv Hh) as (cs & -> & Hh'). simpl.
  eexists. split; [done|]. exists taken. simpl. split_and!; [done..|constructor|constructor|done].
Qed.

Lemma server_thread_ok pushed ev self :
  server_ok pushed self → ∃ self', server_thread ev self = Ret self' ∧ server_ok pushed self'.
Proof.
  intros Hok. unfold server_thread. destruct (thread_done self); [by exists self|].
  apply reap_ok in Hok. revert Hok. generalize (reap self) as s. intros s Hok.
  destruct ev.
  - destruct (acceptor (listener_of s)); [by exists s| |by exists s]. eexists. split; [done|].
    destruct Hok as (taken & Hs & Hb & Hc & Hnd & Hsv & Hh). exists taken. simpl.
    assert (length (conns s) ∉ handlers s).
    { intros Hi. rewrite Forall_forall in Hsv. destruct (Hsv _ Hi) as (h & Hl & _).
      apply lookup_lt_Some in Hl. lia. }
    split_and!; [done..| | |].
    + apply NoDup_app. split; [done|]. split; [|apply NoDup_singleton].
      intros i Hi ->%list_elem_of_singleton. done.
    + apply Forall_app. split.
      * eapply Forall_impl; [exact Hsv|]. intros i (h & Hl & ?). exists h. split; [|done].
        by apply lookup_app_l_Some.
      * constructor; [|constructor]. exists launchConnHandler. split; [|done].
        by apply list_lookup_middle.
    + apply Forall_app. split; [done|]. constructor; [|constructor].
      split; simpl; [lia|apply sublist_nil_l].
  - destruct (acceptor (listener_of s)); [by exists s..|]. by apply thread_exit_ok.
  - destruct (buffer (runRecChan s)) as [|rec rest] eqn:E.
    { destruct (chan_closed (runRecChan s)); [by apply thread_exit_ok|by exists s]. }
    destruct Hok as (taken & Hs & Hb & Hc & Hnd & Hsv & Hh). rewrite E in Hs, Hb. simpl in Hb.
    destruct (handlers_push taken rec _ _ Hnd Hsv Hh) as (cs & -> & Hh' & Hsv' & _).
    simpl. eexists. split; [done|]. exists (taken ++ [rec]). simpl.
    split_and!; [by rewrite <- app_assoc|lia|done..].
Qed.

Lemma step_ok pushed ev self :
  server_ok pushed self →
  ∃ self', step ev self = Ret self' ∧ server_ok (pushed ++ pushes [ev]) self'.
Proof.
  intros Hok. destruct ev as [rec| |accepted|e|i ok]; simpl; rewrite ?app_nil_r.
  - unfold server_Push. destruct (running self) eqn:Hr; simpl.
    + destruct Hok as (taken & Hs & Hb & Hc & Hnd & Hsv & Hh).
      destruct (try_send_spec (runRecChan self) rec) as (c & b & -> & Hc' & Hb' & Hsub); [auto|].
      simpl. eexists. split; [done|]. exists taken. simpl. split_and!; [|auto..].
      etrans; [apply sublist_app; [reflexivity|exact Hsub]|].
      rewrite app_assoc. by apply sublist_app.
    + exists self. split; [done|]. destruct Hok as (taken & Hs & ?). exists taken.
      split; [by apply sublist_inserts_r|done].
  - unfold server_Stop, close. destruct (running self) eqn:Hr; simpl; [|by exists self].
    destruct Hok as (taken & Hs & Hb & Hc & Hnd & Hsv & Hh). rewrite Hc by done. simpl.
    eexists. split; [done|]. exists taken. simpl. by split_and!.
  - by eexists.
  - by apply server_thread_ok.
  - destruct (conns self !! i) as [h|] eqn:Hi; [|by exists self].
    eexists. split; [done|]. destruct Hok as (taken & Hs & Hb & Hc & Hnd & Hsv & Hh).
    assert (handler_ok taken h) as Hokh by by eapply Forall_lookup_1.
    destruct (handler_thread_spec taken ok h Hokh) as [Hok' Hcl].
    exists taken. simpl. split_and!; [done..| |].
    + eapply Forall_impl; [exact Hsv|]. intros j (hj & Hj & Hcj).
      destruct (decide (i = j)) as [->|].
      * exists (handler_thread ok h). simplify_eq. rewrite Hcl. split; [|done].
        apply list_lookup_insert_eq. by eapply lookup_lt_Some.
      * exists hj. by rewrite list_lookup_insert_ne.
    + by apply Forall_insert.
Qed.

Lemma run_ok pushed trace self :
  server_ok pushed self →
  ∃ self', run trace self = Ret self' ∧ server_ok (pushed ++ pushes trace) self'.
Proof.
  revert pushed self. induction trace as [|ev trace IH]; intros pushed self Hok; simpl.
  { exists self. by rewrite app_nil_r. }
  destruct (step_ok pushed ev self Hok) as (s1 & -> & Hok1). simpl.
  destruct (IH _ _ Hok1) as (s2 & -> & Hok2). exists s2. split; [done|].
  rewrite <- app_assoc in Hok2. by destruct ev.
Qed.

Lemma new_server_ok sid : server_ok [] (new_server sid).
Proof. exists []. simpl. split_and!; [done|lia|done|constructor..]. Qed.

(** ** What the server promises *)

Lemma push_running rec h :
  handler_running h = true → chan_closed (handler_chan h) = false →
  (length (buffer (handler_chan h)) < chan_cap)%nat →
  handler_Push rec h =
  Ret (mkHandler true (mkChan (buffer (handler_chan h) ++ [rec]) false) (handler_dropped h)
         (conn_sent h) (conn_open h)).
Proof.
  intros Hr Hc Hb. unfold handler_Push, try_send. rewrite Hr, Hc. simpl.
  by rewrite bool_decide_true.
Qed.

(** Turns of one connection's goroutine, with writes that succeed. *)
Lemma drain_handler n h self i :
  conns self !! i = Some h → handler_running h = true →
  length (buffer (handler_chan h)) = n →
  ∃ self' h', run (replicate n (ConnTurn i true)) self = Ret self' ∧
    conns self' !! i = Some h' ∧
    conn_sent h' = conn_sent h ++ buffer (handler_chan h).
Proof.
  revert h self. induction n as [|n IH]; intros h self Hi Hr Hn; simpl.
  { apply nil_length_inv in Hn. exists self, h. by rewrite Hn, app_nil_r. }
  rewrite Hi. simpl. destruct (buffer (handler_chan h)) as [|rec rest] eqn:E; [done|].
  simpl in Hn.
  destruct (IH (handler_thread true h)
              (set_conns self (<[i := handler_thread true h]> (conns self))))
    as (self' & h' & Hrun & Hi' & Hs').
  - simpl. apply list_lookup_insert_eq. by eapply lookup_lt_Some.
  - unfold handler_thread. by rewrite Hr, E.
  - unfold handler_thread. rewrite Hr, E. simpl. lia.
  - exists self', h'. split; [done|]. split; [done|]. rewrite Hs'.
    unfold handler_thread. rewrite Hr, E. simpl. by rewrite <- app_assoc.
Qed.

(** C20: Along every interleaving of a server with its connections and of the
    calls from outside, nothing panics: no record is sent on a closed channel and
    no channel is closed twice.  What a connection has been sent, followed by what
    waits for it, is a subsequence of the records pushed, in their order and each
    at most once, and no buffer outgrows the capacity of its channel. *)
Theorem server_traces_safe sid trace :
  ∃ self, run trace (new_server sid) = Ret self ∧
    (length (buffer (runRecChan self)) ≤ chan_cap)%nat ∧
    ∀ i h, conns self !! i = Some h →
      (length (buffer (handler_chan h)) ≤ chan_cap)%nat ∧
      conn_sent h ++ buffer (handler_chan h) `sublist_of` pushes trace.
Proof.
  destruct (run_ok [] trace (new_server sid) (new_server_ok sid)) as (self & E & Hok).
  exists self. split; [done|]. destruct Hok as (taken & Hs & Hb & _ & _ & _ & Hh).
  split; [done|]. intros i h Hi.
  assert (handler_ok taken h) as [Hbh Hsub] by by eapply Forall_lookup_1.
  split; [done|]. etrans; [exact Hsub|]. etrans; [|exact Hs]. by apply sublist_inserts_r.
Qed.

(** C37: A record pushed to a running server reaches every served connection with
    room in its channel, after the records that already wait there: the server
    takes the record, and as many turns of the connection's goroutine as there are
    records send them all. *)
Theorem record_delivered pushed self i h rec :
  server_ok pushed self → running self = true → thread_done self = false →
  buffer (runRecChan self) = [] → i ∈ handlers self → conns self !! i = Some h →
  handler_running h = true → (length (buffer (handler_chan h)) < chan_cap)%nat →
  ∃ self' h',
    run ([Pushed rec; ServerTurn TakeRecord] ++
         replicate (S (length (buffer (handler_chan h)))) (ConnTurn i true)) self = Ret self' ∧
    conns self' !! i = Some h' ∧
    conn_sent h' = conn_sent h ++ buffer (handler_chan h) ++ [rec].
Proof.
  intros (taken & Hs & Hb & Hc & Hnd & Hsv & Hh) Hr Hd He Hi Hl Hrh Hroom.
  set (hs := base.filter (λ i, handler_alive (conns self) i = true) (handlers self)).
  destruct (handlers_push taken rec hs (conns self)) as (cs & E & _ & _ & HR);
    [by apply NoDup_filter| |done|].
  { rewrite Forall_forall in Hsv |- *. intros j [_ Hj]%list_elem_of_filter. by apply Hsv. }
  destruct (HR i) as (h0 & h1 & Hh0 & Hh1 & Hpush).
  { apply list_elem_of_filter. split; [|done]. unfold handler_alive. by rewrite Hl. }
  assert (chan_closed (handler_chan h) = false) as Hch.
  { rewrite Forall_forall in Hsv. destruct (Hsv i Hi) as (h2 & ? & ?). by simplify_eq. }
  simplify_eq. rewrite (push_running rec h) in Hpush by done. simplify_eq.
  cbn [app run]. change (step (Pushed rec) self) with (server_Push rec self).
  unfold server_Push, try_send. rewrite Hr, Hc, He by done.
  rewrite bool_decide_true by (simpl; unfold chan_cap; lia). cbn -[replicate run step].
  cbn [step]. unfold server_thread, reap. cbn -[replicate run filter for_handlers]. rewrite Hd.
  cbn -[replicate run filter for_handlers]. unfold hs in E. rewrite E. cbn -[replicate run].
  match goal with |- context [run _ ?s] =>
    destruct (drain_handler (S (length (buffer (handler_chan h))))
                (mkHandler true (mkChan (buffer (handler_chan h) ++ [rec]) false)
                   (handler_dropped h) (conn_sent h) (conn_open h)) s i)
      as (self' & h' & Hrun & Hi' & Hsent) end.
  - exact Hh1.
  - done.
  - simpl. rewrite length_app. simpl. lia.
  - exists self', h'. split; [exact Hrun|]. by split.
Qed.

Definition example_sid : serverId := mkServerId "unix" "/tmp/sock".

(** A server with one connection, one record waiting there. *)
Definition example_server : runRecServer :=
  mkServer example_sid true new_chan (new_listener example_sid) 0 [0%nat]
    [mkHandler true (mkChan ["one" : bytes] false) 0 [] true] false.

Lemma record_delivered_witness :
  ∃ self' h',
    run [Pushed "two"; ServerTurn TakeRecord; ConnTurn 0 true; ConnTurn 0 true]
      example_server = Ret self' ∧
    conns self' !! 0%nat = Some h' ∧ conn_sent h' = ["one" : bytes; "two" : bytes].
Proof.
  apply (record_delivered ["one" : bytes] example_server 0
           (mkHandler true (mkChan ["one" : bytes] false) 0 [] true) "two").
  - exists ["one" : bytes]. simpl. split_and!; [done|lia|done| | |].
    + apply NoDup_singleton.
    + constructor; [|constructor]. by eexists.
    + constructor; [|constructor]. split; simpl; [unfold chan_cap; lia|done].
  - done.
  - done.
  - done.
  - constructor.
  - done.
  - done.
  - simpl. unfold chan_cap. lia.
Defined.

(** ** A server that is stopped *)

(** Every connection that is still served by its goroutine is one that the server
    hands records to, or its channel is closed; and it is open. *)
Definition attended (self : runRecServer) : Prop :=
  (thread_done self = true → handlers self = []) ∧
  ∀ i h, conns self !! i = Some h →
    conn_open h = handler_running h ∧
    (handler_running h = true → i ∈ handlers self ∨ chan_closed (handler_chan h) = true).

Lemma for_handlers_frame f hs cs cs' i :
  for_handlers f hs cs = Ret cs' → i ∉ hs → cs' !! i = cs !! i.
Proof.
  revert cs. induction hs as [|j hs IH]; intros cs; cbn [for_handlers]; [by intros [= ->]|].
  unfold at_index. destruct (cs !! j); [|done]. cbn. destruct (f c) as [h'| | |]; [|done..]. cbn.
  intros E Hi. rewrite not_elem_of_cons in Hi. rewrite (IH _ E) by tauto.
  apply list_lookup_insert_ne. naive_solver.
Qed.

Lemma for_handlers_length f hs cs cs' : for_handlers f hs cs = Ret cs' → length cs' = length cs.
Proof.
  revert cs. induction hs as [|j hs IH]; intros cs; cbn [for_handlers]; [by intros [= ->]|].
  unfold at_index. destruct (cs !! j); [|done]. cbn. destruct (f c) as [h'| | |]; [|done..]. cbn.
  intros E. rewrite (IH _ E). apply length_insert.
Qed.

Lemma for_handlers_each f hs cs cs' i h :
  NoDup hs → for_handlers f hs cs = Ret cs' → i ∈ hs → cs !! i = Some h →
  ∃ h', f h = Ret h' ∧ cs' !! i = Some h'.
Proof.
  revert cs. induction hs as [|j hs IH]; intros cs Hnd; [by intros _ ?%not_elem_of_nil|].
  apply NoDup_cons in Hnd as [Hj Hnd]. cbn [for_handlers]. unfold at_index.
  destruct (cs !! j) as [hj|] eqn:Ej; [|done]. cbn. destruct (f hj) as [h'| | |] eqn:Ef; [|done..]. cbn.
  intros E [->|Hi]%elem_of_cons Hh.
  - simplify_eq. exists h'. split; [done|]. rewrite (for_handlers_frame _ _ _ _ _ E) by done.
    apply list_lookup_insert_eq. by eapply lookup_lt_Some.
  - apply (IH _ Hnd E); [done|]. rewrite list_lookup_insert_ne; [done|]. by intros ->.
Qed.

Lemma handler_Push_frame rec h h' :
  handler_Push rec h = Ret h' →
  handler_running h' = handler_running h ∧ conn_open h' = conn_open h.
Proof.
  unfold handler_Push. destruct (negb (handler_running h)); [by intros [= <-]|].
  destruct (try_send _ _) as [[c b]| | |]; [|done..]. by intros [= <-].
Qed.

Lemma handler_Stop_frame h h' :
  handler_Stop h = Ret h' →
  handler_running h' = handler_running h ∧ conn_open h' = conn_open h ∧
  (handler_running h = true → chan_closed (handler_chan h') = true).
Proof.
  unfold handler_Stop. destruct (handler_running h) eqn:Hr; cbn.
  - unfold close. destruct (chan_closed (handler_chan h)); [done|]. by intros [= <-].
  - intros [= <-]. by rewrite Hr.
Qed.

Lemma handler_thread_frame ok h :
  conn_open h = handler_running h →
  conn_open (handler_thread ok h) = handler_running (handler_thread ok h) ∧
  chan_closed (handler_chan (handler_thread ok h)) = chan_closed (handler_chan h) ∧
  (handler_running (handler_thread ok h) = true → handler_running h = true).
Proof.
  intros Ho. unfold handler_thread. destruct (handler_running h) eqn:Hr; cbn.
  2:{ rewrite Hr in *. by split_and!. }
  destruct (buffer (handler_chan h)); [|by destruct ok].
  destruct (chan_closed (handler_chan h)) eqn:Hc; cbn; rewrite Hc; [done|]. by rewrite Hr in *.
Qed.

Lemma attended_reap self : attended self → attended (reap self).
Proof.
  intros [Hd Ha]. split; [intros E; cbn; by rewrite Hd|].
  intros i h Hi. destruct (Ha i h Hi) as [Ho Hr]. split; [done|]. intros Hrun.
  destruct (Hr Hrun) as [Hin|]; [left|by right]. apply list_elem_of_filter. split; [|done].
  unfold handler_alive. change (conns (reap self)) with (conns self) in Hi. by rewrite Hi.
Qed.

Lemma attended_exit self self' :
  NoDup (handlers self) → attended self → thread_exit self = Ret self' → attended self'.
Proof.
  intros Hnd [_ Ha]. unfold thread_exit.
  destruct (for_handlers _ _ _) as [cs| | |] eqn:E; [|done..]. intros [= <-]. split; [done|].
  intros i h'. cbn. intros Hi'.
  destruct (lookup_lt_is_Some_2 (conns self) i) as [h Hi].
  { rewrite <- (for_handlers_length _ _ _ _ E). by eapply lookup_lt_Some. }
  destruct (Ha i h Hi) as [Ho Hr]. destruct (decide (i ∈ handlers self)) as [Hin|Hni].
  - destruct (for_handlers_each _ _ _ _ _ _ Hnd E Hin Hi) as (h0 & Hs & Hi0). simplify_eq.
    destruct (handler_Stop_frame _ _ Hs) as (Hr' & Ho' & Hc). rewrite Ho', Hr'. split; [done|]. auto.
  - rewrite (for_handlers_frame _ _ _ _ _ E Hni) in Hi'. simplify_eq. split; [done|].
    intros Hrun. destruct (Hr Hrun); [done|by right].
Qed.

Lemma attended_thread pushed ev self self' :
  server_ok pushed self → attended self → server_thread ev self = Ret self' → attended self'.
Proof.
  intros Hok Ha. unfold server_thread. destruct (thread_done self); [by intros [= <-]|].
  apply reap_ok in Hok. apply attended_reap in Ha. revert Hok Ha. generalize (reap self) as s.
  intros s (taken & _ & _ & _ & Hnd & _) Hatt. pose proof Hatt as [_ Ha]. destruct ev.
  - destruct (acceptor (listener_of s)); intros [= <-]; [done| |done]. split; [done|]. intros i h. cbn.
    intros [Hi|[Hlen Hi]]%lookup_app_Some.
    + destruct (Ha i h Hi) as [Ho Hr]. split; [done|]. intros Hrun. rewrite elem_of_app.
      destruct (Hr Hrun); auto.
    + apply list_lookup_singleton_Some in Hi as [Hi <-]. split; [done|]. intros _. left.
      apply elem_of_app. right. apply list_elem_of_singleton. lia.
  - destruct (acceptor (listener_of s)); [by intros [= <-]..|]. by apply attended_exit.
  - destruct (buffer (runRecChan s)) as [|rec rest].
    { destruct (chan_closed (runRecChan s)); [by apply attended_exit|by intros [= <-]]. }
    destruct (for_handlers _ _ _) as [cs| | |] eqn:E; [|done..]. intros [= <-]. split; [done|].
    intros i h'. cbn. intros Hi'. destruct (lookup_lt_is_Some_2 (conns s) i) as [h Hi].
    { rewrite <- (for_handlers_length _ _ _ _ E). by eapply lookup_lt_Some. }
    destruct (Ha i h Hi) as [Ho Hr]. destruct (decide (i ∈ handlers s)) as [Hin|Hni].
    + destruct (for_handlers_each _ _ _ _ _ _ Hnd E Hin Hi) as (h0 & Hs & Hi0). simplify_eq.
      destruct (handler_Push_frame _ _ _ Hs) as (Hr' & Ho'). rewrite Ho', Hr'. split; [done|]. auto.
    + rewrite (for_handlers_frame _ _ _ _ _ E Hni) in Hi'. simplify_eq. done.
Qed.

Lemma attended_step pushed ev self self' :
  server_ok pushed self → attended self → step ev self = Ret self' → attended self'.
Proof.
  intros Hok Ha. destruct ev as [rec| |accepted|e|i ok]; cbn [step].
  - unfold server_Push. destruct (negb _); [by intros [= <-]|].
    destruct (try_send _ _) as [[c b]| | |]; [|done..]. by intros [= <-].
  - unfold server_Stop. destruct (negb _); [by intros [= <-]|].
    destruct (close _); [|done..]. by intros [= <-].
  - by intros [= <-].
  - by apply (attended_thread pushed).
  - destruct (conns self !! i) as [h|] eqn:Hi; intros [= <-]; [|done].
    destruct Ha as [Hd Ha]. split; [done|]. intros j hj. cbn.
    destruct (decide (j = i)) as [->|Hne].
    + rewrite list_lookup_insert_eq by (by eapply lookup_lt_Some). intros [= <-].
      destruct (Ha i h Hi) as [Ho Hr]. destruct (handler_thread_frame ok h Ho) as (Ho' & Hc & Hr').
      split; [done|]. rewrite Hc. auto.
    + rewrite list_lookup_insert_ne by done. apply Ha.
Qed.

Lemma run_attended pushed trace self self' :
  server_ok pushed self → attended self → run trace self = Ret self' → attended self'.
Proof.
  revert pushed self. induction trace as [|ev trace IH]; intros pushed self Hok Ha; cbn [run].
  { by intros [= <-]. }
  destruct (step_ok pushed ev self Hok) as (s1 & E & Hok1). rewrite E. cbn.
  apply (IH _ _ Hok1). exact (attended_step _ _ _ _ Hok Ha E).
Qed.

Lemma new_server_attended sid : attended (new_server sid).
Proof. by split. Qed.

Lemma run_app t1 t2 self : run (t1 ++ t2) self = s ← run t1 self; run t2 s.
Proof.
  revert self. induction t1 as [|ev t1 IH]; intros self; cbn [app run]; [done|].
  destruct (step ev self); [apply IH|done..].
Qed.

Lemma done_stays n self :
  thread_done self = true → run (replicate n (ServerTurn TakeRecord)) self = Ret self.
Proof.
  intros Hd. induction n as [|n IH]; [done|]. cbn [replicate run step]. unfold server_thread.
  by rewrite Hd.
Qed.

(** The server's goroutine ends once it has taken what waits in the closed channel. *)
Lemma server_ends n pushed self :
  server_ok pushed self → chan_closed (runRecChan self) = true →
  length (buffer (runRecChan self)) = n →
  ∃ self', run (replicate (S n) (ServerTurn TakeRecord)) self = Ret self' ∧ thread_done self' = true.
Proof.
  revert pushed self. induction n as [|n IH]; intros pushed self Hok Hc Hn;
    destruct (step_ok pushed (ServerTurn TakeRecord) self Hok) as (s1 & E & Hok1);
    cbn [replicate run]; rewrite E; cbn [mbind outcome_bind];
    cbn [step] in E; unfold server_thread in E.
  - exists s1. split; [done|]. destruct (thread_done self) eqn:Hd; [by injection E as <-|].
    cbn [reap runRecChan] in E. apply nil_length_inv in Hn. rewrite Hn, Hc in E. unfold thread_exit in E.
    destruct (for_handlers _ _ _); [by injection E as <-|done..].
  - destruct (thread_done self) eqn:Hd.
    { injection E as <-. exists self. split; [exact (done_stays (S n) self Hd)|done]. }
    cbn [reap runRecChan] in E. destruct (buffer (runRecChan self)) as [|rec rest] eqn:Eb; [done|].
    destruct (for_handlers _ _ _); [|done..]. injection E as <-.
    destruct (IH _ _ Hok1) as (s2 & E2 & Hd2); [exact Hc|by injection Hn|]. by exists s2.
Qed.

(** A goroutine that has returned does nothing. *)
Lemma handler_gone n h : handler_running h = false → Nat.iter n (handler_thread true) h = h.
Proof.
  intros Hr. induction n as [|n IH]; [done|]. rewrite Nat.iter_succ, IH.
  unfold handler_thread. by rewrite Hr.
Qed.

(** The goroutine of a connection whose channel is closed ends. *)
Lemma handler_ends n h :
  chan_closed (handler_chan h) = true → (length (buffer (handler_chan h)) ≤ n)%nat →
  handler_running (Nat.iter (S n) (handler_thread true) h) = false.
Proof.
  revert h. induction n as [|n IH]; intros h Hc Hn; rewrite Nat.iter_succ_r;
    destruct (handler_running h) eqn:Hr.
  - cbn. unfold handler_thread. rewrite Hr. cbn. destruct (buffer _); [by rewrite Hc|simpl in Hn; lia].
  - rewrite handler_gone; unfold handler_thread; by rewrite Hr.
  - unfold handler_thread at 2. rewrite Hr. cbn [negb].
    destruct (buffer (handler_chan h)) as [|rec rest] eqn:Eb.
    + rewrite Hc. by rewrite handler_gone.
    + apply IH; [done|]. simpl in *. lia.
  - rewrite handler_gone; unfold handler_thread; by rewrite Hr.
Qed.

Lemma handler_open n h :
  conn_open h = handler_running h →
  conn_open (Nat.iter n (handler_thread true) h) = handler_running (Nat.iter n (handler_thread true) h).
Proof.
  intros Ho. induction n as [|n IH]; [done|]. rewrite Nat.iter_succ. by apply handler_thread_frame.
Qed.

Lemma handler_closed n h :
  conn_open h = handler_running h →
  (handler_running h = true → chan_closed (handler_chan h) = true) →
  (length (buffer (handler_chan h)) ≤ n)%nat →
  handler_running (Nat.iter (S n) (handler_thread true) h) = false ∧
  conn_open (Nat.iter (S n) (handler_thread true) h) = false.
Proof.
  intros Ho Hr Hn. rewrite (handler_open (S n) h Ho).
  assert (H : handler_running (Nat.iter (S n) (handler_thread true) h) = false); [|done].
  destruct (handler_running h) eqn:Hrun; [by apply handler_ends; [apply Hr|]|by rewrite handler_gone].
Qed.

Lemma take_turns_length n self self' :
  run (replicate n (ServerTurn TakeRecord)) self = Ret self' → length (conns self') = length (conns self).
Proof.
  revert self. induction n as [|n IH]; intros self; cbn [replicate run]; [by intros [= <-]|].
  destruct (step _ self) as [s1| | |] eqn:E; [|done..]. cbn. intros Hrun. rewrite (IH _ Hrun). clear IH Hrun.
  cbn [step] in E. unfold server_thread, thread_exit in E. cbn [reap runRecChan handlers conns] in E.
  destruct (thread_done self); [by simplify_eq|].
  destruct (buffer _); [destruct (chan_closed _); [|by simplify_eq]|];
    (destruct (for_handlers _ _ _) eqn:Ef; [|done..]; simplify_eq/=; by eapply for_handlers_length).
Qed.

Lemma run_conn_turns k i self h :
  conns self !! i = Some h →
  run (replicate k (ConnTurn i true)) self =
  Ret (set_conns self (<[i := Nat.iter k (handler_thread true) h]> (conns self))).
Proof.
  revert self h. induction k as [|k IH]; intros self h Hi; cbn [replicate run].
  - cbn. rewrite list_insert_id by done. by destruct self.
  - cbn [step]. rewrite Hi. cbn [mbind outcome_bind]. erewrite IH.
    2:{ cbn. apply list_lookup_insert_eq. by eapply lookup_lt_Some. }
    rewrite Nat.iter_succ_r. unfold set_conns. cbn. by rewrite list_insert_insert_eq.
Qed.

(** [k] turns of each of the first [n] connections *)
Definition conn_turns (k n : nat) : list event :=
  flat_map (λ i, replicate k (ConnTurn i true)) (seq 0 n).

Lemma run_all_turns k n self :
  (n ≤ length (conns self))%nat →
  ∃ cs, run (conn_turns k n) self = Ret (set_conns self cs) ∧
    ∀ i, cs !! i = if bool_decide (i < n)%nat then Nat.iter k (handler_thread true) <$> conns self !! i
                   else conns self !! i.
Proof.
  intros Hn. induction n as [|n IH].
  { exists (conns self). split; [by destruct self|]. intros i. by rewrite bool_decide_false by lia. }
  destruct IH as (cs & E & Hcs); [lia|]. unfold conn_turns. rewrite seq_S, flat_map_app, run_app.
  fold (conn_turns k n). rewrite E. cbn [mbind outcome_bind flat_map Nat.add]. rewrite app_nil_r.
  destruct (lookup_lt_is_Some_2 (conns self) n) as [h Hh]; [lia|].
  assert (Hn' : cs !! n = Some h) by (by rewrite Hcs, bool_decide_false by lia).
  rewrite (run_conn_turns k n _ h) by exact Hn'. eexists. split; [reflexivity|]. intros i. cbn.
  destruct (decide (i = n)) as [->|Hne].
  - rewrite list_lookup_insert_eq by (by eapply lookup_lt_Some). rewrite bool_decide_true by lia. by rewrite Hh.
  - rewrite list_lookup_insert_ne by done. rewrite Hcs. by rewrite (bool_decide_ext (i < S n)%nat (i < n)%nat) by lia.
Qed.

(** C38: A server that was stopped ends, with the goroutines of its connections: once the
    server has taken what waits in its channel, and each goroutine what waits in its
    own, all have returned and every connection it was handed is closed. *)
Theorem stopped_server_ends sid trace self :
  run trace (new_server sid) = Ret self → chan_closed (runRecChan self) = true →
  ∃ n self', run (replicate n (ServerTurn TakeRecord) ++
                  conn_turns (S chan_cap) (length (conns self))) self = Ret self' ∧
    thread_done self' = true ∧
    Forall (λ h, handler_running h = false ∧ conn_open h = false) (conns self').
Proof.
  intros E Hc. destruct (run_ok [] trace _ (new_server_ok sid)) as (s0 & E0 & Hok).
  rewrite E in E0. injection E0 as <-.
  pose proof (run_attended _ _ _ _ (new_server_ok sid) (new_server_attended sid) E) as Ha.
  destruct (server_ends _ _ self Hok Hc eq_refl) as (s1 & E1 & Hd).
  destruct (run_ok _ (replicate (S (length (buffer (runRecChan self)))) (ServerTurn TakeRecord)) self Hok) as (s1' & E1' & Hok1).
  rewrite E1 in E1'. injection E1' as <-. destruct (run_attended _ _ _ _ Hok Ha E1) as [Hnone Ha1].
  destruct (run_all_turns (S chan_cap) (length (conns self)) s1) as (cs & E2 & Hcs).
  { by rewrite (take_turns_length _ _ _ E1). }
  eexists _, _. rewrite run_app, E1. split; [exact E2|]. split; [exact Hd|].
  apply Forall_lookup_2. intros i h' Hi'. cbn in Hi'. rewrite Hcs in Hi'.
  rewrite <- (take_turns_length _ _ _ E1) in Hi'. case_bool_decide as Hlt.
  2:{ apply lookup_lt_Some in Hi'. lia. }
  apply fmap_Some in Hi' as (h & Hi & ->). destruct (Ha1 i h Hi) as [Ho Hr].
  destruct Hok1 as (taken & _ & _ & _ & _ & _ & Hh).
  destruct (Forall_lookup_1 _ _ _ _ Hh Hi) as [Hlen _].
  apply handler_closed; [done| |done]. intros Hrun.
  destruct (Hr Hrun) as [Hin|]; [|done]. rewrite Hnone in Hin by done. by apply not_elem_of_nil in Hin.
Qed.

(** A server that is stopped does not listen any more and its socket file is gone.  The
    listener has removed the file itself, so the attempt to remove it again fails, and
    every stop of a server on a Unix socket logs an error. *)
Theorem Stop_listener self self' :
  running self = true → server_Stop self = Ret self' →
  listening (listener_of self') = false ∧ socket_file (listener_of self') = false ∧
  remove_errors (listener_of self') =
  remove_errors (listener_of self) ++
  (if bool_decide (Proto (sid self) = "unix") then [OsError ENOENT] else []).
Proof.
  intros Hr. unfold server_Stop. rewrite Hr. cbn [negb].
  destruct (close _); [|done..]. cbn. intros [= <-]. cbn. case_bool_decide; by rewrite ?app_nil_r.
Qed.

(** A connection that the goroutine of [acceptConns] holds when the server's goroutine
    has returned is never taken: it stays open, and the goroutine stays where it is. *)
Theorem held_connection_leaks trace self self' :
  thread_done self = true → acceptor (listener_of self) = Holding → run trace self = Ret self' →
  thread_done self' = true ∧ acceptor (listener_of self') = Holding ∧ length (conns self') = length (conns self).
Proof.
  revert self. induction trace as [|ev trace IH]; intros self Hd Hh; cbn [run]; [by intros [= <-]|].
  destruct (step ev self) as [s1| | |] eqn:E; [|done..]. cbn. intros Hrun.
  assert (H : thread_done s1 = true ∧ acceptor (listener_of s1) = Holding ∧ length (conns s1) = length (conns self)).
  { destruct ev as [rec| |accepted|e|i ok]; cbn [step] in E.
    - unfold server_Push in E. destruct (negb _); [by simplify_eq|].
      destruct (try_send _ _) as [[c b]| | |]; by simplify_eq/=.
    - unfold server_Stop in E. destruct (negb _); [by simplify_eq|].
      destruct (close _); [|done..]. simplify_eq/=. by case_bool_decide.
    - simplify_eq/=. unfold acceptConns. by rewrite Hh.
    - unfold server_thread in E. rewrite Hd in E. by simplify_eq.
    - destruct (conns self !! i); simplify_eq/=; [|done]. by rewrite length_insert. }
  destruct H as (Hd1 & Hh1 & <-). by apply IH.
Qed.

(** A server that is stopped with a record in its channel and one connection *)
Definition stopping_trace : list event :=
  [AcceptTurn true; ServerTurn NewConn; Pushed "one"; Stopped].
Definition stopping_server : runRecServer :=
  mkServer example_sid false (mkChan ["one" : bytes] true)
    (mkListener false Accepting false [OsError ENOENT]) 0 [0%nat] [launchConnHandler] false.

Lemma stopped_server_ends_witness :
  run stopping_trace (new_server example_sid) = Ret stopping_server ∧
  ∃ n self', run (replicate n (ServerTurn TakeRecord) ++ conn_turns 11 1) stopping_server = Ret self' ∧
    thread_done self' = true ∧ Forall (λ h, conn_open h = false) (conns self').
Proof.
  assert (E : run stopping_trace (new_server example_sid) = Ret stopping_server) by (vm_compute; reflexivity).
  split; [exact E|].
  destruct (stopped_server_ends example_sid stopping_trace stopping_server E eq_refl)
    as (n & self' & Hrun & Hd & Hall).
  exists n, self'. split; [exact Hrun|]. split; [exact Hd|].
  exact (Forall_impl _ _ _ Hall (λ h Hh, proj2 Hh)).
Defined.

(** A server that is stopped between the two goroutines' turns *)
Definition leaking_trace : list event := [AcceptTurn true; Stopped; ServerTurn TakeRecord].
Definition leaking_server : runRecServer :=
  mkServer example_sid false (mkChan [] true)
    (mkListener false Holding false [OsError ENOENT]) 0 [] [] true.

Lemma held_connection_leaks_witness :
  run leaking_trace (new_server example_sid) = Ret leaking_server ∧
  ∀ trace self', run trace leaking_server = Ret self' → acceptor (listener_of self') = Holding.
Proof.
  split; [vm_compute; reflexivity|]. intros trace self' E.
  exact (proj1 (proj2 (held_connection_leaks trace leaking_server self' eq_refl eq_refl E))).
Defined.

(** ** The registry *)

Lemma elem_requested protos addresses sid :
  sid ∈ requested protos addresses ↔
  ∃ i p a, protos !! i = Some p ∧ addresses !! i = Some a ∧ sid = mkServerId p a.
Proof.
  unfold requested. rewrite elem_of_list_to_set, list_elem_of_lookup.
  split.
  - intros [i (p & a & ? & ? & ?)%lookup_zip_with_Some]. naive_solver.
  - intros (i & p & a & ? & ? & ->). exists i. apply lookup_zip_with_Some. eauto.
Qed.

Definition listens (Listen : serverId → outcome unit) (sid : serverId) : bool :=
  match Listen sid with Ret _ => true | _ => false end.

Lemma make_servers_lookup Listen l m sid :
  make_servers Listen l m !! sid =
  if bool_decide (sid ∈ l ∧ listens Listen sid = true) then Some (new_server sid) else m !! sid.
Proof.
  revert m. induction l as [|s l IH]; intros m; cbn [make_servers].
  { case_bool_decide as H; [|done]. destruct H as [H _]. by apply not_elem_of_nil in H. }
  unfold launchRunRecServer.
  assert (HL' : listens Listen s = match Listen s with Ret _ => true | _ => false end) by done.
  unfold mbind, outcome_bind.
  destruct (decide (sid = s)) as [->|Hne]; destruct (Listen s) as [[]|e|msg|] eqn:HL;
    rewrite IH; rewrite ?lookup_insert_eq, ?lookup_insert_ne by done; clear IH;
    repeat case_bool_decide; rewrite ?elem_of_cons in *;
    try match goal with HB : _ ∧ listens _ s = true |- _ => destruct HB; congruence end;
    naive_solver.
Qed.

(** [stoppable]: [server_Stop] does not panic. *)
Definition stoppable (self : runRecServer) : Prop :=
  running self = true → chan_closed (runRecChan self) = false.

Lemma server_Stop_spec self :
  stoppable self → ∃ self', server_Stop self = Ret self' ∧ running self' = false.
Proof.
  intros Hs. unfold server_Stop, close. destruct (running self) eqn:Hr; simpl; [|by exists self].
  rewrite Hs by done. simpl. by eexists.
Qed.

Lemma delete_servers_spec l self :
  NoDup l → (∀ sid, sid ∈ l → ∃ s, servers self !! sid = Some s ∧ stoppable s) →
  ∃ self' gone, delete_servers l self = Ret self' ∧
    (∀ sid, servers self' !! sid = if bool_decide (sid ∈ l) then None else servers self !! sid) ∧
    stopped self' = stopped self ++ gone ∧
    Forall2 (λ sid s', ∃ s, servers self !! sid = Some s ∧ server_Stop s = Ret s') l gone.
Proof.
  revert self. induction l as [|sid l IH]; intros self Hnd Hl; cbn [delete_servers].
  { exists self, []. rewrite app_nil_r. split_and!; [done| |done|constructor].
    intros sid. rewrite bool_decide_false; [done|apply not_elem_of_nil]. }
  apply NoDup_cons in Hnd as [Hni Hnd].
  destruct (Hl sid) as (s & Hs & Hst); [constructor|]. rewrite Hs.
  destruct (server_Stop_spec s Hst) as (s' & Es & _). rewrite Es. cbn -[delete_servers bool_decide].
  destruct (IH (mkRegistry (delete sid (servers self)) (stopped self ++ [s'])))
    as (self' & gone & E & Hlk & Hgone & HF).
  - done.
  - intros x Hx. simpl. rewrite lookup_delete_ne by (intros ->; done).
    apply Hl. by constructor.
  - exists self', (s' :: gone). split; [done|]. split; [|split].
    + intros x. rewrite Hlk. cbn [servers]. destruct (decide (x = sid)) as [->|Hne].
      * rewrite lookup_delete_eq, (bool_decide_true (sid ∈ sid :: l)) by constructor.
        by case_bool_decide.
      * rewrite lookup_delete_ne by done.
        rewrite (bool_decide_ext (x ∈ sid :: l) (x ∈ l)); [done|].
        rewrite elem_of_cons. tauto.
    + rewrite Hgone. simpl. by rewrite <- app_assoc.
    + constructor; [by exists s|]. eapply Forall2_impl; [exact HF|].
      simpl. intros x y (z & Hz & Hy). exists z. split; [|done].
      apply lookup_delete_Some in Hz. naive_solver.
Qed.

Lemma SetServers_spec Listen protos addresses self :
  length protos = length addresses →
  map_Forall (λ _ s, stoppable s) (servers self) →
  ∃ self', SetServers Listen protos addresses self = Ret self' ∧
    (∀ sid, servers self' !! sid =
       if bool_decide (sid ∈ requested protos addresses) then
         match servers self !! sid with
         | Some server => Some server
         | None => if bool_decide (listens Listen sid = true) then Some (new_server sid) else None
         end
       else None) ∧
    (∀ s', s' ∈ stopped self' → s' ∈ stopped self ∨ running s' = false).
Proof.
  intros Hlen Hst. unfold SetServers. rewrite bool_decide_false by naive_solver.
  set (req := requested protos addresses).
  set (mk := base.filter (λ sid, servers self !! sid = None) (elements req)).
  set (del := base.filter (λ sid, sid ∉ req) _).
  set (made := make_servers Listen mk (servers self)).
  assert (Hmade : ∀ sid s, servers self !! sid = Some s → made !! sid = Some s).
  { intros sid s Hs. unfold made. rewrite make_servers_lookup, bool_decide_false; [done|].
    intros [Hin _]. apply list_elem_of_filter in Hin as [Hin _]. congruence. }
  assert (Hdel : ∀ sid, sid ∈ del ↔ sid ∉ req ∧ is_Some (servers self !! sid)).
  { intros sid. unfold del. rewrite list_elem_of_filter, list_elem_of_fmap.
    split; (intros [? Hx]; split; [done|]).
    - destruct Hx as ([k v] & -> & Hkv%elem_of_map_to_list). by exists v.
    - destruct Hx as [v Hv]. exists (sid, v). split; [done|]. by apply elem_of_map_to_list. }
  destruct (delete_servers_spec del (mkRegistry made (stopped self)))
    as (self' & gone & E & Hlk & Hgone & HF).
  { apply NoDup_filter, NoDup_fst_map_to_list. }
  { intros sid [_ [s Hs]]%Hdel. exists s. split; [by apply Hmade|]. by eapply Hst. }
  exists self'. split; [exact E|]. split.
  - intros sid. rewrite Hlk. cbn [servers]. unfold made. rewrite make_servers_lookup.
    assert (Hmk : sid ∈ mk ↔ servers self !! sid = None ∧ sid ∈ req).
    { unfold mk. by rewrite list_elem_of_filter, elem_of_elements. }
    rewrite (bool_decide_ext (sid ∈ del) _ (Hdel sid)).
    rewrite (bool_decide_ext (sid ∈ mk ∧ _) (servers self !! sid = None ∧ sid ∈ req ∧
                                              listens Listen sid = true)) by tauto.
    destruct (decide (sid ∈ req)) as [Hin|Hin], (servers self !! sid) as [s|] eqn:Hs.
    + rewrite bool_decide_false by tauto. rewrite bool_decide_false by naive_solver.
      by rewrite bool_decide_true.
    + rewrite bool_decide_false by tauto. rewrite (bool_decide_true (sid ∈ req)) by done.
      rewrite (bool_decide_ext (None = None ∧ _) (listens Listen sid = true)) by tauto. done.
    + rewrite bool_decide_true by eauto. by rewrite bool_decide_false.
    + rewrite bool_decide_false by naive_solver. rewrite bool_decide_false by naive_solver.
      by rewrite bool_decide_false.
  - intros s' Hs'. rewrite Hgone in Hs'. simpl in Hs'. apply elem_of_app in Hs' as [|Hs']; [by left|].
    right. apply list_elem_of_lookup in Hs' as [i Hi].
    destruct (Forall2_lookup_r _ _ _ _ _ HF Hi) as (sid & Hsid & s & Hs & Hstop).
    assert (sid ∈ del) as [_ [s0 Hs0]]%Hdel by (by eapply list_elem_of_lookup_2).
    simpl in Hs. rewrite (Hmade _ _ Hs0) in Hs. simplify_eq.
    destruct (server_Stop_spec s) as (s'' & E' & ?); [by eapply Hst|]. congruence.
Qed.

(** After [SetServers] the registry has a server for an address exactly if the
    address was requested and either had a server, which is kept as it is, or
    could be listened on; every other server has been stopped.  A server that is
    kept is not looked at, so one whose goroutine has died stays dead: what is
    pushed to it is dropped. *)
Theorem SetServers_correct Listen protos addresses self :
  length protos = length addresses →
  map_Forall (λ _ s, stoppable s) (servers self) →
  ∃ self', SetServers Listen protos addresses self = Ret self' ∧
    (∀ sid, servers self' !! sid =
       if bool_decide (sid ∈ requested protos addresses) then
         match servers self !! sid with
         | Some server => Some server
         | None => if bool_decide (listens Listen sid = true) then Some (new_server sid) else None
         end
       else None) ∧
    (∀ s', s' ∈ stopped self' → s' ∈ stopped self ∨ running s' = false) ∧
    (∀ p a rec server, servers self' !! mkServerId p a = Some server →
       running server = false → registry_Push p a rec self' = Ret self').
Proof.
  intros Hlen Hst. destruct (SetServers_spec Listen _ _ self Hlen Hst) as (self' & E & Hlk & Hstop).
  exists self'. split_and!; [done..|].
  intros p a rec server Hs Hr. unfold registry_Push. by rewrite Hs, Hr.
Qed.

Definition example_registry : runRecServerRegistry :=
  mkRegistry {[ example_sid := example_server ]} [].

Lemma SetServers_correct_witness :
  ∃ self', SetServers (λ _, Ret tt) ["tcp" : bytes] [":1234" : bytes] example_registry = Ret self' ∧
    servers self' !! example_sid = None ∧
    servers self' !! mkServerId "tcp" ":1234" = Some (new_server (mkServerId "tcp" ":1234")).
Proof.
  destruct (SetServers_correct (λ _, Ret tt) ["tcp" : bytes] [":1234" : bytes] example_registry)
    as (self' & E & Hlk & _).
  - done.
  - apply map_Forall_singleton. by intros _.
  - exists self'. split; [exact E|].
    split; rewrite Hlk; vm_compute; reflexivity.
Defined.
