(* ===== verification/ResultSink.v ===== *)
(** * Result sinks ([jobfile/result_sink.go], [jobfile/result_sink_*.go])

    A result sink does something with the record of a run: it mails it, hands it
    to a program, writes the output to files, prints it, or sends it to whoever
    listens on a socket.  A jobfile describes a sink by a map of parameters.

    The library [yaml.v2] turns the map into the fields of a sink; it is the
    parameter [Yaml], whose documented behaviour is the class [YamlOk].  The world
    the sinks act on is the record [Env].  The theorems: what a configuration is
    accepted as; what is sent to a stream is framed in lines; which files a
    filesystem sink writes and which it deletes; which programs are run. *)

From S2P Require Import Prelude GoStrings Encoding Json GoPath SemVer Calendar TimeSpec Job.
From S2P Require Import FileSys RunRecServer.

Open Scope Z_scope.
Open Scope bytes_scope.
Open Scope list_scope.

(** ** Names *)

Definition SYSTEM_EMAIL_RESULT_SINK_NAME : bytes := "system-email".
Definition PROGRAM_RESULT_SINK_NAME : bytes := "program".
Definition FILESYSTEM_RESULT_SINK_NAME : bytes := "filesystem".
Definition STDOUT_RESULT_SINK_NAME : bytes := "stdout".
Definition SOCKET_RESULT_SINK_NAME : bytes := "socket".

Definition SystemEmail_String : bytes := SYSTEM_EMAIL_RESULT_SINK_NAME.
Definition Program_String : bytes := PROGRAM_RESULT_SINK_NAME.
Definition Filesystem_String : bytes := FILESYSTEM_RESULT_SINK_NAME.
Definition Stdout_String : bytes := STDOUT_RESULT_SINK_NAME.
Definition Socket_String : bytes := SOCKET_RESULT_SINK_NAME.

(** The method [String] of the interface *)
Definition sink_String (self : ResultSink) : bytes :=
  match self with
  | SystemEmailResultSink => SystemEmail_String
  | ProgramResultSink _ _ => Program_String
  | FilesystemResultSink _ _ _ => Filesystem_String
  | StdoutResultSink _ => Stdout_String
  | SocketResultSink _ _ _ => Socket_String
  end.

(** ** Parameters *)

(** [ResultSinkDataParam.Contains] *)
Definition data_Contains (self value : ResultSinkDataParam) : bool := Z.land self value =? value.

(** The loop of [ResultSinkDataParam.UnmarshalYAML] *)
Fixpoint data_of (self : ResultSinkDataParam) (strs : list bytes)
    : outcome ResultSinkDataParam :=
  match strs with
  | [] => Ret self
  | s :: strs =>
     let s := ToLower s in
     if bool_decide (s = ("stdout" : bytes)) then data_of (Z.lor self RESULT_SINK_DATA_STDOUT) strs
     else if bool_decide (s = ("stderr" : bytes)) then
       data_of (Z.lor self RESULT_SINK_DATA_STDERR) strs
     else Fail (CommonError ("Invalid data value: " ++ dquote s) None)
  end.

(** [unmarshal] is the decoder's answer for a list of strings. *)
Definition data_UnmarshalYAML (unmarshal : outcome (list bytes)) : outcome ResultSinkDataParam :=
  strs ← unmarshal; data_of 0 strs.

(** What a jobfile may hold as the value of a parameter. *)
Inductive YValue :=
| YString (s : bytes)
| YInt (n : Z)
| YList (l : list bytes)
| YVersion (v : SemVer)
| YOther (text : bytes).

Abbreviation ResultSinkRaw := (gmap bytes YValue).

(** [yaml.v2]: [strict_fields] is the answer of [yaml.Marshal] and
    [yaml.UnmarshalStrict] as to the keys, given the fields of the struct;
    [as_*] decode one value into a field of that type; [show_config] is what
    [fmt] prints of a configuration, [show_value] of a value. *)
Class Yaml := {
  strict_fields : ResultSinkRaw → list bytes → outcome unit;
  as_string : YValue → outcome bytes;
  as_int : YValue → outcome Z;
  as_strings : YValue → outcome (list bytes);
  show_config : ResultSinkRaw → bytes;
  show_value : YValue → bytes
}.

(** An unknown key is an error; a value of the right type is decoded to itself. *)
Class YamlOk `(Yaml) : Prop := {
  strict_fields_ok : ∀ params fields,
    returns (strict_fields params fields) ↔ ∀ k, k ∈ (map_to_list params).*1 → k ∈ fields;
  as_string_ok : ∀ s, as_string (YString s) = Ret s;
  as_version_ok : ∀ v, as_string (YVersion v) = Ret (MarshalYAML v);
  as_int_ok : ∀ n, as_int (YInt n) = Ret n;
  as_strings_ok : ∀ l, as_strings (YList l) = Ret l
}.

Section Config.
Context `{Yaml}.

(** A field that is not given keeps its zero value. *)
Definition field {A} (as_ : YValue → outcome A) (zero : A) (params : ResultSinkRaw)
    (name : bytes) : outcome A :=
  match params !! name with
  | None => Ret zero
  | Some v => as_ v
  end.

Definition data_field (params : ResultSinkRaw) : outcome ResultSinkDataParam :=
  field (λ v, data_UnmarshalYAML (as_strings v)) 0 params "data".

Definition version_field (params : ResultSinkRaw) : outcome SemVer :=
  field (λ v, UnmarshalYAML SemVer_zero (as_string v)) SemVer_zero params "runRecFormatVersion".

Definition SystemEmail_CheckParams : outcome unit := Ret tt.

(** The method has a value receiver: the version it sets is the version of its own
    copy, which is the result here. *)
Definition Program_CheckParams (Path : bytes) (RunRecFormatVersion : SemVer) : outcome SemVer :=
  if bool_decide (Path = []) then
    Fail (CommonError "Program result sink needs 'path' param" None)
  else Ret (if IsZero RunRecFormatVersion then mkSemVer 1 4 0 else RunRecFormatVersion).

Definition Filesystem_CheckParams (Path : bytes) (MaxAgeDays : Z) : outcome unit :=
  if bool_decide (Path = []) then
    Fail (CommonError "Filesystem result sink needs 'path' param" None)
  else if MaxAgeDays <? 1 then
    Fail (CommonError "Filesystem result sink's 'maxAgeDays' param must be >= 1" None)
  else Ret tt.

Definition Stdout_CheckParams : outcome unit := Ret tt.
Definition Socket_CheckParams : outcome unit := Ret tt.

(** The method [CheckParams] of the interface; the copy of [ProgramResultSink] is
    dropped. *)
Definition CheckParams (self : ResultSink) : outcome unit :=
  match self with
  | SystemEmailResultSink => SystemEmail_CheckParams
  | ProgramResultSink Path v => Program_CheckParams Path v;; Ret tt
  | FilesystemResultSink Path _ MaxAgeDays => Filesystem_CheckParams Path MaxAgeDays
  | StdoutResultSink _ => Stdout_CheckParams
  | SocketResultSink _ _ _ => Socket_CheckParams
  end.

(** [yaml.UnmarshalStrict] into each of the structs, by the name of the sink. *)
Definition decode_sink (typeName : bytes) (params : ResultSinkRaw)
    : option (outcome ResultSink) :=
  if bool_decide (typeName = SYSTEM_EMAIL_RESULT_SINK_NAME) then
    Some (strict_fields params [];; Ret SystemEmailResultSink)
  else if bool_decide (typeName = PROGRAM_RESULT_SINK_NAME) then
    Some (strict_fields params ["path" : bytes; "runRecFormatVersion" : bytes];;
          Path ← field as_string [] params "path";
          v ← version_field params;
          Ret (ProgramResultSink Path v))
  else if bool_decide (typeName = FILESYSTEM_RESULT_SINK_NAME) then
    Some (strict_fields params ["path" : bytes; "data" : bytes; "maxAgeDays" : bytes];;
          Path ← field as_string [] params "path";
          Data ← data_field params;
          MaxAgeDays ← field as_int 0 params "maxAgeDays";
          Ret (FilesystemResultSink Path Data MaxAgeDays))
  else if bool_decide (typeName = STDOUT_RESULT_SINK_NAME) then
    Some (strict_fields params ["data" : bytes];;
          Data ← data_field params;
          Ret (StdoutResultSink Data))
  else if bool_decide (typeName = SOCKET_RESULT_SINK_NAME) then
    Some (strict_fields params ["proto" : bytes; "address" : bytes; "data" : bytes];;
          Proto ← field as_string [] params "proto";
          Address ← field as_string [] params "address";
          Data ← data_field params;
          Ret (SocketResultSink Proto Address Data))
  else None.

Definition loadSinkParams (decoded : outcome ResultSink) : outcome ResultSink :=
  sink ← decoded; CheckParams sink;; Ret sink.

Definition MakeResultSinkFromConfig (config : ResultSinkRaw) : outcome ResultSink :=
  match config !! ("type" : bytes) with
  | None => Fail (CommonError ("Missing type for result sink: " ++ show_config config) None)
  | Some typeName =>
     let params := delete ("type" : bytes) config in
     let unknown := Fail (CommonError ("No such result sink type: " ++ show_value typeName) None) in
     match typeName with
     | YString name =>
        match decode_sink name params with
        | Some decoded => loadSinkParams decoded
        | None => unknown
        end
     | _ => unknown
     end
  end.

End Config.

(** ** When two sinks are the same *)

Definition SystemEmail_Equals (other : ResultSink) : bool :=
  match other with SystemEmailResultSink => true | _ => false end.

(** The version is not compared. *)
Definition Program_Equals (Path : bytes) (other : ResultSink) : bool :=
  match other with ProgramResultSink p _ => bool_decide (p = Path) | _ => false end.

Definition Filesystem_Equals (Path : bytes) (Data : ResultSinkDataParam) (MaxAgeDays : Z)
    (other : ResultSink) : bool :=
  match other with
  | FilesystemResultSink p d m => bool_decide (p = Path) && (m =? MaxAgeDays) && (d =? Data)
  | _ => false
  end.

Definition Stdout_Equals (Data : ResultSinkDataParam) (other : ResultSink) : bool :=
  match other with StdoutResultSink d => d =? Data | _ => false end.

Definition Socket_Equals (Proto Address : bytes) (Data : ResultSinkDataParam)
    (other : ResultSink) : bool :=
  match other with
  | SocketResultSink p a d => bool_decide (p = Proto) && bool_decide (a = Address) && (d =? Data)
  | _ => false
  end.

(** The method [Equals] of the interface *)
Definition Equals (self other : ResultSink) : bool :=
  match self with
  | SystemEmailResultSink => SystemEmail_Equals other
  | ProgramResultSink p _ => Program_Equals p other
  | FilesystemResultSink p d m => Filesystem_Equals p d m other
  | StdoutResultSink d => Stdout_Equals d other
  | SocketResultSink p a d => Socket_Equals p a d other
  end.

(** ** Records as JSON *)

Definition fate_number (f : SubprocFate) : Z :=
  match f with
  | SubprocFateSucceeded => 0
  | SubprocFateFailed => 1
  | SubprocFateCancelled => 2
  end.

(** The map [rec.Job] is written as. *)
Definition job_json (job : Job) (rec : RunRec) : json :=
  JObject [("name" : bytes, JString (Name job)); ("command" : bytes, JString (Cmd job));
           ("time" : bytes, JString (FullTimeSpec_String (JobTimeSpec job)));
           ("status" : bytes, JString (JobStatus_String (NewStatus rec)))].

Definition succeeded (rec : RunRec) : bool := bool_decide (Fate rec = SubprocFateSucceeded).

(** One of the output fields; both are made from the standard output. *)
Definition output_field (rec : RunRec) (plain base64 : bytes) : bytes * json :=
  let '(outputStr, isBase64) := SafeBytesToStr (default [] (Stdout rec)) in
  (if isBase64 : bool then base64 else plain, JString outputStr).

Definition run_rec_fields (job : Job) (rec : RunRec) (data : ResultSinkDataParam)
    : list (bytes * json) :=
  [("version" : bytes, JString (SemVer_String (mkSemVer 1 4 0)));
   ("job" : bytes, job_json job rec);
   ("user" : bytes, JString (User job));
   ("startTime" : bytes, JInt (Unix (RunTime rec)));
   ("succeeded" : bytes, JBool (succeeded rec));
   ("fate" : bytes, JInt (fate_number (Fate rec)))] ++
  (if data_Contains data RESULT_SINK_DATA_STDOUT
   then [output_field rec "stdout" "stdoutBase64"] else []) ++
  (if data_Contains data RESULT_SINK_DATA_STDERR
   then [output_field rec "stderr" "stderrBase64"] else []).

Definition SerializeRunRec (job : Job) (rec : RunRec) (data : ResultSinkDataParam) : bytes :=
  Encode (JObject (run_rec_fields job rec data)).

Section Formats.
Context `{Location}.

Definition month_abbreviation (m : Month) : bytes :=
  match m with
  | January => "Jan" | February => "Feb" | March => "Mar" | April => "Apr"
  | May => "May" | June => "Jun" | July => "Jul" | August => "Aug"
  | September => "Sep" | October => "Oct" | November => "Nov" | December => "Dec"
  end.

(** [n] in at least [width] places, filled up with [fill]. *)
Definition pad (fill : ascii) (width : nat) (n : Z) : bytes :=
  let s := itoa n in repeat fill (width - length s) ++ s.

(** [rec.RunTime.Format("Jan _2 15:04:05 2006")] *)
Definition format_time (t : Time) : bytes :=
  month_abbreviation (month_of t) ++ " " ++ pad " "%char 2 (Day t) ++ " " ++
  pad "0"%char 2 (Calendar.Hour t) ++ ":" ++ pad "0"%char 2 (Calendar.Minute t) ++ ":" ++
  pad "0"%char 2 (Second t) ++ " " ++ pad "0"%char 4 (Year t).

Definition old_output_fields (output : option bytes) (key key64 : bytes)
    : list (bytes * json) :=
  match output with
  | None => [(key, JNull)]
  | Some out =>
     let '(str, base64) := SafeBytesToStr out in [(key, JString str); (key64, JBool base64)]
  end.

Definition serializeRunRec_oldFormat (job : Job) (rec : RunRec) : bytes :=
  Marshal true (JObject (
    [("job" : bytes, job_json job rec);
     ("user" : bytes, JString (User job));
     ("startTime" : bytes, JString (format_time (RunTime rec)));
     ("succeeded" : bytes, JBool (succeeded rec))] ++
    old_output_fields (Stdout rec) "stdout" "stdout_base64" ++
    old_output_fields (Stderr rec) "stderr" "stderr_base64")).

End Formats.

(** ** Output files *)

Definition FS_SINK_STDOUT_SUFFIX : bytes := "stdout".
Definition FS_SINK_STDERR_SUFFIX : bytes := "stderr".

Definition runTimeToFileName (t : Time) (suffix : bytes) : bytes :=
  itoa (Unix t) ++ "." ++ suffix.

Definition cannot_parse_name : error := CommonError "Cannot parse output file name" None.

Definition fileNameToRunTime (name : bytes) : outcome Time :=
  match Split name "." with
  | [secs; suffix] =>
     if bool_decide (suffix ≠ FS_SINK_STDOUT_SUFFIX ∧ suffix ≠ FS_SINK_STDERR_SUFFIX) then
       Fail cannot_parse_name
     else
       match Atoi secs with
       | Fail _ => Fail cannot_parse_name
       | Ret n => Ret (n * Second_)
       | Panic msg => Panic msg
       | Running => Running
       end
  | _ => Fail cannot_parse_name
  end.

(** [now.Sub(t)]: a difference that does not fit is cut off at the ends of the
    range. *)
Definition Sub (now t : Time) : Duration :=
  Z.max (- two63) (Z.min (two63 - 1) (now - t)).

Definition ageOfFileInDays (name : bytes) (now : Time) : outcome Z :=
  runTime ← fileNameToRunTime name;
  Ret (Z.quot (Sub now runTime) (24 * Hour_)).

(** ** The world *)

(** A finished subprocess: what reading its output gives, and its fate
    ([common.ExecResult]). *)
Record ExecResult := mkExecResult {
  exec_Stdout : outcome bytes;
  exec_Stderr : outcome bytes;
  exec_Fate : SubprocFate
}.

(** [ReadStdout(max)], [ReadStderr(max)] *)
Definition read_output (max : nat) (f : outcome bytes) : outcome bytes :=
  c ← f; Ret (take max c).

(** An entry of the error log: a text, or a text that ends with the text of an
    error. *)
Inductive log_line := LogText (text : bytes) | LogError (what : bytes) (e : error).

(** [calls] are the subprocesses started so far, with their input; [execs] are
    the results of those to come, the first one first.  A directory of [dirs]
    holds the files of [disk] whose path continues it by one name. *)
Record Env := mkEnv {
  stdout : bytes;
  calls : list (list bytes * bytes);
  execs : list (outcome ExecResult);
  registry : runRecServerRegistry;
  dirs : gset bytes;
  disk : fsys;
  logger : list bytes;
  err_logger : list log_line
}.

Definition log_err (l : log_line) : stM Env unit := modifyS (λ s,
  mkEnv (stdout s) (calls s) (execs s) (registry s) (dirs s) (disk s) (logger s)
    (err_logger s ++ [l])).

Definition log_out (text : bytes) : stM Env unit := modifyS (λ s,
  mkEnv (stdout s) (calls s) (execs s) (registry s) (dirs s) (disk s) (logger s ++ [text])
    (err_logger s)).

Definition on_disk {A} (m : stM fsys A) : stM Env A := λ s,
  let '(r, d) := m (disk s) in
  (r, mkEnv (stdout s) (calls s) (execs s) (registry s) (dirs s) d (logger s) (err_logger s)).

(** [common.ExecAndWait(args, input)]; when the results have run out, the
    subprocess cannot be started. *)
Definition ExecAndWait (args : list bytes) (input : bytes) : stM Env ExecResult := λ s,
  let done := calls s ++ [(args, input)] in
  match execs s with
  | [] => (Fail (LibError "Failed to fork"), mkEnv (stdout s) done [] (registry s) (dirs s)
             (disk s) (logger s) (err_logger s))
  | r :: rs => (r, mkEnv (stdout s) done rs (registry s) (dirs s) (disk s) (logger s)
                     (err_logger s))
  end.

(** [os.Mkdir] *)
Definition os_Mkdir (dir : bytes) : stM Env unit := λ s,
  match on_disk (faulty (mret tt)) s with
  | (Ret _, s) =>
     if bool_decide (dir ∈ dirs s) then (Fail (OsError EEXIST), s)
     else (Ret tt, mkEnv (stdout s) (calls s) (execs s) (registry s) ({[dir]} ∪ dirs s)
                     (disk s) (logger s) (err_logger s))
  | r => r
  end.

(** The name of a file of the directory. *)
Definition name_in (dir path : bytes) : option bytes :=
  match strip_prefix (dir ++ "/") path with
  | Some name => if bool_decide ("/"%char ∈ name) then None else Some name
  | None => None
  end.

(** [ioutil.ReadDir]: the names of the regular files, in order. *)
Definition ReadDir (dir : bytes) : stM fsys (list bytes) :=
  faulty (λ s, (Ret (map fst (merge_sort key_le
                  (omap (λ '(path, c), n ← name_in dir path; Some (n, c))
                     (map_to_list (files s))))), s)).

(** ** Handling a record *)

(** The loop over the files of the directory. *)
Fixpoint delete_old (dirPath : bytes) (maxAgeDays : Z) (now : Time) (names : list bytes)
    : stM Env unit :=
  match names with
  | [] => mret tt
  | name :: names =>
     match ageOfFileInDays name now with
     | Ret ageDays =>
        if maxAgeDays <? ageDays then
          r ← try_ (on_disk (os_Remove (path_Join dirPath name)));
          match r with
          | inl _ => mret tt
          | inr err => log_err (LogError [] err)
          end
        else mret tt
     | Fail err => log_err (LogError [] err)
     | Panic msg => panicS msg
     | Running => λ s, (Running, s)
     end;;
     delete_old dirPath maxAgeDays now names
  end.

Definition deleteOldOutputs (dirPath : bytes) (maxAgeDays : Z) (now : Time) : stM Env unit :=
  r ← try_ (on_disk (ReadDir dirPath));
  match r with
  | inl names => delete_old dirPath maxAgeDays now names
  | inr err => if IsNotExist err then mret tt else log_err (LogError [] err)
  end.

(** One of the two files of a run. *)
Definition write_output (dirPath suffix : bytes) (t : Time) (content : option bytes)
    : stM Env unit :=
  r ← try_ (on_disk (WriteFile (path_Join dirPath (runTimeToFileName t suffix))
                       (default [] content)));
  match r with
  | inl _ => mret tt
  | inr err => log_err (LogError [] err)
  end.

Definition IsExist (e : error) : bool :=
  match e with OsError EEXIST => true | _ => false end.

Definition Filesystem_Handle (Path : bytes) (Data : ResultSinkDataParam) (MaxAgeDays : Z)
    (now : Time) (job : Job) (rec : RunRec) : stM Env unit :=
  let dirPath := path_Join Path (Name job) in
  r ← try_ (os_Mkdir dirPath);
  match r with
  | inr err =>
     if IsExist err then mret true else log_err (LogError [] err);; mret false
  | inl _ => mret true
  end ≫= λ go_on : bool,
  if go_on then
    (if data_Contains Data RESULT_SINK_DATA_STDOUT
     then write_output dirPath FS_SINK_STDOUT_SUFFIX (RunTime rec) (Stdout rec)
     else mret tt);;
    (if data_Contains Data RESULT_SINK_DATA_STDERR
     then write_output dirPath FS_SINK_STDERR_SUFFIX (RunTime rec) (Stderr rec)
     else mret tt);;
    deleteOldOutputs dirPath MaxAgeDays now
  else mret tt.

(** The text of output that could not be read is the empty one. *)
Definition output_text (f : outcome bytes) : bytes :=
  match read_output RunRecOutputMaxLen f with
  | Ret out => (SafeBytesToStr out).1
  | _ => []
  end.

(** [defer execResult.Close()] runs when the method returns, on a nil result too. *)
Definition Program_Handle `{Location} (Path : bytes) (Version : SemVer) (job : Job)
    (rec : RunRec) : stM Env unit :=
  let recStr :=
    if Compare Version (mkSemVer 1 4 0) <? 0 then serializeRunRec_oldFormat job rec
    else SerializeRunRec job rec (Z.lor RESULT_SINK_DATA_STDOUT RESULT_SINK_DATA_STDERR) in
  r ← try_ (ExecAndWait [Path] recStr);
  match r with
  | inr err =>
     log_err (LogError ("Failed to call " ++ Path ++ ": ") err);;
     panicS nil_dereference
  | inl res =>
     match exec_Fate res with
     | SubprocFateFailed =>
        log_err (LogText (Path ++ " failed: " ++ output_text (exec_Stderr res) ++ [newline]))
     | SubprocFateCancelled => panicS "Result sink program subproc was somehow cancelled"
     | SubprocFateSucceeded =>
        log_out (output_text (exec_Stdout res));;
        log_err (LogText (output_text (exec_Stderr res)))
     end
  end.

Definition mail (job : Job) (rec : RunRec) : bytes :=
  "To: " ++ User job ++ crlf ++ "From: " ++ User job ++ crlf ++
  "Subject: " ++ dquote (Name job) ++ " failed." ++ crlf ++ crlf ++
  Describe job rec ++ "." ++ crlf.

Definition SystemEmail_Handle (job : Job) (rec : RunRec) : stM Env unit :=
  r ← try_ (ExecAndWait ["sendmail" : bytes; User job] (mail job rec));
  match r with
  | inr err =>
     log_err (LogError "Failed to send mail: " err);;
     panicS nil_dereference
  | inl res =>
     match exec_Fate res with
     | SubprocFateFailed =>
        log_err (LogText ("Failed to send mail: " ++ output_text (exec_Stderr res) ++ [newline]))
     | SubprocFateCancelled => panicS "Result sink program subproc was somehow cancelled"
     | SubprocFateSucceeded => mret tt
     end
  end.

Definition Stdout_Handle (Data : ResultSinkDataParam) (job : Job) (rec : RunRec)
    : stM Env unit := modifyS (λ s,
  mkEnv (stdout s ++ SerializeRunRec job rec Data) (calls s) (execs s) (registry s) (dirs s)
    (disk s) (logger s) (err_logger s)).

Definition Socket_Handle (Proto Address : bytes) (Data : ResultSinkDataParam) (job : Job)
    (rec : RunRec) : stM Env unit := λ s,
  match registry_Push Proto Address (SerializeRunRec job rec Data) (registry s) with
  | Ret r => (Ret tt, mkEnv (stdout s) (calls s) (execs s) r (dirs s) (disk s) (logger s)
                        (err_logger s))
  | Fail e => (Fail e, s)
  | Panic msg => (Panic msg, s)
  | Running => (Running, s)
  end.

(** [sink.Handle(rec)]: [job] is the job the record points to, [now] the time at
    which old outputs are looked for. *)
Definition sink_Handle `{Location} (now : Time) (self : ResultSink) (job : Job) (rec : RunRec)
    : stM Env unit :=
  match self with
  | SystemEmailResultSink => SystemEmail_Handle job rec
  | ProgramResultSink Path v => Program_Handle Path v job rec
  | FilesystemResultSink Path Data MaxAgeDays =>
     Filesystem_Handle Path Data MaxAgeDays now job rec
  | StdoutResultSink Data => Stdout_Handle Data job rec
  | SocketResultSink Proto Address Data => Socket_Handle Proto Address Data job rec
  end.

(** ** Configurations *)

Section ConfigFacts.
Context `{HY : Yaml} `{!YamlOk HY}.

Definition data_names (data : ResultSinkDataParam) : list bytes :=
  (if data_Contains data RESULT_SINK_DATA_STDOUT then ["stdout" : bytes] else []) ++
  (if data_Contains data RESULT_SINK_DATA_STDERR then ["stderr" : bytes] else []).

(** The configuration that describes a sink. *)
Definition config_params (sink : ResultSink) : ResultSinkRaw :=
  match sink with
  | SystemEmailResultSink => ∅
  | ProgramResultSink Path v =>
     <["path" : bytes := YString Path]>
     {["runRecFormatVersion" : bytes := YString (SemVer_String v)]}
  | FilesystemResultSink Path Data MaxAgeDays =>
     <["path" : bytes := YString Path]>
     (<["data" : bytes := YList (data_names Data)]> {["maxAgeDays" : bytes := YInt MaxAgeDays]})
  | StdoutResultSink Data => {["data" : bytes := YList (data_names Data)]}
  | SocketResultSink Proto Address Data =>
     <["proto" : bytes := YString Proto]>
     (<["address" : bytes := YString Address]> {["data" : bytes := YList (data_names Data)]})
  end.

Definition config_of (sink : ResultSink) : ResultSinkRaw :=
  <["type" : bytes := YString (sink_String sink)]> (config_params sink).

Definition data_valid (data : ResultSinkDataParam) : Prop := 0 ≤ data < 4.

(** The sinks a jobfile can describe. *)
Definition sink_valid (sink : ResultSink) : Prop :=
  match sink with
  | SystemEmailResultSink => True
  | ProgramResultSink Path v => Path ≠ []
  | FilesystemResultSink Path Data MaxAgeDays => Path ≠ [] ∧ data_valid Data ∧ 1 ≤ MaxAgeDays
  | StdoutResultSink Data => data_valid Data
  | SocketResultSink _ _ Data => data_valid Data
  end.

Definition version_valid (sink : ResultSink) : Prop :=
  match sink with ProgramResultSink _ v => wf v | _ => True end.

Lemma data_of_valid d strs d' : data_valid d → data_of d strs = Ret d' → data_valid d'.
Proof.
  revert d. induction strs as [|s strs IH]; intros d Hd; simpl; [by intros [= <-]|].
  assert (d = 0 ∨ d = 1 ∨ d = 2 ∨ d = 3) as Hc by (unfold data_valid in Hd; lia).
  repeat case_bool_decide; [apply IH..|done];
    destruct Hc as [->|[->|[->| ->]]]; by vm_compute.
Qed.

Lemma data_field_valid params d : data_field params = Ret d → data_valid d.
Proof.
  unfold data_field, field, data_UnmarshalYAML. case_match; [|intros [= <-]; by vm_compute].
  intros (strs & _ & Hd)%bind_Ret. by eapply data_of_valid; [|exact Hd].
Qed.

Lemma data_names_read d : data_valid d → data_of 0 (data_names d) = Ret d.
Proof.
  intros Hd. assert (d = 0 ∨ d = 1 ∨ d = 2 ∨ d = 3) as Hc by (unfold data_valid in Hd; lia).
  destruct Hc as [->|[->|[->| ->]]]; by vm_compute.
Qed.

(** The fields of a sink's struct, by the name of the sink. *)
Definition sink_fields (sink : ResultSink) : list bytes :=
  match sink with
  | SystemEmailResultSink => []
  | ProgramResultSink _ _ => ["path" : bytes; "runRecFormatVersion" : bytes]
  | FilesystemResultSink _ _ _ => ["path" : bytes; "data" : bytes; "maxAgeDays" : bytes]
  | StdoutResultSink _ => ["data" : bytes]
  | SocketResultSink _ _ _ => ["proto" : bytes; "address" : bytes; "data" : bytes]
  end.

Lemma decode_sink_inv name params sink :
  decode_sink name params = Some (Ret sink) →
  name = sink_String sink ∧ strict_fields params (sink_fields sink) = Ret tt ∧
  (∀ d, (∃ p m, sink = FilesystemResultSink p d m) ∨ sink = StdoutResultSink d ∨
        (∃ p a, sink = SocketResultSink p a d) → data_valid d).
Proof.
  unfold decode_sink. intros H.
  repeat case_bool_decide; simplify_eq; simpl in *;
    repeat match goal with
    | H : Some _ = Some _ |- _ => injection H as H
    | H : _ ≫= _ = Ret _ |- _ => apply bind_Ret in H as (? & ? & H)
    | H : Ret _ = Ret _ |- _ => injection H as <-
    | x : unit |- _ => destruct x
    end; (split; [done|]); (split; [done|]); intros d Hd;
    destruct Hd as [(?&?&?)|[?|(?&?&?)]]; simplify_eq; by eapply data_field_valid.
Qed.

Lemma keys_field_of params fields :
  returns (strict_fields params fields) ↔ (∀ k v, params !! k = Some v → k ∈ fields).
Proof.
  rewrite strict_fields_ok. split.
  - intros Hk k v Hkv. apply Hk, list_elem_of_fmap. exists (k, v). split; [done|].
    by apply elem_of_map_to_list.
  - intros Hk k ([k' v] & -> & Hkv%elem_of_map_to_list)%list_elem_of_fmap. by eapply Hk.
Qed.

Lemma strict_config sink :
  strict_fields (config_params sink) (sink_fields sink) = Ret tt.
Proof.
  assert (returns (strict_fields (config_params sink) (sink_fields sink))) as [[] E]; [|done].
  apply keys_field_of. intros k v Hkv.
  destruct sink; cbn [config_params sink_fields] in *; [by rewrite lookup_empty in Hkv|..];
    rewrite ?lookup_insert_Some, lookup_singleton_Some in Hkv;
    rewrite !elem_of_cons; naive_solver.
Qed.

Lemma field_of {A} (as_ : YValue → outcome A) zero params name v :
  params !! name = Some v → field as_ zero params name = as_ v.
Proof. intros H. unfold field. by rewrite H. Qed.

Lemma data_field_of params d :
  params !! ("data" : bytes) = Some (YList (data_names d)) → data_valid d →
  data_field params = Ret d.
Proof.
  intros H Hd. unfold data_field. rewrite (field_of _ _ _ _ _ H).
  unfold data_UnmarshalYAML. rewrite as_strings_ok. by apply data_names_read.
Qed.

Ltac config_lookup := first [done | cbn [config_params]; by simplify_map_eq].

Lemma decode_config sink :
  sink_valid sink → version_valid sink →
  decode_sink (sink_String sink) (config_params sink) = Some (Ret sink).
Proof.
  intros Hv Hver. pose proof (strict_config sink) as Hs.
  destruct sink as [|Path v|Path Data m|Data|Proto Address Data];
    unfold decode_sink; cbn [sink_String sink_fields] in *;
    repeat (rewrite bool_decide_false by done); rewrite bool_decide_true by done;
    rewrite Hs; cbn [mbind outcome_bind].
  - done.
  - rewrite (field_of as_string _ _ "path" (YString Path)) by config_lookup. rewrite as_string_ok.
    cbn [mbind outcome_bind]. unfold version_field.
    rewrite (field_of _ _ _ _ (YString (SemVer_String v))) by config_lookup. rewrite as_string_ok.
    unfold UnmarshalYAML. by rewrite fromString_printed.
  - destruct Hv as (Hp & Hd & Hm).
    rewrite (field_of as_string _ _ "path" (YString Path)) by config_lookup. rewrite as_string_ok.
    cbn [mbind outcome_bind]. rewrite (data_field_of _ Data) by config_lookup.
    cbn [mbind outcome_bind]. rewrite (field_of as_int _ _ _ (YInt m)) by config_lookup. by rewrite as_int_ok.
  - by rewrite (data_field_of _ Data) by config_lookup.
  - rewrite (field_of as_string _ _ "proto" (YString Proto)) by config_lookup. rewrite as_string_ok.
    cbn [mbind outcome_bind].
    rewrite (field_of as_string _ _ "address" (YString Address)) by config_lookup. rewrite as_string_ok.
    cbn [mbind outcome_bind]. by rewrite (data_field_of _ Data) by config_lookup.
Qed.

Lemma CheckParams_valid sink :
  CheckParams sink = Ret tt →
  (∀ d, (∃ p m, sink = FilesystemResultSink p d m) ∨ sink = StdoutResultSink d ∨
        (∃ p a, sink = SocketResultSink p a d) → data_valid d) →
  sink_valid sink.
Proof.
  intros Hc Hd. unfold CheckParams, Program_CheckParams, Filesystem_CheckParams in Hc.
  destruct sink as [|Path v|Path Data m|Data|Proto Address Data]; simpl in *.
  - done.
  - by case_bool_decide.
  - case_bool_decide; [done|]. destruct (Z.ltb_spec m 1); [done|].
    split_and!; [done|apply Hd; eauto|lia].
  - apply Hd. eauto.
  - apply Hd. eauto 10.
Qed.

Lemma valid_CheckParams sink : sink_valid sink → CheckParams sink = Ret tt.
Proof.
  unfold CheckParams, Program_CheckParams, Filesystem_CheckParams.
  destruct sink as [|Path v|Path Data m|Data|Proto Address Data]; simpl; try done.
  - intros. by rewrite bool_decide_false.
  - intros (? & _ & ?). rewrite bool_decide_false by done. by destruct (Z.ltb_spec m 1); [lia|].
Qed.

(** C30: A configuration is accepted only as a sink of the type it names, with no
    parameter that type does not have, with the parameters the type needs and a
    data set made of "stdout" and "stderr"; conversely every such sink is what its
    configuration is read as. *)
Theorem MakeResultSinkFromConfig_correct sink :
  (∀ config, MakeResultSinkFromConfig config = Ret sink →
     config !! ("type" : bytes) = Some (YString (sink_String sink)) ∧
     (∀ k v, config !! k = Some v → k = ("type" : bytes) ∨ k ∈ sink_fields sink) ∧
     sink_valid sink) ∧
  (sink_valid sink → version_valid sink → MakeResultSinkFromConfig (config_of sink) = Ret sink).
Proof.
  split.
  - intros config. unfold MakeResultSinkFromConfig.
    destruct (config !! ("type" : bytes)) as [[name|n|l|v|t]|] eqn:Ht; try done.
    destruct (decode_sink name _) as [decoded|] eqn:Hdec; [|done].
    unfold loadSinkParams. intros (sink' & -> & (u & Hc & [= ->])%bind_Ret)%bind_Ret.
    destruct u. apply decode_sink_inv in Hdec as (-> & Hs & Hd). split; [done|].
    split; [|by apply CheckParams_valid].
    intros k v Hkv. destruct (decide (k = ("type" : bytes))) as [|Hk]; [by left|]. right.
    assert (returns (strict_fields (delete ("type" : bytes) config) (sink_fields sink))) as Hr
      by (by exists tt).
    rewrite keys_field_of in Hr. apply (Hr k v). by rewrite lookup_delete_ne.
  - intros Hv Hver. unfold MakeResultSinkFromConfig, config_of. rewrite lookup_insert_eq.
    rewrite delete_insert_id by (by destruct sink).
    rewrite decode_config by done. unfold loadSinkParams. simpl.
    by rewrite valid_CheckParams.
Qed.

End ConfigFacts.

(** A decoder that only knows the values of the right type. *)
Definition example_yaml : Yaml := {|
  strict_fields params fields :=
    if forallb (λ k, bool_decide (k ∈ fields)) (map_to_list params).*1 then Ret tt
    else Fail (LibError "field not found");
  as_string v := match v with YString s => Ret s | YVersion v => Ret (MarshalYAML v)
                            | _ => Fail (LibError "not a string") end;
  as_int v := match v with YInt n => Ret n | _ => Fail (LibError "not an int") end;
  as_strings v := match v with YList l => Ret l | _ => Fail (LibError "not a list") end;
  show_config _ := [];
  show_value _ := []
|}.

Lemma example_yaml_ok : YamlOk example_yaml.
Proof.
  split; [|done..]. intros params fields. simpl.
  destruct (forallb _ _) eqn:E.
  - rewrite forallb_forall in E. split; [|intros _; by exists tt].
    intros _ k Hk%list_elem_of_In. by apply E, bool_decide_eq_true in Hk.
  - split; [by intros [? [=]]|]. intros Hall. exfalso. apply not_true_iff_false in E. apply E.
    apply forallb_forall. intros k Hk%list_elem_of_In. by apply bool_decide_eq_true, Hall.
Qed.

#[local] Existing Instances example_yaml example_yaml_ok.

Lemma MakeResultSinkFromConfig_correct_witness :
  MakeResultSinkFromConfig (config_of (FilesystemResultSink "/var/log" 3 7)) =
  Ret (FilesystemResultSink "/var/log" 3 7).
Proof.
  destruct (MakeResultSinkFromConfig_correct (YamlOk0:=example_yaml_ok)
              (FilesystemResultSink "/var/log" 3 7)) as [_ H].
  apply H; [|done]. simpl. split; [done|]. unfold data_valid. lia.
Defined.

(** ** Streams of records *)

Definition record_text (data : ResultSinkDataParam) (jr : Job * RunRec) : bytes :=
  Marshal false (JObject (run_rec_fields jr.1 jr.2 data)).

(** Handle the records one after the other. *)
Fixpoint print_all (data : ResultSinkDataParam) (l : list (Job * RunRec)) : stM Env unit :=
  match l with
  | [] => mret tt
  | (job, rec) :: l => Stdout_Handle data job rec;; print_all data l
  end.

Lemma print_all_stdout data l s :
  ∃ s', print_all data l s = (Ret tt, s') ∧
    stdout s' = stdout s ++ concat (map (λ t, t ++ [newline]) (map (record_text data) l)) ∧
    registry s' = registry s ∧ calls s' = calls s ∧ disk s' = disk s.
Proof.
  revert s. induction l as [|[job rec] l IH]; intros s; cbn [print_all].
  { exists s. cbn. by rewrite app_nil_r. }
  edestruct IH as (s' & E & Hout & Hr & Hc & Hd).
  exists s'. split; [exact E|]. cbn [stdout registry calls disk] in Hout, Hr, Hc, Hd.
  change (SerializeRunRec job rec data)
    with (record_text data (job, rec) ++ [newline]) in Hout.
  split; [|done]. rewrite Hout. cbn [map concat]. by rewrite <- !app_assoc.
Qed.

(** The standard output carries the records in the order they are handled, one
    per line: whoever splits it at newlines gets back the JSON text of each record,
    whatever bytes the names and the output of the jobs are made of; handling them
    does nothing else.  A socket sink pushes the same lines. *)
Theorem stdout_records_framed data l s :
  ∃ s', print_all data l s = (Ret tt, s') ∧
    stdout s' = stdout s ++ concat (map (λ jr, SerializeRunRec jr.1 jr.2 data) l) ∧
    Split (concat (map (λ jr, SerializeRunRec jr.1 jr.2 data) l)) [newline] =
      map (record_text data) l ++ [[]] ∧
    registry s' = registry s ∧ calls s' = calls s ∧ disk s' = disk s.
Proof.
  destruct (print_all_stdout data l s) as (s' & E & Hout & Hrest).
  exists s'. split; [exact E|].
  assert (Hc : concat (map (λ jr, SerializeRunRec jr.1 jr.2 data) l) =
               concat (map (λ t, t ++ [newline]) (map (record_text data) l)))
    by (by rewrite map_map).
  rewrite Hc. split; [done|]. split; [|done].
  rewrite <- (app_nil_r (concat _)). apply Split_lines; [|apply not_elem_of_nil].
  apply Forall_map, Forall_true. intros jr. apply Marshal_no_newline.
Qed.

(** ** The filesystem sink *)

(** A file of the directory that is deleted: its name is that of an output, and the
    output is of a run too long ago. *)
Definition too_old (maxAgeDays : Z) (now : Time) (name : bytes) : bool :=
  match ageOfFileInDays name now with
  | Ret ageDays => maxAgeDays <? ageDays
  | _ => false
  end.

Definition expired (dirPath : bytes) (maxAgeDays : Z) (now : Time) (path : bytes) : bool :=
  match name_in dirPath path with
  | Some name => too_old maxAgeDays now name
  | None => false
  end.

(** The path [filepath.Join] makes of each name in the directory is the path of
    the file: the directory is given by a clean path. *)
Definition tidy (dirPath : bytes) (d : gmap bytes bytes) : Prop :=
  map_Forall (λ path _, ∀ name, name_in dirPath path = Some name →
                        path_Join dirPath name = path) d.

Lemma ageOfFileInDays_cases name now :
  (∃ n, ageOfFileInDays name now = Ret n) ∨ (∃ e, ageOfFileInDays name now = Fail e).
Proof.
  unfold ageOfFileInDays, fileNameToRunTime, Atoi, parse_int.
  repeat (case_match; simpl; eauto); simplify_eq; eauto.
Qed.

Lemma name_in_Some dir path name :
  name_in dir path = Some name ↔ path = dir ++ "/" ++ name ∧ "/"%char ∉ name.
Proof.
  unfold name_in. destruct (strip_prefix (dir ++ "/") path) as [n|] eqn:E.
  - apply strip_prefix_Some in E as ->. rewrite <- app_assoc. case_bool_decide; split.
    + done.
    + intros [[= ->]%app_inv_head ?]. done.
    + by intros [= ->].
    + by intros [[= ->]%app_inv_head ?].
  - split; [done|]. intros [-> _].
    assert (strip_prefix (dir ++ "/") (dir ++ "/" ++ name) = Some name) as E'; [|congruence].
    apply strip_prefix_Some. by rewrite <- app_assoc.
Qed.

Lemma delete_old_spec dir maxAge now names s :
  no_faults (disk s) → NoDup names →
  (∀ n, n ∈ names → name_in dir (dir ++ "/" ++ n) = Some n ∧
                    path_Join dir n = dir ++ "/" ++ n ∧
                    is_Some (files (disk s) !! (dir ++ "/" ++ n))) →
  ∃ s', delete_old dir maxAge now names s = (Ret tt, s') ∧ no_faults (disk s') ∧
    ∀ path, files (disk s') !! path =
      match name_in dir path with
      | Some n => if bool_decide (n ∈ names) && too_old maxAge now n then None
                  else files (disk s) !! path
      | None => files (disk s) !! path
      end.
Proof.
  revert s. induction names as [|n names IH]; intros s Hf Hnd Hn; cbn [delete_old].
  { exists s. split; [done|]. split; [done|]. intros path. destruct (name_in dir path); done. }
  apply NoDup_cons in Hnd as [Hni Hnd].
  destruct (Hn n) as (Hname & Hpath & [c Hc]); [constructor|].
  assert (Hstep : ∀ s1, no_faults (disk s1) →
    (∀ path, files (disk s1) !! path =
       if bool_decide (path = dir ++ "/" ++ n) && too_old maxAge now n then None
       else files (disk s) !! path) →
    ∃ s', delete_old dir maxAge now names s1 = (Ret tt, s') ∧ no_faults (disk s') ∧
      ∀ path, files (disk s') !! path =
        match name_in dir path with
        | Some m => if bool_decide (m ∈ n :: names) && too_old maxAge now m then None
                    else files (disk s) !! path
        | None => files (disk s) !! path
        end).
  { intros s1 Hf1 H1. destruct (IH s1 Hf1 Hnd) as (s' & E & Hf' & Hlk).
    - intros m Hm. destruct (Hn m) as (? & ? & ?); [by constructor|].
      split_and!; [done..|]. rewrite H1, bool_decide_false; [done|].
      intros [= ->]%app_inv_head. done.
    - exists s'. split; [done|]. split; [done|]. intros path. rewrite Hlk, H1.
      destruct (name_in dir path) as [m|] eqn:Em.
      + apply name_in_Some in Em as [-> Hslash]. destruct (decide (m = n)) as [->|Hne].
        * rewrite (bool_decide_true (n ∈ n :: names)) by constructor.
          rewrite (bool_decide_false (n ∈ names)), (bool_decide_true (_ = _)) by done.
          by destruct (too_old maxAge now n).
        * rewrite (bool_decide_false (_ = _)) by (by intros [= ->]%app_inv_head).
          rewrite (bool_decide_ext (m ∈ n :: names) (m ∈ names)); [done|].
          rewrite elem_of_cons. tauto.
      + rewrite bool_decide_false; [done|]. intros ->. congruence. }
  unfold too_old in Hstep at 1.
  destruct (ageOfFileInDays_cases n now) as [[age Eage]|[e Eage]]; rewrite Eage in *.
  - destruct (maxAge <? age) eqn:Hage.
    + rewrite Hpath. unfold try_, on_disk. rewrite !stM_bind_eq.
      rewrite (os_Remove_Some _ c) by done. apply Hstep; [done|].
      intros path. simpl. rewrite andb_true_r. case_bool_decide as H.
      * subst. apply lookup_delete_eq.
      * by apply lookup_delete_ne.
    + rewrite stM_bind_eq. apply Hstep; [done|]. intros path. by rewrite andb_false_r.
  - rewrite stM_bind_eq. apply Hstep; [done|]. intros path. by rewrite andb_false_r.
Qed.

(** Different files of a directory have different names. *)
Lemma names_NoDup dir (l : list (bytes * bytes)) :
  NoDup l.*1 →
  NoDup (omap (λ '(path, c), n ← name_in dir path; Some (n, c)) l).*1.
Proof.
  induction l as [|[p c] l IH]; [done|]. intros [Hp Hl]%NoDup_cons. cbn [omap list_omap].
  destruct (name_in dir p) as [n|] eqn:En; cbn [mbind option_bind]; [|by apply IH].
  apply NoDup_cons. split; [|by apply IH]. intros ([m c1] & Hm & Hin)%list_elem_of_fmap.
  simpl in Hm. subst m. apply list_elem_of_omap in Hin as ([p2 c2] & Hin & Hn2).
  destruct (name_in dir p2) eqn:E2; simplify_eq/=.
  apply name_in_Some in En as [-> _], E2 as [-> _]. apply Hp, list_elem_of_fmap.
  by exists (dir ++ "/" ++ n, c1).
Qed.

Lemma ReadDir_spec dir d :
  no_faults d →
  ∃ names, ReadDir dir d = (Ret names, d) ∧ NoDup names ∧
    ∀ n, n ∈ names ↔ name_in dir (dir ++ "/" ++ n) = Some n ∧
                     is_Some (files d !! (dir ++ "/" ++ n)).
Proof.
  intros Hf. unfold ReadDir. rewrite faulty_none by done. eexists. split; [done|].
  set (l := omap _ (map_to_list (files d))).
  assert (Hl : ∀ n c, (n, c) ∈ l ↔ name_in dir (dir ++ "/" ++ n) = Some n ∧
                                   files d !! (dir ++ "/" ++ n) = Some c).
  { intros n c. unfold l. rewrite list_elem_of_omap. split.
    - intros ([path c'] & Hin%elem_of_map_to_list & Hn).
      destruct (name_in dir path) as [m|] eqn:Em; simplify_eq/=.
      pose proof Em as [-> _]%name_in_Some. done.
    - intros [Hn Hc]. exists (dir ++ "/" ++ n, c). split; [by apply elem_of_map_to_list|].
      rewrite Hn. done. }
  assert (Hnd : NoDup l.*1) by apply names_NoDup, NoDup_fst_map_to_list.
  split.
  - by rewrite (merge_sort_Permutation key_le l).
  - intros n. rewrite (merge_sort_Permutation key_le l), list_elem_of_fmap. split.
    + intros ([m c] & -> & [? ?]%Hl). eauto.
    + intros [Hn [c Hc]]. exists (n, c). split; [done|]. by apply Hl.
Qed.

Lemma deleteOldOutputs_spec dir maxAge now s :
  no_faults (disk s) → tidy dir (files (disk s)) →
  ∃ s', deleteOldOutputs dir maxAge now s = (Ret tt, s') ∧ no_faults (disk s') ∧
    ∀ path, files (disk s') !! path =
      if expired dir maxAge now path then None else files (disk s) !! path.
Proof.
  intros Hf Ht. destruct (ReadDir_spec dir (disk s) Hf) as (names & E & Hnd & Hn).
  unfold deleteOldOutputs, try_, on_disk. rewrite stM_bind_eq, E.
  destruct (delete_old_spec dir maxAge now names
              (mkEnv (stdout s) (calls s) (execs s) (registry s) (dirs s) (disk s) (logger s)
                 (err_logger s))) as (s' & E' & Hf' & Hlk); [done..| |].
  - intros n [Hname [c Hc]]%Hn. split; [done|]. split; [|by exists c].
    by apply (Ht _ _ Hc).
  - exists s'. split; [done|]. split; [done|]. intros path. rewrite Hlk.
    unfold expired. destruct (name_in dir path) as [n|] eqn:En; [|done]. simpl.
    destruct (too_old maxAge now n); [|by rewrite andb_false_r].
    rewrite andb_true_r. case_bool_decide as Hin; [done|].
    rewrite Hn in Hin. pose proof En as [-> _]%name_in_Some.
    destruct (files (disk s) !! _) eqn:Hc; [|done]. exfalso. apply Hin. split; [done|by eexists].
Qed.

(** The files after the outputs of a run have been written. *)
Definition written (dir : bytes) (Data : ResultSinkDataParam) (rec : RunRec)
    (m : gmap bytes bytes) : gmap bytes bytes :=
  let put suffix content m :=
    <[path_Join dir (runTimeToFileName (RunTime rec) suffix) := default [] content]> m in
  let m := if data_Contains Data RESULT_SINK_DATA_STDOUT
           then put FS_SINK_STDOUT_SUFFIX (Stdout rec) m else m in
  if data_Contains Data RESULT_SINK_DATA_STDERR
  then put FS_SINK_STDERR_SUFFIX (Stderr rec) m else m.

Lemma write_output_ok dir suffix t content s :
  no_faults (disk s) →
  write_output dir suffix t content s =
  (Ret tt, mkEnv (stdout s) (calls s) (execs s) (registry s) (dirs s)
             (mkFsys (<[path_Join dir (runTimeToFileName t suffix) := default [] content]>
                        (files (disk s))) (faults (disk s))) (logger s) (err_logger s)).
Proof.
  intros Hf. unfold write_output, try_, on_disk. rewrite stM_bind_eq.
  by rewrite WriteFile_ok.
Qed.

Lemma os_Mkdir_ok dir s :
  no_faults (disk s) →
  ∃ r s', try_ (os_Mkdir dir) s = (Ret r, s') ∧ disk s' = disk s ∧ dir ∈ dirs s' ∧
    (r = inl tt ∨ ∃ e, r = inr e ∧ IsExist e = true).
Proof.
  intros Hf. unfold try_, os_Mkdir, on_disk. rewrite faulty_none by done. simpl.
  case_bool_decide; simpl; eexists _, _; (split; [done|]); simpl; (split; [done|]);
    (split; [set_solver|]); eauto.
Qed.

Lemma fileNameToRunTime_name t suffix :
  suffix = FS_SINK_STDOUT_SUFFIX ∨ suffix = FS_SINK_STDERR_SUFFIX → is_int64 (Unix t) →
  fileNameToRunTime (runTimeToFileName t suffix) = Ret (Unix t * Second_).
Proof.
  intros Hs Ht. unfold fileNameToRunTime, runTimeToFileName.
  replace (Split _ _) with [itoa (Unix t); suffix].
  2:{ symmetry. etrans; [apply (Split_app "."%char (itoa (Unix t)) suffix)|].
      - intros [H|H]%itoa_chars; [done|]. by vm_compute in H.
      - by destruct Hs as [->| ->]. }
  rewrite bool_decide_false by naive_solver.
  unfold Atoi. by rewrite parse_int_itoa.
Qed.

(** A run handled by a filesystem sink has its output written to the two files
    named after its start, as far as they are asked for, and from the job's
    directory exactly the outputs of runs that started at least [MaxAgeDays + 1]
    days ago are deleted; nothing else on the disk changes. *)
Theorem Filesystem_Handle_correct Path Data MaxAgeDays now job rec s :
  no_faults (disk s) →
  tidy (path_Join Path (Name job))
    (written (path_Join Path (Name job)) Data rec (files (disk s))) →
  ∃ s', Filesystem_Handle Path Data MaxAgeDays now job rec s = (Ret tt, s') ∧
    (∀ path, files (disk s') !! path =
       if expired (path_Join Path (Name job)) MaxAgeDays now path then None
       else written (path_Join Path (Name job)) Data rec (files (disk s)) !! path) ∧
    (∀ t suffix, suffix = FS_SINK_STDOUT_SUFFIX ∨ suffix = FS_SINK_STDERR_SUFFIX →
       is_int64 (Unix t) → is_int64 (now - Unix t * Second_) → 0 ≤ MaxAgeDays →
       too_old MaxAgeDays now (runTimeToFileName t suffix) =
       bool_decide ((MaxAgeDays + 1) * (24 * Hour_) ≤ now - Unix t * Second_)).
Proof.
  intros Hf Ht. set (dir := path_Join Path (Name job)) in *.
  destruct (os_Mkdir_ok dir s Hf) as (r & s1 & Emk & Hd1 & _ & Hr).
  assert (Hrest : ∀ s1, disk s1 = disk s → ∃ s',
    ((if data_Contains Data RESULT_SINK_DATA_STDOUT
      then write_output dir FS_SINK_STDOUT_SUFFIX (RunTime rec) (Stdout rec) else mret tt);;
     (if data_Contains Data RESULT_SINK_DATA_STDERR
      then write_output dir FS_SINK_STDERR_SUFFIX (RunTime rec) (Stderr rec) else mret tt);;
     deleteOldOutputs dir MaxAgeDays now) s1 = (Ret tt, s') ∧
    ∀ path, files (disk s') !! path =
      if expired dir MaxAgeDays now path then None
      else written dir Data rec (files (disk s)) !! path).
  { clear s1 Emk Hd1. intros s1 Hd1. unfold written in Ht |- *.
    destruct (data_Contains Data RESULT_SINK_DATA_STDOUT),
      (data_Contains Data RESULT_SINK_DATA_STDERR);
      repeat (rewrite stM_bind_eq;
              first [rewrite write_output_ok by (simpl; by rewrite ?Hd1)|cbn [mret stM_ret]]);
      rewrite ?Hd1 in *;
      (edestruct deleteOldOutputs_spec as (s' & E & _ & Hlk); [| |
         exists s'; split; [exact E|]; simpl in Hlk; rewrite ?Hd1 in Hlk; exact Hlk]);
      simpl; rewrite ?Hd1; done. }
  destruct (Hrest s1 Hd1) as (s' & E & Hlk). exists s'. split.
  { unfold Filesystem_Handle. fold dir. rewrite stM_bind_eq, Emk.
    destruct Hr as [->|(e & -> & He)]; [exact E|]. rewrite He. exact E. }
  split; [exact Hlk|]. intros t suffix Hs Hu Hi Hm. unfold too_old, ageOfFileInDays.
  rewrite fileNameToRunTime_name by done. simpl. unfold Sub, is_int64 in *.
  rewrite Z.min_r, Z.max_r by lia. set (x := now - Unix t * Second_) in *.
  assert (Hday : 0 < 24 * Hour_) by (by vm_compute).
  destruct (Z_lt_le_dec x 0) as [Hx|Hx].
  - assert (Z.quot x (24 * Hour_) ≤ 0).
    { rewrite <- (Z.opp_involutive x), Z.quot_opp_l by lia.
      pose proof (Z.quot_pos (- x) (24 * Hour_)). lia. }
    rewrite bool_decide_false by lia. apply Z.ltb_ge. lia.
  - rewrite Z.quot_div_nonneg by lia. pose proof (Z.div_mod x (24 * Hour_)).
    pose proof (Z.mod_pos_bound x (24 * Hour_)).
    destruct (Z.ltb_spec MaxAgeDays (x / (24 * Hour_))); symmetry;
      [apply bool_decide_eq_true|apply bool_decide_eq_false]; nia.
Qed.

Definition example_rec : RunRec :=
  mkRunRec "backup" (864000 * Second_) JobGood (Some ("out" : bytes)) (Some ("err" : bytes)) SubprocFateSucceeded
    Second_ None.

Definition example_env : Env :=
  mkEnv [] [] [] (mkRegistry ∅ []) ∅
    (mkFsys {["/logs/backup/86400.stdout" : bytes := "old" : bytes]} []) [] [].

Definition example_sink_job : Job := example_job StopErrorHandler.

Lemma tidy_check dir d :
  forallb (λ '(path, _), match name_in dir path with
                         | Some n => bool_decide (path_Join dir n = path)
                         | None => true
                         end) (map_to_list d) = true → tidy dir d.
Proof.
  intros H path c Hc name Hname. rewrite forallb_forall in H.
  assert (Hin : (path, c) ∈ map_to_list d) by by apply elem_of_map_to_list.
  apply list_elem_of_In, H in Hin. simpl in Hin. rewrite Hname in Hin.
  by apply bool_decide_eq_true in Hin.
Qed.

Lemma Filesystem_Handle_correct_witness :
  ∃ s', Filesystem_Handle "/logs" 3 7 (864001 * Second_) example_sink_job example_rec
          example_env = (Ret tt, s') ∧
    files (disk s') !! ("/logs/backup/864000.stdout" : bytes) = Some ("out" : bytes) ∧
    files (disk s') !! ("/logs/backup/86400.stdout" : bytes) = None.
Proof.
  destruct (Filesystem_Handle_correct "/logs" 3 7 (864001 * Second_) example_sink_job
              example_rec example_env) as (s' & E & Hlk & _).
  - done.
  - apply tidy_check. vm_compute. reflexivity.
  - exists s'. split; [exact E|]. split; rewrite Hlk; vm_compute; reflexivity.
Defined.

(** ** What the sinks do not do *)

(** A program sink whose configuration gives no version keeps version 0,
    although [CheckParams] is written to set the current one, so its program is
    handed the old format; and the field for the standard error of the current
    format holds the standard output. *)
Theorem sink_formats `{Location} (HY : Yaml) (HOk : YamlOk HY) path rec job s :
  path ≠ [] →
  MakeResultSinkFromConfig
    (<["type" : bytes := YString PROGRAM_RESULT_SINK_NAME]>
     {["path" : bytes := YString path]}) = Ret (ProgramResultSink path SemVer_zero) ∧
  calls (Program_Handle path SemVer_zero job rec s).2 =
    calls s ++ [([path], serializeRunRec_oldFormat job rec)] ∧
  run_rec_fields job rec RESULT_SINK_DATA_STDERR =
    run_rec_fields job rec 0 ++ [output_field rec "stderr" "stderrBase64"] ∧
  (output_field rec "stderr" "stderrBase64").2 = (output_field rec "stdout" "stdoutBase64").2.
Proof.
  intros Hp. split; [|split; [|split]].
  - unfold MakeResultSinkFromConfig. rewrite lookup_insert_eq, delete_insert_id by done.
    unfold decode_sink. rewrite bool_decide_false, bool_decide_true by done.
    assert (returns (strict_fields ({["path" : bytes := YString path]} : ResultSinkRaw)
                       ["path" : bytes; "runRecFormatVersion" : bytes])) as [[] E].
    { apply keys_field_of. intros k v [<- _]%lookup_singleton_Some. constructor. }
    rewrite E. cbn [mbind outcome_bind].
    rewrite (field_of as_string _ _ "path" (YString path)) by (by simplify_map_eq).
    rewrite as_string_ok. cbn [mbind outcome_bind]. unfold version_field, field at 1.
    rewrite lookup_singleton_ne by done. unfold loadSinkParams. simpl.
    unfold Program_CheckParams. by rewrite bool_decide_false.
  - unfold Program_Handle, try_, ExecAndWait. rewrite stM_bind_eq. simpl.
    destruct (execs s) as [|[res|e|msg|] rs]; try done. by destruct (exec_Fate res).
  - done.
  - unfold output_field. by destruct (SafeBytesToStr _).
Qed.

Lemma sink_formats_witness :
  calls (Program_Handle (H:=UTC) "/bin/p" SemVer_zero example_sink_job example_rec example_env).2 =
  [(["/bin/p" : bytes], serializeRunRec_oldFormat (H:=UTC) example_sink_job example_rec)].
Proof.
  destruct (sink_formats (H:=UTC) example_yaml example_yaml_ok "/bin/p" example_rec
              example_sink_job example_env) as (_ & E & _); [done|]. exact E.
Defined.

(** A program or [sendmail] that cannot be started ends the process: the deferred
    [Close] is called on a nil result. *)
Lemma unstartable_subprocess_panics `{Location} now sink job rec s :
  execs s = [] → (sink = SystemEmailResultSink ∨ ∃ p v, sink = ProgramResultSink p v) →
  ∃ s', sink_Handle now sink job rec s = (Panic nil_dereference, s').
Proof.
  intros He [->|(p & v & ->)]; simpl.
  - unfold SystemEmail_Handle, try_, ExecAndWait. rewrite stM_bind_eq, He. by eexists.
  - unfold Program_Handle, try_, ExecAndWait. rewrite stM_bind_eq, He. by eexists.
Qed.
