(* ===== verification/Exec.v ===== *)
(** * Subprocesses ([common/exec.go])

    [ExecAndWaitContext] runs a subprocess with its output going to two temporary
    files; whoever gets its result reads the files and calls [Close], which removes
    them.  What the operating system answers to each call is the record [Subproc]; the
    state is the set of temporary files there are.  [exec_answer] is what a caller is
    told, without the files; the theorem says that it is, and which files are left when
    the caller has closed the result. *)

From S2P Require Import Prelude GoStrings Job ResultSink.

Open Scope nat_scope.
Open Scope bytes_scope.
Open Scope list_scope.

(** ** The operating system *)

(** How the wait for a subprocess ends: it exits with success, it exits otherwise
    ([exec.ExitError]), or the wait fails. *)
Inductive wait_result := ExitOk | ExitError | WaitFailed (e : error).

Record Subproc := mkSubproc {
  tmp_stdout : outcome bytes;     (** the names of the two temporary files *)
  tmp_stderr : outcome bytes;
  stdin_pipe : outcome unit;
  started : outcome unit;
  waited : wait_result;
  did_cancel : bool;              (** the context was cancelled before the end *)
  seek_stdout : outcome unit;
  seek_stderr : outcome unit;
  written_stdout : outcome bytes; (** what reading the files gives in the end *)
  written_stderr : outcome bytes
}.

Definition wrap_exec (what : bytes) (m : outcome unit) : outcome unit :=
  match m with Fail e => Fail (CommonError what (Some e)) | m => m end.

(** ** Temporary files *)

#[local] Abbreviation T := (stM (gset bytes)).

(** [ioutil.TempFile] *)
Definition TempFile (answer : outcome bytes) : T bytes :=
  name ← liftS answer; modifyS (λ s, {[name]} ∪ s);; mret name.

Definition cleanUpTempfile (name : bytes) : T unit := modifyS (λ s, s ∖ {[name]}).

(** An [ExecResult] with the names of its files; [None] is a nil field. *)
Record OpenResult := mkOpenResult {
  res_Stdout : option bytes;
  res_Stderr : option bytes;
  result : ExecResult
}.

Definition close_field (field : option bytes) : T unit :=
  match field with
  | None => mret tt
  | Some name => cleanUpTempfile name
  end.

Definition Close (self : OpenResult) : T OpenResult :=
  close_field (res_Stdout self);;
  close_field (res_Stderr self);;
  mret (mkOpenResult None None (result self)).

(** ** Running a subprocess *)

(** The end of a subprocess that could not be finished: both files are removed. *)
Definition discard_files {A} (stdout stderr : bytes) (e : error) : T A :=
  cleanUpTempfile stdout;; cleanUpTempfile stderr;; failS e.

Definition exec_fate (p : Subproc) : SubprocFate :=
  match waited p with
  | ExitOk => SubprocFateSucceeded
  | _ => if did_cancel p then SubprocFateCancelled else SubprocFateFailed
  end.

Definition ExecAndWaitContext (p : Subproc) : T OpenResult :=
  stdout ← TempFile (tmp_stdout p);
  made ← try_ (TempFile (tmp_stderr p));
  match made with
  | inr e => cleanUpTempfile stdout;; failS e
  | inl stderr =>
     liftS (wrap_exec "Failed to get pipe to stdin" (stdin_pipe p));;
     liftS (wrap_exec "Failed to fork" (started p));;
     match waited p with
     | WaitFailed e => failS (CommonError "Failed to fork" (Some e))
     | _ =>
        r ← try_ (liftS (wrap_exec "Failed to seek stdout" (seek_stdout p)));
        match r with
        | inr e => discard_files stdout stderr e
        | inl _ =>
           r ← try_ (liftS (wrap_exec "Failed to seek stderr" (seek_stderr p)));
           match r with
           | inr e => discard_files stdout stderr e
           | inl _ =>
              mret (mkOpenResult (Some stdout) (Some stderr)
                      (mkExecResult (written_stdout p) (written_stderr p) (exec_fate p)))
           end
        end
     end
  end.

(** What the callers do: they use the result and close it when they return. *)
Definition with_subprocess {A} (p : Subproc) (use : outcome ExecResult → A) : T A :=
  r ← try_ (ExecAndWaitContext p);
  match r with
  | inr e => mret (use (Fail e))
  | inl res => let a := use (Ret (result res)) in Close res;; mret a
  end.

(** ** What a caller is told, and what is left *)

(** The first call that fails decides. *)
Definition exec_answer (p : Subproc) : outcome ExecResult :=
  tmp_stdout p;;
  tmp_stderr p;;
  wrap_exec "Failed to get pipe to stdin" (stdin_pipe p);;
  wrap_exec "Failed to fork" (started p);;
  match waited p with
  | WaitFailed e => Fail (CommonError "Failed to fork" (Some e))
  | _ =>
     wrap_exec "Failed to seek stdout" (seek_stdout p);;
     wrap_exec "Failed to seek stderr" (seek_stderr p);;
     Ret (mkExecResult (written_stdout p) (written_stderr p) (exec_fate p))
  end.

(** Whether the files were made, but the subprocess did not get as far as to exit *)
Definition leaked (p : Subproc) : gset bytes :=
  match tmp_stdout p, tmp_stderr p with
  | Ret stdout, Ret stderr =>
     match stdin_pipe p, started p, waited p with
     | Ret _, Ret _, (ExitOk | ExitError) => ∅
     | _, _, _ => {[stdout; stderr]}
     end
  | _, _ => ∅
  end.

(** Every call returns something; a temporary file is a new one. *)
Definition subproc_ok (p : Subproc) (s : gset bytes) : Prop :=
  answers (tmp_stdout p) ∧ answers (tmp_stderr p) ∧ answers (stdin_pipe p) ∧
  answers (started p) ∧ answers (seek_stdout p) ∧ answers (seek_stderr p) ∧
  (∀ stdout, tmp_stdout p = Ret stdout → stdout ∉ s) ∧
  (∀ stderr, tmp_stderr p = Ret stderr → stderr ∉ s).

(** Whatever becomes of a subprocess, its caller is told of the first call that failed,
    or is given its output and its fate.  When the caller has returned no temporary
    file is left, unless the subprocess could not be started or waited for: then both
    stay for ever, since the error paths between their creation and the end of the
    subprocess do not remove them. *)
Theorem with_subprocess_eq {A} (p : Subproc) (use : outcome ExecResult → A) (s : gset bytes) :
  subproc_ok p s → with_subprocess p use s = (Ret (use (exec_answer p)), s ∪ leaked p).
Proof.
  intros (Ho & He & Hp & Hs & H1 & H2 & Hno & Hne).
  destruct p as [[stdout|eo| |] [stderr|ee| |] [[]|ep| |] [[]|es| |] w dc [[]|e1| |] [[]|e2| |] wo we];
    cbn in Ho, He, Hp, Hs, H1, H2; try done;
    try (specialize (Hno _ eq_refl)); try (specialize (Hne _ eq_refl));
    try destruct w; unfold with_subprocess, ExecAndWaitContext, Close, discard_files; cbn;
    unfold try_, TempFile, cleanUpTempfile, modifyS, liftS, failS, mret, stM_ret, mbind, stM_bind;
    cbn; f_equal; apply set_eq; intros x; set_solver.
Qed.

(** ** The goroutine that cancels

    When the context of a run is cancelled, a goroutine cancels the context of the
    subprocess, which kills it, and then sets [didCancel]; [ExecAndWaitContext] reads
    that variable once [Wait] has returned.  Nothing orders the two accesses. *)

(** At its [select]; between the call of [cancelSubproc] and the assignment; past it *)
Inductive canceller := Watching | Killed | Noted.

Record Cancelling := mkCancelling {
  ctx_done : bool;
  goroutine : canceller;
  exit_of : option wait_result;      (** what [Wait] has returned *)
  fate_of : option SubprocFate       (** the fate in the result *)
}.

(** [XCancel]: the context is cancelled.  [XKill], [XNote]: the goroutine finds it so and
    kills the subprocess; it sets [didCancel].  [XExit]: [Wait] returns.  [XDecide]:
    [didCancel] is read. *)
Inductive cancel_event := XCancel | XKill | XNote | XExit (w : wait_result) | XDecide.

Definition didCancel (s : Cancelling) : bool := match goroutine s with Noted => true | _ => false end.

(** The calls of a subprocess that is started and ends with [w] *)
Definition finished (w : wait_result) (cancelled : bool) : Subproc :=
  mkSubproc (Ret []) (Ret []) (Ret tt) (Ret tt) w cancelled (Ret tt) (Ret tt) (Ret []) (Ret []).

Definition cancel_step (ev : cancel_event) (s : Cancelling) : Cancelling :=
  match ev, goroutine s, exit_of s, fate_of s with
  | XCancel, _, _, _ => mkCancelling true (goroutine s) (exit_of s) (fate_of s)
  | XKill, Watching, _, None => if ctx_done s then mkCancelling true Killed (exit_of s) None else s
  | XNote, Killed, _, _ => mkCancelling (ctx_done s) Noted (exit_of s) (fate_of s)
  | XExit w, _, None, _ => mkCancelling (ctx_done s) (goroutine s) (Some w) (fate_of s)
  | XDecide, _, Some ((ExitOk | ExitError) as w), None =>
     mkCancelling (ctx_done s) (goroutine s) (exit_of s) (Some (exec_fate (finished w (didCancel s))))
  | _, _, _, _ => s
  end.

Definition cancel_run (evs : list cancel_event) : Cancelling :=
  foldl (λ s ev, cancel_step ev s) (mkCancelling false Watching None None) evs.

Definition cancel_ok (s : Cancelling) : Prop :=
  (goroutine s ≠ Watching → ctx_done s = true) ∧
  match fate_of s, exit_of s with
  | None, _ => True
  | Some f, Some ExitOk => f = SubprocFateSucceeded
  | Some f, Some ExitError => f = SubprocFateFailed ∨ f = SubprocFateCancelled ∧ goroutine s = Noted
  | Some _, _ => False
  end.

Lemma cancel_step_ok ev s : cancel_ok s → cancel_ok (cancel_step ev s).
Proof.
  destruct s as [cd g ex ft]. intros [Hc Hf]. cbn in Hc, Hf.
  destruct ev as [| | |w|]; unfold cancel_step; cbn [ctx_done goroutine exit_of fate_of].
  - by split.
  - destruct g, ft; try by split. by destruct cd.
  - destruct g; try by split. split; [intros _; by apply Hc|]. cbn.
    destruct ft, ex as [[| |e]|]; try done. destruct Hf as [->|[-> _]]; [by left|by right].
  - destruct ex; [by split|]. split; [done|]. by destruct ft.
  - destruct ex as [[| |e]|], ft; try by split. split; [done|]. cbn.
    destruct g; [by left..|by right].
Qed.

(** What a fate tells: the subprocess has succeeded exactly if its exit status was zero;
    and if it is said to have been cancelled, the context was and the subprocess was
    killed.  The converse of the latter fails. *)
Theorem fate_sound evs f :
  let s := cancel_run evs in
  fate_of s = Some f →
  (f = SubprocFateSucceeded ↔ exit_of s = Some ExitOk) ∧
  (f = SubprocFateCancelled → ctx_done s = true ∧ goroutine s = Noted ∧ exit_of s = Some ExitError) ∧
  (f = SubprocFateFailed → exit_of s = Some ExitError).
Proof.
  intros s Hf.
  assert (Hok : cancel_ok s).
  { unfold s, cancel_run. assert (H0 : cancel_ok (mkCancelling false Watching None None)) by done.
    revert H0. generalize (mkCancelling false Watching None None). clear s Hf.
    induction evs as [|ev evs IH]; intros s Hs; [done|]. by apply IH, cancel_step_ok. }
  destruct Hok as [Hc H]. rewrite Hf in H. clearbody s.
  destruct (exit_of s) as [[| |e]|]; [subst f; by split_and!| |done..].
  destruct H as [->|[-> Hg]]; split_and!; try done. intros _. split; [|done]. apply Hc. by rewrite Hg.
Qed.

(** A run that is killed because it was cancelled can be recorded as failed: between the
    kill and the assignment the subprocess has time to exit and to be waited for. *)
Theorem cancelled_run_fails :
  ∃ evs, let s := cancel_run evs in
    ctx_done s = true ∧ exit_of s = Some ExitError ∧ fate_of s = Some SubprocFateFailed ∧ goroutine s = Noted.
Proof. by exists [XCancel; XKill; XExit ExitError; XDecide; XNote]. Qed.

Lemma fate_sound_witness :
  let s := cancel_run [XCancel; XKill; XNote; XExit ExitError; XDecide] in
  fate_of s = Some SubprocFateCancelled ∧ ctx_done s = true.
Proof.
  split; [reflexivity|].
  destruct (fate_sound [XCancel; XKill; XNote; XExit ExitError; XDecide] SubprocFateCancelled eq_refl)
    as (_ & Hc & _).
  exact (proj1 (Hc eq_refl)).
Defined.
