(* ===== verification/Sections.v ===== *)
(** * The sections of a legacy jobfile ([findSections] of [jobfile/job_file.go])

    Jobfiles up to version 1.3 consist of sections, each begun by a line
    [[name]]; older ones have no such line, and are one section "jobs".  The file
    is read by a [bufio.Scanner], which stops at a line that does not fit its
    buffer.  The theorem: printing sections and finding them again gives the
    sections back. *)

From S2P Require Import Prelude GoStrings.

Open Scope bytes_scope.
Open Scope list_scope.

Definition PrefsSectName : bytes := "prefs".
Definition JobsSectName : bytes := "jobs".

(** ** [bufio.Scanner] with [ScanLines] *)

Definition MaxScanTokenSize : Z := 65536.

Definition carriage_return : ascii := ascii_of_nat 13.

(** One carriage return before the end of a line is not part of it. *)
Definition dropCR (line : bytes) : bytes :=
  match last line with
  | Some c => if bool_decide (c = carriage_return) then take (length line - 1) line else line
  | None => line
  end.

(** The scanner stops, silently, at the first line that with its newline is longer
    than its buffer. *)
Fixpoint scan_lines (raw : list bytes) : list bytes :=
  match raw with
  | [] => []
  | [last] => if bool_decide (last = []) then []
              else if (Z.of_nat (length last) <? MaxScanTokenSize)%Z then [dropCR last] else []
  | line :: raw =>
     if (Z.of_nat (length line) <? MaxScanTokenSize)%Z then dropCR line :: scan_lines raw else []
  end.

Definition ScanLines (content : bytes) : list bytes := scan_lines (Split content [newline]).

(** ** The line that begins a section: a word in brackets, then white space *)

Definition is_word_char (c : ascii) : bool :=
  is_digit c ||
  ((65 <=? code c) && (code c <=? 90) || (97 <=? code c) && (code c <=? 122))%Z ||
  bool_decide (c = "_"%char).

Definition is_regexp_space (c : ascii) : bool :=
  bool_decide (c = tab ∨ c = newline ∨ c = ascii_of_nat 12 ∨ c = carriage_return ∨
               c = " "%char).

(** The characters up to the first that is not a word character. *)
Fixpoint span_word (s : bytes) : bytes * bytes :=
  match s with
  | c :: s' => if is_word_char c then let '(w, rest) := span_word s' in (c :: w, rest)
               else ([], s)
  | [] => ([], [])
  end.

Definition match_section (line : bytes) : option bytes :=
  match strip_prefix "[" line with
  | None => None
  | Some s =>
     let '(name, rest) := span_word s in
     match strip_prefix "]" rest with
     | Some rest => if forallb is_regexp_space rest then Some name else None
     | None => None
     end
  end.

(** ** [findSections] *)

Abbreviation sections := (gmap bytes (list bytes)).

(** An empty line or a comment before the first section is skipped. *)
Definition skipped (line : bytes) : bool :=
  match TrimSpace line with
  | [] => true
  | c :: _ => bool_decide (c = "#"%char)
  end.

(** The first loop: up to the first line that counts.  The result is the sections
    so far, whether the file has the legacy format, the current section and the
    lines left, with the number of the last line read. *)
Fixpoint first_section (lineNbr : nat) (lines : list bytes)
    : option (sections * bool * bytes) * nat * list bytes :=
  match lines with
  | [] => (None, lineNbr, [])
  | line :: lines =>
     if skipped line then first_section (S lineNbr) lines
     else
       match match_section line with
       | Some sectName => (Some ({[sectName := []]}, false, sectName), S lineNbr, lines)
       | None => (Some ({[JobsSectName := [line]]}, true, JobsSectName), S lineNbr, lines)
       end
  end.

Definition append_line (sectionsToLines : sections) (currSection line : bytes) : sections :=
  <[currSection := default [] (sectionsToLines !! currSection) ++ [line]]> sectionsToLines.

(** The second loop. *)
Fixpoint rest_sections (legacyFormat : bool) (lineNbr : nat) (sectionsToLines : sections)
    (currSection : bytes) (lines : list bytes) : outcome sections :=
  match lines with
  | [] => Ret sectionsToLines
  | line :: lines =>
     if legacyFormat then
       rest_sections legacyFormat (S lineNbr) (append_line sectionsToLines currSection line)
         currSection lines
     else
       match match_section line with
       | Some sectName =>
          match sectionsToLines !! sectName with
          | Some _ =>
             Fail (CommonError ("Line " ++ itoa (Z.of_nat (S lineNbr)) ++
                                ": another section called " ++ dquote sectName ++ ".") None)
          | None =>
             rest_sections legacyFormat (S lineNbr) (<[sectName := []]> sectionsToLines)
               sectName lines
          end
       | None =>
          rest_sections legacyFormat (S lineNbr) (append_line sectionsToLines currSection line)
            currSection lines
       end
  end.

Definition findSections (content : bytes) : outcome (gmap bytes bytes) :=
  let '(first, lineNbr, lines) := first_section 0 (ScanLines content) in
  sectionsToLines ← match first with
                    | None => Ret ∅
                    | Some (m, legacy, curr) => rest_sections legacy lineNbr m curr lines
                    end;
  Ret ((λ lines, Join lines [newline]) <$> (sectionsToLines : gmap bytes (list bytes))).

Example findSections_new :
  findSections ("# c" ++ [newline] ++ "[prefs]" ++ [newline] ++ "a: 1" ++ [newline] ++
                "[jobs]" ++ [newline] ++ "- b" ++ [newline] ++ "- c") =
  Ret (<["prefs" : bytes := "a: 1" : bytes]> {["jobs" : bytes := "- b" ++ [newline] ++ "- c"]}).
Proof. vm_compute. reflexivity. Qed.

Example findSections_legacy :
  findSections ("- b" ++ [newline] ++ "[x]" ++ [newline]) =
  Ret {["jobs" : bytes := "- b" ++ [newline] ++ "[x]"]}.
Proof. vm_compute. reflexivity. Qed.

(** ** Printing sections *)

Definition header (name : bytes) : bytes := "[" ++ name ++ "]".

Definition section_lines (l : list (bytes * list bytes)) : list bytes :=
  flat_map (λ s, header s.1 :: s.2) l.

Definition print_sections (l : list (bytes * list bytes)) : bytes :=
  concat (map (λ line, line ++ [newline]) (section_lines l)).

Definition section_contents (l : list (bytes * list bytes)) : gmap bytes bytes :=
  (λ lines, Join lines [newline]) <$> (list_to_map l : gmap bytes (list bytes)).

(** A line the scanner returns as it is. *)
Definition whole_line (line : bytes) : Prop :=
  newline ∉ line ∧ last line ≠ Some carriage_return ∧ (Z.of_nat (length line) < MaxScanTokenSize)%Z.

Definition section_ok (s : bytes * list bytes) : Prop :=
  forallb is_word_char s.1 = true ∧ (Z.of_nat (length (header s.1)) < MaxScanTokenSize)%Z ∧
  Forall (λ line, whole_line line ∧ match_section line = None) s.2.

(** ** Lemmas *)

Lemma dropCR_whole line : whole_line line → dropCR line = line.
Proof.
  intros (_ & Hl & _). unfold dropCR. destruct (last line) as [c|]; [|done].
  case_bool_decide; [|done]. congruence.
Qed.

Lemma scan_whole lines :
  Forall whole_line lines → scan_lines (lines ++ [[]]) = lines.
Proof.
  induction 1 as [|line lines Hl _ IH]; [done|].
  assert (E : ∀ l, l ≠ [] → scan_lines (line :: l) = line :: scan_lines l).
  { intros [|x l] Hne; [done|]. cbn [scan_lines]. pose proof Hl as (_ & _ & Hlen).
    apply Z.ltb_lt in Hlen. rewrite Hlen. by rewrite dropCR_whole. }
  change ((line :: lines) ++ [[]]) with (line :: (lines ++ [[]] : list bytes)).
  rewrite E by (by destruct lines). by rewrite IH.
Qed.

Lemma ScanLines_whole lines :
  Forall whole_line lines →
  ScanLines (concat (map (λ line, line ++ [newline]) lines)) = lines.
Proof.
  intros Hl. unfold ScanLines. rewrite <- (app_nil_r (concat _)), Split_lines.
  - by apply scan_whole.
  - eapply Forall_impl; [exact Hl|]. by intros line (? & _).
  - apply not_elem_of_nil.
Qed.

Lemma span_word_all w c rest :
  forallb is_word_char w = true → is_word_char c = false →
  span_word (w ++ c :: rest) = (w, c :: rest).
Proof.
  intros Hw Hc. induction w as [|x w IH]; simpl in *; [by rewrite Hc|].
  apply andb_true_iff in Hw as [-> Hw]. by rewrite IH.
Qed.

Lemma match_header name : forallb is_word_char name = true → match_section (header name) = Some name.
Proof.
  intros Hn. unfold match_section, header.
  assert (strip_prefix "[" ("[" ++ name ++ "]") = Some (name ++ "]")) as ->
    by by apply strip_prefix_Some.
  rewrite (span_word_all name "]"%char []) by done. done.
Qed.

Lemma header_not_skipped name : skipped (header name) = false.
Proof. done. Qed.

Lemma header_whole name :
  forallb is_word_char name = true → (Z.of_nat (length (header name)) < MaxScanTokenSize)%Z →
  whole_line (header name).
Proof.
  intros Hn Hl. split; [|split; [|done]].
  - unfold header. rewrite !elem_of_app. intros [H|[H|H]].
    + by apply list_elem_of_singleton in H.
    + apply list_elem_of_In in H. rewrite forallb_forall in Hn. by apply Hn in H.
    + by apply list_elem_of_singleton in H.
  - unfold header. rewrite app_assoc, last_snoc. done.
Qed.

Lemma rest_lines (n : nat) (m : sections) curr old lines more :
  m !! curr = Some old → Forall (λ line, match_section line = None) lines →
  rest_sections false n m curr (lines ++ more) =
  rest_sections false (n + length lines) (<[curr := old ++ lines]> m) curr more.
Proof.
  intros Hm Hl. revert n m old Hm. induction Hl as [|line lines Hline _ IH]; intros n m old Hm.
  - simpl. by rewrite app_nil_r, Nat.add_0_r, insert_id.
  - simpl. rewrite Hline. unfold append_line. rewrite Hm. simpl.
    rewrite (IH _ _ (old ++ [line])) by (by rewrite lookup_insert_eq).
    by rewrite insert_insert_eq, <- app_assoc, Nat.add_succ_r.
Qed.

Lemma rest_sections_spec (l : list (bytes * list bytes)) (n : nat) (m : sections) curr :
  is_Some (m !! curr) → Forall section_ok l → NoDup l.*1 →
  (∀ name, name ∈ l.*1 → m !! name = None) →
  rest_sections false n m curr (section_lines l) =
  Ret ((list_to_map l : gmap bytes (list bytes)) ∪ m).
Proof.
  revert n m curr. induction l as [|[name lines] l IH]; intros n m curr Hc Hok Hnd Hnew.
  { simpl. by rewrite (left_id_L ∅ (∪)). }
  apply Forall_cons in Hok as [(Hw & Hlen & Hlines) Hok].
  apply NoDup_cons in Hnd as [Hni Hnd]. cbn [fst snd] in Hw, Hlen, Hlines, Hni.
  change (section_lines ((name, lines) :: l)) with (header name :: (lines ++ section_lines l)).
  cbn [rest_sections]. rewrite match_header by done.
  rewrite (Hnew name) by constructor.
  rewrite (rest_lines _ _ _ []) by
    (first [by rewrite lookup_insert_eq
           |eapply Forall_impl; [exact Hlines|]; by intros line (_ & ?)]).
  rewrite insert_insert_eq. simpl. rewrite IH.
  - f_equal. rewrite <- insert_union_r by (by apply not_elem_of_list_to_map_1).
    by rewrite insert_union_l.
  - rewrite lookup_insert_eq. by eexists.
  - done.
  - done.
  - intros x Hx. rewrite lookup_insert_ne by (intros ->; done). apply Hnew. by constructor.
Qed.

(** A legacy jobfile printed from its sections is read back as these sections:
    [findSections] gives, for each name, its lines joined by newlines.  (The names
    are words, no line begins a section, and no line is too long for the scanner.) *)
Theorem findSections_printed l :
  Forall section_ok l → NoDup l.*1 →
  findSections (print_sections l) = Ret (section_contents l).
Proof.
  intros Hok Hnd. unfold findSections, print_sections. rewrite ScanLines_whole.
  2:{ apply Forall_flat_map. eapply Forall_impl; [exact Hok|].
      intros [name lines] (Hw & Hlen & Hlines). constructor; [by apply header_whole|].
      eapply Forall_impl; [exact Hlines|]. by intros line (? & _). }
  destruct l as [|[name lines] l]; [done|].
  pose proof Hok as [(Hw & Hlen & Hlines) Hok']%Forall_cons.
  apply NoDup_cons in Hnd as [Hni Hnd]. cbn [fst snd] in Hw, Hlen, Hlines, Hni.
  change (section_lines ((name, lines) :: l)) with (header name :: (lines ++ section_lines l)).
  cbn [first_section]. rewrite header_not_skipped, match_header by done.
  rewrite (rest_lines _ _ _ []) by
    (first [by rewrite lookup_singleton_eq
           |eapply Forall_impl; [exact Hlines|]; by intros line (_ & ?)]).
  rewrite rest_sections_spec.
  - unfold section_contents. rewrite list_to_map_cons, insert_singleton_eq.
    cbn [mbind outcome_bind]. do 2 f_equal. symmetry.
    by apply insert_union_singleton_r, not_elem_of_list_to_map_1.
  - rewrite lookup_insert_eq. by eexists.
  - done.
  - done.
  - intros x Hx. rewrite lookup_insert_ne by (intros ->; done).
    rewrite lookup_singleton_ne; [done|]. by intros ->.
Qed.

Lemma findSections_printed_witness :
  findSections (print_sections [("prefs", ["a: 1"]); ("jobs", ["- b"; "- c"])])%bytes =
  Ret (section_contents [("prefs", ["a: 1"]); ("jobs", ["- b"; "- c"])])%bytes.
Proof.
  apply findSections_printed.
  - repeat constructor; try done; by apply (bool_decide_eq_false (newline ∈ _)).
  - by apply (bool_decide_eq_true (NoDup _)); vm_compute.
Defined.

(** A line that is too long ends the file, silently: [findSections] does not ask the
    scanner for its error. *)
Lemma long_line_ends_scan line rest :
  newline ∉ line → (MaxScanTokenSize ≤ Z.of_nat (length line))%Z →
  ScanLines (line ++ newline :: rest) = [].
Proof.
  intros Hn Hl. unfold ScanLines. rewrite Split_app by done.
  assert (∃ x l, Split rest [newline] = x :: l) as (x & l & ->).
  { pose proof (Split_nonempty rest [newline]). destruct (Split rest [newline]); eauto; done. }
  cbn [scan_lines]. by destruct (Z.ltb_spec (Z.of_nat (length line)) MaxScanTokenSize); [lia|].
Qed.
