(* ===== verification/Logging.v ===== *)
(** * The loggers ([common/logging.go])

    Two global loggers write to the standard streams, to files or to syslog; the
    files they write to are the ones the package has open, so that no file stays
    open unused and no logger writes to a closed one. *)

From S2P Require Import Prelude.

Open Scope nat_scope.
Open Scope bytes_scope.
Open Scope list_scope.

(** ** State *)

(** What a logger writes to; a file is known by the number of its handle. *)
Inductive writer := WStdout | WStderr | WFile (h : nat) | WSyslogInfo | WSyslogErr.

(** [open_files]: the path of every log file that is open; [next_handle] is the next
    number; [err_log]: what was printed on [ErrLogger]. *)
Record logging := mkLogging {
  Logger : list writer;
  ErrLogger : list writer;
  gLogFileHandles : list nat;
  open_files : gmap nat bytes;
  next_handle : nat;
  err_log : list bytes
}.

Definition initial_logging : logging := mkLogging [WStdout] [WStderr] [] ∅ 0 [].

#[local] Abbreviation L := (stM logging).

(** ** Operations *)

Fixpoint close_all (hs : list nat) (files : gmap nat bytes) : gmap nat bytes :=
  match hs with
  | [] => files
  | h :: hs => close_all hs (delete h files)
  end.

Definition saveLogFileHandles (handles : list nat) : L unit := modifyS (λ s,
  mkLogging (Logger s) (ErrLogger s) handles (close_all (gLogFileHandles s) (open_files s)) (next_handle s) (err_log s)).

Definition set_loggers (out err : list writer) : L unit := modifyS (λ s,
  mkLogging out err (gLogFileHandles s) (open_files s) (next_handle s) (err_log s)).

Definition LogAllToStderr : L unit := saveLogFileHandles [];; set_loggers [WStderr] [WStderr].
Definition LogToStdoutStderr : L unit := saveLogFileHandles [];; set_loggers [WStdout] [WStderr].

(** [syslog.NewLogger] may fail, for each of the two loggers. *)
Definition UseSyslog (info err : outcome unit) : L unit :=
  liftS info;; liftS err;;
  saveLogFileHandles [];; set_loggers [WSyslogInfo] [WSyslogErr].

Section Files.
(** Whether a log file can be opened. *)
Variable can_open : bytes → bool.

(** [os.OpenFile]: the number of the new handle *)
Definition os_OpenFile (path : bytes) : L (option nat) := λ s,
  if can_open path then
    (Ret (Some (next_handle s)),
     mkLogging (Logger s) (ErrLogger s) (gLogFileHandles s) (<[next_handle s := path]> (open_files s)) (S (next_handle s)) (err_log s))
  else (Ret None, s).

Definition close_file (h : nat) : L unit := modifyS (λ s,
  mkLogging (Logger s) (ErrLogger s) (gLogFileHandles s) (delete h (open_files s)) (next_handle s) (err_log s)).

Definition print_error (path : bytes) : L unit := modifyS (λ s,
  mkLogging (Logger s) (ErrLogger s) (gLogFileHandles s) (open_files s) (next_handle s)
    (err_log s ++ ["Failed to open log file " ++ path])).

Definition SetLogFile (paths : list bytes) : L unit :=
  match paths with
  | [path] =>
     f ← os_OpenFile path;
     match f with
     | None => print_error path
     | Some f =>
        saveLogFileHandles [f];; set_loggers [WStdout; WFile f] [WStderr; WFile f]
     end
  | [path; err_path] =>
     outF ← os_OpenFile path;
     match outF with
     | None => print_error path
     | Some outF =>
        errF ← os_OpenFile err_path;
        match errF with
        | None => close_file outF;; print_error err_path
        | Some errF =>
           saveLogFileHandles [outF; errF];;
           set_loggers [WStdout; WFile outF] [WStderr; WFile errF]
        end
     end
  | _ => panicS "Invalid paths arg"
  end.

(** ** The invariant *)

(** The files a logger writes to *)
Definition files_of (ws : list writer) : list nat :=
  omap (λ w, match w with WFile h => Some h | _ => None end) ws.

Definition logging_ok (s : logging) : Prop :=
  (∀ h, is_Some (open_files s !! h) ↔ h ∈ gLogFileHandles s) ∧
  (∀ h, h ∈ gLogFileHandles s ↔ h ∈ files_of (Logger s) ++ files_of (ErrLogger s)) ∧
  (∀ h, h ∈ gLogFileHandles s → h < next_handle s).

Lemma close_all_lookup hs (files : gmap nat bytes) h :
  is_Some (close_all hs files !! h) ↔ is_Some (files !! h) ∧ h ∉ hs.
Proof.
  revert files. induction hs as [|h' hs IH]; intros files; cbn [close_all]; [set_solver|].
  rewrite IH, lookup_delete_is_Some. set_solver.
Qed.

(** New files are open besides those that were: the old ones are closed and the loggers write
    to the new ones. *)
Lemma switch_ok s hs out err (files : gmap nat bytes) n log :
  logging_ok s → next_handle s ≤ n → (∀ h, h ∈ hs → next_handle s ≤ h < n) →
  (∀ h, is_Some (files !! h) ↔ is_Some (open_files s !! h) ∨ h ∈ hs) →
  (∀ h, h ∈ hs ↔ h ∈ files_of out ++ files_of err) →
  logging_ok (mkLogging out err hs (close_all (gLogFileHandles s) files) n log).
Proof.
  intros (Ho & _ & Hh) Hn Hnew Hfiles Hused. split; [|split]; cbn [open_files gLogFileHandles Logger ErrLogger next_handle].
  - intros h. rewrite close_all_lookup, Hfiles, Ho. split; [tauto|]. intros Hin.
    split; [by right|]. intros Hold. apply Hh in Hold. apply Hnew in Hin. lia.
  - done.
  - intros h Hin. by apply Hnew in Hin as [_ ?].
Qed.

Lemma switch_none_ok s out err :
  logging_ok s → files_of out ++ files_of err = [] →
  logging_ok (mkLogging out err [] (close_all (gLogFileHandles s) (open_files s)) (next_handle s) (err_log s)).
Proof. intros Hok He. apply switch_ok; [done|lia|set_solver|set_solver|by rewrite He]. Qed.

Lemma LogAllToStderr_ok s : logging_ok s → logging_ok (LogAllToStderr s).2.
Proof. intros Hok. exact (switch_none_ok s [WStderr] [WStderr] Hok eq_refl). Qed.

Lemma LogToStdoutStderr_ok s : logging_ok s → logging_ok (LogToStdoutStderr s).2.
Proof. intros Hok. exact (switch_none_ok s [WStdout] [WStderr] Hok eq_refl). Qed.

Lemma UseSyslog_ok info err s : logging_ok s → logging_ok (UseSyslog info err s).2.
Proof.
  intros Hok. unfold UseSyslog, liftS, mbind, stM_bind.
  destruct info; [|done..]. destruct err; [|done..].
  exact (switch_none_ok s [WSyslogInfo] [WSyslogErr] Hok eq_refl).
Qed.

Lemma SetLogFile_ok paths s : logging_ok s → logging_ok (SetLogFile paths s).2.
Proof.
  intros Hok. unfold SetLogFile, os_OpenFile. destruct paths as [|p [|q [|r paths]]]; [done| | |done].
  - rewrite stM_bind_eq. destruct (can_open p); [|done].
    apply (switch_ok s [next_handle s] _ _ (<[next_handle s := p]> (open_files s)) (S (next_handle s)));
      [done|lia|set_solver by lia| |set_solver].
    intros h. rewrite lookup_insert_is_Some'. set_solver.
  - rewrite stM_bind_eq. destruct (can_open p); [|done]. rewrite stM_bind_eq.
    destruct (can_open q); cbn [next_handle].
    + apply (switch_ok s [next_handle s; S (next_handle s)] _ _
               (<[S (next_handle s) := q]> (<[next_handle s := p]> (open_files s))) (S (S (next_handle s))));
        [done|lia|set_solver by lia| |set_solver].
      intros h. rewrite !lookup_insert_is_Some'. set_solver.
    + change (logging_ok (mkLogging (Logger s) (ErrLogger s) (gLogFileHandles s)
                (delete (next_handle s) (<[next_handle s := p]> (open_files s))) (S (next_handle s))
                (err_log s ++ ["Failed to open log file " ++ q]))).
      destruct Hok as (Ho & Hu & Hh). split; [|split]; cbn; [|done|intros h Hin; apply Hh in Hin; lia].
      intros h. rewrite lookup_delete_is_Some, lookup_insert_is_Some', Ho.
      split; [tauto|]. intros Hin. apply Hh in Hin as Hlt. split; [lia|by right].
Qed.

(** What a program may do with the loggers *)
Inductive logging_op :=
| OpStderr | OpStdoutStderr | OpSyslog (info err : outcome unit) | OpFile (paths : list bytes).

Definition do_op (op : logging_op) : L unit :=
  match op with
  | OpStderr => LogAllToStderr
  | OpStdoutStderr => LogToStdoutStderr
  | OpSyslog info err => UseSyslog info err
  | OpFile paths => SetLogFile paths
  end.

(** After any sequence of operations; an error of one is ignored. *)
Definition after_ops (ops : list logging_op) (s : logging) : logging :=
  foldl (λ s op, (do_op op s).2) s ops.

Lemma initial_logging_ok : logging_ok initial_logging.
Proof.
  split; [|split]; cbn; [|done|set_solver]. intros h. rewrite lookup_empty. split; [by intros []|set_solver].
Qed.

Lemma logging_ok_files s h :
  logging_ok s → is_Some (open_files s !! h) ↔ WFile h ∈ Logger s ∨ WFile h ∈ ErrLogger s.
Proof.
  intros (Ho & Hu & _). rewrite Ho, Hu, elem_of_app. unfold files_of. rewrite !list_elem_of_omap. split.
  - intros [(w & Hw & E)|(w & Hw & E)]; destruct w; try done; injection E as ->; auto.
  - intros [Hw|Hw]; [left|right]; by eexists.
Qed.

(** Whatever is done with the loggers, and whichever files cannot be opened, the log files
    that are open are exactly those that one of the two loggers writes to. *)
Theorem log_files_in_use (ops : list logging_op) :
  let s := after_ops ops initial_logging in
  ∀ h, is_Some (open_files s !! h) ↔ WFile h ∈ Logger s ∨ WFile h ∈ ErrLogger s.
Proof.
  assert (Hok : ∀ s, logging_ok s → logging_ok (after_ops ops s)).
  { induction ops as [|op ops IH]; intros s Hs; [done|]. apply IH. destruct op.
    - by apply LogAllToStderr_ok.
    - by apply LogToStdoutStderr_ok.
    - by apply UseSyslog_ok.
    - by apply SetLogFile_ok. }
  intros s h. apply logging_ok_files, Hok, initial_logging_ok.
Qed.

End Files.
