(* ===== verification/JobFile.v ===== *)
(** * Jobfiles ([jobfile/job_file.go], [common/user.go])

    A jobfile is read, in one of its formats, into its raw form ([LoadJobfile]),
    and the raw form is turned into preferences and jobs ([Activate]).  The YAML
    decoder is a parameter; [Yaml] of ResultSink.v decodes the sinks, [YamlDoc] here
    the documents. *)

From S2P Require Import Prelude GoStrings GoPath SemVer Calendar TimeSpec TimeSpecParse Job.
From S2P Require Import RunLog MemRunLog Durations FileSys FileRunLog FileRunLogFacts.
From S2P Require Import RunRecServer Logging.
From S2P Require Import ResultSink Sections JobQueue.

Open Scope Z_scope.
Open Scope bytes_scope.
Open Scope list_scope.

(** ** Raw jobfiles *)

Definition gYamlStarter : bytes := "---".
Definition gDefaultMemRunLogMaxLen : Z := 100.

Record RunLogRaw := mkRunLogRaw {
  Type_ : bytes;
  RawMaxLen : option Z;
  RawPath : option bytes;
  RawMaxFileLen : option bytes;
  RawMaxHistories : option Z
}.

Record UserPrefsV3Raw := mkPrefsV3 {
  RawLogPath : option bytes;
  RawRunLog : option RunLogRaw
}.

Record UserPrefsV1V2Raw := mkPrefsV1V2 {
  OldLogPath : option bytes;
  OldRunLog : option RunLogRaw;
  NotifyProgram : option bytes
}.

Record JobV3Raw := mkJobV3 {
  RawCmd : bytes;
  RawTime : bytes;
  OnError : option bytes;
  RawNotifyOnSuccess : list ResultSinkRaw;
  RawNotifyOnError : list ResultSinkRaw;
  RawNotifyOnFailure : list ResultSinkRaw
}.

Record JobV1V2Raw := mkJobV1V2 {
  OldName : bytes;
  OldCmd : bytes;
  OldTime : bytes;
  OldOnError : option bytes;
  OldNotifyOnSuccess : option bool;
  OldNotifyOnError : option bool;
  OldNotifyOnFailure : option bool
}.

Record JobFileV3Raw := mkJobFileV3 {
  Version : SemVer;
  RawPrefs : UserPrefsV3Raw;
  RawJobs : gmap bytes JobV3Raw
}.

Record JobFileV1V2Raw := mkJobFileV1V2 {
  OldPrefs : UserPrefsV1V2Raw;
  OldJobs : list JobV1V2Raw
}.

(** [yaml.v2] on whole documents: [decodes_as_list] says whether a text is a list;
    [decode_version] gives the text of the field "version" of a document, if it has
    the field; the others decode the documents, where the version is again handed
    to [SemVer]; [reencoded] is a document marshalled and unmarshalled. *)
Class YamlDoc := {
  decodes_as_list : bytes → bool;
  decode_version : bytes → outcome (option (outcome bytes));
  decode_v3 : bytes → outcome (UserPrefsV3Raw * gmap bytes JobV3Raw);
  decode_prefs : bytes → outcome UserPrefsV1V2Raw;
  decode_jobs : bytes → outcome (list JobV1V2Raw);
  reencoded : JobFileV3Raw → outcome JobFileV3Raw
}.

Definition empty_prefs : UserPrefsV3Raw := mkPrefsV3 None None.

Definition NewEmptyRawJobFile : JobFileV3Raw :=
  mkJobFileV3 SemVer_zero
    (mkPrefsV3 None
       (Some (mkRunLogRaw "memory" (Some gDefaultMemRunLogMaxLen) None None None))) ∅.

Definition panic_on_error {A} (m : outcome A) : outcome A :=
  match m with
  | Fail _ => Panic "yaml"
  | m => m
  end.

Definition Dup `{YamlDoc} (self : JobFileV3Raw) : outcome JobFileV3Raw :=
  panic_on_error (reencoded self).

(** ** Reading a jobfile *)

Definition with_starter (text : bytes) : bytes :=
  if HasPrefix text (gYamlStarter ++ [newline]) then text
  else gYamlStarter ++ [newline] ++ text.

Section Parsing.
Context `{YamlDoc}.

(** The decoder's answer for a struct with the one field "version". *)
Definition version_of (data : bytes) : outcome SemVer :=
  v ← decode_version data;
  match v with
  | Some scalar => UnmarshalYAML SemVer_zero scalar
  | None => Ret SemVer_zero
  end.

Definition has_section_line (data : bytes) (name : bytes) : bool :=
  HasPrefix data ("[" ++ name ++ "]") ||
  Contains data ([newline] ++ "[" ++ name ++ "]" ++ [newline]).

Definition jobfileVersion (data : bytes) : outcome SemVer :=
  if decodes_as_list data then Ret (mkSemVer 1 0 0)
  else if has_section_line data JobsSectName || has_section_line data PrefsSectName then
    Ret (mkSemVer 1 2 0)
  else
    v ← version_of data;
    if IsZero v then Fail (CommonError "Missing jobfile version" None) else Ret v.

Definition parseV3Jobfile (data : bytes) : outcome JobFileV3Raw :=
  let dataStr := with_starter data in
  '(prefs, jobs) ← decode_v3 dataStr;
  version ← version_of dataStr;
  Ret (mkJobFileV3 version prefs jobs).

(** The result sink every job of a legacy jobfile uses. *)
Definition legacy_sink (prefs : UserPrefsV1V2Raw) : ResultSinkRaw :=
  match NotifyProgram prefs with
  | Some path =>
     <["type" : bytes := YString PROGRAM_RESULT_SINK_NAME]>
     (<["path" : bytes := YString path]>
      {["runRecFormatVersion" : bytes := YVersion (mkSemVer 1 0 0)]})
  | None => {["type" : bytes := YString SYSTEM_EMAIL_RESULT_SINK_NAME]}
  end.

Definition v3_job (resultSinkArray : list ResultSinkRaw) (job : JobV1V2Raw) : JobV3Raw :=
  let sinks (notify : bool) := if notify then resultSinkArray else [] in
  mkJobV3 (OldCmd job) (OldTime job) (OldOnError job)
    (sinks (default false (OldNotifyOnSuccess job)))
    (sinks (default false (OldNotifyOnError job)))
    (sinks (default true (OldNotifyOnFailure job))).

(** The loop over the jobs. *)
Fixpoint v3_jobs (resultSinkArray : list ResultSinkRaw) (jobs : list JobV1V2Raw)
    (acc : gmap bytes JobV3Raw) : outcome (gmap bytes JobV3Raw) :=
  match jobs with
  | [] => Ret acc
  | job :: jobs =>
     match acc !! OldName job with
     | Some _ => Fail (CommonError ("Multiple jobs named " ++ dquote (OldName job)) None)
     | None => v3_jobs resultSinkArray jobs (<[OldName job := v3_job resultSinkArray job]> acc)
     end
  end.

Definition v1v2ToV3 (self : JobFileV1V2Raw) : outcome JobFileV3Raw :=
  let prefs := mkPrefsV3 (OldLogPath (OldPrefs self)) (OldRunLog (OldPrefs self)) in
  jobs ← v3_jobs [legacy_sink (OldPrefs self)] (OldJobs self) ∅;
  Ret (mkJobFileV3 SemVer_zero prefs jobs).

(** A section that fails to parse is reported by its name. *)
Definition wrap_section {A} (name : bytes) (m : outcome A) : outcome A :=
  match m with
  | Fail err => Fail (CommonError ("Failed to parse " ++ dquote name ++ " section") (Some err))
  | m => m
  end.

(** The first name of the map that is not the name of a section. *)
Definition invalid_section (names : list bytes) : option bytes :=
  head (base.filter (λ n, n ≠ PrefsSectName ∧ n ≠ JobsSectName) names).

Definition parseV1V2Jobfile (data : bytes) : outcome JobFileV3Raw :=
  sections ← findSections data;
  match invalid_section (map_to_list sections).*1 with
  | Some sectName => Fail (CommonError ("Invalid section: " ++ sectName) None)
  | None =>
     prefs ← match sections !! PrefsSectName with
             | Some (c :: section as text) =>
                wrap_section PrefsSectName (decode_prefs (with_starter text))
             | _ => Ret (mkPrefsV1V2 None None None)
             end;
     jobs ← match sections !! JobsSectName with
            | Some text => wrap_section JobsSectName (decode_jobs (with_starter text))
            | None => Ret []
            end;
     v1v2ToV3 (mkJobFileV1V2 prefs jobs)
  end.

Definition LoadJobfile (data : bytes) : outcome JobFileV3Raw :=
  version ← jobfileVersion data;
  if 0 <=? Compare version (mkSemVer 1 4 0) then parseV3Jobfile data
  else parseV1V2Jobfile data.

End Parsing.

(** ** Whether a jobfile may be loaded *)

(** [user.User] *)
Record UserRec := mkUser { Username : bytes; HomeDir : bytes; Uid : bytes; Gid : bytes }.

(** An open jobfile: the answers of [Stat] (owner and permission bits) and its
    content. *)
Record OpenFile := mkOpenFile {
  stat_uid : outcome Z;
  stat_perm : outcome Z;
  content : outcome bytes
}.

Definition UserOwnsFileF (usr : UserRec) (f : OpenFile) : outcome bool :=
  fileUid ← stat_uid f; Ret (bool_decide (itoa fileUid = Uid usr)).

(** 0022 *)
Definition gBadJobfilePerms : Z := 18.

(** [os.FileMode.String] of a mode with permission bits only *)
Definition perm_String (perm : Z) : bytes :=
  "-" ++ map (λ p : Z * ascii, if Z.testbit perm p.1 then p.2 else "-"%char)
           (zip [8; 7; 6; 5; 4; 3; 2; 1; 0] "rwxrwxrwx").

Definition ShouldLoadJobfile (f : OpenFile) (usr : UserRec) : outcome bool :=
  ownsFile ← UserOwnsFileF usr f;
  if negb ownsFile then
    Fail (CommonError ("User " ++ Username usr ++ " doesn't own jobfile") None)
  else
    perm ← stat_perm f;
    let bad := Z.land perm gBadJobfilePerms in
    if 0 <? bad then
      Fail (CommonError ("Jobfile has bad permissions: " ++ perm_String perm ++
                         ". Problematic perms: " ++ perm_String bad) None)
    else Ret true.

(** ** The run log of the preferences *)

(** An object of the interface [RunLog]: one of its two implementations, with the
    file system the files of the second live in. *)
Inductive RunLogImpl := MemLog (self : memOnlyRunLog) | FileLogImpl (self : fileRunLog).

Record AnyLog := mkAnyLog { impl : RunLogImpl; any_fs : fsys }.

Section AnyLogOps.
Context `{FloatFraction} `{TempNames} (lib_error_text : error → bytes).

(** Call the method of the object's type. *)
Definition dispatch {A} (mem : stM memOnlyRunLog A) (file : stM FileLog A) : stM AnyLog A := λ s,
  match impl s with
  | MemLog l => let '(r, l') := mem l in (r, mkAnyLog (MemLog l') (any_fs s))
  | FileLogImpl l =>
     let '(r, s') := file (mkFileLog l (any_fs s)) in
     (r, mkAnyLog (FileLogImpl (log s')) (fs s'))
  end.

#[export] Instance any_RunLog : RunLog AnyLog := {|
  GetFromTime maxTime timeArr :=
    dispatch (mem_GetFromTime maxTime timeArr) (file_GetFromTime lib_error_text maxTime timeArr);
  GetFromIndex minIdx idxArr :=
    dispatch (mem_GetFromIndex minIdx idxArr) (file_GetFromIndex lib_error_text minIdx idxArr);
  GetAll := dispatch mem_GetAll (file_GetAll lib_error_text);
  Len := dispatch mem_Len file_Len;
  Put entry := dispatch (mem_Put entry) (file_Put lib_error_text entry)
|}.

End AnyLogOps.

Record UserPrefs := mkPrefs { PrefsRunLog : RunLogImpl; LogPath : bytes }.

Definition impl_String (l : RunLogImpl) : bytes :=
  match l with MemLog l => mem_String l | FileLogImpl l => fileRunLog_String l end.

Definition UserPrefs_String (self : UserPrefs) : bytes :=
  "RunLog: " ++ impl_String (PrefsRunLog self) ++ [newline] ++
  (if bool_decide (LogPath self = []) then []
   else "Log path: " ++ LogPath self ++ [newline]).

Definition defaultMaxFileLen : Z := 50 * 2 ^ 20.
Definition defaultMaxHistories : Z := 5.

Definition invalid_max_file_len (s : bytes) (cause : option error) : error :=
  CommonError ("Invalid max file len: '" ++ s ++ "'") cause.

(** The field "maxFileLen": a number of megabytes with the unit. *)
Definition parse_max_file_len (s : bytes) : outcome Z :=
  match last s with
  | None => Fail (invalid_max_file_len s None)
  | Some lastChar =>
     if bool_decide (lastChar ≠ "m"%char ∧ lastChar ≠ "M"%char) then
       Fail (invalid_max_file_len s None)
     else
       match Atoi (take (length s - 1) s) with
       | Ret n => Ret (wrap64 (n * 2 ^ 20))
       | Fail err => Fail (invalid_max_file_len s (Some err))
       | Panic msg => Panic msg
       | Running => Running
       end
  end.

Section Activation.
Context `{FloatFraction} (lib_error_text : error → bytes).
Context `{YaccErrors} `{R : Rand} `{Yaml}.

Definition ToRunLog (self : RunLogRaw) : stM fsys RunLogImpl :=
  if bool_decide (Type_ self = ("memory" : bytes)) then
    l ← liftS (NewMemOnlyRunLog (default gDefaultMemRunLogMaxLen (RawMaxLen self)));
    mret (MemLog l)
  else if bool_decide (Type_ self = ("file" : bytes)) then
    match RawPath self with
    | None => failS (CommonError "Missing path for run log" None)
    | Some path =>
       maxFileLen ← liftS (match RawMaxFileLen self with
                           | None => Ret defaultMaxFileLen
                           | Some s => parse_max_file_len s
                           end);
       l ← NewFileRunLog lib_error_text path maxFileLen
             (default defaultMaxHistories (RawMaxHistories self));
       mret (FileLogImpl l)
    end
  else failS (CommonError ("Invalid run log type: " ++ Type_ self) None).

(** [dest.LogPath], relative paths being relative to the home directory. *)
Definition log_path (usr : UserRec) (path : option bytes) : outcome bytes :=
  match path with
  | None => Ret []
  | Some logPath =>
     if IsAbs logPath then Ret logPath
     else if bool_decide (HomeDir usr = []) then
       Fail (CommonError ("User has no home directory, so cannot interpret relative " ++
                          "log file path " ++ logPath) None)
     else Ret (path_Join (HomeDir usr) logPath)
  end.

Definition ToPrefs (self : UserPrefsV3Raw) (usr : UserRec) : stM fsys UserPrefs :=
  logPath ← liftS (log_path usr (RawLogPath self));
  runLog ← match RawRunLog self with
           | Some raw => ToRunLog raw
           | None =>
              l ← liftS (NewMemOnlyRunLog gDefaultMemRunLogMaxLen); mret (MemLog l)
           end;
  mret (mkPrefs runLog logPath).

(** The loop of [normalizeResultSinkArray]. *)
Fixpoint drop_duplicates (newSinks sinks : list ResultSink) : list ResultSink :=
  match sinks with
  | [] => newSinks
  | currSink :: sinks =>
     if existsb (λ s, Equals s currSink) newSinks then drop_duplicates newSinks sinks
     else drop_duplicates (newSinks ++ [currSink]) sinks
  end.

Definition normalizeResultSinkArray (sinks : list ResultSink) : list ResultSink :=
  drop_duplicates [] sinks.

Fixpoint make_sinks (raws : list ResultSinkRaw) : outcome (list ResultSink) :=
  match raws with
  | [] => Ret []
  | raw :: raws =>
     sink ← MakeResultSinkFromConfig raw; sinks ← make_sinks raws; Ret (sink :: sinks)
  end.

(** [job.ErrorHandler = ContinueErrorHandler{}] and [ToJob]. *)
Definition ToJob (self : JobV3Raw) (usr : UserRec) (name : bytes) : stM rng Job :=
  handler ← liftS (match OnError self with
                   | Some h => GetErrorHandler h
                   | None => Ret ContinueErrorHandler
                   end);
  onError ← liftS (make_sinks (RawNotifyOnError self));
  onFailure ← liftS (make_sinks (RawNotifyOnFailure self));
  onSuccess ← liftS (make_sinks (RawNotifyOnSuccess self));
  spec ← liftS (ParseFullTimeSpec eval_fuel (RawTime self));
  spec ← FullDerandomize spec;
  mret (mkJob name (RawCmd self) spec (Username usr) handler
          (normalizeResultSinkArray onError) (normalizeResultSinkArray onFailure)
          (normalizeResultSinkArray onSuccess) 0 0 None JobGood zero_time false).

Record JobFile := mkJobFile {
  Prefs : UserPrefs;
  Jobs : gmap bytes Job;
  Raw : JobFileV3Raw
}.

(** What is outside of the objects of a runner: the disk and the registry of servers,
    the random numbers, the loggers. *)
Record Outside := mkOutside { env : Env; random : rng; loggers : logging }.

Definition on_env {A} (m : stM Env A) : stM Outside A := λ s,
  let '(r, e) := m (env s) in (r, mkOutside e (random s) (loggers s)).
Definition on_random {A} (m : stM rng A) : stM Outside A := λ s,
  let '(r, g) := m (random s) in (r, mkOutside (env s) g (loggers s)).
Definition on_loggers {A} (m : stM logging A) : stM Outside A := λ s,
  let '(r, l) := m (loggers s) in (r, mkOutside (env s) (random s) l).

(** The loop over the raw jobs, in the order the map is iterated. *)
Fixpoint to_jobs (usr : UserRec) (raws : list (bytes * JobV3Raw)) (jobs : gmap bytes Job)
    : stM Outside (gmap bytes Job) :=
  match raws with
  | [] => mret jobs
  | (jobName, jobRaw) :: raws =>
     job ← on_random (ToJob jobRaw usr jobName);
     to_jobs usr raws (<[jobName := job]> jobs)
  end.

Definition all_sinks (job : Job) : list ResultSink :=
  NotifyOnError job ++ NotifyOnFailure job ++ NotifyOnSuccess job.

(** The addresses of the socket sinks. *)
Definition socket_addresses (jobs : gmap bytes Job) : list (bytes * bytes) :=
  omap (λ s, match s with SocketResultSink p a _ => Some (p, a) | _ => None end)
    (flat_map (λ j, all_sinks j.2) (map_to_list jobs)).

Definition set_servers (Listen : serverId → outcome unit) (addrs : list (bytes * bytes))
    : stM Env unit := λ s,
  match SetServers Listen (map fst addrs) (map snd addrs) (registry s) with
  | Ret r => (Ret tt, mkEnv (stdout s) (calls s) (execs s) r (dirs s) (disk s) (logger s)
                        (err_logger s))
  | Fail e => (Fail e, s)
  | Panic msg => (Panic msg, s)
  | Running => (Running, s)
  end.

(** [raws]: the raw jobs in the order the map is iterated. *)
Definition Activate (Listen : serverId → outcome unit) (self : JobFileV3Raw) (usr : UserRec)
    (raws : list (bytes * JobV3Raw)) : stM Outside JobFile :=
  prefs ← on_env (on_disk (ToPrefs (RawPrefs self) usr));
  jobs ← to_jobs usr raws ∅;
  on_env (set_servers Listen (socket_addresses jobs));;
  mret (mkJobFile prefs jobs self).

End Activation.

(** ** Lemmas: duplicate sinks *)

(** What [Equals] compares. *)
Definition same_sink (a b : ResultSink) : Prop := Equals a b = true.

Definition without_version (s : ResultSink) : ResultSink :=
  match s with ProgramResultSink p _ => ProgramResultSink p SemVer_zero | s => s end.

Lemma same_sink_iff a b : same_sink a b ↔ without_version a = without_version b.
Proof.
  unfold same_sink. destruct a, b; simpl; try (split; congruence);
    rewrite ?andb_true_iff, ?bool_decide_eq_true, ?Z.eqb_eq; naive_solver.
Qed.

#[export] Instance same_sink_equiv : Equivalence same_sink.
Proof.
  split; repeat intro; rewrite !same_sink_iff in *; congruence.
Qed.

#[export] Instance Equals_proper : Proper (same_sink ==> same_sink ==> eq) Equals.
Proof.
  intros a a' Ha b b' Hb. apply eq_bool_prop_intro.
  assert (∀ x y, Is_true (Equals x y) ↔ same_sink x y) as E.
  { intros x y. unfold same_sink. by destruct (Equals x y). }
  rewrite !E. by rewrite Ha, Hb.
Qed.

Lemma existsb_same l s : existsb (λ x, Equals x s) l = true ↔ ∃ x, x ∈ l ∧ same_sink x s.
Proof.
  rewrite existsb_exists. by setoid_rewrite list_elem_of_In.
Qed.

(** No two sinks of the list are the same. *)
Definition distinct_sinks (l : list ResultSink) : Prop :=
  ∀ i j a b, l !! i = Some a → l !! j = Some b → same_sink a b → i = j.

Lemma distinct_snoc l s :
  distinct_sinks l → (∀ x, x ∈ l → ¬ same_sink x s) → distinct_sinks (l ++ [s]).
Proof.
  intros Hl Hs i j a b Ha Hb Hab.
  apply lookup_app_Some in Ha as [Ha|[Hi Ha]], Hb as [Hb|[Hj Hb]].
  - by eapply Hl.
  - apply list_lookup_singleton_Some in Hb as [_ ->].
    exfalso. eapply Hs; [by eapply list_elem_of_lookup_2|done].
  - apply list_lookup_singleton_Some in Ha as [_ ->].
    exfalso. eapply Hs; [by eapply list_elem_of_lookup_2|by symmetry].
  - apply list_lookup_singleton_Some in Ha as [? _], Hb as [? _]. lia.
Qed.

Lemma drop_duplicates_spec acc l :
  distinct_sinks acc →
  ∃ kept, drop_duplicates acc l = acc ++ kept ∧ kept `sublist_of` l ∧
    distinct_sinks (acc ++ kept) ∧
    ∀ s, s ∈ l → ∃ s', s' ∈ acc ++ kept ∧ same_sink s' s.
Proof.
  revert acc. induction l as [|s l IH]; intros acc Hacc; cbn [drop_duplicates].
  { exists []. rewrite app_nil_r. split_and!; [done..|]. intros s Hs.
    by apply not_elem_of_nil in Hs. }
  destruct (existsb _ acc) eqn:E.
  - apply existsb_same in E as (x & Hx & Hxs).
    destruct (IH acc Hacc) as (kept & Ek & Hsub & Hd & Hall).
    exists kept. split; [done|]. split; [by constructor|]. split; [done|].
    intros s' [->|Hs']%elem_of_cons; [|by apply Hall].
    exists x. split; [|done]. apply elem_of_app. by left.
  - apply not_true_iff_false in E. rewrite existsb_same in E.
    destruct (IH (acc ++ [s])) as (kept & Ek & Hsub & Hd & Hall).
    { apply distinct_snoc; [done|]. intros x Hx Hxs. apply E. eauto. }
    rewrite <- app_assoc in Ek, Hd. setoid_rewrite <- app_assoc in Hall.
    exists (s :: kept). split; [done|]. split; [by constructor|]. split; [done|].
    intros s' [->|Hs']%elem_of_cons; [|by apply Hall].
    exists s. split; [|reflexivity]. rewrite !elem_of_app. right. constructor.
Qed.

Lemma normalize_spec l :
  normalizeResultSinkArray l `sublist_of` l ∧ distinct_sinks (normalizeResultSinkArray l) ∧
  ∀ s, s ∈ l → ∃ s', s' ∈ normalizeResultSinkArray l ∧ same_sink s' s.
Proof.
  destruct (drop_duplicates_spec [] l) as (kept & E & ? & ? & ?).
  { intros i j a b Ha. by rewrite lookup_nil in Ha. }
  unfold normalizeResultSinkArray. rewrite E. done.
Qed.

Lemma drop_duplicates_distinct acc l :
  distinct_sinks (acc ++ l) → drop_duplicates acc l = acc ++ l.
Proof.
  revert acc. induction l as [|s l IH]; intros acc Hd; cbn [drop_duplicates].
  { by rewrite app_nil_r. }
  destruct (existsb _ acc) eqn:E.
  - apply existsb_same in E as (x & Hx & Hxs).
    apply list_elem_of_lookup in Hx as [i Hi].
    assert (i = length acc) as ->.
    { eapply Hd; [by apply lookup_app_l_Some|by apply list_lookup_middle|done]. }
    apply lookup_lt_Some in Hi. lia.
  - rewrite IH; by rewrite <- app_assoc.
Qed.

(** [normalizeResultSinkArray] keeps the order of the sinks, leaves no two that
    are [Equals], loses none but for one that is [Equals], and changes nothing when
    applied again. *)
Theorem normalizeResultSinkArray_correct l :
  normalizeResultSinkArray l `sublist_of` l ∧
  distinct_sinks (normalizeResultSinkArray l) ∧
  (∀ s, s ∈ l → ∃ s', s' ∈ normalizeResultSinkArray l ∧ same_sink s' s) ∧
  normalizeResultSinkArray (normalizeResultSinkArray l) = normalizeResultSinkArray l.
Proof.
  pose proof (normalize_spec l) as (Hs & Hd & Ha). split_and!; [done..|].
  by apply (drop_duplicates_distinct []).
Qed.

(** ** Permissions *)

Lemma no_bad_perms perm :
  0 ≤ perm → 0 <? Z.land perm gBadJobfilePerms = false ↔
             Z.testbit perm 1 = false ∧ Z.testbit perm 4 = false.
Proof.
  intros Hp. assert (Hnn : 0 ≤ Z.land perm gBadJobfilePerms) by (apply Z.land_nonneg; lia).
  split.
  - intros H%Z.ltb_ge. assert (E : Z.land perm gBadJobfilePerms = 0) by lia.
    split; [assert (Ht : Z.testbit (Z.land perm gBadJobfilePerms) 1 = false) by (by rewrite E)
           |assert (Ht : Z.testbit (Z.land perm gBadJobfilePerms) 4 = false) by (by rewrite E)];
      rewrite Z.land_spec in Ht; by rewrite andb_true_r in Ht.
  - intros [H1 H4]. apply Z.ltb_ge. enough (Z.land perm gBadJobfilePerms = 0) by lia.
    apply Z.bits_inj'. intros n Hn. rewrite Z.land_spec, Z.bits_0.
    destruct (decide (n = 1)) as [->|]; [by rewrite H1|].
    destruct (decide (n = 4)) as [->|]; [by rewrite H4|].
    apply andb_false_intro2. unfold gBadJobfilePerms.
    assert (n = 0 ∨ n = 2 ∨ n = 3 ∨ 5 ≤ n) as [->|[->|[->|Hn5]]] by lia; [done..|].
    apply Z.bits_above_log2; [done|]. change (Z.log2 18) with 4. lia.
Qed.

(** A jobfile is loaded only if the user owns it and neither the group nor
    others may write to it, whatever the rest of its mode. *)
Theorem ShouldLoadJobfile_correct f usr perm :
  stat_perm f = Ret perm → 0 ≤ perm →
  (ShouldLoadJobfile f usr = Ret true ↔
   ∃ uid, stat_uid f = Ret uid ∧ itoa uid = Uid usr ∧
          Z.testbit perm 1 = false ∧ Z.testbit perm 4 = false) ∧
  ShouldLoadJobfile f usr ≠ Ret false.
Proof.
  intros Hp Hnn. unfold ShouldLoadJobfile, UserOwnsFileF. rewrite Hp.
  destruct (stat_uid f) as [uid|e|msg|]; simpl; [|split; [split; [done|naive_solver]|done]..].
  case_bool_decide as Hu; simpl.
  - pose proof (no_bad_perms perm Hnn) as Hb. destruct (0 <? _); simpl.
    + split; [|done]. split; [done|]. intros (? & [= ->] & _ & H1 & H4).
      by assert (true = false) by (by apply Hb).
    + split; [|done]. split; [|done]. intros _. exists uid. split_and!; [done..| |]; by apply Hb.
  - split; [|done]. split; [done|]. intros (? & [= ->] & ? & _). done.
Qed.

Definition example_user : UserRec := mkUser "bob" "/home/bob" "1000" "1000".

Lemma ShouldLoadJobfile_correct_witness :
  ShouldLoadJobfile (mkOpenFile (Ret 1000) (Ret 420) (Ret [])) example_user = Ret true.
Proof.
  apply (ShouldLoadJobfile_correct (mkOpenFile (Ret 1000) (Ret 420) (Ret [])) example_user 420);
    [done|done|]. exists 1000. by vm_compute.
Defined.

(** ** The limit of the log file *)

(** "maxFileLen" is read as a number of megabytes: a number and an "m" give as
    many times 2^20 bytes as long as that fits in 64 bits, and wrap around beyond;
    any text without the unit is rejected. *)
Theorem parse_max_file_len_correct n u s :
  u = "m"%char ∨ u = "M"%char → is_int64 n →
  parse_max_file_len (itoa n ++ [u]) = Ret (wrap64 (n * 2 ^ 20)) ∧
  (- 2 ^ 43 ≤ n < 2 ^ 43 → wrap64 (n * 2 ^ 20) = n * 2 ^ 20) ∧
  (∀ len, parse_max_file_len s = Ret len → last s = Some "m"%char ∨ last s = Some "M"%char).
Proof.
  intros Hu Hn. split; [|split].
  - unfold parse_max_file_len. rewrite last_snoc, length_app. simpl.
    rewrite Nat.add_sub, take_app_length.
    rewrite bool_decide_false by naive_solver. unfold Atoi. by rewrite parse_int_itoa.
  - intros H. apply wrap64_small. unfold is_int64, two63. lia.
  - intros len. unfold parse_max_file_len. destruct (last s) as [c|]; [|done].
    case_bool_decide as Hc; [done|]. intros _.
    destruct (decide (c = "m"%char)) as [->|]; [by left|].
    destruct (decide (c = "M"%char)) as [->|]; [by right|]. tauto.
Qed.

Lemma parse_max_file_len_correct_witness :
  parse_max_file_len "50m" = Ret defaultMaxFileLen ∧
  parse_max_file_len "8796093022208m" = Ret (- two63).
Proof.
  split.
  - destruct (parse_max_file_len_correct 50 "m" []) as (E & E' & _); [by left|by vm_compute|].
    change ("50m" : bytes) with (itoa 50 ++ "m"). rewrite E, E'; [done|by vm_compute].
  - destruct (parse_max_file_len_correct 8796093022208 "m" []) as (E & _);
      [by left|by vm_compute|].
    change ("8796093022208m" : bytes) with (itoa 8796093022208 ++ "m"). by rewrite E.
Defined.

(** ** Legacy jobfiles *)

Definition job_names (jobs : list JobV1V2Raw) : list bytes := map OldName jobs.

Definition v3_entries (arr : list ResultSinkRaw) (jobs : list JobV1V2Raw)
    : list (bytes * JobV3Raw) := map (λ j, (OldName j, v3_job arr j)) jobs.

Lemma v3_entries_names arr jobs : (v3_entries arr jobs).*1 = job_names jobs.
Proof. unfold v3_entries, job_names. rewrite <- list_fmap_compose. done. Qed.

Lemma v3_jobs_Ret (arr : list ResultSinkRaw) (jobs : list JobV1V2Raw) (acc : gmap bytes JobV3Raw) :
  NoDup (job_names jobs) → (∀ n, n ∈ job_names jobs → acc !! n = None) →
  v3_jobs arr jobs acc = Ret (list_to_map (v3_entries arr jobs) ∪ acc).
Proof.
  revert acc. induction jobs as [|j jobs IH]; intros acc Hnd Hnew; cbn [v3_jobs].
  { cbn. by rewrite (left_id_L ∅ (∪)). }
  apply NoDup_cons in Hnd as [Hni Hnd]. rewrite (Hnew (OldName j)) by constructor.
  rewrite IH; [|done|].
  - f_equal. change (v3_entries arr (j :: jobs))
      with ((OldName j, v3_job arr j) :: v3_entries arr jobs).
    rewrite list_to_map_cons.
    rewrite <- insert_union_r by
      (apply not_elem_of_list_to_map_1; by rewrite v3_entries_names).
    by rewrite insert_union_l.
  - intros n Hn. rewrite lookup_insert_ne by (intros <-; done). apply Hnew. by constructor.
Qed.

Lemma v3_jobs_Fail (arr : list ResultSinkRaw) (jobs : list JobV1V2Raw) (acc : gmap bytes JobV3Raw) :
  ¬ (NoDup (job_names jobs) ∧ ∀ n, n ∈ job_names jobs → acc !! n = None) →
  fails (v3_jobs arr jobs acc).
Proof.
  revert acc. induction jobs as [|j jobs IH]; intros acc Hbad; cbn [v3_jobs].
  { exfalso. apply Hbad. split; [constructor|]. intros n Hn. by apply not_elem_of_nil in Hn. }
  destruct (acc !! OldName j) as [x|] eqn:Ha; [by eexists|]. apply IH. intros [Hnd Hnew].
  apply Hbad. assert (Hni : OldName j ∉ job_names jobs).
  { intros Hin%Hnew. by rewrite lookup_insert_eq in Hin. }
  split; [by constructor|]. intros n [->|Hn]%elem_of_cons; [done|].
  specialize (Hnew n Hn). by rewrite lookup_insert_ne in Hnew by (intros <-; done).
Qed.

(** The sink a legacy jobfile means. *)
Definition legacy_ResultSink (prefs : UserPrefsV1V2Raw) : ResultSink :=
  match NotifyProgram prefs with
  | Some path => ProgramResultSink path (mkSemVer 1 0 0)
  | None => SystemEmailResultSink
  end.

Lemma legacy_sink_made `{HY : Yaml} `{!YamlOk HY} prefs :
  NotifyProgram prefs ≠ Some [] →
  MakeResultSinkFromConfig (legacy_sink prefs) = Ret (legacy_ResultSink prefs).
Proof.
  intros Hp. unfold legacy_sink, legacy_ResultSink, MakeResultSinkFromConfig.
  destruct (NotifyProgram prefs) as [path|].
  - rewrite lookup_insert_eq, delete_insert_id by done.
    unfold decode_sink. rewrite bool_decide_false, bool_decide_true by done.
    set (params := <["path" : bytes := _]> _).
    assert (returns (strict_fields params ["path" : bytes; "runRecFormatVersion" : bytes]))
      as [[] E].
    { apply keys_field_of. intros k v. unfold params.
      rewrite lookup_insert_Some, lookup_singleton_Some, !elem_of_cons. naive_solver. }
    rewrite E. cbn [mbind outcome_bind].
    rewrite (field_of as_string _ _ "path" (YString path)) by (unfold params; by simplify_map_eq).
    rewrite as_string_ok. cbn [mbind outcome_bind]. unfold version_field.
    rewrite (field_of _ _ _ _ (YVersion (mkSemVer 1 0 0))) by (unfold params; by simplify_map_eq).
    rewrite as_version_ok. unfold UnmarshalYAML, MarshalYAML.
    rewrite fromString_printed by by vm_compute. unfold loadSinkParams. simpl.
    unfold Program_CheckParams. by rewrite bool_decide_false by (by intros ->).
  - rewrite lookup_singleton_eq. rewrite delete_singleton_eq.
    unfold decode_sink. rewrite bool_decide_true by done.
    assert (returns (strict_fields (∅ : ResultSinkRaw) [])) as [[] E].
    { apply keys_field_of. intros k v Hk. by rewrite lookup_empty in Hk. }
    by rewrite E.
Qed.

(** C28: A legacy jobfile is upgraded exactly if no two of its jobs have the same
    name.  Every job keeps its command, schedule and handler, and its sinks are the
    notification program or system mail: by default on failure only. *)
Theorem v1v2ToV3_correct `{HY : Yaml} `{!YamlOk HY} j :
  (NoDup (job_names (OldJobs j)) →
     v1v2ToV3 j = Ret (mkJobFileV3 SemVer_zero
       (mkPrefsV3 (OldLogPath (OldPrefs j)) (OldRunLog (OldPrefs j)))
       (list_to_map (v3_entries [legacy_sink (OldPrefs j)] (OldJobs j))))) ∧
  (¬ NoDup (job_names (OldJobs j)) → fails (v1v2ToV3 j)) ∧
  (NotifyProgram (OldPrefs j) ≠ Some [] → ∀ job,
     let job' := v3_job [legacy_sink (OldPrefs j)] job in
     let sinks (notify : bool) := if notify then [legacy_ResultSink (OldPrefs j)] else [] in
     RawCmd job' = OldCmd job ∧ RawTime job' = OldTime job ∧ OnError job' = OldOnError job ∧
     make_sinks (RawNotifyOnError job') = Ret (sinks (default false (OldNotifyOnError job))) ∧
     make_sinks (RawNotifyOnFailure job') = Ret (sinks (default true (OldNotifyOnFailure job))) ∧
     make_sinks (RawNotifyOnSuccess job') = Ret (sinks (default false (OldNotifyOnSuccess job)))).
Proof.
  split; [|split].
  - intros Hnd. unfold v1v2ToV3. rewrite v3_jobs_Ret by (done || set_solver).
    cbn [mbind outcome_bind]. by rewrite (right_id_L ∅ (∪)).
  - intros Hnd. unfold v1v2ToV3.
    destruct (v3_jobs_Fail [legacy_sink (OldPrefs j)] (OldJobs j) ∅) as [e ->]; [|by eexists].
    by intros [? _].
  - intros Hp job job' sinks.
    assert (E : ∀ b : bool, make_sinks (if b then [legacy_sink (OldPrefs j)] else []) =
                            Ret (sinks b)).
    { intros []; [|done]. cbn [make_sinks]. by rewrite legacy_sink_made. }
    unfold job', v3_job. cbn [RawCmd RawTime OnError RawNotifyOnError RawNotifyOnFailure
                              RawNotifyOnSuccess]. by rewrite !E.
Qed.

Definition example_old_job (name : bytes) : JobV1V2Raw :=
  mkJobV1V2 name "true" "0 0" None None None None.

#[local] Existing Instances example_yaml example_yaml_ok.

Lemma v1v2ToV3_correct_witness :
  let j := mkJobFileV1V2 (mkPrefsV1V2 None None None) [example_old_job "a"; example_old_job "b"] in
  v1v2ToV3 j = Ret (mkJobFileV3 SemVer_zero empty_prefs
    (list_to_map (v3_entries [legacy_sink (OldPrefs j)] (OldJobs j)))).
Proof.
  intros j. destruct (v1v2ToV3_correct (YamlOk0:=example_yaml_ok) j) as [H _]. apply H.
  by apply (bool_decide_eq_true (NoDup _)); vm_compute.
Defined.

(** ** Activation *)

Section ActivationFacts.
Context `{HF : FloatFraction} (lib_error_text : error → bytes).
Context `{HYE : YaccErrors} `{R : Rand} `{!RandOk R} `{HY : Yaml}.

(** What [ToJob] makes of a raw job. *)
Definition job_of_raw (usr : UserRec) (name : bytes) (raw : JobV3Raw) (job : Job) : Prop :=
  Name job = name ∧ Cmd job = RawCmd raw ∧ User job = Username usr ∧
  fully_derandomized (JobTimeSpec job) ∧ Status job = JobGood ∧ NextRunTime job = None ∧
  Paused job = false ∧
  JobErrorHandler job = match OnError raw with
                        | Some h => default ContinueErrorHandler
                                      (match GetErrorHandler h with Ret h => Some h | _ => None end)
                        | None => ContinueErrorHandler
                        end ∧
  distinct_sinks (NotifyOnError job) ∧ distinct_sinks (NotifyOnFailure job) ∧
  distinct_sinks (NotifyOnSuccess job).

Lemma liftS_bind {S A B} (m : outcome A) (k : A → stM S B) s b s' :
  (liftS m ≫= k) s = (Ret b, s') → ∃ a, m = Ret a ∧ k a s = (Ret b, s').
Proof. rewrite stM_bind_eq. unfold liftS. destruct m; [eauto|done..]. Qed.

Lemma ToJob_spec raw usr name g job g' :
  ToJob raw usr name g = (Ret job, g') → job_of_raw usr name raw job.
Proof.
  unfold ToJob. intros (h & Hh & H)%liftS_bind. apply liftS_bind in H as (e & _ & H).
  apply liftS_bind in H as (f & _ & H). apply liftS_bind in H as (sc & _ & H).
  apply liftS_bind in H as (spec & Hs & H). rewrite stM_bind_eq in H.
  destruct (FullDerandomize_spec spec g) as (spec' & g1 & E & D & _).
  { by eapply parsed_fully_pickable. }
  rewrite E in H. cbn in H. injection H as <- <-.
  unfold job_of_raw. cbn. split_and!; try done.
  - destruct (OnError raw) as [n|]; [by rewrite Hh|by injection Hh].
  - apply normalize_spec.
  - apply normalize_spec.
  - apply normalize_spec.
Qed.

Lemma on_random_spec {A} (m : stM rng A) s r s' :
  on_random m s = (r, s') → ∃ g, m (random s) = (r, g) ∧ env s' = env s.
Proof. unfold on_random. destruct (m (random s)) as [r1 g]. intros [= <- <-]. by exists g. Qed.

Lemma to_jobs_spec usr raws jobs s jobs' s' :
  to_jobs usr raws jobs s = (Ret jobs', s') → NoDup raws.*1 →
  env s' = env s ∧
  ∀ name, match (list_to_map raws : gmap bytes JobV3Raw) !! name with
          | Some raw => ∃ job, jobs' !! name = Some job ∧ job_of_raw usr name raw job
          | None => jobs' !! name = jobs !! name
          end.
Proof.
  revert jobs s. induction raws as [|[n raw] raws IH]; intros jobs s; cbn [to_jobs].
  { intros [= <- <-] _. split; [done|]. intros name. cbn. by rewrite lookup_empty. }
  rewrite stM_bind_eq. destruct (on_random _ s) as [[job| | |] s1] eqn:E; try done.
  intros H Hnd. cbn [fmap list_fmap fst] in Hnd. apply NoDup_cons in Hnd as [Hni Hnd].
  apply on_random_spec in E as (g & Hj & Henv). apply ToJob_spec in Hj.
  destruct (IH _ _ H Hnd) as [Henv' Hlk]. split; [congruence|]. intros name.
  specialize (Hlk name). cbn [list_to_map foldr]. change (foldr _ ∅ raws)
    with (list_to_map raws : gmap bytes JobV3Raw).
  destruct (decide (name = n)) as [->|Hne].
  - rewrite lookup_insert_eq. apply not_elem_of_list_to_map_1 in Hni.
    rewrite Hni, lookup_insert_eq in Hlk. eauto.
  - rewrite lookup_insert_ne by done. destruct (list_to_map raws !! name); [done|].
    by rewrite lookup_insert_ne in Hlk by done.
Qed.

Lemma to_jobs_env usr raws jobs s r s' :
  to_jobs usr raws jobs s = (r, s') → env s' = env s.
Proof.
  revert jobs s. induction raws as [|[n raw] raws IH]; intros jobs s; cbn [to_jobs].
  { by intros [= <- <-]. }
  rewrite stM_bind_eq. destruct (on_random _ s) as [r1 s1] eqn:E.
  apply on_random_spec in E as (g & _ & He).
  destruct r1; [intros H; apply IH in H; congruence|intros [= <- <-]; done..].
Qed.

Lemma ToPrefs_env raw usr s r s' :
  on_env (on_disk (ToPrefs lib_error_text raw usr)) s = (r, s') →
  registry (env s') = registry (env s).
Proof.
  unfold on_env, on_disk. destruct (ToPrefs _ _ _ _) as [r1 d]. by intros [= <- <-].
Qed.

Lemma in_addresses jobs p a :
  (p, a) ∈ socket_addresses jobs ↔
  ∃ name job d, jobs !! name = Some job ∧ SocketResultSink p a d ∈ all_sinks job.
Proof.
  unfold socket_addresses. rewrite list_elem_of_omap. split.
  - intros (sink & Hin & Hs). destruct sink; simplify_eq/=.
    apply list_elem_of_In, in_flat_map in Hin as ([n j] & Hj & Hin).
    apply list_elem_of_In, elem_of_map_to_list in Hj. apply list_elem_of_In in Hin. eauto.
  - intros (name & job & d & Hj & Hin). exists (SocketResultSink p a d). split; [|done].
    apply list_elem_of_In, in_flat_map. exists (name, job). split; apply list_elem_of_In; [|done].
    by apply elem_of_map_to_list.
Qed.

Lemma requested_addresses addrs p a :
  mkServerId p a ∈ requested (map fst addrs) (map snd addrs) ↔ (p, a) ∈ addrs.
Proof.
  rewrite elem_requested. split.
  - intros (i & p' & a' & Hp & Ha & [= -> ->]).
    apply list_lookup_fmap_Some in Hp as ([x y] & -> & Hi).
    apply list_lookup_fmap_Some in Ha as ([x' y'] & -> & Hi'). simplify_eq/=.
    by eapply list_elem_of_lookup_2.
  - intros [i Hi]%list_elem_of_lookup. exists i, p, a.
    split_and!; [by apply list_lookup_fmap_Some; exists (p, a)..|done].
Qed.

Lemma set_servers_spec Listen addrs s :
  map_Forall (λ _ s, stoppable s) (servers (registry s)) →
  ∃ s', set_servers Listen addrs s = (Ret tt, s') ∧
    ∀ p a, servers (registry s') !! mkServerId p a =
      if bool_decide ((p, a) ∈ addrs) then
        match servers (registry s) !! mkServerId p a with
        | Some server => Some server
        | None => if bool_decide (listens Listen (mkServerId p a) = true)
                  then Some (new_server (mkServerId p a)) else None
        end
      else None.
Proof.
  intros Hst. unfold set_servers.
  destruct (SetServers_spec Listen (map fst addrs) (map snd addrs) (registry s))
    as (r & E & Hlk & _); [by rewrite !length_map|done|].
  rewrite E. eexists. split; [done|]. intros p a. cbn [registry]. rewrite Hlk.
  rewrite (bool_decide_ext _ ((p, a) ∈ addrs)); [done|]. apply requested_addresses.
Qed.

Lemma Activate_inv Listen self usr raws s jf s' :
  Activate lib_error_text Listen self usr raws s = (Ret jf, s') →
  ∃ s1 s2, registry (env s1) = registry (env s) ∧ env s2 = env s1 ∧
    to_jobs usr raws ∅ s1 = (Ret (Jobs jf), s2) ∧
    set_servers Listen (socket_addresses (Jobs jf)) (env s2) = (Ret tt, env s') ∧
    Raw jf = self.
Proof.
  unfold Activate. rewrite stM_bind_eq.
  destruct (on_env _ s) as [[prefs| | |] s1] eqn:E1; try done.
  apply ToPrefs_env in E1. rewrite stM_bind_eq.
  destruct (to_jobs usr raws ∅ s1) as [[jobs| | |] s2] eqn:E2; try done.
  rewrite stM_bind_eq. unfold on_env.
  destruct (set_servers _ _ (env s2)) as [[[]| | |] e] eqn:E3; try done.
  intros [= <- <-]. exists s1, s2. split_and!; [done| |done..].
  by eapply to_jobs_env.
Qed.

(** C10: A jobfile that is activated has exactly the jobs of its raw form, each with
    its name, command and handler, good, not paused, with a schedule whose random
    fields are drawn and no two sinks the same; and the registry has a server for
    exactly the addresses of the socket sinks, those that cannot be listened on
    apart. *)
Theorem Activate_correct Listen self usr raws s jf s' :
  raws ≡ₚ map_to_list (RawJobs self) →
  map_Forall (λ _ s, stoppable s) (servers (registry (env s))) →
  Activate lib_error_text Listen self usr raws s = (Ret jf, s') →
  Raw jf = self ∧ schedules_ok (Jobs jf) ∧
  (∀ name, match RawJobs self !! name with
           | Some raw => ∃ job, Jobs jf !! name = Some job ∧ job_of_raw usr name raw job
           | None => Jobs jf !! name = None
           end) ∧
  (∀ p a, is_Some (servers (registry (env s')) !! mkServerId p a) ↔
     (∃ name job d, Jobs jf !! name = Some job ∧ SocketResultSink p a d ∈ all_sinks job) ∧
     (is_Some (servers (registry (env s)) !! mkServerId p a) ∨
      listens Listen (mkServerId p a) = true)).
Proof.
  intros Hraws Hst H. destruct (Activate_inv _ _ _ _ _ _ _ H)
    as (s1 & s2 & Hr1 & He2 & Hjobs & Hset & Hraw).
  assert (Hnd : NoDup raws.*1) by (rewrite Hraws; apply NoDup_fst_map_to_list).
  destruct (to_jobs_spec _ _ _ _ _ _ Hjobs Hnd) as [_ Hlk].
  assert (Hname : ∀ name, match RawJobs self !! name with
           | Some raw => ∃ job, Jobs jf !! name = Some job ∧ job_of_raw usr name raw job
           | None => Jobs jf !! name = None
           end).
  { intros name. specialize (Hlk name).
    rewrite (list_to_map_proper raws (map_to_list (RawJobs self))) in Hlk by done.
    rewrite list_to_map_to_list in Hlk. destruct (RawJobs self !! name); [done|].
    by rewrite lookup_empty in Hlk. }
  split_and!; [done| |done|].
  - intros name job Hj. specialize (Hname name). destruct (RawJobs self !! name); [|congruence].
    destruct Hname as (job' & Hj' & (_ & _ & _ & Hd & _)). simplify_eq. done.
  - intros p a. destruct (set_servers_spec Listen (socket_addresses (Jobs jf)) (env s2))
      as (e & Es & Hsrv).
    { by rewrite He2, Hr1. }
    rewrite Es in Hset. injection Hset as Hset. subst e.
    rewrite Hsrv, He2, Hr1, <- in_addresses. case_bool_decide as Hin.
    + destruct (servers (registry (env s)) !! _) as [srv|].
      * split; [|by eexists]. intros _. split; [done|]. left. by eexists.
      * case_bool_decide as Hl.
        -- split; [intros _; split; [done|by right]|intros _; by eexists].
        -- split; [intros [x Hx]; done|]. intros [_ [[x Hx]|?]]; done.
    + split; [intros [x Hx]; done|]. by intros [? _].
Qed.

End ActivationFacts.

Definition example_raw_jobfile : JobFileV3Raw :=
  mkJobFileV3 (mkSemVer 1 4 0) (mkPrefsV3 (Some "logs/j") None)
    {["a" : bytes := mkJobV3 "true" "0 R" None []
        [config_of (SocketResultSink "tcp" ":80" 1); config_of (SocketResultSink "tcp" ":80" 1)]
        []]}.

Definition example_outside : Outside (R:=first_rand) := mkOutside (R:=first_rand) example_env tt initial_logging.

Lemma Activate_correct_witness :
  ∃ jf s', Activate (H:=exact_fraction) (λ _, []) (H0:=TimeSpecParse.no_text) (R:=first_rand)
             (λ _, Ret tt) example_raw_jobfile example_user
             (map_to_list (RawJobs example_raw_jobfile)) example_outside = (Ret jf, s') ∧
    schedules_ok (Jobs jf) ∧ is_Some (Jobs jf !! ("a" : bytes)) ∧
    is_Some (servers (registry (env s')) !! mkServerId "tcp" ":80").
Proof.
  destruct (Activate (H:=exact_fraction) (λ _, []) (H0:=TimeSpecParse.no_text) (R:=first_rand)
             (λ _, Ret tt) example_raw_jobfile example_user
             (map_to_list (RawJobs example_raw_jobfile)) example_outside)
    as [[jf|e|msg|] s'] eqn:E; [|vm_compute in E; discriminate..].
  exists jf, s'. split; [done|].
  destruct (Activate_correct (HF:=exact_fraction) (λ _, []) (HYE:=TimeSpecParse.no_text) (R:=first_rand)
              (RandOk0:=first_rand_ok) (λ _, Ret tt) example_raw_jobfile example_user
              (map_to_list (RawJobs example_raw_jobfile)) example_outside jf s')
    as (_ & Hs & Hj & _).
  - done.
  - apply map_Forall_empty.
  - exact E.
  - split; [exact Hs|]. split.
    + specialize (Hj "a").
      destruct (RawJobs example_raw_jobfile !! _) eqn:Hr; [|vm_compute in Hr; discriminate].
      destruct Hj as (job & -> & _). by eexists.
    + vm_compute in E. injection E as <- <-. vm_compute. by eexists.
Defined.

(** A memory log with a limit that is not positive, which the jobfile may ask for,
    ends the process. *)
Lemma bad_memory_limit_panics `{FloatFraction} lib_error_text raw n s :
  Type_ raw = ("memory" : bytes) → RawMaxLen raw = Some n → n ≤ 0 →
  ∃ msg, ToRunLog lib_error_text raw s = (Panic msg, s).
Proof.
  intros Ht Hm Hn. unfold ToRunLog. rewrite bool_decide_true by done. rewrite Hm.
  unfold NewMemOnlyRunLog, liftS. rewrite stM_bind_eq. simpl.
  destruct (Z.leb_spec n 0); [by eexists|lia].
Qed.

(** ** The run log of the preferences keeps the laws of the interface *)

Section AnyLaws.
Context `{HF : FloatFraction} `{!FloatFractionOk} `{TempNames} (lib_error_text : error → bytes).

#[local] Instance any_RunLog' : RunLog AnyLog := any_RunLog lib_error_text.
#[local] Instance file_laws' : RunLogLaws (H:=file_RunLog lib_error_text) FileLog :=
  file_RunLogLaws lib_error_text.

Definition any_ok (s : AnyLog) : Prop :=
  match impl s with
  | MemLog l => log_ok l
  | FileLogImpl l => log_ok (RunLogLaws:=file_laws') (mkFileLog l (any_fs s))
  end.

Definition any_entries (s : AnyLog) : list RunLogEntry :=
  match impl s with
  | MemLog l => log_entries l
  | FileLogImpl l => log_entries (RunLogLaws:=file_laws') (mkFileLog l (any_fs s))
  end.

(** A query that the implementation answers without changing the log. *)
Lemma dispatch_query {A} (mem : stM memOnlyRunLog A) (file : stM FileLog A) s r :
  match impl s with
  | MemLog l => mem l = (r, l)
  | FileLogImpl l => file (mkFileLog l (any_fs s)) = (r, mkFileLog l (any_fs s))
  end → dispatch mem file s = (r, s).
Proof. destruct s as [[l|l] f]; unfold dispatch; simpl; by intros ->. Qed.

#[export] Program Instance any_RunLogLaws : RunLogLaws AnyLog := {|
  log_ok := any_ok;
  log_entries := any_entries;
  storable := storable (RunLogLaws:=file_laws')
|}.
Next Obligation.
  intros s Hok. apply dispatch_query. destruct s as [[l|l] f]; exact (GetAll_law _ Hok).
Qed.
Next Obligation.
  intros s Hok. apply dispatch_query. destruct s as [[l|l] f]; exact (Len_law _ Hok).
Qed.
Next Obligation.
  intros s i j Hok Hij Hi. apply dispatch_query.
  destruct s as [[l|l] f]; exact (GetFromIndex_law _ i j Hok Hij Hi).
Qed.
Next Obligation.
  intros [[l|l] f] e Hok He Hall.
  - destruct (Put_law l e Hok I Hall) as (l' & k & E & Hok' & Hk).
    exists (mkAnyLog (MemLog l') f), k. cbn. unfold dispatch. cbn. split; [|done].
    change (mem_Put e l) with (Put e l). by rewrite E.
  - destruct (Put_law (RunLogLaws:=file_laws') (mkFileLog l f) e Hok He Hall)
      as ([l' f'] & k & E & Hok' & Hk).
    exists (mkAnyLog (FileLogImpl l') f'), k. cbn. unfold dispatch. cbn. split; [|done].
    cbn in E. by rewrite E.
Qed.
End AnyLaws.
