(* ===== verification/Constants.v ===== *)
(** * Constants, and parts without callers ([common/consts.go], [common/version.go],
    [jobfile/job_output_handler.go])

    [jobberVersion] is set by the linker, and so it is an argument here.  The output
    handlers of jobs and [NewRawJob] are left from other versions of the program: nothing
    calls them. *)

From S2P Require Import Prelude GoStrings Calendar Job JobFile.

Open Scope bytes_scope.
Open Scope list_scope.

Definition DaemonSocketAddr : bytes := "/var/jobber_daemon.sock".

Definition ShortVersionStr (jobberVersion : bytes) : bytes := jobberVersion.
Definition LongVersionStr (jobberVersion : bytes) : bytes := "Jobber " ++ ShortVersionStr jobberVersion.

(** ** Output handlers *)

Inductive JobOutputHandler :=
| NopJobOutputHandler
| FileJobOutputHandler (Where : bytes) (MaxAgeDays : Z) (Suffix : bytes).

Definition handler_String (self : JobOutputHandler) : bytes :=
  match self with
  | NopJobOutputHandler => "N/A"
  | FileJobOutputHandler Where MaxAgeDays _ =>
     "{where: " ++ Where ++ ", maxAgeDays: " ++ itoa MaxAgeDays ++ "}"
  end.

(** Neither handler writes anything, whatever there is. *)
Definition WriteOutput {W} (self : JobOutputHandler) (out jobName : bytes) (runTime : Time) : stM W unit :=
  match self with
  | NopJobOutputHandler => mret tt
  | FileJobOutputHandler _ _ _ => mret tt
  end.

(** ** A job to start from *)

Definition NewRawJob : JobV3Raw := mkJobV3 [] [] (Some ("continue;" : bytes)) [] [] [].

(** Its error handler is none that [GetErrorHandler] knows: such a job could not be
    activated. *)
Theorem NewRawJob_handler : ∀ h, OnError NewRawJob ≠ Some (ErrorHandler_String h).
Proof. by intros []. Qed.
