(* ===== verification/JobRunner.v ===== *)
(** * Running jobs ([jobberrunner/job_runner_thread.go])

    [RunJob] runs a job's command, as a subprocess ([Exec]), and updates the job.
    [JobRunnerThread] is the goroutine that pops jobs off the queue and starts a
    goroutine for each run; its turns are the functions [thread_pop], [thread_finish]
    and [thread_recv], which a job manager interleaves. *)

From S2P Require Import Prelude GoStrings Calendar TimeSpec Job JobQueue ResultSink Exec.

Open Scope Z_scope.
Open Scope bytes_scope.
Open Scope list_scope.

(** ** [RunJob] *)

(** [&jobfile.RunRec{Job: job, RunTime: time.Now()}] *)
Definition new_RunRec (job : Job) (now : Time) : RunRec :=
  mkRunRec (Name job) now JobGood None None SubprocFateSucceeded 0 None.

Definition failed_RunRec (rec : RunRec) (e : error) : RunRec :=
  mkRunRec (RecJob rec) (RunTime rec) (NewStatus rec) (Stdout rec) (Stderr rec) (Fate rec)
    (ExecTime rec) (Some e).

(** The job after a run of the given fate. *)
Definition after_run (fate : SubprocFate) (job : Job) : Job :=
  match fate with
  | SubprocFateSucceeded => set_Status job JobGood
  | SubprocFateFailed => Handle (JobErrorHandler job) job
  | SubprocFateCancelled => job
  end.

(** [now] is when the run starts, [finished] when it ends, [job] the job as it is
    then, [exec] what [ExecAndWaitContext] returns. *)
Definition RunJob (now finished : Time) (exec : outcome ExecResult) (testing : bool)
    (job : Job) : RunRec * Job :=
  let rec := new_RunRec job now in
  match exec with
  | Ret res =>
     match read_output RunRecOutputMaxLen (exec_Stdout res) with
     | Ret out =>
        match read_output RunRecOutputMaxLen (exec_Stderr res) with
        | Ret err =>
           let done_ status := mkRunRec (Name job) now status (Some out) (Some err)
                                 (exec_Fate res) (Sub finished now) None in
           if testing then (done_ JobGood, job)
           else
             let job := set_LastRunTime (after_run (exec_Fate res) job) now in
             (done_ (Status job), job)
        | Fail e => (failed_RunRec (mkRunRec (Name job) now JobGood (Some out) None
                                      SubprocFateSucceeded 0 None) e, job)
        | _ => (rec, job)
        end
     | Fail e => (failed_RunRec rec e, job)
     | _ => (rec, job)
     end
  | Fail e => (failed_RunRec rec e, job)
  | _ => (rec, job)
  end.

(** ** The job-runner thread *)

(** A run in progress: the job and the time it was started. *)
Record inflight := mkInflight { run_job : bytes; run_start : Time }.

(** [Running], the queue of the thread, whether its context has been cancelled,
    whether its loop has been left, the runs in progress and the records that wait
    for a reader.  The channel is closed once the loop has been left and no run is
    in progress or waits. *)
Record JobRunnerThread := mkThread {
  Running_ : bool;
  queue : list bytes;
  cancelled : bool;
  loop_left : bool;
  runs : list inflight;
  waiting : list RunRec
}.

(** Never started: its channel is closed. *)
Definition idle_thread : JobRunnerThread := mkThread false [] false true [] [].

Definition chan_is_closed (t : JobRunnerThread) : bool :=
  loop_left t && bool_decide (runs t = []) && bool_decide (waiting t = []).

Section Thread.
Context `{Location}.

(** [Start]; [order] is the order in which [SetJobs] iterates over the jobs. *)
Definition Start (now : Time) (order : list bytes) (t : JobRunnerThread) (jobs : gmap bytes Job)
    : outcome (JobRunnerThread * gmap bytes Job) :=
  if Running_ t then Panic "JobRunnerThread already running."
  else
    match SetJobs now order (mkQState [] jobs []) with
    | (Ret _, st) => Ret (mkThread true (q st) false false [] [], JobQueue.jobs st)
    | (Fail e, _) => Fail e
    | (Panic msg, _) => Panic msg
    | (Running, _) => Running
    end.

Definition Cancel (t : JobRunnerThread) : JobRunnerThread :=
  mkThread (Running_ t) (queue t) true (loop_left t) (runs t) (waiting t).

(** The thread, once its loop has been left and every record has been read, is no
    longer running; then its channel is closed. *)
Definition settle (t : JobRunnerThread) : JobRunnerThread :=
  mkThread (Running_ t && negb (chan_is_closed t)) (queue t) (cancelled t) (loop_left t)
    (runs t) (waiting t).

Definition has_cancelled (ws : list wakeup) : bool :=
  existsb (λ w, match w with Cancelled => true | Fired _ => false end) ws.

(** One round of the loop: pop a job, which sleeps until one is due ([ws] says how
    each sleep ends; it ends with a cancellation only if there is one), and start it
    at [start] unless it is paused.  A round that is still asleep has no effect. *)
Definition thread_pop (fuel : nat) (now start : Time) (ws : list wakeup)
    (t : JobRunnerThread) (jobs : gmap bytes Job) : outcome (JobRunnerThread * gmap bytes Job) :=
  if loop_left t || (has_cancelled ws && negb (cancelled t)) then Ret (t, jobs)
  else
    match JobQueue_Pop fuel now (mkQState (queue t) jobs ws) with
    | (Ret (Some name), st) =>
       let jobs := JobQueue.jobs st in
       let started :=
         match jobs !! name with
         | Some job => if Paused job then [] else [mkInflight name start]
         | None => []
         end in
       Ret (mkThread (Running_ t) (q st) (cancelled t) false (runs t ++ started) (waiting t), jobs)
    | (Ret None, st) =>
       Ret (settle (mkThread (Running_ t) (q st) (cancelled t) true (runs t) (waiting t)),
            JobQueue.jobs st)
    | (Fail e, _) => Fail e
    | (Panic msg, _) => Panic msg
    | (Running, _) => Ret (t, jobs)
    end.

(** The run at index [i] ends: its goroutine updates the job and offers its record. *)
Definition thread_finish (i : nat) (finished : Time) (exec : outcome ExecResult)
    (t : JobRunnerThread) (jobs : gmap bytes Job) : JobRunnerThread * gmap bytes Job :=
  match runs t !! i with
  | None => (t, jobs)
  | Some r =>
     match jobs !! run_job r with
     | None => (t, jobs)
     | Some job =>
        let '(rec, job') := RunJob (run_start r) finished exec false job in
        (mkThread (Running_ t) (queue t) (cancelled t) (loop_left t)
           (delete i (runs t)) (waiting t ++ [rec]),
         <[run_job r := job']> jobs)
     end
  end.

(** The reader takes the record at index [i]. *)
Definition thread_recv (i : nat) (t : JobRunnerThread) : option (RunRec * JobRunnerThread) :=
  rec ← waiting t !! i;
  Some (rec, settle (mkThread (Running_ t) (queue t) (cancelled t) (loop_left t) (runs t)
                       (delete i (waiting t)))).

End Thread.

(** ** What runs do to the jobs

    Everything of a job that its configuration determines stays as it is. *)

Definition configuration (job : Job) : Job :=
  mkJob (Name job) (Cmd job) (JobTimeSpec job) (User job) (JobErrorHandler job)
    (NotifyOnError job) (NotifyOnFailure job) (NotifyOnSuccess job) 0 0 None JobGood 0 false.

(** The same jobs, with the same configuration. *)
Definition same_jobs (jobs jobs' : gmap bytes Job) : Prop :=
  ∀ name, configuration <$> jobs !! name = configuration <$> jobs' !! name.

#[export] Instance same_jobs_equiv : Equivalence same_jobs.
Proof.
  split.
  - by intros jobs name.
  - intros jobs jobs' H name. by rewrite H.
  - intros j1 j2 j3 H12 H23 name. by rewrite H12, H23.
Qed.

Lemma same_jobs_insert (jobs : gmap bytes Job) name job job' :
  jobs !! name = Some job → configuration job' = configuration job →
  same_jobs jobs (<[name := job']> jobs).
Proof.
  intros Hj Hc x. destruct (decide (x = name)) as [->|].
  - rewrite lookup_insert_eq, Hj. simpl. by rewrite Hc.
  - by rewrite lookup_insert_ne.
Qed.

Lemma same_jobs_Some jobs jobs' name job :
  same_jobs jobs jobs' → jobs !! name = Some job →
  ∃ job', jobs' !! name = Some job' ∧ configuration job' = configuration job.
Proof.
  intros Hs Hj. specialize (Hs name). rewrite Hj in Hs.
  destruct (jobs' !! name) as [job'|]; [|done]. apply (inj Some) in Hs.
  exists job'. by split.
Qed.

Lemma serves_same_jobs `{Location} jobs now ws r jobs' ws' :
  serves jobs now ws r jobs' ws' →
  same_jobs jobs jobs' ∧ ∀ name, r = Some name → is_Some (jobs' !! name).
Proof.
  induction 1 as [| |jobs now ws name t job now' ws' next job' _ Hj _ _ Hrun
                 |jobs now ws name t job now' ws' next job' r jobs' ws'' _ Hj _ _ Hrun _ [IHs IHr]].
  - done.
  - done.
  - apply ShouldRun_changes in Hrun as [skips ->]. split.
    + apply (same_jobs_insert _ _ job); [done|]. by destruct job.
    + intros ? [= <-]. rewrite lookup_insert_eq. by eexists.
  - apply ShouldRun_changes in Hrun as [skips ->]. split; [|done].
    etrans; [|exact IHs]. apply (same_jobs_insert _ _ job); [done|]. by destruct job.
Qed.

Lemma RunJob_configuration now finished exec testing job :
  configuration (RunJob now finished exec testing job).2 = configuration job.
Proof.
  unfold RunJob, after_run, Handle, Backoff_Handle, Stop_Handle, Continue_Handle.
  repeat (case_match; simpl; try done); destruct job; simpl in *; repeat case_match; done.
Qed.

Lemma RunJob_name now finished exec testing job :
  RecJob (RunJob now finished exec testing job).1 = Name job.
Proof. unfold RunJob. repeat (case_match; simpl; try done). Qed.

Lemma RunJob_NextRunTime now finished exec testing job :
  NextRunTime (RunJob now finished exec testing job).2 = NextRunTime job.
Proof.
  unfold RunJob, after_run, Handle, Backoff_Handle, Stop_Handle, Continue_Handle.
  repeat (case_match; simpl; try done); destruct job; simpl in *; repeat case_match; done.
Qed.

(** Changing the state of a job, but not when it runs next, keeps the queue in
    order. *)
Lemma queue_ok_update st name job job' ws :
  queue_ok st → JobQueue.jobs st !! name = Some job →
  NextRunTime job' = NextRunTime job → JobTimeSpec job' = JobTimeSpec job →
  queue_ok (mkQState (q st) (<[name := job']> (JobQueue.jobs st)) ws).
Proof.
  intros (Hh & Hin & Hs) Hj Hn Ht.
  assert (Hp : ∀ x, pending (<[name := job']> (JobQueue.jobs st)) x =
                    pending (JobQueue.jobs st) x).
  { intros x. unfold pending. destruct (decide (x = name)) as [->|].
    - by rewrite lookup_insert_eq, Hj.
    - by rewrite lookup_insert_ne. }
  split; [|split].
  - apply heap_ok_ext; [|done]. apply Forall_forall. intros x _. apply Hp.
  - simpl. intros x. rewrite Hp. apply Hin.
  - simpl. apply map_Forall_insert_2; [|done]. rewrite Ht. by apply (Hs name).
Qed.

Lemma queue_ok_wakeups q jobs ws ws' :
  queue_ok (mkQState q jobs ws) → queue_ok (mkQState q jobs ws').
Proof. done. Qed.

(** ** The invariant of the thread

    Its queue is in order; the jobs bear their names; every run in progress and
    every record that waits is one of a job of the map; [Running] says whether the
    channel is open. *)
Definition thread_ok (t : JobRunnerThread) (jobs : gmap bytes Job) : Prop :=
  queue_ok (mkQState (queue t) jobs []) ∧
  map_Forall (λ name job, Name job = name) jobs ∧
  Forall (λ r, is_Some (jobs !! run_job r)) (runs t) ∧
  Forall (λ rec, is_Some (jobs !! RecJob rec)) (waiting t) ∧
  Running_ t = negb (chan_is_closed t).

Lemma same_jobs_is_Some jobs jobs' name :
  same_jobs jobs jobs' → is_Some (jobs !! name) → is_Some (jobs' !! name).
Proof.
  intros Hs [job Hj]. destruct (same_jobs_Some _ _ _ _ Hs Hj) as (job' & -> & _). by eexists.
Qed.

Lemma same_jobs_names jobs jobs' :
  same_jobs jobs jobs' → map_Forall (λ name job, Name job = name) jobs →
  map_Forall (λ name job, Name job = name) jobs'.
Proof.
  intros Hs Hn name job' Hj. symmetry in Hs.
  destruct (same_jobs_Some _ _ _ _ Hs Hj) as (job & Hj' & Hc). rewrite <- (Hn _ _ Hj').
  by apply (f_equal Name) in Hc.
Qed.

Lemma thread_ok_same t t' jobs jobs' :
  thread_ok t jobs → same_jobs jobs jobs' → queue_ok (mkQState (queue t') jobs' []) →
  Forall (λ r, is_Some (jobs !! run_job r)) (runs t') →
  Forall (λ rec, is_Some (jobs !! RecJob rec)) (waiting t') →
  Running_ t' = negb (chan_is_closed t') → thread_ok t' jobs'.
Proof.
  intros (_ & Hn & _) Hs Hq Hr Hw Hrun. split_and!; [done| | | |done].
  - by eapply same_jobs_names.
  - eapply Forall_impl; [exact Hr|]. intros r. by apply same_jobs_is_Some.
  - eapply Forall_impl; [exact Hw|]. intros r. by apply same_jobs_is_Some.
Qed.

Section ThreadFacts.
Context `{Location}.

Lemma Start_ok now order t jobs :
  Running_ t = false → order ≡ₚ (map_to_list jobs).*1 → schedules_ok jobs →
  map_Forall (λ name job, Name job = name) jobs →
  ∃ t' jobs', Start now order t jobs = Ret (t', jobs') ∧ thread_ok t' jobs' ∧
    same_jobs jobs jobs' ∧ runs t' = [] ∧ waiting t' = [] ∧ cancelled t' = false ∧
    loop_left t' = false.
Proof.
  intros Hr Ho Hs Hn. unfold Start. rewrite Hr.
  destruct (SetJobs_spec now order (mkQState [] jobs [])) as (st & E & Hq & _ & Hj); [done..|].
  rewrite E. eexists _, _. split; [done|].
  assert (Hsame : same_jobs jobs (JobQueue.jobs st)).
  { intros name. specialize (Hj name). simpl in Hj. destruct (jobs !! name) as [job|].
    - destruct Hj as (next & _ & ->). simpl. by destruct job.
    - by rewrite Hj. }
  split; [|done]. split_and!; [|by eapply same_jobs_names|constructor|constructor|done].
  by destruct st.
Qed.

Lemma settle_running t : 
  Running_ t = true → Running_ (settle t) = negb (chan_is_closed (settle t)).
Proof. intros Hr. unfold settle. simpl. by rewrite Hr. Qed.

Lemma serves_None_cancelled jobs now ws r jobs' ws' :
  serves jobs now ws r jobs' ws' → r = None → has_cancelled ws = true.
Proof.
  assert (Hsleep : ∀ t now ws r ws', sleep_till t now ws = Ret (r, ws') →
            has_cancelled ws = true ∨ (r ≠ None ∧ (has_cancelled ws' = true → has_cancelled ws = true))).
  { intros t nw w. revert nw. induction w as [|[n|] w IH]; intros nw o w'; cbn [sleep_till].
    - destruct (_ <? _); [done|]. intros [= <- <-]. by right.
    - destruct (_ <? _); [intros E; by apply IH in E|]. intros [= <- <-]. by right.
    - by left. }
  induction 1 as [? ? ws ws' _ Hw|? ? ? ? ? ? _ Hs|? ? ? ? ? ? ? ? ? ? _ _ Hs _ _
                 |? ? ? ? ? ? ? ? ? ? ? ? ? _ _ Hs _ _ _ IH]; intros Hr.
  - clear -Hw. induction ws as [|[n|] ws IH]; [done|by apply IH|done].
  - destruct (Hsleep _ _ _ _ _ Hs) as [?|[? _]]; done.
  - done.
  - destruct (Hsleep _ _ _ _ _ Hs) as [?|[_ Hm]]; [done|]. by apply Hm, IH.
Qed.

Lemma served_states jobs now ws r jobs' ws' :
  serves jobs now ws r jobs' ws' →
  (∀ name, r = Some name → ∃ job, jobs !! name = Some job ∧ Status job ≠ JobFailed) ∧
  ∀ name, (λ j, (configuration j, Status j, Paused j)) <$> jobs !! name =
          (λ j, (configuration j, Status j, Paused j)) <$> jobs' !! name.
Proof.
  intros Hs. destruct (served_spec _ _ _ _ _ _ Hs) as [Hr Hj]. split; [exact Hr|].
  intros name. specialize (Hj name). destruct (jobs !! name) as [job|], (jobs' !! name); try done.
  destruct Hj as (next & skips & ->). by destruct job.
Qed.

(** A thread that has not been cancelled does not leave its loop. *)
Definition alive (t : JobRunnerThread) : Prop := cancelled t = false ∧ loop_left t = false.

Lemma thread_pop_ok fuel now start ws t jobs :
  thread_ok t jobs → 
  ∃ t' jobs', thread_pop fuel now start ws t jobs = Ret (t', jobs') ∧ thread_ok t' jobs' ∧
    same_jobs jobs jobs' ∧ (alive t → alive t').
Proof.
  intros Hok. pose proof Hok as (Hq & Hn & Hr & Hw & Hrun). unfold thread_pop.
  destruct (loop_left t) eqn:Hl; simpl; [by exists t, jobs|].
  destruct (has_cancelled ws && _) eqn:Hcw; [by exists t, jobs|].
  pose proof (JobQueue_Pop_serves fuel now (mkQState (queue t) jobs ws)
                (queue_ok_wakeups _ _ _ ws Hq)) as Hp.
  assert (Hrt : Running_ t = true).
  { rewrite Hrun. unfold chan_is_closed. by rewrite Hl. }
  destruct (JobQueue_Pop _ _ _) as [[[name|]|e|msg|] st]; try done; [| |by exists t, jobs].
  - destruct Hp as [Hs Hq']. apply serves_same_jobs in Hs as [Hs Hname].
    destruct (Hname name eq_refl) as [job Hj]. rewrite Hj.
    eexists _, _. split; [done|]. split; [|split; [exact Hs|by intros [? _]]].
    eapply thread_ok_same; [exact Hok|exact Hs| | |exact Hw|]; simpl.
    + by destruct st.
    + apply Forall_app. split; [done|]. destruct (Paused job); constructor; [|constructor].
      simpl. symmetry in Hs. by eapply same_jobs_is_Some; [exact Hs|eexists].
    + done.
  - destruct Hp as [Hs Hq']. pose proof (serves_None_cancelled _ _ _ _ _ _ Hs eq_refl) as Hc.
    apply serves_same_jobs in Hs as [Hs _]. eexists _, _. split; [done|].
    split; [|split; [exact Hs|]]; [|simpl in Hc; intros [Hca _]; by rewrite Hc, Hca in Hcw].
    eapply thread_ok_same; [exact Hok|exact Hs| |exact Hr|exact Hw|]; simpl.
    + by destruct st.
    + by rewrite Hrt.
Qed.

Lemma thread_finish_ok i finished exec t jobs t' jobs' :
  thread_ok t jobs → thread_finish i finished exec t jobs = (t', jobs') →
  thread_ok t' jobs' ∧ same_jobs jobs jobs' ∧ (alive t → alive t').
Proof.
  intros Hok. pose proof Hok as (Hq & Hn & Hr & Hw & Hrun). unfold thread_finish.
  destruct (runs t !! i) as [r|] eqn:Hi; [|by intros [= <- <-]].
  destruct (jobs !! run_job r) as [job|] eqn:Hj; [|by intros [= <- <-]].
  pose proof (RunJob_configuration (run_start r) finished exec false job) as Hc.
  pose proof (RunJob_name (run_start r) finished exec false job) as Hname.
  pose proof (RunJob_NextRunTime (run_start r) finished exec false job) as Hnext.
  destruct (RunJob _ _ _ _ _) as [rec job']. simpl in *. intros [= <- <-].
  assert (Hs : same_jobs jobs (<[run_job r := job']> jobs)) by by eapply same_jobs_insert.
  split; [|split; [exact Hs|done]]. eapply thread_ok_same; [exact Hok|exact Hs|..]; simpl.
  - apply (queue_ok_update (mkQState (queue t) jobs []) _ job); [done..|].
    by apply (f_equal JobTimeSpec) in Hc.
  - rewrite Forall_forall in Hr |- *. intros x Hx. apply Hr.
    apply list_elem_of_lookup in Hx as [k Hk].
    rewrite list_lookup_delete in Hk. case_decide; by eapply list_elem_of_lookup_2.
  - apply Forall_app. split; [done|]. constructor; [|constructor].
    rewrite Hname, (Hn _ _ Hj). by eexists.
  - rewrite Hrun. unfold chan_is_closed. simpl.
    assert (runs t ≠ []) by (by intros E; rewrite E in Hi).
    rewrite (bool_decide_false (runs t = [])) by done.
    rewrite (bool_decide_false (waiting t ++ [rec] = [])) by (by destruct (waiting t)).
    by rewrite !andb_false_r.
Qed.

Lemma thread_recv_ok i t jobs rec t' :
  thread_ok t jobs → thread_recv i t = Some (rec, t') →
  thread_ok t' jobs ∧ is_Some (jobs !! RecJob rec) ∧ (alive t → alive t').
Proof.
  intros (Hq & Hn & Hr & Hw & Hrun). unfold thread_recv.
  destruct (waiting t !! i) as [r|] eqn:Hi; [|done]. intros [= <- <-].
  split; [|split; [by eapply (Forall_lookup_1 _ _ _ _ Hw)|done]].
  split_and!; [done..| |]; simpl.
  - rewrite delete_take_drop. apply Forall_app. split; [by apply Forall_take|by apply Forall_drop].
  - rewrite Hrun. unfold chan_is_closed. rewrite (bool_decide_false (waiting t = [])).
    + by rewrite andb_false_r.
    + intros E. by rewrite E in Hi.
Qed.

End ThreadFacts.

(** ** What a run does *)

(** C12: The record of a run and what the run does to its job, on every branch: the
    run of a command that cannot be run, or whose output cannot be read, changes
    nothing of the job and its record holds the error; a test run changes nothing
    of the job, either; any other run notes its time, the first bytes of its output
    and, unless it was cancelled, makes the job good or hands it to its error
    handler, and the record has the status the job is left with. *)
Theorem RunJob_correct now finished exec testing job :
  let '(rec, job') := RunJob now finished exec testing job in
  RecJob rec = Name job ∧ RunTime rec = now ∧
  configuration job' = configuration job ∧ NextRunTime job' = NextRunTime job ∧
  match exec with
  | Ret (mkExecResult (Ret out) (Ret err) fate) =>
     Err rec = None ∧ Stdout rec = Some (take RunRecOutputMaxLen out) ∧
     Stderr rec = Some (take RunRecOutputMaxLen err) ∧ Fate rec = fate ∧
     ExecTime rec = Sub finished now ∧
     if testing then job' = job ∧ NewStatus rec = JobGood
     else LastRunTime job' = now ∧ NewStatus rec = Status job' ∧
          match fate with
          | SubprocFateSucceeded => Status job' = JobGood
          | SubprocFateFailed => Status job' = Status (Handle (JobErrorHandler job) job)
          | SubprocFateCancelled => job' = set_LastRunTime job now
          end
  | Ret (mkExecResult (Fail e) _ _) => Err rec = Some e ∧ job' = job
  | Ret (mkExecResult (Ret _) (Fail e) _) => Err rec = Some e ∧ job' = job
  | Fail e => Err rec = Some e ∧ job' = job
  | _ => job' = job
  end.
Proof.
  destruct (RunJob now finished exec testing job) as [rec job'] eqn:E.
  pose proof (RunJob_name now finished exec testing job) as Hn.
  pose proof (RunJob_configuration now finished exec testing job) as Hc.
  pose proof (RunJob_NextRunTime now finished exec testing job) as Ht.
  rewrite E in Hn, Hc, Ht. simpl in Hn, Hc, Ht. split; [done|].
  enough (RunTime rec = now ∧ match exec with
  | Ret (mkExecResult (Ret out) (Ret err) fate) => _
  | _ => _ end) as [HT HX] by exact (conj HT (conj Hc (conj Ht HX))).
  unfold RunJob, read_output in E. destruct exec as [[[out| | |] [err| | |] fate]|e|msg|];
    simpl in E; try (injection E as <- <-; done).
  destruct testing; injection E as <- <-; [done|].
  destruct job, fate; done || (unfold after_run; by destruct (Handle _ _)).
Qed.

(** With the temporary files: what [RunJob] does with the subprocess [p]. *)
Definition RunJob_subprocess (now finished : Time) (p : Subproc) (testing : bool) (job : Job) :
    stM (gset bytes) (RunRec * Job) :=
  with_subprocess p (λ exec, RunJob now finished exec testing job).

(** A run leaves no temporary file behind, unless its command was not started or not
    waited for; then its record has the error and two files stay. *)
Theorem RunJob_files now finished p testing job s :
  subproc_ok p s →
  let '(out, s') := RunJob_subprocess now finished p testing job s in
  out = Ret (RunJob now finished (exec_answer p) testing job) ∧
  s' = s ∪ leaked p ∧
  (leaked p ≠ ∅ → ∃ e, exec_answer p = Fail e).
Proof.
  intros Hp. unfold RunJob_subprocess. rewrite (with_subprocess_eq _ _ _ Hp).
  split; [done|]. split; [done|].
  destruct Hp as (Ho & He & Hi & Hs & _). unfold leaked, exec_answer.
  destruct p as [[] [] [] [] [] ? ? ? ? ?]; cbn in *; try done; by eexists.
Qed.

(** ** What a round of the thread does *)


Definition example_jobs : gmap bytes Job :=
  {["backup" : bytes := example_job StopErrorHandler]}.

Definition example_thread : JobRunnerThread := mkThread true ["backup" : bytes] false false [] [].

Lemma example_started :
  ∃ jobs, Start (H:=UTC) 0 ["backup" : bytes] idle_thread example_jobs =
          Ret (example_thread, jobs) ∧ thread_ok example_thread jobs.
Proof.
  destruct (Start_ok (H:=UTC) 0 ["backup" : bytes] idle_thread example_jobs)
    as (t & jobs & E & Hok & _).
  - done.
  - unfold example_jobs. by rewrite map_to_list_singleton.
  - apply map_Forall_singleton. repeat constructor.
  - by apply map_Forall_singleton.
  - exists jobs. replace example_thread with t; [done|].
    vm_compute in E. by injection E as <- _.
Qed.

