(* ===== verification/DefaultJobfile.v ===== *)
(** * The jobfile that "jobber init" writes ([jobberrunner/cmd_init.go]) *)

From S2P Require Import Prelude GoStrings Sections.

Open Scope bytes_scope.
Open Scope list_scope.

Definition gDefaultJobfile : bytes :=
  Join
    [("## This is your jobfile: use it to tell Jobber what jobs you want it to" : bytes);
     ("## run on your behalf.  For details of what you can specify here," : bytes);
     ("## please see https://dshearer.github.io/jobber/doc/." : bytes);
     ("##" : bytes);
     ("## It consists of two sections: " ++ dquote "prefs" ++ " and " ++ dquote "jobs" ++ ".  In " ++ dquote "prefs" ++ " you can" : bytes);
     ("## set various general settings.  In " ++ dquote "jobs" ++ ", you define your jobs." : bytes);
     [];
     ("version: 1.4" : bytes);
     [];
     ("prefs:" : bytes);
     ("  ## You can have the Jobber daemon keep a log of various activities" : bytes);
     ("  ## with the " ++ dquote "logPath" ++ " setting; the log will be written to the given" : bytes);
     ("  ## path (if the path is relative, it will be interpreted relative to" : bytes);
     ("  ## your home directory).  Your user account must be able to write to" : bytes);
     ("  ## the given path.  NOTE: This is NOT where logs about job runs" : bytes);
     ("  ## are stored --- for that, see the " ++ dquote "runLog" ++ " setting below.  WARNING:" : bytes);
     ("  ## Jobber will NOT rotate this file." : bytes);
     ("  #logPath: jobber-log" : bytes);
     [];
     ("  ## You can specify how info about past runs is stored.  For" : bytes);
     ("  ## " ++ dquote "type: memory" ++ " (the default), they are stored in memory and" : bytes);
     ("  ## are lost when the Jobber service stops." : bytes);
     ("  #runLog:" : bytes);
     ("  #    type: memory" : bytes);
     ("  #    maxLen: 100  # the max number of entries to remember" : bytes);
     [];
     ("  ## For " ++ dquote "type: file" ++ ", past run logs are stored on disk.  The log file is" : bytes);
     ("  ## rotated when it reaches a size of 'maxFileLen' MB.  Up to" : bytes);
     ("  ## 'maxHistories' historical run logs (that is, not including the" : bytes);
     ("  ## current one) are kept." : bytes);
     ("  #runLog:" : bytes);
     ("  #    type: file" : bytes);
     ("  #    path: /tmp/claudius" : bytes);
     ("  #    maxFileLen: 50m  # in MB" : bytes);
     ("  #    maxHistories: 5" : bytes);
     [];
     ("resultSinks:" : bytes);
     ("  #- &programSink" : bytes);
     ("  #  type: program" : bytes);
     ("  #  path: /home/handleError.sh" : bytes);
     [];
     ("  #- &systemEmailSink" : bytes);
     ("  #  type: system-email" : bytes);
     [];
     ("  #- &filesystemSink" : bytes);
     ("  #  type: filesystem" : bytes);
     ("  #  path: /path/to/dir" : bytes);
     ("  #  data: [stdout, stderr]" : bytes);
     ("  #  maxAgeDays: 10" : bytes);
     [];
     ("jobs:" : bytes);
     ("  ## This section must contain a YAML sequence of maps like the following:" : bytes);
     ("  #DailyBackup:" : bytes);
     ("  #    cmd: backup daily  # shell command to execute" : bytes);
     ("  #    time: '* * * * * *'  # SEC MIN HOUR MONTH_DAY MONTH WEEK_DAY." : bytes);
     ("  #    onError: Continue  # what to do when the job has an error: Stop, Backoff, or Continue" : bytes);
     ("  #    notifyOnError: [*programSink]  # what to do with result when job has an error" : bytes);
     ("  #    notifyOnFailure: [*systemEmailSink, *programSink]  # what to do with result when the job stops due to errors" : bytes);
     ("  #    notifyOnSuccess: [*filesystemSink]  # what to do with result when the job succeeds" : bytes);
     []] [newline].

(** It is a new-style jobfile: no line of it begins a section. *)
Lemma default_jobfile_no_sections :
  Forall (λ line, match_section line = None) (ScanLines gDefaultJobfile).
Proof.
  apply Forall_forall. intros line Hl%list_elem_of_In.
  assert (H : forallb (λ l, bool_decide (match_section l = None)) (ScanLines gDefaultJobfile) = true)
    by (vm_compute; reflexivity).
  rewrite forallb_forall in H. by apply H, bool_decide_eq_true in Hl.
Qed.

Example default_jobfile_lines : (length (ScanLines gDefaultJobfile) = 59)%nat.
Proof. vm_compute. reflexivity. Qed.
