(* ===== verification/JobManager.v ===== *)
(** * The job manager ([jobberrunner/job_manager.go], [jobberrunner/cmd_*.go],
    [ipc/commands.go])

    The job manager is the main goroutine of a runner: it owns the jobfile, starts
    and stops the job-runner thread, records the runs the thread reports, and
    answers commands.  One event of the main loop is one call of [main_step];
    [reachable] of CommandFacts.v is what sequences of events lead to.  What comes from outside, the
    order in which Go iterates over a map, the clock, the jobfile on disk and what
    the thread does while it is being stopped, is the record [Inputs]. *)

From S2P Require Import Prelude GoStrings Calendar SemVer TimeSpec TimeSpecParse Job JobQueue.
From S2P Require Import RunLog Durations FileSys FileRunLog RunRecServer ResultSink JobFile.
From S2P Require Import JobRunner DefaultJobfile Logging.

Open Scope Z_scope.
Open Scope bytes_scope.
Open Scope list_scope.

(** ** Commands and responses *)

Inductive ICmd :=
| ReloadCmd
| ListJobsCmd
| LogCmd
| TestCmd (job : bytes)
| CatCmd (job : bytes)
| PauseCmd (jobs : list bytes)
| ResumeCmd (jobs : list bytes)
| InitCmd
| SetJobCmd (name : bytes) (job : JobV3Raw)
| DeleteJobCmd (job : bytes).

Record JobDesc := mkJobDesc {
  DescName : bytes;
  DescStatus : bytes;
  DescSchedule : bytes;
  DescNextRunTime : option Time;
  DescNotifyOnSuccess : bytes;
  DescNotifyOnErr : bytes;
  DescNotifyOnFail : bytes;
  DescErrHandler : bytes
}.

Record LogDesc := mkLogDesc {
  LogTime : Time;
  LogJob : bytes;
  LogSucceeded : bool;
  LogFate : bytes;
  LogExecTime : Duration;
  LogResult : bytes
}.

Inductive ICmdResp :=
| ErrorCmdResp (err : error)
| ReloadCmdResp (NumJobs : nat)
| ListJobsCmdResp (Jobs : list JobDesc)
| LogCmdResp (Logs : list LogDesc)
| TestCmdResp (UnixSocketPath : bytes)
| CatCmdResp (Result : bytes)
| PauseCmdResp (NumPaused : nat)
| ResumeCmdResp (NumResumed : nat)
| InitCmdResp (JobfilePath : bytes)
| SetJobCmdResp (Ok : bool)
| DeleteJobCmdResp (Ok : bool).

(** [ICmdResp.Error] *)
Definition resp_Error (r : ICmdResp) : option error :=
  match r with ErrorCmdResp err => Some err | _ => None end.

Inductive IpcServerType := IpcServerTypeUds | IpcServerTypeInet.

(** ** Events and inputs *)

(** A turn of the job-runner thread, of a run, or of the main goroutine reading a
    record. *)
Inductive thread_event :=
| TPop (fuel : nat) (now start : Time) (ws : list wakeup)
| TFinish (i : nat) (finished : Time) (exec : outcome ExecResult)
| TRecv (i : nat) (now : Time).

Record Inputs := mkInputs {
  in_now : Time;
  in_order : gmap bytes Job → list bytes;
  in_raws : gmap bytes JobV3Raw → list (bytes * JobV3Raw);
  in_listen : serverId → outcome unit;
  in_file : outcome OpenFile;
  in_drain : list thread_event;
  in_test : outcome bytes;
  in_log : bytes → bool
}.

(** The orders are orders of the map's elements. *)
Definition inputs_ok (i : Inputs) : Prop :=
  (∀ m, in_order i m ≡ₚ (map_to_list m).*1) ∧ (∀ m, in_raws i m ≡ₚ map_to_list m).

Section Manager.
Context `{Location} `{FloatFraction} `{TempNames} (lib_error_text : error → bytes).
Context `{YaccErrors} `{R : Rand} `{Yaml} `{YamlDoc}.

Record JobManager := mkJobManager {
  user : UserRec;
  jobfilePath : bytes;
  launched : bool;
  jfile : option JobFile;
  jobRunner : JobRunnerThread;
  outside : Outside
}.

Abbreviation M := (stM JobManager).

Definition set_jfile (jf : option JobFile) : M unit := modifyS (λ s,
  mkJobManager (user s) (jobfilePath s) (launched s) jf (jobRunner s) (outside s)).

Definition set_runner (t : JobRunnerThread) : M unit := modifyS (λ s,
  mkJobManager (user s) (jobfilePath s) (launched s) (jfile s) t (outside s)).

(** [self.jfile], dereferenced. *)
Definition get_jfile : M JobFile := λ s,
  match jfile s with
  | Some jf => (Ret jf, s)
  | None => (Panic nil_dereference, s)
  end.

Definition with_jobs (jf : JobFile) (jobs : gmap bytes Job) : JobFile :=
  mkJobFile (Prefs jf) jobs (Raw jf).

Definition set_jobs (jobs : gmap bytes Job) : M unit :=
  jf ← get_jfile; set_jfile (Some (with_jobs jf jobs)).

Definition on_outside {A} (m : stM Outside A) : M A := λ s,
  let '(r, o) := m (outside s) in
  (r, mkJobManager (user s) (jobfilePath s) (launched s) (jfile s) (jobRunner s) o).

Definition set_disk (e : Env) (d : fsys) : Env :=
  mkEnv (stdout e) (calls e) (execs e) (registry e) (dirs e) d (logger e) (err_logger e).

(** A method of [self.jfile.Prefs.RunLog] *)
Definition on_log {A} (m : stM AnyLog A) : M A := λ s,
  match jfile s with
  | None => (Panic nil_dereference, s)
  | Some jf =>
     let o := outside s in
     let '(r, l) := m (mkAnyLog (PrefsRunLog (Prefs jf)) (disk (env o))) in
     (r, mkJobManager (user s) (jobfilePath s) (launched s)
           (Some (mkJobFile (mkPrefs (impl l) (LogPath (Prefs jf))) (Jobs jf) (Raw jf)))
           (jobRunner s) (mkOutside (set_disk (env o) (any_fs l)) (random o) (loggers o)))
  end.

#[local] Instance manager_log : RunLog AnyLog := any_RunLog lib_error_text.

(** ** Records of runs *)

(** The sinks a record goes to. *)
Definition sinksToNotify (job : Job) (rec : RunRec) : list ResultSink :=
  (match Fate rec with
   | SubprocFateSucceeded => NotifyOnSuccess job
   | SubprocFateFailed => NotifyOnError job
   | SubprocFateCancelled => []
   end) ++
  (if bool_decide (NewStatus rec = JobFailed) then NotifyOnFailure job else []).

Fixpoint notify (now : Time) (sinks : list ResultSink) (job : Job) (rec : RunRec)
    : stM Env unit :=
  match sinks with
  | [] => mret tt
  | sink :: sinks => sink_Handle now sink job rec;; notify now sinks job rec
  end.

Definition log_entry (job : Job) (rec : RunRec) : RunLogEntry :=
  mkRunLogEntry (Name job) (RunTime rec) (Fate rec) (NewStatus rec) (ExecTime rec).

(** An error of [Put] is ignored. *)
Definition handleRunRec (now : Time) (rec : RunRec) : M unit :=
  match Err rec with
  | Some e => panicS (Error_text lib_error_text e)
  | None =>
     jf ← get_jfile;
     match Jobs jf !! RecJob rec with
     | None => panicS nil_dereference
     | Some job =>
        ignore (on_log (Put (log_entry job rec)));;
        on_outside (on_env (notify now (sinksToNotify job rec) job rec))
     end
  end.

(** ** The job-runner thread, from the main goroutine *)

Definition do_thread (ev : thread_event) : M unit :=
  s ← getS;
  jf ← get_jfile;
  match ev with
  | TPop fuel now start ws =>
     '(t, jobs) ← liftS (thread_pop fuel now start ws (jobRunner s) (Jobs jf));
     set_runner t;; set_jobs jobs
  | TFinish i finished exec =>
     let '(t, jobs) := thread_finish i finished exec (jobRunner s) (Jobs jf) in
     set_runner t;; set_jobs jobs
  | TRecv i now =>
     match thread_recv i (jobRunner s) with
     | None => mret tt
     | Some (rec, t) => set_runner t;; handleRunRec now rec
     end
  end.

Fixpoint do_threads (evs : list thread_event) : M unit :=
  match evs with
  | [] => mret tt
  | ev :: evs => do_thread ev;; do_threads evs
  end.

Definition unless_closed (m : M unit) : M unit := λ s,
  if chan_is_closed (jobRunner s) then (Ret tt, s) else m s.

(** [for rec := range self.jobRunner.RunRecChan() { self.handleRunRec(rec) }], while
    the thread goes on: the loop ends when the channel is closed, and goes on as
    long as it is not. *)
Definition drain (evs : list thread_event) : M unit :=
  unless_closed (do_threads evs);;
  unless_closed (λ s, (Running, s)).

Definition start_runner (inp : Inputs) : M unit :=
  s ← getS;
  jf ← get_jfile;
  '(t, jobs) ← liftS (Start (in_now inp) (in_order inp (Jobs jf)) (jobRunner s) (Jobs jf));
  set_runner t;; set_jobs jobs.

Definition cancel_runner : M unit := s ← getS; set_runner (Cancel (jobRunner s)).

(** ** Jobfiles *)

(** [common.SetLogFile] with the path of the preferences, or else the standard streams;
    [in_log] says which log files can be opened. *)
Definition setLoggers (inp : Inputs) (path : bytes) : M unit :=
  on_outside (on_loggers (
    if bool_decide (0 < length path)%nat then SetLogFile (in_log inp) [path]
    else LogToStdoutStderr)).

Definition replaceCurrJobfile (inp : Inputs) (raw : JobFileV3Raw) : M unit :=
  cancel_runner;;
  drain (in_drain inp);;
  s ← getS;
  r ← try_ (on_outside (Activate lib_error_text (in_listen inp) raw (user s)
                          (in_raws inp (RawJobs raw))));
  match r with
  | inr err => set_jfile None;; start_runner inp
  | inl jf =>
     set_jfile (Some jf);;
     setLoggers inp (LogPath (Prefs jf));;
     start_runner inp
  end.

(** An [IsNotExist] error from below is wrapped, any other handed on. *)
Definition not_exist_wrapped {A} (m : outcome A) : outcome A :=
  match m with
  | Fail err => if IsNotExist err then Fail (CommonError "Problem with jobfile" (Some err))
                else Fail err
  | m => m
  end.

Definition openJobfile (file : outcome OpenFile) (usr : UserRec) : outcome JobFileV3Raw :=
  f ← file;
  not_exist_wrapped (ShouldLoadJobfile f usr);;
  not_exist_wrapped (data ← content f; LoadJobfile data).

Definition loadJobfile (inp : Inputs) : M unit :=
  s ← getS;
  match openJobfile (in_file inp) (user s) with
  | Ret raw => replaceCurrJobfile inp raw
  | Fail err =>
     if IsNotExist err then replaceCurrJobfile inp NewEmptyRawJobFile
     else
       (if negb (Running_ (jobRunner s)) then start_runner inp else mret tt);;
       failS err
  | Panic msg => panicS msg
  | Running => λ s, (Running, s)
  end.

(** ** Commands *)

(** [if err := f(); err != nil { return NewErrorCmdResp(err) }] *)
Definition or_error_resp (m : M ICmdResp) : M ICmdResp :=
  r ← try_ m;
  match r with inl resp => mret resp | inr err => mret (ErrorCmdResp err) end.

Definition doReloadCmd (inp : Inputs) : M ICmdResp := or_error_resp (
  loadJobfile inp;;
  jf ← get_jfile;
  mret (ReloadCmdResp (size (Jobs jf)))).

Definition resultSinksString (sinks : list ResultSink) : bytes :=
  Join (map sink_String sinks) ",".

Definition job_desc (j : Job) : JobDesc :=
  let spec := JobTimeSpec j in
  mkJobDesc (Name j)
    (JobStatus_String (Status j) ++ (if Paused j then " (Paused)" else []))
    (Join [TimeSpec_String (Sec spec); TimeSpec_String (Min spec);
           TimeSpec_String (TimeSpec.Hour spec); TimeSpec_String (Mday spec);
           TimeSpec_String (Mon spec); TimeSpec_String (Wday spec)] " ")
    (if Paused j then None else NextRunTime j)
    (resultSinksString (NotifyOnSuccess j)) (resultSinksString (NotifyOnError j))
    (resultSinksString (NotifyOnFailure j)) (ErrorHandler_String (JobErrorHandler j)).

(** The jobs in the order the map is iterated. *)
Definition jobs_in_order (inp : Inputs) (jobs : gmap bytes Job) : list Job :=
  omap (λ name, jobs !! name) (in_order inp jobs).

Definition doListJobsCmd (inp : Inputs) : M ICmdResp :=
  jf ← get_jfile;
  mret (ListJobsCmdResp (map job_desc (jobs_in_order inp (Jobs jf)))).

Definition log_desc (l : RunLogEntry) : LogDesc :=
  mkLogDesc (EntryTime l) (JobName l) (bool_decide (EntryFate l = SubprocFateSucceeded))
    (SubprocFate_String (EntryFate l)) (EntryExecTime l) (JobStatus_String (EntryResult l)).

Definition doLogCmd : M ICmdResp := or_error_resp (
  entries ← on_log GetAll; mret (LogCmdResp (map log_desc entries))).

Definition no_such_job : error := CommonError "No such job." None.

(** [in_test] is the answer of the server of test jobs. *)
Definition doTestCmd (inp : Inputs) (job : bytes) : M ICmdResp := or_error_resp (
  jf ← get_jfile;
  match Jobs jf !! job with
  | None => failS no_such_job
  | Some _ => sockPath ← liftS (in_test inp); mret (TestCmdResp sockPath)
  end).

Definition doCatCmd (job : bytes) : M ICmdResp := or_error_resp (
  jf ← get_jfile;
  match Jobs jf !! job with
  | None => failS no_such_job
  | Some j => mret (CatCmdResp (Cmd j))
  end).

(** The names of the jobs a command is about: all of them if it names none. *)
Fixpoint look_up (jobs : gmap bytes Job) (names : list bytes) : outcome unit :=
  match names with
  | [] => Ret tt
  | name :: names =>
     match jobs !! name with
     | None => Fail (CommonError ("No such job: " ++ name) None)
     | Some _ => look_up jobs names
     end
  end.

Definition jobs_named (inp : Inputs) (jobs : gmap bytes Job) (names : list bytes)
    : outcome (list bytes) :=
  match names with
  | [] => Ret (in_order inp jobs)
  | _ => look_up jobs names;; Ret names
  end.

(** The loop that sets [Paused] to [to] and counts the jobs that had it otherwise. *)
Fixpoint set_paused (to : bool) (names : list bytes) (jobs : gmap bytes Job) (n : nat)
    : gmap bytes Job * nat :=
  match names with
  | [] => (jobs, n)
  | name :: names =>
     match jobs !! name with
     | Some job =>
        if eqb (Paused job) to then set_paused to names jobs n
        else set_paused to names (<[name := set_Paused job to]> jobs) (S n)
     | None => set_paused to names jobs n
     end
  end.

Definition doPauseCmd (inp : Inputs) (names : list bytes) : M ICmdResp := or_error_resp (
  jf ← get_jfile;
  jobsToPause ← liftS (jobs_named inp (Jobs jf) names);
  let '(jobs, numPaused) := set_paused true jobsToPause (Jobs jf) 0 in
  set_jobs jobs;; mret (PauseCmdResp numPaused)).

Definition doResumeCmd (inp : Inputs) (names : list bytes) : M ICmdResp := or_error_resp (
  jf ← get_jfile;
  jobsToResume ← liftS (jobs_named inp (Jobs jf) names);
  let '(jobs, numResumed) := set_paused false jobsToResume (Jobs jf) 0 in
  set_jobs jobs;; mret (ResumeCmdResp numResumed)).

(** The jobfile is created only if there is none at the path. *)
Definition create_jobfile (path : bytes) : stM fsys unit :=
  faulty (λ s, match files s !! path with
               | Some _ => (Fail (CommonError ("Jobfile already exists at " ++ path ++
                                               [newline]) None), s)
               | None => (Ret tt, mkFsys (<[path := []]> (files s)) (faults s))
               end);;
  file_Write path gDefaultJobfile.

Definition doInitCmd : M ICmdResp := or_error_resp (
  s ← getS;
  on_outside (on_env (on_disk (create_jobfile (jobfilePath s))));;
  mret (InitCmdResp (jobfilePath s))).

Definition doSetJobCmd (inp : Inputs) (name : bytes) (job : JobV3Raw) : M ICmdResp :=
  jf ← get_jfile;
  rawDup ← liftS (Dup (Raw jf));
  replaceCurrJobfile inp (mkJobFileV3 (Version rawDup) (RawPrefs rawDup)
                            (<[name := job]> (RawJobs rawDup)));;
  mret (SetJobCmdResp true).

(** The new raw jobfile is made without a version. *)
Definition doDeleteJobCmd (inp : Inputs) (job : bytes) : M ICmdResp :=
  jf ← get_jfile;
  replaceCurrJobfile inp (mkJobFileV3 SemVer_zero (RawPrefs (Raw jf))
                            (delete job (RawJobs (Raw jf))));;
  mret (DeleteJobCmdResp true).

Definition test_over_tcp : error :=
  LibError (dquote "test" ++ " is no longer supported over TCP").

Definition doCmd (inp : Inputs) (server : IpcServerType) (cmd : ICmd) : M ICmdResp :=
  match cmd with
  | ReloadCmd => doReloadCmd inp
  | ListJobsCmd => doListJobsCmd inp
  | LogCmd => doLogCmd
  | TestCmd job =>
     match server with
     | IpcServerTypeInet => mret (ErrorCmdResp test_over_tcp)
     | IpcServerTypeUds => doTestCmd inp job
     end
  | CatCmd job => doCatCmd job
  | PauseCmd jobs => doPauseCmd inp jobs
  | ResumeCmd jobs => doResumeCmd inp jobs
  | InitCmd => doInitCmd
  | SetJobCmd name job => doSetJobCmd inp name job
  | DeleteJobCmd job => doDeleteJobCmd inp job
  end.

(** ** The main loop *)

(** What the [select] of the main loop finds, and what goes on beside it: a turn of
    the job-runner thread or a record read from it, a command, a turn of the server
    of an address. *)
Inductive main_event :=
| MThread (ev : thread_event)
| MCmd (inp : Inputs) (server : IpcServerType) (cmd : ICmd)
| MServer (sid : serverId) (ev : RunRecServer.event).

Definition is_recv (ev : thread_event) : bool := match ev with TRecv _ _ => true | _ => false end.

(** A server of the registry goes on by itself. *)
Definition server_turn (sid : serverId) (ev : RunRecServer.event) : stM Env unit := λ e,
  match servers (registry e) !! sid with
  | None => (Ret tt, e)
  | Some srv =>
     match RunRecServer.step ev srv with
     | Ret srv' =>
        (Ret tt, mkEnv (stdout e) (calls e) (execs e)
                   (mkRegistry (<[sid := srv']> (servers (registry e))) (stopped (registry e)))
                   (dirs e) (disk e) (logger e) (err_logger e))
     | Fail err => (Fail err, e)
     | Panic msg => (Panic msg, e)
     | Running => (Running, e)
     end
  end.

Definition main_step (ev : main_event) : M (option ICmdResp) :=
  match ev with
  | MThread ev => λ s,
     if is_recv ev && chan_is_closed (jobRunner s)
     then (Panic "Job-runner thread ended prematurely.", s)
     else (do_thread ev;; mret None) s
  | MCmd inp server cmd => resp ← doCmd inp server cmd; mret (Some resp)
  | MServer sid ev => on_outside (on_env (server_turn sid ev));; mret None
  end.

Fixpoint main_loop (evs : list main_event) : M unit :=
  match evs with
  | [] => mret tt
  | ev :: evs => main_step ev;; main_loop evs
  end.

(** The end of the loop: the thread is stopped and its records are handled. *)
Definition shut_down (evs : list thread_event) : M unit := cancel_runner;; drain evs.

Definition NewJobManager (inp : Inputs) (path : bytes) (usr : UserRec) (o : Outside)
    : outcome JobManager :=
  match Activate lib_error_text (in_listen inp) NewEmptyRawJobFile usr
          (in_raws inp (RawJobs NewEmptyRawJobFile)) o with
  | (Ret jf, o) =>
     Ret (mkJobManager usr path false (Some jf) idle_thread (on_loggers LogToStdoutStderr o).2)
  | (Fail e, _) => Panic (Error_text lib_error_text e)
  | (Panic msg, _) => Panic msg
  | (Running, _) => Running
  end.

(** [Launch]; an error of the jobfile is logged. *)
Definition Launch (inp : Inputs) : M unit :=
  s ← getS;
  if launched s then failS (CommonError "Already launched." None)
  else
    ignore (loadJobfile inp);;
    modifyS (λ s, mkJobManager (user s) (jobfilePath s) true (jfile s) (jobRunner s) (outside s)).

End Manager.
