(* ===== verification/JobManagerFacts.v ===== *)
(** * What the job manager guarantees

    The invariant of the manager and that every event of the main loop keeps it;
    what is recorded about a run and who is told; what the commands change. *)

From S2P Require Import Prelude GoStrings Calendar SemVer TimeSpec TimeSpecParse Job JobQueue.
From S2P Require Import RunLog MemRunLog Durations FileSys FileRunLog FileRunLogFacts.
From S2P Require Import RunRecServer ResultSink JobFile JobRunner JobManager Logging.

Open Scope Z_scope.
Open Scope bytes_scope.
Open Scope list_scope.

(** ** The registry's servers *)

(** Every server keeps its promises about the records pushed to it. *)
Definition registry_ok (r : runRecServerRegistry) : Prop :=
  map_Forall (λ _ srv, ∃ pushed, server_ok pushed srv) (servers r).

Definition servers_ok (e : Env) : Prop := registry_ok (registry e).

Lemma registry_ok_insert r sid srv pushed gone :
  registry_ok r → server_ok pushed srv →
  registry_ok (mkRegistry (<[sid := srv]> (servers r)) gone).
Proof. intros Hr Hs. apply map_Forall_insert_2; [by exists pushed|done]. Qed.

Lemma server_ok_stoppable pushed srv : server_ok pushed srv → stoppable srv.
Proof. by intros (taken & _ & _ & Hc & _). Qed.

Lemma registry_ok_stoppable r : registry_ok r → map_Forall (λ _ s, stoppable s) (servers r).
Proof.
  intros Hr. apply (map_Forall_impl _ _ _ Hr). intros _ srv [pushed Hs].
  by eapply server_ok_stoppable.
Qed.

Lemma registry_Push_ok p a rec r :
  registry_ok r → ∃ r', registry_Push p a rec r = Ret r' ∧ registry_ok r'.
Proof.
  intros Hr. unfold registry_Push. destruct (servers r !! _) as [srv|] eqn:Hs; [|by exists r].
  destruct (running srv); simpl; [|by exists r].
  destruct (Hr _ _ Hs) as [pushed Hok].
  destruct (step_ok pushed (Pushed rec) srv Hok) as (srv' & E & Hok').
  simpl in E. rewrite E. simpl. eexists. split; [done|]. by eapply registry_ok_insert.
Qed.

Lemma set_servers_ok Listen addrs :
  keeps servers_ok (set_servers Listen addrs).
Proof.
  intros e He. destruct (set_servers_spec Listen addrs e) as (e' & E & Hlk).
  { by apply registry_ok_stoppable. }
  rewrite E. intros [p a] srv Hs. specialize (Hlk p a). rewrite Hs in Hlk.
  case_bool_decide; [|done].
  destruct (servers (registry e) !! _) as [srv0|] eqn:Hs0.
  - simplify_eq. by eapply He.
  - case_bool_decide; [|done]. simplify_eq. exists []. apply new_server_ok.
Qed.

Lemma server_turn_ok sid ev : keeps servers_ok (server_turn sid ev).
Proof.
  intros e He. unfold server_turn. destruct (servers _ !! sid) as [srv|] eqn:Hs; [|done].
  destruct (He _ _ Hs) as [pushed Hok]. destruct (step_ok pushed ev srv Hok) as (srv' & -> & Hok').
  by eapply registry_ok_insert.
Qed.

(** A server of the registry never panics, nor does a push to it. *)
Lemma server_turn_returns sid ev e :
  servers_ok e → ∃ e', server_turn sid ev e = (Ret tt, e').
Proof.
  intros He. unfold server_turn. destruct (servers _ !! sid) as [srv|] eqn:Hs; [|by eexists].
  destruct (He _ _ Hs) as [pushed Hok]. destruct (step_ok pushed ev srv Hok) as (srv' & -> & _).
  by eexists.
Qed.

(** ** Handling a record leaves the servers alone, but for pushing to them *)

Section Sinks.
Context `{Location}.

Lemma keeps_log_err l : keeps servers_ok (log_err l).
Proof. by apply keeps_modify. Qed.

Lemma keeps_log_out l : keeps servers_ok (log_out l).
Proof. by apply keeps_modify. Qed.

Lemma keeps_try_disk {A} (m : stM fsys A) : keeps servers_ok (try_ (on_disk m)).
Proof. apply keeps_try. intros e He. unfold on_disk. by destruct (m (disk e)). Qed.

Lemma keeps_try_exec args input : keeps servers_ok (try_ (ExecAndWait args input)).
Proof. apply keeps_try. intros e He. unfold ExecAndWait. by destruct (execs e). Qed.

Lemma keeps_try_mkdir dir : keeps servers_ok (try_ (os_Mkdir dir)).
Proof.
  apply keeps_try. intros e He. unfold os_Mkdir, on_disk.
  destruct (faulty _ _) as [[] d]; try done. by case_bool_decide.
Qed.

#[local] Hint Resolve keeps_log_err keeps_log_out keeps_try_disk keeps_try_exec
  keeps_try_mkdir : jobber.

Lemma keeps_delete_old dir maxAge now names : keeps servers_ok (delete_old dir maxAge now names).
Proof. induction names; cbn [delete_old]; keeps_step. Qed.

Lemma keeps_deleteOldOutputs dir maxAge now :
  keeps servers_ok (deleteOldOutputs dir maxAge now).
Proof. pose proof (keeps_delete_old dir maxAge now). unfold deleteOldOutputs. keeps_step. Qed.

Lemma keeps_write_output dir suffix t content :
  keeps servers_ok (write_output dir suffix t content).
Proof. unfold write_output. keeps_step. Qed.

#[local] Hint Resolve keeps_deleteOldOutputs keeps_write_output : jobber.

Lemma keeps_sink now sink job rec : keeps servers_ok (sink_Handle now sink job rec).
Proof.
  destruct sink; cbn [sink_Handle].
  - unfold SystemEmail_Handle. keeps_step.
  - unfold Program_Handle. keeps_step.
  - unfold Filesystem_Handle. keeps_step.
  - by apply keeps_modify.
  - intros e He. unfold Socket_Handle.
    destruct (registry_Push_ok Proto Address (SerializeRunRec job rec Data) (registry e) He)
      as (r & -> & Hr). exact Hr.
Qed.

Lemma keeps_notify now sinks job rec : keeps servers_ok (notify now sinks job rec).
Proof.
  pose proof keeps_sink. induction sinks; cbn [notify]; keeps_step.
Qed.

End Sinks.

Section Facts.
Context `{HL : Location} `{HF : FloatFraction} `{HT : TempNames} (lib_error_text : error → bytes).
Context `{HYE : YaccErrors} `{R : Rand} `{!RandOk R} `{HYaml : Yaml} `{HDoc : YamlDoc}.

Abbreviation Manager := (JobManager (R:=R)).

(** ** The invariant *)

Definition jobs_of (s : Manager) : gmap bytes Job := default ∅ (Jobs <$> jfile s).

(** There is a jobfile, the thread is in order with respect to its jobs, and every
    server keeps its promises. *)
Definition mgr_ok (s : Manager) : Prop :=
  is_Some (jfile s) ∧ thread_ok (jobRunner s) (jobs_of s) ∧ servers_ok (env (outside s)).

(** The thread runs, and goes on running. *)
Definition mgr_alive (s : Manager) : Prop := mgr_ok s ∧ alive (jobRunner s).

(** What happens while a jobfile is in place: its raw form and the configuration of
    its jobs stay the same. *)
Definition evolves (s s' : Manager) : Prop :=
  (alive (jobRunner s) → alive (jobRunner s')) ∧
  Raw <$> jfile s' = Raw <$> jfile s ∧
  same_jobs (jobs_of s) (jobs_of s') ∧
  user s' = user s ∧ jobfilePath s' = jobfilePath s ∧
  cancelled (jobRunner s') = cancelled (jobRunner s).

#[export] Instance evolves_preorder : PreOrder evolves.
Proof.
  split.
  - intros s. by split_and!.
  - intros s1 s2 s3 (A & B & C & D & E & F) (A' & B' & C' & D' & E' & F').
    split_and!; [auto|congruence|by etrans|congruence..].
Qed.

Lemma mgr_ok_jfile s : mgr_ok s → ∃ jf, jfile s = Some jf ∧ jobs_of s = Jobs jf.
Proof. intros ([jf Hjf] & _). exists jf. unfold jobs_of. by rewrite Hjf. Qed.

Lemma get_jfile_eq (s : Manager) jf : jfile s = Some jf → get_jfile s = (Ret jf, s).
Proof. intros H. unfold get_jfile. by rewrite H. Qed.

(** ** Records *)

(** The manager after a call of the log or of the sinks: only the log and what is
    outside have changed. *)
Definition touched (s s' : Manager) : Prop :=
  jobRunner s' = jobRunner s ∧ user s' = user s ∧ jobfilePath s' = jobfilePath s ∧
  launched s' = launched s ∧
  Jobs <$> jfile s' = Jobs <$> jfile s ∧ Raw <$> jfile s' = Raw <$> jfile s.

#[export] Instance touched_preorder : PreOrder touched.
Proof.
  split; [by intros s; split_and!|].
  intros s1 s2 s3 (A & B & C & D & E & F) (A' & B' & C' & D' & E' & F').
  split_and!; congruence.
Qed.

Lemma touched_jobs s s' : touched s s' → jobs_of s' = jobs_of s.
Proof. intros (_ & _ & _ & _ & E & _). unfold jobs_of. by rewrite E. Qed.

Lemma touched_ok s s' :
  touched s s' → servers_ok (env (outside s')) → mgr_ok s → mgr_ok s' ∧ evolves s s'.
Proof.
  intros T Hs ([jf Hjf] & Hok & _). pose proof (touched_jobs _ _ T) as Hj.
  destruct T as (E & Eu & Ep & _ & Ej & Er). split.
  - split_and!; [|by rewrite E, Hj|done]. rewrite Hjf in Ej.
    destruct (jfile s'); [by eexists|done].
  - unfold evolves. rewrite E, Hj. split_and!; done.
Qed.

Lemma on_log_touched {A} (m : stM AnyLog A) (s : Manager) :
  touched s (on_log m s).2 ∧
  registry (env (outside (on_log m s).2)) = registry (env (outside s)).
Proof.
  unfold on_log. destruct (jfile s) as [jf|] eqn:E; [|by split; [reflexivity|]].
  destruct (m _) as [r l]. simpl. split; [|done]. unfold touched. simpl. by rewrite E.
Qed.

Lemma on_env_touched {A} (m : stM Env A) (s : Manager) :
  touched s (on_outside (on_env m) s).2 ∧
  env (outside (on_outside (on_env m) s).2) = (m (env (outside s))).2.
Proof. unfold on_outside, on_env. by destruct (m (env (outside s))) as [r e]. Qed.

Lemma ignore_log_spec {A} (m : stM AnyLog A) :
  ∀ s, match ignore (on_log m) s with
       | (Ret _, s') => touched s s' ∧ registry (env (outside s')) = registry (env (outside s))
       | (Fail _, _) => False
       | _ => True
       end.
Proof.
  intros s. pose proof (on_log_touched m s) as T. unfold ignore, try_. rewrite stM_bind_eq.
  by destruct (on_log m s) as [[] s'].
Qed.

Lemma handleRunRec_ok now rec (s : Manager) :
  mgr_ok s →
  match handleRunRec lib_error_text now rec s with
  | (Ret _, s') => mgr_ok s' ∧ evolves s s' ∧ touched s s'
  | (Fail _, _) => False
  | _ => True
  end.
Proof.
  intros Hok. destruct (mgr_ok_jfile s Hok) as (jf & Hjf & _). unfold handleRunRec.
  destruct (Err rec); [done|]. rewrite (stM_bind_Ret _ _ _ _ _ (get_jfile_eq _ _ Hjf)).
  destruct (Jobs jf !! RecJob rec) as [job|]; [|done]. rewrite stM_bind_eq.
  pose proof (ignore_log_spec (Put (RunLog:=any_RunLog lib_error_text) (log_entry job rec)) s) as Hl.
  destruct (ignore _ s) as [[[]| | |] s1]; try done. destruct Hl as [T1 Hr1].
  destruct (on_env_touched (notify now (sinksToNotify job rec) job rec) s1) as [T2 He2].
  assert (Hk : servers_ok (env (outside s1))) by (unfold servers_ok; rewrite Hr1; apply Hok).
  pose proof (keeps_notify now (sinksToNotify job rec) job rec _ Hk) as Hn.
  unfold on_outside, on_env in *. destruct (notify _ _ _ _ _) as [[[]| | |] e]; try done.
  simpl in *. assert (T : touched s _) by (etrans; [exact T1|exact T2]).
  destruct (touched_ok _ _ T Hn Hok). done.
Qed.

(** ** Turns of the thread *)

(** The manager with a new thread and new jobs. *)
Lemma set_thread_jobs t jobs (s : Manager) jf :
  jfile s = Some jf →
  (set_runner t;; set_jobs jobs) s =
    (Ret tt, mkJobManager (user s) (jobfilePath s) (launched s) (Some (with_jobs jf jobs)) t
               (outside s)).
Proof.
  intros Hjf. unfold set_runner, modifyS. rewrite stM_bind_eq. cbv beta iota. unfold set_jobs.
  rewrite stM_bind_eq. erewrite get_jfile_eq by exact Hjf. done.
Qed.

Lemma thread_moved s s' t' jobs' jf :
  mgr_ok s → jfile s = Some jf →
  s' = mkJobManager (user s) (jobfilePath s) (launched s) (Some (with_jobs jf jobs')) t' (outside s) →
  thread_ok t' jobs' → same_jobs (Jobs jf) jobs' → cancelled t' = cancelled (jobRunner s) →
  (alive (jobRunner s) → alive t') → mgr_ok s' ∧ evolves s s'.
Proof.
  intros (_ & _ & Hs) Hjf -> Ht Hsame Hc Ha. split.
  - split_and!; [by eexists|done..].
  - unfold evolves, jobs_of. simpl. rewrite Hjf. by split_and!.
Qed.

Lemma thread_pop_cancelled fuel now start ws t jobs t' jobs' :
  thread_pop fuel now start ws t jobs = Ret (t', jobs') → cancelled t' = cancelled t.
Proof.
  unfold thread_pop. destruct (_ || _); [by intros [= <- <-]|].
  destruct (JobQueue_Pop _ _ _) as [[[]| | |] ?]; by intros [= <- <-].
Qed.

Lemma thread_finish_cancelled i finished exec t jobs t' jobs' :
  thread_finish i finished exec t jobs = (t', jobs') → cancelled t' = cancelled t.
Proof.
  unfold thread_finish. destruct (runs t !! i) as [r|]; [|by intros [= <- <-]].
  destruct (jobs !! _); [|by intros [= <- <-]]. destruct (RunJob _ _ _ _ _). by intros [= <- <-].
Qed.

(** A turn of the thread keeps the invariant; one that is not the reading of a record
    cannot panic. *)
Lemma do_thread_ok ev (s : Manager) :
  mgr_ok s →
  match do_thread lib_error_text ev s with
  | (Ret _, s') => mgr_ok s' ∧ evolves s s'
  | (Fail _, _) => False
  | _ => is_recv ev = true
  end.
Proof.
  intros Hok. destruct (mgr_ok_jfile s Hok) as (jf & Hjf & Hj).
  pose proof Hok as (_ & Ht & _). rewrite Hj in Ht. unfold do_thread.
  rewrite getS_bind, (stM_bind_Ret _ _ _ _ _ (get_jfile_eq _ _ Hjf)).
  destruct ev as [fuel now start ws|i finished exec|i now].
  - destruct (thread_pop_ok fuel now start ws _ _ Ht) as (t' & jobs' & E & Ht' & Hs & Ha).
    pose proof (thread_pop_cancelled _ _ _ _ _ _ _ _ E) as Hc.
    rewrite stM_bind_eq. unfold liftS. rewrite E.
    rewrite (set_thread_jobs t' jobs' s jf Hjf). by eapply thread_moved.
  - destruct (thread_finish _ _ _ _ _) as [t' jobs'] eqn:E.
    destruct (thread_finish_ok _ _ _ _ _ _ _ Ht E) as (Ht' & Hs & Ha).
    pose proof (thread_finish_cancelled _ _ _ _ _ _ _ E).
    rewrite (set_thread_jobs t' jobs' s jf Hjf). by eapply thread_moved.
  - destruct (thread_recv i (jobRunner s)) as [[rec t']|] eqn:E; [|by split; [|reflexivity]].
    destruct (thread_recv_ok _ _ _ _ _ Ht E) as (Ht' & _ & Ha).
    assert (Hc : cancelled t' = cancelled (jobRunner s)).
    { revert E. unfold thread_recv. destruct (waiting _ !! i); [|done]. by intros [= <- <-]. }
    unfold set_runner. rewrite modifyS_bind.
    destruct (thread_moved s _ t' (Jobs jf) jf Hok Hjf eq_refl Ht') as [Hok1 Hev]; [done..|].
    pose proof (handleRunRec_ok now rec _ Hok1) as Hr.
    replace (mkJobManager _ _ _ (Some (with_jobs jf (Jobs jf))) _ _)
      with (mkJobManager (user s) (jobfilePath s) (launched s) (jfile s) t' (outside s)) in *
      by (rewrite Hjf; by destruct jf).
    destruct (handleRunRec _ _ _ _) as [[]  s']; [|done..].
    destruct Hr as (? & ? & _). split; [done|]. by etrans.
Qed.

Lemma do_threads_ok evs (s : Manager) :
  mgr_ok s →
  match do_threads lib_error_text evs s with
  | (Ret _, s') => mgr_ok s' ∧ evolves s s'
  | (Fail _, _) => False
  | _ => True
  end.
Proof.
  revert s. induction evs as [|ev evs IH]; intros s Hok; cbn [do_threads].
  { by split; [|reflexivity]. }
  pose proof (do_thread_ok ev s Hok) as H1. rewrite stM_bind_eq.
  destruct (do_thread _ _ s) as [[[]| | |] s1]; try done. destruct H1 as [Hok1 Hev1].
  specialize (IH s1 Hok1). destruct (do_threads _ _ s1) as [[[]| | |] s2]; try done.
  destruct IH as [Hok2 Hev2]. split; [done|]. by etrans.
Qed.

(** When the draining loop ends, the channel is closed: no run is in progress and no
    record waits. *)
Lemma drain_ok evs (s : Manager) :
  mgr_ok s →
  match drain lib_error_text evs s with
  | (Ret _, s') => mgr_ok s' ∧ evolves s s' ∧ chan_is_closed (jobRunner s') = true
  | (Fail _, _) => False
  | _ => True
  end.
Proof.
  intros Hok. unfold drain. rewrite stM_bind_eq. unfold unless_closed at 1.
  destruct (chan_is_closed (jobRunner s)) eqn:Hc.
  - unfold unless_closed. rewrite Hc. by split_and!.
  - pose proof (do_threads_ok evs s Hok) as Hd.
    destruct (do_threads _ _ s) as [[[]| | |] s1]; try done. destruct Hd as [Hok1 Hev].
    unfold unless_closed. destruct (chan_is_closed (jobRunner s1)) eqn:Hc1; done.
Qed.

(** ** Starting the thread *)

Lemma names_of_raw (usr : UserRec) (raws : gmap bytes JobV3Raw) (jobs : gmap bytes Job) :
  (∀ name, match raws !! name with
           | Some raw => ∃ job, jobs !! name = Some job ∧ job_of_raw usr name raw job
           | None => jobs !! name = None
           end) →
  schedules_ok jobs ∧ map_Forall (λ name job, Name job = name) jobs.
Proof.
  intros Hlk. split; intros name job Hj; specialize (Hlk name);
    (destruct (raws !! name); [|congruence]); destruct Hlk as (job' & Hj' & Hraw); simplify_eq;
    [apply Hraw|apply Hraw].
Qed.

(** The thread has been started anew. *)
Definition fresh (t : JobRunnerThread) : Prop := alive t ∧ runs t = [] ∧ waiting t = [].

Lemma start_runner_ok inp (s : Manager) jf :
  inputs_ok inp → jfile s = Some jf → servers_ok (env (outside s)) →
  Running_ (jobRunner s) = false → schedules_ok (Jobs jf) →
  map_Forall (λ name job, Name job = name) (Jobs jf) →
  ∃ s', start_runner inp s = (Ret tt, s') ∧ mgr_ok s' ∧ fresh (jobRunner s') ∧
    Raw <$> jfile s' = Raw <$> jfile s ∧ Prefs <$> jfile s' = Prefs <$> jfile s ∧
    same_jobs (Jobs jf) (jobs_of s') ∧
    user s' = user s ∧ jobfilePath s' = jobfilePath s ∧ outside s' = outside s.
Proof.
  intros [Hord _] Hjf Hs Hr Hsch Hn.
  destruct (Start_ok (in_now inp) (in_order inp (Jobs jf)) (jobRunner s) (Jobs jf))
    as (t & jobs & E & Ht & Hsame & Hruns & Hw & Hc & Hl); [done..|].
  eexists. split.
  - unfold start_runner. rewrite getS_bind, (stM_bind_Ret _ _ _ _ _ (get_jfile_eq _ _ Hjf)).
    rewrite stM_bind_eq. unfold liftS. rewrite E. by apply set_thread_jobs.
  - simpl. rewrite Hjf. split; [by split_and!|]. by split_and!.
Qed.

Lemma Activate_ok Listen raw usr raws (o : Outside) jf o' :
  raws ≡ₚ map_to_list (RawJobs raw) → servers_ok (env o) →
  Activate lib_error_text Listen raw usr raws o = (Ret jf, o') →
  servers_ok (env o') ∧ Raw jf = raw ∧
  ∀ name, match RawJobs raw !! name with
          | Some r => ∃ job, Jobs jf !! name = Some job ∧ job_of_raw usr name r job
          | None => Jobs jf !! name = None
          end.
Proof.
  intros Hraws Ho E. destruct (Activate_inv _ _ _ _ _ _ _ _ E)
    as (s1 & s2 & Hr1 & He2 & Hjobs & Hset & Hraw).
  split; [|split; [done|]].
  - assert (Hk : servers_ok (env s2)) by (unfold servers_ok; by rewrite He2, Hr1).
    pose proof (set_servers_ok Listen (socket_addresses (Jobs jf)) _ Hk) as Hs.
    by rewrite Hset in Hs.
  - assert (Hnd : NoDup raws.*1) by (rewrite Hraws; apply NoDup_fst_map_to_list).
    destruct (to_jobs_spec _ _ _ _ _ _ Hjobs Hnd) as [_ Hlk].
    intros name. specialize (Hlk name).
    rewrite (list_to_map_proper raws (map_to_list (RawJobs raw))) in Hlk by done.
    rewrite list_to_map_to_list in Hlk. destruct (RawJobs raw !! name); [done|].
    by rewrite lookup_empty in Hlk.
Qed.

(** The jobs of the manager are those of the raw jobfile. *)
Definition jobs_from (raw : JobFileV3Raw) (s : Manager) : Prop :=
  Raw <$> jfile s = Some raw ∧
  ∀ name, match RawJobs raw !! name with
          | Some r => ∃ job job0, jobs_of s !! name = Some job ∧
              configuration job = configuration job0 ∧ job_of_raw (user s) name r job0
          | None => jobs_of s !! name = None
          end.

Lemma cancel_spec (s : Manager) :
  mgr_ok s → ∃ s0, cancel_runner s = (Ret tt, s0) ∧ mgr_ok s0 ∧
    jfile s0 = jfile s ∧ user s0 = user s ∧ jobfilePath s0 = jobfilePath s.
Proof. intros (Hj & Ht & Hs). eexists. split; [done|]. by split_and!. Qed.

(** Stopping the thread: in the end its channel is closed, and the jobfile is the
    one it was. *)
Lemma stop_spec evs (s : Manager) :
  mgr_ok s →
  match (cancel_runner;; drain lib_error_text evs) s with
  | (Ret _, s1) => mgr_ok s1 ∧ chan_is_closed (jobRunner s1) = true ∧
      Running_ (jobRunner s1) = false ∧ Raw <$> jfile s1 = Raw <$> jfile s ∧
      same_jobs (jobs_of s) (jobs_of s1) ∧ user s1 = user s ∧ jobfilePath s1 = jobfilePath s
  | (Fail _, _) => False
  | _ => True
  end.
Proof.
  intros Hok. destruct (cancel_spec s Hok) as (s0 & E & Hok0 & Hj & Hu & Hp).
  rewrite (stM_bind_Ret _ _ _ _ _ E). pose proof (drain_ok evs s0 Hok0) as Hd.
  destruct (drain _ _ s0) as [[[]| | |] s1]; try done.
  destruct Hd as (Hok1 & (_ & Hraw & Hsame & Hu1 & Hp1 & _) & Hc).
  assert (Hj0 : jobs_of s0 = jobs_of s) by (unfold jobs_of; by rewrite Hj). rewrite Hj0 in Hsame.
  split_and!; [done..| | |done| |]; [|congruence..].
  destruct Hok1 as (_ & (_ & _ & _ & _ & Hr) & _). by rewrite Hr, Hc.
Qed.

Lemma activation_fails inp (s : Manager) :
  (set_jfile None;; start_runner inp) s =
  (Panic nil_dereference,
   mkJobManager (user s) (jobfilePath s) (launched s) None (jobRunner s) (outside s)).
Proof. done. Qed.

(** Activating a jobfile leaves the loggers alone. *)
Lemma Activate_loggers Listen raw usr raws (o : Outside) :
  loggers (Activate (R:=R) lib_error_text Listen raw usr raws o).2 = loggers o.
Proof.
  set (P := λ o' : Outside (R:=R), loggers o' = loggers o).
  assert (He : ∀ A (m : stM Env A), stays P (on_env m)).
  { intros A m s Hs. unfold on_env. by destruct (m (env s)). }
  assert (Hr : ∀ A (m : stM rng A), stays P (on_random m)).
  { intros A m s Hs. unfold on_random. by destruct (m (random s)). }
  assert (Hj : ∀ jobs, stays P (to_jobs usr raws jobs)).
  { induction raws as [|[name r] raws IH]; intros jobs; cbn [to_jobs]; stays_step. }
  assert (Ha : stays P (Activate lib_error_text Listen raw usr raws)); [|by apply (Ha o)].
  unfold Activate. stays_step.
Qed.

(** What [setLoggers] makes of the loggers *)
Definition loggers_for (inp : Inputs) (path : bytes) (l : logging) : logging :=
  if bool_decide (0 < length path)%nat then (SetLogFile (in_log inp) [path] l).2
  else (LogToStdoutStderr l).2.

Lemma setLoggers_eq inp path (s : Manager) :
  setLoggers inp path s =
  (Ret tt, mkJobManager (user s) (jobfilePath s) (launched s) (jfile s) (jobRunner s)
             (mkOutside (env (outside s)) (random (outside s))
                (loggers_for inp path (loggers (outside s))))).
Proof.
  unfold setLoggers, loggers_for, on_outside, on_loggers. case_bool_decide; [|done].
  unfold SetLogFile, os_OpenFile. rewrite stM_bind_eq. by destruct (in_log inp path).
Qed.

Lemma replace_spec inp raw (s : Manager) :
  mgr_ok s → inputs_ok inp →
  match replaceCurrJobfile lib_error_text inp raw s with
  | (Ret _, s') =>
     (∃ s1, (cancel_runner;; drain lib_error_text (in_drain inp)) s = (Ret tt, s1) ∧
            chan_is_closed (jobRunner s1) = true ∧
            (∃ jf, jfile s' = Some jf ∧
                   loggers (outside s') = loggers_for inp (LogPath (Prefs jf)) (loggers (outside s1)))) ∧
     mgr_ok s' ∧ fresh (jobRunner s') ∧ jobs_from raw s' ∧
     user s' = user s ∧ jobfilePath s' = jobfilePath s
  | (Fail _, _) => False
  | _ => True
  end.
Proof.
  intros Hok Hin. pose proof (stop_spec (in_drain inp) s Hok) as Hstop.
  assert (Hassoc : replaceCurrJobfile lib_error_text inp raw s =
    ((cancel_runner;; drain lib_error_text (in_drain inp)) ≫= λ _, s1 ← getS;
     r ← try_ (on_outside (Activate lib_error_text (in_listen inp) raw (user s1)
                             (in_raws inp (RawJobs raw))));
     match r with
     | inr err => set_jfile None;; start_runner inp
     | inl jf => set_jfile (Some jf);; setLoggers inp (LogPath (Prefs jf));; start_runner inp
     end) s).
  { unfold replaceCurrJobfile. rewrite !stM_bind_eq. by destruct (cancel_runner s) as [[] ?]. }
  rewrite Hassoc. clear Hassoc. rewrite stM_bind_eq.
  destruct ((cancel_runner;; _) s) as [[[]| | |] s1]; try done.
  destruct Hstop as (Hok1 & Hc & Hr & _ & _ & Hu & Hp).
  rewrite getS_bind, stM_bind_eq. unfold try_, on_outside.
  destruct (Activate _ _ _ _ _ _) as [[jf|e| |] o'] eqn:E; [|by rewrite activation_fails|done..].
  destruct Hin as [Hord Hraws].
  destruct (Activate_ok _ _ _ _ _ _ _ (Hraws (RawJobs raw)) (proj2 (proj2 Hok1)) E)
    as (Hs & Hraw & Hlk).
  destruct (names_of_raw _ _ _ Hlk) as [Hsch Hn].
  unfold set_jfile. rewrite modifyS_bind, (stM_bind_Ret _ _ _ _ _ (setLoggers_eq _ _ _)).
  destruct (start_runner_ok inp (mkJobManager (user s1) (jobfilePath s1) (launched s1) (Some jf)
              (jobRunner s1) (mkOutside (env o') (random o')
                 (loggers_for inp (LogPath (Prefs jf)) (loggers o')))) jf) as (s2 & E2 & Hok2 & Hf & Hraw2 & Hpr & Hsame & Hu2 & Hp2 & Ho2);
    [done..|].
  cbn [user jobfilePath launched jobRunner outside jfile]. rewrite E2.
  split; [|split; [done|]; split; [done|]; split; [split|split]].
  - exists s1. split; [done|]. split; [done|]. destruct (proj1 Hok2) as [jf2 Hjf2].
    exists jf2. split; [done|]. rewrite Hjf2 in Hpr. injection Hpr as ->. rewrite Ho2. cbn.
    f_equal. pose proof (Activate_loggers (in_listen inp) raw (user s1) (in_raws inp (RawJobs raw))
                           (outside s1)) as Hl. by rewrite E in Hl.
  - simpl in Hraw2. by rewrite Hraw2, <- Hraw.
  - intros name. specialize (Hlk name). specialize (Hsame name).
    destruct (RawJobs raw !! name) as [r|].
    + destruct Hlk as (job0 & Hj0 & Hj). rewrite Hj0 in Hsame.
      destruct (jobs_of s2 !! name) as [job|]; [|done]. injection Hsame as Hsame.
      exists job, job0. split; [done|]. split; [by destruct job, job0; simplify_eq/=|].
      rewrite Hu2. exact Hj.
    + rewrite Hlk in Hsame. by destruct (jobs_of s2 !! name).
  - by rewrite Hu2.
  - by rewrite Hp2.
Qed.

(** ** Commands *)

(** What every command comes to: the manager is in order and alive after it. *)
Definition lively {A} (m : stM Manager A) : Prop :=
  ∀ s, mgr_alive s → match m s with
                     | (Ret _, s') => mgr_alive s'
                     | (Fail _, _) => False
                     | _ => True
                     end.

Lemma mgr_alive_jfile s : mgr_alive s → ∃ jf, jfile s = Some jf ∧ jobs_of s = Jobs jf.
Proof. intros [Hok _]. by apply mgr_ok_jfile. Qed.

Lemma evolves_alive s s' : mgr_alive s → mgr_ok s' → evolves s s' → mgr_alive s'.
Proof. intros [_ Ha] Hok (Hev & _). split; auto. Qed.

Lemma fresh_alive s : mgr_ok s → fresh (jobRunner s) → mgr_alive s.
Proof. intros Hok (Ha & _). by split. Qed.

Lemma alive_open t jobs : thread_ok t jobs → alive t → chan_is_closed t = false ∧ Running_ t = true.
Proof.
  intros (_ & _ & _ & _ & Hr) [_ Hl]. assert (chan_is_closed t = false) as Hc.
  { unfold chan_is_closed. by rewrite Hl. }
  split; [done|]. by rewrite Hr, Hc.
Qed.

(** A command that answers with the state it finds, or with an error. *)
Lemma lively_same {A} (m : stM Manager A) :
  (∀ s jf, jfile s = Some jf → ∃ r, m s = (r, s) ∧ ∀ e, r ≠ Fail e) → lively m.
Proof.
  intros Hm s Ha. destruct (mgr_alive_jfile s Ha) as (jf & Hjf & _).
  destruct (Hm s jf Hjf) as (r & -> & Hr). destruct r; try done. by eapply Hr.
Qed.

Lemma lively_or_error (m : stM Manager ICmdResp) :
  (∀ s, mgr_alive s → match m s with
                      | (Ret _, s') | (Fail _, s') => mgr_alive s'
                      | _ => True
                      end) → lively (or_error_resp m).
Proof.
  intros Hm s Ha. specialize (Hm s Ha). unfold or_error_resp, try_. rewrite stM_bind_eq.
  by destruct (m s) as [[] s'].
Qed.

Lemma touched_alive s s' :
  touched s s' → registry (env (outside s')) = registry (env (outside s)) →
  mgr_alive s → mgr_alive s'.
Proof.
  intros T Hr Ha. destruct (touched_ok s s' T) as [Hok' Hev]; [|apply Ha|by eapply evolves_alive].
  unfold servers_ok. rewrite Hr. apply Ha.
Qed.

Lemma openJobfile_cases file usr :
  (∃ raw, openJobfile file usr = Ret raw) ∨ (∃ e, openJobfile file usr = Fail e) ∨
  (∃ msg, openJobfile file usr = Panic msg) ∨ openJobfile file usr = Running.
Proof. destruct (openJobfile file usr); eauto. Qed.

Lemma thread_ok_starts t jobs :
  thread_ok t jobs → schedules_ok jobs ∧ map_Forall (λ name job, Name job = name) jobs.
Proof. intros ((_ & _ & Hs) & Hn & _). by split. Qed.

(** An error leaves the jobfile as it is and, if the thread runs, everything. *)
Lemma loadJobfile_spec inp (s : Manager) :
  mgr_ok s → inputs_ok inp →
  match loadJobfile lib_error_text inp s with
  | (Ret _, s') => mgr_alive s'
  | (Fail e, s') =>
     openJobfile (in_file inp) (user s) = Fail e ∧ IsNotExist e = false ∧
     if Running_ (jobRunner s) then s' = s
     else mgr_alive s' ∧ Raw <$> jfile s' = Raw <$> jfile s ∧ same_jobs (jobs_of s) (jobs_of s')
  | _ => True
  end.
Proof.
  intros Hok Hin. unfold loadJobfile. rewrite getS_bind.
  assert (Hrep : ∀ raw, match replaceCurrJobfile lib_error_text inp raw s with
                        | (Ret _, s') => mgr_alive s'
                        | (Fail _, _) => False
                        | _ => True
                        end).
  { intros raw. pose proof (replace_spec inp raw s Hok Hin) as Hs.
    destruct (replaceCurrJobfile _ _ _ s) as [[[]| | |] s']; try done.
    destruct Hs as (_ & Hok' & Hf & _). by apply fresh_alive. }
  destruct (openJobfile (in_file inp) (user s)) as [raw|e|msg|]; [| |done..].
  { specialize (Hrep raw). by destruct (replaceCurrJobfile _ _ _ s) as [[] s']. }
  destruct (IsNotExist e) eqn:He.
  { specialize (Hrep NewEmptyRawJobFile). by destruct (replaceCurrJobfile _ _ _ s) as [[] s']. }
  rewrite stM_bind_eq. destruct (Running_ (jobRunner s)) eqn:Hr; [done|].
  destruct (mgr_ok_jfile s Hok) as (jf & Hjf & Hj). pose proof Hok as (_ & Ht & Hsv).
  destruct (thread_ok_starts _ _ Ht) as [Hsch Hn]. rewrite Hj in Hsch, Hn.
  destruct (start_runner_ok inp s jf Hin Hjf Hsv Hr Hsch Hn)
    as (s' & E & Hok' & Hf & Hraw & _ & Hsame & _).
  cbn [negb]. rewrite E. split; [done|]. split; [done|]. rewrite Hj.
  split; [by apply fresh_alive|done].
Qed.

(** ** Pausing and resuming *)

(** The jobs among the named ones whose pause a command changes. *)
Definition to_change (to : bool) (names : list bytes) (jobs : gmap bytes Job) : gset bytes :=
  base.filter (λ name, Paused <$> jobs !! name = Some (negb to)) (list_to_set names).

Lemma elem_to_change (to : bool) (names : list bytes) (jobs : gmap bytes Job) (name : bytes) :
  name ∈ to_change to names jobs ↔
  name ∈ names ∧ ∃ job, jobs !! name = Some job ∧ Paused job = negb to.
Proof.
  unfold to_change. rewrite elem_of_filter, elem_of_list_to_set, fmap_Some. naive_solver.
Qed.

Lemma to_change_cons_same (to : bool) (name : bytes) (names : list bytes) (jobs : gmap bytes Job) :
  Paused <$> jobs !! name ≠ Some (negb to) →
  to_change to (name :: names) jobs = to_change to names jobs.
Proof. intros Hn. unfold to_change. set_solver. Qed.

Lemma to_change_cons (to : bool) (name : bytes) (names : list bytes) (jobs : gmap bytes Job) job :
  jobs !! name = Some job → Paused job = negb to →
  size (to_change to (name :: names) jobs) =
  S (size (to_change to names (<[name := set_Paused job to]> jobs))).
Proof.
  intros Hj Hp.
  assert (E : to_change to (name :: names) jobs =
              {[name]} ∪ to_change to names (<[name := set_Paused job to]> jobs)).
  { apply set_eq. intros x. rewrite elem_of_union, elem_of_singleton, !elem_to_change.
    rewrite elem_of_cons. destruct (decide (x = name)) as [->|Hne].
    - rewrite lookup_insert_eq. naive_solver.
    - rewrite lookup_insert_ne by done. naive_solver. }
  rewrite E, size_union, size_singleton; [done|].
  apply disjoint_singleton_l. rewrite elem_to_change, lookup_insert_eq.
  intros (_ & j & [= <-] & Hj'). destruct job, to; simpl in *; done.
Qed.

Lemma set_paused_spec (to : bool) (names : list bytes) (jobs jobs' : gmap bytes Job) n n' :
  set_paused to names jobs n = (jobs', n') →
  n' = (n + size (to_change to names jobs))%nat ∧
  ∀ name, jobs' !! name =
    (λ job, if bool_decide (name ∈ names) then set_Paused job to else job) <$> jobs !! name.
Proof.
  revert jobs n. induction names as [|x names IH]; intros jobs n; cbn [set_paused].
  { intros [= <- <-]. split.
    - assert (to_change to [] jobs = ∅) as ->; [|rewrite size_empty; lia].
      apply set_eq. intros x. rewrite elem_to_change, elem_of_empty.
      split; [|done]. by intros [?%not_elem_of_nil _].
    - intros name. rewrite bool_decide_false by apply not_elem_of_nil.
      by destruct (jobs !! name). }
  assert (Hcons : ∀ name, name ≠ x → bool_decide (name ∈ x :: names) = bool_decide (name ∈ names)).
  { intros name Hne. apply bool_decide_ext. rewrite elem_of_cons. naive_solver. }
  assert (Hx : bool_decide (x ∈ x :: names) = true) by (apply bool_decide_true; constructor).
  destruct (jobs !! x) as [job|] eqn:Hj; [destruct (eqb (Paused job) to) eqn:Hp|].
  - assert (Paused job = to) by by apply eqb_prop. clear Hp. rename H into Hp. intros E. destruct (IH _ _ E) as [Hn Hl]. split.
    + rewrite to_change_cons_same; [done|]. rewrite Hj. cbn. rewrite Hp. by destruct to.
    + intros name. rewrite Hl. destruct (decide (name = x)) as [->|Hne]; [|by rewrite Hcons].
      assert (Es : set_Paused job to = job) by (destruct job; simpl in *; congruence).
      rewrite Hx, Hj. cbn [fmap option_fmap option_map]. rewrite Es.
      clear Hx. by case_bool_decide.
  - assert (Paused job = negb to) by (destruct (Paused job), to; done).
    intros E. destruct (IH _ _ E) as [Hn Hl]. split.
    + rewrite (to_change_cons _ _ _ _ job) by done. lia.
    + intros name. rewrite Hl. destruct (decide (name = x)) as [->|Hne].
      * rewrite lookup_insert_eq, Hx, Hj. cbn [fmap option_fmap option_map].
        clear Hx. by case_bool_decide; destruct job.
      * by rewrite lookup_insert_ne, Hcons.
  - intros E. destruct (IH _ _ E) as [Hn Hl]. split.
    + rewrite to_change_cons_same; [done|]. by rewrite Hj.
    + intros name. rewrite Hl. destruct (decide (name = x)) as [->|Hne]; [by rewrite Hj|].
      by rewrite Hcons.
Qed.

(** A change of the pauses leaves the thread in order. *)
Lemma thread_ok_paused (to : bool) (names : list bytes) (t : JobRunnerThread) (jobs jobs' : gmap bytes Job) n n' :
  set_paused to names jobs n = (jobs', n') → thread_ok t jobs → thread_ok t jobs'.
Proof.
  revert jobs n. induction names as [|x names IH]; intros jobs n; cbn [set_paused].
  { by intros [= <- _]. }
  destruct (jobs !! x) as [job|] eqn:Hj; [|apply IH].
  destruct (eqb _ _); [apply IH|]. intros E Hok. eapply IH; [exact E|].
  eapply thread_ok_same; [exact Hok| | |apply Hok|apply Hok|apply Hok].
  - apply (same_jobs_insert _ _ job); [done|]. by destruct job.
  - apply (queue_ok_update (mkQState (queue t) jobs []) _ job); [apply Hok|done|..];
      by destruct job.
Qed.

Lemma set_jobs_eq jobs (s : Manager) jf :
  jfile s = Some jf →
  set_jobs jobs s = (Ret tt, mkJobManager (user s) (jobfilePath s) (launched s)
                       (Some (with_jobs jf jobs)) (jobRunner s) (outside s)).
Proof. intros Hjf. unfold set_jobs. by rewrite (stM_bind_Ret _ _ _ _ _ (get_jfile_eq _ _ Hjf)). Qed.

(** The body the two commands share. *)
Definition pause_body (to : bool) (resp : nat → ICmdResp) (inp : Inputs) (names : list bytes)
    : stM Manager ICmdResp :=
  jf ← get_jfile;
  jobs ← liftS (jobs_named inp (Jobs jf) names);
  let '(jobs, n) := set_paused to jobs (Jobs jf) 0 in
  set_jobs jobs;; mret (resp n).

Lemma look_up_cases (jobs : gmap bytes Job) (names : list bytes) :
  (look_up jobs names = Ret tt ∧ ∀ name, name ∈ names → is_Some (jobs !! name)) ∨
  ∃ name, look_up jobs names = Fail (CommonError ("No such job: " ++ name) None) ∧
          name ∈ names ∧ jobs !! name = None.
Proof.
  induction names as [|x names IH]; cbn [look_up].
  { left. split; [done|]. by intros name ?%not_elem_of_nil. }
  destruct (jobs !! x) as [job|] eqn:Hj.
  - destruct IH as [[-> Hall]|(name & -> & Hin & Hn)].
    + left. split; [done|]. intros name [->|?]%elem_of_cons; [by eexists|auto].
    + right. exists name. split; [done|]. split; [by constructor|done].
  - right. exists x. split; [done|]. split; [constructor|done].
Qed.

Lemma pause_body_spec to resp inp names (s : Manager) jf :
  jfile s = Some jf →
  (∃ e, look_up (Jobs jf) names = Fail e ∧ pause_body to resp inp names s = (Fail e, s) ∧
        ∃ name, name ∈ names ∧ Jobs jf !! name = None) ∨
  ∃ jobs jobs' n, (∀ name, name ∈ names → is_Some (Jobs jf !! name)) ∧
    jobs = (match names with [] => in_order inp (Jobs jf) | _ => names end) ∧
    set_paused to jobs (Jobs jf) 0 = (jobs', n) ∧
    pause_body to resp inp names s =
      (Ret (resp n), mkJobManager (user s) (jobfilePath s) (launched s)
                       (Some (with_jobs jf jobs')) (jobRunner s) (outside s)).
Proof.
  intros Hjf. unfold pause_body. rewrite (stM_bind_Ret _ _ _ _ _ (get_jfile_eq _ _ Hjf)).
  rewrite stM_bind_eq. unfold liftS.
  assert (Hfin : ∀ jobs, (let '(jobs', n) := set_paused to jobs (Jobs jf) 0 in
            set_jobs jobs';; mret (resp n)) s =
            (Ret (resp (set_paused to jobs (Jobs jf) 0).2),
             mkJobManager (user s) (jobfilePath s) (launched s)
               (Some (with_jobs jf (set_paused to jobs (Jobs jf) 0).1)) (jobRunner s) (outside s))).
  { intros jobs. destruct (set_paused _ _ _ _) as [jobs' n]. by rewrite stM_bind_eq, (set_jobs_eq _ _ jf). }
  destruct names as [|x names]; cbn [jobs_named].
  - right. rewrite Hfin. eexists _, _, _. split; [by intros ? ?%not_elem_of_nil|].
    split; [done|]. split; [apply surjective_pairing|done].
  - destruct (look_up_cases (Jobs jf) (x :: names)) as [[-> Hall]|(name & E & Hin & Hn)].
    + right. cbn [mbind outcome_bind]. rewrite Hfin. eexists _, _, _. split; [exact Hall|].
      split; [done|]. split; [apply surjective_pairing|done].
    + left. rewrite E. eexists. split; [done|]. split; [done|]. by exists name.
Qed.

End Facts.
