(* ===== verification/CommandFacts.v ===== *)
(** * What the commands and the main loop guarantee

    The invariant of the manager holds in every reachable state; what handling a
    record, pausing, reloading, setting and deleting a job change. *)

From S2P Require Import Prelude GoStrings Calendar SemVer TimeSpec TimeSpecParse Job JobQueue.
From S2P Require Import RunLog MemRunLog Durations FileSys FileRunLog FileRunLogFacts.
From S2P Require Import RunRecServer ResultSink JobFile JobRunner JobManager JobManagerFacts Logging.

Open Scope Z_scope.
Open Scope bytes_scope.
Open Scope list_scope.

Section Commands.
Context `{HL : Location} `{HF : FloatFraction} `{HT : TempNames} (lib_error_text : error → bytes).
Context `{HYE : YaccErrors} `{R : Rand} `{!RandOk R} `{HYaml : Yaml} `{HDoc : YamlDoc}.

Abbreviation Manager := (JobManager (R:=R)).

(** ** Every command keeps the invariant *)

Lemma doReloadCmd_lively inp : inputs_ok inp → lively (R:=R) (doReloadCmd lib_error_text inp).
Proof.
  intros Hin. apply lively_or_error. intros s Ha. assert (Hok : mgr_ok s) by apply Ha.
  pose proof (loadJobfile_spec lib_error_text inp s Hok Hin) as Hl. rewrite stM_bind_eq.
  destruct (loadJobfile _ _ s) as [[[]|e| |] s']; try done.
  - destruct (mgr_alive_jfile s' Hl) as (jf & Hjf & _).
    by rewrite (stM_bind_Ret _ _ _ _ _ (get_jfile_eq _ _ Hjf)).
  - destruct Hl as (_ & _ & Hl).
    destruct (alive_open _ _ (proj1 (proj2 Hok)) (proj2 Ha)) as [_ Hr].
    rewrite Hr in Hl. by subst s'.
Qed.

Lemma doLogCmd_lively : lively (R:=R) (doLogCmd lib_error_text).
Proof.
  apply lively_or_error. intros s Ha. rewrite stM_bind_eq.
  destruct (on_log_touched (GetAll (RunLog:=any_RunLog lib_error_text)) s) as [T Hr].
  destruct (on_log _ s) as [[] s1]; try done; by eapply touched_alive.
Qed.

Lemma doTestCmd_lively inp job : lively (R:=R) (doTestCmd inp job).
Proof.
  apply lively_or_error. intros s Ha. destruct (mgr_alive_jfile s Ha) as (jf & Hjf & _).
  rewrite (stM_bind_Ret _ _ _ _ _ (get_jfile_eq _ _ Hjf)).
  destruct (Jobs jf !! job); [|done]. rewrite stM_bind_eq. unfold liftS. by destruct (in_test inp).
Qed.

Lemma doCatCmd_lively job : lively (R:=R) (doCatCmd job).
Proof.
  apply lively_or_error. intros s Ha. destruct (mgr_alive_jfile s Ha) as (jf & Hjf & _).
  rewrite (stM_bind_Ret _ _ _ _ _ (get_jfile_eq _ _ Hjf)). by destruct (Jobs jf !! job).
Qed.

Lemma pause_alive to names (s : Manager) jf jobs n :
  mgr_alive s → jfile s = Some jf → set_paused to names (Jobs jf) 0 = (jobs, n) →
  mgr_alive (mkJobManager (user s) (jobfilePath s) (launched s) (Some (with_jobs jf jobs))
               (jobRunner s) (outside s)).
Proof.
  intros [(_ & Ht & Hs) Ha] Hjf E. unfold jobs_of in Ht. rewrite Hjf in Ht.
  split; [|done]. split_and!; [by eexists| |done]. by eapply thread_ok_paused.
Qed.

Lemma pause_body_lively to resp inp names :
  lively (R:=R) (or_error_resp (pause_body to resp inp names)).
Proof.
  apply lively_or_error. intros s Ha. destruct (mgr_alive_jfile s Ha) as (jf & Hjf & _).
  destruct (pause_body_spec to resp inp names s jf Hjf)
    as [(e & _ & -> & _)|(jobs & jobs' & n & _ & _ & E & ->)]; [done|].
  by eapply pause_alive.
Qed.

Lemma doInitCmd_lively : lively (R:=R) doInitCmd.
Proof.
  apply lively_or_error. intros s Ha. rewrite getS_bind, stM_bind_eq.
  destruct (on_env_touched (on_disk (create_jobfile (jobfilePath s))) s) as [T He].
  assert (Hr : registry (env (outside (on_outside (on_env (on_disk (create_jobfile (jobfilePath s))))
                 s).2)) = registry (env (outside s))).
  { rewrite He. unfold on_disk. by destruct (create_jobfile _ _). }
  destruct (on_outside _ s) as [[] s1]; try done; by eapply touched_alive.
Qed.

Lemma replace_lively {A} inp raw (resp : A) :
  inputs_ok inp →
  lively (R:=R) (replaceCurrJobfile lib_error_text inp raw;; mret resp).
Proof.
  intros Hin s Ha. pose proof (replace_spec lib_error_text inp raw s (proj1 Ha) Hin) as Hr.
  rewrite stM_bind_eq. destruct (replaceCurrJobfile _ _ _ s) as [[[]| | |] s']; try done.
  destruct Hr as (_ & Hok & Hf & _). by apply fresh_alive.
Qed.

Lemma doSetJobCmd_lively inp name job :
  inputs_ok inp → lively (R:=R) (doSetJobCmd lib_error_text inp name job).
Proof.
  intros Hin s Ha. destruct (mgr_alive_jfile s Ha) as (jf & Hjf & _). unfold doSetJobCmd.
  rewrite (stM_bind_Ret _ _ _ _ _ (get_jfile_eq _ _ Hjf)), stM_bind_eq. unfold liftS, Dup.
  destruct (reencoded (Raw jf)) as [raw| | |]; [|done..]. cbn [panic_on_error].
  by apply replace_lively.
Qed.

Lemma doDeleteJobCmd_lively inp job :
  inputs_ok inp → lively (R:=R) (doDeleteJobCmd lib_error_text inp job).
Proof.
  intros Hin s Ha. destruct (mgr_alive_jfile s Ha) as (jf & Hjf & _). unfold doDeleteJobCmd.
  rewrite (stM_bind_Ret _ _ _ _ _ (get_jfile_eq _ _ Hjf)). by apply replace_lively.
Qed.

Lemma doCmd_lively inp server cmd :
  inputs_ok inp → lively (R:=R) (doCmd lib_error_text inp server cmd).
Proof.
  intros Hin. destruct cmd; cbn [doCmd].
  - by apply doReloadCmd_lively.
  - intros s Ha. destruct (mgr_alive_jfile s Ha) as (jf & Hjf & _). unfold doListJobsCmd.
    by rewrite (stM_bind_Ret _ _ _ _ _ (get_jfile_eq _ _ Hjf)).
  - apply doLogCmd_lively.
  - destruct server; [apply doTestCmd_lively|by intros s Ha].
  - apply doCatCmd_lively.
  - apply pause_body_lively.
  - apply pause_body_lively.
  - apply doInitCmd_lively.
  - by apply doSetJobCmd_lively.
  - by apply doDeleteJobCmd_lively.
Qed.

(** ** The main loop *)

Lemma main_step_lively ev :
  match ev with MCmd inp _ _ => inputs_ok inp | _ => True end →
  lively (R:=R) (main_step lib_error_text ev).
Proof.
  intros Hin s Ha. assert (Hok : mgr_ok s) by apply Ha. destruct ev as [ev|inp server cmd|sid ev].
  - cbn [main_step]. destruct (alive_open _ _ (proj1 (proj2 Hok)) (proj2 Ha)) as [-> _].
    rewrite andb_false_r, stM_bind_eq. pose proof (do_thread_ok lib_error_text ev s Hok) as Hd.
    destruct (do_thread _ ev s) as [[[]| | |] s']; try done.
    destruct Hd as [Hok' Hev]. by eapply evolves_alive.
  - cbn [main_step]. rewrite stM_bind_eq.
    pose proof (doCmd_lively inp server cmd Hin s Ha) as Hd.
    by destruct (doCmd _ _ _ _ s) as [[] s'].
  - cbn [main_step]. rewrite stM_bind_eq.
    destruct (on_env_touched (server_turn sid ev) s) as [T He].
    pose proof (server_turn_ok sid ev _ (proj2 (proj2 Hok))) as Hs.
    unfold on_outside, on_env in *. destruct (server_turn _ _ _) as [[[]| | |] e]; try done.
    destruct (touched_ok _ _ T) as [Hok' Hev]; [exact Hs|done|]. by eapply evolves_alive.
Qed.

(** What [NewJobManager], [Launch] and then events of the main loop lead to. *)
Inductive reachable : Manager → Prop :=
| reachable_launch inp0 inp path usr o s0 s :
    inputs_ok inp0 → inputs_ok inp → servers_ok (env o) →
    NewJobManager lib_error_text inp0 path usr o = Ret s0 →
    Launch lib_error_text inp s0 = (Ret tt, s) → reachable s
| reachable_step s ev resp s' :
    reachable s → match ev with MCmd inp _ _ => inputs_ok inp | _ => True end →
    main_step lib_error_text ev s = (Ret resp, s') → reachable s'.

Lemma idle_ok : thread_ok idle_thread ∅.
Proof.
  split; [|split; [by apply map_Forall_empty|by repeat constructor]].
  split; [|split; [|by apply map_Forall_empty]].
  - split; [constructor|]. split; [constructor|]. intros j Hj0. simpl in Hj0. lia.
  - intros name [t Ht]. unfold pending in Ht. cbn [JobQueue.jobs] in Ht.
    by rewrite lookup_empty in Ht.
Qed.

Lemma NewJobManager_ok inp path usr (o : Outside) s :
  inputs_ok inp → servers_ok (env o) →
  NewJobManager lib_error_text inp path usr o = Ret s →
  mgr_ok s ∧ Running_ (jobRunner s) = false ∧ launched s = false.
Proof.
  intros [_ Hraws] Ho. unfold NewJobManager.
  destruct (Activate _ _ _ _ _ _) as [[jf| | |] o'] eqn:E; [|done..]. intros [= <-].
  destruct (Activate_ok lib_error_text _ _ _ _ _ _ _ (Hraws _) Ho E) as (Hs & _ & Hlk).
  assert (Hj : Jobs jf = ∅).
  { apply map_eq. intros name. specialize (Hlk name). unfold NewEmptyRawJobFile in Hlk.
    cbn [RawJobs] in Hlk. rewrite lookup_empty in Hlk. by rewrite Hlk, lookup_empty. }
  split; [|done]. split; [by eexists|]. split; [|done].
  - unfold jobs_of. cbn. rewrite Hj.
    apply idle_ok.
Qed.

Lemma reachable_alive s : reachable s → mgr_alive s.
Proof.
  induction 1 as [inp0 inp path usr o s0 s Hin0 Hin Ho E0 E|s ev resp s' _ IH Hin E].
  - destruct (NewJobManager_ok _ _ _ _ _ Hin0 Ho E0) as (Hok & Hr & Hl). revert E.
    unfold Launch. rewrite getS_bind, Hl. unfold ignore, try_. rewrite !stM_bind_eq.
    pose proof (loadJobfile_spec lib_error_text inp s0 Hok Hin) as Hload.
    destruct (loadJobfile _ _ s0) as [[[]|e| |] s1]; cbn; intros [= <-].
    + exact Hload.
    + rewrite Hr in Hload. apply Hload.
  - pose proof (main_step_lively ev Hin s IH) as Hs. by rewrite E in Hs.
Qed.

(** C1: The main loop stays in order.  In every state that launching the manager and
    any sequence of events leads to, a jobfile is in place and the job-runner thread
    is running with its channel open, so that the loop never finds the channel
    closed; every run in progress and every record that waits is one of a job of
    the present jobfile; a turn of the thread or of a server of the registry always
    returns; and no event ends in an error: a command that fails is answered. *)
Theorem reachable_invariant s :
  reachable s →
  (∃ jf, jfile s = Some jf ∧ thread_ok (jobRunner s) (Jobs jf) ∧
         Forall (λ r, is_Some (Jobs jf !! run_job r)) (runs (jobRunner s)) ∧
         Forall (λ rec, is_Some (Jobs jf !! RecJob rec)) (waiting (jobRunner s))) ∧
  Running_ (jobRunner s) = true ∧ chan_is_closed (jobRunner s) = false ∧
  (∀ ev, is_recv ev = false → returns (main_step lib_error_text (MThread ev) s).1) ∧
  (∀ sid ev, returns (main_step lib_error_text (MServer sid ev) s).1) ∧
  (∀ ev, match ev with MCmd inp _ _ => inputs_ok inp | _ => True end →
         ¬ fails (main_step lib_error_text ev s).1).
Proof.
  intros Hreach. pose proof (reachable_alive s Hreach) as Ha. assert (Hok : mgr_ok s) by apply Ha.
  destruct (mgr_alive_jfile s Ha) as (jf & Hjf & Hj). pose proof Hok as (_ & Ht & Hs).
  destruct (alive_open _ _ Ht (proj2 Ha)) as [Hc Hr]. rewrite Hj in Ht.
  split; [exists jf; split_and!; try done; apply Ht|].
  split; [done|]. split; [done|]. split; [|split].
  - intros ev Hev. cbn [main_step]. rewrite Hc, andb_false_r, stM_bind_eq.
    pose proof (do_thread_ok lib_error_text ev s Hok) as Hd.
    destruct (do_thread _ ev s) as [[[]| | |] s']; cbn; try congruence; [by eexists|done].
  - intros sid ev. cbn [main_step]. rewrite stM_bind_eq. unfold on_outside, on_env.
    destruct (server_turn_returns sid ev (env (outside s)) Hs) as [e ->]. by eexists.
  - intros ev Hin [e He]. pose proof (main_step_lively ev Hin s Ha) as Hl.
    by destruct (main_step _ ev s) as [[] s'].
Qed.

(** Stopping the thread has brought the manager from [s] to [s1]. *)
Definition stopped_at (inp : Inputs) (s s1 : Manager) : Prop :=
  (cancel_runner;; drain lib_error_text (in_drain inp)) s = (Ret tt, s1).

(** C7: A jobfile is replaced only when nothing of the old one is left.  When
    replacing the jobfile returns, the thread had been stopped, with no run in
    progress and no record unread, before the new jobfile was put in place; the jobs
    of the manager are then exactly those of the new raw jobfile, the loggers write to
    the log file of its preferences or to the standard streams, and a new thread runs,
    with no run in progress. *)
Theorem replaceCurrJobfile_correct inp raw s s' :
  reachable s → inputs_ok inp → replaceCurrJobfile lib_error_text inp raw s = (Ret tt, s') →
  (∃ s1, stopped_at inp s s1 ∧
         chan_is_closed (jobRunner s1) = true ∧ same_jobs (jobs_of s) (jobs_of s1) ∧
         ∃ jf, jfile s' = Some jf ∧
               loggers (outside s') = loggers_for inp (LogPath (Prefs jf)) (loggers (outside s1))) ∧
  Raw <$> jfile s' = Some raw ∧
  (∀ name, is_Some (jobs_of s' !! name) ↔ is_Some (RawJobs raw !! name)) ∧
  (∀ name r job, RawJobs raw !! name = Some r → jobs_of s' !! name = Some job →
     Name job = name ∧ Cmd job = RawCmd r ∧ User job = Username (user s)) ∧
  Running_ (jobRunner s') = true ∧ runs (jobRunner s') = [] ∧ waiting (jobRunner s') = [].
Proof.
  intros Hreach Hin E. pose proof (reachable_alive s Hreach) as Ha. assert (Hok : mgr_ok s) by apply Ha.
  pose proof (replace_spec lib_error_text inp raw s Hok Hin) as Hr. rewrite E in Hr.
  destruct Hr as ((s1 & E1 & Hc1 & Hlg) & Hok' & (Ha' & Hruns & Hw) & (Hraw & Hlk) & Hu & _).
  pose proof (stop_spec lib_error_text (in_drain inp) s Hok) as Hstop. rewrite E1 in Hstop.
  destruct Hstop as (_ & _ & _ & _ & Hsame & _).
  split; [by exists s1|]. split; [done|]. split; [|split; [|split; [|done]]].
  - intros name. specialize (Hlk name). destruct (RawJobs raw !! name) as [r|].
    + destruct Hlk as (job & job0 & -> & _). split; by eexists.
    + rewrite Hlk. split; by intros [].
  - intros name r job Hr Hj. specialize (Hlk name). rewrite Hr in Hlk.
    destruct Hlk as (job' & job0 & Hj' & Hc & (Hn & Hcmd & Husr & _)). rewrite Hj in Hj'.
    injection Hj' as <-. pose proof (f_equal Name Hc). pose proof (f_equal Cmd Hc).
    pose proof (f_equal User Hc). rewrite <- Hu. simpl in *. by split_and!; etrans.
  - by destruct (alive_open _ _ (proj1 (proj2 Hok')) Ha').
Qed.

(** A jobfile that cannot be activated ends the runner.  When [Activate] fails,
    for whatever reason, after the old thread has been stopped, the jobfile is nil,
    and starting the thread again with "the previous one" dereferences it. *)
Theorem activation_error_panics inp raw (s s1 : Manager) e o :
  stopped_at inp s s1 →
  Activate lib_error_text (in_listen inp) raw (user s1) (in_raws inp (RawJobs raw)) (outside s1) =
    (Fail e, o) →
  (replaceCurrJobfile lib_error_text inp raw s).1 = Panic nil_dereference.
Proof.
  intros E Ea. unfold stopped_at in E. unfold replaceCurrJobfile. rewrite stM_bind_eq in E |- *.
  destruct (cancel_runner s) as [[[]| | |] s0]; try done. rewrite stM_bind_eq, E.
  rewrite getS_bind, stM_bind_eq. unfold try_, on_outside. rewrite Ea. by rewrite activation_fails.
Qed.

(** ** Pausing *)

(** The names a command is about. *)
Definition meant (inp : Inputs) (jobs : gmap bytes Job) (names : list bytes) : list bytes :=
  match names with [] => in_order inp jobs | _ => names end.

(** The manager with the pauses of the named jobs changed, and nothing else. *)
Definition repaused (to : bool) (names : list bytes) (s s' : Manager) : Prop :=
  user s' = user s ∧ jobfilePath s' = jobfilePath s ∧ launched s' = launched s ∧
  jobRunner s' = jobRunner s ∧ outside s' = outside s ∧
  Raw <$> jfile s' = Raw <$> jfile s ∧ Prefs <$> jfile s' = Prefs <$> jfile s ∧
  ∀ name, jobs_of s' !! name =
    (λ job, if bool_decide (name ∈ names) then set_Paused job to else job) <$> jobs_of s !! name.

Lemma pause_command_spec to resp inp names (s : Manager) jf :
  jfile s = Some jf →
  (∃ e, look_up (Jobs jf) names = Fail e ∧
        or_error_resp (pause_body to resp inp names) s = (Ret (ErrorCmdResp e), s) ∧
        ∃ name, name ∈ names ∧ Jobs jf !! name = None) ∨
  (∀ name, name ∈ names → is_Some (Jobs jf !! name)) ∧
  ∃ s', or_error_resp (pause_body to resp inp names) s =
          (Ret (resp (size (to_change to (meant inp (Jobs jf) names) (Jobs jf)))), s') ∧
        repaused to (meant inp (Jobs jf) names) s s'.
Proof.
  intros Hjf. unfold or_error_resp, try_.
  destruct (pause_body_spec to resp inp names s jf Hjf)
    as [(e & Hl & E & Hn)|(jobs & jobs' & n & Hall & -> & Hset & E)].
  - left. exists e. split; [done|]. split; [|done]. by rewrite stM_bind_eq, E.
  - right. split; [done|]. destruct (set_paused_spec _ _ _ _ _ _ Hset) as [-> Hlk].
    eexists. split; [by rewrite stM_bind_eq, E|].
    unfold repaused, jobs_of. cbn. rewrite Hjf. cbn. by split_and!.
Qed.

(** C21: The commands pause and resume are about the named jobs, or all jobs if none is
    named.  If one of the names is not that of a job, the command is answered with
    an error and nothing changes; otherwise exactly the pauses of those jobs are set
    or lifted, the answer is the number of jobs for which that is a change, and
    nothing else of the manager changes. *)
Theorem pause_correct inp names (s : Manager) jf :
  jfile s = Some jf →
  let pause := doCmd lib_error_text inp IpcServerTypeUds (PauseCmd names) s in
  let resume := doCmd lib_error_text inp IpcServerTypeUds (ResumeCmd names) s in
  let all := meant inp (Jobs jf) names in
  ((∃ name err, name ∈ names ∧ Jobs jf !! name = None ∧
      pause = (Ret (ErrorCmdResp err), s) ∧ resume = (Ret (ErrorCmdResp err), s)) ∨
   (∀ name, name ∈ names → is_Some (Jobs jf !! name)) ∧
   (∃ s', pause = (Ret (PauseCmdResp (size (to_change true all (Jobs jf)))), s') ∧
          repaused true all s s') ∧
   (∃ s', resume = (Ret (ResumeCmdResp (size (to_change false all (Jobs jf)))), s') ∧
          repaused false all s s')).
Proof.
  intros Hjf pause resume all.
  destruct (pause_command_spec true PauseCmdResp inp names s jf Hjf)
    as [(e & L & E & name & Hin & Hn)|(Hall & Hp)];
  destruct (pause_command_spec false ResumeCmdResp inp names s jf Hjf)
    as [(e' & L' & E' & name' & Hin' & Hn')|(Hall' & Hr)].
  - left. rewrite L in L'. injection L' as <-. by exists name, e.
  - destruct (Hall' name Hin) as [? ?]. congruence.
  - destruct (Hall name' Hin') as [? ?]. congruence.
  - by right.
Qed.

(** ** Reloading *)

Lemma jobs_from_size raw (s : Manager) : jobs_from raw s → size (jobs_of s) = size (RawJobs raw).
Proof.
  intros [_ Hlk]. rewrite <- !(size_dom (D:=gset bytes)). f_equal. apply set_eq. intros name.
  rewrite !elem_of_dom. specialize (Hlk name). destruct (RawJobs raw !! name) as [r|].
  - destruct Hlk as (job & job0 & -> & _). split; by eexists.
  - rewrite Hlk. split; by intros [].
Qed.

Lemma or_error_inv (m : stM Manager ICmdResp) s resp s' :
  or_error_resp m s = (Ret resp, s') →
  m s = (Ret resp, s') ∨ ∃ e, m s = (Fail e, s') ∧ resp = ErrorCmdResp e.
Proof.
  unfold or_error_resp, try_. rewrite stM_bind_eq.
  destruct (m s) as [[r|e| |] s1]; intros [= <- <-]; eauto.
Qed.

Lemma reload_replaces inp raw (s : Manager) resp s' :
  mgr_ok s → inputs_ok inp →
  loadJobfile lib_error_text inp s = replaceCurrJobfile lib_error_text inp raw s →
  doReloadCmd lib_error_text inp s = (Ret resp, s') →
  resp = ReloadCmdResp (size (RawJobs raw)) ∧ jobs_from raw s'.
Proof.
  intros Hok Hin Hload E. pose proof (replace_spec lib_error_text inp raw s Hok Hin) as Hr.
  apply or_error_inv in E. rewrite stM_bind_eq, Hload in E.
  destruct (replaceCurrJobfile _ _ _ s) as [[[]| | |] s1]; try done; [|naive_solver..].
  destruct Hr as (_ & Hok1 & _ & Hfrom & _). destruct (mgr_ok_jfile s1 Hok1) as (jf & Hjf & Hj).
  rewrite (stM_bind_Ret _ _ _ _ _ (get_jfile_eq _ _ Hjf)) in E.
  destruct E as [[= <- <-]|(e & E & _)]; [|done].
  split; [|done]. by rewrite <- (jobs_from_size raw s1 Hfrom), Hj.
Qed.


(** ** Setting and deleting jobs *)

(** The commands that edit the jobfile in memory.  Setting a job puts it into the
    raw jobfile, at the place of the one of the same name if there is one, and
    deleting one takes it out; the jobs of the manager follow, and every other job
    stays.  A jobfile from which a job was deleted loses its version. *)
Theorem set_delete_correct inp name raw_job (s s' : Manager) resp jf :
  reachable s → inputs_ok inp → jfile s = Some jf →
  (reencoded (Raw jf) = Ret (Raw jf) →
   doCmd lib_error_text inp IpcServerTypeUds (SetJobCmd name raw_job) s = (Ret resp, s') →
   resp = SetJobCmdResp true ∧
   Raw <$> jfile s' = Some (mkJobFileV3 (Version (Raw jf)) (RawPrefs (Raw jf))
                              (<[name := raw_job]> (RawJobs (Raw jf)))) ∧
   ∀ n, is_Some (jobs_of s' !! n) ↔ n = name ∨ is_Some (RawJobs (Raw jf) !! n)) ∧
  (doCmd lib_error_text inp IpcServerTypeUds (DeleteJobCmd name) s = (Ret resp, s') →
   resp = DeleteJobCmdResp true ∧
   Raw <$> jfile s' = Some (mkJobFileV3 SemVer_zero (RawPrefs (Raw jf))
                              (delete name (RawJobs (Raw jf)))) ∧
   ∀ n, is_Some (jobs_of s' !! n) ↔ n ≠ name ∧ is_Some (RawJobs (Raw jf) !! n)).
Proof.
  intros Hreach Hin Hjf. assert (Hok : mgr_ok s) by apply (reachable_alive s Hreach).
  assert (Hdo : ∀ raw (r : ICmdResp), (replaceCurrJobfile lib_error_text inp raw;; mret r) s = (Ret resp, s') →
            resp = r ∧ jobs_from raw s').
  { intros raw r. pose proof (replace_spec lib_error_text inp raw s Hok Hin) as Hs. rewrite stM_bind_eq.
    destruct (replaceCurrJobfile _ _ _ s) as [[[]| | |] s1]; try done.
    intros [= <- <-]. split; [done|]. apply Hs. }
  assert (Hdom : ∀ raw n, jobs_from raw s' → is_Some (jobs_of s' !! n) ↔ is_Some (RawJobs raw !! n)).
  { intros raw n [_ Hlk]. specialize (Hlk n). destruct (RawJobs raw !! n).
    - destruct Hlk as (job & job0 & -> & _). split; by eexists.
    - rewrite Hlk. split; by intros []. }
  cbn [doCmd]. unfold doSetJobCmd, doDeleteJobCmd.
  rewrite !(stM_bind_Ret _ _ _ _ _ (get_jfile_eq _ _ Hjf)). split.
  - intros Hre. rewrite stM_bind_eq. unfold liftS, Dup. rewrite Hre. cbn [panic_on_error].
    intros [-> Hfrom]%Hdo. split; [done|]. split; [apply Hfrom|].
    intros n. rewrite (Hdom _ n Hfrom). cbn [RawJobs].
    rewrite lookup_insert_is_Some. destruct (decide (name = n)); naive_solver.
  - intros [-> Hfrom]%Hdo. split; [done|]. split; [apply Hfrom|].
    intros n. rewrite (Hdom _ n Hfrom). cbn [RawJobs]. rewrite lookup_delete_is_Some. naive_solver.
Qed.

(** ** Records *)

Context `{!FloatFractionOk}.

#[local] Instance log_ops : RunLog AnyLog := any_RunLog lib_error_text.
#[local] Instance log_laws : RunLogLaws (H:=log_ops) AnyLog :=
  any_RunLogLaws lib_error_text.

(** The run log of a jobfile, on the manager's disk. *)
Definition log_of (jf : JobFile) (s : Manager) : AnyLog :=
  mkAnyLog (PrefsRunLog (Prefs jf)) (disk (env (outside s))).

(** The manager with another log. *)
Definition with_log (jf : JobFile) (l : AnyLog) (s : Manager) : Manager :=
  mkJobManager (user s) (jobfilePath s) (launched s)
    (Some (mkJobFile (mkPrefs (impl l) (LogPath (Prefs jf))) (Jobs jf) (Raw jf)))
    (jobRunner s) (mkOutside (set_disk (env (outside s)) (any_fs l)) (random (outside s)) (loggers (outside s))).

(** What the interface of the log promises about a record. *)
Definition loggable (jf : JobFile) (s : Manager) (entry : RunLogEntry) : Prop :=
  log_ok (log_of jf s) ∧ storable (L:=AnyLog) entry ∧
  Forall (λ e, EntryTime e ≤ EntryTime entry) (log_entries (log_of jf s)).

Lemma handleRunRec_spec now rec (s : Manager) jf job :
  jfile s = Some jf → Jobs jf !! RecJob rec = Some job → Err rec = None →
  loggable jf s (log_entry job rec) →
  ∃ l k, log_ok l ∧ log_entries l = drop k (log_entries (log_of jf s)) ++ [log_entry job rec] ∧
    handleRunRec lib_error_text now rec s =
      on_outside (on_env (notify now (sinksToNotify job rec) job rec)) (with_log jf l s).
Proof.
  intros Hjf Hj He (Hok & Hst & Hall).
  destruct (Put_law (log_of jf s) (log_entry job rec) Hok Hst Hall) as (l & k & E & Hok' & Hk).
  exists l, k. split; [done|]. split; [done|].
  assert (Hl : ignore (on_log (Put (RunLog:=any_RunLog lib_error_text) (log_entry job rec))) s =
               (Ret tt, with_log jf l s)).
  { unfold ignore, try_, on_log. rewrite stM_bind_eq, Hjf.
    change (Put (RunLog:=any_RunLog lib_error_text) (log_entry job rec)
              (mkAnyLog (PrefsRunLog (Prefs jf)) (disk (env (outside s)))))
      with (Put (log_entry job rec) (log_of jf s)).
    by rewrite E. }
  unfold handleRunRec.
  by rewrite He, (stM_bind_Ret _ _ _ _ _ (get_jfile_eq _ _ Hjf)), Hj, (stM_bind_Ret _ _ _ _ _ Hl).
Qed.


(** The thread after the run at an index has ended with a record and the record has
    been read. *)
Definition after_record (i : nat) (t : JobRunnerThread) : JobRunnerThread :=
  mkThread (Running_ t) (queue t) (cancelled t) (loop_left t) (delete i (runs t)) (waiting t).

Lemma finish_and_read i fin exec (s : Manager) jf r job now :
  mgr_alive s → jfile s = Some jf → runs (jobRunner s) !! i = Some r →
  Jobs jf !! run_job r = Some job →
  let '(rec, job') := RunJob (run_start r) fin exec false job in
  do_threads lib_error_text [TFinish i fin exec; TRecv (length (waiting (jobRunner s))) now] s =
  (handleRunRec lib_error_text now rec;; mret tt)
    (mkJobManager (user s) (jobfilePath s) (launched s)
       (Some (with_jobs jf (<[run_job r := job']> (Jobs jf)))) (after_record i (jobRunner s))
       (outside s)).
Proof.
  intros [_ [_ Hl]] Hjf Hi Hj. destruct (RunJob _ _ _ _ _) as [rec job'] eqn:E.
  cbn [do_threads]. rewrite stM_bind_eq.
  assert (Hfin : do_thread lib_error_text (TFinish i fin exec) s =
    (Ret tt, mkJobManager (user s) (jobfilePath s) (launched s)
       (Some (with_jobs jf (<[run_job r := job']> (Jobs jf))))
       (mkThread (Running_ (jobRunner s)) (queue (jobRunner s)) (cancelled (jobRunner s)) false
          (delete i (runs (jobRunner s))) (waiting (jobRunner s) ++ [rec])) (outside s))).
  { unfold do_thread. rewrite getS_bind, (stM_bind_Ret _ _ _ _ _ (get_jfile_eq _ _ Hjf)).
    unfold thread_finish. by rewrite Hi, Hj, E, (set_thread_jobs _ _ _ jf Hjf), Hl. }
  rewrite Hfin, !stM_bind_eq. unfold do_thread. rewrite getS_bind.
  erewrite (stM_bind_Ret get_jfile) by reflexivity. unfold thread_recv.
  cbn [waiting jobRunner]. rewrite list_lookup_middle by done. cbn [mbind option_bind].
  unfold set_runner. rewrite modifyS_bind.
  cbn [runs queue cancelled loop_left Running_ user jobfilePath launched jfile outside].
  rewrite delete_middle, app_nil_r. unfold settle, chan_is_closed.
  cbn [runs queue cancelled loop_left Running_ waiting andb negb].
  rewrite andb_true_r. unfold after_record. by rewrite Hl.
Qed.

Lemma run_recorded i fin out err fate (s : Manager) jf r job now :
  reachable s → jfile s = Some jf → runs (jobRunner s) !! i = Some r →
  Jobs jf !! run_job r = Some job →
  let exec := Ret (mkExecResult (Ret out) (Ret err) fate) in
  let '(rec, job') := RunJob (run_start r) fin exec false job in
  loggable jf s (log_entry job' rec) →
  ∃ l k s1, log_entries l = drop k (log_entries (log_of jf s)) ++
                            [mkRunLogEntry (run_job r) (run_start r) fate (Status job')
                               (Sub fin (run_start r))] ∧
    PrefsRunLog <$> (Prefs <$> jfile s1) = Some (impl l) ∧ disk (env (outside s1)) = any_fs l ∧
    jobs_of s1 = <[run_job r := job']> (Jobs jf) ∧
    runs (jobRunner s1) = delete i (runs (jobRunner s)) ∧
    waiting (jobRunner s1) = waiting (jobRunner s) ∧
    do_threads lib_error_text [TFinish i fin exec; TRecv (length (waiting (jobRunner s))) now] s =
      (on_outside (on_env (notify now (sinksToNotify job' rec) job' rec));; mret tt) s1.
Proof.
  intros Hreach Hjf Hi Hj exec. pose proof (reachable_alive s Hreach) as Ha.
  pose proof (finish_and_read i fin exec s jf r job now Ha Hjf Hi Hj) as E.
  pose proof (RunJob_name (run_start r) fin exec false job) as Hn.
  pose proof (RunJob_configuration (run_start r) fin exec false job) as Hc.
  destruct (RunJob _ _ _ _ _) as [rec job'] eqn:Hrun. intros Hlog.
  assert (Hname : Name job = run_job r).
  { destruct Ha as [(_ & (_ & Hns & _) & _) _]. unfold jobs_of in Hns. rewrite Hjf in Hns.
    by apply (Hns _ _ Hj). }
  assert (Hrec : Err rec = None ∧ log_entry job' rec =
            mkRunLogEntry (run_job r) (run_start r) fate (Status job') (Sub fin (run_start r))).
  { apply (f_equal Name) in Hc. cbn in Hc. rewrite Hname in Hc. unfold log_entry. rewrite Hc.
    clear -Hrun. unfold exec, RunJob, read_output in Hrun.
    cbn [mbind outcome_bind exec_Stdout exec_Stderr exec_Fate] in Hrun.
    injection Hrun as <- <-. split; reflexivity. }
  destruct Hrec as [He Hentry]. cbn [fst] in Hn. rewrite Hname in Hn.
  match type of E with _ = _ ?s1 => set (s0 := s1) in * end.
  destruct (handleRunRec_spec now rec s0 (with_jobs jf (<[run_job r := job']> (Jobs jf))) job')
    as (l & k & _ & Hk & Eh); [done|by rewrite Hn; apply lookup_insert_eq|done|exact Hlog|].
  exists l, k, (with_log (with_jobs jf (<[run_job r := job']> (Jobs jf))) l s0).
  split; [by rewrite <- Hentry|]. split_and!; try done. rewrite E, !stM_bind_eq. by rewrite Eh.
Qed.


End Commands.
