(* ===== verification/ManagerExamples.v ===== *)
(** * A runner at work

    A small run of the job manager, evaluated: it is launched without a jobfile, is
    sent a job, runs it and records the run.  The theorems about the manager are
    applied to its states. *)

From S2P Require Import Prelude GoStrings Calendar SemVer TimeSpec TimeSpecParse Job JobQueue.
From S2P Require Import RunLog MemRunLog Durations FileSys FileRunLog FileRunLogFacts.
From S2P Require Import RunRecServer ResultSink JobFile JobRunner JobManager JobManagerFacts.
From S2P Require Import CommandFacts.

Open Scope Z_scope.
Open Scope bytes_scope.
Open Scope list_scope.

#[local] Existing Instances UTC exact_fraction exact_fraction_ok FileRunLogFacts.example_temp
  TimeSpecParse.no_text first_rand first_rand_ok example_yaml example_yaml_ok.

(** A decoder that knows one document. *)
#[local] Instance example_doc : YamlDoc := {|
  decodes_as_list _ := false;
  decode_version _ := Ret (Some (Ret ("1.4" : bytes)));
  decode_v3 _ := Ret (RawPrefs example_raw_jobfile, RawJobs example_raw_jobfile);
  decode_prefs _ := Fail (LibError "yaml");
  decode_jobs _ := Fail (LibError "yaml");
  reencoded := Ret
|}.

Definition no_error_text : error → bytes := λ _, [].

Definition example_inputs (file : outcome OpenFile) : Inputs :=
  mkInputs 0 (λ m, (map_to_list m).*1) map_to_list (λ _, Ret tt) file
    [TPop 5 0 0 [Cancelled]] (Ret []) (λ _, true).

Lemma example_inputs_ok file : inputs_ok (example_inputs file).
Proof. by split. Qed.

Definition no_file : outcome OpenFile := Fail (OsError ENOENT).
Definition unreadable : outcome OpenFile := Fail (OsError EIO).
Definition bobs_file : outcome OpenFile := Ret (mkOpenFile (Ret 1000) (Ret 420) (Ret ("" : bytes))).

Definition example_new : JobManager :=
  mkJobManager example_user "/home/bob/.jobber" false
    (Some (mkJobFile (mkPrefs (MemLog (mkMemLog [] 100)) []) ∅ NewEmptyRawJobFile))
    idle_thread example_outside.

Definition example_launched : JobManager :=
  (Launch no_error_text (example_inputs no_file) example_new).2.

Definition raw_example_job : JobV3Raw := mkJobV3 "true" "30 * * * * *" (Some ("Stop" : bytes)) [] [] [].

Definition set_a : main_event :=
  MCmd (example_inputs no_file) IpcServerTypeUds (SetJobCmd "a" raw_example_job).

Definition example_set : JobManager := (main_step no_error_text set_a example_launched).2.

Lemma example_launched_reachable : reachable no_error_text example_launched.
Proof.
  apply (reachable_launch no_error_text (example_inputs no_file) (example_inputs no_file)
           "/home/bob/.jobber" example_user example_outside example_new).
  - apply example_inputs_ok.
  - apply example_inputs_ok.
  - apply map_Forall_empty.
  - vm_compute. reflexivity.
  - vm_compute. reflexivity.
Qed.

Lemma example_set_reachable : reachable no_error_text example_set.
Proof.
  apply (reachable_step no_error_text example_launched set_a (Some (SetJobCmdResp true))).
  - apply example_launched_reachable.
  - apply example_inputs_ok.
  - vm_compute. reflexivity.
Qed.

(** ** The theorems at these states *)

Lemma reachable_invariant_witness :
  Running_ (jobRunner example_set) = true ∧ chan_is_closed (jobRunner example_set) = false.
Proof.
  destruct (reachable_invariant no_error_text example_set example_set_reachable)
    as (_ & Hr & Hc & _).
  exact (conj Hr Hc).
Defined.

(** The job sent to the runner is replaced by those of another jobfile. *)
Definition example_replaced : JobManager :=
  (replaceCurrJobfile no_error_text (example_inputs no_file) example_raw_jobfile example_set).2.

Lemma replaceCurrJobfile_correct_witness :
  is_Some (jobs_of example_set !! ("a" : bytes)) ∧
  Raw <$> jfile example_replaced = Some example_raw_jobfile ∧
  Running_ (jobRunner example_replaced) = true.
Proof.
  destruct (replaceCurrJobfile_correct no_error_text (example_inputs no_file) example_raw_jobfile
              example_set example_replaced) as (_ & Hraw & _ & _ & Hr & _).
  - apply example_set_reachable.
  - apply example_inputs_ok.
  - vm_compute. reflexivity.
  - split; [|exact (conj Hraw Hr)]. vm_compute. by eexists.
Defined.

(** A job whose schedule cannot be parsed ends the runner. *)
Definition bad_raw : JobFileV3Raw :=
  mkJobFileV3 (mkSemVer 1 4 0) empty_prefs
    {["a" : bytes := mkJobV3 "true" "x" None [] [] []]}.

Lemma activation_error_panics_witness :
  (replaceCurrJobfile no_error_text (example_inputs no_file) bad_raw example_set).1 =
  Panic nil_dereference.
Proof.
  destruct ((cancel_runner;; drain no_error_text [TPop 5 0 0 [Cancelled]]) example_set)
    as [[[]| | |] s1] eqn:E; [|vm_compute in E; discriminate..].
  destruct (Activate no_error_text (λ _, Ret tt) bad_raw (user s1)
              (map_to_list (RawJobs bad_raw)) (outside s1)) as [[jf|e|msg|] o] eqn:Ea.
  - exfalso. vm_compute in E. injection E as <-. vm_compute in Ea. discriminate.
  - exact (activation_error_panics no_error_text (example_inputs no_file) bad_raw example_set
             s1 e o E Ea).
  - exfalso. vm_compute in E. injection E as <-. vm_compute in Ea. discriminate.
  - exfalso. vm_compute in E. injection E as <-. vm_compute in Ea. discriminate.
Defined.

Definition example_jobs_set : gmap bytes Job := jobs_of example_set.

Lemma pause_correct_witness :
  ∃ s', doCmd no_error_text (example_inputs no_file) IpcServerTypeUds (PauseCmd ["a" : bytes])
          example_set = (Ret (PauseCmdResp 1), s') ∧
        Paused <$> jobs_of s' !! ("a" : bytes) = Some true.
Proof.
  destruct (jfile example_set) as [jf|] eqn:Hjf; [|vm_compute in Hjf; discriminate].
  destruct (pause_correct no_error_text (example_inputs no_file) ["a" : bytes] example_set jf Hjf)
    as [(name & err & Hin & Hn & _)|(_ & (s' & E & Hp) & _)].
  - exfalso. apply list_elem_of_singleton in Hin as ->.
    vm_compute in Hjf. injection Hjf as <-. vm_compute in Hn. discriminate.
  - exists s'. split.
    + rewrite E. vm_compute in Hjf. injection Hjf as <-. vm_compute. reflexivity.
    + destruct Hp as (_ & _ & _ & _ & _ & _ & _ & Hp). rewrite Hp. vm_compute. reflexivity.
Defined.


(** Deleting the job again. *)
Lemma set_delete_correct_witness :
  ∃ s', doCmd no_error_text (example_inputs no_file) IpcServerTypeUds (DeleteJobCmd "a") example_set =
          (Ret (DeleteJobCmdResp true), s') ∧
        ¬ is_Some (jobs_of s' !! ("a" : bytes)).
Proof.
  destruct (jfile example_set) as [jf|] eqn:Hjf; [|vm_compute in Hjf; discriminate].
  destruct (doCmd no_error_text (example_inputs no_file) IpcServerTypeUds (DeleteJobCmd "a") example_set)
    as [[resp|e|msg|] s'] eqn:E; [|vm_compute in E; discriminate..].
  destruct (set_delete_correct no_error_text (example_inputs no_file) "a" raw_example_job
              example_set s' resp jf example_set_reachable (example_inputs_ok _) Hjf)
    as [_ Hdel].
  destruct (Hdel E) as (-> & _ & Hn). exists s'. split; [reflexivity|]. rewrite Hn.
  intros [Hne _]. exact (Hne eq_refl).
Defined.

(** A record of a run of the job. *)
Definition example_record : RunRec :=
  mkRunRec "a" 5 JobFailed (Some []) (Some []) SubprocFateFailed 1 None.

(** Its entry fits a line of a log file, too. *)
Lemma record_storable job :
  Name job = ("a" : bytes) → file_storable (log_entry job example_record).
Proof.
  intros Hn. destruct job. cbn in Hn. subst. split; [|apply Nat.leb_le; reflexivity].
  split; [vm_compute; intuition discriminate|]. split; [unfold is_int64, two63; simpl; lia|].
  split; [unfold max_int64, two63; simpl; lia|]. apply Nat.leb_le. reflexivity.
Qed.

Lemma example_loggable jf job s :
  log_of jf s = mkAnyLog (MemLog (mkMemLog [] 100)) (disk example_env) →
  Name job = ("a" : bytes) → loggable no_error_text jf s (log_entry job example_record).
Proof.
  intros Hlog Hn. unfold loggable. rewrite Hlog. split; [|split].
  - split; [constructor|]. cbn. lia.
  - by apply record_storable.
  - constructor.
Qed.


(** The job is due at second 30. *)
Definition pop_a : main_event := MThread (TPop 5 (30 * Second_) (30 * Second_) []).

Definition example_running : JobManager := (main_step no_error_text pop_a example_set).2.

Lemma example_running_reachable : reachable no_error_text example_running.
Proof.
  apply (reachable_step no_error_text example_set pop_a None).
  - apply example_set_reachable.
  - exact I.
  - vm_compute. reflexivity.
Qed.

Lemma run_storable :
  file_storable (mkRunLogEntry "a" (30 * Second_) SubprocFateFailed JobFailed Second_).
Proof.
  split; [|apply Nat.leb_le; reflexivity].
  split; [vm_compute; intuition discriminate|]. split; [unfold is_int64, two63, Second_; simpl; lia|].
  split; [unfold max_int64, two63, Second_; simpl; lia|]. apply Nat.leb_le. reflexivity.
Qed.

