(* ===== verification/Scheduling.v ===== *)
(** * The life of a run

    From the queue to the log: a job that is due is popped, its next time is computed,
    its run is started; and when the process has ended, the run is recorded.  The steps
    are those of the job-runner thread ([JobRunner]) in the main loop ([JobManager]). *)

From S2P Require Import Prelude GoStrings Calendar SemVer TimeSpec TimeSpecParse Job JobQueue.
From S2P Require Import RunLog MemRunLog Durations FileSys FileRunLog FileRunLogFacts.
From S2P Require Import RunRecServer ResultSink JobFile JobRunner JobManager JobManagerFacts.
From S2P Require Import CommandFacts ManagerExamples.

Open Scope Z_scope.
Open Scope bytes_scope.
Open Scope list_scope.

(** ** The job that is due *)

(** [name] is the only job with the earliest next time, [t]; the thread sleeps till
    [now'], when it is due. *)
Definition due_next (jobs : gmap bytes Job) (name : bytes) (t now now' : Time) (ws : list wakeup) : Prop :=
  pending jobs name = Some t ∧
  (∀ other u, other ≠ name → pending jobs other = Some u → t < u) ∧
  sleep_till t now ws = Ret (Some now', []).

(** The job as it waits for its next time *)
Definition rescheduled (job : Job) (next : option Time) : Job := set_NextRunTime job next.

Section Due.
Context `{HL : Location}.

Lemma sleeps_uncancelled t now now' ws :
  sleep_till t now ws = Ret (Some now', []) → has_cancelled ws = false.
Proof.
  intros E. pose proof (sleep_till_spec t now ws) as H. rewrite E in H. destruct H as (_ & fired & -> & _).
  clear E. rewrite app_nil_r. induction fired as [|u fired IH]; [done|exact IH].
Qed.

(** A round of the thread starts the job that is due, if it is in good state and not
    paused; the job waits for the first time its schedule allows from a second later on. *)
Lemma thread_pop_due fuel now now' start ws t jobs name job tm :
  thread_ok t jobs → loop_left t = false → due_next jobs name tm now now' ws →
  jobs !! name = Some job → Status job = JobGood →
  ∃ next q', nextRunTime job (Add now' Second_) = Ret next ∧
    thread_pop (S fuel) now start ws t jobs =
    Ret (mkThread (Running_ t) q' (cancelled t) false
           (runs t ++ (if Paused job then [] else [mkInflight name start])) (waiting t),
         <[name := rescheduled job next]> jobs).
Proof.
  intros Hok Hl (Hp & Huniq & Hsleep) Hj Hgood.
  assert (Hq : queue_ok (mkQState (queue t) jobs ws)) by exact (queue_ok_wakeups _ _ _ ws (proj1 Hok)).
  assert (Hne : queue t ≠ []).
  { intros Hn. pose proof (queue_ok_empty _ Hq Hn name) as Hno. cbn [JobQueue.jobs] in Hno. congruence. }
  destruct (JobQueue_Pop_step fuel now _ Hq Hne) as (name' & t' & job' & [He1 He2] & Hj' & _ & Hstep).
  cbn [JobQueue.jobs wakeups q] in *.
  assert (name' = name) as ->.
  { destruct (decide (name' = name)); [done|]. specialize (Huniq _ _ n He1). specialize (He2 _ _ Hp). lia. }
  assert (t' = tm) as -> by congruence. assert (job' = job) as -> by congruence.
  rewrite Hsleep in Hstep. destruct Hstep as (next & q' & Hnext & Hrun).
  exists next, q'. split; [done|].
  assert (Hs : ShouldRun (set_NextRunTime job next) = (true, set_NextRunTime job next)).
  { unfold ShouldRun. destruct job. cbn in *. by rewrite Hgood. }
  rewrite Hs in Hrun. destruct Hrun as (_ & _ & E).
  unfold thread_pop. rewrite Hl, (sleeps_uncancelled _ _ _ _ Hsleep). cbn [orb andb].
  rewrite E. cbn [JobQueue.jobs JobQueue.q]. rewrite lookup_insert_eq. by destruct job.
Qed.

End Due.

(** ** Its run, from the queue to the log *)

Section Life.
Context `{HL : Location} `{HF : FloatFraction} `{HT : TempNames} (lib_error_text : error → bytes).
Context `{HYE : YaccErrors} `{R : Rand} `{!RandOk R} `{HYaml : Yaml} `{HDoc : YamlDoc}.
Context `{!FloatFractionOk}.

Abbreviation Manager := (JobManager (R:=R)).


End Life.

(** ** A run of the small runner *)

#[local] Existing Instances UTC exact_fraction exact_fraction_ok FileRunLogFacts.example_temp
  TimeSpecParse.no_text first_rand first_rand_ok example_yaml example_yaml_ok example_doc.

