(* ===== verification/LoggerFacts.v ===== *)
(** * The log files of a runner

    A jobfile may name a log file; the loggers of the runner are set whenever a jobfile
    is put in place.  Whatever a runner does, its loggers are in order, and the log files
    that are open are those it writes to. *)

From S2P Require Import Prelude GoStrings Calendar SemVer TimeSpec TimeSpecParse Job JobQueue.
From S2P Require Import RunLog MemRunLog Durations FileSys FileRunLog FileRunLogFacts.
From S2P Require Import RunRecServer ResultSink Logging JobFile JobRunner JobManager JobManagerFacts.
From S2P Require Import CommandFacts ManagerExamples.

Open Scope nat_scope.
Open Scope bytes_scope.
Open Scope list_scope.

Section Loggers.
Context `{HL : Location} `{HF : FloatFraction} `{HT : TempNames} (lib_error_text : error → bytes).
Context `{HYE : YaccErrors} `{R : Rand} `{HYaml : Yaml} `{HDoc : YamlDoc}.

Abbreviation Manager := (JobManager (R:=R)).

Definition outside_logs_ok (o : Outside (R:=R)) : Prop := logging_ok (loggers o).
Definition logs_ok (s : Manager) : Prop := outside_logs_ok (outside s).

(** The log files a runner has open are exactly those that one of its loggers writes to. *)
Definition files_in_use (s : Manager) : Prop :=
  ∀ h, is_Some (open_files (loggers (outside s)) !! h) ↔
       WFile h ∈ Logger (loggers (outside s)) ∨ WFile h ∈ ErrLogger (loggers (outside s)).

(** ** What acts on something else leaves the loggers alone *)

Lemma stays_on_env {A} (m : stM Env A) : stays outside_logs_ok (on_env m).
Proof. intros o Ho. unfold on_env. by destruct (m (env o)). Qed.

Lemma stays_on_random {A} (m : stM rng A) : stays outside_logs_ok (on_random (R:=R) m).
Proof. intros o Ho. unfold on_random. by destruct (m (random o)). Qed.

Lemma stays_on_outside {A} (m : stM Outside A) :
  stays outside_logs_ok m → stays logs_ok (on_outside m).
Proof.
  intros Hm s Hs. specialize (Hm (outside s) Hs). unfold on_outside. by destruct (m (outside s)).
Qed.

Lemma stays_on_log {A} (m : stM AnyLog A) : stays logs_ok (on_log m).
Proof. intros s Hs. unfold on_log. destruct (jfile s); [|done]. by destruct (m _). Qed.

Lemma stays_get_jfile : stays logs_ok get_jfile.
Proof. intros s Hs. unfold get_jfile. by destruct (jfile s). Qed.

Lemma stays_set_jfile jf : stays logs_ok (set_jfile jf).
Proof. by intros s Hs. Qed.

Lemma stays_set_runner t : stays logs_ok (set_runner t).
Proof. by intros s Hs. Qed.

#[local] Hint Resolve stays_on_env stays_on_random stays_on_outside stays_on_log : jobber.
#[local] Hint Resolve stays_get_jfile stays_set_jfile stays_set_runner : jobber.

Lemma stays_set_jobs jobs : stays logs_ok (set_jobs jobs).
Proof. unfold set_jobs. stays_step. Qed.
#[local] Hint Resolve stays_set_jobs : jobber.

(** ** The main loop *)

Lemma stays_handleRunRec now rec : stays logs_ok (handleRunRec lib_error_text now rec).
Proof. unfold handleRunRec, ignore. stays_step. Qed.
#[local] Hint Resolve stays_handleRunRec : jobber.

Lemma stays_do_thread ev : stays logs_ok (do_thread lib_error_text ev).
Proof. unfold do_thread. stays_step. Qed.
#[local] Hint Resolve stays_do_thread : jobber.

Lemma stays_do_threads evs : stays logs_ok (do_threads lib_error_text evs).
Proof. induction evs; cbn [do_threads]; stays_step. Qed.
#[local] Hint Resolve stays_do_threads : jobber.

Lemma stays_unless_closed m : stays logs_ok m → stays logs_ok (unless_closed m).
Proof. intros Hm s Hs. unfold unless_closed. destruct (chan_is_closed (jobRunner s)); auto. Qed.
#[local] Hint Resolve stays_unless_closed : jobber.

Lemma stays_drain evs : stays logs_ok (drain lib_error_text evs).
Proof. unfold drain. stays_step. Qed.
#[local] Hint Resolve stays_drain : jobber.

Lemma stays_start_runner inp : stays logs_ok (start_runner inp).
Proof. unfold start_runner. stays_step. Qed.
#[local] Hint Resolve stays_start_runner : jobber.

Lemma stays_to_jobs usr raws jobs : stays outside_logs_ok (to_jobs usr raws jobs).
Proof. revert jobs. induction raws as [|[name raw] raws IH]; intros jobs; cbn [to_jobs]; stays_step. Qed.
#[local] Hint Resolve stays_to_jobs : jobber.

Lemma stays_Activate Listen raw usr raws :
  stays outside_logs_ok (Activate lib_error_text Listen raw usr raws).
Proof. unfold Activate. stays_step. Qed.
#[local] Hint Resolve stays_Activate : jobber.

Lemma stays_setLoggers inp path : stays logs_ok (setLoggers (R:=R) inp path).
Proof.
  intros s Hs. rewrite setLoggers_eq. unfold logs_ok, outside_logs_ok, loggers_for in *.
  cbn [snd outside loggers].
  case_bool_decide; [by apply SetLogFile_ok|by apply LogToStdoutStderr_ok].
Qed.
#[local] Hint Resolve stays_setLoggers : jobber.

Lemma stays_replace inp raw : stays logs_ok (replaceCurrJobfile lib_error_text inp raw).
Proof. unfold replaceCurrJobfile, cancel_runner. stays_step. Qed.
#[local] Hint Resolve stays_replace : jobber.

Lemma stays_loadJobfile inp : stays logs_ok (loadJobfile lib_error_text inp).
Proof. unfold loadJobfile. stays_step. Qed.
#[local] Hint Resolve stays_loadJobfile : jobber.

Lemma stays_or_error m : stays logs_ok m → stays logs_ok (or_error_resp m).
Proof. intros Hm. unfold or_error_resp. stays_step. Qed.
#[local] Hint Resolve stays_or_error : jobber.

Lemma stays_doCmd inp server cmd : stays logs_ok (doCmd lib_error_text inp server cmd).
Proof.
  destruct cmd; cbn [doCmd];
    unfold doReloadCmd, doListJobsCmd, doLogCmd, doTestCmd, doCatCmd, doPauseCmd, doResumeCmd,
      doInitCmd, doSetJobCmd, doDeleteJobCmd; try destruct server; try apply stays_or_error; stays_step.
Qed.
#[local] Hint Resolve stays_doCmd : jobber.

Lemma stays_main_step ev : stays logs_ok (main_step lib_error_text ev).
Proof.
  destruct ev as [ev|inp server cmd|sid ev]; cbn [main_step]; [|stays_step..].
  intros s Hs. destruct (is_recv ev && chan_is_closed (jobRunner s)); [done|].
  revert s Hs. change (stays logs_ok (do_thread lib_error_text ev;; mret (M:=stM Manager) (@None ICmdResp))).
  stays_step.
Qed.
#[local] Hint Resolve stays_main_step : jobber.

Lemma stays_main_loop evs : stays logs_ok (main_loop lib_error_text evs).
Proof. induction evs; cbn [main_loop]; stays_step. Qed.

(** C39: Whatever a runner does, and whichever log files cannot be opened, the log files it
    has open are exactly those that one of its two loggers writes to: loading another
    jobfile leaves no file of the old one open, and no logger writes to a closed file. *)
Theorem runner_log_files inp0 inp path usr (o : Outside (R:=R)) s0 evs s :
  loggers o = initial_logging →
  NewJobManager lib_error_text inp0 path usr o = Ret s0 →
  (Launch lib_error_text inp;; main_loop lib_error_text evs) s0 = (Ret tt, s) →
  files_in_use s.
Proof.
  intros Ho Hnew Hrun h. apply logging_ok_files.
  assert (H0 : logs_ok s0).
  { revert Hnew. unfold NewJobManager.
    pose proof (stays_Activate (in_listen inp0) NewEmptyRawJobFile usr
                  (in_raws inp0 (RawJobs NewEmptyRawJobFile)) o) as Ha.
    destruct (Activate _ _ _ _ _ _) as [[jf| | |] o']; [|done..]. intros [= <-].
    apply LogToStdoutStderr_ok, Ha. unfold outside_logs_ok. rewrite Ho. apply initial_logging_ok. }
  assert (Hs : stays logs_ok (Launch lib_error_text inp;; main_loop lib_error_text evs)).
  { pose proof stays_main_loop. unfold Launch, ignore. stays_step. }
  specialize (Hs s0 H0). by rewrite Hrun in Hs.
Qed.

End Loggers.

(** ** A runner that is told to log to a file, and then to another *)

#[local] Existing Instances UTC exact_fraction exact_fraction_ok FileRunLogFacts.example_temp
  TimeSpecParse.no_text first_rand first_rand_ok example_yaml example_yaml_ok.

(** A decoder that finds the name of the log file at the end of the document. *)
#[local] Instance log_doc : YamlDoc := {|
  decodes_as_list _ := false;
  decode_version _ := Ret (Some (Ret ("1.4" : bytes)));
  decode_v3 text := Ret (mkPrefsV3 (Some ("/var/log/" ++ drop (length text - 1) text)) None, ∅);
  decode_prefs _ := Fail (LibError "yaml");
  decode_jobs _ := Fail (LibError "yaml");
  reencoded := Ret
|}.

Definition file_with (text : bytes) : outcome OpenFile :=
  Ret (mkOpenFile (Ret 1000%Z) (Ret 420%Z) (Ret text)).

Definition reload_from (text : bytes) : main_event :=
  MCmd (example_inputs (file_with text)) IpcServerTypeUds ReloadCmd.

Definition two_log_files : JobManager :=
  ((Launch no_error_text (example_inputs no_file);;
    main_loop no_error_text [reload_from "a"; reload_from "b"]) example_new).2.

Lemma runner_log_files_witness :
  loggers (outside two_log_files) =
    mkLogging [WStdout; WFile 1] [WStderr; WFile 1] [1] {[1 := "/var/log/b" : bytes]} 2 [] ∧
  ¬ is_Some (open_files (loggers (outside two_log_files)) !! 0).
Proof.
  assert (E : loggers (outside two_log_files) =
    mkLogging [WStdout; WFile 1] [WStderr; WFile 1] [1] {[1 := "/var/log/b" : bytes]} 2 [])
    by (vm_compute; reflexivity).
  split; [exact E|]. intros H.
  destruct (runner_log_files no_error_text (example_inputs no_file) (example_inputs no_file)
           "/home/bob/.jobber" example_user example_outside example_new
           [reload_from "a"; reload_from "b"] two_log_files eq_refl ltac:(vm_compute; reflexivity)
           ltac:(vm_compute; reflexivity) 0) as [P _].
  specialize (P H). rewrite E in P. destruct P as [P|P];
    repeat (apply elem_of_cons in P as [P|P]; [discriminate P|]); by apply not_elem_of_nil in P.
Defined.
