(* ===== verification/Settings.v ===== *)
(** * The settings of an installation ([common/settings.go])

    The three processes share a configuration: the directories, each from the
    command line, the preferences file or a built-in default, and the lists of
    users that may or may not have jobs.  The package's global variables are the
    state; opening and reading the preferences file, and decoding its YAML, are
    parameters. *)

From S2P Require Import Prelude GoStrings Encoding GoPath Glob JobFile.

Open Scope nat_scope.
Open Scope bytes_scope.
Open Scope list_scope.

(** ** Data *)

Record UserSpec := mkUserSpec { SpecUsername : bytes; SpecHome : bytes }.

Record prefs := mkPrefsFile {
  VarDir : option bytes;
  LibexecDir : option bytes;
  TempDir : option bytes;
  UsersInclude : list UserSpec;
  UsersExclude : list UserSpec
}.

Definition no_prefs : prefs := mkPrefsFile None None None [] [].

#[export] Instance UserSpec_eq_dec : EqDecision UserSpec.
Proof. solve_decision. Defined.

Record setting := mkSetting { origin : bytes; setValue : option bytes; def : bytes }.

Definition setting_clear (self : setting) : setting :=
  mkSetting "default" (setValue self) (def self).

Definition newSetting (d : bytes) : setting := setting_clear (mkSetting [] None d).

(** [setting.get]: the value and its origin *)
Definition setting_get (self : setting) : bytes * bytes :=
  match setValue self with
  | None => (def self, origin self)
  | Some v => (v, origin self)
  end.

Definition setting_set (self : setting) (val from : bytes) : setting :=
  mkSetting from (Some val) (def self).

Definition setting_String (self : setting) : bytes :=
  let '(v, o) := setting_get self in v ++ " (" ++ o ++ ")".

(** The global variables *)
Record settings := mkSettings {
  gVarDir : setting;
  gLibexecDir : setting;
  gTempDir : setting;
  gEtcDir : setting;
  gPrfs : prefs
}.

(** Their initial values: [os.TempDir()] is given by the environment, and
    [etcDirPath] may be set by the linker. *)
Definition initial_settings (os_TempDir etcDirPath : bytes) : settings :=
  mkSettings (newSetting "/var") (newSetting "/usr/libexec") (newSetting os_TempDir)
    (newSetting etcDirPath) no_prefs.

Definition set_gVarDir (s : settings) (v : setting) : settings :=
  let '(mkSettings _ b c d e) := s in mkSettings v b c d e.
Definition set_gLibexecDir (s : settings) (v : setting) : settings :=
  let '(mkSettings a _ c d e) := s in mkSettings a v c d e.
Definition set_gTempDir (s : settings) (v : setting) : settings :=
  let '(mkSettings a b _ d e) := s in mkSettings a b v d e.
Definition set_gEtcDir (s : settings) (v : setting) : settings :=
  let '(mkSettings a b c _ e) := s in mkSettings a b c v e.
Definition set_gPrfs (s : settings) (v : prefs) : settings :=
  let '(mkSettings a b c d _) := s in mkSettings a b c d v.

Record InitSettingsParams := mkParams {
  ParamVarDir : option bytes;
  ParamLibexecDir : option bytes;
  ParamTempDir : option bytes;
  ParamEtcDir : option bytes
}.

(** ** Paths *)

Definition VarDirPath (s : settings) : bytes := path_Join (setting_get (gVarDir s)).1 "jobber".
Definition LibexecDirPath (s : settings) : bytes := (setting_get (gLibexecDir s)).1.
Definition EtcDirPath (s : settings) : bytes := (setting_get (gEtcDir s)).1.
Definition TempDirPath (s : settings) : bytes := (setting_get (gTempDir s)).1.

Definition PerUserDirPath (s : settings) (usr : UserRec) : bytes :=
  path_Join (VarDirPath s) (Uid usr).

Definition cmdSocketFileName : bytes := "cmd.sock".

Definition CmdSocketPath (s : settings) (usr : UserRec) : bytes :=
  path_Join (PerUserDirPath s usr) cmdSocketFileName.

Definition LibexecProgramPath (s : settings) (name : bytes) : bytes :=
  path_Join (LibexecDirPath s) name.

(** [ioutil.ReadDir] answers with the names of the entries and whether each is a
    directory, [user.LookupId] with the user of an ID. *)
Definition AllUsersWithSockets (ReadDir : bytes → outcome (list (bytes * bool)))
    (LookupId : bytes → option UserRec) (s : settings) : outcome (list UserRec) :=
  files ← ReadDir (VarDirPath s);
  Ret (omap (M:=list) (λ file : bytes * bool, if file.2 then LookupId file.1 else None) files).

(** What is printed. *)
Definition PrintPaths (s : settings) : bytes :=
  "var: " ++ setting_String (gVarDir s) ++ [newline] ++
  "libexec: " ++ setting_String (gLibexecDir s) ++ [newline] ++
  "etc: " ++ setting_String (gEtcDir s) ++ [newline] ++
  "temp: " ++ setting_String (gTempDir s) ++ [newline].

(** ** The preferences file *)

Definition gPrefsFileName : bytes := "jobber.conf".

Definition gDefaultPrefsStr : bytes :=
  concat (map (λ line, line ++ [newline])
    [("## Here, you can control which users can use Jobber to run jobs.  You" : bytes);
     ("## can either specify which users should be able to use Jobber, or" : bytes);
     ("## which users should NOT be able to use Jobber --- not both." : bytes);
     ("##" : bytes);
     ("## NOTE: Users without home directories, or who do not own their home" : bytes);
     ("## directories, will not be able to use Jobber, no matter what you" : bytes);
     ("## specify in this file." : bytes);
     [];
     ("## EXAMPLE: With the following, the only users that can use jobber are" : bytes);
     ("## (1) root and (2) all users whose home directories are in" : bytes);
     ("## /home/svcusers." : bytes);
     ("#users-include:" : bytes);
     ("#    - username: root" : bytes);
     ("#    - home: /home/svcusers/*" : bytes);
     [];
     ("## EXAMPLE: With the following, the users postfix and mysql and all" : bytes);
     ("## users whose usernames end with " ++ dquote "nobody" ++ " cannot use Jobber.  (In the" : bytes);
     ("## last rule, " ++ dquote "*nobody" ++ " is quoted because " ++ dquote "*" ++ " has a special meaning in" : bytes);
     ("## YAML when unquoted.)" : bytes);
     ("#users-exclude:" : bytes);
     ("#    - username: postfix" : bytes);
     ("#    - username: mysql" : bytes);
     ("#    - username: '*nobody'" : bytes)]).

Definition path_line (key : bytes) (path : option bytes) : list bytes :=
  match path with Some p => [key ++ ": " ++ p] | None => [] end.

Definition MakeDefaultPrefs (params : InitSettingsParams) : bytes :=
  let paths := path_line "var-dir" (ParamVarDir params) ++
               path_line "libexec-dir" (ParamLibexecDir params) ++
               path_line "temp-dir" (ParamTempDir params) in
  Join paths [newline] ++ [newline; newline] ++ gDefaultPrefsStr.

(** [yaml.Unmarshal] into a [prefs] *)
Class PrefsYaml := unmarshal_prefs : bytes → outcome prefs.

Definition msg_both_lists : bytes :=
  "Cannot use both " ++ dquote "users-include" ++ " and " ++ dquote "users-include" ++ " in prefs.".

Definition spec_patterns (spec : UserSpec) : list bytes :=
  (if bool_decide (0 < length (SpecUsername spec)) then [SpecUsername spec] else []) ++
  (if bool_decide (0 < length (SpecHome spec)) then [SpecHome spec] else []).

Fixpoint check_patterns (patterns : list bytes) : outcome unit :=
  match patterns with
  | [] => Ret tt
  | p :: patterns => Match p "something";; check_patterns patterns
  end.

Section Loading.
Context `{PrefsYaml}.

(** [f] is what [ioutil.ReadAll] gets from the file, whether or not it also returns
    an error, which [_loadPrefs] does not look at. *)
Definition _loadPrefs (f : bytes) : outcome prefs :=
  prfs ← unmarshal_prefs (with_starter f);
  if bool_decide (0 < length (UsersInclude prfs)) && bool_decide (0 < length (UsersExclude prfs))
  then Fail (CommonError msg_both_lists None)
  else
    check_patterns (concat (map spec_patterns (UsersInclude prfs ++ UsersExclude prfs)));;
    Ret prfs.

(** [os_Open] opens a path. *)
Variable os_Open : bytes → outcome bytes.

(** A missing file is an error too, although [loadPrefs] logs that it uses the
    defaults. *)
Definition loadPrefs : stM settings prefs :=
  s ← getS;
  f ← liftS (os_Open (path_Join (EtcDirPath s) gPrefsFileName));
  liftS (_loadPrefs f).

(** The cascade [InitSettings] writes once per directory. *)
Definition choose (s : setting) (param config : option bytes) : setting :=
  match param, config with
  | Some v, _ => setting_set s v "cmdline"
  | None, Some v => setting_set s v "config"
  | None, None => setting_clear s
  end.

Definition InitSettings (params : InitSettingsParams) : stM settings unit :=
  modifyS (λ s, set_gEtcDir s (choose (gEtcDir s) (ParamEtcDir params) None));;
  prfs ← loadPrefs;
  modifyS (λ s, set_gPrfs s prfs);;
  modifyS (λ s, set_gVarDir s (choose (gVarDir s) (ParamVarDir params) (VarDir (gPrfs s))));;
  modifyS (λ s, set_gLibexecDir s
                  (choose (gLibexecDir s) (ParamLibexecDir params) (LibexecDir (gPrfs s))));;
  modifyS (λ s, set_gTempDir s (choose (gTempDir s) (ParamTempDir params) (TempDir (gPrfs s)))).

End Loading.

(** ** Which users may use Jobber *)

(** The inner function [match] of [matches]: a bad pattern is a panic here. *)
Definition must_match (pattern name : bytes) : outcome bool :=
  match Match pattern name with
  | Fail _ => Panic "syntax error in pattern"
  | m => m
  end.

Definition matches (self : UserSpec) (usr : UserRec) : outcome bool :=
  u ← (if bool_decide (0 < length (SpecUsername self))
       then must_match (SpecUsername self) (Username usr) else Ret true);
  if u : bool then
    if bool_decide (0 < length (SpecHome self)) then must_match (SpecHome self) (HomeDir usr)
    else Ret true
  else Ret false.

Fixpoint _jobberShouldRunForUser (usr : UserRec) (specs : list UserSpec) (includeIfMatch : bool)
    : outcome bool :=
  match specs with
  | [] => Ret (negb includeIfMatch)
  | spec :: specs =>
     m ← matches spec usr;
     if m : bool then Ret includeIfMatch else _jobberShouldRunForUser usr specs includeIfMatch
  end.

Definition jobberShouldRunForUser (self : prefs) (usr : UserRec) : outcome bool :=
  if bool_decide (0 < length (UsersInclude self)) then
    _jobberShouldRunForUser usr (UsersInclude self) true
  else if bool_decide (0 < length (UsersExclude self)) then
    _jobberShouldRunForUser usr (UsersExclude self) false
  else Ret true.

Definition JobberShouldRunForUser (s : settings) (usr : UserRec) : outcome bool :=
  jobberShouldRunForUser (gPrfs s) usr.

(** The cases of prefs_file_test.go *)
Example prefs_tests :
  let incl := mkPrefsFile None None None [mkUserSpec "mysql*" []; mkUserSpec "sys*" "/a/b"] [] in
  let excl := mkPrefsFile None None None [] [mkUserSpec "mysql*" []; mkUserSpec "sys*" "/a/b"] in
  let mysqlX := mkUser "mysqlX" [] [] [] in
  let sys_home := mkUser "sys" "/a/b" [] [] in
  let sys := mkUser "sys" [] [] [] in
  map (jobberShouldRunForUser incl) [mysqlX; sys_home; sys] = [Ret true; Ret true; Ret false] ∧
  map (jobberShouldRunForUser excl) [mysqlX; sys_home; sys] = [Ret false; Ret false; Ret true].
Proof. vm_compute. done. Qed.

(** ** The preferences file: lemmas *)

Definition patterns_of (p : prefs) : list bytes :=
  concat (map spec_patterns (UsersInclude p ++ UsersExclude p)).

Lemma check_patterns_Ret patterns :
  check_patterns patterns = Ret tt ↔ ∀ q, q ∈ patterns → returns (Match q "something").
Proof.
  induction patterns as [|q patterns IH]; cbn [check_patterns]; [set_solver|].
  rewrite bind_Ret. setoid_rewrite IH. setoid_rewrite elem_of_cons. split.
  - intros (b & Hb & Hr) q' [->|Hq]; [by exists b|auto].
  - intros Hq. destruct (Hq q (or_introl eq_refl)) as [b Hb]. exists b. auto.
Qed.

Lemma length_pos {A} (l : list A) : bool_decide (0 < length l) = true ↔ l ≠ [].
Proof.
  rewrite bool_decide_eq_true. destruct l; [split; [simpl; lia|done]|split; [done|simpl; lia]].
Qed.

Lemma length_pos_decide {A} (l : list A) :
  (l = [] ∧ bool_decide (0 < length l) = false) ∨ (l ≠ [] ∧ bool_decide (0 < length l) = true).
Proof. destruct l; [by left|by right]. Qed.

(** [_loadPrefs] accepts exactly the preferences whose YAML decodes, that do
    not use both lists of users, and whose patterns can all be matched against the
    name "something"; and it returns what was decoded. *)
Theorem loadPrefs_correct `{PrefsYaml} (f : bytes) (p : prefs) :
  _loadPrefs f = Ret p ↔
  unmarshal_prefs (with_starter f) = Ret p ∧
  (UsersInclude p = [] ∨ UsersExclude p = []) ∧
  ∀ q, q ∈ patterns_of p → returns (Match q "something").
Proof.
  unfold _loadPrefs. destruct (unmarshal_prefs (with_starter f)) as [p'|e|msg|]; cbn [mbind outcome_bind];
    [|naive_solver..].
  destruct (length_pos_decide (UsersInclude p')) as [[Hi ->]|[Hi ->]],
    (length_pos_decide (UsersExclude p')) as [[He ->]|[He ->]]; cbn [andb];
    [..|naive_solver]; rewrite bind_Ret; setoid_rewrite <- check_patterns_Ret; unfold patterns_of.
  all: split; [intros ([] & Hc & [= <-])|intros ([= <-] & _ & Hc)]; naive_solver.
Qed.

(** ** Where a directory comes from *)

(** The value and the origin of a directory: the command line wins over the
    preferences file, and that over the default. *)
Definition chosen (param config : option bytes) (dflt : bytes) : bytes * bytes :=
  match param, config with
  | Some v, _ => (v, "cmdline")
  | None, Some v => (v, "config")
  | None, None => (dflt, "default")
  end.

Lemma choose_new param config d : setting_get (choose (newSetting d) param config) = chosen param config d.
Proof. by destruct param, config. Qed.

Definition directories (s : settings) : list (bytes * bytes) :=
  map setting_get [gEtcDir s; gVarDir s; gLibexecDir s; gTempDir s].

Lemma loadPrefs_eq `{PrefsYaml} os_Open s :
  loadPrefs os_Open s = (os_Open (path_Join (EtcDirPath s) gPrefsFileName) ≫= _loadPrefs, s).
Proof.
  unfold loadPrefs. rewrite stM_bind_eq. cbn [getS]. rewrite stM_bind_eq. unfold liftS.
  by destruct (os_Open _).
Qed.

Lemma InitSettings_eq `{PrefsYaml} os_Open params s :
  let etc := choose (gEtcDir s) (ParamEtcDir params) None in
  InitSettings os_Open params s =
  match os_Open (path_Join (setting_get etc).1 gPrefsFileName) ≫= _loadPrefs with
  | Ret p =>
     (Ret tt, mkSettings (choose (gVarDir s) (ParamVarDir params) (VarDir p))
                (choose (gLibexecDir s) (ParamLibexecDir params) (LibexecDir p))
                (choose (gTempDir s) (ParamTempDir params) (TempDir p)) etc p)
  | m => ((λ _, tt) <$> m, set_gEtcDir s etc)
  end.
Proof.
  intros etc. unfold InitSettings. rewrite stM_bind_eq. cbn [modifyS].
  rewrite stM_bind_eq, loadPrefs_eq. unfold EtcDirPath. subst etc. destruct s. cbn [set_gEtcDir gEtcDir].
  by destruct (os_Open _ ≫= _loadPrefs).
Qed.

(** C22: the first [InitSettings] of a process.  The preferences file is looked for in
    the directory given on the command line, or else in the default one.  If it can
    be opened and is accepted, each directory is the one of the command line, else
    that of the file, else the default, and its origin is recorded accordingly.  If
    not, for instance because there is no such file, the error is returned, the other
    directories keep their defaults and every user is allowed. *)
Theorem InitSettings_correct `{PrefsYaml} (os_Open : bytes → outcome bytes)
    (params : InitSettingsParams) (tmp etc : bytes) :
  let etcDir := chosen (ParamEtcDir params) None etc in
  let loaded := os_Open (path_Join etcDir.1 "jobber.conf") ≫= _loadPrefs in
  ∃ s, InitSettings os_Open params (initial_settings tmp etc) = ((λ _, tt) <$> loaded, s) ∧
    match loaded with
    | Ret p =>
       gPrfs s = p ∧
       directories s = [etcDir; chosen (ParamVarDir params) (VarDir p) "/var";
                        chosen (ParamLibexecDir params) (LibexecDir p) "/usr/libexec";
                        chosen (ParamTempDir params) (TempDir p) tmp]
    | _ =>
       (∀ usr, JobberShouldRunForUser s usr = Ret true) ∧
       directories s = [etcDir; ("/var" : bytes, "default" : bytes); ("/usr/libexec" : bytes, "default" : bytes);
                        (tmp, "default" : bytes)]
    end.
Proof.
  intros etcDir loaded. rewrite InitSettings_eq. unfold initial_settings. cbn [gEtcDir].
  rewrite choose_new. fold etcDir. change gPrefsFileName with ("jobber.conf" : bytes).
  fold loaded. unfold directories.
  destruct loaded; (eexists; split; [reflexivity|]; split; [done|]); cbn [map set_gEtcDir gEtcDir gVarDir gLibexecDir gTempDir];
    rewrite ?choose_new; reflexivity.
Qed.

(** Clearing a setting does not clear its value: a second [InitSettings] that gives no
    directory goes on with that of the first and calls it the default. *)
Theorem InitSettings_twice `{PrefsYaml} (os_Open : bytes → outcome bytes) tmp etc v :
  (∀ path, os_Open path ≫= _loadPrefs = Ret no_prefs) →
  let s1 := snd (InitSettings os_Open (mkParams (Some v) None None None) (initial_settings tmp etc)) in
  let s2 := snd (InitSettings os_Open (mkParams None None None None) s1) in
  setting_get (gVarDir s2) = (v, "default" : bytes).
Proof. intros Hopen s1 s2. subst s1 s2. rewrite !InitSettings_eq, !Hopen. reflexivity. Qed.

(** ** Which users may use Jobber: lemmas *)

(** A specification that leaves a field out accepts every value of it. *)
Definition spec_accepts (spec : UserSpec) (usr : UserRec) : Prop :=
  (SpecUsername spec = [] ∨ glob (SpecUsername spec) (Username usr)) ∧
  (SpecHome spec = [] ∨ glob (SpecHome spec) (HomeDir usr)).

(** The reference: the list of included users decides, if there is one, else that of
    the excluded ones. *)
Definition allowed (p : prefs) (usr : UserRec) : Prop :=
  match UsersInclude p with
  | [] => ¬ Exists (λ spec, spec_accepts spec usr) (UsersExclude p)
  | specs => Exists (λ spec, spec_accepts spec usr) specs
  end.

Lemma must_match_simple pattern name :
  simple pattern = true → ∃ b, must_match pattern name = Ret b ∧ (b = true ↔ glob pattern name).
Proof. intros Hs. unfold must_match. by destruct (Match_glob pattern name Hs) as (b & -> & Hb); eauto. Qed.

Lemma field_simple pattern name :
  simple pattern = true →
  ∃ b, (if bool_decide (0 < length pattern) then must_match pattern name else Ret true) = Ret b ∧
       (b = true ↔ pattern = [] ∨ glob pattern name).
Proof.
  intros Hs. destruct (length_pos_decide pattern) as [[-> ->]|[Hne ->]]; [exists true; by split; [|split; [left|]]|].
  destruct (must_match_simple pattern name Hs) as (b & -> & Hb). exists b. naive_solver.
Qed.

Lemma matches_simple spec usr :
  simple (SpecUsername spec) = true → simple (SpecHome spec) = true →
  ∃ b, matches spec usr = Ret b ∧ (b = true ↔ spec_accepts spec usr).
Proof.
  intros H1 H2. unfold matches, spec_accepts.
  destruct (field_simple (SpecUsername spec) (Username usr) H1) as (b1 & -> & Hb1).
  destruct (field_simple (SpecHome spec) (HomeDir usr) H2) as (b2 & Hf & Hb2).
  cbn [mbind outcome_bind]. destruct b1; [exists b2; rewrite Hf; naive_solver|exists false; naive_solver].
Qed.

Definition simple_spec (spec : UserSpec) : bool :=
  simple (SpecUsername spec) && simple (SpecHome spec).

Lemma scan_specs usr specs incl :
  forallb simple_spec specs = true →
  ∃ b, _jobberShouldRunForUser usr specs incl = Ret b ∧
       (b = incl ↔ Exists (λ spec, spec_accepts spec usr) specs).
Proof.
  induction specs as [|spec specs IH]; cbn [_jobberShouldRunForUser forallb].
  { intros _. exists (negb incl). split; [done|]. split; [by destruct incl|intros HE; by inversion HE]. }
  intros [[H1 H2]%andb_true_iff Hs]%andb_true_iff.
  destruct (matches_simple spec usr H1 H2) as (m & -> & Hm). cbn [mbind outcome_bind].
  setoid_rewrite Exists_cons. destruct m; [exists incl; naive_solver|].
  destruct (IH Hs) as (b & -> & Hb). exists b. naive_solver.
Qed.

Lemma jobberShouldRunForUser_spec p usr :
  forallb simple_spec (UsersInclude p ++ UsersExclude p) = true →
  ∃ b, jobberShouldRunForUser p usr = Ret b ∧ (b = true ↔ allowed p usr).
Proof.
  rewrite forallb_app, andb_true_iff. intros [Hi He]. unfold jobberShouldRunForUser, allowed.
  destruct (length_pos_decide (UsersInclude p)) as [[-> ->]|[Hne ->]].
  2:{ revert Hi Hne. destruct (UsersInclude p); [done|]. intros Hi _. by apply scan_specs. }
  destruct (length_pos_decide (UsersExclude p)) as [[-> ->]|[Hne ->]].
  - exists true. split; [done|]. split; [intros _ HE; by inversion HE|done].
  - destruct (scan_specs usr (UsersExclude p) false He) as (b & -> & Hb). exists b.
    split; [done|]. rewrite <- Hb. by destruct b.
Qed.

(** C17: when the patterns of the preferences consist of literal bytes and stars, a user is
    let in exactly as the lists say: a user in the list of included users, if that list
    is not empty; else one that is not in the list of excluded users.  The patterns are
    matched as [glob] says, so a star never crosses a slash. *)
Theorem JobberShouldRunForUser_correct (s : settings) (usr : UserRec) :
  forallb simple_spec (UsersInclude (gPrfs s) ++ UsersExclude (gPrfs s)) = true →
  ∃ b, JobberShouldRunForUser s usr = Ret b ∧ (b = true ↔ allowed (gPrfs s) usr).
Proof. apply jobberShouldRunForUser_spec. Qed.

(** preferences with a malformed pattern can be accepted when they are loaded and yet
    make the process panic for a user: the check matches the pattern against one fixed
    name only, and a pattern that fails early on it is not read to its end. *)
Theorem accepted_pattern_panics :
  ∃ p usr, (∀ (Y : PrefsYaml) f, unmarshal_prefs (with_starter f) = Ret p → _loadPrefs f = Ret p) ∧
           panics (jobberShouldRunForUser p usr).
Proof.
  exists (mkPrefsFile None None None [mkUserSpec "a[" []] []), (mkUser "alice" "/home/alice" "1001" "1001").
  split.
  - intros Y f E. unfold _loadPrefs. by rewrite E.
  - by eexists.
Qed.

(** ** Examples *)

Definition example_prefs : prefs :=
  mkPrefsFile (Some "/srv" : option bytes) None None
    [mkUserSpec "root" []; mkUserSpec [] "/home/svcusers/*"] [].

Definition example_settings : settings :=
  set_gPrfs (initial_settings "/tmp" "/etc") example_prefs.

Lemma JobberShouldRunForUser_correct_witness :
  forallb simple_spec (UsersInclude (gPrfs example_settings) ++ UsersExclude (gPrfs example_settings)) = true ∧
  ∃ b, JobberShouldRunForUser example_settings (mkUser "www" "/home/svcusers/www" "33" "33") = Ret b ∧
       (b = true ↔ allowed example_prefs (mkUser "www" "/home/svcusers/www" "33" "33")).
Proof.
  split; [reflexivity|].
  exact (JobberShouldRunForUser_correct example_settings (mkUser "www" "/home/svcusers/www" "33" "33")
           eq_refl).
Defined.
