(* ===== verification/IpcServer.v ===== *)
(** * The servers of commands ([jobberrunner/ipc_server.go])

    A client's request is a call of one of the ten methods of [IpcService], each in
    a goroutine of the RPC library.  A method sends its command on the channel the
    main loop reads, waits for the response on a channel of its own, which has room
    for it, and returns it if it has the type of the command.  A run of the system
    interleaves any number of calls with the main loop; the theorems show that this
    is the same as running the commands one after the other, and that every call
    gets the response to its own command.

    The end of the main loop, which closes the channel of commands, is in Runner.v. *)

From S2P Require Import Prelude GoStrings Calendar SemVer TimeSpec TimeSpecParse Job JobQueue.
From S2P Require Import RunLog MemRunLog Durations FileSys FileRunLog FileRunLogFacts.
From S2P Require Import RunRecServer ResultSink JobFile JobRunner JobManager JobManagerFacts.
From S2P Require Import CommandFacts ManagerExamples.

Open Scope nat_scope.
Open Scope bytes_scope.
Open Scope list_scope.

(** ** The methods *)

Definition unexpected_type : error := CommonError "Unexpected response type" None.

(** What the methods have in common: an error of the response is returned, and so is
    a response of another type; [concrete] is the type assertion. *)
Definition get_response (concrete : ICmdResp → bool) (resp : ICmdResp) : outcome ICmdResp :=
  match resp_Error resp with
  | Some err => Fail err
  | None => if concrete resp then Ret resp else Fail unexpected_type
  end.

(** A method: the command it sends and what it does with the response. *)
Record Method := mkMethod { sends : ICmd; receives : ICmdResp → outcome ICmdResp }.

Definition Reload : Method :=
  mkMethod ReloadCmd (get_response (λ r, match r with ReloadCmdResp _ => true | _ => false end)).
Definition ListJobs : Method :=
  mkMethod ListJobsCmd (get_response (λ r, match r with ListJobsCmdResp _ => true | _ => false end)).
Definition Log : Method :=
  mkMethod LogCmd (get_response (λ r, match r with LogCmdResp _ => true | _ => false end)).
Definition Test_ (job : bytes) : Method :=
  mkMethod (TestCmd job) (get_response (λ r, match r with TestCmdResp _ => true | _ => false end)).
Definition Cat (job : bytes) : Method :=
  mkMethod (CatCmd job) (get_response (λ r, match r with CatCmdResp _ => true | _ => false end)).
Definition Pause (jobs : list bytes) : Method :=
  mkMethod (PauseCmd jobs) (get_response (λ r, match r with PauseCmdResp _ => true | _ => false end)).
Definition Resume (jobs : list bytes) : Method :=
  mkMethod (ResumeCmd jobs) (get_response (λ r, match r with ResumeCmdResp _ => true | _ => false end)).
Definition Init : Method :=
  mkMethod InitCmd (get_response (λ r, match r with InitCmdResp _ => true | _ => false end)).
Definition SetJob (name : bytes) (job : JobV3Raw) : Method :=
  mkMethod (SetJobCmd name job)
    (get_response (λ r, match r with SetJobCmdResp _ => true | _ => false end)).
Definition DeleteJob (job : bytes) : Method :=
  mkMethod (DeleteJobCmd job)
    (get_response (λ r, match r with DeleteJobCmdResp _ => true | _ => false end)).

(** The method whose parameter a command is. *)
Definition method_of (cmd : ICmd) : Method :=
  match cmd with
  | ReloadCmd => Reload
  | ListJobsCmd => ListJobs
  | LogCmd => Log
  | TestCmd job => Test_ job
  | CatCmd job => Cat job
  | PauseCmd jobs => Pause jobs
  | ResumeCmd jobs => Resume jobs
  | InitCmd => Init
  | SetJobCmd name job => SetJob name job
  | DeleteJobCmd job => DeleteJob job
  end.

Lemma sends_method_of cmd : sends (method_of cmd) = cmd.
Proof. by destruct cmd. Qed.

(** ** Calls beside the main loop *)

(** Where a call is: at its send, at its receive with the response in its channel, or
    done. *)
Inductive call_state :=
| Sending
| Answered (resp : ICmdResp)
| Returned (result : outcome ICmdResp).

Record Call := mkCall { serverType : IpcServerType; method : Method; progress : call_state }.

(** [ICall]: a request arrives.  [IServe]: the main loop receives the command of a call,
    carries it out and puts the response in the channel of the call.  [IReturn]: the
    call reads the response and returns.  [IMain]: anything else the main loop does. *)
Inductive ipc_event :=
| ICall (id : nat) (server : IpcServerType) (cmd : ICmd)
| IServe (id : nat) (inp : Inputs)
| IReturn (id : nat)
| IMain (ev : main_event).

Section System.
Context `{HL : Location} `{HF : FloatFraction} `{HT : TempNames} (lib_error_text : error → bytes).
Context `{HYE : YaccErrors} `{R : Rand} `{HYaml : Yaml} `{HDoc : YamlDoc}.

Abbreviation Manager := (JobManager (R:=R)).

Record System := mkSystem { manager : Manager; ipc_calls : gmap nat Call }.

Definition on_manager {A} (m : stM Manager A) : stM System A := λ s,
  let '(r, m') := m (manager s) in (r, mkSystem m' (ipc_calls s)).

Definition set_call (id : nat) (c : Call) : stM System unit :=
  modifyS (λ s, mkSystem (manager s) (<[id := c]> (ipc_calls s))).

Definition set_progress (c : Call) (p : call_state) : Call := mkCall (serverType c) (method c) p.

(** An event that cannot happen in a state changes nothing. *)
Definition ipc_step (ev : ipc_event) : stM System unit := λ s,
  match ev with
  | ICall id server cmd =>
     match ipc_calls s !! id with
     | Some _ => (Ret tt, s)
     | None => set_call id (mkCall server (method_of cmd) Sending) s
     end
  | IServe id inp =>
     match ipc_calls s !! id with
     | Some (mkCall server m Sending as c) =>
        (resp ← on_manager (main_step lib_error_text (MCmd inp server (sends m)));
         match resp with
         | Some resp => set_call id (set_progress c (Answered resp))
         | None => mret tt
         end) s
     | _ => (Ret tt, s)
     end
  | IReturn id =>
     match ipc_calls s !! id with
     | Some (mkCall server m (Answered resp) as c) =>
        set_call id (set_progress c (Returned (receives m resp))) s
     | _ => (Ret tt, s)
     end
  | IMain (MCmd _ _ _) => (Ret tt, s)
  | IMain ev => (on_manager (main_step lib_error_text ev);; mret tt) s
  end.

Fixpoint ipc_run (evs : list ipc_event) : stM System unit :=
  match evs with
  | [] => mret tt
  | ev :: evs => ipc_step ev;; ipc_run evs
  end.

(** ** The sequential reference *)

(** One thing the main loop did: for which call, if for one, and its response. *)
Record Served := mkServed { for_call : option nat; event : main_event; response : option ICmdResp }.

(** [history h m m']: from [m], the main loop alone goes through the events of [h], with
    their responses, to [m']. *)
Inductive history : list Served → Manager → Manager → Prop :=
| history_nil m : history [] m m
| history_snoc h m m1 m2 x :
    history h m m1 → main_step lib_error_text (event x) m1 = (Ret (response x), m2) →
    history (h ++ [x]) m m2.

Lemma history_main_loop h m m' :
  history h m m' → main_loop lib_error_text (map event h) m = (Ret tt, m').
Proof.
  induction 1 as [|h m m1 m2 x _ IH E]; [done|]. rewrite map_app. cbn [map].
  revert IH. generalize (map event h) as evs. intros evs. revert m.
  induction evs as [|ev evs IHe]; intros m; cbn [main_loop app].
  - intros [= ->]. by rewrite stM_bind_eq, E.
  - rewrite !stM_bind_eq. destruct (main_step _ ev m) as [[o|e|msg|] m']; [|done..]. apply IHe.
Qed.

(** ** Responses have the type of their command *)

(** Every response of [m] satisfies [P]. *)
Definition gives {S A} (P : A → Prop) (m : stM S A) : Prop := ∀ s r s', m s = (Ret r, s') → P r.

Lemma gives_ret {S A} (P : A → Prop) a : P a → gives (S:=S) P (mret a).
Proof. intros HP s r s' [= <- <-]. done. Qed.

Lemma gives_bind {S A B} (P : B → Prop) (m : stM S A) k :
  (∀ a, gives P (k a)) → gives P (m ≫= k).
Proof.
  intros Hk s r s'. rewrite stM_bind_eq. destruct (m s) as [[a|e|msg|] s1]; [|done..]. apply Hk.
Qed.

Lemma gives_fail {S A} (P : A → Prop) e : gives (S:=S) P (failS e).
Proof. by intros s r s'. Qed.

Lemma gives_or_error (P : ICmdResp → Prop) (m : stM Manager ICmdResp) :
  (∀ e, P (ErrorCmdResp e)) → gives P m → gives P (or_error_resp m).
Proof.
  intros He Hm s r s'. unfold or_error_resp, try_. rewrite stM_bind_eq.
  destruct (m s) as [[a|e|msg|] s1] eqn:E; intros [= <- <-]; [by eapply Hm|done].
Qed.

#[local] Hint Resolve gives_ret gives_bind gives_fail gives_or_error : jobber.

(** What a method makes of a response to its own command. *)
Definition well_typed (cmd : ICmd) (r : ICmdResp) : Prop :=
  receives (method_of cmd) r = match r with ErrorCmdResp e => Fail e | _ => Ret r end.

Ltac gives_step :=
  repeat match goal with
  | |- gives _ (or_error_resp _) => apply gives_or_error; [done|]
  | |- gives _ (_ ≫= _) => apply gives_bind; intros ?
  | |- gives _ (match ?x with _ => _ end) => destruct x
  | |- gives _ _ => solve [by apply gives_ret | apply gives_fail]
  end.

Lemma doCmd_well_typed inp server cmd :
  gives (well_typed cmd) (doCmd (R:=R) lib_error_text inp server cmd).
Proof.
  destruct cmd; cbn [doCmd];
    unfold doReloadCmd, doListJobsCmd, doLogCmd, doTestCmd, doCatCmd, doPauseCmd, doResumeCmd,
      doInitCmd, doSetJobCmd, doDeleteJobCmd; gives_step.
Qed.

Lemma served_well_typed inp server cmd m o m' :
  main_step lib_error_text (MCmd inp server cmd) m = (Ret o, m') →
  ∃ r, o = Some r ∧ well_typed cmd r.
Proof.
  cbn [main_step]. rewrite stM_bind_eq. pose proof (doCmd_well_typed inp server cmd m) as Ht.
  destruct (doCmd _ _ _ _ m) as [[r|e|msg|] m1]; [|done..]. intros [= <- <-]. eauto.
Qed.

(** ** The invariant of a run *)

Definition ids (h : list Served) : list nat := omap for_call h.

Definition call_ok (h : list Served) (id : nat) (c : Call) : Prop :=
  ∃ cmd, method c = method_of cmd ∧
  match progress c with
  | Sending => id ∉ ids h
  | Answered r => ∃ inp, mkServed (Some id) (MCmd inp (serverType c) cmd) (Some r) ∈ h ∧ well_typed cmd r
  | Returned res =>
     ∃ inp r, mkServed (Some id) (MCmd inp (serverType c) cmd) (Some r) ∈ h ∧
              res = match r with ErrorCmdResp e => Fail e | _ => Ret r end
  end.

Definition explains (m0 : Manager) (s : System) (h : list Served) : Prop :=
  history h m0 (manager s) ∧ NoDup (ids h) ∧
  (∀ id, id ∈ ids h → is_Some (ipc_calls s !! id)) ∧
  map_Forall (call_ok h) (ipc_calls s).

Lemma ids_snoc h x : ids (h ++ [x]) = ids h ++ option_list (for_call x).
Proof. unfold ids. rewrite omap_app. simpl. by destruct (for_call x). Qed.

Lemma call_ok_snoc h x id c : for_call x ≠ Some id → call_ok h id c → call_ok (h ++ [x]) id c.
Proof.
  intros Hx (cmd & Hm & Hc). exists cmd. split; [done|]. destruct (progress c).
  - rewrite ids_snoc. destruct (for_call x); simpl; set_solver.
  - set_solver.
  - set_solver.
Qed.

(** The main loop did something that was no command of a call. *)
Lemma explains_main m0 s h ev o m' :
  explains m0 s h → main_step lib_error_text ev (manager s) = (Ret o, m') →
  explains m0 (mkSystem m' (ipc_calls s)) (h ++ [mkServed None ev o]).
Proof.
  intros (Hh & Hnd & Hin & Hc) E. split; [by econstructor|].
  rewrite ids_snoc. simpl. rewrite app_nil_r. split; [done|]. split; [done|].
  intros id c Hid. apply call_ok_snoc; [done|]. by apply Hc.
Qed.

Lemma ipc_step_explained m0 s h ev s' :
  explains m0 s h → ipc_step ev s = (Ret tt, s') → ∃ h', explains m0 s' h'.
Proof.
  intros Hex. pose proof Hex as (Hh & Hnd & Hin & Hc). destruct ev as [id server cmd|id inp|id|ev]; cbn [ipc_step].
  - destruct (ipc_calls s !! id) as [c|] eqn:Hid; intros [= <-]; [by exists h|]. exists h.
    split; [done|]. split; [done|]. split; cbn [ipc_calls].
    + intros id' Hid'. rewrite lookup_insert_is_Some'. right. by apply Hin.
    + apply map_Forall_insert_2; [|done]. exists cmd. split; [done|]. cbn [progress].
      intros Hn. apply Hin in Hn. rewrite Hid in Hn. by destruct Hn.
  - destruct (ipc_calls s !! id) as [[server m [|r|res]]|] eqn:Hid; try (intros [= <-]; by exists h).
    destruct (Hc _ _ Hid) as (cmd & Hm & Hnew). cbn [method progress] in Hm, Hnew. subst m.
    rewrite stM_bind_eq, sends_method_of. unfold on_manager.
    destruct (main_step _ _ (manager s)) as [[o|e|msg|] m'] eqn:E; [|done..].
    destruct (served_well_typed _ _ _ _ _ _ E) as (r & -> & Ht). intros [= <-].
    exists (h ++ [mkServed (Some id) (MCmd inp server cmd) (Some r)]). split; [by econstructor|].
    rewrite ids_snoc. cbn [option_list for_call]. split; [|split]; cbn [ipc_calls].
    + apply NoDup_app. split; [done|]. split; [set_solver|]. apply NoDup_singleton.
    + intros id' [Hid'|Hid'%list_elem_of_singleton]%elem_of_app; rewrite lookup_insert_is_Some';
        [right; by apply Hin|by left].
    + apply map_Forall_lookup. intros id' c Hlk. destruct (decide (id' = id)) as [->|Hne].
      * rewrite lookup_insert_eq in Hlk. injection Hlk as <-. exists cmd. split; [done|].
        exists inp. split; [|done]. set_solver.
      * rewrite lookup_insert_ne in Hlk by done. apply call_ok_snoc; [simpl; congruence|].
        by apply Hc.
  - destruct (ipc_calls s !! id) as [[server m [|r|res]]|] eqn:Hid; intros [= <-]; try by exists h.
    exists h. split; [done|]. split; [done|]. split; cbn [ipc_calls].
    + intros id' Hid'. rewrite lookup_insert_is_Some'. right. by apply Hin.
    + apply map_Forall_insert_2; [|done]. destruct (Hc _ _ Hid) as (cmd & Hm & inp & Hin' & Ht).
      exists cmd. split; [done|]. exists inp, r. split; [done|]. cbn [method] in Hm. subst m. exact Ht.
  - assert (Hmain : (on_manager (main_step lib_error_text ev);; mret tt) s = (Ret tt, s') →
                    ∃ h', explains m0 s' h').
    { rewrite stM_bind_eq. unfold on_manager.
      destruct (main_step lib_error_text ev (manager s)) as [[o|e|msg|] m'] eqn:E; [|done..].
      intros [= <-]. eexists. by apply explains_main. }
    destruct ev; [exact Hmain|intros [= <-]; by exists h|exact Hmain].
Qed.

Lemma ipc_run_explained m0 evs s h s' :
  explains m0 s h → ipc_run evs s = (Ret tt, s') → ∃ h', explains m0 s' h'.
Proof.
  revert s h. induction evs as [|ev evs IH]; intros s h Hex; cbn [ipc_run].
  - intros [= <-]. by exists h.
  - rewrite stM_bind_eq. destruct (ipc_step ev s) as [[[]|e|msg|] s1] eqn:E; [|done..].
    intros Hrun. destruct (ipc_step_explained m0 s h ev s1 Hex E) as [h1 Hh1]. by eapply IH.
Qed.

Definition idle (m0 : Manager) : System := mkSystem m0 ∅.

Lemma idle_explained m0 : explains m0 (idle m0) [].
Proof. split; [constructor|]. split; [constructor|]. split; [by intros id ?%elem_of_nil|done]. Qed.

(** What the invariant says of a call, in terms of the command it sends *)
Lemma call_ok_explained h id c :
  call_ok h id c →
  match progress c with
  | Sending => id ∉ ids h
  | Answered r => ∃ inp, mkServed (Some id) (MCmd inp (serverType c) (sends (method c))) (Some r) ∈ h
  | Returned res =>
     ∃ inp r, mkServed (Some id) (MCmd inp (serverType c) (sends (method c))) (Some r) ∈ h ∧
              res = match r with ErrorCmdResp e => Fail e | _ => Ret r end
  end.
Proof.
  intros (cmd & Hm & Hp). rewrite Hm, sends_method_of.
  destruct (progress c); [done| |done]. destruct Hp as (inp & Hp & _). eauto.
Qed.

(** Any number of calls at the same time are served one after the other.  Whatever
    happens in whatever order, there is a sequence of things the main loop does alone
    that leads to the same state of the manager; in it each call is served at most
    once, a call that is still sending not at all; and a call that has returned has
    the response that its own command got in the sequence, either the error or a
    response of the type of its command, so that [Unexpected response type] is never
    returned. *)
Theorem calls_linearizable (m0 : Manager) (evs : list ipc_event) (s : System) :
  ipc_run evs (idle m0) = (Ret tt, s) →
  ∃ h, history h m0 (manager s) ∧ NoDup (ids h) ∧
    ∀ id c, ipc_calls s !! id = Some c →
      match progress c with
      | Sending => id ∉ ids h
      | Answered r => ∃ inp, mkServed (Some id) (MCmd inp (serverType c) (sends (method c))) (Some r) ∈ h
      | Returned res =>
         ∃ inp r, mkServed (Some id) (MCmd inp (serverType c) (sends (method c))) (Some r) ∈ h ∧
                  res = match r with ErrorCmdResp e => Fail e | _ => Ret r end
      end.
Proof.
  intros Hrun. destruct (ipc_run_explained m0 evs _ [] s (idle_explained m0) Hrun)
    as (h & Hh & Hnd & _ & Hc).
  exists h. split; [done|]. split; [done|]. intros id c Hid. by apply call_ok_explained, Hc.
Qed.

(** A call that has sent its command returns: in a reachable state the main loop can
    serve it, and unless carrying out the command ends the process, the call then
    returns, while the other calls stay where they are and the manager stays in order. *)
Theorem call_returns `{!RandOk R} (s : System) (id : nat) (c : Call) (inp : Inputs) :
  reachable lib_error_text (manager s) → inputs_ok inp →
  ipc_calls s !! id = Some c → progress c = Sending →
  match ipc_run [IServe id inp; IReturn id] s with
  | (Ret _, s') =>
     reachable lib_error_text (manager s') ∧
     (∃ r, ipc_calls s' !! id = Some (set_progress c (Returned (receives (method c) r)))) ∧
     ∀ id', id' ≠ id → ipc_calls s' !! id' = ipc_calls s !! id'
  | (Fail _, _) => False
  | _ => True
  end.
Proof.
  intros Hreach Hin Hid Hsend. destruct c as [server m p]. cbn [progress] in Hsend. subst p.
  cbn [ipc_run]. rewrite stM_bind_eq. cbn [ipc_step]. rewrite Hid, stM_bind_eq. unfold on_manager.
  pose proof (main_step_lively lib_error_text (MCmd inp server (sends m)) Hin (manager s)
                (reachable_alive _ _ Hreach)) as Hl.
  destruct (main_step _ _ (manager s)) as [[o|e|msg|] m'] eqn:E; [|done..].
  assert (Ho : ∃ r, o = Some r).
  { revert E. cbn [main_step]. rewrite stM_bind_eq.
    destruct (doCmd _ _ _ _ (manager s)) as [[r|e|msg|] m1]; [|done..]. intros [= <- _]. eauto. }
  destruct Ho as [r ->]. unfold set_call at 1, modifyS at 1. rewrite stM_bind_eq. cbn [ipc_step ipc_calls].
  rewrite lookup_insert_eq. cbn. split; [by eapply (reachable_step _ _ (MCmd inp server (sends m)))|].
  split; [exists r; apply lookup_insert_eq|].
  intros id' Hne. by rewrite !lookup_insert_ne.
Qed.

End System.

(** ** Listening *)

(** A listener a server may have: none (a nil pointer or interface), an open one, or one
    that was closed. *)
Inductive Listener := NoListener | Listening | ListenerClosed.

Record udsIpcServer := mkUds { uds_serverType : IpcServerType; uds_listener : Listener; sockPath : bytes }.
Record inetIpcServer := mkInet { inet_serverType : IpcServerType; inet_listener : Listener; port : Z }.

Definition NewUdsIpcServer (path : bytes) : udsIpcServer := mkUds IpcServerTypeUds NoListener path.
Definition NewInetIpcServer (p : Z) : inetIpcServer := mkInet IpcServerTypeInet NoListener p.

(** A server and the paths at which there is a file.  [net.ResolveUnixAddr] and
    [net.ListenUnix] answer with the first parameters; a socket that is bound is a file. *)
Definition uds_Launch (Resolve Listen : bytes → outcome unit) : stM (udsIpcServer * gset bytes) unit :=
  modifyS (λ '(self, fs), (self, fs ∖ {[sockPath self]}));;
  '(self, _) ← getS;
  liftS (Resolve (sockPath self));;
  match Listen (sockPath self) with
  | Ret _ => modifyS (λ '(self, fs), (mkUds (uds_serverType self) Listening (sockPath self),
                                     fs ∪ {[sockPath self]}))
  | Fail err => modifyS (λ '(self, fs), (mkUds (uds_serverType self) NoListener (sockPath self), fs));;
                failS err
  | Panic msg => panicS msg
  | Running => λ s, (Running, s)
  end.

(** Closing a nil [*net.UnixListener] is an error, which is ignored. *)
Definition uds_Stop : stM (udsIpcServer * gset bytes) unit :=
  modifyS (λ '(self, fs),
    (mkUds (uds_serverType self)
       (match uds_listener self with NoListener => NoListener | _ => ListenerClosed end) (sockPath self),
     fs ∖ {[sockPath self]})).

Definition inet_address (self : inetIpcServer) : bytes := ":" ++ itoa (port self).

Definition inet_Launch (Listen : bytes → outcome unit) : stM inetIpcServer unit :=
  self ← getS;
  match Listen (inet_address self) with
  | Ret _ => putS (mkInet (inet_serverType self) Listening (port self))
  | Fail err => putS (mkInet (inet_serverType self) NoListener (port self));; failS err
  | Panic msg => panicS msg
  | Running => λ s, (Running, s)
  end.

(** A method of a nil interface cannot be called. *)
Definition inet_Stop : stM inetIpcServer unit :=
  self ← getS;
  match inet_listener self with
  | NoListener => panicS nil_dereference
  | _ => putS (mkInet (inet_serverType self) ListenerClosed (port self))
  end.

(** [serve]: every connection is handed to a goroutine, until [Accept] fails; [accepts]
    are the results of its calls. *)
Fixpoint serve {Conn} (accepts : list (outcome Conn)) : list Conn :=
  match accepts with
  | Ret conn :: accepts => conn :: serve accepts
  | _ => []
  end.

(** Launching and stopping a server of commands on a Unix socket leaves no socket
    behind, whether or not it could listen; stopping a TCP server after it could not
    listen, which the program does, panics. *)
Theorem stop_after_launch (Resolve Listen : bytes → outcome unit) (path : bytes) (fs : gset bytes)
    (p : Z) (err : error) :
  (snd ((try_ (uds_Launch Resolve Listen);; uds_Stop) (NewUdsIpcServer path, fs))).2 ⊆ fs ∖ {[path]} ∧
  (Listen (":" ++ itoa p) = Fail err →
   fst ((try_ (inet_Launch Listen);; inet_Stop) (NewInetIpcServer p)) = Panic nil_dereference) ∧
  (Listen (":" ++ itoa p) = Ret tt →
   returns (fst ((try_ (inet_Launch Listen);; inet_Stop) (NewInetIpcServer p)))).
Proof.
  split; [|split].
  - unfold uds_Launch, uds_Stop, try_, liftS, mbind, stM_bind. cbn.
    destruct (Resolve path); cbn; [|set_solver..].
    destruct (Listen path); cbn; set_solver.
  - change (":" ++ itoa p) with (inet_address (NewInetIpcServer p)). intros E.
    unfold inet_Launch, inet_Stop, try_, getS, mbind, stM_bind. by rewrite E.
  - change (":" ++ itoa p) with (inet_address (NewInetIpcServer p)). intros E.
    unfold inet_Launch, inet_Stop, try_, getS, mbind, stM_bind. rewrite E. by eexists.
Qed.

Lemma stop_after_launch_witness :
  let Listen : bytes → outcome unit := λ _, Fail (OsError EIO) in
  fst ((try_ (inet_Launch Listen);; inet_Stop) (NewInetIpcServer 8080)) = Panic nil_dereference.
Proof.
  intros Listen.
  exact (proj1 (proj2 (stop_after_launch (λ _, Ret tt) Listen "cmd.sock" ∅ 8080 (OsError EIO))) eq_refl).
Defined.

(** ** Two clients at once *)

#[local] Existing Instances UTC exact_fraction exact_fraction_ok FileRunLogFacts.example_temp
  TimeSpecParse.no_text first_rand first_rand_ok example_yaml example_yaml_ok example_doc.

Definition two_calls : list ipc_event :=
  [ICall 0 IpcServerTypeUds (PauseCmd ["a" : bytes]); ICall 1 IpcServerTypeInet (CatCmd "b");
   IServe 1 (example_inputs no_file); IServe 0 (example_inputs no_file); IReturn 0; IReturn 1].

Definition two_calls_after : System :=
  (ipc_run no_error_text two_calls (idle example_set)).2.

Lemma calls_linearizable_witness :
  ipc_run no_error_text two_calls (idle example_set) = (Ret tt, two_calls_after) ∧
  (progress <$> ipc_calls two_calls_after !! 0 = Some (Returned (Ret (PauseCmdResp 1)))) ∧
  (progress <$> ipc_calls two_calls_after !! 1 = Some (Returned (Fail no_such_job))) ∧
  ∃ h, history no_error_text h example_set (manager two_calls_after).
Proof.
  assert (E : ipc_run no_error_text two_calls (idle example_set) = (Ret tt, two_calls_after))
    by (vm_compute; reflexivity).
  split; [exact E|]. split; [vm_compute; reflexivity|]. split; [vm_compute; reflexivity|].
  destruct (calls_linearizable no_error_text example_set two_calls two_calls_after E) as (h & Hh & _).
  exists h. exact Hh.
Defined.

Definition one_call : System :=
  mkSystem example_set {[0 := mkCall IpcServerTypeUds (Cat "a") Sending]}.

Lemma call_returns_witness :
  ∃ s' r, ipc_run no_error_text [IServe 0 (example_inputs no_file); IReturn 0] one_call = (Ret tt, s') ∧
    ipc_calls s' !! 0 = Some (mkCall IpcServerTypeUds (Cat "a") (Returned (receives (Cat "a") r))).
Proof.
  pose proof (call_returns no_error_text one_call 0 (mkCall IpcServerTypeUds (Cat "a") Sending)
                (example_inputs no_file) example_set_reachable (example_inputs_ok _)
                ltac:(reflexivity) eq_refl) as P.
  destruct (ipc_run no_error_text [IServe 0 (example_inputs no_file); IReturn 0] one_call)
    as [[[]|e|msg|] s'] eqn:E; [|exfalso; vm_compute in E; discriminate..].
  destruct P as (_ & [r Hr] & _). exists s', r. split; [reflexivity|exact Hr].
Defined.
