(* ===== verification/TestJob.v ===== *)
(** * Trying a job out ([jobberrunner/testjob])

    The "test" command makes a socket in a directory of its own and a goroutine that
    waits for the client to connect, runs the job once with its output going to the
    client, and says how it ended.  [event]s are what happens to the goroutines;
    [server_reachable] is what they lead to.  The subprocess, the socket and the
    clock are answers the operating system gives. *)

From S2P Require Import Prelude GoStrings Calendar GoPath Job JobFile.

Open Scope nat_scope.
Open Scope bytes_scope.
Open Scope list_scope.

(** ** The goroutine that runs the job *)

(** What became of the subprocess: the error of [cmd.Start]; or else the error of
    [cmd.Wait], whether the context had been cancelled by then, and the time. *)
Record Subprocess := mkSubprocess {
  start_error : option error;
  output : bytes;
  wait_error : option error;
  ctx_cancelled : bool;
  started : Time;
  ended : Time
}.

(** [testJobThread.Run] *)
Definition Run (p : Subprocess) : outcome unit :=
  match start_error p with
  | Some err => Fail err
  | None => Ret tt
  end.

(** [testJobThread.runThread]: the record it reports *)
Definition runThread (job : bytes) (p : Subprocess) : RunRec :=
  let fate :=
    match wait_error p with
    | None => SubprocFateSucceeded
    | Some _ => if ctx_cancelled p then SubprocFateCancelled else SubprocFateFailed
    end in
  mkRunRec job (started p) JobGood None None fate (ended p - started p)%Z None.

(** ** The server *)

(** The goroutine of a socket: serving, with the path of its directory; or past the
    call of [waitGroup.Done], which is the first of its deferred calls to run, while
    the listener and the directory are still there. *)
Inductive thread_state := Serving | Exiting.

#[export] Instance thread_state_eq_dec : EqDecision thread_state.
Proof. solve_decision. Defined.

Record Thread := mkThread { thread_job : bytes; sockDir : bytes; state : thread_state }.

(** [tempDirs]: the directories there are; [sent]: what was written to the client at
    the socket in a directory, in order. *)
Record TestJobServer := mkTestJobServer {
  waitGroup : nat;
  threads : list Thread;
  tempDirs : gset bytes;
  sent : list (bytes * bytes)
}.

Definition NewTestJobServer : TestJobServer := mkTestJobServer 0 [] ∅ [].

(** [waitGroup.Wait] returns. *)
Definition Wait_returns (self : TestJobServer) : bool := bool_decide (waitGroup self = 0).

Definition RemoveAll (dir : bytes) : stM TestJobServer unit := modifyS (λ s,
  mkTestJobServer (waitGroup s) (threads s) (tempDirs s ∖ {[dir]}) (sent s)).

Definition conn_Write (dir text : bytes) : stM TestJobServer unit := modifyS (λ s,
  mkTestJobServer (waitGroup s) (threads s) (tempDirs s) (sent s ++ [(dir, text)])).

(** The answers of [ioutil.TempDir], [net.ResolveUnixAddr] and [net.ListenUnix] *)
Definition Launch (TempDir : outcome bytes) (Resolve Listen : bytes → outcome unit) (job : bytes)
    : stM TestJobServer bytes :=
  dir ← liftS TempDir;
  modifyS (λ s, mkTestJobServer (waitGroup s) (threads s) (tempDirs s ∪ {[dir]}) (sent s));;
  let sockPath := path_Join dir "output.sock" in
  addr ← try_ (liftS (Resolve sockPath));
  match addr with
  | inr err => RemoveAll dir;; failS err
  | inl _ =>
     listener ← try_ (liftS (Listen sockPath));
     match listener with
     | inr err => RemoveAll dir;; failS err
     | inl _ =>
        modifyS (λ s, mkTestJobServer (S (waitGroup s)) (threads s ++ [mkThread job dir Serving])
                        (tempDirs s) (sent s));;
        mret sockPath
     end
  end.

(** What the goroutine finds first: a client; an error of [Accept]; or the end of a
    minute or of the server's context. *)
Inductive arrival := Connected (p : Subprocess) | AcceptFailed | GaveUp.

Definition report (fate : SubprocFate) : bytes :=
  match fate with
  | SubprocFateSucceeded => "Job succeeded"
  | SubprocFateFailed => "Job failed"
  | SubprocFateCancelled => "Job was cancelled"
  end ++ [newline].

Section Server.
Variable error_text : error → bytes.

(** The body of [serve]; the job's output goes to the client while it runs. *)
Definition serve (dir job : bytes) (a : arrival) : stM TestJobServer unit :=
  match a with
  | AcceptFailed | GaveUp => mret tt
  | Connected p =>
     match Run p with
     | Fail err => conn_Write dir ("Failed to launch thread: " ++ error_text err ++ [newline])
     | _ =>
        let result := runThread job p in
        conn_Write dir (output p);;
        conn_Write dir [newline; newline];;
        conn_Write dir (report (Fate result))
     end
  end.

(** [EServe i a]: goroutine [i] gets through its body and calls [waitGroup.Done].
    [EExit i]: it closes its listener and removes its directory. *)
Inductive event :=
| ELaunch (TempDir : outcome bytes) (Resolve Listen : bytes → outcome unit) (job : bytes)
| EServe (i : nat) (a : arrival)
| EExit (i : nat).

Definition step (ev : event) : stM TestJobServer unit := λ s,
  match ev with
  | ELaunch TempDir Resolve Listen job => (try_ (Launch TempDir Resolve Listen job);; mret tt) s
  | EServe i a =>
     match threads s !! i with
     | Some (mkThread job dir Serving) =>
        (serve dir job a;;
         modifyS (λ s, mkTestJobServer (pred (waitGroup s)) (<[i := mkThread job dir Exiting]> (threads s))
                         (tempDirs s) (sent s))) s
     | _ => (Ret tt, s)
     end
  | EExit i =>
     match threads s !! i with
     | Some (mkThread job dir Exiting) =>
        (RemoveAll dir;;
         modifyS (λ s, mkTestJobServer (waitGroup s) (delete i (threads s)) (tempDirs s) (sent s))) s
     | _ => (Ret tt, s)
     end
  end.

(** [ioutil.TempDir] makes a directory that was not there. *)
Definition possible (ev : event) (s : TestJobServer) : Prop :=
  match ev with
  | ELaunch (Ret dir) Resolve Listen _ =>
     dir ∉ tempDirs s ∧ (∀ p, ¬ panics (Resolve p) ∧ Resolve p ≠ Running) ∧
     (∀ p, ¬ panics (Listen p) ∧ Listen p ≠ Running)
  | ELaunch (Fail _) _ _ _ => True
  | ELaunch _ _ _ _ => False
  | _ => True
  end.

Inductive server_reachable : TestJobServer → Prop :=
| server_new : server_reachable NewTestJobServer
| server_step s ev s' :
    server_reachable s → possible ev s → step ev s = (Ret tt, s') → server_reachable s'.

(** ** The invariant *)

Definition serving (t : Thread) : Prop := state t = Serving.
#[local] Instance serving_dec t : Decision (serving t).
Proof. unfold serving. apply _. Defined.

(** The wait group counts the goroutines that serve, and every goroutine has its own
    directory; there are no others. *)
Definition server_ok (s : TestJobServer) : Prop :=
  waitGroup s = length (base.filter serving (threads s)) ∧
  NoDup (map sockDir (threads s)) ∧
  ∀ dir, dir ∈ tempDirs s ↔ dir ∈ map sockDir (threads s).

Lemma Launch_ok TempDir Resolve Listen job s :
  possible (ELaunch TempDir Resolve Listen job) s → server_ok s →
  server_ok (Launch TempDir Resolve Listen job s).2.
Proof.
  intros Hp Hok. unfold Launch, liftS. rewrite stM_bind_eq.
  destruct TempDir as [dir|e|msg|]; [|done..]. destruct Hp as (Hdir & Hr & Hl).
  destruct Hok as (Hw & Hnd & Hd).
  assert (Hgone : server_ok (mkTestJobServer (waitGroup s) (threads s)
                               ((tempDirs s ∪ {[dir]}) ∖ {[dir]}) (sent s))).
  { split; [done|]. split; [done|]. intros d. cbn [tempDirs threads]. rewrite <- Hd.
    destruct (decide (d = dir)); set_solver. }
  rewrite stM_bind_eq. cbn [modifyS]. rewrite stM_bind_eq. unfold try_.
  destruct (Resolve _) as [[]|e|msg|] eqn:Er; [|exact Hgone|exfalso..];
    [|by destruct (Hr (path_Join dir "output.sock")) as [[] _]; eexists
     |by destruct (Hr (path_Join dir "output.sock")) as [_ []]].
  rewrite stM_bind_eq.
  destruct (Listen _) as [[]|e|msg|] eqn:El; [|exact Hgone|exfalso..];
    [|by destruct (Hl (path_Join dir "output.sock")) as [[] _]; eexists
     |by destruct (Hl (path_Join dir "output.sock")) as [_ []]].
  change (server_ok (mkTestJobServer (S (waitGroup s)) (threads s ++ [mkThread job dir Serving])
                       (tempDirs s ∪ {[dir]}) (sent s))).
  split; [|split]; cbn [waitGroup threads tempDirs].
  - rewrite filter_app, length_app. rewrite filter_cons_True, filter_nil by done. rewrite Hw. simpl. lia.
  - rewrite map_app. apply NoDup_app. split; [done|]. split; [|apply NoDup_singleton].
    intros d Hin ->%list_elem_of_singleton. by apply Hd in Hin.
  - intros d. rewrite map_app, elem_of_app, <- Hd. cbn [map sockDir]. set_solver.
Qed.

(** Launching a test job gives the path of a socket or an error. *)
Lemma Launch_answers TempDir Resolve Listen job s :
  possible (ELaunch TempDir Resolve Listen []) s →
  match Launch TempDir Resolve Listen job s with
  | (Ret _, _) | (Fail _, _) => True
  | _ => False
  end.
Proof.
  intros Hp. unfold Launch, liftS. rewrite stM_bind_eq.
  destruct TempDir as [dir|e|msg|]; [|done..]. destruct Hp as (_ & Hr & Hl).
  rewrite modifyS_bind, stM_bind_eq. unfold try_.
  destruct (Hr (path_Join dir "output.sock")) as [Hr1 Hr2].
  destruct (Hl (path_Join dir "output.sock")) as [Hl1 Hl2].
  destruct (Resolve _); [|done|by destruct Hr1; eexists|done].
  rewrite stM_bind_eq. by destruct (Listen _); [| |destruct Hl1; eexists|].
Qed.

(** A goroutine leaves its place for another state. *)
Lemma filter_exiting (ts : list Thread) i job dir :
  ts !! i = Some (mkThread job dir Serving) →
  length (base.filter serving (<[i := mkThread job dir Exiting]> ts)) = pred (length (base.filter serving ts)).
Proof.
  intros Hi. rewrite <- (take_drop_middle _ _ _ Hi) at 2. rewrite insert_take_drop by (by eapply lookup_lt_Some).
  rewrite !filter_app, !length_app, !filter_cons. 
  rewrite decide_False by done. rewrite decide_True by done. cbn [length]. lia.
Qed.

Lemma filter_delete (ts : list Thread) i job dir :
  ts !! i = Some (mkThread job dir Exiting) →
  length (base.filter serving (delete i ts)) = length (base.filter serving ts).
Proof.
  intros Hi. rewrite <- (take_drop_middle _ _ _ Hi) at 2. rewrite delete_take_drop.
  rewrite !filter_app, !length_app, !filter_cons. by rewrite decide_False by done.
Qed.

Lemma serve_frame dir job a s :
  ∃ out, serve dir job a s =
    (Ret tt, mkTestJobServer (waitGroup s) (threads s) (tempDirs s) (sent s ++ map (pair dir) out)).
Proof.
  destruct a as [p| |]; cbn [serve].
  - destruct (Run p) as [[]|e|msg|] eqn:E.
    + exists [output p; [newline; newline]; report (Fate (runThread job p))].
      unfold conn_Write, modifyS, mbind, stM_bind.
      cbn [sent waitGroup threads tempDirs map]. by rewrite <- !app_assoc.
    + eexists [_]. done.
    + unfold Run in E. by destruct (start_error p).
    + unfold Run in E. by destruct (start_error p).
  - exists []. cbn. rewrite app_nil_r. by destruct s.
  - exists []. cbn. rewrite app_nil_r. by destruct s.
Qed.

Lemma test_step_ok ev s s' :
  possible ev s → server_ok s → step ev s = (Ret tt, s') → server_ok s'.
Proof.
  intros Hp Hok. destruct ev as [TempDir Resolve Listen job|i a|i]; cbn [step].
  - pose proof (Launch_ok TempDir Resolve Listen job s Hp Hok) as Hl.
    rewrite stM_bind_eq. unfold try_. destruct (Launch _ _ _ _ s) as [[] s1]; intros [= <-]; exact Hl.
  - destruct (threads s !! i) as [[job dir []]|] eqn:Hi; try (by intros [= <-]).
    destruct (serve_frame dir job a s) as [out E]. rewrite stM_bind_eq, E.
    intros [= <-]. destruct Hok as (Hw & Hnd & Hd). cbn [waitGroup threads tempDirs sent].
    assert (Hmap : map sockDir (<[i := mkThread job dir Exiting]> (threads s)) = map sockDir (threads s)).
    { etransitivity; [apply (list_fmap_insert sockDir)|]. apply list_insert_id.
      by rewrite list_lookup_fmap, Hi. }
    split; [|split]; cbn [waitGroup threads tempDirs].
    + by rewrite (filter_exiting _ _ _ _ Hi), Hw.
    + by rewrite Hmap.
    + intros d. by rewrite Hmap.
  - destruct (threads s !! i) as [[job dir []]|] eqn:Hi; try (by intros [= <-]).
    intros [= <-]. destruct Hok as (Hw & Hnd & Hd).
    split; [|split]; cbn [waitGroup threads tempDirs modifyS RemoveAll mbind stM_bind].
    + by rewrite (filter_delete _ _ _ _ Hi).
    + revert Hnd. rewrite <- (take_drop_middle _ _ _ Hi) at 1. rewrite delete_take_drop, !map_app.
      cbn [map]. intros (H1 & H2 & H3)%NoDup_app. apply NoDup_cons in H3 as [_ H3].
      apply NoDup_app. set_solver.
    + intros d. rewrite elem_of_difference, Hd. clear Hd Hw.
      revert Hnd. rewrite <- (take_drop_middle _ _ _ Hi) at 1 2. rewrite delete_take_drop, !map_app.
      cbn [map sockDir]. intros (H1 & H2 & H3)%NoDup_app. apply NoDup_cons in H3 as [H3 H4].
      rewrite elem_of_singleton. set_solver.
Qed.

(** Once nobody serves, nobody starts to without a launch. *)
Lemma step_waits ev s s' :
  match ev with EServe _ _ | EExit _ => True | _ => False end →
  step ev s = (Ret tt, s') → waitGroup s = 0 → waitGroup s' = 0.
Proof.
  intros Hev. destruct ev as [T Rs Ls job|i a|i]; cbn [step]; [done|..].
  - destruct (threads s !! i) as [[job dir []]|]; try (by intros [= <-]).
    destruct (serve_frame dir job a s) as [out E]. rewrite stM_bind_eq, E. intros [= <-] H0. cbn. by rewrite H0.
  - destruct (threads s !! i) as [[job dir []]|]; by intros [= <-].
Qed.

Lemma server_reachable_ok s : server_reachable s → server_ok s.
Proof.
  induction 1 as [|s ev s' _ IH Hp E].
  - split; [done|]. split; [constructor|]. intros d. cbn. set_solver.
  - by eapply test_step_ok.
Qed.

Lemma server_ok_facts s :
  server_ok s →
  NoDup (map sockDir (threads s)) ∧
  (∀ dir, dir ∈ tempDirs s ↔ dir ∈ map sockDir (threads s)) ∧
  (Wait_returns s = true ↔ Forall (λ t, state t = Exiting) (threads s)).
Proof.
  intros (Hw & Hnd & Hd). split; [done|]. split; [done|].
  unfold Wait_returns. rewrite bool_decide_eq_true, Hw. clear. induction (threads s) as [|t ts IH]; [done|].
  rewrite Forall_cons, filter_cons. destruct (decide (serving t)) as [Ht|Ht].
  - split; [done|]. intros [Ht' _]. unfold serving in Ht. congruence.
  - rewrite IH. unfold serving in Ht. destruct (state t); naive_solver.
Qed.

(** Whatever the goroutines do in whatever order, each has a directory of its own, no
    other directory is left, and the wait group counts those that still serve.  So
    once all goroutines are gone there is no directory, and when [Wait] returns none
    serves a client any more. *)
Theorem test_server_invariant s :
  server_reachable s →
  NoDup (map sockDir (threads s)) ∧
  (∀ dir, dir ∈ tempDirs s ↔ dir ∈ map sockDir (threads s)) ∧
  (threads s = [] → tempDirs s = ∅) ∧
  (Wait_returns s = true ↔ Forall (λ t, state t = Exiting) (threads s)).
Proof.
  intros (Hnd & Hd & Hw)%server_reachable_ok%server_ok_facts. split; [done|]. split; [done|]. split; [|done].
  intros Ht. apply set_eq. intros d. rewrite Hd, Ht. set_solver.
Qed.

(** What a client that connects is sent.  If the subprocess cannot be started, the
    error; else the output of the job, an empty line and how it ended: it succeeded
    if its exit status was zero, even when it was cancelled meanwhile; it was
    cancelled if not and the client had gone or the server was told to stop; and else
    it failed. *)
Theorem serve_reports dir job p s :
  serve dir job (Connected p) s =
  (Ret tt, mkTestJobServer (waitGroup s) (threads s) (tempDirs s)
     (sent s ++ map (pair dir)
        match start_error p with
        | Some err => ["Failed to launch thread: " ++ error_text err ++ [newline]]
        | None =>
           [output p; [newline; newline];
            match wait_error p, ctx_cancelled p with
            | None, _ => "Job succeeded" ++ [newline]
            | Some _, true => "Job was cancelled" ++ [newline]
            | Some _, false => "Job failed" ++ [newline]
            end]
        end)).
Proof.
  cbn [serve]. unfold Run. destruct (start_error p) as [err|]; [done|].
  unfold conn_Write, modifyS, mbind, stM_bind, runThread.
  cbn [Fate sent waitGroup threads tempDirs map]. rewrite <- !app_assoc.
  by destruct (wait_error p), (ctx_cancelled p).
Qed.

End Server.

(** ** A goroutine that has been waited for may leave its directory *)

Definition example_launch : event :=
  ELaunch (Ret ("/var/jobber/1000/try-1" : bytes)) (λ _, Ret tt) (λ _, Ret tt) "a".

Definition example_launched : TestJobServer :=
  mkTestJobServer 1 [mkThread "a" "/var/jobber/1000/try-1" Serving] {["/var/jobber/1000/try-1" : bytes]} [].

Definition example_waited : TestJobServer :=
  mkTestJobServer 0 [mkThread "a" "/var/jobber/1000/try-1" Exiting] {["/var/jobber/1000/try-1" : bytes]} [].

Lemma example_waited_reachable error_text : server_reachable error_text example_waited.
Proof.
  apply (server_step _ example_launched (EServe 0 GaveUp)); [|done|reflexivity].
  apply (server_step _ NewTestJobServer example_launch); [constructor| |].
  - split; [set_solver|]. split; intros path; (split; [by intros [msg Hm]|done]).
  - vm_compute. reflexivity.
Qed.

(** [Wait] can return while the socket directory of a test is still there: a goroutine
    calls [waitGroup.Done] before it removes the directory, so a runner that ends
    right after waiting can leave it behind. *)
Theorem wait_before_cleanup error_text :
  ∃ s, server_reachable error_text s ∧ Wait_returns s = true ∧ tempDirs s ≠ ∅.
Proof.
  exists example_waited. split; [apply example_waited_reachable|]. split; [done|]. set_solver.
Qed.

Lemma test_server_invariant_witness :
  NoDup (map sockDir (threads example_waited)) ∧
  Forall (λ t, state t = Exiting) (threads example_waited).
Proof.
  destruct (test_server_invariant (λ _, []) example_waited (example_waited_reachable _))
    as (Hnd & _ & _ & Hw).
  split; [exact Hnd|]. apply Hw. reflexivity.
Defined.
