(* ===== verification/TestClient.v ===== *)
(** * The client of a test job ([jobberrunner/testjob], in detail)

    TestJob.v lets the goroutine of a socket get through its body in one step.  Here the
    body is taken apart: the goroutine that accepts the connection ([makeConnChan]), the
    one that reads from it and cancels the job when the client is gone
    ([callWhenConnClosed]), the subprocess with the goroutine that waits for it
    ([runThread]), and [serve], which selects between what they offer.  The theorems say
    that every interleaving amounts to one step of TestJob.v, and when the connection of
    a client is closed. *)

From S2P Require Import Prelude GoStrings Calendar GoPath Job JobFile TestJob.

Open Scope nat_scope.
Open Scope bytes_scope.
Open Scope list_scope.

(** ** State and events *)

(** The goroutine of [makeConnChan]: in [Accept]; at its send, the channel having no
    room; or past it, its channel closed. *)
Inductive conn_chan := Accepting | Offering | Delivered | Failed.

(** The subprocess, which may have exited with the error of [cmd.Wait] *)
Inductive subproc := NotStarted | Alive (since : Time) | Exited (since : Time) (wait : option error).

(** [serve]: at its first [select]; waiting for the job; or at its deferred calls *)
Inductive serve_state := Selecting | Waiting | Returned.

(** [subCtx_done]: the context of the job has been cancelled.  [watching]: the goroutine
    of [callWhenConnClosed] reads.  [conn_open]: the connection is open at this end;
    [None] when there is none.  [written] is what was sent on it. *)
Record Session := mkSession {
  connChan : conn_chan;
  stage : serve_state;
  listening : bool;
  conn_open : option bool;
  watching : bool;
  subCtx_done : bool;
  proc : subproc;
  job_output : bytes;
  written : bytes
}.

(** [CAccept]: [Accept] returns a connection or an error.  [CConnected], [CClosed],
    [CTimeout]: the [select] takes the connection, finds the channel closed, or finds
    its context done; the subprocess is started at [now], or cannot be.  [CRead]: a read
    of the watching goroutine returns a byte or an error.  [CCancel]: the context of the
    server is cancelled.  [COutput], [CExit]: the subprocess writes, or exits.
    [CReport]: [runThread] looks at the context and reports, at [now]. *)
Inductive session_event :=
| CAccept (ok : bool)
| CConnected (start : option error) (now : Time)
| CClosed
| CTimeout
| CRead (ok : bool)
| CCancel
| COutput (text : bytes)
| CExit (wait : option error)
| CReport (now : Time).

Definition NewSession : Session :=
  mkSession Accepting Selecting true None false false NotStarted [] [].

Section Session.
Variable error_text : error → bytes.

(** What [serve] writes when the job has ended *)
Definition closing_words (fate : SubprocFate) : bytes := [newline; newline] ++ report fate.

(** [callWhenConnClosed(conn, cancelSubCtx)]: one read *)
Definition callWhenConnClosed (ok : bool) (s : Session) : Session :=
  if ok then s
  else mkSession (connChan s) (stage s) (listening s) (conn_open s) false true (proc s) (job_output s) (written s).

(** [serve] returns: what is deferred closes the connection it has, cancels the context
    of the job and closes the listener. *)
Definition return_ (words : bytes) (s : Session) : Session :=
  mkSession (connChan s) Returned false ((λ _, false) <$> conn_open s) (watching s) true (proc s)
    (job_output s) (written s ++ words).

Definition session_step (ev : session_event) (s : Session) : Session :=
  match ev, stage s, connChan s, proc s with
  | CAccept ok, _, Accepting, _ =>
     mkSession (if ok && listening s then Offering else Failed) (stage s) (listening s) (conn_open s)
       (watching s) (subCtx_done s) (proc s) (job_output s) (written s)
  | CConnected None now, Selecting, Offering, _ =>
     mkSession Delivered Waiting (listening s) (Some true) true (subCtx_done s) (Alive now)
       (job_output s) (written s)
  | CConnected (Some err) _, Selecting, Offering, _ =>
     return_ ("Failed to launch thread: " ++ error_text err ++ [newline])
       (mkSession Delivered Selecting (listening s) (Some true) true (subCtx_done s) (proc s)
          (job_output s) (written s))
  | CClosed, Selecting, Failed, _ => return_ [] s
  | CTimeout, Selecting, _, _ => return_ [] s
  | CRead ok, _, _, _ => if watching s then callWhenConnClosed ok s else s
  | CCancel, Waiting, _, _ =>
     mkSession (connChan s) Waiting (listening s) (conn_open s) (watching s) true (proc s)
       (job_output s) (written s)
  | COutput text, _, _, Alive _ =>
     mkSession (connChan s) (stage s) (listening s) (conn_open s) (watching s) (subCtx_done s) (proc s)
       (job_output s ++ text) (written s ++ text)
  | CExit wait, _, _, Alive since =>
     mkSession (connChan s) (stage s) (listening s) (conn_open s) (watching s) (subCtx_done s)
       (Exited since wait) (job_output s) (written s)
  | CReport now, Waiting, _, Exited since wait =>
     return_ (closing_words (Fate (runThread [] (mkSubprocess None (job_output s) wait (subCtx_done s) since now)))) s
  | _, _, _, _ => s
  end.

Definition session_run (evs : list session_event) (s : Session) : Session := foldl (λ s ev, session_step ev s) s evs.


(** ** Every interleaving is one step of TestJob.v *)

(** What [TestJob.serve] writes, piece by piece *)
Definition pieces (a : arrival) : list bytes :=
  match a with
  | Connected p =>
     match start_error p with
     | Some err => ["Failed to launch thread: " ++ error_text err ++ [newline]]
     | None => [output p; [newline; newline]; report (Fate (runThread [] p))]
     end
  | _ => []
  end.

Lemma concat_pieces p :
  start_error p = None →
  concat (pieces (Connected p)) = output p ++ closing_words (Fate (runThread [] p)).
Proof.
  intros E. unfold pieces. rewrite E. cbn [concat]. rewrite app_nil_r. done.
Qed.

Definition connected (a : arrival) : bool := match a with Connected _ => true | _ => false end.

Lemma serve_pieces dir job a srv :
  serve error_text dir job a srv =
  (Ret tt, mkTestJobServer (waitGroup srv) (threads srv) (tempDirs srv)
             (sent srv ++ map (pair dir) (pieces a))).
Proof.
  destruct srv. destruct a as [p| |]; cbn [serve pieces]; [|by rewrite app_nil_r..].
  unfold Run. destruct (start_error p) as [err|]; [done|].
  unfold conn_Write, modifyS, mbind, stM_bind. cbn. by rewrite <- !app_assoc.
Qed.

(** Before the [select], while the job runs, and afterwards *)
Definition session_ok (s : Session) : Prop :=
  match stage s with
  | Selecting =>
     connChan s ≠ Delivered ∧ listening s = true ∧ conn_open s = None ∧ proc s = NotStarted ∧
     job_output s = [] ∧ written s = []
  | Waiting =>
     connChan s = Delivered ∧ conn_open s = Some true ∧ proc s ≠ NotStarted ∧ written s = job_output s
  | Returned =>
     conn_open s ≠ Some true ∧ listening s = false ∧
     (match proc s with Alive _ => False | _ => True end) ∧
     ∃ a, written s = concat (pieces a) ∧ connected a = bool_decide (is_Some (conn_open s)) ∧
          (conn_open s = None ↔ connChan s ≠ Delivered)
  end.

Lemma session_step_ok ev s : session_ok s → session_ok (session_step ev s).
Proof.
  destruct s as [cc st li co wa sd pr out wr]. unfold session_ok.
  destruct st; cbn [stage connChan conn_open proc written job_output listening].
  - intros (Hcc & -> & -> & -> & -> & ->).
    destruct ev as [ok|[err|] now| | |ok| |text|wait|now], cc; try done; cbn.
    + by destruct ok.
    + split; [done|]. split; [done|]. split; [done|].
      exists (Connected (mkSubprocess (Some err) [] None false 0 0)).
      split; [symmetry; apply app_nil_r|done].
    + split; [done|]. split; [done|]. split; [done|]. by exists AcceptFailed.
    + split; [done|]. split; [done|]. split; [done|]. by exists GaveUp.
    + split; [done|]. split; [done|]. split; [done|]. by exists GaveUp.
    + split; [done|]. split; [done|]. split; [done|]. by exists GaveUp.
    + by destruct wa, ok.
    + by destruct wa, ok.
    + by destruct wa, ok.
  - intros (-> & -> & Hp & ->).
    destruct ev as [ok|[err|] now| | |ok| |text|wait|now]; try done; cbn.
    + by destruct wa, ok.
    + by destruct pr.
    + by destruct pr.
    + destruct pr as [| |since wait]; [done|done|]. cbn.
      split; [done|]. split; [done|]. split; [done|].
      exists (Connected (mkSubprocess None out wait sd since now)).
      split; [|done]. symmetry. by apply concat_pieces.
  - intros (Hco & -> & Hp & a & Hw & Hc & Hd).
    destruct ev as [ok|[err|] now| | |ok| |text|wait|now]; cbn; try (by eauto 10).
    + destruct cc; cbn; (split; [done|]; split; [done|]; split; [done|]; exists a; split; [done|]; split; [done|]);
        try done. rewrite andb_false_r. by rewrite Hd.
    + destruct wa, ok; cbn; by eauto 10.
    + destruct pr; [|done|]; cbn; by eauto 10.
    + destruct pr; [|done|]; cbn; by eauto 10.
Qed.

Lemma session_run_ok evs s : session_ok s → session_ok (session_run evs s).
Proof.
  revert s. induction evs as [|ev evs IH]; intros s Hs; [done|]. by apply IH, session_step_ok.
Qed.

Lemma new_session_ok : session_ok NewSession.
Proof. by repeat split. Qed.


(** A client that goes away cancels its job: whatever has happened before, once the
    watching goroutine has seen it and the subprocess has exited with an error, [serve]
    closes the connection and says that the job was cancelled. *)
Theorem client_gone evs now e :
  let s := session_run evs NewSession in
  let s' := session_run [CRead false; CExit (Some e); CReport now] s in
  stage s = Waiting → watching s = true → (∀ since, proc s ≠ Exited since None) →
  stage s' = Returned ∧ conn_open s' = Some false ∧ subCtx_done s' = true ∧
  written s' = job_output s ++ [newline; newline] ++ "Job was cancelled" ++ [newline].
Proof.
  intros s s' Hst Hw Hp. pose proof (session_run_ok evs _ new_session_ok) as Hok. fold s in Hok.
  unfold session_ok in Hok. rewrite Hst in Hok. destruct Hok as (Hcc & Hco & Hpr & Hwr).
  subst s'. clearbody s. destruct s as [cc st li co wa sd pr out wr]. cbn in *. subst.
  destruct pr as [|since|since [e'|]]; [done|done|done|]. by destruct (Hp since).
Qed.

(** A connection that has been accepted when [serve] gives up is never taken: its
    goroutine stays at its send, and nothing closes the connection, so that the client
    waits for ever. *)
Theorem late_client_waits evs evs' :
  let s := session_run evs NewSession in
  stage s = Returned → connChan s = Offering →
  let s' := session_run evs' s in
  connChan s' = Offering ∧ conn_open s' = None ∧ written s' = [].
Proof.
  intros s Hst Hcc. pose proof (session_run_ok evs _ new_session_ok) as Hok. fold s in Hok.
  assert (H : session_ok s ∧ stage s = Returned ∧ connChan s = Offering) by done.
  clear Hst Hcc Hok. clearbody s. revert s H.
  induction evs' as [|ev evs' IH]; intros s (Hok & Hst & Hcc); cbn [session_run foldl].
  - split; [done|]. unfold session_ok in Hok. rewrite Hst in Hok.
    destruct Hok as (_ & _ & _ & a & Hw & Hc & Hd). rewrite Hcc in Hd.
    assert (Hn : conn_open s = None) by by apply Hd. split; [done|]. rewrite Hn in Hc.
    destruct a; [discriminate Hc|done..].
  - apply (IH (session_step ev s)). split; [by apply session_step_ok|].
    destruct s as [cc st li co wa sd pr out wr]. cbn in Hst, Hcc. subst.
    unfold session_ok in Hok. cbn in Hok. destruct Hok as (_ & _ & Hp & _).
    destruct ev as [ok|[err|] now| | |ok| |text|wait|now]; try done; cbn; [by destruct wa, ok|by destruct pr..].
Qed.

End Session.

(** ** Two clients *)

(** One is served and goes away; one comes as the minute is over. *)
Definition gone_trace : list session_event :=
  [CAccept true; CConnected None 5; COutput "hello"].
Definition late_trace : list session_event := [CAccept true; CTimeout].


Lemma client_gone_witness :
  written (session_run (λ _, []) [CRead false; CExit (Some (OsError EIO)); CReport 9]
             (session_run (λ _, []) gone_trace NewSession)) =
  "hello" ++ [newline; newline] ++ "Job was cancelled" ++ [newline].
Proof.
  destruct (client_gone (λ _, []) gone_trace 9 (OsError EIO)) as (_ & _ & _ & Hw).
  - reflexivity.
  - reflexivity.
  - intros since. vm_compute. discriminate.
  - rewrite Hw. vm_compute. reflexivity.
Defined.

Lemma late_client_waits_witness :
  ∀ evs, connChan (session_run (λ _, []) evs (session_run (λ _, []) late_trace NewSession)) = Offering.
Proof.
  intros evs. exact (proj1 (late_client_waits (λ _, []) late_trace evs eq_refl eq_refl)).
Defined.
