(* ===== verification/Runner.v ===== *)
(** * A runner as a whole ([jobberrunner])

    The main loop of the manager with the calls of its clients (IpcServer.v) and the
    goroutines that try jobs out (TestJob.v), up to its end: the loop is cancelled, the
    job-runner thread is stopped, the test jobs are waited for, and the channel of
    commands is closed.  A "test" command is answered by the server of test jobs.
    [runner_reachable] is what any interleaving of these leads to. *)

From S2P Require Import Prelude GoStrings Calendar SemVer TimeSpec TimeSpecParse GoPath Job JobQueue.
From S2P Require Import RunLog MemRunLog Durations FileSys FileRunLog FileRunLogFacts.
From S2P Require Import RunRecServer ResultSink JobFile JobRunner JobManager JobManagerFacts.
From S2P Require Import CommandFacts ManagerExamples IpcServer TestJob.

Open Scope nat_scope.
Open Scope bytes_scope.
Open Scope list_scope.

(** ** State and events *)

(** Where the main goroutine is: in its loop; past it, the thread being stopped, at
    [testJobServer.Wait]; or past its deferred calls, which close the channels. *)
Inductive phase := Looping | Waiting | Ended.

#[export] Instance phase_eq_dec : EqDecision phase.
Proof. solve_decision. Defined.

(** [RServe]: the main loop serves a call; the last arguments are the answers a test
    job gets.  [RCancel]: the loop finds its context cancelled; [evs] is what the
    job-runner thread does until its channel is closed.  [RTest], [RTestExit]: the
    goroutine of a test job gets through its body, and to its end.  [REnd]: the wait
    for the test jobs returns.  [RWake]: a call that is at its send finds the channel
    closed. *)
Inductive runner_event :=
| RCall (id : nat) (server : IpcServerType) (cmd : ICmd)
| RServe (id : nat) (inp : Inputs) (TempDir : outcome bytes) (Resolve Listen : bytes → outcome unit)
| RReturn (id : nat)
| RMain (ev : main_event)
| RCancel (evs : list thread_event)
| RTest (i : nat) (a : arrival)
| RTestExit (i : nat)
| REnd
| RWake (id : nat).

Definition with_test (ans : outcome bytes) (inp : Inputs) : Inputs :=
  mkInputs (in_now inp) (in_order inp) (in_raws inp) (in_listen inp) (in_file inp) (in_drain inp)
    ans (in_log inp).

Section Runner.
Context `{HL : Location} `{HF : FloatFraction} `{HT : TempNames} (lib_error_text : error → bytes).
Context `{HYE : YaccErrors} `{R : Rand} `{HYaml : Yaml} `{HDoc : YamlDoc}.

Abbreviation Manager := (JobManager (R:=R)).
Abbreviation error_text := (Error_text lib_error_text).

Record Runner := mkRunner { system : System (R:=R); tests : TestJobServer; main_phase : phase }.

Definition on_system {A} (m : stM System A) : stM Runner A := λ s,
  let '(r, sys) := m (system s) in (r, mkRunner sys (tests s) (main_phase s)).
Definition on_tests {A} (m : stM TestJobServer A) : stM Runner A := λ s,
  let '(r, t) := m (tests s) in (r, mkRunner (system s) t (main_phase s)).
Definition set_phase (p : phase) : stM Runner unit := modifyS (λ s,
  mkRunner (system s) (tests s) p).

(** The job that a command asks to try out, if it gets as far as [testJobServer.Launch] *)
Definition asks_for_test (m : Manager) (server : IpcServerType) (cmd : ICmd) : option bytes :=
  match server, cmd, jfile m with
  | IpcServerTypeUds, TestCmd job, Some jf =>
     if bool_decide (is_Some (Jobs jf !! job)) then Some job else None
  | _, _, _ => None
  end.

Definition launch_test (TempDir : outcome bytes) (Resolve Listen : bytes → outcome unit) (job : bytes)
    : stM Runner (outcome bytes) :=
  r ← try_ (on_tests (TestJob.Launch TempDir Resolve Listen job));
  mret (match r with inl path => Ret path | inr err => Fail err end).

(** An event that cannot happen in a state changes nothing. *)
Definition runner_step (ev : runner_event) : stM Runner unit := λ s,
  match ev with
  | RCall id server cmd =>
     match ipc_calls (system s) !! id, main_phase s with
     | None, Ended => (Panic send_on_closed, s)
     | _, _ => on_system (ipc_step lib_error_text (ICall id server cmd)) s
     end
  | RServe id inp TempDir Resolve Listen =>
     match ipc_calls (system s) !! id, main_phase s with
     | Some (mkCall server m Sending), Looping =>
        match asks_for_test (manager (system s)) server (sends m) with
        | Some job =>
           (ans ← launch_test TempDir Resolve Listen job;
            on_system (ipc_step lib_error_text (IServe id (with_test ans inp)))) s
        | None => on_system (ipc_step lib_error_text (IServe id inp)) s
        end
     | _, _ => (Ret tt, s)
     end
  | RReturn id => on_system (ipc_step lib_error_text (IReturn id)) s
  | RMain (MServer sid ev) => on_system (ipc_step lib_error_text (IMain (MServer sid ev))) s
  | RMain ev =>
     match main_phase s with
     | Looping => on_system (ipc_step lib_error_text (IMain ev)) s
     | _ => (Ret tt, s)
     end
  | RCancel evs =>
     match main_phase s with
     | Looping => (on_system (on_manager (shut_down lib_error_text evs));; set_phase Waiting) s
     | _ => (Ret tt, s)
     end
  | RTest i a => on_tests (TestJob.step error_text (EServe i a)) s
  | RTestExit i => on_tests (TestJob.step error_text (EExit i)) s
  | REnd =>
     match main_phase s with
     | Waiting => if Wait_returns (tests s) then set_phase Ended s else (Ret tt, s)
     | _ => (Ret tt, s)
     end
  | RWake id =>
     match ipc_calls (system s) !! id, main_phase s with
     | Some (mkCall _ _ Sending), Ended => (Panic send_on_closed, s)
     | _, _ => (Ret tt, s)
     end
  end.

Fixpoint runner_run (evs : list runner_event) : stM Runner unit :=
  match evs with
  | [] => mret tt
  | ev :: evs => runner_step ev;; runner_run evs
  end.

Definition new_runner (m : Manager) : Runner := mkRunner (idle m) NewTestJobServer Looping.

(** What the operating system may answer: the orders of maps are orders of their
    elements, and a temporary directory is a new one. *)
Definition runner_possible (ev : runner_event) (s : Runner) : Prop :=
  match ev with
  | RServe _ inp TempDir Resolve Listen =>
     inputs_ok inp ∧ possible (ELaunch TempDir Resolve Listen []) (tests s)
  | _ => True
  end.

Inductive runner_reachable : Runner → Prop :=
| runner_new m : reachable lib_error_text m → runner_reachable (new_runner m)
| runner_next s ev s' :
    runner_reachable s → runner_possible ev s → runner_step ev s = (Ret tt, s') →
    runner_reachable s'.

(** ** The parts, one step at a time *)

(** A call that arrives or returns concerns the calls alone. *)
Definition call_event (ev : ipc_event) : Prop :=
  match ev with ICall _ _ _ | IReturn _ => True | _ => False end.

Lemma ipc_step_calls ev (calls : gmap nat Call) :
  call_event ev →
  ∃ calls', ∀ m : Manager, ipc_step lib_error_text ev (mkSystem m calls) = (Ret tt, mkSystem m calls').
Proof.
  destruct ev as [id server cmd|id inp|id|ev]; intros []; cbn [ipc_step ipc_calls].
  - destruct (calls !! id); [by exists calls|].
    by exists (<[id := mkCall server (method_of cmd) Sending]> calls).
  - destruct (calls !! id) as [[server m [|r|res]]|]; try by exists calls.
    by exists (<[id := mkCall server m (Returned (receives m r))]> calls).
Qed.

(** Everything else is at most a step of the main loop. *)
Lemma ipc_step_manager ev (s s' : System (R:=R)) :
  ipc_step lib_error_text ev s = (Ret tt, s') →
  manager s' = manager s ∨
  ∃ ev' o, main_step lib_error_text ev' (manager s) = (Ret o, manager s') ∧
    match ev with
    | IServe _ inp => ∃ server cmd, ev' = MCmd inp server cmd
    | IMain ev0 => ev' = ev0 ∧ match ev0 with MCmd _ _ _ => False | _ => True end
    | _ => False
    end.
Proof.
  destruct ev as [id server cmd|id inp|id|ev]; cbn [ipc_step].
  - destruct (ipc_calls s !! id); intros [= <-]; by left.
  - destruct (ipc_calls s !! id) as [[server m [|r|res]]|]; try (intros [= <-]; by left).
    rewrite stM_bind_eq. unfold on_manager.
    destruct (main_step _ _ (manager s)) as [[o|e|msg|] m'] eqn:E; [|done..].
    intros Hs. right. exists (MCmd inp server (sends m)), o. split; [rewrite E|eauto].
    destruct o; revert Hs; by intros [= <-].
  - destruct (ipc_calls s !! id) as [[server m [|r|res]]|]; intros [= <-]; by left.
  - assert (H : (on_manager (main_step lib_error_text ev);; mret tt) s = (Ret tt, s') →
                ∃ o, main_step lib_error_text ev (manager s) = (Ret o, manager s')).
    { rewrite stM_bind_eq. unfold on_manager.
      destruct (main_step lib_error_text ev (manager s)) as [[o|e|msg|] m'] eqn:E; [|done..].
      intros [= <-]. by exists o. }
    destruct ev; [|intros [= <-]; by left|]; intros [o E]%H; right; eauto.
Qed.

(** A turn of a server of run records does not touch the job-runner thread. *)
Lemma server_step_ok sid ev (m m' : Manager) o :
  mgr_ok m → main_step lib_error_text (MServer sid ev) m = (Ret o, m') →
  mgr_ok m' ∧ jobRunner m' = jobRunner m.
Proof.
  intros Hok. cbn [main_step]. rewrite stM_bind_eq.
  destruct (on_env_touched (server_turn sid ev) m) as [T He].
  destruct (server_turn_returns sid ev (env (outside m)) (proj2 (proj2 Hok))) as [e E].
  pose proof (server_turn_ok sid ev _ (proj2 (proj2 Hok))) as Hs. rewrite E in Hs.
  unfold on_outside, on_env in *. rewrite E in *. intros [= <- <-].
  destruct (touched_ok _ _ T) as [Hok' _]; [exact Hs|done|]. split; [exact Hok'|]. done.
Qed.

(** What launching a test job comes to *)
Lemma launch_test_spec TempDir Resolve Listen job s :
  possible (ELaunch TempDir Resolve Listen []) (tests s) →
  ∃ ans t, launch_test TempDir Resolve Listen job s = (Ret ans, mkRunner (system s) t (main_phase s)) ∧
    TestJob.Launch TempDir Resolve Listen job (tests s) = (ans, t) ∧
    TestJob.step error_text (ELaunch TempDir Resolve Listen job) (tests s) = (Ret tt, t).
Proof.
  intros Hp. unfold launch_test, on_tests. cbn [TestJob.step]. rewrite !stM_bind_eq. unfold try_.
  pose proof (Launch_answers TempDir Resolve Listen job (tests s) Hp) as Ha.
  destruct (TestJob.Launch _ _ _ _ (tests s)) as [[path|e|msg|] t]; [by eexists _, _..|done|done].
Qed.

(** ** The invariant *)

Section Invariant.
Context `{!RandOk R}.

(** The manager is in order; in its loop it is in a reachable state, and past it the
    job-runner thread has stopped; the server of test jobs is in a reachable state, and
    after the end it serves nobody. *)
Definition runner_ok (s : Runner) : Prop :=
  let m := manager (system s) in
  mgr_ok m ∧
  match main_phase s with
  | Looping => reachable lib_error_text m
  | _ => Running_ (jobRunner m) = false ∧ chan_is_closed (jobRunner m) = true
  end ∧
  server_reachable error_text (tests s) ∧
  (main_phase s = Ended → Wait_returns (tests s) = true).

(** Only the calls have changed. *)
Lemma runner_ok_calls s calls :
  runner_ok s → runner_ok (mkRunner (mkSystem (manager (system s)) calls) (tests s) (main_phase s)).
Proof. done. Qed.

Lemma call_event_ok ev s s' :
  call_event ev → runner_ok s → on_system (ipc_step lib_error_text ev) s = (Ret tt, s') → runner_ok s'.
Proof.
  intros Hev Hok. destruct (ipc_step_calls ev (ipc_calls (system s)) Hev) as [calls' E].
  unfold on_system. destruct (system s) as [m calls] eqn:Es. rewrite E. intros [= <-].
  apply (runner_ok_calls s calls') in Hok. by rewrite Es in Hok.
Qed.

(** A step of the main loop, while it loops *)
Lemma main_event_ok ev s s' :
  main_phase s = Looping → runner_ok s →
  match ev with IServe _ inp => inputs_ok inp | _ => True end →
  on_system (ipc_step lib_error_text ev) s = (Ret tt, s') → runner_ok s'.
Proof.
  intros Hp (Hok & Hr & Ht & He) Hin. unfold on_system. rewrite Hp in Hr.
  destruct (ipc_step _ ev (system s)) as [r sys'] eqn:E. intros [= -> <-].
  assert (Hreach : reachable lib_error_text (manager sys')).
  { destruct (ipc_step_manager _ _ _ E) as [->|(ev' & o & E' & Hev)]; [done|].
    apply (reachable_step _ _ ev' o _ Hr); [|done].
    destruct ev; try done; [by destruct Hev as (? & ? & ->)|].
    destruct Hev as [-> Hev]. by destruct ev. }
  split; [apply (reachable_alive _ _ Hreach)|]. cbn [main_phase system tests]. rewrite Hp.
  split; [done|]. by split.
Qed.

Lemma test_event_ok ev s s' :
  match ev with EServe _ _ | EExit _ => True | _ => False end →
  runner_ok s → on_tests (TestJob.step error_text ev) s = (Ret tt, s') → runner_ok s'.
Proof.
  intros Hev (Hok & Hr & Ht & He). unfold on_tests.
  destruct (TestJob.step _ ev (tests s)) as [r t] eqn:E. intros [= -> <-].
  split; [done|]. split; [done|]. cbn [tests main_phase].
  split; [apply (server_step _ _ ev _ Ht); [by destruct ev|done]|].
  intros Hend. specialize (He Hend). unfold Wait_returns in *.
  rewrite bool_decide_eq_true in *. by rewrite (step_waits _ _ _ _ Hev E He).
Qed.

Lemma runner_step_ok ev s s' :
  runner_possible ev s → runner_ok s → runner_step ev s = (Ret tt, s') → runner_ok s'.
Proof.
  intros Hposs Hok. pose proof Hok as (Hm & Hr & Ht & He).
  destruct ev as [id server cmd|id inp T Rs Ls|id|ev|evs|i a|i| |id]; cbn [runner_step].
  - destruct (ipc_calls (system s) !! id), (main_phase s); try done; by apply call_event_ok.
  - destruct Hposs as [Hin Hp].
    destruct (ipc_calls (system s) !! id) as [[server m [|r|res]]|]; try (by intros [= <-]).
    destruct (main_phase s) eqn:Hph; try (by intros [= <-]).
    destruct (asks_for_test _ _ _) as [job|]; [|by apply main_event_ok].
    destruct (launch_test_spec T Rs Ls job s Hp) as (ans & t & E & _ & Et).
    rewrite stM_bind_eq, E. apply main_event_ok; [done| |done].
    unfold runner_ok. cbn [system tests main_phase]. rewrite Hph.
    split; [done|]. split; [done|]. split; [|done].
    apply (server_step _ _ (ELaunch T Rs Ls job) _ Ht); [exact Hp|done].
  - by apply call_event_ok.
  - destruct ev as [tev|inp server cmd|sid ev].
    + destruct (main_phase s) eqn:Hph; try (by intros [= <-]). by apply main_event_ok.
    + destruct (main_phase s) eqn:Hph; try (by intros [= <-]).
    + destruct (main_phase s) eqn:Hph; [by apply main_event_ok|..];
        unfold on_system; destruct (ipc_step _ _ (system s)) as [r sys'] eqn:E; intros [= -> <-];
        unfold runner_ok; cbn [system tests main_phase]; rewrite Hph;
        (destruct (ipc_step_manager _ _ _ E) as [->|(ev' & o & E' & -> & _)]; [done|]);
        destruct (server_step_ok _ _ _ _ _ Hm E') as [Hm' ->]; done.
  - destruct (main_phase s) eqn:Hph; try (by intros [= <-]).
    rewrite stM_bind_eq. unfold on_system, on_manager, shut_down.
    pose proof (stop_spec lib_error_text evs (manager (system s)) Hm) as Hst.
    destruct ((cancel_runner;; _) _) as [[[]|e|msg|] m1]; [|done..]. intros [= <-].
    destruct Hst as (Hok1 & Hc & Hrun & _). done.
  - by apply test_event_ok.
  - by apply test_event_ok.
  - destruct (main_phase s) eqn:Hph; try (by intros [= <-]).
    destruct (Wait_returns (tests s)) eqn:Hw; intros [= <-]; [|done]. done.
  - destruct (ipc_calls (system s) !! id) as [[server m [|r|res]]|], (main_phase s) eqn:Hph; try done;
      by intros [= <-].
Qed.

Lemma runner_reachable_ok s : runner_reachable s → runner_ok s.
Proof.
  induction 1 as [m Hm|s ev s' _ IH Hp E]; [|by eapply runner_step_ok].
  split; [apply (reachable_alive _ _ Hm)|]. split; [done|]. split; [constructor|done].
Qed.

End Invariant.

(** ** What explains a run *)

(** [h] is what the main loop did, from [m0] to [m1], with the calls as they are now.  While
    the loop goes on, [m1] is the manager; afterwards the manager is what stopping the
    thread made of [m1], but for the servers of run records, which go on. *)
Definition runner_explained (m0 : Manager) (s : Runner) (h : list Served) (m1 : Manager) : Prop :=
  explains lib_error_text m0 (mkSystem m1 (ipc_calls (system s))) h ∧
  match main_phase s with
  | Looping => manager (system s) = m1
  | _ => ∃ evs m2, shut_down lib_error_text evs m1 = (Ret tt, m2) ∧
                   jfile (manager (system s)) = jfile m2 ∧
                   jobRunner (manager (system s)) = jobRunner m2
  end.

Lemma server_step_frame sid ev (m m' : Manager) o :
  main_step lib_error_text (MServer sid ev) m = (Ret o, m') →
  jfile m' = jfile m ∧ jobRunner m' = jobRunner m.
Proof.
  cbn [main_step]. rewrite stM_bind_eq. unfold on_outside.
  destruct (on_env _ (outside m)) as [[[]|e|msg|] o']; [|done..]. by intros [= _ <-].
Qed.

Lemma explained_calls m0 s h m1 ev s' :
  call_event ev → runner_explained m0 s h m1 →
  on_system (ipc_step lib_error_text ev) s = (Ret tt, s') → ∃ h', runner_explained m0 s' h' m1.
Proof.
  intros Hev [Hex Hp]. destruct (ipc_step_calls ev (ipc_calls (system s)) Hev) as [calls' E].
  destruct (ipc_step_explained _ _ _ _ _ _ Hex (E m1)) as [h' Hex']. unfold on_system.
  destruct (system s) as [m calls] eqn:Es. cbn [ipc_calls] in E. rewrite E. intros [= <-].
  exists h'. split; [exact Hex'|exact Hp].
Qed.

Lemma explained_loop m0 s h m1 ev s' :
  main_phase s = Looping → runner_explained m0 s h m1 →
  on_system (ipc_step lib_error_text ev) s = (Ret tt, s') → ∃ h' m1', runner_explained m0 s' h' m1'.
Proof.
  unfold runner_explained. intros Hph [Hex Hp]. rewrite Hph in Hp. subst m1.
  unfold on_system. destruct (ipc_step _ ev (system s)) as [r sys'] eqn:E. intros [= -> <-].
  destruct (system s) as [m calls]. cbn [manager ipc_calls] in Hex.
  destruct (ipc_step_explained _ _ _ _ _ _ Hex E) as [h' Hex'].
  exists h', (manager sys'). cbn [system main_phase]. rewrite Hph. split; [|done]. by destruct sys'.
Qed.

Lemma launch_test_frame TempDir Resolve Listen job s r s' :
  launch_test TempDir Resolve Listen job s = (r, s') →
  system s' = system s ∧ main_phase s' = main_phase s.
Proof.
  unfold launch_test, on_tests. rewrite stM_bind_eq. unfold try_.
  destruct (TestJob.Launch _ _ _ _ (tests s)) as [[path|e|msg|] t]; by intros [= <- <-].
Qed.

Lemma explained_step m0 s h m1 ev s' :
  runner_explained m0 s h m1 → runner_step ev s = (Ret tt, s') →
  ∃ h' m1', runner_explained m0 s' h' m1'.
Proof.
  intros Hex. pose proof Hex as [Hh Hp].
  destruct ev as [id server cmd|id inp T Rs Ls|id|ev|evs|i a|i| |id]; cbn [runner_step].
  - intros E. assert (E' : on_system (ipc_step lib_error_text (ICall id server cmd)) s = (Ret tt, s')).
    { by destruct (ipc_calls (system s) !! id), (main_phase s). }
    destruct (explained_calls m0 s h m1 (ICall id server cmd) _ I Hex E') as [h' ?]. by exists h', m1.
  - destruct (ipc_calls (system s) !! id) as [[server m [|r|res]]|], (main_phase s) eqn:Hph;
      try (intros [= <-]; by exists h, m1).
    destruct (asks_for_test _ _ _) as [job|]; [|by apply (explained_loop m0 s h m1)].
    rewrite stM_bind_eq. destruct (launch_test _ _ _ _ s) as [[ans|e|msg|] s1] eqn:E; [|done..].
    destruct (launch_test_frame _ _ _ _ _ _ _ E) as [Hs Hph1].
    apply (explained_loop m0 s1 h m1); [by rewrite Hph1|]. unfold runner_explained. by rewrite Hs, Hph1.
  - intros E. destruct (explained_calls m0 s h m1 (IReturn id) _ I Hex E) as [h' ?]. by exists h', m1.
  - assert (Hno : main_phase s ≠ Looping → ∀ sid sev,
      on_system (ipc_step lib_error_text (IMain (MServer sid sev))) s = (Ret tt, s') →
      ∃ h' m1', runner_explained m0 s' h' m1').
    { intros Hph sid sev. unfold on_system. cbn [ipc_step]. rewrite stM_bind_eq. unfold on_manager.
      destruct (main_step _ _ (manager (system s))) as [[o|e|msg|] m'] eqn:E; [|done..]. intros [= <-].
      destruct (server_step_frame _ _ _ _ _ E) as [Hj Hr]. exists h, m1. split; [done|].
      cbn [system main_phase manager]. rewrite Hj, Hr. by destruct (main_phase s). }
    destruct ev as [tev|inp server cmd|sid ev]; destruct (main_phase s) eqn:Hph;
      try (intros [= <-]; by exists h, m1); try (by apply (explained_loop m0 s h m1)); by apply Hno.
  - destruct (main_phase s) eqn:Hph; try (intros [= <-]; by exists h, m1).
    rewrite stM_bind_eq. unfold on_system, on_manager.
    destruct (shut_down _ evs (manager (system s))) as [[[]|e|msg|] m2] eqn:E; [|done..].
    intros [= <-]. exists h, m1. split; [done|]. cbn. exists evs, m2. by rewrite <- Hp.
  - unfold on_tests. destruct (TestJob.step _ _ _) as [r t]. intros [= _ <-]. by exists h, m1.
  - unfold on_tests. destruct (TestJob.step _ _ _) as [r t]. intros [= _ <-]. by exists h, m1.
  - destruct (main_phase s) eqn:Hph; try (intros [= <-]; by exists h, m1).
    destruct (Wait_returns (tests s)); intros [= <-]; exists h, m1; [by split|done].
  - destruct (ipc_calls (system s) !! id) as [[server m [|r|res]]|], (main_phase s) eqn:Hph; try done;
      intros [= <-]; by exists h, m1.
Qed.

Lemma runner_run_explained m0 evs s h m1 s' :
  runner_explained m0 s h m1 → runner_run evs s = (Ret tt, s') →
  ∃ h' m1', runner_explained m0 s' h' m1'.
Proof.
  revert s h m1. induction evs as [|ev evs IH]; intros s h m1 Hex; cbn [runner_run].
  - intros [= <-]. by exists h, m1.
  - rewrite stM_bind_eq. destruct (runner_step ev s) as [[[]|e|msg|] s1] eqn:E; [|done..].
    destruct (explained_step _ _ _ _ _ _ Hex E) as (h1 & m2 & Hex1). by apply (IH s1 h1 m2).
Qed.

(** ** What a runner promises *)

(** Whatever happens in whatever order in a runner, its manager is in order; the
    job-runner thread runs as long as the main loop does and has stopped after it, its
    channel closed; the goroutines of test jobs have directories of their own and there
    are no others; and after the end no test job serves a client any more. *)
Theorem runner_invariant `{!RandOk R} s :
  runner_reachable s →
  let m := manager (system s) in
  mgr_ok m ∧
  (main_phase s = Looping ↔ Running_ (jobRunner m) = true) ∧
  (main_phase s = Looping ↔ chan_is_closed (jobRunner m) = false) ∧
  NoDup (map sockDir (threads (tests s))) ∧
  (∀ dir, dir ∈ tempDirs (tests s) ↔ dir ∈ map sockDir (threads (tests s))) ∧
  (main_phase s = Ended → Forall (λ t, state t = Exiting) (threads (tests s))).
Proof.
  intros (Hm & Hr & Ht & He)%runner_reachable_ok. cbv zeta. split; [done|].
  destruct (server_ok_facts _ (server_reachable_ok _ _ Ht)) as (Hnd & Hd & Hw).
  assert (Hp : (main_phase s = Looping ↔ Running_ (jobRunner (manager (system s))) = true) ∧
               (main_phase s = Looping ↔ chan_is_closed (jobRunner (manager (system s))) = false)).
  { destruct (main_phase s).
    - pose proof (reachable_alive _ _ Hr) as [Hok Ha].
      by destruct (alive_open _ _ (proj1 (proj2 Hok)) Ha) as [-> ->].
    - by destruct Hr as [-> ->].
    - by destruct Hr as [-> ->]. }
  destruct Hp as [Hp1 Hp2]. split; [done|]. split; [done|]. split; [done|]. split; [done|].
  intros Hend. apply Hw. by apply He.
Qed.

(** C5: Calls of clients are served one after the other, up to the end of the runner and
    beside test jobs.  Whatever happens in whatever order, there is a sequence of things
    the main loop does alone that leads to the manager as it is, or, once the loop has
    ended, to the manager from which stopping the job-runner thread led to the present
    jobfile and thread.  In it each call is served at most once, and a call that has
    returned has the response that its own command got in the sequence, either the error
    or a response of the type of its command. *)
Theorem runner_linearizable (m0 : Manager) (evs : list runner_event) (s : Runner) :
  runner_run evs (new_runner m0) = (Ret tt, s) →
  ∃ h m1, history lib_error_text h m0 m1 ∧ NoDup (ids h) ∧
    match main_phase s with
    | Looping => manager (system s) = m1
    | _ => ∃ evs' m2, shut_down lib_error_text evs' m1 = (Ret tt, m2) ∧
                      jfile (manager (system s)) = jfile m2 ∧
                      jobRunner (manager (system s)) = jobRunner m2
    end ∧
    ∀ id c, ipc_calls (system s) !! id = Some c →
      match progress c with
      | Sending => id ∉ ids h
      | Answered r => ∃ inp, mkServed (Some id) (MCmd inp (serverType c) (sends (method c))) (Some r) ∈ h
      | Returned res =>
         ∃ inp r, mkServed (Some id) (MCmd inp (serverType c) (sends (method c))) (Some r) ∈ h ∧
                  res = match r with ErrorCmdResp e => Fail e | _ => Ret r end
      end.
Proof.
  intros Hrun.
  destruct (runner_run_explained m0 evs (new_runner m0) [] m0 s) as (h & m1 & [Hex Hp]);
    [split; [apply idle_explained|done]|done|].
  destruct Hex as (Hh & Hnd & _ & Hc). exists h, m1. split; [done|]. split; [done|]. split; [done|].
  intros id c Hid. by apply (call_ok_explained _ _ _ (Hc id c Hid)).
Qed.

(** *** Test jobs *)

(** What the operating system answers to a launch: the directory, or the error *)
Definition launch_answer (TempDir : outcome bytes) (Resolve Listen : bytes → outcome unit) : outcome bytes :=
  dir ← TempDir;
  Resolve (path_Join dir "output.sock");;
  Listen (path_Join dir "output.sock");;
  Ret dir.

Lemma launch_result TempDir Resolve Listen job t :
  possible (ELaunch TempDir Resolve Listen []) t →
  match launch_answer TempDir Resolve Listen with
  | Ret dir =>
     TestJob.Launch TempDir Resolve Listen job t =
     (Ret (path_Join dir "output.sock"),
      mkTestJobServer (S (waitGroup t)) (threads t ++ [mkThread job dir Serving])
        (tempDirs t ∪ {[dir]}) (sent t))
  | Fail err => TestJob.Launch TempDir Resolve Listen job t = (Fail err, t)
  | _ => False
  end.
Proof.
  intros Hp. pose proof (Launch_answers TempDir Resolve Listen job t Hp) as Ha. revert Ha.
  unfold launch_answer, TestJob.Launch, liftS. rewrite stM_bind_eq.
  destruct TempDir as [dir|e|msg|]; [|done..]. cbn [mbind outcome_bind]. destruct Hp as [Hdir _].
  assert (Hgone : mkTestJobServer (waitGroup t) (threads t) ((tempDirs t ∪ {[dir]}) ∖ {[dir]}) (sent t) = t).
  { destruct t as [w ts ds st]. cbn in *. f_equal. apply set_eq. intros d.
    destruct (decide (d = dir)); set_solver. }
  rewrite modifyS_bind, stM_bind_eq. unfold try_.
  destruct (Resolve _) as [[]|e|msg|]; cbn [mbind outcome_bind]; [|intros _|done..].
  2:{ unfold RemoveAll. rewrite modifyS_bind. cbn. by rewrite Hgone. }
  rewrite stM_bind_eq. destruct (Listen _) as [[]|e|msg|]; cbn [mbind outcome_bind]; [done|intros _|done..].
  unfold RemoveAll. rewrite modifyS_bind. cbn. by rewrite Hgone.
Qed.

(** What the "test" command does to the manager: nothing *)
Lemma test_step inp server job (m : Manager) jf :
  jfile m = Some jf →
  main_step lib_error_text (MCmd inp server (TestCmd job)) m =
  match server, Jobs jf !! job with
  | IpcServerTypeInet, _ => (Ret (Some (ErrorCmdResp test_over_tcp)), m)
  | IpcServerTypeUds, None => (Ret (Some (ErrorCmdResp no_such_job)), m)
  | IpcServerTypeUds, Some _ =>
     match in_test inp with
     | Ret path => (Ret (Some (TestCmdResp path)), m)
     | Fail err => (Ret (Some (ErrorCmdResp err)), m)
     | Panic msg => (Panic msg, m)
     | Running => (Running, m)
     end
  end.
Proof.
  intros Hjf. cbn [main_step doCmd]. rewrite stM_bind_eq. destruct server; [|done].
  unfold doTestCmd, or_error_resp, try_. rewrite stM_bind_eq, stM_bind_eq.
  unfold get_jfile. rewrite Hjf. destruct (Jobs jf !! job); [|done].
  rewrite stM_bind_eq. unfold liftS. by destruct (in_test inp).
Qed.

(** The result of a "test" call *)
Definition test_result (server : IpcServerType) (known : bool) (ans : outcome bytes) : outcome ICmdResp :=
  match server with
  | IpcServerTypeInet => Fail test_over_tcp
  | IpcServerTypeUds =>
     if known then
       match ans with
       | Ret dir => Ret (TestCmdResp (path_Join dir "output.sock"))
       | Fail err => Fail err
       | Panic msg => Panic msg
       | Running => Running
       end
     else Fail no_such_job
  end.

(** A call whose command leaves the manager as it was is served and returns. *)
Lemma serve_and_return s id server m inp r :
  ipc_calls (system s) !! id = Some (mkCall server m Sending) →
  main_step lib_error_text (MCmd inp server (sends m)) (manager (system s)) = (Ret (Some r), manager (system s)) →
  (on_system (ipc_step lib_error_text (IServe id inp));; runner_run [RReturn id]) s =
  (Ret tt, mkRunner
     (mkSystem (manager (system s)) (<[id := mkCall server m (Returned (receives m r))]> (ipc_calls (system s))))
     (tests s) (main_phase s)).
Proof.
  intros Hid E. rewrite stM_bind_eq. unfold on_system. cbn [ipc_step]. rewrite Hid, stM_bind_eq.
  unfold on_manager. rewrite E. unfold set_call, modifyS. cbn [manager ipc_calls runner_run runner_step].
  rewrite stM_bind_eq. unfold on_system. cbn [runner_step]. unfold on_system. cbn [system ipc_step ipc_calls]. rewrite lookup_insert_eq.
  unfold set_call, modifyS. cbn. by rewrite insert_insert_eq.
Qed.

(** C36: A call of "test" that is served returns, and leaves the manager as it was.  Over TCP it
    is refused, and so is an unknown job.  Otherwise the client is told the socket at
    which a new goroutine waits to run this job, in a directory of its own; or what
    failed, and then nothing is left of the attempt. *)
Theorem test_call_correct `{!RandOk R} s id server job inp TempDir Resolve Listen :
  runner_reachable s → main_phase s = Looping →
  runner_possible (RServe id inp TempDir Resolve Listen) s →
  ipc_calls (system s) !! id = Some (mkCall server (Test_ job) Sending) →
  let known := bool_decide (is_Some (jobs_of (manager (system s)) !! job)) in
  let ans := launch_answer TempDir Resolve Listen in
  ∃ t,
    runner_run [RServe id inp TempDir Resolve Listen; RReturn id] s =
    (Ret tt, mkRunner
       (mkSystem (manager (system s))
          (<[id := mkCall server (Test_ job) (Returned (test_result server known ans))]> (ipc_calls (system s))))
       t Looping) ∧
    (match server, known, ans with
     | IpcServerTypeUds, true, Ret dir =>
        threads t = threads (tests s) ++ [mkThread job dir Serving] ∧
        waitGroup t = S (waitGroup (tests s)) ∧ tempDirs t = tempDirs (tests s) ∪ {[dir]}
     | _, _, _ => t = tests s
     end).
Proof.
  intros Hreach Hph [_ Hposs] Hid known ans. pose proof (runner_reachable_ok s Hreach) as [Hm _].
  destruct (mgr_ok_jfile _ Hm) as (jf & Hjf & Hjobs). unfold known. rewrite Hjobs. clear known.
  change (runner_run [RServe id inp TempDir Resolve Listen; RReturn id] s)
    with ((runner_step (RServe id inp TempDir Resolve Listen);; runner_run [RReturn id]) s).
  assert (Hplain : ∀ r, asks_for_test (manager (system s)) server (TestCmd job) = None →
    main_step lib_error_text (MCmd inp server (TestCmd job)) (manager (system s)) =
      (Ret (Some r), manager (system s)) →
    (runner_step (RServe id inp TempDir Resolve Listen);; runner_run [RReturn id]) s =
    (Ret tt, mkRunner
       (mkSystem (manager (system s))
          (<[id := mkCall server (Test_ job) (Returned (receives (Test_ job) r))]> (ipc_calls (system s))))
       (tests s) Looping)).
  { intros r Ha E. rewrite <- Hph, <- (serve_and_return s id server (Test_ job) inp r Hid E).
    rewrite !stM_bind_eq. cbn [runner_step]. rewrite Hid, Hph. cbn [sends Test_]. by rewrite Ha. }
  pose proof (test_step inp server job _ _ Hjf) as Ht. unfold asks_for_test in Hplain. rewrite Hjf in Hplain.
  destruct server.
  2:{ exists (tests s). split; [|done]. by apply (Hplain _ eq_refl Ht). }
  destruct (Jobs jf !! job) as [j|] eqn:Hj.
  2:{ exists (tests s). split; [|done]. by apply (Hplain _ eq_refl Ht). }
  cbn [test_result]. rewrite bool_decide_true by (by eexists). clear Hplain Ht.
  rewrite stM_bind_eq. cbn [runner_step]. rewrite Hid, Hph. cbn [sends Test_]. unfold asks_for_test.
  rewrite Hjf, Hj, bool_decide_true by (by eexists).
  destruct (launch_test_spec TempDir Resolve Listen job s Hposs) as (ans' & t & E & El & _).
  pose proof (launch_result TempDir Resolve Listen job (tests s) Hposs) as Hl. fold ans in Hl. clearbody ans.
  rewrite (stM_bind_Ret _ _ _ _ _ E).
  rewrite <- (stM_bind_eq (on_system (ipc_step lib_error_text (IServe id (with_test ans' inp))))
                (λ _, runner_run [RReturn id])).
  pose proof (test_step (with_test ans' inp) IpcServerTypeUds job _ _ Hjf) as Ht. rewrite Hj in Ht.
  cbn [in_test with_test] in Ht. exists t.
  destruct ans as [dir|err|msg|]; [| |done..]; rewrite Hl in El; injection El as <- <-.
  - split; [rewrite <- Hph|done]. exact (serve_and_return (mkRunner (system s) _ _) id IpcServerTypeUds (Test_ job) _ _ Hid Ht).
  - split; [rewrite <- Hph|done]. exact (serve_and_return (mkRunner (system s) _ _) id IpcServerTypeUds (Test_ job) _ _ Hid Ht).
Qed.

(** *** The end *)

Lemma runner_run_app t1 t2 s : runner_run (t1 ++ t2) s = (runner_run t1;; runner_run t2) s.
Proof.
  revert s. induction t1 as [|ev t1 IH]; intros s; cbn [app runner_run]; [by rewrite stM_bind_eq|].
  rewrite !stM_bind_eq. destruct (runner_step ev s) as [[[]|e|msg|] s1]; [|done..].
  by rewrite IH, stM_bind_eq.
Qed.

(** One goroutine of a test job gives up, if it is still serving. *)
Lemma give_up_step i t :
  ∃ t', TestJob.step error_text (EServe i GaveUp) t = (Ret tt, t') ∧
    length (threads t') = length (threads t) ∧
    (∀ th, threads t' !! i = Some th → state th = Exiting) ∧
    (∀ j, j ≠ i → threads t' !! j = threads t !! j).
Proof.
  cbn [TestJob.step]. destruct (threads t !! i) as [[job dir []]|] eqn:Hi.
  - eexists. split; [reflexivity|]. cbn [threads]. split; [apply length_insert|]. split.
    + intros th. rewrite list_lookup_insert_eq by (by eapply lookup_lt_Some). by intros [= <-].
    + intros j Hj. by apply list_lookup_insert_ne.
  - exists t. split; [done|]. split; [done|]. split; [|done]. intros th. rewrite Hi. by intros [= <-].
  - exists t. split; [done|]. split; [done|]. split; [|done]. intros th. by rewrite Hi.
Qed.

Lemma give_up_all n s :
  server_reachable error_text (tests s) →
  ∃ t, runner_run (map (λ i, RTest i GaveUp) (seq 0 n)) s = (Ret tt, mkRunner (system s) t (main_phase s)) ∧
    server_reachable error_text t ∧ length (threads t) = length (threads (tests s)) ∧
    ∀ i th, i < n → threads t !! i = Some th → state th = Exiting.
Proof.
  intros Hr. induction n as [|n IH].
  { exists (tests s). split; [by destruct s|]. split; [done|]. split; [done|]. lia. }
  destruct IH as (t & E & Ht & Hlen & Hx). destruct (give_up_step n t) as (t' & E' & Hlen' & Hn & Hother).
  exists t'. rewrite seq_S, map_app, runner_run_app, stM_bind_eq, E. cbn [map runner_run Nat.add].
  rewrite stM_bind_eq. cbn [runner_step]. unfold on_tests. cbn [tests]. rewrite E'. split; [done|].
  split; [by apply (server_step _ t (EServe n GaveUp))|]. split; [by rewrite Hlen'|].
  intros i th Hi Hth. destruct (decide (i = n)) as [->|Hne]; [by apply Hn|].
  rewrite Hother in Hth by done. apply (Hx i); [lia|done].
Qed.

Lemma main_loop_ends `{!RandOk R} s :
  runner_reachable s → main_phase s = Waiting →
  ∃ evs t, Forall (λ ev, ev = REnd ∨ ∃ i, ev = RTest i GaveUp) evs ∧
    runner_run evs s = (Ret tt, mkRunner (system s) t Ended) ∧ Wait_returns t = true.
Proof.
  intros (_ & _ & Ht & _)%runner_reachable_ok Hph.
  destruct (give_up_all (length (threads (tests s))) s Ht) as (t & E & Ht' & Hlen & Hx).
  assert (Hw : Wait_returns t = true).
  { apply (server_ok_facts t (server_reachable_ok _ _ Ht')). apply Forall_lookup_2. intros i th Hi.
    apply (Hx i); [|done]. apply lookup_lt_Some in Hi. lia. }
  exists (map (λ i, RTest i GaveUp) (seq 0 (length (threads (tests s)))) ++ [REnd]), t. split; [|split; [|done]].
  - apply Forall_app. split; [|by repeat constructor; left]. apply Forall_forall.
    intros ev (i & -> & _)%list_elem_of_fmap. right. by exists i.
  - rewrite runner_run_app, stM_bind_eq, E, Hph. cbn [runner_run]. rewrite stM_bind_eq.
    cbn [runner_step main_phase tests]. by rewrite Hw.
Qed.

(** The main loop of a runner ends: once it has been cancelled and the thread has stopped,
    it only waits for the test jobs, each of which ends at the latest when its subprocess
    does or a minute has passed without a client, and then closes its channels.  The
    calls and the manager are left as they were. *)
Theorem runner_ends `{!RandOk R} s :
  runner_reachable s → main_phase s = Waiting →
  ∃ evs t, Forall (λ ev, ev = REnd ∨ ∃ i, ev = RTest i GaveUp) evs ∧
    runner_run evs s = (Ret tt, mkRunner (system s) t Ended) ∧ Wait_returns t = true.
Proof. apply main_loop_ends. Qed.

(** How a step moves the main goroutine on *)
Lemma runner_step_phase ev s s' :
  runner_step ev s = (Ret tt, s') →
  main_phase s' = main_phase s ∨
  (main_phase s = Looping ∧ main_phase s' = Waiting ∧ ∃ evs, ev = RCancel evs) ∨
  (main_phase s = Waiting ∧ main_phase s' = Ended).
Proof.
  assert (Hsys : ∀ {A} (m : stM (System (R:=R)) A) r s', on_system m s = (r, s') → main_phase s' = main_phase s).
  { intros A m r s1. unfold on_system. destruct (m (system s)). by intros [= _ <-]. }
  assert (Htst : ∀ {A} (m : stM TestJobServer A) r s', on_tests m s = (r, s') → main_phase s' = main_phase s).
  { intros A m r s1. unfold on_tests. destruct (m (tests s)). by intros [= _ <-]. }
  destruct ev as [id server cmd|id inp T Rs Ls|id|ev|evs|i a|i| |id]; cbn [runner_step].
  - destruct (ipc_calls (system s) !! id), (main_phase s) eqn:Hp; try done;
      intros E; left; by rewrite <- Hp, (Hsys _ _ _ _ E).
  - destruct (ipc_calls (system s) !! id) as [[server m [|r|res]]|]; try (intros [= <-]; by left).
    destruct (main_phase s) eqn:Hp; try (intros [= <-]; by left).
    destruct (asks_for_test _ _ _) as [job|]; [|intros E; left; by rewrite <- Hp, (Hsys _ _ _ _ E)].
    rewrite stM_bind_eq. destruct (launch_test _ _ _ _ s) as [[ans|e|msg|] s1] eqn:E; [|done..].
    apply launch_test_frame in E as [_ Hp1]. unfold on_system. destruct (ipc_step _ _ _).
    intros [= _ <-]. left. cbn. by rewrite Hp1.
  - intros E. left. by apply Hsys in E.
  - intros E. left. destruct ev; try (by apply Hsys in E); destruct (main_phase s) eqn:Hp;
      first [by injection E as <- | by rewrite <- Hp, (Hsys _ _ _ _ E)].
  - destruct (main_phase s) eqn:Hp; try (intros [= <-]; by left).
    rewrite stM_bind_eq. destruct (on_system _ s) as [[[]|e|msg|] s1]; [|done..].
    intros [= <-]. right. left. by repeat (split || eexists).
  - intros E. left. by apply Htst in E.
  - intros E. left. by apply Htst in E.
  - destruct (main_phase s) eqn:Hp; try (intros [= <-]; by left).
    destruct (Wait_returns (tests s)); intros [= <-]; [by right; right|by left].
  - destruct (ipc_calls (system s) !! id) as [[server m [|r|res]]|], (main_phase s) eqn:Hp; try done;
      intros [= <-]; by left.
Qed.

Lemma late_call_step s id server m ev s' :
  main_phase s ≠ Looping → ipc_calls (system s) !! id = Some (mkCall server m Sending) →
  runner_step ev s = (Ret tt, s') →
  main_phase s' ≠ Looping ∧ ipc_calls (system s') !! id = Some (mkCall server m Sending).
Proof.
  intros Hph Hid. destruct ev as [id' server' cmd|id' inp T Rs Ls|id'|ev|evs|i a|i| |id']; cbn [runner_step].
  - intros E. assert (E' : on_system (ipc_step lib_error_text (ICall id' server' cmd)) s = (Ret tt, s')).
    { by destruct (ipc_calls (system s) !! id'), (main_phase s). }
    revert E'. unfold on_system. cbn [ipc_step]. destruct (ipc_calls (system s) !! id') eqn:Hid'; intros [= <-]; [done|].
    split; [done|]. cbn. rewrite lookup_insert_ne; [done|]. intros ->. congruence.
  - destruct (ipc_calls (system s) !! id') as [[server' m' [|r|res]]|], (main_phase s) eqn:Hp; try done;
      intros [= <-]; by rewrite Hp.
  - unfold on_system. cbn [ipc_step].
    destruct (ipc_calls (system s) !! id') as [[server' m' [|r|res]]|] eqn:Hid'; intros [= <-]; try done.
    split; [done|]. cbn. rewrite lookup_insert_ne; [done|]. intros ->. congruence.
  - assert (Hserver : ∀ sid sev, on_system (ipc_step lib_error_text (IMain (MServer sid sev))) s = (Ret tt, s') →
      main_phase s' ≠ Looping ∧ ipc_calls (system s') !! id = Some (mkCall server m Sending)).
    { intros sid sev. unfold on_system. cbn [ipc_step]. rewrite stM_bind_eq. unfold on_manager.
      destruct (main_step _ _ (manager (system s))) as [[o|e|msg|] m']; [|done..]. by intros [= <-]. }
    destruct ev as [tev|inp server' cmd|sid sev]; [..|by apply Hserver];
      destruct (main_phase s) eqn:Hp; try done; intros [= <-]; by rewrite Hp.
  - destruct (main_phase s) eqn:Hp; try done; intros [= <-]; by rewrite Hp.
  - unfold on_tests. destruct (TestJob.step _ _ _) as [r t]. by intros [= _ <-].
  - unfold on_tests. destruct (TestJob.step _ _ _) as [r t]. by intros [= _ <-].
  - destruct (main_phase s) eqn:Hp; try done; [destruct (Wait_returns (tests s))|]; intros [= <-]; rewrite ?Hp; done.
  - destruct (ipc_calls (system s) !! id') as [[server' m' [|r|res]]|], (main_phase s) eqn:Hp; try done;
      intros [= <-]; by rewrite Hp.
Qed.

(** A call that is at its send when the main loop is left is never answered.  Whatever
    happens, it stays there, and once the main loop has closed the channel of commands
    the call panics, and with it the runner. *)
Theorem late_call_panics s id server m evs s' :
  main_phase s ≠ Looping → ipc_calls (system s) !! id = Some (mkCall server m Sending) →
  runner_run evs s = (Ret tt, s') →
  ipc_calls (system s') !! id = Some (mkCall server m Sending) ∧
  (main_phase s' = Ended → runner_step (RWake id) s' = (Panic send_on_closed, s')).
Proof.
  revert s. induction evs as [|ev evs IH]; intros s Hph Hid; cbn [runner_run].
  - intros [= <-]. split; [done|]. intros Hend. cbn [runner_step]. by rewrite Hid, Hend.
  - rewrite stM_bind_eq. destruct (runner_step ev s) as [[[]|e|msg|] s1] eqn:E; [|done..].
    destruct (late_call_step _ _ _ _ _ _ Hph Hid E) as [Hph1 Hid1]. by apply IH.
Qed.

(** The events of [evs] are possible where they happen. *)
Fixpoint all_possible (evs : list runner_event) (s : Runner) : Prop :=
  match evs with
  | [] => True
  | ev :: evs => runner_possible ev s ∧ all_possible evs (runner_step ev s).2
  end.

Lemma runner_run_reachable evs s s' :
  runner_reachable s → all_possible evs s → runner_run evs s = (Ret tt, s') → runner_reachable s'.
Proof.
  revert s. induction evs as [|ev evs IH]; intros s Hs; cbn [runner_run all_possible].
  - by intros _ [= <-].
  - intros [Hp Hps]. rewrite stM_bind_eq. destruct (runner_step ev s) as [[[]|e|msg|] s1] eqn:E; [|done..].
    apply IH; [by eapply runner_next|exact Hps].
Qed.

End Runner.

(** ** A runner that is stopped during a test *)

#[local] Existing Instances UTC exact_fraction exact_fraction_ok FileRunLogFacts.example_temp
  TimeSpecParse.no_text first_rand first_rand_ok example_yaml example_yaml_ok example_doc.

(** Two clients call: one for a test, which begins, and one whose call has not been served
    when the runner is told to stop. *)
Definition test_calls : list runner_event :=
  [RCall 0 IpcServerTypeUds (TestCmd "a"); RCall 1 IpcServerTypeUds (CatCmd "a");
   RServe 0 (example_inputs no_file) (Ret ("/var/jobber/1000/try-1" : bytes)) (λ _, Ret tt) (λ _, Ret tt);
   RReturn 0].

Definition stop_runner : list runner_event := [RCancel [TPop 5 0 0 [Cancelled]]].

Definition testing : Runner := (runner_run no_error_text test_calls (new_runner example_set)).2.
Definition stopping : Runner := (runner_run no_error_text stop_runner testing).2.
Definition calling : Runner :=
  (runner_run no_error_text (take 2 test_calls) (new_runner example_set)).2.

Lemma calling_reachable : runner_reachable no_error_text calling.
Proof.
  apply (runner_run_reachable no_error_text (take 2 test_calls) (new_runner example_set)).
  - constructor. apply example_set_reachable.
  - by repeat split.
  - vm_compute. reflexivity.
Qed.

Lemma try_1_possible s :
  tempDirs (tests s) = ∅ →
  runner_possible (RServe 0 (example_inputs no_file) (Ret ("/var/jobber/1000/try-1" : bytes))
                     (λ _, Ret tt) (λ _, Ret tt)) s.
Proof.
  intros E. split; [apply example_inputs_ok|]. split; [rewrite E; apply not_elem_of_empty|].
  split; intros p; (split; [by intros [msg Hm]|done]).
Qed.

Lemma stopping_reachable : runner_reachable no_error_text stopping.
Proof.
  apply (runner_run_reachable no_error_text (drop 2 test_calls ++ stop_runner) calling).
  - apply calling_reachable.
  - split; [apply try_1_possible; vm_compute; reflexivity|]. by repeat split.
  - vm_compute. reflexivity.
Qed.

Lemma runner_invariant_witness :
  main_phase stopping = Waiting ∧ Running_ (jobRunner (manager (system stopping))) = false ∧
  ("/var/jobber/1000/try-1" : bytes) ∈ tempDirs (tests stopping).
Proof.
  assert (Hph : main_phase stopping = Waiting) by (vm_compute; reflexivity). split; [exact Hph|].
  destruct (runner_invariant no_error_text stopping stopping_reachable) as (_ & Hr & _ & _ & Hd & _).
  split.
  - destruct (Running_ (jobRunner (manager (system stopping)))); [|reflexivity].
    destruct Hr as [_ Hr]. rewrite Hph in Hr. discriminate (Hr eq_refl).
  - apply Hd. vm_compute. constructor.
Defined.

Lemma runner_linearizable_witness :
  ∃ s h m1, runner_run no_error_text (test_calls ++ stop_runner) (new_runner example_set) = (Ret tt, s) ∧
    main_phase s = Waiting ∧ history no_error_text h example_set m1.
Proof.
  assert (E : runner_run no_error_text (test_calls ++ stop_runner) (new_runner example_set) = (Ret tt, stopping))
    by (vm_compute; reflexivity).
  destruct (runner_linearizable no_error_text example_set (test_calls ++ stop_runner) stopping E)
    as (h & m1 & Hh & _).
  exists stopping, h, m1. split; [exact E|]. split; [vm_compute; reflexivity|exact Hh].
Defined.

Lemma test_call_correct_witness :
  ∃ t, threads t = [mkThread "a" "/var/jobber/1000/try-1" Serving] ∧
    runner_run no_error_text (drop 2 test_calls) calling =
    (Ret tt, mkRunner
       (mkSystem (manager (system calling))
          (<[0 := mkCall IpcServerTypeUds (Test_ "a")
                    (Returned (Ret (TestCmdResp "/var/jobber/1000/try-1/output.sock")))]>
             (ipc_calls (system calling)))) t Looping).
Proof.
  destruct (test_call_correct no_error_text calling 0 IpcServerTypeUds "a" (example_inputs no_file)
              (Ret ("/var/jobber/1000/try-1" : bytes)) (λ _, Ret tt) (λ _, Ret tt))
    as (t & E & Ht).
  - apply calling_reachable.
  - vm_compute. reflexivity.
  - apply try_1_possible. vm_compute. reflexivity.
  - vm_compute. reflexivity.
  - exists t. assert (Hk : bool_decide (is_Some (jobs_of (manager (system calling)) !! ("a" : bytes))) = true)
      by (vm_compute; reflexivity).
    rewrite Hk in E, Ht. split; [exact (proj1 Ht)|exact E].
Defined.

Lemma runner_ends_witness :
  ∃ evs t, runner_run no_error_text evs stopping = (Ret tt, mkRunner (system stopping) t Ended) ∧
    Wait_returns t = true.
Proof.
  destruct (runner_ends no_error_text stopping stopping_reachable ltac:(vm_compute; reflexivity))
    as (evs & t & _ & E & Hw).
  exists evs, t. exact (conj E Hw).
Defined.

Lemma late_call_panics_witness :
  ∃ s, runner_run no_error_text [RTest 0 GaveUp; RTestExit 0; REnd] stopping = (Ret tt, s) ∧
    (runner_step no_error_text (RWake 1) s).1 = Panic send_on_closed.
Proof.
  destruct (runner_run no_error_text [RTest 0 GaveUp; RTestExit 0; REnd] stopping)
    as [[[]|e|msg|] s] eqn:E; [|exfalso; vm_compute in E; discriminate..].
  exists s. split; [reflexivity|].
  destruct (late_call_panics no_error_text stopping 1 IpcServerTypeUds (Cat "a")
              [RTest 0 GaveUp; RTestExit 0; REnd] s) as [_ Hp].
  - vm_compute. discriminate.
  - vm_compute. reflexivity.
  - exact E.
  - rewrite Hp; [reflexivity|]. vm_compute in E. injection E as <-. reflexivity.
Defined.
