(* ===== verification/Master.v ===== *)
(** * The master process ([jobbermaster], [common/user.go], [common/su_cmd_linux.go])

    The master reads the settings, picks the users that may have jobs, makes a
    directory for each and keeps a runner process going for each.  The operating
    system is the record [Os] of what its calls answer; what a runner does, until
    the master is told to stop, is a list of answers per goroutine. *)

From S2P Require Import Prelude GoStrings Encoding GoPath Sections JobFile Glob Settings.

Open Scope nat_scope.
Open Scope bytes_scope.
Open Scope list_scope.

(** ** [BoundedBuffer] *)

(** The two slices share one array: [writeSlice] is what lies from [writePos] on,
    [readSlice] the first [readLen] bytes. *)
Record BoundedBuffer := mkBuffer { buf : bytes; writePos : nat; readLen : nat }.

Definition NewBoundedBuffer (cap : Z) : outcome BoundedBuffer :=
  if (cap <? 0)%Z then Panic "makeslice: cap out of range"
  else Ret (mkBuffer (replicate (Z.to_nat cap) (ascii_of_nat 0)) 0 0).

Definition buffer_full : error := LibError "Buffer is full".

(** [BoundedBuffer.Write]: the number of bytes it took, with an error if not all.
    [readSlice] is resliced, which panics beyond the array. *)
Definition buffer_Write (self : BoundedBuffer) (p : bytes)
    : outcome (nat * option error * BoundedBuffer) :=
  let n := (length (buf self) - writePos self) `min` length p in
  let array := take (writePos self) (buf self) ++ take n p ++ drop (writePos self + n) (buf self) in
  if bool_decide (readLen self + n ≤ length (buf self)) then
    Ret (n, if bool_decide (n < length p) then Some buffer_full else None,
         mkBuffer array (writePos self + n) (readLen self + n))
  else Panic slice_out_of_range.

Definition buffer_String (self : BoundedBuffer) : bytes := take (readLen self) (buf self).

(** ** Users *)

(** What the operating system answers: opening a file (with its owner), the user of a
    name, the text of the passwd file, making a directory, changing an owner. *)
Record Os := mkOs {
  os_prefs : bytes → outcome bytes;
  os_open : bytes → outcome OpenFile;
  os_passwd : outcome bytes;
  os_Lookup : bytes → option UserRec;
  os_Mkdir : bytes → Z → outcome unit;
  os_Chown : bytes → Z → Z → outcome unit
}.

Definition UserOwnsFile (os : Os) (usr : UserRec) (path : bytes) : outcome bool :=
  f ← os_open os path; UserOwnsFileF usr f.

Definition Chown (os : Os) (path : bytes) (usr : UserRec) : outcome unit :=
  uid ← Atoi (Uid usr);
  gid ← Atoi (Gid usr);
  os_Chown os path uid gid.

(** The users of the passwd file; a name that cannot be looked up is left out, and so
    are all lines from one that is too long for the scanner on. *)
Definition getAllUsers (os : Os) : outcome (list UserRec) :=
  f ← os_passwd os;
  Ret (omap (λ line, match Split line ":" with
                     | [] => None
                     | name :: _ => os_Lookup os name
                     end) (ScanLines f)).

Definition shouldRunForUser_platform (usr : UserRec) : bool := true.

Definition userHasHome (os : Os) (usr : UserRec) : outcome bool :=
  if bool_decide (length (HomeDir usr) = 0) || bool_decide (HomeDir usr = ("/dev/null" : bytes))
  then Ret false
  else if negb (IsAbs (HomeDir usr)) then Ret false
  else
    match UserOwnsFile os usr (HomeDir usr) with
    | Fail _ => Ret false
    | ownsHomeDir => ownsHomeDir
    end.

Definition shouldRunForUser (os : Os) (s : settings) (usr : UserRec) : outcome bool :=
  byPrefs ← JobberShouldRunForUser s usr;
  if negb byPrefs then Ret false
  else
    hasHome ← userHasHome os usr;
    if negb hasHome then Ret false else Ret (shouldRunForUser_platform usr).

Fixpoint acceptable (os : Os) (s : settings) (allUsers : list UserRec) : outcome (list UserRec) :=
  match allUsers with
  | [] => Ret []
  | usr :: users =>
     ok ← shouldRunForUser os s usr;
     acceptableUsers ← acceptable os s users;
     Ret (if ok : bool then usr :: acceptableUsers else acceptableUsers)
  end.

Definition getAcceptableUsers (os : Os) (s : settings) : outcome (list UserRec) :=
  allUsers ← getAllUsers os; acceptable os s allUsers.

(** ** A runner process *)

Definition quotify (s : bytes) : bytes := dquote s.

Definition quitSockPath_of (s : settings) (usr : UserRec) : bytes :=
  path_Join (PerUserDirPath s usr) "quit.sock".

(** The command line of a runner *)
Definition runner_command (s : settings) (usr : UserRec) (jobfilePath : bytes) : bytes :=
  Join ([quotify (LibexecProgramPath s "jobberrunner"); "-q" : bytes; quotify (quitSockPath_of s usr);
         "-u" : bytes; quotify (CmdSocketPath s usr); quotify jobfilePath] ++
        ["-t" : bytes; quotify (TempDirPath s)]) " ".

(** [Sudo], with [su_cmd] as it is on Linux: the arguments of the process *)
Definition su_cmd (user cmdStr shell : bytes) : list bytes :=
  ["su" : bytes; "-l" : bytes; "-s" : bytes; shell; "-c" : bytes; cmdStr; user].
Definition Sudo (usr : UserRec) (cmdStr : bytes) : list bytes :=
  su_cmd (Username usr) cmdStr "/bin/sh".

(** What the calls of [LaunchRunner] answer; [first]: whether the runner connects to the
    quit socket, or [Accept] fails, or the process ends first. *)
Inductive first_event := RunnerConnected | AcceptFailed (err : error) | RunnerExited.

Record LaunchAnswers := mkLaunch {
  resolve : outcome unit;
  listen : outcome unit;
  chown : outcome unit;
  start : outcome unit;
  first : first_event
}.

(** What the master holds of a runner: whether its quit socket's listener and connection are
    open, whether there is a file at the socket's path, and the process. *)
Record RunnerProc := mkRunner {
  proc : option (list bytes);
  quitSockPath : bytes;
  quitSockListener : bool;
  quitSockConn : bool;
  sockFile : bool
}.

Definition Kill (self : RunnerProc) : RunnerProc :=
  mkRunner (proc self) (quitSockPath self) false false false.

(** [LaunchRunner]: the outcome and what is left of the runner; the umask, set to 077
    meanwhile, is given back by a deferred call. *)
Definition LaunchRunner (s : settings) (usr : UserRec) (jobfilePath : bytes) (a : LaunchAnswers)
    : stM RunnerProc unit :=
  putS (mkRunner None (quitSockPath_of s usr) false false false);;
  liftS (resolve a);;
  liftS (listen a);;
  putS (mkRunner None (quitSockPath_of s usr) true false true);;
  liftS (chown a);;
  putS (mkRunner (Some (Sudo usr (runner_command s usr jobfilePath))) (quitSockPath_of s usr)
          true false true);;
  liftS (start a);;
  match first a with
  | AcceptFailed err => modifyS Kill;; failS err
  | RunnerConnected =>
     modifyS (λ r, mkRunner (proc r) (quitSockPath r) (quitSockListener r) true (sockFile r))
  | RunnerExited =>
     modifyS Kill;;
     failS (CommonError ("jobberrunner for " ++ Username usr ++ " exited prematurely.") None)
  end.

(** What a launched runner does next: it ends, with an error or without, an error being an
    [*exec.ExitError] or not; or the master is told to stop. *)
Inductive fate := Exited (err : option (error * bool)) | CtxDone.

(** [runnerThread]: the processes launched, in order, and whether the goroutine has
    returned.  It waits for ever once the answers are used up. *)
Fixpoint runnerThread (s : settings) (usr : UserRec) (jobfilePath : bytes)
    (rounds : list (LaunchAnswers * fate)) : list RunnerProc * bool :=
  match rounds with
  | [] => ([], false)
  | (a, f) :: rounds =>
     match LaunchRunner s usr jobfilePath a (mkRunner None [] false false false) with
     | (Ret _, r) =>
        let again := let '(rs, done_) := runnerThread s usr jobfilePath rounds in (r :: rs, done_) in
        match f with
        | Exited None => again
        | Exited (Some (_, is_ExitError)) => if is_ExitError then again else ([r], true)
        | CtxDone => ([r], true)
        end
     | _ => ([], true)
     end
  end.

(** ** The program *)

(** That the directory exists is no error; the error is cast to an [Errno]. *)
Definition mkdirp (os : Os) (path : bytes) (perm : Z) : outcome unit :=
  match os_Mkdir os path perm with
  | Fail (OsError EEXIST) => Ret tt
  | Fail (OsError e) => Fail (OsError e)
  | Fail _ => Panic "interface conversion"
  | r => r
  end.

Definition gJobFileName : bytes := ".jobber".

(** The loop over the users: the goroutines it starts, each a user and a jobfile. *)
Fixpoint start_threads (os : Os) (s : settings) (users : list UserRec)
    : outcome (list (UserRec * bytes)) :=
  match users with
  | [] => Ret []
  | usr :: users =>
     let jobfilePath := path_Join (HomeDir usr) gJobFileName in
     let dirPath := PerUserDirPath s usr in
     made ← (match (mkdirp os dirPath 504;; Chown os dirPath usr) with
             | Ret _ => Ret true
             | Fail _ => Ret false
             | Panic msg => Panic msg
             | Running => Running
             end);
     threads ← start_threads os s users;
     Ret (if made : bool then (usr, jobfilePath) :: threads else threads)
  end.

(** The command line of the master *)
Inductive subcommand := Defprefs | Debug.
Record argsS := mkArgs {
  subcmd : option subcommand;
  Etc : option bytes;
  Var : option bytes;
  Libexec : option bytes;
  Temp : option bytes
}.

Section Program.
Context `{PrefsYaml} (os : Os).

Definition initSettings (args : argsS) : stM settings unit :=
  InitSettings (os_prefs os) (mkParams (Var args) (Libexec args) (Temp args) (Etc args)).

(** [doDefault] up to where it waits for a signal, after which it returns 0: the goroutines
    it has started, or the exit status if it ends before. *)
Definition doDefault (args : argsS) : stM settings (Z + list (UserRec * bytes)) :=
  initialised ← try_ (initSettings args);
  match initialised with
  | inr _ => mret (inl 1%Z)
  | inl _ =>
     s ← getS;
     made ← try_ (liftS (mkdirp os (VarDirPath s) 509));
     match made with
     | inr _ => mret (inl 1%Z)
     | inl _ =>
        users ← try_ (liftS (getAcceptableUsers os s));
        match users with
        | inr _ => mret (inl 1%Z)
        | inl users => threads ← liftS (start_threads os s users); mret (inr threads)
        end
     end
  end.

(** What is printed, and the exit status *)
Definition doDefprefs (args : argsS) : bytes * Z :=
  (MakeDefaultPrefs (mkParams (Var args) (Libexec args) (Temp args) None) ++ [newline], 0%Z).

Definition doDebug (args : argsS) : stM settings (bytes * Z) :=
  initialised ← try_ (initSettings args);
  match initialised with
  | inr _ => mret ([], 1%Z)
  | inl _ => s ← getS; mret (PrintPaths s, 0%Z)
  end.

(** [main]: what is printed on the standard output, the exit status once a signal has
    arrived, and the goroutines started. *)
Definition main (args : argsS) : stM settings (bytes * Z * list (UserRec * bytes)) :=
  match subcmd args with
  | None =>
     r ← doDefault args;
     match r with
     | inl status => mret ([], status, [])
     | inr threads => mret ([], 0%Z, threads)
     end
  | Some Defprefs => let '(out, status) := doDefprefs args in mret (out, status, [])
  | Some Debug => '(out, status) ← doDebug args; mret (out, status, [])
  end.

End Program.

(** ** The bounded buffer *)

Definition buffer_ok (b : BoundedBuffer) : Prop := writePos b = readLen b ∧ readLen b ≤ length (buf b).

Lemma buffer_Write_spec b p :
  buffer_ok b →
  let n := (length (buf b) - readLen b) `min` length p in
  ∃ b', buffer_Write b p = Ret (n, if bool_decide (n < length p) then Some buffer_full else None, b') ∧
    buffer_ok b' ∧ length (buf b') = length (buf b) ∧ readLen b' = readLen b + n ∧
    buffer_String b' = buffer_String b ++ take n p.
Proof.
  intros [Hw Hr] n. unfold buffer_Write. rewrite Hw. fold n.
  rewrite bool_decide_true by lia. eexists. split; [reflexivity|].
  assert (Hlen : length (take (readLen b) (buf b)) = readLen b) by (rewrite length_take; lia).
  assert (Hn : length (take n p) = n) by (rewrite length_take; lia).
  split; [|split; [|split]]; cbn [writePos readLen buf]; [split| |done|]; cbn [writePos readLen buf].
  - done.
  - rewrite !length_app, length_drop, Hlen, Hn. lia.
  - rewrite !length_app, length_drop, Hlen, Hn. lia.
  - unfold buffer_String. cbn [readLen buf]. rewrite app_assoc, take_app_length'; [done|].
    rewrite length_app. lia.
Qed.

Fixpoint write_all (b : BoundedBuffer) (ps : list bytes)
    : outcome (list (nat * option error) * BoundedBuffer) :=
  match ps with
  | [] => Ret ([], b)
  | p :: ps =>
     '(n, err, b) ← buffer_Write b p;
     '(rs, b) ← write_all b ps;
     Ret ((n, err) :: rs, b)
  end.

(** The answers a buffer with room for [room] more bytes gives: every write takes what there
    is room for. *)
Fixpoint write_answers (room : nat) (ps : list bytes) : list (nat * option error) :=
  match ps with
  | [] => []
  | p :: ps =>
     let n := room `min` length p in
     (n, if bool_decide (length p ≤ room) then None else Some buffer_full) ::
     write_answers (room - n) ps
  end.

Lemma write_all_spec b ps :
  buffer_ok b →
  ∃ b', write_all b ps = Ret (write_answers (length (buf b) - readLen b) ps, b') ∧
    buffer_String b' = buffer_String b ++ take (length (buf b) - readLen b) (concat ps).
Proof.
  revert b. induction ps as [|p ps IH]; intros b Hok; cbn [write_all].
  - exists b. split; [done|]. simpl. by rewrite take_nil, app_nil_r.
  - destruct (buffer_Write_spec b p Hok) as (b1 & -> & Hok1 & Hlen & Hr & Hs).
    cbn [mbind outcome_bind]. destruct (IH b1 Hok1) as (b' & -> & Hs'). exists b'.
    cbn [mbind outcome_bind write_answers]. rewrite Hlen, Hr in *.
    set (room := length (buf b) - readLen b) in *. rewrite Nat.sub_add_distr. fold room. split.
    + do 3 f_equal. destruct (decide (length p ≤ room)).
      * rewrite (bool_decide_false (_ < _)), (bool_decide_true (_ ≤ _)) by lia. done.
      * rewrite (bool_decide_true (_ < _)), (bool_decide_false (_ ≤ _)) by lia. done.
    + rewrite Hs', Hs, <- app_assoc, Nat.sub_add_distr. fold room. f_equal. cbn [concat].
      rewrite take_app. f_equal; [|f_equal; lia]. destruct (decide (room ≤ length p)).
      * by rewrite Nat.min_l.
      * rewrite Nat.min_r, !take_ge by lia. done.
Qed.

(** A buffer of [cap] bytes keeps the first [cap] bytes of what is written to it, however
    it is split into writes; each write says how many bytes it took, with an error when
    there was no room for all of them; and nothing is ever sliced out of bounds. *)
Theorem BoundedBuffer_correct (cap : nat) (ps : list bytes) :
  ∃ b b', NewBoundedBuffer (Z.of_nat cap) = Ret b ∧
    write_all b ps = Ret (write_answers cap ps, b') ∧
    buffer_String b' = take cap (concat ps).
Proof.
  unfold NewBoundedBuffer. destruct (Z.of_nat cap <? 0)%Z eqn:E; [apply Z.ltb_lt in E; lia|].
  rewrite Nat2Z.id. destruct (write_all_spec (mkBuffer (replicate cap (ascii_of_nat 0)) 0 0) ps)
    as (b' & Hw & Hs); [split; cbn; [done|lia]|].
  cbn [buf readLen] in Hw, Hs. rewrite length_replicate, Nat.sub_0_r in *. by eexists _, b'.
Qed.

(** ** The users of the passwd file *)

(** A line of the passwd file is what comes before the first colon, if there is one, and
    then the rest. *)
Definition first_field (line : bytes) : bytes :=
  match cut ":" line with Some (name, _) => name | None => line end.

Lemma first_field_Split line : ∃ rest, Split line ":" = first_field line :: rest.
Proof.
  unfold first_field. rewrite Split_unfold by done. destruct (cut ":" line) as [[b a]|]; eauto.
Qed.

Definition text_of (lines : list bytes) : bytes := concat (map (λ line, line ++ [newline]) lines).

Definition too_long (line : bytes) : Prop :=
  newline ∉ line ∧ (MaxScanTokenSize ≤ Z.of_nat (length line))%Z.

Lemma scan_lines_too_long pre long post :
  Forall whole_line pre → too_long long → scan_lines (pre ++ long :: post) = pre.
Proof.
  intros Hpre [_ Hlong]. induction Hpre as [|line pre Hl _ IH]; cbn [app].
  - cbn [scan_lines]. apply Z.ltb_ge in Hlong as Hlt. rewrite Hlt.
    destruct post; [|done]. case_bool_decide; [done|done].
  - rewrite <- IH at 2. rewrite <- (dropCR_whole line Hl) at 2. cbn [scan_lines].
    destruct Hl as (_ & _ & Hlt%Z.ltb_lt). rewrite Hlt. by destruct pre.
Qed.

Lemma ScanLines_too_long pre long post :
  Forall whole_line pre → too_long long → Forall (λ l, newline ∉ l) post →
  ScanLines (text_of (pre ++ long :: post)) = pre.
Proof.
  intros Hpre Hlong Hpost. unfold ScanLines, text_of.
  rewrite <- (app_nil_r (concat _)), Split_lines.
  - rewrite <- app_assoc. cbn [app]. by apply scan_lines_too_long.
  - apply Forall_app. split; [eapply Forall_impl; [exact Hpre|by intros ? (? & _)]|].
    constructor; [apply Hlong|done].
  - apply not_elem_of_nil.
Qed.

Definition look_up_lines (os : Os) (lines : list bytes) : list UserRec :=
  omap (λ line, os_Lookup os (first_field line)) lines.

Lemma getAllUsers_eq os text :
  os_passwd os = Ret text → getAllUsers os = Ret (look_up_lines os (ScanLines text)).
Proof.
  intros E. unfold getAllUsers. rewrite E. cbn [mbind outcome_bind]. f_equal.
  unfold look_up_lines. apply list_omap_ext. apply Forall2_same_length_lookup. split; [done|].
  intros i x y Hx Hy. rewrite Hx in Hy. injection Hy as ->.
  destruct (first_field_Split y) as [rest ->]. done.
Qed.

(** Every line of the passwd file whose name can be looked up gives a user, in the order
    of the file; but a line of 64 KiB or more ends the list without an error, and the
    users after it are not seen. *)
Theorem getAllUsers_correct os lines :
  Forall whole_line lines →
  (os_passwd os = Ret (text_of lines) → getAllUsers os = Ret (look_up_lines os lines)) ∧
  ∀ long post, too_long long → Forall (λ l, newline ∉ l) post →
    os_passwd os = Ret (text_of (lines ++ long :: post)) →
    getAllUsers os = Ret (look_up_lines os lines).
Proof.
  intros Hl. split.
  - intros E. rewrite (getAllUsers_eq _ _ E). unfold text_of. by rewrite ScanLines_whole.
  - intros long post Hlong Hpost E. rewrite (getAllUsers_eq _ _ E). by rewrite ScanLines_too_long.
Qed.

(** ** The users the master runs jobs for *)

(** Calls of the operating system return or fail. *)
Definition os_ok (os : Os) : Prop :=
  (∀ path, match os_open os path with Ret f => answers (stat_uid f) | m => answers m end) ∧
  (∀ path perm, match os_Mkdir os path perm with Fail e => ∃ n, e = OsError n | m => answers m end) ∧
  (∀ path uid gid, answers (os_Chown os path uid gid)).

Definition has_home (os : Os) (usr : UserRec) : Prop :=
  HomeDir usr ≠ [] ∧ HomeDir usr ≠ ("/dev/null" : bytes) ∧ IsAbs (HomeDir usr) = true ∧
  UserOwnsFile os usr (HomeDir usr) = Ret true.

Lemma UserOwnsFile_answers os usr path : os_ok os → answers (UserOwnsFile os usr path).
Proof.
  intros (Ho & _). specialize (Ho path). unfold UserOwnsFile. destruct (os_open os path) as [f| | |]; [|done..].
  cbn [mbind outcome_bind]. unfold UserOwnsFileF. by destruct (stat_uid f).
Qed.

Lemma userHasHome_spec os usr :
  os_ok os → ∃ b, userHasHome os usr = Ret b ∧ (b = true ↔ has_home os usr).
Proof.
  intros Hos. pose proof (UserOwnsFile_answers os usr (HomeDir usr) Hos) as Ha.
  unfold userHasHome, has_home. destruct (_ || _) eqn:E.
  - exists false. split; [done|]. split; [done|]. intros (H1 & H2 & _). exfalso.
    apply orb_true_iff in E as [E%bool_decide_eq_true|E%bool_decide_eq_true]; [|done].
    by apply nil_length_inv in E.
  - apply orb_false_iff in E as [E1%bool_decide_eq_false E2%bool_decide_eq_false].
    assert (HomeDir usr ≠ []) by (intros Hh; by rewrite Hh in E1).
    destruct (IsAbs (HomeDir usr)); cbn [negb]; [|exists false; naive_solver].
    destruct (UserOwnsFile os usr (HomeDir usr)) as [b| | |]; [|exists false; naive_solver|done..].
    exists b. naive_solver.
Qed.

Definition simple_prefs (s : settings) : Prop :=
  forallb simple_spec (UsersInclude (gPrfs s) ++ UsersExclude (gPrfs s)) = true.

Lemma shouldRunForUser_spec os s usr :
  os_ok os → simple_prefs s →
  ∃ b, shouldRunForUser os s usr = Ret b ∧ (b = true ↔ allowed (gPrfs s) usr ∧ has_home os usr).
Proof.
  intros Hos Hs. unfold shouldRunForUser, JobberShouldRunForUser.
  destruct (jobberShouldRunForUser_spec (gPrfs s) usr Hs) as (b & -> & Hb). cbn [mbind outcome_bind].
  destruct b; cbn [negb]; [|exists false; naive_solver].
  destruct (userHasHome_spec os usr Hos) as (b & -> & Hb2). cbn [mbind outcome_bind].
  unfold shouldRunForUser_platform. destruct b; [exists true|exists false]; naive_solver.
Qed.

(** A loop that keeps some of the elements, in order. *)
Lemma acceptable_spec os s users :
  os_ok os → simple_prefs s →
  ∃ keep, (∀ usr, keep usr = true ↔ allowed (gPrfs s) usr ∧ has_home os usr) ∧
          acceptable os s users = Ret (List.filter keep users).
Proof.
  intros Hos Hs.
  exists (λ usr, match shouldRunForUser os s usr with Ret b => b | _ => false end). split.
  - intros usr. by destruct (shouldRunForUser_spec os s usr Hos Hs) as (b & -> & Hb).
  - induction users as [|usr users IH]; [done|]. cbn [acceptable List.filter].
    destruct (shouldRunForUser_spec os s usr Hos Hs) as (b & -> & _). cbn [mbind outcome_bind].
    rewrite IH. by destruct b.
Qed.

(** The directory of a user's sockets exists or can be made, and can be given to the user. *)
Definition dir_ready (os : Os) (s : settings) (usr : UserRec) : Prop :=
  (∃ r, os_Mkdir os (PerUserDirPath s usr) 504 = r ∧ (r = Ret tt ∨ r = Fail (OsError EEXIST))) ∧
  ∃ uid gid, Atoi (Uid usr) = Ret uid ∧ Atoi (Gid usr) = Ret gid ∧
             os_Chown os (PerUserDirPath s usr) uid gid = Ret tt.

Lemma parse_int_answers fn s : answers (parse_int fn s).
Proof.
  unfold parse_int. destruct (match s with [] => _ | _ => _ end) as [neg ds].
  destruct (_ || _); [done|]. destruct neg; [by destruct (two63 <? _)%Z|by destruct (two63 <=? _)%Z].
Qed.

Lemma Chown_spec os path usr :
  os_ok os →
  answers (Chown os path usr) ∧
  (Chown os path usr = Ret tt ↔
   ∃ uid gid, Atoi (Uid usr) = Ret uid ∧ Atoi (Gid usr) = Ret gid ∧ os_Chown os path uid gid = Ret tt).
Proof.
  intros (_ & _ & Hc). unfold Chown.
  pose proof (parse_int_answers "Atoi" (Uid usr)) as H1. pose proof (parse_int_answers "Atoi" (Gid usr)) as H2.
  fold (Atoi (Uid usr)) in H1. fold (Atoi (Gid usr)) in H2.
  destruct (Atoi (Uid usr)) as [uid| | |]; cbn [mbind outcome_bind]; [|naive_solver|done..].
  destruct (Atoi (Gid usr)) as [gid| | |]; cbn [mbind outcome_bind]; [|naive_solver|done..].
  split; [apply Hc|]. naive_solver.
Qed.

Lemma mkdirp_spec os path perm :
  os_ok os →
  answers (mkdirp os path perm) ∧
  (mkdirp os path perm = Ret tt ↔
   os_Mkdir os path perm = Ret tt ∨ os_Mkdir os path perm = Fail (OsError EEXIST)).
Proof.
  intros (_ & Hm & _). specialize (Hm path perm). unfold mkdirp.
  destruct (os_Mkdir os path perm) as [[]|e| |]; [naive_solver| |done..].
  destruct Hm as [[] ->]; naive_solver.
Qed.

Lemma start_threads_spec os s users :
  os_ok os →
  ∃ ready, (∀ usr, ready usr = true ↔ dir_ready os s usr) ∧
    start_threads os s users =
    Ret (map (λ usr, (usr, path_Join (HomeDir usr) gJobFileName)) (List.filter ready users)).
Proof.
  intros Hos.
  set (made usr := mkdirp os (PerUserDirPath s usr) 504;; Chown os (PerUserDirPath s usr) usr).
  assert (Hmade : ∀ usr, answers (made usr) ∧ (made usr = Ret tt ↔ dir_ready os s usr)).
  { intros usr. destruct (mkdirp_spec os (PerUserDirPath s usr) 504 Hos) as [Ha Hm].
    destruct (Chown_spec os (PerUserDirPath s usr) usr Hos) as [Hc Hch]. unfold made, dir_ready.
    destruct (mkdirp _ _ _) as [[]| | |]; cbn [mbind outcome_bind]; [|naive_solver|done..].
    split; [done|]. rewrite Hch. naive_solver. }
  exists (λ usr, match made usr with Ret _ => true | _ => false end). split.
  - intros usr. rewrite <- (proj2 (Hmade usr)). by destruct (made usr) as [[]| | |].
  - induction users as [|usr users IH]; [done|]. cbn [start_threads List.filter map].
    fold (made usr). destruct (Hmade usr) as [Ha _].
    destruct (made usr); [| |done..]; cbn [mbind outcome_bind]; by rewrite IH.
Qed.

(** C9: The master keeps a runner for exactly the users that should have one.  Once the
    settings are there, with patterns of literals and stars, the directory for the
    sockets can be made and the passwd file can be read, it starts one goroutine per
    user, in the order of the file: for the users that the preferences allow, whose
    home directory has an absolute path and belongs to them, and whose socket
    directory can be made and handed over.  A user for whom something fails is left
    out; the others are not affected. *)
Theorem doDefault_correct `{PrefsYaml} (os : Os) (args : argsS) (s0 s : settings) (lines : list bytes) :
  os_ok os → initSettings os args s0 = (Ret tt, s) → simple_prefs s →
  mkdirp os (VarDirPath s) 509 = Ret tt →
  Forall whole_line lines → os_passwd os = Ret (text_of lines) →
  ∃ keep,
    (∀ usr, keep usr = true ↔ allowed (gPrfs s) usr ∧ has_home os usr ∧ dir_ready os s usr) ∧
    doDefault os args s0 =
    (Ret (inr (map (λ usr, (usr, path_Join (HomeDir usr) ".jobber"))
                 (List.filter keep (look_up_lines os lines)))), s).
Proof.
  intros Hos Hinit Hs Hvar Hlines Hpasswd.
  destruct (acceptable_spec os s (look_up_lines os lines) Hos Hs) as (keep & Hkeep & Hacc).
  destruct (start_threads_spec os s (List.filter keep (look_up_lines os lines)) Hos)
    as (ready & Hready & Hstart).
  exists (λ usr, keep usr && ready usr). split.
  { intros usr. rewrite andb_true_iff, Hkeep, Hready. tauto. }
  unfold doDefault, try_, getAcceptableUsers, liftS. rewrite stM_bind_eq, Hinit, getS_bind, stM_bind_eq, Hvar.
  rewrite (getAllUsers_eq _ _ Hpasswd). unfold text_of. rewrite ScanLines_whole by done.
  cbn [mbind outcome_bind]. rewrite stM_bind_eq, Hacc, stM_bind_eq, Hstart.
  assert (Hf : ∀ users, List.filter ready (List.filter keep users) =
                        List.filter (λ usr, keep usr && ready usr) users).
  { induction users as [|u users IH]; [done|]. cbn [List.filter].
    destruct (keep u); cbn [List.filter andb]; by rewrite IH. }
  by rewrite Hf.
Qed.

(** ** Runner processes *)

Definition launches (a : LaunchAnswers) : Prop :=
  resolve a = Ret tt ∧ listen a = Ret tt ∧ chown a = Ret tt ∧ start a = Ret tt ∧ first a = RunnerConnected.

Definition launch_ok (a : LaunchAnswers) : Prop :=
  answers (resolve a) ∧ answers (listen a) ∧ answers (chown a) ∧ answers (start a).

(** A runner that is connected *)
Definition connected (s : settings) (usr : UserRec) (jobfilePath : bytes) : RunnerProc :=
  mkRunner (Some (Sudo usr (runner_command s usr jobfilePath))) (quitSockPath_of s usr) true true true.

Lemma LaunchRunner_spec s usr jobfilePath a r0 :
  launch_ok a →
  match LaunchRunner s usr jobfilePath a r0 with
  | (Ret _, r) => launches a ∧ r = connected s usr jobfilePath
  | (Fail _, r) => ¬ launches a ∧ quitSockConn r = false ∧
      (resolve a = Ret tt → listen a = Ret tt → chown a = Ret tt → start a = Ret tt →
       quitSockListener r = false ∧ sockFile r = false)
  | _ => False
  end.
Proof.
  intros (H1 & H2 & H3 & H4). unfold LaunchRunner, launches, liftS, putS, mbind, stM_bind.
  destruct (resolve a) as [[]| | |]; [|naive_solver|done..].
  destruct (listen a) as [[]| | |]; [|naive_solver|done..].
  destruct (chown a) as [[]| | |]; [|naive_solver|done..].
  destruct (start a) as [[]| | |]; [|naive_solver|done..].
  destruct (first a); cbn; naive_solver.
Qed.

(** Launching a runner succeeds if and only if every step does and the runner connects to
    its quit socket before it ends.  It is then run by the shell of its user, with the
    paths of its two sockets, of the jobfile and of the directory for temporary
    files; if it was started but did not connect, its socket is closed and removed. *)
Theorem LaunchRunner_correct s usr jobfilePath a r0 :
  launch_ok a →
  match LaunchRunner s usr jobfilePath a r0 with
  | (Ret _, r) =>
     launches a ∧ quitSockConn r = true ∧ quitSockListener r = true ∧
     ∃ cmd, proc r = Some ["su" : bytes; "-l" : bytes; "-s" : bytes; "/bin/sh" : bytes; "-c" : bytes; cmd; Username usr] ∧
       cmd = dquote (LibexecProgramPath s "jobberrunner") ++ " -q " ++ dquote (quitSockPath r) ++
             " -u " ++ dquote (CmdSocketPath s usr) ++ " " ++ dquote jobfilePath ++
             " -t " ++ dquote (TempDirPath s)
  | (Fail _, r) =>
     ¬ launches a ∧ quitSockConn r = false ∧
     (resolve a = Ret tt → listen a = Ret tt → chown a = Ret tt → start a = Ret tt →
      quitSockListener r = false ∧ sockFile r = false)
  | _ => False
  end.
Proof.
  intros Ha. pose proof (LaunchRunner_spec s usr jobfilePath a r0 Ha) as Hl.
  destruct (LaunchRunner _ _ _ _ _) as [[[]| | |] r]; [|done..]. destruct Hl as [Hl ->].
  split; [done|]. split; [done|]. split; [done|]. eexists. split; [reflexivity|].
  unfold connected, runner_command, quotify. cbn [quitSockPath Join app]. done.
Qed.

(** The goroutine goes on to another round. *)
Definition restarts (round : LaunchAnswers * fate) : Prop :=
  launches round.1 ∧ (round.2 = Exited None ∨ ∃ err, round.2 = Exited (Some (err, true))).

Definition clean : RunnerProc := mkRunner None [] false false false.

Lemma LaunchRunner_launches s usr jobfilePath a r0 :
  launches a → LaunchRunner s usr jobfilePath a r0 = (Ret tt, connected s usr jobfilePath).
Proof.
  intros (H1 & H2 & H3 & H4 & H5). unfold LaunchRunner, liftS, putS, mbind, stM_bind.
  by rewrite H1, H2, H3, H4, H5.
Qed.

Lemma runnerThread_again s usr jobfilePath round rounds :
  restarts round →
  runnerThread s usr jobfilePath (round :: rounds) =
  (connected s usr jobfilePath :: (runnerThread s usr jobfilePath rounds).1,
   (runnerThread s usr jobfilePath rounds).2).
Proof.
  destruct round as [a f]. intros [Hl Hf]. cbn [runnerThread fst snd] in *.
  rewrite LaunchRunner_launches by done.
  destruct (runnerThread s usr jobfilePath rounds) as [rs d]. destruct Hf as [->|[err ->]]; done.
Qed.

(** Nothing closes the quit socket of a runner that has ended: each restart leaves a
    listener and a connection behind, for the garbage collector. *)
Theorem quit_sockets_stay_open s usr jobfilePath rounds :
  Forall (λ r, quitSockListener r = true ∧ quitSockConn r = true) (runnerThread s usr jobfilePath rounds).1.
Proof.
  induction rounds as [|[a f] rounds IH]; [by constructor|]. cbn [runnerThread].
  destruct (LaunchRunner _ _ _ a _) as [[[]|e|msg|] r] eqn:E; [|by constructor..].
  assert (Hr : quitSockListener r = true ∧ quitSockConn r = true).
  { revert E. unfold LaunchRunner, liftS, putS, modifyS, failS, mbind, stM_bind.
    destruct (resolve a) as [[]| | |]; [|done..]. destruct (listen a) as [[]| | |]; [|done..].
    destruct (chown a) as [[]| | |]; [|done..]. destruct (start a) as [[]| | |]; [|done..].
    by destruct (first a); intros [= <-]. }
  destruct (runnerThread s usr jobfilePath rounds) as [rs d]. cbn [fst] in *.
  destruct f as [[[err []]|]|]; (apply Forall_cons_2; [done|]); first [exact IH|by apply Forall_nil_2].
Qed.

(** C27: A runner is kept going.  As long as runners can be launched and end with status zero
    or another status, each is replaced by a new one; the goroutine returns only when
    one cannot be launched, when waiting for one fails otherwise, or when the master
    stops. *)
Theorem runnerThread_restarts s usr jobfilePath pre :
  Forall restarts pre →
  runnerThread s usr jobfilePath pre = (replicate (length pre) (connected s usr jobfilePath), false) ∧
  ∀ a f rest, launch_ok a → ¬ restarts (a, f) →
    (launches a ∧ runnerThread s usr jobfilePath (pre ++ (a, f) :: rest) =
                  (replicate (S (length pre)) (connected s usr jobfilePath), true)) ∨
    (¬ launches a ∧ runnerThread s usr jobfilePath (pre ++ (a, f) :: rest) =
                    (replicate (length pre) (connected s usr jobfilePath), true)).
Proof.
  intros Hpre. induction Hpre as [|round pre Hr _ IH]; cbn [app].
  - split; [done|]. intros a f rest Ha Hn. cbn [runnerThread length replicate].
    pose proof (LaunchRunner_spec s usr jobfilePath a clean Ha) as Hl. fold clean.
    destruct (LaunchRunner _ _ _ _ _) as [[[]| | |] r]; [|naive_solver|done..].
    destruct Hl as [Hl ->]. left. split; [done|].
    destruct f as [[[err []]|]|]; [exfalso; apply Hn; split; eauto|done|exfalso; apply Hn; split; eauto|done].
  - destruct IH as [IH1 IH2]. split.
    + rewrite runnerThread_again by done. by rewrite IH1.
    + intros a f rest Ha Hn. rewrite runnerThread_again by done.
      destruct (IH2 a f rest Ha Hn) as [[Hl ->]|[Hl ->]]; [by left|by right].
Qed.

(** ** A small installation *)

Definition example_passwd : list bytes :=
  ["root:x:0:0:root:/root:/bin/sh" : bytes; "bob:x:1000:1000::/home/bob:/bin/sh" : bytes;
   "www:x:33:33::/var/www:/bin/false" : bytes].

Definition example_os : Os := mkOs
  (λ _, Ret ("users-exclude: [{username: w*}]" : bytes))
  (λ path, Ret (mkOpenFile (Ret (if bool_decide (path = ("/home/bob" : bytes)) then 1000 else 0)%Z)
                  (Ret 493%Z) (Ret [])))
  (Ret (text_of example_passwd))
  (λ name, if bool_decide (name = ("bob" : bytes)) then Some example_user
           else if bool_decide (name = ("www" : bytes)) then Some (mkUser "www" "/var/www" "33" "33") else None)
  (λ path _, if bool_decide (path = ("/srv/jobber" : bytes)) then Fail (OsError EEXIST) else Ret tt)
  (λ _ _ _, Ret tt).

#[local] Instance example_prefs_yaml : PrefsYaml := λ _,
  Ret (mkPrefsFile None None None [] [mkUserSpec "w*" []]).

Definition example_args : argsS := mkArgs None None (Some ("/srv" : bytes)) None None.

Definition example_initialised : settings :=
  snd (initSettings example_os example_args (initial_settings "/tmp" "/etc")).

Lemma example_passwd_whole : Forall whole_line example_passwd.
Proof.
  unfold example_passwd, whole_line, MaxScanTokenSize.
  repeat constructor; vm_compute; try done; intros H; decompose_Forall; set_solver.
Qed.

Lemma getAllUsers_correct_witness :
  Forall whole_line example_passwd ∧
  getAllUsers example_os = Ret [example_user; mkUser "www" "/var/www" "33" "33"].
Proof.
  split; [exact example_passwd_whole|].
  exact (proj1 (getAllUsers_correct example_os example_passwd example_passwd_whole) eq_refl).
Defined.

Lemma example_os_ok : os_ok example_os.
Proof.
  split; [intros path; by cbn|]. split; [|done]. intros path perm. cbn. case_bool_decide; eauto.
Qed.

(** The users of the list of excluded ones are left out; the home of "www" belongs to root. *)
Lemma doDefault_correct_witness :
  ∃ keep, doDefault example_os example_args (initial_settings "/tmp" "/etc") =
          (Ret (inr (map (λ usr, (usr, path_Join (HomeDir usr) ".jobber"))
                       (List.filter keep [example_user; mkUser "www" "/var/www" "33" "33"]))),
           example_initialised).
Proof.
  assert (E : initSettings example_os example_args (initial_settings "/tmp" "/etc") =
              (Ret tt, example_initialised)) by (vm_compute; reflexivity).
  destruct (doDefault_correct example_os example_args (initial_settings "/tmp" "/etc")
              example_initialised example_passwd example_os_ok E) as (keep & _ & P).
  - vm_compute. reflexivity.
  - vm_compute. reflexivity.
  - exact example_passwd_whole.
  - reflexivity.
  - exists keep. exact P.
Defined.

Definition all_well : LaunchAnswers := mkLaunch (Ret tt) (Ret tt) (Ret tt) (Ret tt) RunnerConnected.
Definition exited_early : LaunchAnswers := mkLaunch (Ret tt) (Ret tt) (Ret tt) (Ret tt) RunnerExited.

Lemma LaunchRunner_correct_witness :
  ∃ r, LaunchRunner example_initialised example_user "/home/bob/.jobber" all_well clean = (Ret tt, r) ∧
       quitSockConn r = true.
Proof.
  pose proof (LaunchRunner_correct example_initialised example_user "/home/bob/.jobber" all_well clean
                (conj I (conj I (conj I I)))) as P.
  rewrite LaunchRunner_launches in P by (by split_and!). destruct P as (_ & Hc & _).
  eexists. split; [apply LaunchRunner_launches; by split_and!|exact Hc].
Defined.

Lemma runnerThread_restarts_witness :
  runnerThread example_initialised example_user "/home/bob/.jobber"
    [(all_well, Exited None); (exited_early, CtxDone)] =
  ([connected example_initialised example_user "/home/bob/.jobber"], true).
Proof.
  destruct (proj2 (runnerThread_restarts example_initialised example_user "/home/bob/.jobber"
              [(all_well, Exited None)] ltac:(repeat constructor; by left)) exited_early CtxDone []
              (conj I (conj I (conj I I)))) as [[(_ & _ & _ & _ & H) _]|[_ E]].
  - intros [(_ & _ & _ & _ & H) _]. discriminate.
  - discriminate.
  - exact E.
Defined.
