(* ===== verification/Platform.v ===== *)
(** * The master on other systems ([get_users_darwin.go], [su_cmd_darwin.go], [su_cmd_freebsd.go])

    Three functions of the master are chosen when it is built: how all users are listed,
    which of them the system reserves, and the command that becomes another user.  They
    make the interface [Platform]; Master.v is written for Linux.  Here the choice of
    users and [Sudo] are stated over the interface, with an instance for each system. *)

From S2P Require Import Prelude GoStrings Encoding GoPath Sections JobFile Glob Settings Master.

Open Scope nat_scope.
Open Scope bytes_scope.
Open Scope list_scope.

Class Platform := mkPlatform {
  all_users : Os → outcome (list UserRec);
  not_reserved : UserRec → bool;
  become : bytes → bytes → bytes → list bytes
}.

(** ** The systems *)

(** [su_cmd] on Darwin and FreeBSD, whose [su] is given no shell *)
Definition su_cmd_bsd (user cmdStr shell : bytes) : list bytes :=
  ["su" : bytes; "-l" : bytes; user; "-c" : bytes; cmdStr].

(** [getAllUsers] on Darwin; [dscl] is what the program of that name prints. *)
Definition getAllUsers_darwin (dscl : outcome bytes) (os : Os) : outcome (list UserRec) :=
  out ← dscl; Ret (omap (os_Lookup os) (Split out [newline])).

Definition shouldRunForUser_platform_darwin (usr : UserRec) : bool :=
  let res := negb (HasPrefix (Username usr) "_") in res.

Definition Linux : Platform := mkPlatform getAllUsers shouldRunForUser_platform su_cmd.
Definition FreeBSD : Platform := mkPlatform getAllUsers shouldRunForUser_platform su_cmd_bsd.
Definition Darwin (dscl : outcome bytes) : Platform :=
  mkPlatform (getAllUsers_darwin dscl) shouldRunForUser_platform_darwin su_cmd_bsd.

(** ** The master over the interface *)

Section Platform.
Context `{P : Platform}.

Definition shouldRunForUser_on (os : Os) (s : settings) (usr : UserRec) : outcome bool :=
  byPrefs ← JobberShouldRunForUser s usr;
  if negb byPrefs then Ret false
  else
    hasHome ← userHasHome os usr;
    if negb hasHome then Ret false else Ret (not_reserved usr).

Fixpoint acceptable_on (os : Os) (s : settings) (allUsers : list UserRec) : outcome (list UserRec) :=
  match allUsers with
  | [] => Ret []
  | usr :: users =>
     ok ← shouldRunForUser_on os s usr;
     acceptableUsers ← acceptable_on os s users;
     Ret (if ok : bool then usr :: acceptableUsers else acceptableUsers)
  end.

Definition getAcceptableUsers_on (os : Os) (s : settings) : outcome (list UserRec) :=
  allUsers ← all_users os; acceptable_on os s allUsers.

Definition Sudo_on (usr : UserRec) (cmdStr : bytes) : list bytes :=
  become (Username usr) cmdStr "/bin/sh".

(** The users of the system that are not reserved, that the preferences allow and that
    have a home directory of their own, in the order of the system's list *)
Lemma getAcceptableUsers_on_spec os s users :
  os_ok os → simple_prefs s → all_users os = Ret users →
  ∃ keep, (∀ usr, keep usr = true ↔
                  allowed (gPrfs s) usr ∧ has_home os usr ∧ not_reserved usr = true) ∧
          getAcceptableUsers_on os s = Ret (List.filter keep users).
Proof.
  intros Hos Hs E. unfold getAcceptableUsers_on. rewrite E. cbn [mbind outcome_bind].
  assert (Hone : ∀ usr, ∃ b, shouldRunForUser_on os s usr = Ret b ∧
    (b = true ↔ allowed (gPrfs s) usr ∧ has_home os usr ∧ not_reserved usr = true)).
  { intros usr. unfold shouldRunForUser_on, JobberShouldRunForUser.
    destruct (jobberShouldRunForUser_spec (gPrfs s) usr Hs) as (b & -> & Hb). cbn [mbind outcome_bind].
    destruct b; cbn [negb]; [|exists false; naive_solver].
    destruct (userHasHome_spec os usr Hos) as (b & -> & Hb2). cbn [mbind outcome_bind].
    destruct b; [exists (not_reserved usr)|exists false]; naive_solver. }
  exists (λ usr, match shouldRunForUser_on os s usr with Ret b => b | _ => false end). split.
  - intros usr. by destruct (Hone usr) as (b & -> & Hb).
  - clear E. induction users as [|usr users IH]; [done|]. cbn [acceptable_on List.filter].
    destruct (Hone usr) as (b & -> & _). cbn [mbind outcome_bind]. rewrite IH. by destruct b.
Qed.

End Platform.

(** Over the instance of Linux this is the master of Master.v. *)
Theorem Linux_is_Master os s usr cmdStr :
  getAcceptableUsers_on (P:=Linux) os s = getAcceptableUsers os s ∧
  Sudo_on (P:=Linux) usr cmdStr = Sudo usr cmdStr.
Proof.
  split; [|done]. unfold getAcceptableUsers_on, getAcceptableUsers. cbn [all_users Linux].
  destruct (getAllUsers os) as [users| | |]; [|done..]. cbn [mbind outcome_bind].
  induction users as [|usr' users IH]; [done|]. cbn [acceptable_on acceptable]. by rewrite IH.
Qed.

(** ** Darwin *)

(** What [dscl] prints: a name per line *)
Definition dscl_text (names : list bytes) : bytes := concat (map (λ n, n ++ [newline]) names).

Lemma Split_dscl names :
  Forall (λ n, newline ∉ n) names → Split (dscl_text names) [newline] = names ++ [[]].
Proof.
  induction 1 as [|n names Hn _ IH]; [done|].
  unfold dscl_text in *. cbn [map concat app]. rewrite <- app_assoc. cbn [app].
  by rewrite Split_app, IH.
Qed.

(** On Darwin the master runs jobs for the users that the system lists, apart from those
    whose name starts with an underscore, subject to the preferences and to a home
    directory as elsewhere; the empty name after the last line is nobody's. *)
Theorem Darwin_users_correct os s names :
  os_ok os → simple_prefs s → os_Lookup os [] = None → Forall (λ n, newline ∉ n) names →
  ∃ keep, (∀ usr, keep usr = true ↔
                  allowed (gPrfs s) usr ∧ has_home os usr ∧ ∀ r, Username usr ≠ "_" ++ r) ∧
    getAcceptableUsers_on (P:=Darwin (Ret (dscl_text names))) os s =
    Ret (List.filter keep (omap (os_Lookup os) names)).
Proof.
  intros Hos Hs Hnone Hn.
  destruct (getAcceptableUsers_on_spec (P:=Darwin (Ret (dscl_text names))) os s
              (omap (os_Lookup os) (names ++ [[]])) Hos Hs) as (keep & Hk & E).
  { change (Ret (omap (os_Lookup os) (Split (dscl_text names) [newline])) = Ret (omap (os_Lookup os) (names ++ [[]]))).
    by rewrite Split_dscl. }
  exists keep. split.
  - intros usr. rewrite Hk. cbn [not_reserved Darwin]. unfold shouldRunForUser_platform_darwin.
    rewrite negb_true_iff, <- not_true_iff_false, HasPrefix_spec. naive_solver.
  - rewrite E. f_equal. f_equal. rewrite omap_app. cbn. by rewrite Hnone, app_nil_r.
Qed.

Lemma Darwin_users_correct_witness :
  ∃ keep, getAcceptableUsers_on (P:=Darwin (Ret (dscl_text ["_www" : bytes; "root" : bytes]))) example_os
            (initial_settings "/tmp" "/etc") =
          Ret (List.filter keep (omap (os_Lookup example_os) ["_www" : bytes; "root" : bytes])).
Proof.
  destruct (Darwin_users_correct example_os (initial_settings "/tmp" "/etc") ["_www" : bytes; "root" : bytes])
    as (keep & _ & E).
  - apply example_os_ok.
  - reflexivity.
  - reflexivity.
  - repeat constructor; apply (bool_decide_unpack _); vm_compute; exact I.
  - exists keep. exact E.
Defined.
