(* ===== verification/RunnerMain.v ===== *)
(** * The start of a runner ([jobberrunner/main.go])

    The program checks its command line, reads the settings, makes and launches the
    job manager and a server of commands, and then waits.  [quit] is what it does
    on a signal, when the master closes the quit socket, and on an error. *)

From S2P Require Import Prelude GoStrings Calendar SemVer TimeSpec TimeSpecParse Job JobQueue.
From S2P Require Import RunLog MemRunLog Durations FileSys FileRunLog FileRunLogFacts.
From S2P Require Import RunRecServer ResultSink JobFile JobRunner JobManager JobManagerFacts.
From S2P Require Import CommandFacts ManagerExamples GoPath Settings IpcServer.

Open Scope nat_scope.
Open Scope bytes_scope.
Open Scope list_scope.

(** ** The command line *)

Record argsS := mkArgs {
  QuitSocket : option bytes;
  UnixSocket : option bytes;
  TcpPort : option Z;
  ArgTempDir : option bytes;
  JobfilePath : bytes;
  DebugFlag : bool
}.

Definition is_empty (arg : option bytes) : bool :=
  match arg with Some a => bool_decide (length a = 0) | None => false end.

(** The checks, in order: the message of the first one that fails *)
Definition arg_error (args : argsS) : option bytes :=
  if bool_decide (is_Some (UnixSocket args)) && bool_decide (is_Some (TcpPort args))
  then Some ("Must specify at most one of --unixsocket or --tcpport" ++ [newline])
  else if is_empty (UnixSocket args) then Some ("Unix socket path cannot be empty" ++ [newline])
  else if is_empty (QuitSocket args) then Some ("Quit socket path cannot be empty" ++ [newline])
  else if is_empty (ArgTempDir args) then Some ("Temp dir path cannot be empty" ++ [newline])
  else if bool_decide (TcpPort args = Some 0%Z) then Some ("TCP port cannot be zero" ++ [newline])
  else if bool_decide (length (JobfilePath args) = 0) then Some ("Jobfile path cannot be empty" : bytes)
  else None.

Inductive IpcServer := UdsServer (server : udsIpcServer) | InetServer (server : inetIpcServer).

Section Main.
Context `{HL : Location} `{HF : FloatFraction} `{HT : TempNames} (lib_error_text : error → bytes).
Context `{HYE : YaccErrors} `{R : Rand} `{HYaml : Yaml} `{HDoc : YamlDoc} `{HP : PrefsYaml}.

Abbreviation Manager := (JobManager (R:=R)).

(** The global variables, the settings among them; the paths at which there are sockets; and
    what was printed on the standard output and error. *)
Record Process := mkProcess {
  gIpcServer : option IpcServer;
  gJobManager : option Manager;
  gSettings : settings;
  sockets : gset bytes;
  out : bytes;
  err_out : bytes
}.

Definition set_server (v : IpcServer) : stM Process unit := modifyS (λ s,
  mkProcess (Some v) (gJobManager s) (gSettings s) (sockets s) (out s) (err_out s)).
Definition set_manager (v : Manager) : stM Process unit := modifyS (λ s,
  mkProcess (gIpcServer s) (Some v) (gSettings s) (sockets s) (out s) (err_out s)).
Definition print (text : bytes) : stM Process unit := modifyS (λ s,
  mkProcess (gIpcServer s) (gJobManager s) (gSettings s) (sockets s) (out s ++ text) (err_out s)).
Definition eprint (text : bytes) : stM Process unit := modifyS (λ s,
  mkProcess (gIpcServer s) (gJobManager s) (gSettings s) (sockets s) (out s) (err_out s ++ text)).

Definition on_settings {A} (m : stM settings A) : stM Process A := λ s,
  let '(r, g) := m (gSettings s) in
  (r, mkProcess (gIpcServer s) (gJobManager s) g (sockets s) (out s) (err_out s)).

Definition on_gJobManager {A} (m : stM Manager A) : stM Process A := λ s,
  match gJobManager s with
  | Some jm =>
     let '(r, jm) := m jm in
     (r, mkProcess (gIpcServer s) (Some jm) (gSettings s) (sockets s) (out s) (err_out s))
  | None => (Panic nil_dereference, s)
  end.

(** A method of the server, whichever it is. *)
Definition on_server {A} (uds : stM (udsIpcServer * gset bytes) A) (inet : stM inetIpcServer A)
    : stM Process A := λ s,
  match gIpcServer s with
  | Some (UdsServer srv) =>
     let '(r, (srv, socks)) := uds (srv, sockets s) in
     (r, mkProcess (Some (UdsServer srv)) (gJobManager s) (gSettings s) socks (out s) (err_out s))
  | Some (InetServer srv) =>
     let '(r, srv) := inet srv in
     (r, mkProcess (Some (InetServer srv)) (gJobManager s) (gSettings s) (sockets s) (out s) (err_out s))
  | None => (Panic nil_dereference, s)
  end.

(** [quit]: the exit status.  Waiting for the manager is waiting for its main loop, which
    stops the job-runner thread; [evs] is what that thread does meanwhile. *)
Definition quit (evs : list thread_event) (exitCode : Z) : stM Process Z :=
  s ← getS;
  (match gIpcServer s with
   | None => mret tt
   | Some _ => on_server uds_Stop inet_Stop
   end);;
  s ← getS;
  (match gJobManager s with
   | None => mret tt
   | Some _ => on_gJobManager (shut_down lib_error_text evs)
   end);;
  mret exitCode.

Definition exit_with (evs : list thread_event) (exitCode : Z) : stM Process (option Z) :=
  status ← quit evs exitCode; mret (Some status).

(** What the operating system answers, and what comes from outside. *)
Record Answers := mkAnswers {
  a_prefs : bytes → outcome bytes;
  a_user : outcome UserRec;
  a_outside : Outside (R:=R);
  a_inp0 : Inputs;
  a_inp : Inputs;
  a_resolve : bytes → outcome unit;
  a_listen : bytes → outcome unit;
  a_drain : list thread_event
}.

(** The server the command line asks for *)
Definition make_server (args : argsS) : option IpcServer :=
  match UnixSocket args, TcpPort args with
  | Some path, _ => Some (UdsServer (NewUdsIpcServer path))
  | None, Some p => Some (InetServer (NewInetIpcServer p))
  | None, None => None
  end.

(** The last part of [main]: the server of commands *)
Definition serve_commands (args : argsS) (a : Answers) : stM Process (option Z) :=
  match make_server args with
  | None => mret None
  | Some server =>
     set_server server;;
     listening ← try_ (on_server (uds_Launch (a_resolve a) (a_listen a)) (inet_Launch (a_listen a)));
     match listening with
     | inr _ => exit_with (a_drain a) 1
     | inl _ => mret None
     end
  end.

(** [main] up to where it waits for the manager ([None]), or its exit status. *)
Definition main (args : argsS) (a : Answers) : stM Process (option Z) :=
  match arg_error args with
  | Some msg => eprint msg;; exit_with (a_drain a) 1
  | None =>
     initialised ← try_ (on_settings (InitSettings (a_prefs a)
                                        (mkParams None None (ArgTempDir args) None)));
     match initialised with
     | inr _ => mret (Some 1%Z)
     | inl _ =>
        s ← getS;
        if DebugFlag args then print (PrintPaths (gSettings s));; mret (Some 0%Z)
        else
          match a_user a with
          | Ret gUser =>
             jm ← liftS (NewJobManager lib_error_text (a_inp0 a) (JobfilePath args) gUser (a_outside a));
             set_manager jm;;
             launched ← try_ (on_gJobManager (Launch lib_error_text (a_inp a)));
             match launched with
             | inr _ => exit_with (a_drain a) 1
             | inl _ => serve_commands args a
             end
          | _ => exit_with (a_drain a) 1
          end
     end
  end.

(** ** What [main] and [quit] do *)

(** A process that has just begun *)
Definition fresh (p : Process) : Prop := gIpcServer p = None ∧ gJobManager p = None.

Lemma quit_fresh evs code p : fresh p → exit_with evs code p = (Ret (Some code), p).
Proof.
  intros [H1 H2]. unfold exit_with, quit. rewrite stM_bind_eq, getS_bind, H1, stM_bind_eq.
  cbn [mret stM_ret]. by rewrite getS_bind, H2.
Qed.

(** A runner that is started wrongly ends with status 1 and has not touched anything.
    A faulty command line is reported by its first fault; and without a preferences
    file that can be read and is accepted the runner ends as well. *)
Theorem main_refuses args a p :
  fresh p →
  (∀ msg, arg_error args = Some msg →
     main args a p = (Ret (Some 1%Z), mkProcess None None (gSettings p) (sockets p) (out p) (err_out p ++ msg))) ∧
  (arg_error args = None → fails (a_prefs a (path_Join (setting_get (setting_clear (gEtcDir (gSettings p)))).1
                                               gPrefsFileName) ≫= _loadPrefs) →
   ∃ g, main args a p = (Ret (Some 1%Z), mkProcess None None g (sockets p) (out p) (err_out p))).
Proof.
  intros Hp. split.
  - intros msg E. unfold main. rewrite E. unfold eprint. rewrite modifyS_bind, quit_fresh by apply Hp.
    destruct Hp as [H1 H2]. by rewrite H1, H2.
  - intros E [e He]. unfold main. rewrite E. destruct Hp as [H1 H2].
    unfold try_, on_settings. rewrite stM_bind_eq, InitSettings_eq.
    cbn [ParamEtcDir choose] in *. rewrite He. rewrite H1, H2. by eexists.
Qed.

(** The first steps of [main], when they go well *)
Lemma main_launched args a p g u m0 m :
  fresh p → arg_error args = None →
  InitSettings (a_prefs a) (mkParams None None (ArgTempDir args) None) (gSettings p) = (Ret tt, g) →
  DebugFlag args = false → a_user a = Ret u →
  NewJobManager lib_error_text (a_inp0 a) (JobfilePath args) u (a_outside a) = Ret m0 →
  Launch lib_error_text (a_inp a) m0 = (Ret tt, m) →
  main args a p =
  serve_commands args a (mkProcess None (Some m) g (sockets p) (out p) (err_out p)).
Proof.
  intros [H1 H2] Harg Hset Hdebug Huser Hnew Hlaunch. unfold main. rewrite Harg.
  assert (E1 : try_ (on_settings (InitSettings (a_prefs a) (mkParams None None (ArgTempDir args) None))) p =
               (Ret (inl tt), mkProcess None None g (sockets p) (out p) (err_out p))).
  { unfold try_, on_settings. by rewrite Hset, H1, H2. }
  rewrite (stM_bind_Ret _ _ _ _ _ E1), getS_bind, Hdebug, Huser.
  unfold liftS. rewrite stM_bind_eq, Hnew. unfold set_manager. rewrite modifyS_bind.
  set (p1 := mkProcess _ _ _ _ _ _).
  assert (E2 : try_ (on_gJobManager (Launch lib_error_text (a_inp a))) p1 =
               (Ret (inl tt), mkProcess None (Some m) g (sockets p) (out p) (err_out p))).
  { unfold try_, on_gJobManager. subst p1. cbn [gJobManager]. by rewrite Hlaunch. }
  by rewrite (stM_bind_Ret _ _ _ _ _ E2).
Qed.

Lemma exit_with_status evs code p p' o :
  exit_with evs code p = (Ret o, p') → o = Some code.
Proof.
  unfold exit_with, quit. rewrite stM_bind_eq, getS_bind, stM_bind_eq.
  destruct (_ p) as [[[]|e|msg|] p1]; [|done..]. rewrite getS_bind, stM_bind_eq.
  destruct (_ p1) as [[[]|e|msg|] p2]; [|done..]. by intros [= <- _].
Qed.

(** When [main] waits, all its steps have gone well. *)
Lemma main_inv args a p p' :
  fresh p → main args a p = (Ret None, p') →
  arg_error args = None ∧
  ∃ g u m0 m,
    InitSettings (a_prefs a) (mkParams None None (ArgTempDir args) None) (gSettings p) = (Ret tt, g) ∧
    DebugFlag args = false ∧ a_user a = Ret u ∧
    NewJobManager lib_error_text (a_inp0 a) (JobfilePath args) u (a_outside a) = Ret m0 ∧
    Launch lib_error_text (a_inp a) m0 = (Ret tt, m) ∧
    serve_commands args a (mkProcess None (Some m) g (sockets p) (out p) (err_out p)) = (Ret None, p').
Proof.
  intros [Hs Hm]. unfold main.
  destruct (arg_error args); [unfold eprint; rewrite modifyS_bind; by intros [=]%exit_with_status|].
  rewrite stM_bind_eq. unfold try_ at 1, on_settings at 1.
  destruct (InitSettings _ _ (gSettings p)) as [[[]|e|msg|] g] eqn:Hg; [|done..].
  rewrite getS_bind. destruct (DebugFlag args) eqn:Hd; [done|].
  destruct (a_user a) as [u|e|msg|] eqn:Hu; [|by intros [=]%exit_with_status..].
  unfold liftS at 1. rewrite stM_bind_eq.
  destruct (NewJobManager _ _ _ _ _) as [m0|e|msg|] eqn:Hnew; [|done..].
  unfold set_manager. rewrite modifyS_bind, stM_bind_eq. unfold try_ at 1, on_gJobManager at 1. cbn [gJobManager].
  destruct (Launch lib_error_text (a_inp a) m0) as [[[]|e|msg|] m] eqn:Hl; [|intros [=]%exit_with_status|done..].
  rewrite Hs. intros E. split; [done|]. by exists g, u, m0, m.
Qed.


(** [quit] leaves nothing running: when it gets through, the exit status is the one it
    was given, the server no longer listens and its socket is gone, and the
    job-runner thread of the manager has stopped and its records have been handled.
    Unless the server never listened on its TCP port, it does not fail. *)
Theorem quit_correct evs code p :
  match gJobManager p with Some m => mgr_ok m | None => True end →
  match gIpcServer p with Some (InetServer srv) => inet_listener srv ≠ NoListener | _ => True end →
  match quit evs code p with
  | (Ret status, p') =>
     status = code ∧
     match gJobManager p' with
     | Some m => mgr_ok m ∧ Running_ (jobRunner m) = false ∧ chan_is_closed (jobRunner m) = true
     | None => gJobManager p = None
     end ∧
     match gIpcServer p' with
     | Some (UdsServer srv) => uds_listener srv ≠ Listening ∧ sockPath srv ∉ sockets p'
     | Some (InetServer srv) => inet_listener srv = ListenerClosed
     | None => gIpcServer p = None
     end
  | (Fail _, _) => False
  | _ => gJobManager p ≠ None
  end.
Proof.
  intros Hm Hs. unfold quit. rewrite getS_bind.
  assert (Hstop : ∃ p1,
    (match gIpcServer p with None => mret tt | Some _ => on_server uds_Stop inet_Stop end) p = (Ret tt, p1) ∧
    gJobManager p1 = gJobManager p ∧
    match gIpcServer p1 with
    | Some (UdsServer srv) => uds_listener srv ≠ Listening ∧ sockPath srv ∉ sockets p1
    | Some (InetServer srv) => inet_listener srv = ListenerClosed
    | None => gIpcServer p = None
    end).
  { destruct (gIpcServer p) as [[srv|srv]|] eqn:E.
    - unfold on_server. rewrite E. eexists. split; [reflexivity|]. split; [done|].
      cbn. split; [by destruct (uds_listener srv)|]. destruct srv. cbn. set_solver.
    - unfold on_server. rewrite E. unfold inet_Stop. rewrite getS_bind.
      destruct (inet_listener srv) eqn:El; [done|..]; (eexists; split; [reflexivity|]; done).
    - exists p. split; [done|]. split; [done|]. by rewrite E. }
  destruct Hstop as (p1 & E1 & Hj & Hsrv). rewrite stM_bind_eq, E1, getS_bind, Hj.
  destruct (gJobManager p) as [m|] eqn:Em.
  - unfold on_gJobManager. rewrite stM_bind_eq, Hj. pose proof (stop_spec lib_error_text evs m Hm) as Hst.
    unfold shut_down. destruct ((cancel_runner;; _) m) as [[[]|e|msg|] m1]; [|done..].
    split; [done|]. split; [|exact Hsrv]. destruct Hst as (Hok & Hc & Hr & _). done.
  - rewrite stM_bind_eq. cbn. rewrite Hj. done.
Qed.

End Main.

(** ** A runner that is started *)

#[local] Existing Instances UTC exact_fraction exact_fraction_ok FileRunLogFacts.example_temp
  TimeSpecParse.no_text first_rand first_rand_ok example_yaml example_yaml_ok example_doc.
#[local] Instance empty_prefs_yaml : PrefsYaml := λ _, Ret no_prefs.

Definition example_process : Process :=
  mkProcess None None (initial_settings "/tmp" "/etc") ∅ [] [].

(** Its TCP port is in use. *)
Definition example_args : argsS := mkArgs None None (Some 7000%Z) None "/home/bob/.jobber" false.
Definition no_jobfile : argsS := mkArgs None (Some ("cmd.sock" : bytes)) None None [] false.

Definition example_answers : Answers := mkAnswers (λ _, Ret []) (Ret example_user) example_outside
  (example_inputs no_file) (example_inputs no_file) (λ _, Ret tt) (λ _, Fail (OsError EIO)) [].

Lemma main_refuses_witness :
  main no_error_text no_jobfile example_answers example_process =
  (Ret (Some 1%Z), mkProcess None None (initial_settings "/tmp" "/etc") ∅ [] "Jobfile path cannot be empty").
Proof.
  exact (proj1 (main_refuses no_error_text no_jobfile example_answers example_process (conj eq_refl eq_refl))
           ("Jobfile path cannot be empty" : bytes) eq_refl).
Defined.


(** The runner of [example_set], with a socket for commands *)
Definition example_serving : Process :=
  mkProcess (Some (UdsServer (mkUds IpcServerTypeUds Listening "cmd.sock"))) (Some example_set)
    (initial_settings "/tmp" "/etc") {["cmd.sock" : bytes]} [] [].

Lemma quit_correct_witness :
  ∃ p' srv m, quit no_error_text [TPop 5 0 0 [Cancelled]] 0 example_serving = (Ret 0%Z, p') ∧
    gIpcServer p' = Some (UdsServer srv) ∧ sockPath srv ∉ sockets p' ∧
    gJobManager p' = Some m ∧ Running_ (jobRunner m) = false.
Proof.
  pose proof (quit_correct no_error_text [TPop 5 0 0 [Cancelled]] 0 example_serving
                (proj1 (reachable_alive _ _ example_set_reachable)) I) as P.
  destruct (quit no_error_text [TPop 5 0 0 [Cancelled]] 0 example_serving)
    as [[status|e|msg|] p'] eqn:E; [|exfalso; vm_compute in E; discriminate..].
  destruct P as (-> & Hm & Hs).
  destruct (gIpcServer p') as [[srv|srv]|] eqn:Es; [|exfalso..].
  - destruct (gJobManager p') as [m|] eqn:Em; [|discriminate Hm].
    exists p', srv, m. split; [reflexivity|]. split; [exact Es|]. split; [exact (proj2 Hs)|].
    split; [exact Em|exact (proj1 (proj2 Hm))].
  - vm_compute in E. injection E as <-. vm_compute in Es. discriminate.
  - vm_compute in E. injection E as <-. vm_compute in Es. discriminate.
Defined.
