(* ===== verification/RunnerProcess.v ===== *)
(** * The process of a runner ([jobberrunner/main.go])

    When [main] waits for the manager ([RunnerMain.main]), up to two other goroutines
    wait as well: [quitOnSignal], and [quitOnJobbermasterDiscon] if there is a quit
    socket.  Each of the three calls [quit] in the end, so that up to three calls of
    [quit] run at the same time, beside the runner itself (Runner.v).  A call of [quit]
    has four steps: it stops the server of commands, cancels the context of the manager,
    waits for the main loop to end, and ends the process.  [proc_reachable] is what any
    interleaving of these leads to. *)

From S2P Require Import Prelude GoStrings Calendar SemVer TimeSpec TimeSpecParse GoPath Job JobQueue.
From S2P Require Import RunLog MemRunLog Durations FileSys FileRunLog FileRunLogFacts.
From S2P Require Import RunRecServer ResultSink JobFile JobRunner JobManager JobManagerFacts.
From S2P Require Import CommandFacts ManagerExamples IpcServer TestJob Settings RunnerMain Runner.

Open Scope nat_scope.
Open Scope bytes_scope.
Open Scope list_scope.

(** ** State and events *)

(** A goroutine of [main.go]: it has not called [quit] yet, or it is in front of this
    step of a call of [quit], with the exit status it gives. *)
Inductive routine :=
| Blocked
| AtStop (exitCode : Z)
| AtCancel (exitCode : Z)
| AtWait (exitCode : Z)
| AtExit (exitCode : Z).

(** [quitOnJobbermasterDiscon]: the status it quits with.  It dials the quit socket, and
    once it is connected it reads until the master closes the connection. *)
Definition quitOnJobbermasterDiscon (resolved dialled : outcome unit) : Z :=
  match resolved with
  | Fail _ => 1
  | _ => match dialled with Fail _ => 1 | _ => 0 end
  end.

(** [PMain]: [gJobManager.Wait] returns in [main].  [PSignal]: a signal arrives.
    [PDiscon]: the quit socket cannot be reached, or is closed.  [PStep i]: goroutine
    [i] gets through a step of its call of [quit]. *)
Inductive proc_event :=
| PRunner (ev : runner_event)
| PMain
| PSignal
| PDiscon (resolved dialled : outcome unit)
| PStep (i : nat).

Definition is_RCancel (ev : runner_event) : bool := match ev with RCancel _ => true | _ => false end.

#[local] Abbreviation main_goroutine := 0.
#[local] Abbreviation signal_goroutine := 1.
#[local] Abbreviation discon_goroutine := 2.

Section Process.
Context `{HL : Location} `{HF : FloatFraction} `{HT : TempNames} (lib_error_text : error → bytes).
Context `{HYE : YaccErrors} `{R : Rand} `{HYaml : Yaml} `{HDoc : YamlDoc} `{HP : PrefsYaml}.

Abbreviation Manager := (JobManager (R:=R)).

(** [ctx_done]: the context of the manager has been cancelled. *)
Record Proc := mkProc {
  ipc_server : option IpcServer;
  socket_files : gset bytes;
  runner : Runner (R:=R);
  ctx_done : bool;
  routines : list routine;
  exited : option Z
}.

Definition ended (s : Proc) : bool := match main_phase (runner s) with Ended => true | _ => false end.

Definition on_runner {A} (m : stM Runner A) : stM Proc A := λ s,
  let '(r, rn) := m (runner s) in
  (r, mkProc (ipc_server s) (socket_files s) rn (ctx_done s) (routines s) (exited s)).
Definition goto (i : nat) (st : routine) : stM Proc unit := modifyS (λ s,
  mkProc (ipc_server s) (socket_files s) (runner s) (ctx_done s) (<[i := st]> (routines s)) (exited s)).

(** [gIpcServer.Stop()], if there is a server *)
Definition stop_server : stM Proc unit := λ s,
  match ipc_server s with
  | None => (Ret tt, s)
  | Some (UdsServer srv) =>
     let '(r, (srv, socks)) := uds_Stop (srv, socket_files s) in
     (r, mkProc (Some (UdsServer srv)) socks (runner s) (ctx_done s) (routines s) (exited s))
  | Some (InetServer srv) =>
     let '(r, srv) := inet_Stop srv in
     (r, mkProc (Some (InetServer srv)) (socket_files s) (runner s) (ctx_done s) (routines s) (exited s))
  end.

(** [gJobManager.Cancel()] *)
Definition cancel_manager : stM Proc unit := modifyS (λ s,
  mkProc (ipc_server s) (socket_files s) (runner s) true (routines s) (exited s)).

(** [os.Exit] *)
Definition os_Exit (code : Z) : stM Proc unit := modifyS (λ s,
  mkProc (ipc_server s) (socket_files s) (runner s) (ctx_done s) (routines s) (Some code)).

(** Goroutine [i] calls [quit]. *)
Definition call_quit (i : nat) (exitCode : Z) : stM Proc unit := λ s,
  match routines s !! i with
  | Some Blocked => goto i (AtStop exitCode) s
  | _ => (Ret tt, s)
  end.

(** The next step of the call of [quit] of goroutine [i] *)
Definition quit_step (i : nat) : stM Proc unit := λ s,
  match routines s !! i with
  | Some (AtStop code) => (stop_server;; goto i (AtCancel code)) s
  | Some (AtCancel code) => (cancel_manager;; goto i (AtWait code)) s
  | Some (AtWait code) => if ended s then goto i (AtExit code) s else (Ret tt, s)
  | Some (AtExit code) => os_Exit code s
  | _ => (Ret tt, s)
  end.

(** An event that cannot happen in a state changes nothing, and nothing happens after
    the end of the process. *)
Definition proc_step (ev : proc_event) : stM Proc unit := λ s,
  match exited s with
  | Some _ => (Ret tt, s)
  | None =>
     match ev with
     | PRunner ev =>
        if is_RCancel ev && negb (ctx_done s) then (Ret tt, s)
        else on_runner (runner_step lib_error_text ev) s
     | PMain => if ended s then call_quit main_goroutine 0 s else (Ret tt, s)
     | PSignal => call_quit signal_goroutine 0 s
     | PDiscon resolved dialled =>
        call_quit discon_goroutine (quitOnJobbermasterDiscon resolved dialled) s
     | PStep i => quit_step i s
     end
  end.

Fixpoint proc_run (evs : list proc_event) : stM Proc unit :=
  match evs with
  | [] => mret tt
  | ev :: evs => proc_step ev;; proc_run evs
  end.

(** The process when [main] waits: [p] is what [main] has made of it. *)
Definition serving (args : argsS) (p : Process (R:=R)) (m : Manager) : Proc :=
  mkProc (gIpcServer p) (sockets p) (new_runner m) false
    ([Blocked; Blocked] ++ match QuitSocket args with Some _ => [Blocked] | None => [] end) None.

Definition answers_ok (a : Answers (R:=R)) : Prop :=
  inputs_ok (a_inp0 a) ∧ inputs_ok (a_inp a) ∧ servers_ok (env (a_outside a)).

Inductive proc_reachable : Proc → Prop :=
| proc_new args a p p' m :
    fresh p → answers_ok a → main lib_error_text args a p = (Ret None, p') →
    gJobManager p' = Some m → proc_reachable (serving args p' m)
| proc_next s ev s' :
    proc_reachable s →
    match ev with PRunner ev => runner_possible ev (runner s) | _ => True end →
    proc_step ev s = (Ret tt, s') → proc_reachable s'.


(** ** What [main] leads to *)

(** A TCP server has a listener. *)
Definition server_ready (server : option IpcServer) : Prop :=
  match server with Some (InetServer srv) => inet_listener srv ≠ NoListener | _ => True end.

Definition server_stopped (s : Proc) : Prop :=
  match ipc_server s with
  | Some (UdsServer srv) => uds_listener srv ≠ Listening ∧ sockPath srv ∉ socket_files s
  | Some (InetServer srv) => inet_listener srv = ListenerClosed
  | None => True
  end.

(** The last part of [main]: the server of commands *)
Lemma main_listens args a (p p' : Process (R:=R)) :
  gIpcServer p = None →
  serve_commands lib_error_text args a p = (Ret None, p') →
  gJobManager p' = gJobManager p ∧ server_ready (gIpcServer p').
Proof.
  intros Hno. unfold serve_commands. destruct (make_server args) as [server|]; [|intros [= <-]; by rewrite Hno].
  unfold set_server. rewrite modifyS_bind, stM_bind_eq. unfold try_, on_server. cbn [gIpcServer].
  destruct server as [srv|srv].
  - destruct (uds_Launch _ _ _) as [[[]|e|msg|] [srv' socks]]; [|intros [=]%exit_with_status|done..].
    by intros [= <-].
  - destruct (inet_Launch _ srv) as [[[]|e|msg|] srv'] eqn:E; [|intros [=]%exit_with_status|done..].
    intros [= <-]. split; [done|]. cbn. revert E. unfold inet_Launch. rewrite getS_bind.
    destruct (a_listen a _) as [[]|e|msg|]; by intros [= <-].
Qed.

(** When [main] waits there is a manager in a reachable state, and its server is one
    that can be stopped. *)
Lemma main_serves args a (p p' : Process (R:=R)) :
  fresh p → answers_ok a → main lib_error_text args a p = (Ret None, p') →
  ∃ m, gJobManager p' = Some m ∧ reachable lib_error_text m ∧ server_ready (gIpcServer p').
Proof.
  intros Hp (Hin0 & Hin & Hout) E.
  destruct (main_inv _ _ _ _ _ Hp E) as (_ & g & u & m0 & m & _ & _ & _ & Hnew & Hl & E').
  apply main_listens in E' as [Ej Hr]; [|done]. exists m. cbn in Ej. split; [done|].
  split; [|done]. by eapply (reachable_launch lib_error_text (a_inp0 a) (a_inp a)).
Qed.

(** ** The invariant of the process *)

(** How far a call of [quit] has got, and its status *)
Definition rank (st : routine) : nat :=
  match st with Blocked => 0 | AtStop _ => 1 | AtCancel _ => 2 | AtWait _ => 3 | AtExit _ => 4 end.
Definition status_of (st : routine) : option Z :=
  match st with Blocked => None | AtStop c | AtCancel c | AtWait c | AtExit c => Some c end.

(** Only the goroutine of the quit socket quits with status 1. *)
Definition status_ok (i : nat) (c : Z) : Prop := c = 0%Z ∨ (i = discon_goroutine ∧ c = 1%Z).

Definition routine_ok (s : Proc) (i : nat) (st : routine) : Prop :=
  (∀ c, status_of st = Some c → status_ok i c) ∧
  (2 ≤ rank st → server_stopped s) ∧
  (3 ≤ rank st → ctx_done s = true) ∧
  (4 ≤ rank st → main_phase (runner s) = Ended).

Definition proc_ok (s : Proc) : Prop :=
  runner_reachable lib_error_text (runner s) ∧ server_ready (ipc_server s) ∧
  (∀ i st, routines s !! i = Some st → routine_ok s i st) ∧
  (ctx_done s = true → ∃ i st, routines s !! i = Some st ∧ 3 ≤ rank st) ∧
  (main_phase (runner s) ≠ Looping → ctx_done s = true) ∧
  (∀ c, exited s = Some c → ∃ i, routines s !! i = Some (AtExit c)).

(** What steps never undo *)
Definition grows (s s' : Proc) : Prop :=
  (server_stopped s → server_stopped s') ∧ (ctx_done s = true → ctx_done s' = true) ∧
  (main_phase (runner s) = Ended → main_phase (runner s') = Ended).

Lemma routine_ok_grows s s' i st : grows s s' → routine_ok s i st → routine_ok s' i st.
Proof.
  intros (Hg1 & Hg2 & Hg3) (H1 & H2 & H3 & H4). split; [done|]. split; [|split]; intros Hrk.
  - by apply Hg1, H2, Hrk.
  - by apply Hg2, H3, Hrk.
  - by apply Hg3, H4, Hrk.
Qed.

#[local] Ltac parts := unfold grows, routine_ok, proc_ok; split_and!.

(** A goroutine moves on. *)
Lemma proc_ok_goto s s' i st st' :
  proc_ok s → exited s = None → routines s !! i = Some st → rank st ≤ rank st' →
  grows s s' → runner s' = runner s → server_ready (ipc_server s') →
  routines s' = <[i := st']> (routines s) → exited s' = None → routine_ok s' i st' →
  (ctx_done s' = true → ctx_done s = true ∨ 3 ≤ rank st') → proc_ok s'.
Proof.
  intros (Hr & Hs & Hrs & Hc & Hp & _) Hx Hi Hrk Hg Er Hs' Ers Ex Hok Hc'.
  unfold proc_ok. rewrite Er, Ers, Ex. pose proof Hg as (_ & Hg2 & _).
  split; [done|]. split; [done|]. split; [|split; [|split; [auto|done]]].
  - intros j stj. destruct (decide (j = i)) as [->|].
    + rewrite list_lookup_insert_eq by (by eapply lookup_lt_Some). by intros [= <-].
    + rewrite list_lookup_insert_ne by done. intros Hj. eapply routine_ok_grows; [done|by apply Hrs].
  - assert (Hi' : <[i := st']> (routines s) !! i = Some st')
      by (apply list_lookup_insert_eq; by eapply lookup_lt_Some).
    intros [(j & stj & Hj & Hjr)%Hc|]%Hc'; [|by exists i, st']. destruct (decide (j = i)) as [->|].
    + exists i, st'. split; [done|]. assert (stj = st) as -> by congruence. lia.
    + exists j, stj. by rewrite list_lookup_insert_ne.
Qed.

Lemma call_quit_ok i c s s' :
  proc_ok s → exited s = None → status_ok i c → call_quit i c s = (Ret tt, s') → proc_ok s'.
Proof.
  intros Hok Hx Hc. unfold call_quit. destruct (routines s !! i) as [[]|] eqn:Hi; try (by intros [= <-]).
  intros [= <-]. pose proof Hok as (_ & Hs & _).
  eapply (proc_ok_goto s _ i Blocked (AtStop c)); try done; cbn; [lia|..].
  - parts; cbn; [|lia..]. by intros ? [= <-].
  - by intros ?; left.
Qed.

(** Stopping the server always succeeds and can be repeated. *)
Lemma stop_server_spec s :
  server_ready (ipc_server s) →
  ∃ srv socks, let s' := mkProc srv socks (runner s) (ctx_done s) (routines s) (exited s) in
    stop_server s = (Ret tt, s') ∧ server_stopped s' ∧ server_ready srv.
Proof.
  intros Hr. unfold stop_server, server_stopped. destruct s as [[[srv|srv]|] socks rn c rs ex]; cbn in *.
  - eexists _, _. split; [reflexivity|]. cbn. split; [|done]. split; [by destruct (uds_listener srv)|set_solver].
  - unfold inet_Stop. rewrite getS_bind. destruct (inet_listener srv); [done|..];
      (eexists _, _; split; [reflexivity|done]).
  - by eexists _, _.
Qed.

Lemma quit_step_ok i s s' :
  proc_ok s → exited s = None → quit_step i s = (Ret tt, s') → proc_ok s'.
Proof.
  intros Hok Hx. pose proof Hok as (Hr & Hs & Hrs & Hc & Hp & _). unfold quit_step.
  destruct (routines s !! i) as [[|c|c|c|c]|] eqn:Hi; try (by intros [= <-]);
    destruct (Hrs _ _ Hi) as (H1 & H2 & H3 & H4); cbn [rank status_of] in *.
  - destruct (stop_server_spec s Hs) as (srv & socks & E & Hst & Hrd). rewrite (stM_bind_Ret _ _ _ _ _ E).
    intros [= <-]. eapply (proc_ok_goto s _ i (AtStop c) (AtCancel c)); try done; cbn; [lia|..].
    + parts; cbn; [done|done|lia..].
    + by intros ?; left.
  - unfold cancel_manager. rewrite modifyS_bind. intros [= <-].
    eapply (proc_ok_goto s _ i (AtCancel c) (AtWait c)); try done; cbn; [lia|..].
    + parts; cbn; [done|intros _; apply H2; lia|done|lia].
    + right. lia.
  - destruct (ended s) eqn:He; [|by intros [= <-]]. intros [= <-].
    eapply (proc_ok_goto s _ i (AtWait c) (AtExit c)); try done; cbn; [lia|..].
    + parts; cbn; [done|intros _; apply H2; lia|intros _; apply H3; lia|].
      intros _. unfold ended in He. by destruct (main_phase (runner s)).
    + by intros ?; left.
  - intros [= <-]. parts; try done; cbn. intros c' [= <-]. by exists i.
Qed.

Lemma on_runner_ok ev s s' :
  proc_ok s → exited s = None → runner_possible ev (runner s) →
  is_RCancel ev && negb (ctx_done s) = false →
  on_runner (runner_step lib_error_text ev) s = (Ret tt, s') → proc_ok s'.
Proof.
  intros (Hr & Hs & Hrs & Hc & Hp & _) Hx Hposs Hcan. unfold on_runner.
  destruct (runner_step _ ev (runner s)) as [r rn] eqn:E. intros [= -> <-].
  pose proof (runner_step_phase _ _ _ _ E) as Hph.
  split; [by eapply runner_next|]. split; [done|]. cbn. split; [|split; [done|split; [|by rewrite Hx]]].
  - intros i st Hi. eapply routine_ok_grows, Hrs, Hi. parts; cbn; [done|done|].
    intros He. destruct Hph as [->|[(? & _)|(? & _)]]; congruence.
  - destruct Hph as [->|[(_ & _ & evs & ->)|(Hw & _)]]; [done| |].
    + cbn in Hcan. by destruct (ctx_done s).
    + intros _. apply Hp. congruence.
Qed.

Lemma proc_step_ok ev s s' :
  proc_ok s → match ev with PRunner ev => runner_possible ev (runner s) | _ => True end →
  proc_step ev s = (Ret tt, s') → proc_ok s'.
Proof.
  intros Hok Hposs. unfold proc_step. destruct (exited s) eqn:Hx; [by intros [= <-]|].
  destruct ev as [ev| | |resolved dialled|i].
  - destruct (_ && _) eqn:Hc; [by intros [= <-]|]. by apply on_runner_ok.
  - destruct (ended s); [|by intros [= <-]]. apply call_quit_ok; [done..|]. by left.
  - apply call_quit_ok; [done..|]. by left.
  - apply call_quit_ok; [done..|]. unfold quitOnJobbermasterDiscon.
    destruct resolved, dialled; first [by left|by right].
  - by apply quit_step_ok.
Qed.

Lemma serving_ok args p m :
  reachable lib_error_text m → server_ready (gIpcServer p) → proc_ok (serving args p m).
Proof.
  intros Hm Hs. unfold serving. split; [by constructor|]. split; [done|].
  split; [|split; [done|split; [done|done]]]. cbn. intros i st Hi.
  assert (st = Blocked) as ->.
  { destruct i as [|[|i]]; cbn in Hi; [congruence..|]. destruct (QuitSocket args); [|done].
    destruct i; cbn in Hi; [congruence|done]. }
  parts; cbn; [done|lia..].
Qed.

Lemma proc_reachable_ok s : proc_reachable s → proc_ok s.
Proof.
  induction 1 as [args a p p' m Hp Ha E Hm|s ev s' _ IH Hposs E]; [|by eapply proc_step_ok].
  destruct (main_serves _ _ _ _ Hp Ha E) as (m' & Hm' & Hr & Hs).
  assert (m' = m) as -> by congruence. by apply serving_ok.
Qed.


(** A run in which no call is served *)
Definition serves_nothing (ev : proc_event) : Prop :=
  match ev with PRunner (RServe _ _ _ _ _) => False | _ => True end.

Lemma proc_run_reachable evs s s' :
  proc_reachable s → Forall serves_nothing evs → proc_run evs s = (Ret tt, s') → proc_reachable s'.
Proof.
  intros Hs He. revert s Hs. induction He as [|ev evs Hev _ IH]; intros s Hs; cbn [proc_run].
  - by intros [= <-].
  - rewrite stM_bind_eq. destruct (proc_step ev s) as [[[]|e|msg|] s1] eqn:E; [|done..].
    apply IH. apply (proc_next s ev); [done| |done]. by destruct ev as [[]| | | |].
Qed.

(** ** What the calls of [quit] do together *)

(** C31: However the goroutines of a runner interleave: once the process has ended with a
    status, it serves commands no more and its socket is gone; the main loop has ended,
    and with it the job-runner thread and every test job; and the status is 0, unless
    the quit socket could not be reached.  The main loop never ends by itself. *)
Theorem process_exit `{!RandOk R} s :
  proc_reachable s →
  (main_phase (runner s) ≠ Looping → ∃ i st, routines s !! i = Some st ∧ 3 ≤ rank st) ∧
  ∀ status, exited s = Some status →
    server_stopped s ∧ main_phase (runner s) = Ended ∧
    (let m := manager (system (runner s)) in
     mgr_ok m ∧ Running_ (jobRunner m) = false ∧ runs (jobRunner m) = [] ∧ waiting (jobRunner m) = []) ∧
    Forall (λ t, state t = Exiting) (threads (tests (runner s))) ∧
    (status = 0%Z ∨ status = 1%Z ∧ routines s !! discon_goroutine = Some (AtExit 1)).
Proof.
  intros (Hr & _ & Hrs & Hc & Hp & Hx)%proc_reachable_ok. split; [auto|].
  intros status (i & Hi)%Hx. destruct (Hrs _ _ Hi) as (H1 & H2 & _ & H4).
  assert (He : main_phase (runner s) = Ended) by (apply H4; cbn; lia).
  pose proof (runner_reachable_ok lib_error_text _ Hr) as (Hm & Hph & Ht & Hw). rewrite He in Hph.
  destruct Hph as [Hrun Hcl]. split; [apply H2; cbn; lia|]. split; [done|].
  unfold chan_is_closed in Hcl. apply andb_prop in Hcl as [[_ Hr0%bool_decide_eq_true]%andb_prop Hw0%bool_decide_eq_true].
  split; [done|]. split.
  - apply (server_ok_facts _ (server_reachable_ok _ _ Ht)). by apply Hw.
  - destruct (H1 status eq_refl) as [->|[-> ->]]; [by left|by right].
Qed.

(** Calls of [quit] do not get in each other's way: nothing but the runner itself can
    make the process fail. *)
Theorem quit_never_panics s ev :
  proc_reachable s →
  match ev with
  | PRunner ev => (proc_step (PRunner ev) s).1 = Ret tt ∨
                  (proc_step (PRunner ev) s).1 = (runner_step lib_error_text ev (runner s)).1
  | _ => (proc_step ev s).1 = Ret tt
  end.
Proof.
  intros (_ & Hs & _)%proc_reachable_ok. unfold proc_step, call_quit, quit_step.
  destruct (exited s); [destruct ev; [by left|done..]|].
  destruct ev as [ev| | |resolved dialled|i].
  - destruct (_ && _); [by left|right]. unfold on_runner. by destruct (runner_step _ _ _).
  - destruct (ended s); [|done]. by destruct (routines s !! 0) as [[]|].
  - by destruct (routines s !! 1) as [[]|].
  - by destruct (routines s !! 2) as [[]|].
  - destruct (routines s !! i) as [[|c|c|c|c]|]; try done; [|by destruct (ended s)].
    destruct (stop_server_spec s Hs) as (srv & socks & E & _). by rewrite (stM_bind_Ret _ _ _ _ _ E).
Qed.


(** *** The end of the process *)

(** Steps of goroutine [i], and of the runner towards its end *)
Definition towards_end (i : nat) (ev : proc_event) : Prop :=
  match ev with
  | PStep j => j = i
  | PRunner (RCancel _ | REnd | RTest _ GaveUp) => True
  | _ => False
  end.

Definition leads (i : nat) (s s' : Proc) : Prop :=
  ∃ evs, Forall (towards_end i) evs ∧ proc_run evs s = (Ret tt, s').

Lemma proc_run_app t1 t2 s : proc_run (t1 ++ t2) s = (proc_run t1;; proc_run t2) s.
Proof.
  revert s. induction t1 as [|ev t1 IH]; intros s; cbn [app proc_run]; [by rewrite stM_bind_eq|].
  rewrite !stM_bind_eq. destruct (proc_step ev s) as [[[]|e|msg|] s1]; [|done..].
  by rewrite IH, stM_bind_eq.
Qed.

#[export] Instance leads_preorder i : PreOrder (leads i).
Proof.
  split.
  - intros s. by exists [].
  - intros s1 s2 s3 (t1 & H1 & E1) (t2 & H2 & E2). exists (t1 ++ t2). split; [by apply Forall_app|].
    by rewrite proc_run_app, stM_bind_eq, E1.
Qed.

Lemma leads_step i ev s s' : towards_end i ev → proc_step ev s = (Ret tt, s') → leads i s s'.
Proof.
  intros He E. exists [ev]. split; [by repeat constructor|]. cbn [proc_run]. by rewrite stM_bind_eq, E.
Qed.

(** The steps of the runner alone *)
Lemma leads_runner i evs s rn :
  exited s = None → Forall (λ ev, ev = REnd ∨ ∃ j, ev = RTest j GaveUp) evs →
  runner_run lib_error_text evs (runner s) = (Ret tt, rn) →
  leads i s (mkProc (ipc_server s) (socket_files s) rn (ctx_done s) (routines s) None).
Proof.
  intros Hx He. revert s Hx. induction He as [|ev evs Hev _ IH]; intros s Hx.
  - intros [= <-]. destruct s. cbn in Hx. subst. done.
  - cbn [runner_run]. rewrite stM_bind_eq.
    destruct (runner_step lib_error_text ev (runner s)) as [[[]|e|msg|] rn1] eqn:E; [|done..]. intros Hrun.
    etrans; [|apply (IH (mkProc _ _ rn1 _ _ None) eq_refl Hrun)].
    apply (leads_step i (PRunner ev)); [by destruct Hev as [->|[j ->]]|].
    unfold proc_step, on_runner. rewrite Hx, E.
    destruct s. cbn in Hx. subst. by destruct Hev as [->|[j ->]].
Qed.

(** Once it is called, [quit] gets to its wait. *)
Lemma leads_to_wait i s st code :
  server_ready (ipc_server s) → exited s = None → routines s !! i = Some st → status_of st = Some code →
  ∃ st' s', leads i s s' ∧ exited s' = None ∧ runner s' = runner s ∧ routines s' !! i = Some st' ∧
    status_of st' = Some code ∧ 3 ≤ rank st' ∧ (rank st < 3 → ctx_done s' = true) ∧
    (ctx_done s = true → ctx_done s' = true).
Proof.
  intros Hs Hx Hi Hc.
  assert (Hset : ∀ {x}, <[i := x]> (routines s) !! i = Some x)
    by (intros x; apply list_lookup_insert_eq; by eapply lookup_lt_Some).
  assert (Hcancel : ∀ s1, exited s1 = None → runner s1 = runner s → length (routines s1) = length (routines s) →
    routines s1 !! i = Some (AtCancel code) → ∃ s', leads i s1 s' ∧ exited s' = None ∧ runner s' = runner s ∧
      routines s' !! i = Some (AtWait code) ∧ ctx_done s' = true).
  { intros s1 Hx1 Hr1 Hl Hi1. eexists. split; [apply (leads_step i (PStep i)); [done|]|].
    - unfold proc_step, quit_step. rewrite Hx1, Hi1. reflexivity.
    - cbn. split; [done|]. split; [done|]. split; [|done]. apply list_lookup_insert_eq.
      rewrite Hl. by eapply lookup_lt_Some. }
  destruct st as [|c|c|c|c]; [done| | | |]; injection Hc as ->.
  - destruct (stop_server_spec s Hs) as (srv & socks & E & _).
    set (s1 := mkProc srv socks (runner s) (ctx_done s) (<[i := AtCancel code]> (routines s)) (exited s)).
    assert (E1 : proc_step (PStep i) s = (Ret tt, s1)).
    { unfold proc_step, quit_step. rewrite Hx, Hi. by rewrite (stM_bind_Ret _ _ _ _ _ E). }
    destruct (Hcancel s1) as (s' & Hl & Hx' & Hr' & Hi' & Hc'); [done|done|by apply length_insert|apply Hset|].
    exists (AtWait code), s'. split; [etrans; [by apply (leads_step i (PStep i))|done]|]. by repeat split.
  - destruct (Hcancel s) as (s' & Hl & Hx' & Hr' & Hi' & Hc'); [done..|].
    exists (AtWait code), s'. by repeat split.
  - exists (AtWait code), s. repeat split; [done..|cbn; lia|cbn; lia|done].
  - exists (AtExit code), s. repeat split; [done..|cbn; lia|cbn; lia|done].
Qed.

(** With its context cancelled, the main loop gets to its end. *)
Lemma leads_to_end `{!RandOk R} i s :
  runner_reachable lib_error_text (runner s) → exited s = None → ctx_done s = true →
  (main_phase (runner s) = Looping → ∃ evs m,
     shut_down lib_error_text evs (manager (system (runner s))) = (Ret tt, m)) →
  ∃ s', leads i s s' ∧ exited s' = None ∧ main_phase (runner s') = Ended ∧ routines s' = routines s.
Proof.
  intros Hr Hx Hc Hsd.
  assert (Hwait : ∀ s1, runner_reachable lib_error_text (runner s1) → exited s1 = None →
    main_phase (runner s1) = Waiting →
    ∃ s', leads i s1 s' ∧ exited s' = None ∧ main_phase (runner s') = Ended ∧ routines s' = routines s1).
  { intros s1 Hr1 Hx1 Hp1. destruct (main_loop_ends lib_error_text _ Hr1 Hp1) as (evs & t & He & E & _).
    eexists. split; [by apply (leads_runner i evs)|]. by cbn. }
  destruct (main_phase (runner s)) eqn:Hp; [|by apply Hwait|by exists s].
  destruct (Hsd eq_refl) as (evs & m & E).
  set (rn := mkRunner (mkSystem m (ipc_calls (system (runner s)))) (tests (runner s)) Waiting).
  assert (E1 : runner_step lib_error_text (RCancel evs) (runner s) = (Ret tt, rn)).
  { cbn [runner_step]. rewrite Hp, stM_bind_eq. unfold on_system, on_manager. by rewrite E. }
  set (s1 := mkProc (ipc_server s) (socket_files s) rn (ctx_done s) (routines s) None).
  destruct (Hwait s1) as (s' & Hl & Hs'); [|done..|].
  { by apply (runner_next _ (runner s) (RCancel evs)). }
  exists s'. split; [|done]. etrans; [|exact Hl]. apply (leads_step i (PRunner (RCancel evs))); [done|].
  unfold proc_step, on_runner. rewrite Hx, Hc. cbn [is_RCancel andb negb]. rewrite E1.
  subst s1. by rewrite Hc.
Qed.

(** C40: A call of [quit] ends the process with its own status, if it is not overtaken by
    another: whatever the other goroutines have done, its own steps, and those of the
    runner towards its end, lead there, provided that the records of the runs that are
    left can be handled. *)
Theorem quit_ends `{!RandOk R} s i st code :
  proc_reachable s → exited s = None → routines s !! i = Some st → status_of st = Some code →
  (main_phase (runner s) = Looping → ∃ evs m,
     shut_down lib_error_text evs (manager (system (runner s))) = (Ret tt, m)) →
  ∃ s', leads i s s' ∧ exited s' = Some code.
Proof.
  intros Hreach Hx Hi Hst Hsd. pose proof (proc_reachable_ok _ Hreach) as (Hr & Hs & Hrs & _).
  destruct (leads_to_wait i s st code Hs Hx Hi Hst) as (st1 & s1 & L1 & Hx1 & Er1 & Hi1 & Hst1 & Hrk & Hc1 & Hc1').
  assert (Hdone : ctx_done s1 = true).
  { destruct (decide (rank st < 3)); [auto|]. apply Hc1'. apply (Hrs _ _ Hi). lia. }
  destruct (leads_to_end i s1) as (s2 & L2 & Hx2 & He2 & Ers2); [by rewrite Er1|done..|by rewrite Er1|].
  assert (Hlast : ∀ s3, exited s3 = None → routines s3 !! i = Some (AtExit code) →
    ∃ s', leads i s3 s' ∧ exited s' = Some code).
  { intros s3 Hx3 Hi3. eexists. split; [apply (leads_step i (PStep i)); [done|]|].
    - unfold proc_step, quit_step. rewrite Hx3, Hi3. reflexivity.
    - done. }
  rewrite <- Ers2 in Hi1.
  destruct st1 as [|c|c|c|c]; cbn in Hrk; try lia; injection Hst1 as ->.
  - destruct (Hlast (mkProc (ipc_server s2) (socket_files s2) (runner s2) (ctx_done s2)
                       (<[i := AtExit code]> (routines s2)) (exited s2))) as (s' & L3 & Hs').
    + done.
    + apply list_lookup_insert_eq. by eapply lookup_lt_Some.
    + exists s'. split; [|done]. etrans; [exact L1|]. etrans; [exact L2|]. etrans; [|exact L3].
      apply (leads_step i (PStep i)); [done|]. unfold proc_step, quit_step, ended.
      rewrite Hx2, Hi1, He2. unfold goto, modifyS. by rewrite Hx2.
  - destruct (Hlast s2 Hx2 Hi1) as (s' & L3 & Hs'). exists s'. split; [|done]. etrans; [exact L1|].
    by etrans; [exact L2|].
Qed.

(** A runner that cannot reach its quit socket means to end with status 1; but once the
    main loop has ended, [main] goes on as well and calls [quit(0)], and which of the two
    calls ends the process is left to the scheduler. *)
Theorem discon_status_race s :
  proc_reachable s → exited s = None → main_phase (runner s) = Ended →
  routines s !! discon_goroutine = Some (AtWait 1) → routines s !! main_goroutine = Some Blocked →
  (∃ s0, proc_run [PMain; PStep 0; PStep 0; PStep 0; PStep 0] s = (Ret tt, s0) ∧ exited s0 = Some 0%Z) ∧
  (∃ s1, proc_run [PStep 2; PStep 2] s = (Ret tt, s1) ∧ exited s1 = Some 1%Z).
Proof.
  intros (_ & Hs & _)%proc_reachable_ok Hx He H2 H0.
  destruct s as [srv socks [sys ts ph] c rs ex]. cbn in *. subst ex ph.
  destruct rs as [|r0 [|r1 [|r2 rs]]]; [done..|]. injection H0 as ->. injection H2 as ->. split.
  - destruct srv as [[srv|[ty [] p]]|]; first [eexists; split; reflexivity|by destruct Hs].
  - eexists; split; reflexivity.
Qed.

End Process.

(** ** A runner that cannot reach its quit socket *)

#[local] Existing Instances UTC exact_fraction exact_fraction_ok FileRunLogFacts.example_temp
  TimeSpecParse.no_text first_rand first_rand_ok example_yaml example_yaml_ok example_doc empty_prefs_yaml.

Definition serving_args : argsS :=
  mkArgs (Some ("quit.sock" : bytes)) (Some ("cmd.sock" : bytes)) None None "/home/bob/.jobber" false.

Definition serving_answers : Answers := mkAnswers (λ _, Ret []) (Ret example_user) example_outside
  (example_inputs no_file) (example_inputs no_file) (λ _, Ret tt) (λ _, Ret tt) [].

(** The process when [main] waits *)
Definition example_main : Process := (main no_error_text serving_args serving_answers example_process).2.
Definition example_proc : Proc := serving serving_args example_main ManagerExamples.example_launched.

Lemma example_proc_reachable : proc_reachable no_error_text example_proc.
Proof.
  apply (proc_new no_error_text serving_args serving_answers example_process example_main).
  - by split.
  - split; [apply example_inputs_ok|]. split; [apply example_inputs_ok|apply map_Forall_empty].
  - vm_compute. reflexivity.
  - vm_compute. reflexivity.
Qed.

Definition cannot_dial : proc_event := PDiscon (Ret tt) (Fail (OsError ENOENT)).

(** It calls [quit(1)]; *)
Definition quitting : Proc := (proc_run no_error_text [cannot_dial] example_proc).2.
(** the main loop ends while it waits; *)
Definition loop_ended : Proc := (proc_run no_error_text
  [PStep 2; PStep 2; PRunner (RCancel [TPop 5 0 0 [Cancelled]]); PRunner REnd] quitting).2.
(** and [main] is faster. *)
Definition overtaken : Proc := (proc_run no_error_text
  [PMain; PStep 0; PStep 0; PStep 0; PStep 0] loop_ended).2.

Lemma quitting_reachable : proc_reachable no_error_text quitting.
Proof.
  apply (proc_run_reachable _ [cannot_dial] example_proc _ example_proc_reachable); [by repeat constructor|].
  vm_compute. reflexivity.
Qed.

Lemma loop_ended_reachable : proc_reachable no_error_text loop_ended.
Proof.
  apply (proc_run_reachable _ [PStep 2; PStep 2; PRunner (RCancel [TPop 5 0 0 [Cancelled]]); PRunner REnd]
           quitting _ quitting_reachable); [by repeat constructor|].
  vm_compute. reflexivity.
Qed.

Lemma overtaken_reachable : proc_reachable no_error_text overtaken.
Proof.
  apply (proc_run_reachable _ [PMain; PStep 0; PStep 0; PStep 0; PStep 0] loop_ended _ loop_ended_reachable);
    [by repeat constructor|].
  vm_compute. reflexivity.
Qed.

Lemma process_exit_witness :
  exited overtaken = Some 0%Z ∧ server_stopped overtaken ∧ main_phase (runner overtaken) = Ended ∧
  routines overtaken !! 2 = Some (AtWait 1).
Proof.
  assert (E : exited overtaken = Some 0%Z) by (vm_compute; reflexivity). split; [exact E|].
  destruct (proj2 (process_exit no_error_text overtaken overtaken_reachable) 0%Z E) as (Hs & Hp & _).
  split; [exact Hs|]. split; [exact Hp|]. vm_compute. reflexivity.
Defined.

Lemma quit_never_panics_witness :
  (proc_step no_error_text (PStep 0) overtaken).1 = Ret tt.
Proof. exact (quit_never_panics no_error_text overtaken (PStep 0) overtaken_reachable). Defined.

Lemma quit_ends_witness :
  ∃ s', leads no_error_text 2 quitting s' ∧ exited s' = Some 1%Z.
Proof.
  apply (quit_ends no_error_text quitting 2 (AtStop 1) 1 quitting_reachable).
  - vm_compute. reflexivity.
  - vm_compute. reflexivity.
  - reflexivity.
  - intros _. exists [TPop 5 0 0 [Cancelled]]. eexists. vm_compute. reflexivity.
Defined.

Lemma discon_status_race_witness :
  ∃ s0 s1, exited s0 = Some 0%Z ∧ exited s1 = Some 1%Z ∧
    proc_run no_error_text [PStep 2; PStep 2] loop_ended = (Ret tt, s1) ∧
    proc_run no_error_text [PMain; PStep 0; PStep 0; PStep 0; PStep 0] loop_ended = (Ret tt, s0).
Proof.
  destruct (discon_status_race no_error_text loop_ended loop_ended_reachable) as ((s0 & E0 & H0) & (s1 & E1 & H1)).
  - vm_compute. reflexivity.
  - vm_compute. reflexivity.
  - vm_compute. reflexivity.
  - vm_compute. reflexivity.
  - exists s0, s1. exact (conj H0 (conj H1 (conj E1 E0))).
Defined.
