(* ===== verification/TabWriter.v ===== *)
(** * Text in columns and times in words ([text/tabwriter], [time] of the standard library)

    The parts of the two packages with which the client prints its tables: the
    writer made by [tabwriter.NewWriter(&buffer, 5, 0, 2, ' ', 0)], [time.Format] of
    the two layouts the client uses, and [Duration.Round]. *)

From S2P Require Import Prelude GoStrings Encoding Calendar Glob.

Open Scope nat_scope.
Open Scope bytes_scope.
Open Scope list_scope.

(** ** [tabwriter] *)

Definition minwidth : nat := 5.
Definition padding : nat := 2.

(** [utf8.RuneCount] *)
Fixpoint rune_count_go (fuel : nat) (s : bytes) : nat :=
  match fuel, s with
  | S fuel, _ :: _ => S (rune_count_go fuel (drop (snd (DecodeRune s)) s))
  | _, _ => 0
  end.
Definition RuneCount (s : bytes) : nat := rune_count_go (length s) s.

(** The cells of a text.  Every tab ends a cell, and so does the end of a line; at the end of
    the text there is a last cell only if it is not empty. *)
Definition line_cells (last : bool) (line : bytes) : list bytes :=
  let cells := Split line [tab] in
  if last && bool_decide (list.last cells = Some []) then take (length cells - 1) cells else cells.

Fixpoint text_cells (lines : list bytes) : list (list bytes) :=
  match lines with
  | [] => []
  | [line] => [line_cells true line]
  | line :: lines => line_cells false line :: text_cells lines
  end.

(** A line has column [j] if its cell [j] is not its last one. *)
Definition has_column (j : nat) (cells : list bytes) : bool := bool_decide (S j < length cells).

(** The width of column [j], where [above] and [below] are the lines before, last first, and
    from the line on: that of the widest cell of the lines around that have it. *)
Fixpoint widest (j : nat) (lines : list (list bytes)) : nat :=
  match lines with
  | cells :: lines =>
     if has_column j cells then
       (RuneCount (default [] (cells !! j)) + padding) `max` widest j lines
     else 0
  | [] => 0
  end.
Definition column_width (j : nat) (above below : list (list bytes)) : nat :=
  minwidth `max` (widest j above `max` widest j below).

Definition spaces (n : nat) : bytes := replicate n " "%char.

Fixpoint format_cells (j : nat) (above below : list (list bytes)) (cells : list bytes) : bytes :=
  match cells with
  | [] => []
  | [cell] => cell
  | cell :: cells =>
     cell ++ spaces (column_width j above below - RuneCount cell) ++
     format_cells (S j) above below cells
  end.

Fixpoint format_lines (above below : list (list bytes)) : list bytes :=
  match below with
  | [] => []
  | cells :: rest => format_cells 0 above below cells :: format_lines (cells :: above) rest
  end.

(** What has been written to the buffer after [Flush] *)
Definition tabwriter (text : bytes) : bytes :=
  Join (format_lines [] (text_cells (Split text [newline]))) [newline].

Example tabwriter_ex :
  tabwriter (Join ["A" : bytes; "BB" : bytes; "C" : bytes] [tab] ++ [newline] ++
             Join ["longer" : bytes; "b" : bytes; "c" : bytes] [tab] ++ [newline] ++
             "alone" ++ [newline] ++ Join ["x" : bytes; "y" : bytes; [] : bytes] [tab]) =
  Join ["A       BB   C" : bytes; "longer  b    c" : bytes; "alone" : bytes; "x    y" : bytes] [newline].
Proof. vm_compute. reflexivity. Qed.

(** ** [time] *)

Open Scope Z_scope.

Definition month_abbr (m : Z) : bytes :=
  default [] (["Jan" : bytes; "Feb" : bytes; "Mar" : bytes; "Apr" : bytes; "May" : bytes; "Jun" : bytes;
    "Jul" : bytes; "Aug" : bytes; "Sep" : bytes; "Oct" : bytes; "Nov" : bytes; "Dec" : bytes] !! Z.to_nat (m - 1)).

(** A number with at least [n] characters *)
Definition pad_left (c : ascii) (n : nat) (v : Z) : bytes :=
  let s := digits v in replicate (n - length s) c ++ s.
Definition signed_pad (n : nat) (v : Z) : bytes :=
  if v <? 0 then "-" ++ pad_left "0" n (- v) else pad_left "0" n v.

Section Layouts.
Context `{Location}.

(** "Jan _2 15:04:05" *)
Definition date_and_time (t : Time) : bytes :=
  month_abbr (civil_month (local_day t)) ++ " " ++ pad_left " " 2 (Day t) ++ " " ++
  pad_left "0" 2 (Hour t) ++ ":" ++ pad_left "0" 2 (Minute t) ++ ":" ++ pad_left "0" 2 (Second t).

(** "Jan _2 15:04:05 2006" *)
Definition Format_year (t : Time) : bytes := date_and_time t ++ " " ++ signed_pad 4 (Year t).

(** "Jan _2 15:04:05 -0700 MST"; [zone] gives the abbreviation of the zone in effect. *)
Definition Format_zone (zone : Z → bytes) (t : Time) : bytes :=
  let minutes := Z.quot (utc_offset (Unix t)) 60 in
  date_and_time t ++ " " ++ (if minutes <? 0 then "-" else "+") ++
  pad_left "0" 2 (Z.abs minutes / 60) ++ pad_left "0" 2 (Z.abs minutes mod 60) ++ " " ++
  zone (Unix t).

End Layouts.

(** [d.Round(time.Second)]: to the nearest second, away from zero in the middle; a result that
    would not fit is the extreme duration. *)
Definition Round_second (d : Duration) : Duration :=
  let m := Second_ in
  let r := Z.rem d m in
  if d <? 0 then
    let r := - r in
    if r + r <? m then d + r
    else let d1 := wrap64 (d - m + r) in if d1 <? d then d1 else - two63
  else if r + r <? m then d - r
  else let d1 := wrap64 (d + m - r) in if d <? d1 then d1 else two63 - 1.

Example layouts_ex :
  Format_year (H:=UTC) (1583064305 * Second_) = ("Mar  1 12:05:05 2020" : bytes) ∧
  Format_zone (H:=λ _, -12600) (λ _, "XST") (1583064305 * Second_) = ("Mar  1 08:35:05 -0330 XST" : bytes) ∧
  map Round_second [499999999; 500000000; 1500000000; -500000000; -499999999; two63 - 1] =
  [0; 1000000000; 2000000000; -1000000000; 0; two63 - 1].
Proof. vm_compute. done. Qed.

(** Rounding moves by at most half a second, to a whole number of seconds, unless the nearest
    one does not fit. *)
Lemma Round_second_spec d :
  Z.abs d ≤ two63 - 2 * Second_ →
  Round_second d mod Second_ = 0 ∧ 2 * Z.abs (Round_second d - d) ≤ Second_.
Proof.
  intros Hd. unfold Round_second, two63, Second_ in *.
  pose proof (Z.rem_bound_abs d 1000000000 ltac:(lia)) as Hb.
  pose proof (Z.quot_rem' d 1000000000) as Hq.
  assert (Hsg : (0 ≤ d → 0 ≤ Z.rem d 1000000000) ∧ (d ≤ 0 → Z.rem d 1000000000 ≤ 0))
    by (split; [apply Z.rem_nonneg|apply Z.rem_nonpos]; lia).
  set (r := Z.rem d 1000000000) in *. set (q := Z.quot d 1000000000) in *.
  destruct (d <? 0) eqn:Hn; [apply Z.ltb_lt in Hn|apply Z.ltb_ge in Hn].
  - destruct (- r + - r <? 1000000000) eqn:Hr; [apply Z.ltb_lt in Hr|apply Z.ltb_ge in Hr].
    + split; [|lia]. replace (d + - r) with (q * 1000000000) by lia. apply Z_mod_mult.
    + rewrite wrap64_small by (unfold is_int64, two63; lia).
      destruct (_ <? d) eqn:E; [|apply Z.ltb_ge in E; lia].
      split; [|lia]. replace (d - 1000000000 + - r) with ((q - 1) * 1000000000) by lia. apply Z_mod_mult.
  - destruct (r + r <? 1000000000) eqn:Hr; [apply Z.ltb_lt in Hr|apply Z.ltb_ge in Hr].
    + split; [|lia]. replace (d - r) with (q * 1000000000) by lia. apply Z_mod_mult.
    + rewrite wrap64_small by (unfold is_int64, two63; lia).
      destruct (d <? _) eqn:E; [|apply Z.ltb_ge in E; lia].
      split; [|lia]. replace (d + 1000000000 - r) with ((q + 1) * 1000000000) by lia. apply Z_mod_mult.
Qed.
