(* ===== verification/Client.v ===== *)
(** * The command-line client ([jobber])

    The client turns its command into a call of the user's runner, or of every
    runner, and prints the answer.  Its flags are given as the flag package parses
    them; what the operating system and the runners answer is the record [World];
    the text of the usage messages is not modelled.  The last section puts a runner
    behind the socket. *)

From S2P Require Import Prelude GoStrings Calendar SemVer TimeSpec TimeSpecParse Job JobQueue.
From S2P Require Import RunLog MemRunLog Durations FileSys FileRunLog FileRunLogFacts.
From S2P Require Import RunRecServer ResultSink JobFile JobRunner JobManager JobManagerFacts.
From S2P Require Import CommandFacts ManagerExamples GoPath Glob Settings IpcServer TabWriter Constants.

Open Scope nat_scope.
Open Scope bytes_scope.
Open Scope list_scope.

(** [sort.Sort] with [Less]: a permutation in which nothing comes before something less;
    the order of equal elements is not specified. *)
Class GoSort := sort_by : ∀ {A}, (A → A → bool) → list A → list A.
Class GoSortOk `{GoSort} : Prop := {
  sort_by_perm : ∀ {A} (less : A → A → bool) l, sort_by less l ≡ₚ l;
  sort_by_sorted : ∀ {A} (less : A → A → bool) l,
    (∀ x y, less x y = true → less y x = false) →
    (∀ x y z, less y x = false → less z y = false → less z x = false) →
    StronglySorted (λ x y, less y x = false) (sort_by less l)
}.

(** ** What the client meets *)

(** The answer of a runner to a call: what the method returned, or nothing in time. *)
Inductive daemon_answer := Replied (r : outcome ICmdResp) | NoReply.

Record World := mkWorld {
  w_settings : settings;
  w_current : outcome UserRec;
  w_ReadDir : bytes → outcome (list (bytes * bool));
  w_LookupId : bytes → option UserRec;
  w_fullname : UserRec → bytes;
  w_stat : bytes → outcome unit;
  w_dial : bytes → outcome unit;
  w_daemon : UserRec → ICmd → daemon_answer;
  w_read : nat → bytes * option error;
  w_program : bytes;              (** [os.Args[0]] *)
  w_defaults : bytes → bytes      (** what [PrintDefaults] prints for a command *)
}.

Record Flags := mkFlags { f_help : bool; f_allUsers : bool; f_args : list bytes }.

(** What was printed, and the users whose runners were called, in order. *)
Record Output := mkOutput { stdout : bytes; stderr : bytes; called : list UserRec }.

Definition printf (text : bytes) : stM Output unit :=
  modifyS (λ o, mkOutput (stdout o ++ text) (stderr o) (called o)).
Definition eprintf (text : bytes) : stM Output unit :=
  modifyS (λ o, mkOutput (stdout o) (stderr o ++ text) (called o)).
Definition calling (usr : UserRec) : stM Output unit :=
  modifyS (λ o, mkOutput (stdout o) (stderr o) (called o ++ [usr])).

Definition line (text : bytes) : bytes := text ++ [newline].

(** The commands *)
Definition ListCmdStr : bytes := "list".
Definition LogCmdStr : bytes := "log".
Definition ReloadCmdStr : bytes := "reload".
Definition TestCmdStr : bytes := "test".
Definition CatCmdStr : bytes := "cat".
Definition PauseCmdStr : bytes := "pause".
Definition ResumeCmdStr : bytes := "resume".
Definition InitCmdStr : bytes := "init".

Definition CmdStrs : list bytes :=
  [ListCmdStr; LogCmdStr; ReloadCmdStr; TestCmdStr; CatCmdStr; PauseCmdStr; ResumeCmdStr; InitCmdStr].
Definition tab_join (fields : list bytes) : bytes := Join fields [tab].

Section Client.
Context `{HL : Location} `{HS : GoSort} (lib_error_text : error → bytes) (zone : Z → bytes) (w : World).

Definition text_of_error (e : error) : bytes := Error_text lib_error_text e.

Definition no_socket_msg (usr : UserRec) (socketPath : bytes) : bytes :=
  "Jobber doesn't seem to be running for user " ++ Username usr ++ "." ++ [newline] ++
  "(No socket at " ++ socketPath ++ ".)".

(** [CallDaemon]; without a timeout it may wait for ever. *)
Definition CallDaemon (cmd : ICmd) (usr : UserRec) (timeout : bool) : outcome ICmdResp :=
  let socketPath := CmdSocketPath (w_settings w) usr in
  match w_stat w socketPath with
  | Fail err => if IsNotExist err then Fail (CommonError (no_socket_msg usr socketPath) (Some err))
                else Fail err
  | Panic msg => Panic msg
  | Running => Running
  | Ret _ =>
     w_dial w socketPath;;
     match w_daemon w usr cmd with
     | Replied (Fail err) => Fail (CommonError ("Call to Jobber failed: " ++ text_of_error err) None)
     | Replied r => r
     | NoReply => if timeout then Fail (CommonError "Call to Jobber timed out." None) else Running
     end
  end.

Definition call (cmd : ICmd) (usr : UserRec) (timeout : bool) : stM Output ICmdResp :=
  calling usr;; liftS (CallDaemon cmd usr timeout).

(** What the commands do that concern the current user only *)
Definition for_current_user (cmd : ICmd) (timeout : bool) (before : stM Output unit)
    (show : ICmdResp → UserRec → stM Output Z) : stM Output Z :=
  match w_current w with
  | Ret usr =>
     before;;
     resp ← try_ (call cmd usr timeout);
     match resp with
     | inl resp => show resp usr
     | inr err => eprintf (line (text_of_error err));; mret 1%Z
     end
  | Fail err => eprintf (line ("Failed to get current user: " ++ text_of_error err));; mret 1%Z
  | Panic msg => panicS msg
  | Running => λ o, (Running, o)
  end.

(** The users of [AllUsersWithSockets] *)
Definition with_all_users (k : list UserRec → stM Output Z) : stM Output Z :=
  match AllUsersWithSockets (w_ReadDir w) (w_LookupId w) (w_settings w) with
  | Ret users => k users
  | Fail err => eprintf (line ("Failed to get all users: " ++ text_of_error err));; mret 1%Z
  | Panic msg => panicS msg
  | Running => λ o, (Running, o)
  end.

(** [subcmdUsage]; the flag package prints the defaults on the standard error. *)
Definition subcmdUsage (subcmd posargs : bytes) : stM Output unit :=
  printf ([newline] ++ "Usage: " ++ w_program w ++ " " ++ subcmd ++ " [flags] " ++ posargs ++ [newline] ++
          line "Flags:");;
  eprintf (w_defaults w subcmd).

Definition help_or (subcmd posargs : bytes) (flags : Flags) (m : stM Output Z) : stM Output Z :=
  if f_help flags then subcmdUsage subcmd posargs;; mret 0%Z else m.

(** ** cat, init, pause, resume *)

Definition doCatCmd (flags : Flags) : stM Output Z := help_or CatCmdStr "JOB" flags (
  match f_args flags with
  | [] => eprintf (line "You must specify a job.");; mret 1%Z
  | job :: _ =>
     for_current_user (CatCmd job) true (mret tt) (λ resp _,
       printf (line (match resp with CatCmdResp result => result | _ => [] end));; mret 0%Z)
  end).

Definition doInitCmd (flags : Flags) : stM Output Z := help_or InitCmdStr [] flags (
  for_current_user InitCmd true (mret tt) (λ resp _,
    printf (line ("You can now define jobs in " ++
                  match resp with InitCmdResp path => path | _ => [] end ++ "."));;
    printf (line "Once you have done so, run 'jobber reload'.");; mret 0%Z)).

Definition doPauseCmd (flags : Flags) : stM Output Z := help_or PauseCmdStr "[JOBS...]" flags (
  for_current_user (PauseCmd (f_args flags)) true (mret tt) (λ resp _,
    printf (line ("Paused " ++ itoa (match resp with PauseCmdResp n => Z.of_nat n | _ => 0 end) ++ " jobs."));;
    mret 0%Z)).

Definition doResumeCmd (flags : Flags) : stM Output Z := help_or ResumeCmdStr "[JOBS...]" flags (
  for_current_user (ResumeCmd (f_args flags)) true (mret tt) (λ resp _,
    printf (line ("Resumed " ++ itoa (match resp with ResumeCmdResp n => Z.of_nat n | _ => 0 end) ++ " jobs."));;
    mret 0%Z)).

(** ** reload *)

Definition num_jobs (resp : ICmdResp) : bytes :=
  itoa (match resp with ReloadCmdResp n => Z.of_nat n | _ => 0 end).

Fixpoint reload_all (users : list UserRec) : stM Output Z :=
  match users with
  | [] => mret 0%Z
  | usr :: users =>
     resp ← try_ (call ReloadCmd usr true);
     match resp with
     | inr err => eprintf (line (text_of_error err));; mret 1%Z
     | inl resp =>
        printf (line ("Loaded " ++ num_jobs resp ++ " jobs for " ++ w_fullname w usr ++ "."));;
        reload_all users
     end
  end.

Definition doReloadCmd (flags : Flags) : stM Output Z := help_or ReloadCmdStr [] flags (
  if f_allUsers flags then with_all_users reload_all
  else
    for_current_user ReloadCmd true (mret tt) (λ resp _,
      printf (line ("Loaded " ++ num_jobs resp ++ " jobs."));; mret 0%Z)).

(** ** list *)

Definition formatTime (t : option Time) : bytes :=
  match t with None => "none" | Some t => Format_zone zone t end.

Definition list_headers : list bytes :=
  ["NAME" : bytes; "STATUS" : bytes; "SEC/MIN/HR/MDAY/MTH/WDAY" : bytes; "NEXT RUN TIME" : bytes;
   "NOTIFY ON SUCCESS" : bytes; "NOTIFY ON ERR" : bytes; "NOTIFY ON FAIL" : bytes; "ERR HANDLER" : bytes].

Definition job_fields (j : JobDesc) : list bytes :=
  [DescName j; DescStatus j; DescSchedule j; formatTime (DescNextRunTime j); DescNotifyOnSuccess j;
   DescNotifyOnErr j; DescNotifyOnFail j; DescErrHandler j].

Definition list_rows (recs : list (UserRec * list JobDesc)) (showUser : bool) : list bytes :=
  concat (map (λ rec : UserRec * list JobDesc, map (λ j,
    tab_join (job_fields j ++ if showUser then [Username rec.1] else [])) rec.2) recs).

Definition formatResponseRecs (recs : list (UserRec * list JobDesc)) (showUser : bool) : bytes :=
  tabwriter (tab_join (list_headers ++ if showUser then ["USER" : bytes] else []) ++ [newline] ++
             Join (list_rows recs showUser) [newline]).

Definition jobs_of_resp (resp : ICmdResp) : list JobDesc :=
  match resp with ListJobsCmdResp jobs => jobs | _ => [] end.

(** A runner that fails is reported and left out. *)
Fixpoint list_all (users : list UserRec) : stM Output (list (UserRec * list JobDesc)) :=
  match users with
  | [] => mret []
  | usr :: users =>
     resp ← try_ (call ListJobsCmd usr true);
     match resp with
     | inr err =>
        eprintf (line ("Failed to list jobs for " ++ Username usr ++ ": " ++ text_of_error err));;
        list_all users
     | inl resp => recs ← list_all users; mret ((usr, jobs_of_resp resp) :: recs)
     end
  end.

Definition doListCmd_allUsers : stM Output Z :=
  with_all_users (λ users,
    recs ← list_all users; printf (line (formatResponseRecs recs true));; mret 0%Z).

Definition doListCmd_currUser : stM Output Z :=
  for_current_user ListJobsCmd true (mret tt) (λ resp usr,
    printf (line (formatResponseRecs [(usr, jobs_of_resp resp)] false));; mret 0%Z).

Definition doListCmd (flags : Flags) : stM Output Z := help_or ListCmdStr [] flags (
  if f_allUsers flags then doListCmd_allUsers else doListCmd_currUser).

(** ** log *)

Definition logs_of_resp (resp : ICmdResp) : list LogDesc :=
  match resp with LogCmdResp logs => logs | _ => [] end.

(** [LogDescSorter.Less] and [EnhancedLogDescSorter.Less] *)
Definition Less (a b : LogDesc) : bool := After (LogTime a) (LogTime b).
Definition EnhancedLess (a b : bytes * LogDesc) : bool := Less a.2 b.2.

Definition log_fields (l : LogDesc) : list bytes :=
  [Format_year (LogTime l); LogJob l; LogFate l; Duration_String (Round_second (LogExecTime l));
   LogResult l].

(** A row ends with a tab. *)
Definition log_table (header : list bytes) (rows : list (list bytes)) : bytes :=
  tabwriter (tab_join header ++ [newline] ++
             Join (map (λ fields, tab_join fields ++ [tab]) rows) [newline]).

Fixpoint log_all (users : list UserRec) : stM Output (list (bytes * LogDesc)) :=
  match users with
  | [] => mret []
  | usr :: users =>
     resp ← try_ (call LogCmd usr true);
     logs ← (match resp with
             | inr err =>
                eprintf (line ("Failed to get log for " ++ w_fullname w usr ++ ": " ++
                               text_of_error err ++ "."));; mret []
             | inl resp => mret (logs_of_resp resp)
             end);
     rest ← log_all users;
     mret (map (pair (w_fullname w usr)) logs ++ rest)
  end.

Definition doLogCmd_allUsers : stM Output Z :=
  with_all_users (λ users,
    logDescs ← log_all users;
    match logDescs with
    | [] => printf (line "No run logs.");; mret 0%Z
    | _ =>
       printf (line (log_table
         ["TIME" : bytes; "JOB" : bytes; "RESULT" : bytes; "EXECTIME" : bytes; "RESULT" : bytes; "USER" : bytes]
         (map (λ e : bytes * LogDesc, log_fields e.2 ++ [e.1]) (sort_by EnhancedLess logDescs))));;
       mret 0%Z
    end).

Definition doLogCmd_currUser : stM Output Z :=
  for_current_user LogCmd true (mret tt) (λ resp _,
    match logs_of_resp resp with
    | [] => printf (line "No run logs.");; mret 0%Z
    | logs =>
       printf (line (log_table
         ["TIME" : bytes; "JOB" : bytes; "RESULT" : bytes; "EXECTIME" : bytes; "NEW JOB STATUS" : bytes; [] : bytes]
         (map log_fields (sort_by Less logs))));;
       mret 0%Z
    end).

Definition doLogCmd (flags : Flags) : stM Output Z := help_or LogCmdStr [] flags (
  if f_allUsers flags then doLogCmd_allUsers else doLogCmd_currUser).

(** ** test *)

(** The loop that copies the job's output: read [i] gets some bytes and perhaps an error; only
    the end of the file ends the loop. *)
Fixpoint copy_output (fuel i : nat) : stM Output unit :=
  match fuel with
  | O => λ o, (Running, o)
  | S fuel =>
     let '(data, err) := w_read w i in
     printf data;;
     match err with
     | Some (LibError what) => if bool_decide (what = ("EOF" : bytes)) then mret tt else copy_output fuel (S i)
     | _ => copy_output fuel (S i)
     end
  end.

Definition doTestCmd (fuel : nat) (flags : Flags) : stM Output Z := help_or TestCmdStr "JOB" flags (
  match f_args flags with
  | [] => eprintf (line "You must specify a job.");; mret 1%Z
  | job :: _ =>
     for_current_user (TestCmd job) false (printf (line ("Running job " ++ dquote job ++ "...")))
       (λ resp _,
          conn ← try_ (liftS (w_dial w (match resp with TestCmdResp path => path | _ => [] end)));
          match conn with
          | inr err => eprintf (line (text_of_error err));; mret 1%Z
          | inl _ => copy_output fuel 0;; mret 0%Z
          end)
  end).

(** ** The program *)

Definition CmdHandlers (fuel : nat) (name : bytes) : option (Flags → stM Output Z) :=
  if bool_decide (name = ListCmdStr) then Some doListCmd
  else if bool_decide (name = LogCmdStr) then Some doLogCmd
  else if bool_decide (name = ReloadCmdStr) then Some doReloadCmd
  else if bool_decide (name = TestCmdStr) then Some (doTestCmd fuel)
  else if bool_decide (name = CatCmdStr) then Some doCatCmd
  else if bool_decide (name = PauseCmdStr) then Some doPauseCmd
  else if bool_decide (name = ResumeCmdStr) then Some doResumeCmd
  else if bool_decide (name = InitCmdStr) then Some doInitCmd
  else None.

(** [usage] *)
Definition usage : stM Output unit :=
  printf ("Usage: " ++ w_program w ++ " [flags] COMMAND" ++ [newline; newline]);;
  printf (line "Flags:");;
  eprintf (w_defaults w []);;
  printf [newline];;
  printf (line "Commands:");;
  printf (concat (map (λ cmd, line ("    " ++ cmd)) CmdStrs)).

(** The usage lists the commands there are. *)
Theorem usage_lists_commands fuel name :
  (∃ head, ∀ o, stdout (usage o).2 = stdout o ++ head ++ concat (map (λ cmd, line ("    " ++ cmd)) CmdStrs)) ∧
  (name ∈ CmdStrs ↔ is_Some (CmdHandlers fuel name)).
Proof.
  split.
  - eexists ("Usage: " ++ w_program w ++ " [flags] COMMAND" ++ [newline; newline] ++ line "Flags:" ++
             [newline] ++ line "Commands:").
    intros o. unfold usage, printf, eprintf. rewrite !modifyS_bind. unfold modifyS.
    cbn [stdout snd]. by rewrite <- !app_assoc.
  - unfold CmdStrs, CmdHandlers. rewrite !elem_of_cons, elem_of_nil.
    repeat case_bool_decide; naive_solver.
Qed.

(** ** Every runner, and the runners that fail *)

Definition calls_answer (cmd : ICmd) (users : list UserRec) : Prop :=
  ∀ usr, usr ∈ users → answers (CallDaemon cmd usr true).

Lemma call_eq cmd usr timeout o :
  call cmd usr timeout o = (CallDaemon cmd usr timeout, mkOutput (stdout o) (stderr o) (called o ++ [usr])).
Proof. unfold call, calling. by rewrite modifyS_bind. Qed.

Lemma try_call_Ret cmd usr o resp :
  CallDaemon cmd usr true = Ret resp →
  try_ (call cmd usr true) o = (Ret (inl resp), mkOutput (stdout o) (stderr o) (called o ++ [usr])).
Proof. intros E. unfold try_. by rewrite call_eq, E. Qed.

Lemma try_call_Fail cmd usr o e :
  CallDaemon cmd usr true = Fail e →
  try_ (call cmd usr true) o = (Ret (inr e), mkOutput (stdout o) (stderr o) (called o ++ [usr])).
Proof. intros E. unfold try_. by rewrite call_eq, E. Qed.

(** The jobs of a runner, if it answers *)
Definition listed (usr : UserRec) : option (UserRec * list JobDesc) :=
  match CallDaemon ListJobsCmd usr true with
  | Ret resp => Some (usr, jobs_of_resp resp)
  | _ => None
  end.

Lemma list_all_spec users o :
  calls_answer ListJobsCmd users →
  ∃ err, list_all users o =
         (Ret (omap listed users), mkOutput (stdout o) err (called o ++ users)).
Proof.
  revert o. induction users as [|usr users IH]; intros o Ha; cbn [list_all].
  - exists (stderr o). rewrite app_nil_r. by destruct o.
  - assert (Hu : answers (CallDaemon ListJobsCmd usr true)) by (apply Ha; left).
    assert (Ha' : calls_answer ListJobsCmd users) by (intros u Hu'; apply Ha; by right).
    cbn [omap list_omap]. unfold listed at 1.
    destruct (CallDaemon ListJobsCmd usr true) as [resp|e|msg|] eqn:E; [| |done..].
    + rewrite (stM_bind_Ret _ _ _ _ _ (try_call_Ret _ _ _ _ E)).
      destruct (IH (mkOutput (stdout o) (stderr o) (called o ++ [usr])) Ha') as [err Hi].
      rewrite (stM_bind_Ret _ _ _ _ _ Hi). exists err. cbn. by rewrite <- app_assoc.
    + rewrite (stM_bind_Ret _ _ _ _ _ (try_call_Fail _ _ _ _ E)).
      unfold eprintf at 1. rewrite modifyS_bind. cbn [stdout stderr called].
      destruct (IH (mkOutput (stdout o) (stderr o ++ line ("Failed to list jobs for " ++ Username usr ++
                     ": " ++ text_of_error e)) (called o ++ [usr])) Ha') as [err Hi].
      exists err. rewrite Hi. cbn. by rewrite <- app_assoc.
Qed.

Lemma reload_all_step usr users o resp :
  CallDaemon ReloadCmd usr true = Ret resp →
  ∃ out, reload_all (usr :: users) o = reload_all users (mkOutput out (stderr o) (called o ++ [usr])).
Proof.
  intros E. cbn [reload_all]. rewrite (stM_bind_Ret _ _ _ _ _ (try_call_Ret _ _ _ _ E)).
  unfold printf. rewrite modifyS_bind. by eexists.
Qed.

Lemma reload_all_spec users o :
  (∀ usr, usr ∈ users → returns (CallDaemon ReloadCmd usr true)) →
  (∃ out, reload_all users o = (Ret 0%Z, mkOutput out (stderr o) (called o ++ users))) ∧
  ∀ usr post e, CallDaemon ReloadCmd usr true = Fail e →
    ∃ out, reload_all (users ++ usr :: post) o =
           (Ret 1%Z, mkOutput out (stderr o ++ line (text_of_error e)) (called o ++ users ++ [usr])).
Proof.
  revert o. induction users as [|u users IH]; intros o Hr; cbn [app].
  - split; [exists (stdout o); cbn; rewrite app_nil_r; by destruct o|]. intros usr post e E.
    cbn [reload_all]. rewrite (stM_bind_Ret _ _ _ _ _ (try_call_Fail _ _ _ _ E)).
    by eexists.
  - destruct (Hr u ltac:(left)) as [resp E].
    assert (Hr' : ∀ usr, usr ∈ users → returns (CallDaemon ReloadCmd usr true))
      by (intros v Hv; apply Hr; by right).
    split.
    + destruct (reload_all_step u users o resp E) as [out ->].
      destruct (proj1 (IH (mkOutput out (stderr o) (called o ++ [u])) Hr')) as [out' ->].
      cbn [stderr called]. rewrite <- app_assoc. by eexists.
    + intros usr post e Ef. destruct (reload_all_step u (users ++ usr :: post) o resp E) as [out ->].
      destruct (proj2 (IH (mkOutput out (stderr o) (called o ++ [u])) Hr') usr post e Ef) as [out' ->].
      cbn [stderr called]. rewrite <- app_assoc. by eexists.
Qed.

(** With "-a" the client calls the runner of every user that has one.  "jobber list -a"
    leaves out the users whose runner fails and lists the jobs of all the others; but
    "jobber reload -a" ends with status 1 at the first runner that fails, and the
    runners after it are never told to reload. *)
Theorem all_users_correct users post usr e o :
  AllUsersWithSockets (w_ReadDir w) (w_LookupId w) (w_settings w) = Ret (users ++ usr :: post) →
  calls_answer ListJobsCmd (users ++ usr :: post) →
  (∀ u, u ∈ users → returns (CallDaemon ReloadCmd u true)) → CallDaemon ReloadCmd usr true = Fail e →
  (∃ err, doListCmd (mkFlags false true []) o =
     (Ret 0%Z, mkOutput (stdout o ++ line (formatResponseRecs (omap listed (users ++ usr :: post)) true))
                 err (called o ++ users ++ usr :: post))) ∧
  (∃ out err, doReloadCmd (mkFlags false true []) o = (Ret 1%Z, mkOutput out err (called o ++ users ++ [usr]))).
Proof.
  intros Hall Hlist Hreload Hfail. unfold doListCmd, doReloadCmd, help_or, doListCmd_allUsers, with_all_users.
  cbn [f_help f_allUsers]. rewrite Hall. split.
  - destruct (list_all_spec (users ++ usr :: post) o Hlist) as [err Hl].
    rewrite (stM_bind_Ret _ _ _ _ _ Hl). by exists err.
  - destruct (proj2 (reload_all_spec users o Hreload) usr post e Hfail) as [out ->]. by eexists _, _.
Qed.

(** ** The log *)

Lemma Less_asym a b : Less a b = true → Less b a = false.
Proof. unfold Less, After. intros H%Z.ltb_lt. apply Z.ltb_ge. lia. Qed.

Lemma Less_trans a b c : Less b a = false → Less c b = false → Less c a = false.
Proof. unfold Less, After. rewrite !Z.ltb_ge. lia. Qed.

Definition newest_first (a b : LogDesc) : Prop := (LogTime b ≤ LogTime a)%Z.

(** "jobber log" prints a row for every run in the log of the user's runner, newest
    first; or says that there are none. *)
Theorem log_correct `{!GoSortOk} usr logs o :
  w_current w = Ret usr → CallDaemon LogCmd usr true = Ret (LogCmdResp logs) →
  ∃ sorted, sorted ≡ₚ logs ∧ StronglySorted newest_first sorted ∧
    doLogCmd (mkFlags false false []) o =
    (Ret 0%Z, mkOutput
       (stdout o ++
        line (match sorted with
              | [] => "No run logs."
              | _ => log_table ["TIME" : bytes; "JOB" : bytes; "RESULT" : bytes; "EXECTIME" : bytes;
                                "NEW JOB STATUS" : bytes; [] : bytes] (map log_fields sorted)
              end)) (stderr o) (called o ++ [usr])).
Proof.
  intros Hu Hd. exists (sort_by Less logs). split; [apply sort_by_perm|]. split.
  { eapply StronglySorted_weaken; [|apply (sort_by_sorted Less)].
    - intros a b Hab. unfold newest_first. by apply Z.ltb_ge in Hab.
    - apply Less_asym.
    - apply Less_trans. }
  unfold doLogCmd, help_or, doLogCmd_currUser, for_current_user. cbn [f_help f_allUsers]. rewrite Hu.
  rewrite stM_bind_eq. cbn [mret stM_ret].
  rewrite (stM_bind_Ret _ _ _ _ _ (try_call_Ret _ _ _ _ Hd)). cbn [logs_of_resp].
  pose proof (sort_by_perm Less logs) as Hp. destruct logs as [|l logs].
  - apply Permutation_nil_r in Hp. by rewrite Hp.
  - destruct (sort_by Less (l :: logs)) as [|x xs] eqn:E; [by apply Permutation_nil_l in Hp|].
    done.
Qed.

(** ** The output of a test *)

Definition eof : error := LibError "EOF".

Lemma copy_output_more fuel i data err o :
  w_read w i = (data, err) → err ≠ Some eof →
  copy_output (S fuel) i o = copy_output fuel (S i) (mkOutput (stdout o ++ data) (stderr o) (called o)).
Proof.
  intros E He. cbn [copy_output]. rewrite E. unfold printf. rewrite modifyS_bind.
  destruct err as [[| | |what]|]; try done. rewrite bool_decide_false; [done|]. by intros ->.
Qed.

(** "jobber test" prints what comes from the job's socket up to its end.  But it looks for
    nothing else: when every read from some point on fails, for instance because the
    connection was reset, the client goes on reading for ever. *)
Theorem copy_output_correct n o :
  (∀ i, i < n → (w_read w i).2 ≠ Some eof) →
  (∀ data, w_read w n = (data, Some eof) →
     ∀ fuel, n < fuel →
       copy_output fuel 0 o =
       (Ret tt, mkOutput (stdout o ++ concat (map (λ i, (w_read w i).1) (seq 0 (S n)))) (stderr o) (called o))) ∧
  ((∀ i, n ≤ i → (w_read w i).2 ≠ Some eof) → ∀ fuel, (copy_output fuel 0 o).1 = Running).
Proof.
  intros Hn. split.
  - intros data Heof fuel Hf.
    assert (H : ∀ k i o, i + k = n → ∀ fuel, k < fuel → copy_output fuel i o =
      (Ret tt, mkOutput (stdout o ++ concat (map (λ i, (w_read w i).1) (seq i (S k)))) (stderr o) (called o))).
    { intros k. induction k as [|k IH]; intros i o' Hi fuel' Hfuel;
        (destruct fuel' as [|fuel']; [lia|]).
      - assert (i = n) as -> by lia. cbn [copy_output]. rewrite Heof. unfold printf. rewrite modifyS_bind.
        cbn. rewrite Heof. by rewrite app_nil_r.
      - destruct (w_read w i) as [d err] eqn:E.
        rewrite (copy_output_more _ _ d err); [|done|].
        + rewrite IH by lia. cbn [stdout stderr called]. rewrite <- app_assoc.
          change (seq i (S (S k))) with (i :: seq (S i) (S k)). cbn [map concat]. by rewrite E.
        + specialize (Hn i ltac:(lia)). by rewrite E in Hn. }
    by apply H.
  - intros Hlater fuel.
    assert (H : ∀ fuel i o, (copy_output fuel i o).1 = Running).
    { clear fuel o. intros fuel. induction fuel as [|fuel IH]; intros i o; [done|].
      destruct (w_read w i) as [d err] eqn:E. rewrite (copy_output_more _ _ d err); [apply IH|done|].
      destruct (decide (i < n)) as [Hi|Hi]; [specialize (Hn i Hi)|specialize (Hlater i ltac:(lia))];
        by rewrite E in *. }
    apply H.
Qed.

End Client.

(** The flags of the program itself and its arguments, the first of which is the command;
    [parse] is what the flag package makes of the arguments of a command. *)
Record MainFlags := mkMainFlags {
  m_help : bool;
  m_version : bool;
  m_debug : bool;
  m_args : list bytes;
  parse : bytes → list bytes → Flags
}.

(** [main]: the exit status.  [init] is the outcome of [InitSettings], [world] what there is
    with the settings it gave. *)
Definition main `{HL : Location} `{HS : GoSort} (lib_error_text : error → bytes) (zone : Z → bytes)
    (fuel : nat) (jobberVersion : bytes) (init : outcome settings) (world : settings → World)
    (flags : MainFlags) : stM Output Z :=
  match init with
  | Fail err => eprintf (line (text_of_error lib_error_text err));; mret 1%Z
  | Panic msg => panicS msg
  | Running => λ o, (Running, o)
  | Ret s =>
     if m_help flags then usage (world s);; mret 0%Z
     else if m_version flags then printf (line (LongVersionStr jobberVersion));; mret 0%Z
     else if m_debug flags then printf (PrintPaths s);; mret 0%Z
     else
       match m_args flags with
       | [] => eprintf (line (line "Please specify a command."));; usage (world s);; mret 1%Z
       | name :: args =>
          match CmdHandlers lib_error_text zone (world s) fuel name with
          | None => eprintf (line (line ("Invalid command: " ++ dquote name ++ ".")));; usage (world s);; mret 1%Z
          | Some handler => handler (parse flags name args)
          end
       end
  end.

(** ** A runner behind the socket *)

Section EndToEnd.
Context `{HL : Location} `{HF : FloatFraction} `{HT : TempNames} (lib_error_text : error → bytes).
Context `{HYE : YaccErrors} `{R : Rand} `{HYaml : Yaml} `{HDoc : YamlDoc} `{HS : GoSort}.
Context (zone : Z → bytes) (w : World).

(** The user's runner is there and answers calls by carrying out the command in state [m], with
    the method of [IpcService] the client calls. *)
Definition answered_by (usr : UserRec) (inp : Inputs) (m : JobManager (R:=R)) : Prop :=
  w_current w = Ret usr ∧
  w_stat w (CmdSocketPath (w_settings w) usr) = Ret tt ∧
  w_dial w (CmdSocketPath (w_settings w) usr) = Ret tt ∧
  ∀ cmd, w_daemon w usr cmd =
    match doCmd lib_error_text inp IpcServerTypeUds cmd m with
    | (Ret resp, _) => Replied (receives (method_of cmd) resp)
    | _ => NoReply
    end.

Lemma CallDaemon_answered usr inp m cmd resp m' timeout :
  answered_by usr inp m → doCmd lib_error_text inp IpcServerTypeUds cmd m = (Ret resp, m') →
  CallDaemon lib_error_text w cmd usr timeout =
  match resp with
  | ErrorCmdResp err =>
     Fail (CommonError ("Call to Jobber failed: " ++ Error_text lib_error_text err) None)
  | _ => Ret resp
  end.
Proof.
  intros (_ & Hstat & Hdial & Hd) E. unfold CallDaemon. rewrite Hstat, Hdial, Hd, E.
  pose proof (doCmd_well_typed lib_error_text inp IpcServerTypeUds cmd m resp m' E) as Ht.
  unfold well_typed in Ht. cbn [mbind outcome_bind]. rewrite Ht. by destruct resp.
Qed.


End EndToEnd.

(** ** Examples *)

Fixpoint insert_by {A} (less : A → A → bool) (x : A) (l : list A) : list A :=
  match l with
  | [] => [x]
  | y :: l => if less y x then y :: insert_by less x l else x :: y :: l
  end.

#[local] Instance insertion_sort : GoSort := λ A less, foldr (insert_by less) [].

Lemma insert_by_perm {A} (less : A → A → bool) x l : insert_by less x l ≡ₚ x :: l.
Proof.
  induction l as [|y l IH]; cbn [insert_by]; [done|]. destruct (less y x); [|done].
  rewrite IH. apply Permutation_swap.
Qed.

#[local] Instance insertion_sort_ok : GoSortOk.
Proof.
  split.
  - intros A less l. unfold sort_by, insertion_sort. induction l as [|x l IH]; [done|].
    cbn [foldr]. by rewrite insert_by_perm, IH.
  - intros A less l Hasym Htrans. unfold sort_by, insertion_sort.
    induction l as [|x l IH]; [constructor|]. cbn [foldr]. revert IH.
    generalize (foldr (insert_by less) [] l) as sorted. intros sorted Hs.
    induction Hs as [|y sorted Hs IH Hy]; cbn [insert_by]; [repeat constructor|].
    destruct (less y x) eqn:E.
    + constructor; [done|]. rewrite insert_by_perm. constructor; [by apply Hasym|done].
    + constructor; [by constructor|]. constructor; [done|].
      eapply Forall_impl; [exact Hy|]. intros z Hz. by eapply Htrans.
Qed.

#[local] Existing Instances UTC exact_fraction exact_fraction_ok FileRunLogFacts.example_temp
  TimeSpecParse.no_text first_rand first_rand_ok example_yaml example_yaml_ok example_doc.

Definition alice : UserRec := mkUser "alice" "/home/alice" "1001" "1001".

(** Bob's runner is that of [example_set]; alice's does not answer. *)
Definition example_world : World := mkWorld (initial_settings "/tmp" "/etc") (Ret example_user)
  (λ _, Ret [("1001" : bytes, true); ("1000" : bytes, true); ("lock" : bytes, false)])
  (λ id, if bool_decide (id = ("1000" : bytes)) then Some example_user
         else if bool_decide (id = ("1001" : bytes)) then Some alice else None)
  Username (λ _, Ret tt) (λ _, Ret tt)
  (λ usr cmd, if bool_decide (Username usr = ("bob" : bytes)) then
                match doCmd no_error_text (example_inputs no_file) IpcServerTypeUds cmd example_set with
                | (Ret resp, _) => Replied (receives (method_of cmd) resp)
                | _ => NoReply
                end
              else NoReply)
  (λ i, match i with O => ("hello" : bytes, None) | _ => ([], Some (OsError EIO)) end)
  "jobber" (λ _, line "  -h    help").

Definition no_output : Output := mkOutput [] [] [].


Lemma copy_output_correct_witness :
  ∀ fuel, (copy_output example_world fuel 0 no_output).1 = Running.
Proof.
  refine (proj2 (copy_output_correct example_world 1 no_output _) _).
  - intros i Hi. destruct i; [discriminate|lia].
  - intros i Hi. destruct i; [lia|discriminate].
Defined.

Lemma log_correct_witness :
  doLogCmd no_error_text example_world (mkFlags false false []) no_output =
  (Ret 0%Z, mkOutput (line "No run logs.") [] [example_user]).
Proof.
  destruct (log_correct no_error_text example_world example_user [] no_output) as (sorted & Hp & _ & E).
  - reflexivity.
  - vm_compute. reflexivity.
  - apply Permutation_nil_r in Hp. rewrite Hp in E. exact E.
Defined.

(** Alice's runner comes first and does not answer: bob's is not told to reload. *)
Lemma all_users_correct_witness :
  ∃ out err, doReloadCmd no_error_text example_world (mkFlags false true []) no_output =
             (Ret 1%Z, mkOutput out err [alice]).
Proof.
  apply (proj2 (all_users_correct no_error_text (λ _, []) example_world [] [example_user] alice
                  (CommonError "Call to Jobber timed out." None) no_output
                  ltac:(vm_compute; reflexivity)
                  ltac:(intros u [->|[->|[]%elem_of_nil]%elem_of_cons]%elem_of_cons; vm_compute; exact I)
                  ltac:(intros u []%elem_of_nil) ltac:(vm_compute; reflexivity))).
Defined.
