(* ===== verification/Deployment.v ===== *)
(** * Master, runner and client together

    The master tells a runner on its command line, which a shell and the library
    [go-arg] take apart, where its sockets and its jobfile are; the client finds the
    socket for commands by itself.  The theorem says that they agree, as long as no path
    has a character that means something to a shell between double quotes: [quotify]
    does not escape those. *)

From S2P Require Import Prelude GoStrings Calendar SemVer TimeSpec TimeSpecParse Job JobQueue.
From S2P Require Import RunLog MemRunLog Durations FileSys FileRunLog FileRunLogFacts.
From S2P Require Import RunRecServer ResultSink JobFile JobRunner JobManager JobManagerFacts.
From S2P Require Import CommandFacts ManagerExamples GoPath Glob Settings IpcServer Master RunnerMain Client.

Open Scope nat_scope.
Open Scope bytes_scope.
Open Scope list_scope.

(** ** The shell and the parser of arguments *)

(** A word of a command line: without quotes, or between double quotes *)
Inductive word := Bare (w : bytes) | Quoted (w : bytes).

Definition render (w : word) : bytes := match w with Bare w => w | Quoted w => dquote w end.
Definition value (w : word) : bytes := match w with Bare w | Quoted w => w end.

Definition special : list ascii := [ascii_of_nat 34; "$"%char; "`"%char; "\"%char].
Definition letter (c : ascii) : bool := (97 <=? code c)%Z && (code c <=? 122)%Z || (code c =? 45)%Z.

Definition ok_word (w : word) : Prop :=
  match w with
  | Bare w => w ≠ [] ∧ Forall (λ c, letter c = true) w
  | Quoted w => Forall (λ c, c ∉ special) w
  end.

(** The words of a simple command, for [sh -c]; what [arg.MustParse] makes of the arguments *)
Class Shell := sh_words : bytes → option (list bytes).
Class ShellOk `{Shell} : Prop :=
  sh_words_quoted ws : ws ≠ [] → Forall ok_word ws →
    sh_words (Join (map render ws) " ") = Some (map value ws).

Class GoArg := parse_args : list bytes → option RunnerMain.argsS.
Class GoArgOk `{GoArg} : Prop :=
  parse_args_spec q u j t :
    Forall (λ v, head v = Some "/"%char) [q; u; j; t] →
    parse_args ["-q" : bytes; q; "-u" : bytes; u; j; "-t" : bytes; t] =
    Some (mkArgs (Some q) (Some u) None (Some t) j false).

(** ** The arguments of a runner *)

Section Deployment.
Context `{Hsh : Shell} `{!ShellOk} `{Harg : GoArg} `{!GoArgOk}.

(** The arguments of the runner that [su] starts with this command *)
Definition runner_args (cmd : bytes) : option RunnerMain.argsS :=
  words ← sh_words cmd;
  match words with
  | [] => None
  | _ :: args => parse_args args
  end.

(** An absolute path that can be quoted *)
Definition good_path (p : bytes) : Prop := head p = Some "/"%char ∧ Forall (λ c, c ∉ special) p.

Definition paths_of (s : settings) (usr : UserRec) (jobfilePath : bytes) : list bytes :=
  [LibexecProgramPath s "jobberrunner"; quitSockPath_of s usr; CmdSocketPath s usr; jobfilePath; TempDirPath s].

Definition args_of (s : settings) (usr : UserRec) (jobfilePath : bytes) : RunnerMain.argsS :=
  mkArgs (Some (quitSockPath_of s usr)) (Some (CmdSocketPath s usr)) None (Some (TempDirPath s))
    jobfilePath false.

Lemma runner_command_args s usr jobfilePath :
  Forall good_path (paths_of s usr jobfilePath) →
  runner_args (runner_command s usr jobfilePath) = Some (args_of s usr jobfilePath).
Proof.
  unfold paths_of. rewrite !Forall_cons. intros ([_ H1] & [P2 H2] & [P3 H3] & [P4 H4] & [P5 H5] & _).
  set (ws := [Quoted (LibexecProgramPath s "jobberrunner"); Bare ("-q" : bytes); Quoted (quitSockPath_of s usr);
              Bare ("-u" : bytes); Quoted (CmdSocketPath s usr); Quoted jobfilePath; Bare ("-t" : bytes);
              Quoted (TempDirPath s)]).
  unfold runner_args. change (runner_command s usr jobfilePath) with (Join (map render ws) " ").
  rewrite (sh_words_quoted ws); [|done|].
  - cbn [map value ws option_bind mbind]. apply parse_args_spec. by repeat constructor.
  - assert (Hb : ∀ w : bytes, bool_decide (w ≠ []) && forallb letter w = true → ok_word (Bare w)).
    { intros w [Hw Hl]%andb_prop. split; [by apply bool_decide_eq_true in Hw|].
      apply Forall_forall. intros c Hc. apply forallb_forall with (x:=c) in Hl; [done|]. by apply list_elem_of_In. }
    repeat constructor; try done; by apply Hb.
Qed.

Lemma args_of_accepted s usr jobfilePath :
  Forall good_path (paths_of s usr jobfilePath) → arg_error (args_of s usr jobfilePath) = None.
Proof.
  unfold paths_of. rewrite !Forall_cons. intros (_ & [P2 _] & [P3 _] & [P4 _] & [P5 _] & _).
  assert (Hne : ∀ p : bytes, head p = Some "/"%char → bool_decide (length p = 0) = false).
  { intros p Hp. apply bool_decide_eq_false. by destruct p. }
  unfold arg_error, args_of, is_empty. cbn [UnixSocket TcpPort QuitSocket ArgTempDir JobfilePath].
  rewrite !Hne by done. done.
Qed.


(** ** The sockets *)

Section Agreement.
Context `{HL : Location} `{HF : FloatFraction} `{HT : TempNames} (lib_error_text : error → bytes).
Context `{HYE : YaccErrors} `{R : Rand} `{HYaml : Yaml} `{HDoc : YamlDoc} `{HP : PrefsYaml}.

Lemma LaunchRunner_inv s usr jobfilePath la r0 r :
  LaunchRunner s usr jobfilePath la r0 = (Ret tt, r) → r = connected s usr jobfilePath.
Proof.
  unfold LaunchRunner, liftS, putS, modifyS, failS, mbind, stM_bind, connected.
  destruct (resolve la) as [[]| | |]; [|done..]. destruct (listen la) as [[]| | |]; [|done..].
  destruct (chown la) as [[]| | |]; [|done..]. destruct (start la) as [[]| | |]; [|done..].
  by destruct (first la); intros [= <-].
Qed.

(** What a runner with these arguments listens on, when it waits *)
Lemma main_with_args s usr jobfilePath ans (p p' : Process (R:=R)) :
  fresh p → RunnerMain.main lib_error_text (args_of s usr jobfilePath) ans p = (Ret None, p') →
  let sock := CmdSocketPath s usr in
  gIpcServer p' = Some (UdsServer (mkUds IpcServerTypeUds Listening sock)) ∧
  sock ∈ sockets p' ∧ TempDirPath (gSettings p') = TempDirPath s.
Proof.
  intros Hp E sock. destruct (main_inv _ _ _ _ _ Hp E) as (_ & g & u & m0 & m & Hg & _ & _ & _ & _ & E').
  assert (Ht : TempDirPath g = TempDirPath s).
  { rewrite InitSettings_eq in Hg. destruct (_ ≫= _loadPrefs) as [prefs| | |]; [|done..].
    injection Hg as <-. unfold TempDirPath at 1. cbn [gTempDir ParamTempDir args_of ArgTempDir choose].
    by destruct (gTempDir (gSettings p)). }
  revert E'. unfold serve_commands, make_server, set_server. cbn [UnixSocket args_of]. fold sock.
  rewrite modifyS_bind, stM_bind_eq. unfold try_, on_server. cbn [gIpcServer].
  unfold uds_Launch, liftS. rewrite modifyS_bind, getS_bind, stM_bind_eq. cbn [sockPath NewUdsIpcServer].
  destruct (a_resolve ans sock) as [[]|e|msg|]; [|by intros [=]%exit_with_status|done..].
  destruct (a_listen ans sock) as [[]|e|msg|]; [|by intros [=]%exit_with_status|done..].
  intros [= <-]. cbn. split; [done|]. split; [set_solver|done].
Qed.

(** C34: The three programs find each other.  The runner that the master has launched is
    told to quit by the socket the master listens on; it takes its jobs from the jobfile
    the master chose; and when it waits for commands it listens at the path where the
    client of that user, with the same directory for sockets, looks. *)
Theorem deployment_agrees s usr jobfilePath la r0 r :
  LaunchRunner s usr jobfilePath la r0 = (Ret tt, r) →
  Forall good_path (paths_of s usr jobfilePath) →
  quitSockListener r = true ∧
  ∃ cmd args, proc r = Some (Sudo usr cmd) ∧ runner_args cmd = Some args ∧
    QuitSocket args = Some (quitSockPath r) ∧ RunnerMain.JobfilePath args = jobfilePath ∧
    ∀ ans (p p' : Process (R:=R)) w,
      fresh p → RunnerMain.main lib_error_text args ans p = (Ret None, p') →
      VarDirPath (w_settings w) = VarDirPath s →
      let sock := CmdSocketPath (w_settings w) usr in
      gIpcServer p' = Some (UdsServer (mkUds IpcServerTypeUds Listening sock)) ∧
      sock ∈ sockets p' ∧ TempDirPath (gSettings p') = TempDirPath s.
Proof.
  intros ->%LaunchRunner_inv Hgood. split; [done|].
  exists (runner_command s usr jobfilePath), (args_of s usr jobfilePath).
  split; [done|]. split; [by apply runner_command_args|]. split; [done|]. split; [done|].
  intros ans p p' w Hp E Hvar sock.
  assert (sock = CmdSocketPath s usr) as ->.
  { unfold sock, CmdSocketPath, PerUserDirPath. by rewrite Hvar. }
  by apply (main_with_args s usr jobfilePath ans p).
Qed.

End Agreement.
End Deployment.

(** ** A shell and a parser of arguments *)

(** Words separated by spaces, with double quotes; anything special in them is not
    understood. *)
Fixpoint sh_go (quoted : bool) (cur : option bytes) (s : bytes) : option (list bytes) :=
  match s with
  | [] => if quoted then None else Some (match cur with Some w => [w] | None => [] end)
  | c :: s =>
     if bool_decide (c = ascii_of_nat 34) then sh_go (negb quoted) (Some (default [] cur)) s
     else if bool_decide (c ∈ special) then None
     else if negb quoted && bool_decide (c = " "%char) then
       match cur with
       | Some w => cons w <$> sh_go false None s
       | None => sh_go false None s
       end
     else sh_go quoted (Some (default [] cur ++ [c])) s
  end.

Definition simple_sh : Shell := sh_go false None.

Lemma sh_go_plain quoted cur w s :
  Forall (λ c, c ∉ special ∧ (quoted = false → c ≠ " "%char)) w → w ≠ [] →
  sh_go quoted cur (w ++ s) = sh_go quoted (Some (default [] cur ++ w)) s.
Proof.
  intros Hw. revert cur. induction Hw as [|c w [Hc Hs] Hw IH]; intros cur Hne; [done|].
  cbn [app sh_go]. rewrite bool_decide_false by (intros ->; apply Hc; by left).
  rewrite bool_decide_false by done.
  replace (negb quoted && bool_decide (c = " "%char)) with false
    by (destruct quoted; [done|]; cbn; symmetry; apply bool_decide_eq_false; auto).
  destruct w as [|c' w]; [done|]. rewrite IH by done.
  change (c :: c' :: w) with ([c] ++ c' :: w). by rewrite app_assoc.
Qed.

Lemma letter_plain c : letter c = true → c ∉ special ∧ c ≠ " "%char.
Proof.
  intros Hl. split; [|by intros ->]. unfold special. rewrite !elem_of_cons, elem_of_nil.
  intros [->|[->|[->|[->|[]]]]]; discriminate Hl.
Qed.

Lemma sh_go_word w s :
  ok_word w → sh_go false None (render w ++ s) = sh_go false (Some (value w)) s.
Proof.
  destruct w as [w|w]; cbn [render value ok_word].
  - intros [Hne Hw]. rewrite (sh_go_plain false None w); [done| |done].
    eapply Forall_impl; [exact Hw|]. intros c [Hc Hs]%letter_plain. by split.
  - intros Hw. unfold dquote. rewrite <- !app_assoc. cbn [app sh_go]. rewrite bool_decide_true by done.
    cbn [negb default]. destruct w as [|c w].
    + cbn [app sh_go]. by rewrite bool_decide_true.
    + rewrite (sh_go_plain true); [|by eapply Forall_impl; [exact Hw|]|done].
      cbn [app sh_go default]. by rewrite bool_decide_true.
Qed.

#[local] Existing Instance simple_sh.

Lemma simple_sh_ok : ShellOk.
Proof.
  intros ws Hne Hw. unfold sh_words, simple_sh. induction Hw as [|w ws Hok Hw IH]; [done|].
  cbn [map Join]. destruct ws as [|w' ws].
  - cbn [map]. rewrite <- (app_nil_r (render w)) at 1. by rewrite sh_go_word.
  - cbn [map] in *. rewrite sh_go_word by done. cbn [app sh_go].
    change (Join (render w' :: map render ws) " ") with (Join (map render (w' :: ws)) " ") in *.
    rewrite IH by done. done.
Qed.

(** Options with their values, and one argument that is no option. *)
Fixpoint args_go (acc : RunnerMain.argsS) (l : list bytes) : option RunnerMain.argsS :=
  match l with
  | [] => Some acc
  | o :: l =>
     if bool_decide (head o = Some "-"%char) then
       match l with
       | [] => None
       | v :: l =>
          if bool_decide (o = ("-q" : bytes)) then
            args_go (mkArgs (Some v) (UnixSocket acc) (TcpPort acc) (ArgTempDir acc) (RunnerMain.JobfilePath acc)
                       (DebugFlag acc)) l
          else if bool_decide (o = ("-u" : bytes)) then
            args_go (mkArgs (QuitSocket acc) (Some v) (TcpPort acc) (ArgTempDir acc) (RunnerMain.JobfilePath acc)
                       (DebugFlag acc)) l
          else if bool_decide (o = ("-t" : bytes)) then
            args_go (mkArgs (QuitSocket acc) (UnixSocket acc) (TcpPort acc) (Some v) (RunnerMain.JobfilePath acc)
                       (DebugFlag acc)) l
          else None
       end
     else
       args_go (mkArgs (QuitSocket acc) (UnixSocket acc) (TcpPort acc) (ArgTempDir acc) o (DebugFlag acc)) l
  end.

#[local] Instance simple_args : GoArg := args_go (mkArgs None None None None [] false).

Lemma simple_args_ok : GoArgOk.
Proof.
  intros q u j t. rewrite !Forall_cons. intros (_ & _ & Hj & _).
  unfold parse_args, simple_args. cbn [args_go head].
  repeat first [rewrite bool_decide_true by done|rewrite bool_decide_false by done].
  rewrite (bool_decide_false (head j = _)) by (by rewrite Hj).
  repeat first [rewrite bool_decide_true by done|rewrite bool_decide_false by done]. done.
Qed.

#[local] Existing Instances UTC exact_fraction exact_fraction_ok FileRunLogFacts.example_temp
  TimeSpecParse.no_text first_rand first_rand_ok example_yaml example_yaml_ok example_doc empty_prefs_yaml
  simple_sh_ok simple_args_ok.

Definition listening_answers : Answers := mkAnswers (λ _, Ret []) (Ret example_user) example_outside
  (example_inputs no_file) (example_inputs no_file) (λ _, Ret tt) (λ _, Ret tt) [].

(** The path of bob's socket for commands *)
Definition bobs_socket : bytes := CmdSocketPath (w_settings example_world) example_user.

Lemma deployment_agrees_witness :
  ∃ cmd args, runner_args cmd = Some args ∧
    gIpcServer (RunnerMain.main no_error_text args listening_answers example_process).2 =
    Some (UdsServer (mkUds IpcServerTypeUds Listening bobs_socket)).
Proof.
  destruct (deployment_agrees no_error_text (initial_settings "/tmp" "/etc") example_user "/home/bob/.jobber"
              all_well clean (connected (initial_settings "/tmp" "/etc") example_user "/home/bob/.jobber"))
    as (_ & cmd & args & Hproc & Ha & _ & _ & Hmain).
  - reflexivity.
  - apply (bool_decide_unpack _). vm_compute. exact I.
  - assert (Hcmd : cmd = runner_command (initial_settings "/tmp" "/etc") example_user "/home/bob/.jobber")
      by exact (eq_sym (f_equal (λ o, nth 5 (default [] o) []) Hproc)).
    rewrite Hcmd in Ha. exists cmd, args. split; [rewrite Hcmd; exact Ha|].
    assert (Hargs : args = args_of (initial_settings "/tmp" "/etc") example_user "/home/bob/.jobber")
      by (vm_compute in Ha; injection Ha as <-; vm_compute; reflexivity).
    destruct (RunnerMain.main no_error_text args listening_answers example_process) as [o p'] eqn:E.
    assert (Ho : o = Ret None) by (rewrite Hargs in E; apply (f_equal fst) in E; vm_compute in E; exact (eq_sym E)).
    rewrite Ho in E. unfold bobs_socket.
    destruct (Hmain listening_answers example_process p' example_world (conj eq_refl eq_refl) E eq_refl) as [H _].
    exact H.
Defined.
